(* ===== verification/_CoqProject ===== *)
-Q . S2P
Prelude.v
Metrics.v
Message.v
Tcp.v
Rpc.v
RpcPool.v
Registry.v
RegistryConc.v
Sql.v
Valuer.v
Insert.v
Reflect.v
Orm.v
OrmMiddleware.v
OrmTx.v
OrmRoundtrip.v
Router.v
RouteTable.v
Web.v
WebStack.v
Files.v
Session.v
Cache.v
CacheConc.v
MaxCnt.v
Patterns.v
Flight.v
Coherence.v
RedisLock.v
SingleLock.v
Pool.v
Concurrency.v
TaskPool.v
OrmGen.v
Shutdown.v
ShutdownMain.v
Series.v
Calc.v
