(* ===== verification/Prelude.v ===== *)
(** * A verification development of the gotest repository

    The repository is a set of Go libraries written side by side: an RPC
    framework ([micro/]), an ORM ([orm/]), a web framework ([web/]) and a family
    of caches ([cache/]).  This development translates them into executable
    definitions and proves what makes each part correct; where the code departs
    from what it means to do, the theorem states what it does.

    ** How Go is modelled

    This file holds what all others share.  A call returns a value or panics:
    [go A].  A method on a mutable receiver that returns an error is a
    computation of the state, error and panic monad [GM S E A], in which what
    the receiver suffered survives an error.  Bytes are [Init.Byte.byte], 32-bit
    fields are [Z] with the wrap-around written out, strings are sequences of bytes, slices
    check their bounds, a slice that may be nil is an [option] where that can be told, maps are [gmap], and a map that is ranged over comes
    with the order of the iteration as an argument.  Shared pointers are
    addresses into an explicit store.  Critical sections of concurrent code are
    functions on the protected state; step relations interleave them for any
    number of goroutines.

    ** The parts

    - [Metrics]: the registerer of Prometheus as a class, which the middlewares of
      [web] and [orm] share.
    - [Message] ([micro/rpc/message]): the wire format.  Encoders are proved to
      write exactly the wire image ([EncodeReq_refines_image]), decoders to be
      total on arbitrary bytes and to invert the encoders, but for what becomes of nil
      and empty fields ([DecodeReq_EncodeReq]).
    - [Tcp] ([micro/rpc/tcp.go], [micro/net/client.go], [server.go]): frames over
      a stream of segments; which splittings are read back, what a peer can make
      the reader do ([ReadMsg_bounds]), and the accept loops.
    - [Rpc] ([micro/rpc/client.go], [server.go], [user_service.go]): proxy, client,
      connection loop, service table, over a network that is given.  When it delivers
      each message whole, a call returns what the method returns, and otherwise
      it decodes zero bytes ([proxy_fn_remote]); which errors reach the caller, and
      which end the client or the server ([proxy_fn_errors]).  [RpcPool]: the client over its connection pool, with calls from any
      goroutines; it runs out of connections ([client_exhausts]).
    - [Registry] ([orm/model]): metadata from type descriptors; what [Register]
      accepts and the maps it builds; caching; column names.  [RegistryConc]:
      goroutines on one registry ([registry_linearizable]), and when the options of
      a type are lost.
    - [Sql] ([orm/select.go] and the expression language): the builder is a
      monadic program over a buffer; it refines a compositional renderer, from
      which the properties of the SQL follow (injection safety, placeholders).
    - [Valuer] ([orm/internal/valuer]): field access by reflection and by offset,
      two instances of one class that are proved to agree and to keep every
      address at its type.
    - [Reflect] ([orm/reflect], [orm/unsafe], [orm/sql_demo/json.go]): the exercises
      on the same memory; setting by name and by offset agree where both may.
    - [Insert] ([orm/insert.go], [dialect.go]): INSERT and upserts, by the
      interface of [Valuer]; dialects are records of methods.
    - [Orm] ([orm/core.go], [db.go], [transaction.go]): handlers, middleware
      chains, transactions, over a class for [database/sql]; what a query did
      survives its panic.
    - [OrmMiddleware] ([orm/middlewares]): the four middlewares with their deferred
      calls; they only observe an INSERT and a raw query, and they double a
      SELECT, whose builder is not reset.
    - [OrmTx]: transactions as programs that [DoTx] runs, over the laws of
      [database/sql]: none leaks, and what becomes of each
      ([DoTx_transaction]).
    - [OrmRoundtrip]: [Insert], [Sql], [Valuer] and [Orm] together: an entity that is
      inserted and selected again comes back with equal fields, for every valuer
      that keeps the laws of [CreatorLaws].
    - [Router] and [Web] ([web/router.go], [serve.go], [context.go],
      [template.go], middlewares): the route tree with its partial mutations,
      matching, the dispatch, the context with its template engine, and the
      middlewares with deferred calls and recovery.
    - [RouteTable]: the route table that [Router] implements
      ([findRoute_refines]): which registered route a request gets.
    - [WebStack]: the framework put together: a server that was set up and its stack
      of middlewares answer as the route table says ([ServeHTTP_table]).
    - [Files] ([web/file.go]): upload, download and static files.
    - [Session] ([web/session]): the manager against a lawful [Store]; the
      memory store discharges the laws; the Redis store.
    - [Cache] and [MaxCnt] ([cache/local_cache.go], [max_cnt_cache.go]): methods
      as critical sections under a lock.  [CacheConc]: goroutines that take the lock
      step by step; their calls are atomic operations in some order
      ([cache_linearizable]), until a [Delete] gives back a lock that it does not
      hold.  The bounded cache is [CacheConc] with another [Set]; its count holds
      ([MaxCnt_invariant]) until that happens (example [missed_exceeds]).
    - [Patterns] ([cache/read_through.go], [write_through.go], [bloom_cache.go],
      [singleflight.go], [redis_cache.go]): the patterns as programs: trees of
      their operations on the class of caches, the database and the singleflight
      group, with [Cache] as a lawful instance.  [Flight]: their concurrent
      callers over a singleflight group, interleaved step by step
      ([singleflight_shares]); a caller alone does what [Patterns] says.
      [Coherence]: the programs of any number of callers and of their goroutines over
      one cache and one database, interleaved at each operation: which keys stay
      the database's ([patterns_coherent]), over the local cache and the bounded
      one.
    - [RedisLock] ([cache/redis_lock.go], its scripts, [retry.go]): the lock
      against the commands of Redis and every fault of the network; one caller of
      [SingleLock] over whatever the group of calls delivers.  The file
      SingleLock.v: all its callers and the functions of the group, step by step
      ([SingleLock_callers]).
    - [Pool] ([micro/net/pool.go]): the connection pool as a step relation;
      ownership, bounds, and what is lost for good.
    - [Concurrency] ([cache/concurrency]): the safe map, the message brokers
      over channels with and without a buffer, the spin lock and the singleton.
      [TaskPool]: the pool of goroutines, and the programs that use it, which get
      nothing done, for its constructor keeps the pool ([TaskPool_unusable]).
    - [OrmGen] ([orm/gen/orm-gen]): the visitors and the template of the code
      generator, checked against the generated file in the repository.
    - [Series] ([package/series]): Fibonacci numbers, exact until they overflow.
      [Calc] ([tTest/calc]): the body mass exercises in 64-bit floating point.
    - [Shutdown] ([cache/homework_graceful_shutdown]): both builds of the graceful
      shutdown as one step relation; the order of its stages, and its end; a
      request may read the unsynchronised mark of its server too early.
      [ShutdownMain]: the program of [main.go], whose callback never ends before
      its deadline ([flush_late]).

    An operation keeps the name it has in the code where possible; a method
    whose name is taken carries its receiver ([Selector_Build], [MaxCnt_Set]);
    a part of a function, such as a loop body, is a definition of its own.

    ** Interfaces

    Components meet in classes: [Valuer.Creator] between the valuers and the query
    code, with its laws in [OrmRoundtrip.CreatorLaws], [Orm.SqlDB] for the
    database with the laws of its transactions in [OrmTx.TxLaws], [Session.Store]
    with its laws, [Patterns.CacheOps] with [CacheLaws] and [Coherence.CacheView],
    [RedisLock.Redis] with [RedisLaws], [RpcPool.ConnPool] with [ConnPoolLaws],
    [Files.FileSystem] and [LruCache], [Metrics.Registerer] with its laws. Code
    outside the repository ([encoding/json], [reflect], go-redis, go-cache,
    [database/sql]) appears only as such a class or as an argument, with its
    documented behaviour as laws, and each theorem that uses laws is applied to a
    concrete instance by its witness.

    ** Fuel

    Few loops are not structural.  [decodeMeta] gets one more than the bytes
    left, and each round consumes some ([DecodeReq_total] shows that the fuel
    never runs out); the connection loops [handleConn] and [net_handleConn] get
    more than the unread bytes, which suffices because a round that goes on has
    read at least a header ([handleConn_pipeline]); the loop of
    [Reflect.IterateArrayOrSlice] gets the length of the list
    ([IterateArrayOrSlice_all]) and that of [Concurrency.spin_Lock] the eleven
    tests it makes at most.  Where goroutines interleave, a run is a list of
    events of any length and needs no fuel; [shutdown_terminates] bounds the
    steps of a shutdown.  A caller of the patterns that nobody disturbs gets five
    steps, which are enough for each of its calls ([read_undisturbed]).

    ** What is not modelled

    The sockets themselves: listening and dialling are outcomes that are given,
    a connection is what its peer delivers, and a query of the database or a call of
    a cache through [Patterns] is one step.  The Go parser of the generator,
    the formatting of log lines, and [html/template] behind the template engine.
    Generated code, mocks and the types of the integration tests, and functions
    that only print. *)
From stdpp Require Export base gmap strings list fin_maps.
From Stdlib Require Export ZArith.
From Stdlib Require Ascii Strings.String Strings.Byte.
Export (notations) Ascii.AsciiSyntax.
Delimit Scope char_scope with char.
Abbreviation byte := Corelib.Init.Byte.byte.
From Stdlib Require Export Lia.

#[export] Set Default Goal Selector "!".
#[export] Set Warnings "-register-all,-level-tolerance".

(** ** Outcomes of Go code: a value, or a run-time panic *)

Inductive panic :=
  | PIndex                       (** index out of range *)
  | PSlice                       (** slice bounds out of range *)
  | PNilDeref                    (** nil pointer dereference *)
  | PTypeAssert                  (** failed type assertion *)
  | PFatal (msg : string)        (** unrecoverable runtime error *)
  | PUser (msg : string)         (** [panic(msg)] of the program *)
  | PFuel.                       (** the model's fuel ran out: shown unreachable *)

Inductive go (A : Type) :=
  | Ok (a : A)
  | Panic (p : panic).
Arguments Ok {A} a.
Arguments Panic {A} p.

#[export] Instance go_ret : MRet go := fun A a => Ok a.
#[export] Instance go_bind : MBind go := fun A B f m =>
  match m with Ok a => f a | Panic p => Panic p end.
#[export] Instance go_fmap : FMap go := fun A B f m =>
  match m with Ok a => Ok (f a) | Panic p => Panic p end.

#[export] Instance panic_eq_dec : EqDecision panic.
Proof. solve_decision. Defined.
#[export] Instance go_eq_dec {A} `{EqDecision A} : EqDecision (go A).
Proof. solve_decision. Defined.

Definition go_of_option {A} (p : panic) (o : option A) : go A :=
  match o with Some a => Ok a | None => Panic p end.

Lemma go_bind_Ok {A B} (f : A -> go B) a : (Ok a ≫= f) = f a.
Proof. reflexivity. Qed.
Lemma go_bind_Panic {A B} (f : A -> go B) p : (Panic p ≫= f) = Panic p.
Proof. reflexivity. Qed.
Lemma go_bind_inv {A B} (m : go A) (f : A -> go B) b :
  (m ≫= f) = Ok b -> exists a, m = Ok a /\ f a = Ok b.
Proof. destruct m; simpl; [eauto | discriminate]. Qed.

(** ** A state, error and panic monad

    [GM S E A] is the meaning of a Go method on a mutable receiver of type [S]
    that returns [(A, error)]: the receiver's mutations survive an error
    return, and a panic ends the computation. *)

Definition GM (S E A : Type) : Type := S -> go (S * (E + A)).

#[export] Instance GM_ret {S E} : MRet (GM S E) := fun A a s => Ok (s, inr a).
#[export] Instance GM_bind {S E} : MBind (GM S E) := fun A B f m s =>
  match m s with
  | Ok (s', inr a) => f a s'
  | Ok (s', inl e) => Ok (s', inl e)
  | Panic p => Panic p
  end.

Definition gm_get {S E} : GM S E S := fun s => Ok (s, inr s).
Definition gm_modify {S E} (f : S -> S) : GM S E unit := fun s => Ok (f s, inr tt).
Definition gm_err {S E A} (e : E) : GM S E A := fun s => Ok (s, inl e).
Definition gm_panic {S E A} (p : panic) : GM S E A := fun _ => Panic p.
Definition gm_lift {S E A} (m : go A) : GM S E A := fun s =>
  match m with Ok a => Ok (s, inr a) | Panic p => Panic p end.

Lemma GM_bind_eq {S E A B} (m : GM S E A) (f : A -> GM S E B) s :
  (m ≫= f) s = match m s with
               | Ok (s', inr a) => f a s'
               | Ok (s', inl e) => Ok (s', inl e)
               | Panic p => Panic p
               end.
Proof. reflexivity. Qed.

Lemma GM_bind_inv {S E A B} (m : GM S E A) (f : A -> GM S E B) s s' b :
  (m ≫= f) s = Ok (s', inr b) ->
  exists s1 a, m s = Ok (s1, inr a) /\ f a s1 = Ok (s', inr b).
Proof.
  rewrite GM_bind_eq. destruct (m s) as [[s1 [e|a]]|p]; try discriminate. eauto.
Qed.

Lemma GM_bind_assoc {S E A B C} (m : GM S E A) (f : A -> GM S E B) (g : B -> GM S E C) s :
  ((m ≫= f) ≫= g) s = (m ≫= (fun a => f a ≫= g)) s.
Proof. rewrite !GM_bind_eq. destruct (m s) as [[s1 [e|a]]|p]; done. Qed.

(** ** Bytes *)

#[export] Instance byte_eq_dec : EqDecision byte := Byte.byte_eq_dec.
#[export] Program Instance byte_countable : Countable byte :=
  inj_countable Byte.to_N Byte.of_N _.
Next Obligation. intros b. apply Byte.of_to_N. Qed.

Definition byte_Z (b : byte) : Z := Z.of_N (Byte.to_N b).
Definition Z_byte (z : Z) : byte :=
  match Byte.of_N (Z.to_N (z `mod` 256)) with Some b => b | None => Corelib.Init.Byte.x00 end.

Lemma byte_Z_range b : (0 <= byte_Z b < 256)%Z.
Proof. unfold byte_Z. pose proof (Byte.to_N_bounded b). lia. Qed.

Lemma byte_Z_byte z : byte_Z (Z_byte z) = (z `mod` 256)%Z.
Proof.
  unfold byte_Z, Z_byte.
  pose proof (Z.mod_pos_bound z 256 ltac:(lia)) as Hz.
  destruct (Byte.of_N (Z.to_N (z `mod` 256))) as [b|] eqn:Hb.
  - apply Byte.to_of_N in Hb. rewrite Hb. lia.
  - apply Byte.of_N_None_iff in Hb. lia.
Qed.

Lemma Z_byte_Z b : Z_byte (byte_Z b) = b.
Proof.
  unfold Z_byte. rewrite Z.mod_small by apply byte_Z_range.
  unfold byte_Z. rewrite N2Z.id, Byte.of_to_N. reflexivity.
Qed.

(** Go's [len] of a string, and the conversions [[]byte(s)] and [string(bs)]. *)
Definition bytes_of (s : string) : list byte := String.list_byte_of_string s.
Definition string_of (bs : list byte) : string := String.string_of_list_byte bs.

Lemma string_of_bytes_of s : string_of (bytes_of s) = s.
Proof. apply String.string_of_list_byte_of_string. Qed.
Lemma bytes_of_string_of bs : bytes_of (string_of bs) = bs.
Proof. apply String.list_byte_of_string_of_list_byte. Qed.
Lemma length_bytes_of s : length (bytes_of s) = String.length s.
Proof.
  unfold bytes_of, String.list_byte_of_string. induction s as [|c s IH]; simpl; [done|].
  f_equal. exact IH.
Qed.
#[export] Instance bytes_of_inj : Inj (=) (=) bytes_of.
Proof. intros s1 s2 H. rewrite <-(string_of_bytes_of s1), H. apply string_of_bytes_of. Qed.

(** ** Slices of [[]byte]: every slice expression checks its bounds *)

Definition slice_from {A} (n : nat) (l : list A) : go (list A) :=
  if decide (n <= length l) then Ok (drop n l) else Panic PSlice.
Definition slice_to {A} (n : nat) (l : list A) : go (list A) :=
  if decide (n <= length l) then Ok (take n l) else Panic PSlice.
Definition slice_range {A} (i j : nat) (l : list A) : go (list A) :=
  if decide (i <= j /\ j <= length l) then Ok (drop i (take j l)) else Panic PSlice.
Definition index_at {A} (i : nat) (l : list A) : go A := go_of_option PIndex (l !! i).

(** [bytes.IndexByte], with [None] for -1. *)
Fixpoint index_byte (b : byte) (l : list byte) : option nat :=
  match l with
  | [] => None
  | x :: l' => if decide (x = b) then Some 0 else S <$> index_byte b l'
  end.

Lemma app_cons_snoc {A} (l : list A) x k : l ++ x :: k = (l ++ [x]) ++ k.
Proof. by rewrite <-app_assoc. Qed.
Lemma slice_from_ok {A} n (l : list A) : n <= length l -> slice_from n l = Ok (drop n l).
Proof. intros H. unfold slice_from. by rewrite decide_True. Qed.
Lemma slice_to_ok {A} n (l : list A) : n <= length l -> slice_to n l = Ok (take n l).
Proof. intros H. unfold slice_to. by rewrite decide_True. Qed.
Lemma slice_range_ok {A} i j (l : list A) :
  i <= j -> j <= length l -> slice_range i j l = Ok (drop i (take j l)).
Proof. intros Hi Hj. unfold slice_range. by rewrite decide_True. Qed.
Lemma slice_to_app {A} (l k : list A) : slice_to (length l) (l ++ k) = Ok l.
Proof. rewrite slice_to_ok by (rewrite length_app; lia). by rewrite take_app_length. Qed.
Lemma slice_from_app {A} (l k : list A) : slice_from (length l) (l ++ k) = Ok k.
Proof. rewrite slice_from_ok by (rewrite length_app; lia). by rewrite drop_app_length. Qed.
Lemma slice_from_app_S {A} (l : list A) x k :
  slice_from (S (length l)) (l ++ x :: k) = Ok k.
Proof.
  rewrite slice_from_ok by (rewrite length_app; simpl; lia). f_equal.
  replace (S (length l)) with (length (l ++ [x])) by (rewrite length_app; simpl; lia).
  rewrite (app_cons_snoc l x k). by rewrite drop_app_length.
Qed.

Lemma slice_range_mid {A} i j (l k r : list A) :
  i = length l -> j = length l + length k -> slice_range i j (l ++ k ++ r) = Ok k.
Proof.
  intros -> ->. rewrite slice_range_ok by (rewrite ?length_app; lia).
  by rewrite take_app_add, take_app_length, drop_app_length.
Qed.
Lemma slice_from_mid {A} j (l k r : list A) :
  j = length l + length k -> slice_from j (l ++ k ++ r) = Ok r.
Proof. intros ->. rewrite app_assoc, <-length_app. apply slice_from_app. Qed.

Lemma index_byte_app b l k : b ∉ l -> index_byte b (l ++ b :: k) = Some (length l).
Proof.
  induction l as [|x l IH]; simpl; intros Hb.
  - by rewrite decide_True.
  - apply not_elem_of_cons in Hb as [Hx Hl].
    rewrite decide_False by congruence. by rewrite (IH Hl).
Qed.
Lemma index_byte_lt b l i : index_byte b l = Some i -> i < length l.
Proof.
  revert i. induction l as [|x l IH]; simpl; intros i; [done|].
  case_decide; [intros [= <-]; lia|].
  destruct (index_byte b l) as [j|]; simpl; [|done].
  intros [= <-]. specialize (IH j eq_refl). lia.
Qed.

(** ** Strings as Go uses them: [strings.Split], [strings.Trim], [strings.Join] *)

Abbreviation char := Ascii.ascii.

Fixpoint chars (s : string) : list char :=
  match s with EmptyString => [] | String c s' => c :: chars s' end.
Fixpoint of_chars (l : list char) : string :=
  match l with [] => EmptyString | c :: l' => String c (of_chars l') end.

(** [strings.Split s sep] for a one-character separator: never empty. *)
Fixpoint split_on (c : char) (s : string) : list string :=
  match s with
  | EmptyString => [EmptyString]
  | String a s' =>
      if decide (a = c) then EmptyString :: split_on c s'
      else match split_on c s' with
           | [] => [String a EmptyString]
           | w :: ws => String a w :: ws
           end
  end.

(** [strings.Join]. *)
Fixpoint join (sep : string) (l : list string) : string :=
  match l with
  | [] => EmptyString
  | [w] => w
  | w :: ws => w +:+ sep +:+ join sep ws
  end.

Fixpoint trim_left (c : char) (s : string) : string :=
  match s with
  | String a s' => if decide (a = c) then trim_left c s' else s
  | EmptyString => EmptyString
  end.
Fixpoint trim_right (c : char) (s : string) : string :=
  match s with
  | EmptyString => EmptyString
  | String a s' =>
      match trim_right c s' with
      | EmptyString => if decide (a = c) then EmptyString else String a EmptyString
      | t => String a t
      end
  end.
(** [strings.Trim s (string c)]. *)
Definition trim (c : char) (s : string) : string := trim_right c (trim_left c s).

Lemma chars_app s t : chars (s +:+ t) = chars s ++ chars t.
Proof. induction s as [|c s IH]; simpl; [done|]. by rewrite IH. Qed.
Lemma of_chars_chars s : of_chars (chars s) = s.
Proof. induction s as [|c s IH]; simpl; [done|]. by rewrite IH. Qed.
Lemma chars_of_chars l : chars (of_chars l) = l.
Proof. induction l as [|c l IH]; simpl; [done|]. by rewrite IH. Qed.
#[export] Instance chars_inj : Inj (=) (=) chars.
Proof. intros s t H. rewrite <-(of_chars_chars s), H. apply of_chars_chars. Qed.
Lemma string_app_nil_r s : s +:+ "" = s.
Proof. apply (inj chars). rewrite chars_app. apply app_nil_r. Qed.
Lemma string_app_assoc s t u : s +:+ t +:+ u = (s +:+ t) +:+ u.
Proof. apply (inj chars). rewrite !chars_app. apply app_assoc. Qed.

Lemma split_on_not_nil c s : split_on c s <> [].
Proof. destruct s as [|a s]; simpl; [done|]. case_decide; [done|]. by case_match. Qed.

Lemma split_on_no_sep c s : c ∉ chars s -> split_on c s = [s].
Proof.
  induction s as [|a s IH]; simpl; intros Hc; [done|].
  apply not_elem_of_cons in Hc as [Ha Hs].
  rewrite decide_False by congruence. by rewrite (IH Hs).
Qed.

Lemma split_on_app c w s :
  c ∉ chars w -> split_on c (w +:+ String c s) = w :: split_on c s.
Proof.
  induction w as [|a w IH]; simpl; intros Hc.
  - by rewrite decide_True.
  - apply not_elem_of_cons in Hc as [Ha Hw].
    rewrite decide_False by congruence. by rewrite (IH Hw).
Qed.

(** Splitting a joined list gives the list back, when no part has the separator. *)
Lemma split_on_join c l :
  l <> [] -> Forall (fun w => c ∉ chars w) l ->
  split_on c (join (String c "") l) = l.
Proof.
  intros Hne Hl. induction Hl as [|w l Hw Hl IH]; [done|].
  destruct l as [|w' l].
  - simpl. by apply split_on_no_sep.
  - change (join (String c "") (w :: w' :: l))
      with (w +:+ String c (join (String c "") (w' :: l))).
    rewrite split_on_app by done. by rewrite IH.
Qed.

Lemma split_on_parts c s : Forall (fun w => c ∉ chars w) (split_on c s).
Proof.
  induction s as [|a s IH]; simpl.
  - repeat constructor. apply not_elem_of_nil.
  - case_decide as Ha.
    + constructor; [apply not_elem_of_nil|done].
    + destruct (split_on c s) as [|w ws] eqn:Hs; [by apply split_on_not_nil in Hs|].
      inversion IH as [|? ? Hw Hws]; subst.
      constructor; [|done]. simpl. apply not_elem_of_cons. split; [congruence|done].
Qed.

Lemma join_cons sep w l : l <> [] -> join sep (w :: l) = w +:+ sep +:+ join sep l.
Proof. by destruct l. Qed.
Lemma join_string_app sep l k : l <> [] -> k <> [] -> join sep (l ++ k) = join sep l +:+ sep +:+ join sep k.
Proof.
  intros Hl Hk. induction l as [|w l IH]; [done|]. destruct l as [|w' l].
  - cbn [app]. by rewrite join_cons.
  - cbn [app] in *. rewrite (join_cons sep w (w' :: l ++ k)), (join_cons sep w (w' :: l)) by done.
    rewrite IH by done. by rewrite !string_app_assoc.
Qed.
Lemma join_push sep a w l : join sep (String a w :: l) = String a (join sep (w :: l)).
Proof. by destruct l. Qed.

Lemma join_split_on c s : join (String c "") (split_on c s) = s.
Proof.
  induction s as [|a s IH]; [done|]. cbn [split_on].
  pose proof (split_on_not_nil c s) as Hne.
  case_decide as Ha.
  - subst a. rewrite join_cons by done. by rewrite IH.
  - destruct (split_on c s) as [|w ws]; [done|]. by rewrite join_push, IH.
Qed.

Lemma trim_left_id c s : head (chars s) <> Some c -> trim_left c s = s.
Proof. destruct s as [|a s]; simpl; [done|]. intros H. rewrite decide_False; congruence. Qed.
Lemma trim_right_id c s : last (chars s) <> Some c -> trim_right c s = s.
Proof.
  induction s as [|a s IH]; [done|]. cbn [chars trim_right].
  destruct s as [|a' s].
  - simpl. intros H. rewrite decide_False; congruence.
  - intros H. rewrite IH; [done|]. exact H.
Qed.

(** First match in a list of key-value pairs. *)
Fixpoint assoc {K V} `{EqDecision K} (k : K) (l : list (K * V)) : option V :=
  match l with
  | [] => None
  | kv :: l' => if decide (kv.1 = k) then Some kv.2 else assoc k l'
  end.

Lemma assoc_cons_eq {K V} `{EqDecision K} (k : K) (v : V) l : assoc k ((k, v) :: l) = Some v.
Proof. cbn. by rewrite decide_True. Qed.
Lemma assoc_cons_ne {K V} `{EqDecision K} (k k' : K) (v : V) l :
  k' <> k -> assoc k ((k', v) :: l) = assoc k l.
Proof. intros H. cbn. by rewrite decide_False. Qed.

(** ** Permutations

    By counting: both sides are flattened to sums. *)
Create Rewrite HintDb occ.
Definition occ {A} `{EqDecision A} (x : A) (l : list A) : nat := count_occ (fun a b => decide (a = b)) l x.
Definition one {A} `{EqDecision A} (x y : A) : nat := if decide (x = y) then 1 else 0.
Arguments occ : simpl never.
Arguments one : simpl never.
Lemma perm_occ {A} `{EqDecision A} (l1 l2 : list A) : l1 ≡ₚ l2 <-> forall x, occ x l1 = occ x l2.
Proof. apply Permutation_count_occ. Qed.
Lemma occ_cons {A} `{EqDecision A} (x y : A) l : occ x (y :: l) = one y x + occ x l.
Proof. unfold occ, one. cbn. by case_decide. Qed.
Lemma occ_app {A} `{EqDecision A} (x : A) l1 l2 : occ x (l1 ++ l2) = occ x l1 + occ x l2.
Proof. apply count_occ_app. Qed.
Lemma occ_nil {A} `{EqDecision A} (x : A) : occ x [] = 0.
Proof. reflexivity. Qed.
#[export] Hint Rewrite @occ_cons @occ_app @occ_nil @fmap_app @fmap_cons @fmap_nil @bind_app @bind_cons : occ.
Lemma one_le {A} `{EqDecision A} (x y : A) : one x y <= 1.
Proof. unfold one. case_decide; lia. Qed.
(** Turns permutations into equations of counts at [z]. *)
Ltac perm_counts z :=
  repeat match goal with H : _ ≡ₚ _ |- _ => apply perm_occ with (x := z) in H || clear H end;
  autorewrite with occ in *; cbn in *; autorewrite with occ in *; cbn in *.
Ltac perm_solve := apply perm_occ; intros ?z; perm_counts z; lia.

(** ** Lists *)

(** Sums over the goroutines of a program, one of which moves. *)
Lemma sum_list_insert {A} (f : A -> nat) l i x y :
  l !! i = Some x -> sum_list_with f (<[i := y]> l) + f x = sum_list_with f l + f y.
Proof.
  revert i. induction l as [|z l IH]; intros [|i]; [done|done| |].
  - intros [= ->]. cbn. lia.
  - intros Hi. specialize (IH _ Hi).
    change (f z + sum_list_with f (<[i := y]> l) + f x = f z + sum_list_with f l + f y). lia.
Qed.
Lemma sum_list_lookup {A} (f : A -> nat) l i x : l !! i = Some x -> f x <= sum_list_with f l.
Proof.
  revert i. induction l as [|z l IH]; intros [|i]; [done|done| |]; cbn.
  - intros [= ->]. lia.
  - intros Hi. specialize (IH _ Hi). lia.
Qed.
Lemma sum_list_two {A} (f : A -> nat) l i j x y :
  i <> j -> l !! i = Some x -> l !! j = Some y -> f x + f y <= sum_list_with f l.
Proof.
  revert i j. induction l as [|z l IH]; intros [|i] [|j] Hne; try done; cbn.
  - intros [= ->] Hj. pose proof (sum_list_lookup f l j y Hj). lia.
  - intros Hi [= ->]. pose proof (sum_list_lookup f l i x Hi). lia.
  - intros Hi Hj. specialize (IH i j (fun e => Hne (f_equal S e)) Hi Hj). lia.
Qed.
Lemma sum_list_pos {A} (f : A -> nat) l :
  0 < sum_list_with f l -> exists i x, l !! i = Some x /\ 0 < f x.
Proof.
  induction l as [|z l IH]; cbn; [lia|]. intros H. destruct (decide (0 < f z)).
  - by exists 0, z.
  - destruct IH as (i & x & Hi & Hx); [lia|]. by exists (S i), x.
Qed.
Lemma lookup_update {A} (l : list A) i x y j z :
  l !! i = Some x -> <[i := y]> l !! j = Some z <-> (i = j /\ z = y) \/ (i <> j /\ l !! j = Some z).
Proof.
  intros Hi. destruct (decide (i = j)) as [<-|Hne].
  - rewrite list_lookup_insert_eq by (by eapply lookup_lt_Some). split; [intros [= <-]; auto|].
    by intros [[_ ->]|[??]].
  - rewrite list_lookup_insert_ne by done. split; [auto|]. by intros [[??]|[??]].
Qed.

Lemma NoDup_fmap_eq {A B} (f : A -> B) l x y : NoDup (f <$> l) -> x ∈ l -> y ∈ l -> f x = f y -> x = y.
Proof.
  intros Hn (i & Hi)%list_elem_of_lookup (j & Hj)%list_elem_of_lookup E.
  assert (i = j) as ->; [|congruence].
  eapply (NoDup_lookup _ i j (f x)); [done| |]; rewrite list_lookup_fmap; [by rewrite Hi|by rewrite Hj, E].
Qed.
Lemma forallb_Forall_true {A} (p : A -> bool) l : forallb p l = true <-> Forall (fun x => p x = true) l.
Proof. rewrite forallb_forall, Forall_forall. split; intros H x Hx; apply H; by apply list_elem_of_In. Qed.
Lemma not_forallb {A} (p : A -> bool) l : forallb p l = false -> exists i x, l !! i = Some x /\ p x = false.
Proof.
  induction l as [|x l IH]; cbn; [done|]. destruct (p x) eqn:E; [|exists 0, x; done].
  intros Hl. destruct (IH Hl) as (i & y & ? & ?). by exists (S i), y.
Qed.

(** ** Tactics and hint databases *)

(** Every way in which a step function gave a state. *)
Ltac step_cases Hst :=
  repeat match type of Hst with
         | context [match ?x with _ => _ end] => destruct x eqn:?; try discriminate Hst
         end; injection Hst as <-.


(** Case analysis on every [match] and [decide] in the goal, closing the easy cases. *)
Ltac go_cases := repeat (case_match || case_decide); simplify_eq/=; try done.

(** Proof of a closed decidable proposition by evaluation. *)
Ltac go_decide := apply (bool_decide_unpack _); vm_compute; exact I.

(** Inversion of a successful bind, for both monads. *)
Ltac go_inv H :=
  lazymatch type of H with
  | mbind _ _ = Ok _ =>
      let a := fresh "a" in let E := fresh "E" in
      apply go_bind_inv in H as [a [E H]]
  end.

Create HintDb go_db discriminated.
Create Rewrite HintDb go_rw.
#[export] Hint Rewrite @go_bind_Ok @go_bind_Panic @length_app @length_bytes_of
  @byte_Z_byte : go_rw.
#[export] Hint Resolve byte_Z_range split_on_not_nil split_on_parts : go_db.
