(* ===== verification/Metrics.v ===== *)
(** The metrics of [prometheus/client_golang], as the middlewares of the ORM and
    of the web framework register them. *)
From S2P Require Import Prelude.

(** [prometheus.SummaryOpts]; the objectives and their errors in ten-thousandths. *)
Record SummaryOpts := mkSummaryOpts {
  so_Name : string; so_Subsystem : string; so_Namespace : string; so_Help : string;
  so_Objectives : list (Z * Z)
}.
(** The default registry; [MustRegister] panics on a vector it does not take. *)
Class Registerer (R : Type) := {
  MustRegister : SummaryOpts -> list string -> R -> go R
}.
(** A name is taken once. *)
Class RegistererLaws (R : Type) {HR : Registerer R} := {
  MustRegister_again : forall o o' labels labels' r r',
    MustRegister o labels r = Ok r' ->
    so_Name o' = so_Name o -> so_Subsystem o' = so_Subsystem o -> so_Namespace o' = so_Namespace o ->
    exists p, MustRegister o' labels' r' = Panic p
}.

(** [MiddlewareBuilder] of the two packages. *)
Record PromBuilder := mkPromBuilder {
  Namespace : string; Subsystem : string; Name : string; Help : string }.
(** The options of the vector, the same in both. *)
Definition summary_opts (m : PromBuilder) : SummaryOpts :=
  mkSummaryOpts (Name m) (Subsystem m) (Namespace m) (Help m)
    [(5000, 100); (7500, 100); (9000, 100); (9900, 10); (9990, 1)]%Z.

(** A builder registers its vector each time it builds: the second time panics. *)
Lemma Build_twice {R} {HR : Registerer R} {HL : RegistererLaws R} m labels labels' r r' :
  MustRegister (summary_opts m) labels r = Ok r' ->
  exists p, MustRegister (summary_opts m) labels' r' = Panic p.
Proof. intros H. by eapply MustRegister_again. Qed.

(** A registry that keeps the names. *)
Definition full_name (o : SummaryOpts) : string * string * string :=
  (so_Namespace o, so_Subsystem o, so_Name o).
#[export] Instance names_Registerer : Registerer (list (string * string * string)) := {
  MustRegister := fun o _ r =>
    if decide (full_name o ∈ r) then Panic (PUser "duplicate metrics collector registration attempted")
    else Ok (full_name o :: r)
}.
#[export] Instance names_RegistererLaws : RegistererLaws (list (string * string * string)).
Proof.
  constructor. intros o o' labels labels' r r'. cbn. case_decide; [done|]. intros [= <-] Hn Hs Hp.
  exists (PUser "duplicate metrics collector registration attempted"). apply decide_True.
  unfold full_name. rewrite Hn, Hs, Hp. constructor.
Qed.
