(* ===== verification/Message.v ===== *)
(** The RPC wire format: [micro/rpc/message] (message.go, request.go, response.go).

    [EncodeReq] and [EncodeResp] are modelled as the code runs them: a buffer of
    the declared size, a window [cur] that slides over it, [copy] and index
    writes that check bounds.  A Go map is ranged over in an unspecified order,
    so the encoder takes the order as an argument. *)
From S2P Require Import Prelude.

(** ** Big-endian integers of [encoding/binary] *)
Section big_endian.
Fixpoint be_put (n : nat) (v : Z) : list byte :=
  match n with
  | O => []
  | S n' => Z_byte (v / 256 ^ Z.of_nat n') :: be_put n' v
  end.
Fixpoint be_get (l : list byte) : Z :=
  match l with
  | [] => 0
  | b :: l' => byte_Z b * 256 ^ Z.of_nat (length l') + be_get l'
  end.

Lemma length_be_put n v : length (be_put n v) = n.
Proof. induction n as [|n IH]; simpl; [done|]. by rewrite IH. Qed.

Lemma be_get_put n v : be_get (be_put n v) = (v `mod` 256 ^ Z.of_nat n)%Z.
Proof.
  induction n as [|n IH]; [by rewrite Z.mod_1_r|].
  cbn [be_put be_get]. rewrite IH, length_be_put, byte_Z_byte.
  rewrite Nat2Z.inj_succ, Z.pow_succ_r, (Z.mul_comm 256) by lia.
  rewrite Z.rem_mul_r by lia. lia.
Qed.

Lemma be_get_range l : (0 <= be_get l < 256 ^ Z.of_nat (length l))%Z.
Proof.
  induction l as [|b l IH]; [done|]. cbn [be_get length].
  rewrite Nat2Z.inj_succ, Z.pow_succ_r by lia.
  pose proof (byte_Z_range b). nia.
Qed.

Lemma be_get_put_id n v :
  (0 <= v < 256 ^ Z.of_nat n)%Z -> be_get (be_put n v) = v.
Proof. intros Hv. rewrite be_get_put. by apply Z.mod_small. Qed.
End big_endian.

(** ** Data *)

Definition wrap32 (z : Z) : Z := z `mod` 2 ^ 32.

(** A byte slice, [None] for nil, which is not the empty slice; what it holds. *)
Definition slice : Type := option (list byte).
Definition contents (s : slice) : list byte := default [] s.
#[global] Arguments contents : simpl never.

(** [message.Request]; [Meta] is a Go map, [None] for nil. *)
Record Request := mkRequest {
  HeadLength : Z; BodyLength : Z; RequestID : Z;
  Version : Z; Compresser : Z; Serializer : Z;
  ServiceName : string; MethodName : string;
  Meta : option (gmap string string);
  Data : slice
}.

(** [message.Response]. *)
Module Resp.
Record Response := mkResponse {
  HeadLength : Z; BodyLength : Z; RequestID : Z;
  Version : Z; Compresser : Z; Serializer : Z;
  Error : slice; Data : slice
}.
End Resp.

Definition splitter : byte := Corelib.Init.Byte.x0a.
Definition pairSplitter : byte := Corelib.Init.Byte.x0d.

(** ** The encoder *)

(** [cur], a window on the rest of the buffer: [cur = data[pos:]]. *)
Record cursor := Cur { buf : list byte; pos : nat }.

(** [copy(data[off:], src)]: copies as much as fits. *)
Definition copy_at (off : nat) (src data : list byte) : list byte :=
  take off data ++ take (length data - off) src ++ drop (off + length src) data.

Definition cur_copy (src : list byte) (c : cursor) : cursor :=
  Cur (copy_at (pos c) src (buf c)) (pos c).
(** [cur = cur[n:]] *)
Definition cur_advance (n : nat) (c : cursor) : go cursor :=
  if decide (pos c + n <= length (buf c)) then Ok (Cur (buf c) (pos c + n)) else Panic PSlice.
(** [cur[i] = b] *)
Definition cur_set (i : nat) (b : byte) (c : cursor) : go cursor :=
  if decide (pos c + i < length (buf c))
  then Ok (Cur (<[pos c + i := b]> (buf c)) (pos c)) else Panic PIndex.

(** [binary.BigEndian.PutUint32(data[i:i+4], v)] *)
Definition putUint32 (i : nat) (v : Z) (data : list byte) : go (list byte) :=
  if decide (i + 4 <= length data) then Ok (copy_at i (be_put 4 v) data) else Panic PSlice.
(** [data[i] = byte] *)
Definition putByte (i : nat) (v : Z) (data : list byte) : go (list byte) :=
  if decide (i < length data) then Ok (<[i := Z_byte v]> data) else Panic PIndex.

Definition meta_bytes (m : gmap string string) : nat :=
  map_fold (fun key value res => res + String.length key + 1 + String.length value + 1) 0 m.

(** [SetHeadLength] of [*Request] *)
Definition SetHeadLength (req : Request) : Request :=
  let res := 15 + String.length (ServiceName req) + 1
             + String.length (MethodName req) + 1
             + meta_bytes (default ∅ (Meta req)) in
  mkRequest (wrap32 (Z.of_nat res)) (BodyLength req) (RequestID req)
    (Version req) (Compresser req) (Serializer req)
    (ServiceName req) (MethodName req) (Meta req) (Data req).

(** The five header stores shared by [EncodeReq] and [EncodeResp], from
    [make([]byte, HeadLength+BodyLength)] (a wrapping uint32 sum) to
    [data[14]]. *)
Definition putHeader (head body id version compresser serializer : Z) : go (list byte) :=
  let data := replicate (Z.to_nat (wrap32 (head + body))) (Z_byte 0) in
  data ← putUint32 0 head data;
  data ← putUint32 4 body data;
  data ← putUint32 8 id data;
  data ← putByte 12 version data;
  data ← putByte 13 compresser data;
  putByte 14 serializer data.

(** The body of [for key, val := range req.Meta]. *)
Definition putPair (kv : string * string) (c : cursor) : go cursor :=
  let '(key, val) := kv in
  let c := cur_copy (bytes_of key) c in
  c ← cur_set (String.length key) pairSplitter c;
  c ← cur_advance (String.length key + 1) c;
  let c := cur_copy (bytes_of val) c in
  c ← cur_set (String.length val) splitter c;
  cur_advance (String.length val + 1) c.

Fixpoint putMeta (order : list (string * string)) (c : cursor) : go cursor :=
  match order with
  | [] => Ok c
  | kv :: order' => c ← putPair kv c; putMeta order' c
  end.

(** A name followed by the splitter. *)
Definition putName (s : string) (c : cursor) : go cursor :=
  let c := cur_copy (bytes_of s) c in
  c ← cur_advance (String.length s) c;
  c ← cur_set 0 splitter c;
  cur_advance 1 c.

(** [EncodeReq]; [order] is the order in which the range over [Meta] visits it. *)
Definition EncodeReq (order : list (string * string)) (req : Request) : go (list byte) :=
  data ← putHeader (HeadLength req) (BodyLength req) (RequestID req)
           (Version req) (Compresser req) (Serializer req);
  c ← cur_advance 15 (Cur data 0);
  c ← putName (ServiceName req) c;
  c ← putName (MethodName req) c;
  c ← putMeta order c;
  Ok (buf (cur_copy (contents (Data req)) c)).

(** [SetHeadLength] and [SetBodyLength] of [*Response] *)
Definition Resp_SetHeadLength (r : Resp.Response) : Resp.Response :=
  Resp.mkResponse (wrap32 (15 + wrap32 (Z.of_nat (length (contents (Resp.Error r))))))
    (Resp.BodyLength r) (Resp.RequestID r) (Resp.Version r) (Resp.Compresser r)
    (Resp.Serializer r) (Resp.Error r) (Resp.Data r).
Definition Resp_SetBodyLength (r : Resp.Response) : Resp.Response :=
  Resp.mkResponse (Resp.HeadLength r) (wrap32 (Z.of_nat (length (contents (Resp.Data r)))))
    (Resp.RequestID r) (Resp.Version r) (Resp.Compresser r)
    (Resp.Serializer r) (Resp.Error r) (Resp.Data r).

(** [EncodeResp]; [cur[:len(resp.Error)]] is a checked slice. *)
Definition EncodeResp (resp : Resp.Response) : go (list byte) :=
  data ← putHeader (Resp.HeadLength resp) (Resp.BodyLength resp) (Resp.RequestID resp)
           (Resp.Version resp) (Resp.Compresser resp) (Resp.Serializer resp);
  c ← cur_advance 15 (Cur data 0);
  let err := contents (Resp.Error resp) in
  _ ← cur_advance (length err) c;
  let c := cur_copy err c in
  c ← cur_advance (length err) c;
  Ok (buf (cur_copy (contents (Resp.Data resp)) c)).

(** ** The decoder *)

(** [binary.BigEndian.Uint32(bs[i:i+4])] *)
Definition getUint32 (i : nat) (bs : list byte) : go Z :=
  w ← slice_range i (i + 4) bs; Ok (be_get w).
Definition getByte (i : nat) (bs : list byte) : go Z := b ← index_at i bs; Ok (byte_Z b).

(** The six header loads that open [DecodeReq] and [DecodeResp]. *)
Definition getHeader (bs : list byte) : go (Z * Z * Z * Z * Z * Z) :=
  head ← getUint32 0 bs;
  body ← getUint32 4 bs;
  id ← getUint32 8 bs;
  version ← getByte 12 bs;
  compresser ← getByte 13 bs;
  serializer ← getByte 14 bs;
  Ok (head, body, id, version, compresser, serializer).

(** [tmp[:index]] where [index] may be -1. *)
Definition slice_upto (index : option nat) (tmp : list byte) : go (list byte) :=
  i ← go_of_option PSlice index; slice_to i tmp.

(** The loop [for index != -1] of [DecodeReq]. *)
Fixpoint decodeMeta (fuel : nat) (tmp : list byte) (metaMap : gmap string string)
  : go (gmap string string) :=
  match fuel with
  | O => Panic PFuel
  | S fuel' =>
      match index_byte splitter tmp with
      | None => Ok metaMap
      | Some index =>
          pairIndex ← go_of_option PSlice (index_byte pairSplitter tmp);
          key ← slice_to pairIndex tmp;
          val ← slice_range (pairIndex + 1) index tmp;
          tmp' ← slice_from (index + 1) tmp;
          decodeMeta fuel' tmp' (<[string_of key := string_of val]> metaMap)
      end
  end.

(** The first splitter-terminated name of [tmp], and what follows it; an absent
    splitter makes [tmp[:-1]] panic. *)
Definition takeName (tmp : list byte) : go (string * list byte) :=
  let index := index_byte splitter tmp in
  name ← slice_upto index tmp;
  i ← go_of_option PSlice index;
  rest ← slice_from (i + 1) tmp;
  Ok (string_of name, rest).

(** [DecodeReq] *)
Definition DecodeReq (bs : list byte) : go Request :=
  '(head, body, id, version, compresser, serializer) ← getHeader bs;
  tmp ← slice_range 15 (Z.to_nat head) bs;
  '(service, tmp) ← takeName tmp;
  '(method, tmp) ← takeName tmp;
  meta ← (if decide (0 < length tmp)
          then Some <$> decodeMeta (S (length tmp)) tmp ∅
          else Ok None);
  data ← slice_from (Z.to_nat head) bs;
  Ok (mkRequest head body id version compresser serializer service method meta (Some data)).

(** [DecodeResp]. *)
Definition DecodeResp (bs : list byte) : go Resp.Response :=
  '(head, body, id, version, compresser, serializer) ← getHeader bs;
  tmp ← slice_range 15 (Z.to_nat head) bs;
  let err := if decide (15 < head)%Z then Some tmp else None in
  data ← (if decide (body = 0%Z) then Ok None else Some <$> slice_from (Z.to_nat head) bs);
  Ok (Resp.mkResponse head body id version compresser serializer err data).

(** ** The encoder writes a concatenation *)
Section cursor_lemmas.
Implicit Types (d r s src : list byte).

(** The cursor after [d] has been written and [r] is left. *)
Definition window d r : cursor := Cur (d ++ r) (length d).

Lemma copy_at_app d src r :
  length src <= length r ->
  copy_at (length d) src (d ++ r) = d ++ src ++ drop (length src) r.
Proof.
  intros H. unfold copy_at. rewrite take_app_length.
  rewrite (take_ge src) by (rewrite length_app; lia).
  by rewrite drop_app_add.
Qed.

Lemma cur_copy_window d src r :
  length src <= length r ->
  cur_copy src (window d r) = window d (src ++ drop (length src) r).
Proof. intros H. unfold cur_copy, window. simpl. by rewrite copy_at_app. Qed.

Lemma cur_advance_window d s r :
  cur_advance (length s) (window d (s ++ r)) = Ok (window (d ++ s) r).
Proof.
  unfold cur_advance, window. simpl. rewrite decide_True by (rewrite !length_app; lia).
  by rewrite app_assoc, length_app.
Qed.

Lemma cur_set_window d s x b r :
  cur_set (length s) b (window d (s ++ x :: r)) = Ok (window d (s ++ b :: r)).
Proof.
  unfold cur_set, window. simpl.
  rewrite decide_True by (rewrite !length_app; simpl; lia).
  rewrite insert_app_r, <-(Nat.add_0_r (length s)), insert_app_r. done.
Qed.

Lemma cur_set0_window d x b r :
  cur_set 0 b (window d (x :: r)) = Ok (window d (b :: r)).
Proof. apply (cur_set_window d []). Qed.
Lemma cur_advance1_window d b r :
  cur_advance 1 (window d (b :: r)) = Ok (window (d ++ [b]) r).
Proof. apply (cur_advance_window d [b]). Qed.

Lemma drop_cons_ex n r : n < length r -> exists x, drop n r = x :: drop (S n) r.
Proof.
  intros H. destruct (lookup_lt_is_Some_2 r n H) as [x Hx]. exists x.
  by apply drop_S.
Qed.

(** [copy], set the byte after it, and advance past both. *)
Definition put_terminated (s : string) (b : byte) (c : cursor) : go cursor :=
  let c := cur_copy (bytes_of s) c in
  c ← cur_set (String.length s) b c;
  cur_advance (String.length s + 1) c.

Lemma put_terminated_window (s : string) b d r :
  String.length s < length r ->
  put_terminated s b (window d r)
  = Ok (window (d ++ bytes_of s ++ [b]) (drop (S (String.length s)) r)).
Proof.
  intros H. unfold put_terminated. rewrite <-!length_bytes_of in *.
  rewrite cur_copy_window by lia.
  destruct (drop_cons_ex _ _ H) as [x ->]. rewrite cur_set_window, go_bind_Ok.
  replace (length (bytes_of s) + 1) with (length (bytes_of s ++ [b]))
    by (rewrite length_app; simpl; lia).
  rewrite (app_cons_snoc (bytes_of s) b (drop _ _)).
  by rewrite cur_advance_window.
Qed.

Lemma putName_window (s : string) d r :
  String.length s < length r ->
  putName s (window d r)
  = Ok (window (d ++ bytes_of s ++ [splitter]) (drop (S (String.length s)) r)).
Proof.
  intros H. unfold putName. rewrite <-!length_bytes_of in *.
  rewrite cur_copy_window by lia.
  destruct (drop_cons_ex _ _ H) as [x ->].
  rewrite cur_advance_window, go_bind_Ok.
  rewrite cur_set0_window, go_bind_Ok, cur_advance1_window.
  by rewrite <-app_assoc.
Qed.
End cursor_lemmas.

(** ** The wire image: what the encoders mean to write *)

Definition header_image (head body id version compresser serializer : Z) : list byte :=
  be_put 4 head ++ be_put 4 body ++ be_put 4 id
  ++ [Z_byte version; Z_byte compresser; Z_byte serializer].
Definition pair_image (kv : string * string) : list byte :=
  bytes_of kv.1 ++ [pairSplitter] ++ bytes_of kv.2 ++ [splitter].
Definition meta_image (order : list (string * string)) : list byte :=
  concat (pair_image <$> order).
Definition names_image (order : list (string * string)) (req : Request) : list byte :=
  bytes_of (ServiceName req) ++ [splitter] ++ bytes_of (MethodName req) ++ [splitter]
  ++ meta_image order.
Definition req_image (order : list (string * string)) (req : Request) : list byte :=
  header_image (HeadLength req) (BodyLength req) (RequestID req)
    (Version req) (Compresser req) (Serializer req)
  ++ names_image order req ++ contents (Data req).
Definition resp_image (r : Resp.Response) : list byte :=
  header_image (Resp.HeadLength r) (Resp.BodyLength r) (Resp.RequestID r)
    (Resp.Version r) (Resp.Compresser r) (Resp.Serializer r)
  ++ contents (Resp.Error r) ++ contents (Resp.Data r).

Lemma be_put_4_ex v : exists a b c d, be_put 4 v = [a; b; c; d].
Proof. simpl. eauto. Qed.

Lemma length_header_image a b c d e f : length (header_image a b c d e f) = 15.
Proof. unfold header_image. by rewrite !length_app, !length_be_put. Qed.

Lemma putHeader_image head body id v c s m :
  Z.to_nat (wrap32 (head + body)) = 15 + m ->
  putHeader head body id v c s
  = Ok (header_image head body id v c s ++ replicate m (Z_byte 0)).
Proof.
  intros Hm. unfold putHeader, header_image. rewrite Hm.
  destruct (be_put_4_ex head) as (h0 & h1 & h2 & h3 & Hh).
  destruct (be_put_4_ex body) as (b0 & b1 & b2 & b3 & Hb).
  destruct (be_put_4_ex id) as (i0 & i1 & i2 & i3 & Hi).
  rewrite Hh, Hb, Hi. generalize (Z_byte 0). intros z.
  unfold putUint32, putByte. rewrite Hh, Hb, Hi. simpl.
  repeat (rewrite decide_True by (simpl; lia); simpl). done.
Qed.

Section encoder.
Implicit Types (d r : list byte) (order : list (string * string)).

Lemma putPair_terminated kv c :
  putPair kv c = (c ← put_terminated kv.1 pairSplitter c;
                  put_terminated kv.2 splitter c).
Proof.
  destruct kv as [k v]. unfold putPair, put_terminated. simpl.
  destruct (cur_set _ pairSplitter _) as [c1|p]; [|done]. simpl.
  by destruct (cur_advance _ c1).
Qed.

Lemma length_pair_image kv :
  length (pair_image kv) = String.length kv.1 + 1 + String.length kv.2 + 1.
Proof.
  unfold pair_image. rewrite !length_app, !length_bytes_of. simpl. lia.
Qed.

Lemma putPair_window kv d r :
  length (pair_image kv) <= length r ->
  putPair kv (window d r)
  = Ok (window (d ++ pair_image kv) (drop (length (pair_image kv)) r)).
Proof.
  intros H. rewrite putPair_terminated. rewrite length_pair_image in *.
  rewrite put_terminated_window, go_bind_Ok by lia.
  rewrite put_terminated_window by (rewrite length_drop; lia).
  rewrite drop_drop. unfold pair_image. rewrite <-!app_assoc.
  by replace (S (String.length kv.1) + S (String.length kv.2)) with
    (String.length kv.1 + 1 + String.length kv.2 + 1) by lia.
Qed.

Lemma putMeta_window order d r :
  length (meta_image order) <= length r ->
  putMeta order (window d r)
  = Ok (window (d ++ meta_image order) (drop (length (meta_image order)) r)).
Proof.
  revert d r. induction order as [|kv order IH]; intros d r H; simpl.
  - unfold meta_image. simpl. by rewrite app_nil_r.
  - unfold meta_image in *. cbn in *. rewrite length_app in H.
    rewrite putPair_window, go_bind_Ok by lia.
    rewrite IH by (rewrite length_drop; lia).
    by rewrite drop_drop, length_app, <-app_assoc.
Qed.

(** [EncodeReq] writes the wire image when the declared lengths are the real ones. *)
Lemma EncodeReq_image order req :
  HeadLength req = Z.of_nat (15 + length (names_image order req)) ->
  BodyLength req = Z.of_nat (length (contents (Data req))) ->
  (HeadLength req + BodyLength req < 2 ^ 32)%Z ->
  EncodeReq order req = Ok (req_image order req).
Proof.
  intros Hh Hb Hlt. unfold EncodeReq.
  set (m := length (names_image order req) + length (contents (Data req))).
  rewrite (putHeader_image _ _ _ _ _ _ m)
    by (unfold wrap32; rewrite Z.mod_small; unfold m; lia).
  rewrite go_bind_Ok.
  replace 15 with (length (header_image (HeadLength req) (BodyLength req) (RequestID req)
    (Version req) (Compresser req) (Serializer req))) by apply length_header_image.
  change (Cur (?h ++ ?r) 0) with (window [] (h ++ r)).
  rewrite cur_advance_window, go_bind_Ok, app_nil_l.
  unfold m, names_image. rewrite !length_app, !length_bytes_of.
  cbn [length].
  rewrite putName_window, go_bind_Ok by (rewrite length_replicate; lia).
  rewrite drop_replicate.
  rewrite putName_window, go_bind_Ok by (rewrite length_replicate; lia).
  rewrite drop_replicate.
  rewrite putMeta_window, go_bind_Ok by (rewrite length_replicate; lia).
  rewrite drop_replicate. cbv beta.
  rewrite cur_copy_window by (rewrite length_replicate; lia).
  rewrite drop_replicate. unfold window. cbn [buf].
  replace (_ - length (contents (Data req))) with 0 by lia.
  unfold req_image, names_image. f_equal. cbn [replicate].
  by rewrite app_nil_r, <-!app_assoc.
Qed.
End encoder.

(** ** Decoding the image *)

Definition uint32 (z : Z) : Prop := (0 <= z < 2 ^ 32)%Z.
Definition uint8 (z : Z) : Prop := (0 <= z < 2 ^ 8)%Z.
Lemma wrap32_small z : uint32 z -> wrap32 z = z.
Proof. apply Z.mod_small. Qed.

Section decoder.
Implicit Types (order : list (string * string)) (rest tmp : list byte).

Lemma getHeader_image head body id v c s rest :
  uint32 head -> uint32 body -> uint32 id -> uint8 v -> uint8 c -> uint8 s ->
  getHeader (header_image head body id v c s ++ rest) = Ok (head, body, id, v, c, s).
Proof.
  unfold uint32, uint8. intros Hh Hb Hi Hv Hc Hs.
  pose proof (be_get_put_id 4 head Hh) as Gh.
  pose proof (be_get_put_id 4 body Hb) as Gb.
  pose proof (be_get_put_id 4 id Hi) as Gi.
  unfold header_image, getHeader, getUint32, getByte.
  destruct (be_put_4_ex head) as (h0 & h1 & h2 & h3 & Eh).
  destruct (be_put_4_ex body) as (b0 & b1 & b2 & b3 & Eb).
  destruct (be_put_4_ex id) as (i0 & i1 & i2 & i3 & Ei).
  rewrite Eh in *. rewrite Eb in *. rewrite Ei in *. cbn [app].
  rewrite !slice_range_ok by (simpl; lia).
  rewrite !go_bind_Ok. cbn [take drop Nat.add]. rewrite Gh, Gb, Gi.
  unfold index_at. cbn. rewrite !byte_Z_byte, !Z.mod_small by done. done.
Qed.

Lemma takeName_image s rest :
  splitter ∉ bytes_of s -> takeName (bytes_of s ++ splitter :: rest) = Ok (s, rest).
Proof.
  intros Hs. unfold takeName, slice_upto. rewrite index_byte_app by done. cbn.
  rewrite slice_to_app. cbn. rewrite Nat.add_1_r, slice_from_app_S. cbn.
  by rewrite string_of_bytes_of.
Qed.

(** Keys without the two separators, values without the splitter. *)
Definition pair_ok (kv : string * string) : Prop :=
  (splitter ∉ bytes_of kv.1) /\ (pairSplitter ∉ bytes_of kv.1) /\ (splitter ∉ bytes_of kv.2).

Lemma index_splitter_pair kv rest :
  pair_ok kv ->
  index_byte splitter (pair_image kv ++ rest)
  = Some (String.length kv.1 + 1 + String.length kv.2).
Proof.
  intros (Hk & _ & Hv). unfold pair_image.
  replace ((bytes_of kv.1 ++ [pairSplitter] ++ bytes_of kv.2 ++ [splitter]) ++ rest)
    with ((bytes_of kv.1 ++ [pairSplitter] ++ bytes_of kv.2) ++ splitter :: rest)
    by (by rewrite <-!app_assoc).
  assert (Hne : splitter ∉ [pairSplitter]) by (rewrite list_elem_of_singleton; discriminate).
  rewrite index_byte_app by (rewrite !not_elem_of_app; done).
  rewrite !length_app, !length_bytes_of. f_equal. simpl. lia.
Qed.

Lemma index_pairSplitter_pair kv rest :
  pair_ok kv ->
  index_byte pairSplitter (pair_image kv ++ rest) = Some (String.length kv.1).
Proof.
  intros (_ & Hk & _). unfold pair_image. rewrite <-app_assoc. cbn [app].
  by rewrite index_byte_app, length_bytes_of by done.
Qed.

Lemma pair_slices kv rest :
  slice_to (String.length kv.1) (pair_image kv ++ rest) = Ok (bytes_of kv.1) /\
  slice_range (String.length kv.1 + 1) (String.length kv.1 + 1 + String.length kv.2)
    (pair_image kv ++ rest) = Ok (bytes_of kv.2) /\
  slice_from (String.length kv.1 + 1 + String.length kv.2 + 1) (pair_image kv ++ rest)
    = Ok rest.
Proof.
  pose proof (length_pair_image kv) as Hlen. split_and!.
  - unfold pair_image. rewrite <-app_assoc, <-length_bytes_of. apply slice_to_app.
  - rewrite slice_range_ok by (rewrite ?length_app; lia). f_equal.
    unfold pair_image. rewrite <-!length_bytes_of.
    replace ((bytes_of kv.1 ++ [pairSplitter] ++ bytes_of kv.2 ++ [splitter]) ++ rest)
      with ((bytes_of kv.1 ++ [pairSplitter]) ++ bytes_of kv.2 ++ splitter :: rest)
      by (by rewrite <-!app_assoc).
    replace (length (bytes_of kv.1) + 1) with (length (bytes_of kv.1 ++ [pairSplitter]))
      by (rewrite length_app; simpl; lia).
    by rewrite take_app_add, take_app_length, drop_app_length.
  - rewrite <-Hlen. apply slice_from_app.
Qed.

Lemma decodeMeta_image order fuel acc :
  Forall pair_ok order -> length order < fuel ->
  decodeMeta fuel (meta_image order) acc
  = Ok (foldl (fun m kv => <[kv.1 := kv.2]> m) acc order).
Proof.
  intros Hok. revert fuel acc.
  induction Hok as [|kv order Hkv Hok IH]; intros fuel acc Hf;
    (destruct fuel as [|fuel]; [simpl in Hf; lia|]).
  - done.
  - cbn [decodeMeta]. change (meta_image (kv :: order)) with (pair_image kv ++ meta_image order).
    rewrite index_splitter_pair, index_pairSplitter_pair by done. cbn [go_of_option].
    destruct (pair_slices kv (meta_image order)) as (E1 & E2 & E3).
    rewrite go_bind_Ok, E1, go_bind_Ok, E2, go_bind_Ok, E3, go_bind_Ok.
    rewrite !string_of_bytes_of. rewrite IH by (simpl in Hf; lia). done.
Qed.

Lemma length_meta_image order : 2 * length order <= length (meta_image order).
Proof.
  induction order as [|kv order IH]; [simpl; lia|].
  change (meta_image (kv :: order)) with (pair_image kv ++ meta_image order).
  rewrite length_app, length_pair_image. simpl. lia.
Qed.
End decoder.

(** ** Map order and lengths *)
Section meta_order.
Implicit Types (order : list (string * string)) (m acc : gmap string string).

Lemma foldl_insert_union order acc :
  NoDup order.*1 ->
  foldl (fun m kv => <[kv.1 := kv.2]> m) acc order = list_to_map order ∪ acc.
Proof.
  revert acc. induction order as [|[k v] order IH]; intros acc Hnd; cbn.
  - by rewrite (left_id_L ∅ (∪)).
  - apply NoDup_cons in Hnd as [Hk Hnd]. rewrite IH by done.
    rewrite <-insert_union_l. symmetry. apply insert_union_r.
    by apply not_elem_of_list_to_map_1.
Qed.

Lemma NoDup_order m order : order ≡ₚ map_to_list m -> NoDup order.*1.
Proof. intros ->. apply NoDup_fst_map_to_list. Qed.

Lemma foldl_insert_order m order :
  order ≡ₚ map_to_list m ->
  foldl (fun m kv => <[kv.1 := kv.2]> m) ∅ order = m.
Proof.
  intros Hp. pose proof (NoDup_order _ _ Hp) as Hnd.
  rewrite foldl_insert_union by done. rewrite (right_id_L ∅ (∪)).
  rewrite (list_to_map_proper _ _ Hnd Hp). apply list_to_map_to_list.
Qed.

Lemma meta_bytes_order m order :
  order ≡ₚ map_to_list m -> meta_bytes m = length (meta_image order).
Proof.
  intros Hp. unfold meta_bytes. rewrite map_fold_foldr.
  transitivity (sum_list_with (length ∘ pair_image) (map_to_list m)).
  - clear Hp. induction (map_to_list m) as [|[k v] l IH]; [done|].
    cbn [foldr uncurry sum_list_with]. rewrite IH. unfold compose.
    rewrite length_pair_image. cbn [fst snd]. lia.
  - rewrite <-Hp. clear Hp. unfold meta_image.
    induction order as [|kv order IH]; [done|]. cbn. by rewrite length_app, IH.
Qed.
End meta_order.

(** ** Responses *)
Section responses.
Lemma EncodeResp_image (r : Resp.Response) :
  Resp.HeadLength r = (15 + Z.of_nat (length (contents (Resp.Error r))))%Z ->
  Resp.BodyLength r = Z.of_nat (length (contents (Resp.Data r))) ->
  (Resp.HeadLength r + Resp.BodyLength r < 2 ^ 32)%Z ->
  EncodeResp r = Ok (resp_image r).
Proof.
  intros Hh Hb Hlt. unfold EncodeResp.
  rewrite (putHeader_image _ _ _ _ _ _ (length (contents (Resp.Error r)) + length (contents (Resp.Data r))))
    by (unfold wrap32; rewrite Z.mod_small; lia).
  rewrite go_bind_Ok, replicate_add.
  rewrite <-(length_header_image (Resp.HeadLength r) (Resp.BodyLength r) (Resp.RequestID r)
    (Resp.Version r) (Resp.Compresser r) (Resp.Serializer r)).
  change (Cur (?h ++ ?x) 0) with (window [] (h ++ x)).
  rewrite cur_advance_window, go_bind_Ok, app_nil_l.
  set (hd := header_image _ _ _ _ _ _).
  set (z := replicate (length (contents (Resp.Error r))) (Z_byte 0)).
  assert (Hz : length z = length (contents (Resp.Error r))) by apply length_replicate.
  rewrite <-Hz at 1. rewrite cur_advance_window, go_bind_Ok.
  rewrite cur_copy_window by (rewrite length_app; lia).
  rewrite (drop_app_length' z) by done. rewrite cur_advance_window, go_bind_Ok.
  rewrite cur_copy_window by (rewrite length_replicate; lia).
  rewrite drop_replicate, Nat.sub_diag, app_nil_r. unfold window, resp_image. cbn [buf].
  by rewrite <-app_assoc.
Qed.

(** What a decoder can recover of a slice of a response: an empty one comes back
    as nil. *)
Definition norm_slice (s : slice) : slice := s ← s; if decide (s = []) then None else Some s.
Definition norm_resp (r : Resp.Response) : Resp.Response :=
  Resp.mkResponse (Resp.HeadLength r) (Resp.BodyLength r) (Resp.RequestID r) (Resp.Version r) (Resp.Compresser r)
    (Resp.Serializer r) (norm_slice (Resp.Error r)) (norm_slice (Resp.Data r)).
Lemma norm_slice_eq s : norm_slice s = if decide (0 < length (contents s)) then Some (contents s) else None.
Proof. by destruct s as [[|b l]|]. Qed.

Lemma DecodeResp_image head body id v c s err data :
  uint32 head -> uint32 body -> uint32 id -> uint8 v -> uint8 c -> uint8 s ->
  head = (15 + Z.of_nat (length (contents err)))%Z -> body = Z.of_nat (length (contents data)) ->
  let r := Resp.mkResponse head body id v c s err data in
  DecodeResp (resp_image r) = Ok (norm_resp r).
Proof.
  intros Hh Hb Hi Hv Hc Hs Eh Eb r. unfold DecodeResp, resp_image, r.
  cbn [Resp.HeadLength Resp.BodyLength Resp.RequestID
    Resp.Version Resp.Compresser Resp.Serializer Resp.Error Resp.Data].
  rewrite getHeader_image, go_bind_Ok by done.
  rewrite slice_range_mid, go_bind_Ok by (rewrite length_header_image; lia).
  unfold norm_resp. cbn [Resp.HeadLength Resp.BodyLength Resp.RequestID
    Resp.Version Resp.Compresser Resp.Serializer Resp.Error Resp.Data]. rewrite !norm_slice_eq.
  assert ((if decide (15 < head)%Z then Some (contents err) else None) =
    if decide (0 < length (contents err)) then Some (contents err) else None) as ->
    by (do 2 case_decide; (done || lia)).
  destruct (decide (body = 0%Z)) as [Hz|Hz].
  - rewrite (decide_False (P := 0 < length (contents data))) by lia. done.
  - rewrite slice_from_mid by (rewrite length_header_image; lia). cbn [fmap go_fmap mbind go_bind].
    by rewrite (decide_True (P := 0 < length (contents data))) by lia.
Qed.
End responses.

(** ** Requests and responses that fit the format *)

#[export] Instance pair_ok_dec kv : Decision (pair_ok kv) := ltac:(unfold pair_ok; apply _).
#[export] Instance uint32_dec z : Decision (uint32 z) := ltac:(unfold uint32; apply _).
#[export] Instance uint8_dec z : Decision (uint8 z) := ltac:(unfold uint8; apply _).

(** A request whose scalars are in range, whose names and metadata avoid the
    separators, whose [BodyLength] is the length of its data and whose encoding
    is shorter than 4 GiB; [order] is one of the orders of its metadata. *)
Record wf_req (order : list (string * string)) (req : Request) : Prop := {
  wf_order : order ≡ₚ map_to_list (default ∅ (Meta req));
  wf_id : uint32 (RequestID req);
  wf_scalars : uint8 (Version req) /\ uint8 (Compresser req) /\ uint8 (Serializer req);
  wf_names : (splitter ∉ bytes_of (ServiceName req)) /\ (splitter ∉ bytes_of (MethodName req));
  wf_pairs : Forall pair_ok order;
  wf_body : BodyLength req = Z.of_nat (length (contents (Data req)));
  wf_size : uint32 (Z.of_nat (15 + length (names_image order req) + length (contents (Data req))))
}.

(** What a decoder recovers of a request: an empty map comes back as nil, and nil
    data as an empty slice. *)
Definition norm_meta (m : option (gmap string string)) : option (gmap string string) :=
  m ← m; if decide (m = ∅) then None else Some m.
Definition norm_req (req : Request) : Request :=
  mkRequest (HeadLength req) (BodyLength req) (RequestID req)
    (Version req) (Compresser req) (Serializer req)
    (ServiceName req) (MethodName req) (norm_meta (Meta req)) (Some (contents (Data req))).

Lemma norm_req_id req : norm_req req = req <-> Meta req <> Some ∅ /\ Data req <> None.
Proof.
  destruct req as [h b id v c s sn mn m d]. unfold norm_req, norm_meta. cbn. split.
  - intros [= Hm Hd]. split; [|congruence]. intros ->. cbn in Hm. by rewrite decide_True in Hm.
  - intros [Hm Hd]. destruct d as [d|]; [|done]. f_equal. destruct m as [m|]; [|done]. cbn.
    rewrite decide_False; [done|congruence].
Qed.

Section requests.
Context (order : list (string * string)) (req : Request) (Hwf : wf_req order req).

Lemma SetHeadLength_head :
  HeadLength (SetHeadLength req) = Z.of_nat (15 + length (names_image order req)).
Proof.
  destruct Hwf as [Hp _ _ _ _ _ Hs]. unfold uint32 in Hs. cbn [SetHeadLength HeadLength].
  rewrite (meta_bytes_order _ _ Hp). unfold names_image in *.
  rewrite !length_app, !length_bytes_of in *. cbn [length] in *.
  unfold wrap32. rewrite Z.mod_small; lia.
Qed.

Lemma names_image_SetHeadLength :
  names_image order (SetHeadLength req) = names_image order req.
Proof. done. Qed.

Lemma length_req_image :
  Z.of_nat (length (req_image order (SetHeadLength req)))
  = (HeadLength (SetHeadLength req) + BodyLength req)%Z.
Proof.
  unfold req_image. rewrite !length_app, length_header_image, SetHeadLength_head.
  rewrite (wf_body _ _ Hwf). cbn [Data SetHeadLength].
  rewrite names_image_SetHeadLength. lia.
Qed.

Lemma EncodeReq_wf : EncodeReq order (SetHeadLength req) = Ok (req_image order (SetHeadLength req)).
Proof.
  pose proof SetHeadLength_head as Hh. pose proof Hwf as [_ _ _ _ _ Hb Hs].
  unfold uint32 in Hs. apply EncodeReq_image; cbn [BodyLength SetHeadLength Data]; try done.
  change (mkRequest _ _ _ _ _ _ _ _ _ _) with (SetHeadLength req). lia.
Qed.

Lemma decode_meta_wf :
  (if decide (0 < length (meta_image order))
   then Some <$> decodeMeta (S (length (meta_image order))) (meta_image order) ∅
   else Ok None) = Ok (norm_meta (Meta req)).
Proof.
  destruct Hwf as [Hp _ _ _ Hok _ _]. pose proof (length_meta_image order) as Hlen.
  unfold norm_meta. destruct order as [|kv l] eqn:Ho.
  - rewrite decide_False by (cbn; lia). apply Permutation_nil_l in Hp.
    destruct (Meta req) as [m|]; cbn in *; [|done].
    by rewrite decide_True by (by apply map_to_list_empty_iff).
  - rewrite decide_True by (cbn [length] in Hlen; lia).
    rewrite decodeMeta_image by (done || lia). rewrite foldl_insert_order with (1 := Hp).
    destruct (Meta req) as [m|]; cbn in *.
    + rewrite decide_False; [done|]. intros ->.
      rewrite map_to_list_empty in Hp. by apply Permutation_nil_r in Hp.
    + rewrite map_to_list_empty in Hp. by apply Permutation_nil_r in Hp.
Qed.

Lemma DecodeReq_image :
  DecodeReq (req_image order (SetHeadLength req)) = Ok (norm_req (SetHeadLength req)).
Proof.
  pose proof SetHeadLength_head as Hh. pose proof decode_meta_wf as Hm.
  destruct Hwf as [Hp Hid (Hv & Hc & Hs) (Hsn & Hmn) Hok Hb Hsz].
  unfold uint32 in *. unfold DecodeReq, req_image.
  rewrite getHeader_image by (unfold uint32; cbn [BodyLength RequestID Version Compresser
    Serializer SetHeadLength]; try done; lia).
  rewrite go_bind_Ok, Hh, Nat2Z.id, names_image_SetHeadLength.
  rewrite slice_range_mid by (rewrite length_header_image; lia).
  rewrite go_bind_Ok. cbv beta.
  rewrite (takeName_image (ServiceName req) (_ ++ splitter :: _) Hsn
    : takeName (names_image order req) = _), go_bind_Ok.
  rewrite takeName_image, go_bind_Ok by done.
  rewrite Hm, go_bind_Ok, slice_from_mid by (rewrite length_header_image; lia).
  rewrite go_bind_Ok. unfold norm_req. by rewrite Hh.
Qed.
End requests.

(** ** Totality of the decoder *)
Section totality.
Implicit Types (bs tmp : list byte).

(** An outcome that is a value satisfying [P], or a bounds panic. *)
Definition bounded_or {A} (P : A -> Prop) (m : go A) : Prop :=
  match m with Ok a => P a | Panic p => p = PSlice \/ p = PIndex end.

Lemma bounded_bind {A B} (P : A -> Prop) (Q : B -> Prop) m (f : A -> go B) :
  bounded_or P m -> (forall a, P a -> bounded_or Q (f a)) -> bounded_or Q (m ≫= f).
Proof. destruct m as [a|p]; simpl; auto. Qed.
Lemma bounded_slice_from n bs :
  bounded_or (fun r => n <= length bs /\ r = drop n bs) (slice_from n bs).
Proof. unfold slice_from. case_decide; simpl; auto. Qed.
Lemma bounded_slice_to n bs :
  bounded_or (fun r => n <= length bs /\ r = take n bs) (slice_to n bs).
Proof. unfold slice_to. case_decide; simpl; auto. Qed.
Lemma bounded_slice_range i j bs :
  bounded_or (fun r => i <= j /\ j <= length bs /\ length r = j - i) (slice_range i j bs).
Proof.
  unfold slice_range. case_decide; simpl; [|auto]. rewrite length_drop, length_take. lia.
Qed.
Lemma bounded_option {A} (o : option A) :
  bounded_or (fun a => o = Some a) (go_of_option PSlice o).
Proof. destruct o; simpl; auto. Qed.

Lemma bounded_getUint32 i bs : bounded_or uint32 (getUint32 i bs).
Proof.
  eapply bounded_bind; [apply bounded_slice_range|]. intros w (_ & _ & Hw). simpl.
  pose proof (be_get_range w) as Hr. rewrite Hw, Nat.add_sub' in Hr. exact Hr.
Qed.
Lemma bounded_getByte i bs : bounded_or uint8 (getByte i bs).
Proof.
  unfold getByte, index_at. destruct (bs !! i); simpl; [|auto]. apply byte_Z_range.
Qed.

Lemma bounded_decodeMeta fuel tmp acc :
  length tmp < fuel -> bounded_or (fun _ => True) (decodeMeta fuel tmp acc).
Proof.
  revert tmp acc. induction fuel as [|fuel IH]; intros tmp acc Hf; [lia|]. cbn [decodeMeta].
  destruct (index_byte splitter tmp) as [index|] eqn:Hi; [|done].
  eapply bounded_bind; [apply bounded_option|]. intros pi _.
  eapply bounded_bind; [apply bounded_slice_to|]. intros key _.
  eapply bounded_bind; [apply bounded_slice_range|]. intros val _.
  eapply bounded_bind; [apply bounded_slice_from|]. intros tmp' [Hl ->].
  apply IH. rewrite length_drop. lia.
Qed.

Lemma bounded_takeName tmp : bounded_or (fun _ => True) (takeName tmp).
Proof.
  unfold takeName, slice_upto.
  apply (bounded_bind (fun _ => True));
    [eapply bounded_bind; [apply bounded_option|]|].
  - intros i _. unfold slice_to. case_decide; simpl; auto.
  - intros name _. eapply bounded_bind; [apply bounded_option|]. intros i _.
    eapply bounded_bind; [apply bounded_slice_from|]. done.
Qed.

Lemma bounded_getHeader bs :
  bounded_or (fun h => let '(head, body, id, v, c, s) := h in
    uint32 head /\ uint32 body /\ uint32 id /\ uint8 v /\ uint8 c /\ uint8 s) (getHeader bs).
Proof.
  unfold getHeader.
  repeat (eapply bounded_bind;
    [first [apply bounded_getUint32 | apply bounded_getByte]|intros ? ?]).
  simpl. auto 10.
Qed.
End totality.

(** ** Properties of the wire format *)

(** C2. Round trip of requests: whatever order the runtime ranges over the
    metadata map in, decoding the encoding of a request that fits the format
    gives the request back, with the header length the encoder computed, and with
    two changes: an empty metadata map is read back as nil, and nil data as an
    empty slice that is not nil.  So a request is recovered unchanged exactly
    when its metadata are not an empty map and its data are not nil. *)
Theorem DecodeReq_EncodeReq (order : list (string * string)) (req : Request)
  (Hwf : wf_req order req) :
  (EncodeReq order (SetHeadLength req) ≫= DecodeReq) = Ok (norm_req (SetHeadLength req)) /\
  ((EncodeReq order (SetHeadLength req) ≫= DecodeReq) = Ok (SetHeadLength req) <->
   Meta req <> Some ∅ /\ Data req <> None).
Proof.
  assert ((EncodeReq order (SetHeadLength req) ≫= DecodeReq) = Ok (norm_req (SetHeadLength req))) as E.
  { rewrite EncodeReq_wf by done. cbn [mbind go_bind]. by apply DecodeReq_image. }
  split; [exact E|]. rewrite E. rewrite <-(norm_req_id (SetHeadLength req)). split; congruence.
Qed.

Definition req_example : Request :=
  mkRequest 0 5 123 7 1 2 "user-service" "GetById"
    (Some {[ "trace-id" := "123456"; "a/b" := "a" ]}) (Some (bytes_of "hello")).
(** The first case of the test: no metadata, and nil data. *)
Definition req_nil : Request := mkRequest 0 0 123 12 1 1 "user-service" "GetById" None None.

Lemma wf_req_example :
  wf_req (map_to_list {[ "trace-id" := "123456"; "a/b" := "a" ]}) req_example.
Proof.
  split.
  - reflexivity.
  - go_decide.
  - split_and!; go_decide.
  - split_and!; go_decide.
  - go_decide.
  - reflexivity.
  - go_decide.
Qed.

Lemma wf_req_nil : wf_req [] req_nil.
Proof. split; (reflexivity || (split_and!; go_decide) || go_decide). Qed.

Lemma DecodeReq_EncodeReq_witness :
  (EncodeReq (map_to_list {[ "trace-id" := "123456"; "a/b" := "a" ]})
     (SetHeadLength req_example) ≫= DecodeReq) = Ok (SetHeadLength req_example) /\
  (EncodeReq [] (SetHeadLength req_nil) ≫= DecodeReq) <> Ok (SetHeadLength req_nil).
Proof.
  split.
  - apply (DecodeReq_EncodeReq _ _ wf_req_example). split; discriminate.
  - intros H. apply (DecodeReq_EncodeReq _ _ wf_req_nil) in H as [_ H]. exact (H eq_refl).
Defined.

(** C9. The imperative encoder refines the wire image: with [SetHeadLength] it
    never panics, writes exactly header, names, metadata and data in this
    order, and fills the buffer of [HeadLength+BodyLength] bytes. *)
Theorem EncodeReq_refines_image (order : list (string * string)) (req : Request)
  (Hwf : wf_req order req) :
  exists bs, EncodeReq order (SetHeadLength req) = Ok bs
    /\ bs = req_image order (SetHeadLength req)
    /\ Z.of_nat (length bs) = (HeadLength (SetHeadLength req) + BodyLength req)%Z.
Proof. eexists. split_and!; [by apply EncodeReq_wf|done|by apply length_req_image]. Qed.

Lemma EncodeReq_refines_image_witness :
  exists bs, EncodeReq (map_to_list {[ "trace-id" := "123456"; "a/b" := "a" ]})
      (SetHeadLength req_example) = Ok bs
    /\ bs = req_image (map_to_list {[ "trace-id" := "123456"; "a/b" := "a" ]})
              (SetHeadLength req_example)
    /\ Z.of_nat (length bs) = (HeadLength (SetHeadLength req_example) + 5)%Z.
Proof. exact (EncodeReq_refines_image _ _ wf_req_example). Defined.

(** C33. [DecodeReq] is total on arbitrary bytes: it returns a request whose
    scalars are in range, whose header length lies in the input and whose data
    is the input after it, or stops with a bounds panic; its metadata loop
    always terminates. *)
Theorem DecodeReq_total (bs : list byte) :
  match DecodeReq bs with
  | Ok req => uint32 (HeadLength req) /\ uint32 (BodyLength req) /\ uint32 (RequestID req)
              /\ (15 <= HeadLength req <= Z.of_nat (length bs))%Z
              /\ Data req = Some (drop (Z.to_nat (HeadLength req)) bs)
  | Panic p => p = PSlice \/ p = PIndex
  end.
Proof.
  apply (bounded_bind _ _ _ _ (bounded_getHeader bs)).
  intros [[[[[head body] id] v] c] s] (Hh & Hb & Hi & _ & _ & _).
  eapply bounded_bind; [apply bounded_slice_range|]. intros tmp (Hlo & Hhi & _).
  eapply bounded_bind; [apply bounded_takeName|]. intros [service tmp1] _.
  eapply bounded_bind; [apply bounded_takeName|]. intros [method tmp2] _.
  apply (bounded_bind (fun _ => True)).
  - case_decide; [|done].
    pose proof (bounded_decodeMeta (S (length tmp2)) tmp2 ∅ ltac:(lia)) as Hm.
    by destruct (decodeMeta _ _ _).
  - intros meta _. eapply bounded_bind; [apply bounded_slice_from|].
    intros data [_ ->]. unfold uint32 in *. simpl. split_and!; (done || lia).
Qed.

(** Round trip of responses: decoding the encoding of a response whose lengths
    fit gives the response back, with empty error and data bytes read as nil. *)
Lemma DecodeResp_EncodeResp (r : Resp.Response)
  (Hid : uint32 (Resp.RequestID r)) (Hv : uint8 (Resp.Version r))
  (Hc : uint8 (Resp.Compresser r)) (Hs : uint8 (Resp.Serializer r))
  (Hsize : uint32 (Z.of_nat (15 + length (contents (Resp.Error r)) + length (contents (Resp.Data r))))) :
  let r' := Resp_SetHeadLength (Resp_SetBodyLength r) in
  (EncodeResp r' ≫= DecodeResp) = Ok (norm_resp r').
Proof.
  intros r'. destruct r as [h b id v c s err data]. unfold r'.
  unfold Resp_SetHeadLength, Resp_SetBodyLength in *. cbn in Hid, Hv, Hc, Hs, Hsize. clear r'.
  assert (He : uint32 (Z.of_nat (length (contents err)))) by (unfold uint32 in *; lia).
  assert (Hd : uint32 (Z.of_nat (length (contents data)))) by (unfold uint32 in *; lia).
  assert (Hh : uint32 (15 + Z.of_nat (length (contents err)))) by (unfold uint32 in *; lia).
  cbn [Resp.HeadLength Resp.BodyLength Resp.RequestID
    Resp.Version Resp.Compresser Resp.Serializer Resp.Error Resp.Data].
  rewrite (wrap32_small _ He), (wrap32_small _ Hh), (wrap32_small _ Hd).
  rewrite EncodeResp_image by (cbn; unfold uint32 in *; lia).
  cbn [mbind go_bind]. apply DecodeResp_image; done.
Qed.

Definition resp_example : Resp.Response :=
  Resp.mkResponse 0 0 123 3 0 7 (Some (bytes_of "this is error")) (Some (bytes_of "hello")).
Lemma DecodeResp_EncodeResp_witness :
  (EncodeResp (Resp_SetHeadLength (Resp_SetBodyLength resp_example)) ≫= DecodeResp)
  = Ok (Resp_SetHeadLength (Resp_SetBodyLength resp_example)).
Proof.
  apply DecodeResp_EncodeResp; go_decide.
Defined.
