(* ===== verification/Tcp.v ===== *)
(** Framed TCP messages: [micro/rpc/tcp.go], [micro/net/client.go],
    [micro/net/server.go] and the connection loop of [micro/rpc/server.go].

    A connection is the list of segments the peer has delivered: one [Read]
    returns bytes of at most one segment, as [net.Conn] documents.  An empty
    list means that the peer has closed. *)
From S2P Require Import Prelude Message.

(** ** Connections *)

Inductive net_error :=
  | EOF
  | WriteError
  | DialError
  | JsonError
  | NoService                  (** 没有这个服务 *)
  | NilService                 (** 服务是空服务 *)
  | PointerOnly                (** 只接受一级结构体指针 *)
  | AppError (msg : string).   (** an error returned by a service method *)

#[export] Instance net_error_eq_dec : EqDecision net_error.
Proof. solve_decision. Defined.

Record Conn := mkConn {
  inbox : list (list byte);     (** segments not yet read, each non-empty *)
  outbox : list (list byte);    (** one entry per [Write] *)
  broken : bool                 (** writes fail *)
}.

Definition zeros (n : nat) : list byte := replicate n (Z_byte 0).

(** [conn.Read(make([]byte, n))]: the buffer after the call. *)
Definition conn_read (n : nat) : GM Conn net_error (list byte) := fun c =>
  match n, inbox c with
  | O, _ => Ok (c, inr [])
  | _, [] => Ok (c, inl EOF)
  | _, seg :: rest =>
      let got := take n seg in
      let left := drop n seg in
      Ok (mkConn (match left with [] => rest | _ => left :: rest end) (outbox c) (broken c),
          inr (got ++ zeros (n - length got)))
  end.

Definition conn_write (data : list byte) : GM Conn net_error unit := fun c =>
  if broken c then Ok (c, inl WriteError)
  else Ok (mkConn (inbox c) (outbox c ++ [data]) false, inr tt).

(** [make([]byte, n)] panics above the address space of a 64-bit platform. *)
Definition max_alloc : Z := 2 ^ 48.
Definition makeslice (n : Z) : go nat :=
  if decide (n <= max_alloc)%Z then Ok (Z.to_nat n)
  else Panic (PUser "makeslice: len out of range").

(** ** Messages *)

Definition numOfLengthByte : nat := 8.

(** [binary.BigEndian.PutUint64(respData[:8], uint64(n))] and the [copy] after it. *)
Definition frame (n : nat) (data : list byte) : list byte :=
  let respData := zeros (length data + numOfLengthByte) in
  let respData := copy_at 0 (be_put 8 (Z.of_nat n)) respData in
  copy_at numOfLengthByte data respData.

(** [EncodeMsg] *)
Definition EncodeMsg (data : list byte) : list byte := frame (length data) data.

(** [ReadMsg] *)
Definition ReadMsg : GM Conn net_error (list byte) :=
  lenData ← conn_read numOfLengthByte;
  let length := be_get lenData in
  n ← gm_lift (makeslice length);
  conn_read n.

(** ** [micro/net] *)

(** [handleMsg] *)
Definition handleMsg (data : list byte) : string := "hello".

(** One turn of the loop of [handleConn] of [micro/net/server.go]: the length it
    writes is [len(data)], the request's. *)
Definition net_handleOne : GM Conn net_error unit :=
  data ← ReadMsg;
  let res := handleMsg data in
  conn_write (frame (length data) (bytes_of res)).

(** [handleConn] of [micro/net/server.go]: it loops until an error. *)
Fixpoint net_handleConn (fuel : nat) : GM Conn net_error unit :=
  match fuel with
  | O => gm_panic PFuel
  | S fuel' => net_handleOne ≫= fun _ => net_handleConn fuel'
  end.

(** The wire between a client and a server goroutine: what the server has
    written when it has handled everything the client sent. *)
Definition served (handle : GM Conn net_error unit) (sent : list (list byte))
  : go (net_error + list (list byte)) :=
  match handle (mkConn sent [] false) with
  | Ok (c, _) => Ok (inr (outbox c))
  | Panic p => Panic p
  end.

(** [Client.Start] of [micro/net/client.go] dials, and closes the connection at
    once. *)
Definition net_Client_Start (dial : option net_error) : option net_error :=
  match dial with Some err => Some err | None => None end.

(** [Client.Send] of [micro/net/client.go] over a dialled connection whose
    peer is [peer]: from a request frame to the error of [conn.Write], or to what
    the peer sends back. *)
Definition net_Send (dial : option net_error) (peer : list byte -> go (net_error + list (list byte)))
    (data : list byte) : go (net_error + string) :=
  match dial with
  | Some err => Ok (inl err)
  | None =>
      let reqData := frame (length data) data in
      x ← peer reqData;
      match x with
      | inl err => Ok (inl err)
      | inr segs =>
          match ReadMsg (mkConn segs [] false) with
          | Ok (_, inr resData) => Ok (inr (string_of resData))
          | Ok (_, inl err) => Ok (inl err)
          | Panic p => Panic p
          end
      end
  end.

(** [Start] of the two servers: a goroutine for each accepted connection, until
    accepting fails; the connections share nothing, and a panic of one ends the
    program.  The result is what has become of the connections, and the error
    that [Start] returned, if it has. *)
Section start.
Context (handle : nat -> GM Conn net_error unit).
Definition pending (c : Conn) : nat := length (concat (inbox c)).
Fixpoint accept_loop (accepts : list (net_error + Conn)) : go (list Conn * option net_error) :=
  match accepts with
  | [] => Ok ([], None)
  | inl err :: _ => Ok ([], Some err)
  | inr conn :: accepts' =>
      x ← handle (S (pending conn)) conn;
      y ← accept_loop accepts';
      Ok (x.1 :: y.1, y.2)
  end.
Definition Start (listen : option net_error) (accepts : list (net_error + Conn))
  : go (list Conn * option net_error) :=
  match listen with Some err => Ok ([], Some err) | None => accept_loop accepts end.

(** Every connection before the failure is served as if it were alone. *)
Lemma Start_serves conns cs err rest :
  Forall2 (fun c c' => exists x, handle (S (pending c)) c = Ok (c', x)) conns cs ->
  Start None ((inr <$> conns) ++ inl err :: rest) = Ok (cs, Some err).
Proof.
  intros HF. induction HF as [|c c' conns cs [x Hx] HF IH]; [done|]. cbn in *. rewrite Hx. cbn.
  by rewrite IH.
Qed.
End start.
Definition net_Start : option net_error -> list (net_error + Conn) -> go (list Conn * option net_error) :=
  Start net_handleConn.

(** ** Reading *)
Section reading.
Implicit Types (c : Conn) (m rest seg src r : list byte) (tl : list (list byte)).

(** Put an unread rest back in front. *)
Definition push rest tl : list (list byte) :=
  match rest with [] => tl | _ => rest :: tl end.
Definition set_inbox tl c : Conn := mkConn tl (outbox c) (broken c).

Lemma copy_at_0 src r :
  length src <= length r -> copy_at 0 src r = src ++ drop (length src) r.
Proof. apply (copy_at_app []). Qed.

Lemma frame_eq n m : frame n m = be_put 8 (Z.of_nat n) ++ m.
Proof.
  unfold frame, zeros. rewrite Nat.add_comm, replicate_add.
  rewrite copy_at_0
    by (rewrite length_app, length_be_put, length_replicate; unfold numOfLengthByte; lia).
  rewrite drop_app_length' by (by rewrite length_be_put, length_replicate).
  replace numOfLengthByte with (length (be_put 8 (Z.of_nat n))) by apply length_be_put.
  rewrite copy_at_app by (by rewrite length_replicate).
  by rewrite drop_replicate, Nat.sub_diag, app_nil_r.
Qed.

Lemma conn_read_push n m rest tl c :
  length m = n -> inbox c = push (m ++ rest) tl ->
  conn_read n c = Ok (set_inbox (push rest tl) c, inr m).
Proof.
  intros <- Hc. destruct m as [|b m].
  - cbn in *. rewrite <-Hc. by destruct c.
  - unfold conn_read. rewrite Hc. cbn [push app].
    change (b :: m ++ rest) with ((b :: m) ++ rest).
    rewrite take_app_length, drop_app_length, Nat.sub_diag. cbn [zeros replicate].
    by rewrite app_nil_r.
Qed.

Lemma be_get_length m : (Z.of_nat (length m) <= max_alloc)%Z ->
  be_get (be_put 8 (Z.of_nat (length m))) = Z.of_nat (length m).
Proof. unfold max_alloc. intros H. apply be_get_put_id. lia. Qed.

(** A frame at the head of a segment is read whole, and nothing else is. *)
Lemma ReadMsg_push m rest tl c :
  (Z.of_nat (length m) <= max_alloc)%Z ->
  inbox c = push (EncodeMsg m ++ rest) tl ->
  ReadMsg c = Ok (set_inbox (push rest tl) c, inr m).
Proof.
  intros Hm Hc. unfold ReadMsg. rewrite GM_bind_eq.
  unfold EncodeMsg in Hc. rewrite frame_eq, <-app_assoc in Hc.
  rewrite (conn_read_push numOfLengthByte _ _ _ _ (length_be_put 8 _) Hc).
  rewrite be_get_length by done. rewrite GM_bind_eq.
  unfold gm_lift, makeslice. rewrite decide_True by done. rewrite Nat2Z.id.
  by rewrite (conn_read_push _ m rest tl).
Qed.

Lemma push_nonempty rest tl : rest <> [] -> push rest tl = rest :: tl.
Proof. by destruct rest. Qed.
Lemma EncodeMsg_nonempty m rest : EncodeMsg m ++ rest <> [].
Proof. unfold EncodeMsg. by rewrite frame_eq. Qed.

(** Unread bytes. *)
Definition unread c : nat := length (concat (inbox c)).
Definition wf_conn c : Prop := Forall (fun s => s <> []) (inbox c).

Lemma conn_read_unread n c c' b :
  wf_conn c -> conn_read n c = Ok (c', inr b) ->
  wf_conn c' /\ length b = n /\ unread c' <= unread c
  /\ (0 < n -> unread c' < unread c) /\ outbox c' = outbox c.
Proof.
  unfold wf_conn, unread, conn_read. intros Hw.
  destruct n as [|n]; [intros [= <- <-]; split_and!; (done || lia)|].
  destruct (inbox c) as [|seg tl]; [done|]. inversion Hw as [|? ? Hs Htl]; subst.
  destruct seg as [|x seg]; [done|]. cbn [take drop]. intros [= <- <-]. cbn [inbox outbox].
  assert (Hb : length ((x :: take n seg) ++ zeros (S n - length (x :: take n seg))) = S n).
  { unfold zeros. rewrite length_app, length_replicate. cbn [length].
    rewrite length_take. lia. }
  assert (Hc : length (concat (push (drop n seg) tl)) = length (drop n seg) + length (concat tl)).
  { destruct (drop n seg); [done|]. cbn [push concat]. by rewrite length_app. }
  change (match drop n seg with [] => tl | _ => drop n seg :: tl end)
    with (push (drop n seg) tl).
  assert (Hp : Forall (fun s => s <> []) (push (drop n seg) tl))
    by (destruct (drop n seg) eqn:Hd; [done|]; by constructor).
  assert (Hx : length (concat ((x :: seg) :: tl)) = S (length seg) + length (concat tl))
    by (cbn [concat]; by rewrite length_app).
  rewrite length_drop in Hc. rewrite Hc, Hx. split_and!; (exact Hb || done || lia).
Qed.

Lemma ReadMsg_unread c c' b :
  wf_conn c -> ReadMsg c = Ok (c', inr b) ->
  wf_conn c' /\ unread c' < unread c /\ outbox c' = outbox c.
Proof.
  intros Hw H. apply GM_bind_inv in H as (c1 & hd & H1 & H).
  apply conn_read_unread in H1 as (Hw1 & _ & _ & Hlt & Ho); [|done].
  apply GM_bind_inv in H as (c2 & n & H2 & H).
  unfold gm_lift in H2. destruct (makeslice _); [|done]. injection H2 as <- <-.
  apply conn_read_unread in H as (Hw2 & _ & Hle & _ & Ho2); [|done].
  split_and!; [done| |congruence]. unfold numOfLengthByte in Hlt. lia.
Qed.

Lemma ReadMsg_eof c : inbox c = [] -> ReadMsg c = Ok (c, inl EOF).
Proof. intros Hc. unfold ReadMsg. rewrite GM_bind_eq. unfold conn_read. by rewrite Hc. Qed.

(** [ReadMsg] panics in [makeslice] only. *)
Lemma ReadMsg_panic c p : ReadMsg c = Panic p -> p = PUser "makeslice: len out of range".
Proof.
  unfold ReadMsg. rewrite GM_bind_eq.
  assert (Hnp : forall n c p, conn_read n c <> Panic p).
  { intros n c0 p0. unfold conn_read. by destruct n, (inbox c0). }
  destruct (conn_read numOfLengthByte c) as [[c1 [e|b]]|p1] eqn:E1; try done;
    [|by apply Hnp in E1].
  rewrite GM_bind_eq. unfold gm_lift, makeslice. case_decide; [|by intros [= <-]].
  intros E. by apply Hnp in E.
Qed.
End reading.

(** [k] calls of [ReadMsg] on one connection. *)
Fixpoint ReadMsgs (k : nat) : GM Conn net_error (list (list byte)) :=
  match k with
  | O => mret []
  | S k' => m ← ReadMsg; ms ← ReadMsgs k'; mret (m :: ms)
  end.

Section streams.
Implicit Types (c : Conn) (g ms : list (list byte)) (groups : list (list (list byte))).

(** The bytes of a group of messages that arrive in one segment. *)
Definition segment_of g : list byte := concat (EncodeMsg <$> g).
Definition readable (m : list byte) : Prop := (Z.of_nat (length m) <= max_alloc)%Z.

Lemma ReadMsgs_app k1 k2 c c1 c2 ms1 ms2 :
  ReadMsgs k1 c = Ok (c1, inr ms1) -> ReadMsgs k2 c1 = Ok (c2, inr ms2) ->
  ReadMsgs (k1 + k2) c = Ok (c2, inr (ms1 ++ ms2)).
Proof.
  revert c ms1. induction k1 as [|k1 IH]; intros c ms1 H1 H2; cbn in *.
  - by injection H1 as <- <-.
  - apply GM_bind_inv in H1 as (c' & m & Hm & H1). rewrite GM_bind_eq, Hm.
    apply GM_bind_inv in H1 as (c3 & ms & H3 & H1). injection H1 as <- <-.
    by rewrite GM_bind_eq, (IH _ _ H3 H2).
Qed.

Lemma ReadMsgs_segment g tl c :
  Forall readable g -> inbox c = push (segment_of g) tl ->
  ReadMsgs (length g) c = Ok (set_inbox tl c, inr g).
Proof.
  intros Hg. revert c. induction Hg as [|m g Hm Hg IH]; intros c Hc; cbn in *.
  - rewrite <-Hc. by destruct c.
  - rewrite GM_bind_eq, (ReadMsg_push m (segment_of g) tl) by done.
    rewrite GM_bind_eq, IH by done. by destruct c.
Qed.

Lemma ReadMsgs_groups groups c :
  Forall (Forall readable) groups -> Forall (fun g => g <> []) groups ->
  inbox c = segment_of <$> groups ->
  ReadMsgs (length (concat groups)) c = Ok (set_inbox [] c, inr (concat groups)).
Proof.
  intros Hr. revert c. induction Hr as [|g groups Hg Hr IH]; intros c Hne Hc.
  - cbn in *. rewrite <-Hc. by destruct c.
  - inversion Hne as [|? ? Hg0 Hne']; subst. cbn [concat]. rewrite length_app.
    eapply ReadMsgs_app.
    + apply (ReadMsgs_segment g (segment_of <$> groups)); [done|]. rewrite Hc. cbn.
      destruct g as [|m g]; [done|]. symmetry. apply push_nonempty.
      unfold segment_of. cbn. apply EncodeMsg_nonempty.
    + rewrite IH by done. by destruct c.
Qed.
End streams.

(** ** Properties of the framing *)

(** C14. Framing round trip of a stream: messages written with [EncodeMsg] are
    read back by successive [ReadMsg] calls, in order and with nothing left,
    however the network groups whole frames into segments. *)
Theorem ReadMsg_stream (groups : list (list (list byte))) (out : list (list byte)) (b : bool)
  (Hread : Forall (Forall readable) groups) (Hne : Forall (fun g => g <> []) groups) :
  ReadMsgs (length (concat groups)) (mkConn (segment_of <$> groups) out b)
  = Ok (mkConn [] out b, inr (concat groups)).
Proof. by rewrite ReadMsgs_groups by done. Qed.

Lemma ReadMsg_stream_witness :
  ReadMsgs 3 (mkConn [EncodeMsg (bytes_of "ab") ++ EncodeMsg []; EncodeMsg (bytes_of "c")] [] false)
  = Ok (mkConn [] [] false, inr [bytes_of "ab"; []; bytes_of "c"]).
Proof.
  refine (ReadMsg_stream [[bytes_of "ab"; []]; [bytes_of "c"]] [] false _ _).
  - repeat constructor; unfold readable, max_alloc; cbn; lia.
  - repeat constructor; done.
Defined.

(** What one [Read] of a buffer leaves in it. *)
Definition buffer_of (n : nat) (seg : list byte) : list byte := take n seg ++ zeros (n - length seg).

Lemma conn_read_spec n c :
  wf_conn c ->
  (conn_read n c = Ok (c, inl EOF) /\ inbox c = [] /\ 0 < n) \/
  exists got tl, conn_read n c = Ok (set_inbox tl c, inr (got ++ zeros (n - length got))) /\
    concat (inbox c) = got ++ concat tl /\ wf_conn (set_inbox tl c) /\ length got <= n /\
    match inbox c with [] => True | seg :: _ => got = take n seg end.
Proof.
  unfold wf_conn, conn_read. intros Hw. destruct n as [|n].
  { right. exists [], (inbox c). cbn. split_and!; try done; [by destruct c|by destruct (inbox c)]. }
  destruct (inbox c) as [|seg tl] eqn:Ei; [left; split_and!; [done|done|lia]|].
  right. apply Forall_cons in Hw as [Hs Htl].
  exists (take (S n) seg), (push (drop (S n) seg) tl). split_and!; [done| | |rewrite length_take; lia|done].
  - cbn [concat]. rewrite <-(take_drop (S n) seg) at 1. rewrite <-app_assoc. f_equal.
    by destruct (drop (S n) seg).
  - cbn [set_inbox inbox]. destruct (drop (S n) seg) eqn:Hd; [done|]. cbn. by constructor.
Qed.

(** C30. What a peer can make [ReadMsg] do.  The length it allocates is any 64-bit
    number that the peer writes in eight bytes, the missing ones taken as zero.
    Above the address space the call panics, whatever follows: no error is
    returned and the goroutine of the connection, which does not recover, ends
    the program.  Otherwise the message has exactly the declared length, it
    is a prefix of the bytes that follow the header, padded with zeros when fewer
    were delivered at once, and every byte that is not in it is still unread; or
    there is nothing after the header, which is the only error. *)
Theorem ReadMsg_bounds (c : Conn) (Hw : wf_conn c) :
  match inbox c with
  | [] => ReadMsg c = Ok (c, inl EOF)
  | seg :: tl =>
      let n := be_get (buffer_of numOfLengthByte seg) in
      (0 <= n < 2 ^ 64)%Z /\
      (ReadMsg c = Panic (PUser "makeslice: len out of range") <-> (max_alloc < n)%Z) /\
      ((n <= max_alloc)%Z ->
         (exists got tl', ReadMsg c = Ok (set_inbox tl' c, inr (got ++ zeros (Z.to_nat n - length got))) /\
            Z.of_nat (length (got ++ zeros (Z.to_nat n - length got))) = n /\
            concat (inbox c) = take numOfLengthByte seg ++ got ++ concat tl') \/
         (ReadMsg c = Ok (set_inbox [] c, inl EOF) /\
            concat (inbox c) = take numOfLengthByte seg /\ (0 < n)%Z))
  end.
Proof.
  destruct (inbox c) as [|seg tl] eqn:Ei; [by apply ReadMsg_eof|]. intros n.
  assert (0 <= n < 2 ^ 64)%Z as Hn.
  { pose proof (be_get_range (buffer_of numOfLengthByte seg)) as Hb. fold n in Hb.
    replace (length (buffer_of numOfLengthByte seg)) with 8 in Hb; [exact Hb|].
    unfold buffer_of, zeros, numOfLengthByte. rewrite length_app, length_take, length_replicate. lia. }
  destruct (conn_read_spec numOfLengthByte c Hw) as [(_ & Hi & _)|(hd & tl1 & Hr & Hc & Hw1 & _ & Hhd)];
    [congruence|]. rewrite Ei in Hhd. subst hd.
  assert (ReadMsg c = (gm_lift (makeslice n) ≫= conn_read) (set_inbox tl1 c)) as Hread.
  { unfold ReadMsg. rewrite GM_bind_eq, Hr. unfold n, buffer_of. rewrite length_take.
    replace (numOfLengthByte - numOfLengthByte `min` length seg) with (numOfLengthByte - length seg) by lia. done. }
  rewrite Hread, GM_bind_eq. unfold gm_lift, makeslice. split; [exact Hn|]. case_decide as Hle; [|split; [split; [lia|done]|lia]].
  assert (Hrd : (exists got tl', conn_read (Z.to_nat n) (set_inbox tl1 c)
      = Ok (set_inbox tl' c, inr (got ++ zeros (Z.to_nat n - length got))) /\ concat tl1 = got ++ concat tl' /\ length got <= Z.to_nat n)
    \/ (conn_read (Z.to_nat n) (set_inbox tl1 c) = Ok (set_inbox [] c, inl EOF) /\ tl1 = [] /\ 0 < Z.to_nat n)).
  { destruct (conn_read_spec (Z.to_nat n) _ Hw1) as [(H1 & H2 & H3)|(got & tl' & H1 & H2 & _ & H3 & _)].
    - right. cbn in H2. subst tl1. done.
    - left. by exists got, tl'. }
  rewrite Ei in Hc. rewrite Hc. destruct Hrd as [(got & tl' & -> & H2 & H3)|(-> & -> & H3)].
  - split; [split; [done|lia]|]. intros _. left. exists got, tl'. split_and!; [done| |by rewrite H2].
    rewrite length_app. unfold zeros. rewrite length_replicate. lia.
  - split; [split; [done|lia]|]. intros _. right. split_and!; [done|by rewrite app_nil_r|lia].
Qed.

(** Eight bytes that end the server, and a message of which half has come. *)
Lemma ReadMsg_bounds_witness :
  ReadMsg (mkConn [replicate 8 (Z_byte 255)] [] false) = Panic (PUser "makeslice: len out of range") /\
  exists got tl', ReadMsg (mkConn [be_put 8 4 ++ bytes_of "he"; bytes_of "y!"] [] false)
    = Ok (mkConn tl' [] false, inr (got ++ zeros (4 - length got))).
Proof.
  split.
  - refine (proj2 (proj1 (proj2 (ReadMsg_bounds (mkConn [replicate 8 (Z_byte 255)] [] false) _))) _);
      [by repeat constructor|vm_compute; reflexivity].
  - destruct (proj2 (proj2 (ReadMsg_bounds (mkConn [be_put 8 4 ++ bytes_of "he"; bytes_of "y!"] [] false)
      ltac:(by repeat constructor)))) as [(got & tl' & H & _)|(H & _)].
    + vm_compute. discriminate.
    + exists got, tl'. exact H.
    + vm_compute in H. discriminate H.
Defined.

(** A short read corrupts a message silently: when the payload of a frame
    arrives in two segments, [ReadMsg] returns the first part padded with zero
    bytes, without an error, and leaves the second part to be read as the next
    frame; the message is right only if the second part is zero bytes. *)
Lemma ReadMsg_short_read (p1 p2 : list byte) (tl out : list (list byte)) (b : bool)
  (H1 : p1 <> []) (H2 : p2 <> []) (Hsize : readable (p1 ++ p2)) :
  let m := p1 ++ p2 in
  let c := mkConn ((be_put 8 (Z.of_nat (length m)) ++ p1) :: p2 :: tl) out b in
  ReadMsg c = Ok (mkConn (p2 :: tl) out b, inr (p1 ++ zeros (length p2)))
  /\ (p1 ++ zeros (length p2) = m <-> p2 = zeros (length p2)).
Proof.
  intros m c. split.
  - unfold ReadMsg. rewrite GM_bind_eq.
    rewrite (conn_read_push numOfLengthByte _ p1 (p2 :: tl)) by (rewrite ?length_be_put; done).
    rewrite be_get_length by done. rewrite GM_bind_eq.
    unfold gm_lift, makeslice. rewrite decide_True by done. rewrite Nat2Z.id.
    rewrite push_nonempty by done. unfold conn_read. cbn [inbox set_inbox].
    assert (Hm : length m = length p1 + length p2) by apply length_app.
    destruct (length m) as [|k] eqn:Ek; [destruct p1; cbn [length] in Hm; [done|lia]|].
    rewrite take_ge, drop_ge by lia. by replace (S k - length p1) with (length p2) by lia.
  - unfold m. split; [|congruence]. intros H. apply app_inv_head in H. by symmetry.
Qed.

Lemma ReadMsg_short_read_witness :
  ReadMsg (mkConn [be_put 8 5 ++ bytes_of "he"; bytes_of "llo"] [] false)
  = Ok (mkConn [bytes_of "llo"] [] false, inr (bytes_of "he" ++ zeros 3)).
Proof.
  refine (proj1 (ReadMsg_short_read (bytes_of "he") (bytes_of "llo") [] [] false _ _ _)).
  - done.
  - done.
  - unfold readable, max_alloc. cbn. lia.
Defined.

(** The echo server answers with the wrong length: [handleConn] of
    [micro/net] declares the length of the request before the five bytes of its
    answer, so [Client.Send] returns the answer cut or zero-padded to the
    length of the request, and ["hello"] only for requests of five bytes. *)
Lemma net_Send_reply (fuel : nat) (data : list byte)
  (Hfuel : 2 <= fuel) (Hsize : readable data) :
  let reply := take (length data) (bytes_of "hello") ++ zeros (length data - 5) in
  net_Send None (fun req => served (net_handleConn fuel) [req]) data
  = Ok (inr (string_of reply))
  /\ (string_of reply = "hello" <-> length data = 5).
Proof.
  intros reply. destruct fuel as [|[|fuel]]; [lia..|]. split.
  - unfold net_Send, served. cbn [net_handleConn]. unfold net_handleOne.
    rewrite !GM_bind_eq. rewrite (ReadMsg_push data [] []).
    2: done.
    2: { cbn [inbox]. rewrite app_nil_r. unfold EncodeMsg.
         by rewrite frame_eq. }
    unfold conn_write. cbn [broken set_inbox inbox outbox push app].
    rewrite !GM_bind_eq, ReadMsg_eof by done. cbn [outbox].
    rewrite frame_eq, go_bind_Ok. unfold ReadMsg. rewrite GM_bind_eq.
    rewrite (conn_read_push numOfLengthByte (be_put 8 (Z.of_nat (length data)))
      (bytes_of "hello") []) by done.
    rewrite be_get_length by done. rewrite GM_bind_eq. unfold gm_lift, makeslice.
    rewrite decide_True by done. rewrite Nat2Z.id. unfold conn_read, reply.
    destruct (length data) as [|k]; [done|]. cbn [push inbox set_inbox bytes_of].
    do 5 f_equal. rewrite length_take. change (length (bytes_of "hello")) with 5. lia.
  - unfold reply. split.
    + intros H. apply (f_equal bytes_of) in H. rewrite bytes_of_string_of in H.
      apply (f_equal length) in H. unfold zeros in H.
      rewrite length_app, length_take, length_replicate in H.
      change (length (bytes_of "hello")) with 5 in H. lia.
    + intros ->. reflexivity.
Qed.

Lemma net_Send_reply_witness :
  net_Send None (fun req => served (net_handleConn 2) [req]) (bytes_of "hi")
  = Ok (inr "he").
Proof.
  refine (proj1 (net_Send_reply 2 (bytes_of "hi") _ _)).
  - lia.
  - unfold readable, max_alloc. cbn. lia.
Defined.
