(* ===== verification/Rpc.v ===== *)
(** Remote procedure calls: [micro/rpc/client.go], [micro/rpc/server.go],
    [micro/rpc/type.go].

    [encoding/json] and [reflect] are arguments: [marshal]/[unmarshal] for the
    values of request and response structures, [marshal_req]/[unmarshal_req] for
    [message.Request], and a service is its name and the table of its methods. *)
From S2P Require Import Prelude Message Tcp.

Section rpc.
Context {V : Type}.
Context (marshal : V -> net_error + list byte).
(** [json.Unmarshal(data, ptr)]: what [ptr] holds afterwards, and the error. *)
Context (unmarshal : list byte -> V -> V * option net_error).
Context (marshal_req : Request -> net_error + list byte).
Context (unmarshal_req : list byte -> Request * option net_error).

(** A method found by [MethodByName]: the zero value of its request type, and its body. *)
Record Method := mkMethod { m_in : V; m_call : V -> go (V * option net_error) }.
Record Service := mkService { Name : string; methods : gmap string Method }.

(** [Server]: the map from service names to reflect stubs. *)
Definition Server : Type := gmap string Service.
Definition NewServer : Server := ∅.
Definition RegisterService (service : Service) (s : Server) : Server :=
  <[Name service := service]> s.

(** [Invoke] of [*reflectStub]; the error of [json.Unmarshal] is dropped. *)
Definition reflectStub_Invoke (r : Service) (methodName : string) (data : list byte)
  : go (net_error + list byte) :=
  m ← go_of_option (PUser "reflect: call of reflect.Value.Type on zero Value")
        (methods r !! methodName);
  let inReq := (unmarshal data (m_in m)).1 in
  '(res, err) ← m_call m inReq;
  match err with
  | Some e => Ok (inl e)
  | None => Ok (marshal res)
  end.

(** [&Response{Data: data}] *)
Definition data_response (data : list byte) : Resp.Response :=
  Resp.mkResponse 0 0 0 0 0 0 None (Some data).

(** [Invoke] of [*Server] *)
Definition Server_Invoke (s : Server) (req : Request) : go (net_error + Resp.Response) :=
  match s !! ServiceName req with
  | None => Ok (inl NoService)
  | Some ser =>
      resp ← reflectStub_Invoke ser (MethodName req) (contents (Data req));
      match resp with
      | inl err => Ok (inl err)
      | inr data => Ok (inr (data_response data))
      end
  end.

(** The part of [handleConn] between reading and writing. *)
Definition serve (s : Server) (reqData : list byte) : go (net_error + list byte) :=
  match unmarshal_req reqData with
  | (_, Some err) => Ok (inl err)
  | (req, None) =>
      res ← Server_Invoke s req;
      match res with
      | inl err => Ok (inl err)
      | inr r => Ok (inr (EncodeMsg (contents (Resp.Data r))))
      end
  end.

Definition gm_result {S E A} (m : go (E + A)) : GM S E A := fun st =>
  match m with Ok r => Ok (st, r) | Panic p => Panic p end.

(** [handleConn] of [*Server]: it loops until an error, which it returns. *)
Fixpoint handleConn (fuel : nat) (s : Server) : GM Conn net_error unit :=
  match fuel with
  | O => gm_panic PFuel
  | S fuel' =>
      reqData ← ReadMsg;
      respData ← gm_result (serve s reqData);
      conn_write respData ≫= fun _ => handleConn fuel' s
  end.

(** [Send] of [*Client] over a pooled connection whose peer is [peer]: the error of
    [conn.Write], or what it sends back. *)
Definition Client_Send (pool_get : option net_error)
    (peer : list byte -> go (net_error + list (list byte))) (data : list byte)
  : go (net_error + list byte) :=
  match pool_get with
  | Some err => Ok (inl err)
  | None =>
      x ← peer (EncodeMsg data);
      match x with
      | inl err => Ok (inl err)
      | inr segs =>
          match ReadMsg (mkConn segs [] false) with
          | Ok (_, r) => Ok r
          | Panic p => Panic p
          end
      end
  end.

(** [Invoke] of [*Client]: a response pointer, nil on error, and the error. *)
Definition Client_Invoke (pool_get : option net_error)
    (peer : list byte -> go (net_error + list (list byte))) (req : Request)
  : go (option Resp.Response * option net_error) :=
  match marshal_req req with
  | inl err => Ok (None, Some err)
  | inr data =>
      res ← Client_Send pool_get peer data;
      match res with
      | inl err => Ok (None, Some err)
      | inr data => Ok (Some (data_response data), None)
      end
  end.

(** [&message.Request{ServiceName: s, MethodName: m, Data: data}] *)
Definition call_request (service method : string) (data : list byte) : Request :=
  mkRequest 0 0 0 0 0 0 service method None (Some data).

(** The function that [setFuncField] installs in a field: [invoke] is the
    proxy's [Invoke], whose error is overwritten before it is looked at. *)
Definition proxy_fn
    (invoke : Request -> go (option Resp.Response * option net_error))
    (service field : string) (ret arg : V) : go (V * option net_error) :=
  match marshal arg with
  | inl err => Ok (ret, Some err)
  | inr reqData =>
      '(resp, _) ← invoke (call_request service field reqData);
      match resp with
      | None => Panic PNilDeref
      | Some r => Ok (unmarshal (contents (Resp.Data r)) ret)
      end
  end.

(** The argument of [setFuncField]: nil, a nil pointer, a pointer to a structure
    (its fields with whether [CanSet] holds), or anything else. *)
Inductive service_arg :=
  | ArgNil
  | ArgNilPtr
  | ArgStructPtr (name : string) (fields : list (string * bool))
  | ArgOther.

(** [setFuncField]: the functions it installs, by field; [val.Elem()] of a nil
    pointer has no type. *)
Definition setFuncField (service : service_arg)
    (invoke : Request -> go (option Resp.Response * option net_error))
  : go (net_error + list (string * (V -> V -> go (V * option net_error)))) :=
  match service with
  | ArgNil => Ok (inl NilService)
  | ArgNilPtr => Panic (PUser "reflect: call of reflect.Value.Type on zero Value")
  | ArgOther => Ok (inl PointerOnly)
  | ArgStructPtr name fields =>
      Ok (inr ((fun f => (f.1, proxy_fn invoke name f.1)) <$> filter (fun f => f.2 = true) fields))
  end.

(** What lies between a client and a server: the error of the pool and of the
    client's [Write], if any; whether the server's writes fail; and in which
    segments, one for each [Read] at least, the bytes of either side reach the
    other.  [net.Conn] does not promise that a [Write] is read at once. *)
Record network := mkNetwork {
  pool_err : option net_error;
  write_err : option net_error;
  cut : bool;
  uplink : list byte -> list (list byte);
  downlink : list (list byte) -> list (list byte)
}.
(** A client and a server joined by one connection. *)
Definition wire (net : network) (fuel : nat) (s : Server) (frame : list byte) : go (net_error + list (list byte)) :=
  match write_err net with
  | Some err => Ok (inl err)
  | None =>
      match handleConn fuel s (mkConn (uplink net frame) [] (cut net)) with
      | Ok (c, _) => Ok (inr (downlink net (outbox c)))
      | Panic p => Panic p
      end
  end.
Definition remote (net : network) (fuel : nat) (s : Server) : Request -> go (option Resp.Response * option net_error) :=
  Client_Invoke (pool_err net) (wire net fuel s).
(** [Start] of [*Server]. *)
Definition Server_Start (s : Server) : option net_error -> list (net_error + Conn) -> go (list Conn * option net_error) :=
  Start (fun fuel => handleConn fuel s).

(** [NewClient]: the pool makes a connection at once; when it cannot, the client
    is nil ([None]). *)
Definition NewClient (pool_err : option net_error) : option unit :=
  match pool_err with Some _ => None | None => Some () end.
(** [Invoke] on a client that may be nil: it has encoded the request before it
    looks for the pool. *)
Definition client_Invoke (client : option unit) (peer : list byte -> go (net_error + list (list byte))) (req : Request)
  : go (option Resp.Response * option net_error) :=
  match client with
  | Some _ => Client_Invoke None peer req
  | None => match marshal_req req with inl err => Ok (None, Some err) | inr _ => Panic PNilDeref end
  end.
Definition InitClientProxy (service : service_arg) (pool_err : option net_error)
    (peer : list byte -> go (net_error + list (list byte)))
  : go (net_error + list (string * (V -> V -> go (V * option net_error)))) :=
  setFuncField service (client_Invoke (NewClient pool_err) peer).

(** A service that cannot be reached is no error of [InitClientProxy]: the
    functions are installed, and calling one panics. *)
Lemma InitClientProxy_unreachable name fields err peer :
  exists fs, InitClientProxy (ArgStructPtr name fields) (Some err) peer = Ok (inr fs) /\
    (fs.*1 = (filter (fun f => f.2 = true) fields).*1) /\
    forall field f ret arg d bs, (field, f) ∈ fs -> marshal arg = inr d ->
      marshal_req (call_request name field d) = inr bs -> f ret arg = Panic PNilDeref.
Proof.
  eexists. split; [reflexivity|]. split; [by rewrite <-list_fmap_compose|].
  intros field f ret arg d bs Hin Hm Hr. apply list_elem_of_fmap in Hin as (x & [= -> ->] & _).
  unfold proxy_fn. rewrite Hm. cbn. by rewrite Hr.
Qed.
End rpc.

Lemma RegisterService_found {V} (ser : Service (V := V)) (s : Server (V := V)) :
  RegisterService ser s !! Name ser = Some ser.
Proof. unfold RegisterService, Server in *. apply lookup_insert_eq. Qed.

(** ** The connection loop *)
Section serving.
Context {V : Type} (marshal : V -> net_error + list byte)
  (unmarshal : list byte -> V -> V * option net_error)
  (unmarshal_req : list byte -> Request * option net_error).
Abbreviation serve := (serve marshal unmarshal unmarshal_req).
Abbreviation handleConn := (handleConn marshal unmarshal unmarshal_req).
Implicit Types (c : Conn) (s : Server (V := V)).

Lemma handleConn_S fuel s c :
  handleConn (S fuel) s c =
  match ReadMsg c with
  | Ok (c1, inr reqData) =>
      match serve s reqData with
      | Ok (inr respData) =>
          match conn_write respData c1 with
          | Ok (c2, inr _) => handleConn fuel s c2
          | Ok (c2, inl e) => Ok (c2, inl e)
          | Panic p => Panic p
          end
      | Ok (inl e) => Ok (c1, inl e)
      | Panic p => Panic p
      end
  | Ok (c1, inl e) => Ok (c1, inl e)
  | Panic p => Panic p
  end.
Proof.
  cbn [Rpc.handleConn]. rewrite GM_bind_eq.
  destruct (ReadMsg c) as [[c1 [e|d]]|p]; [done| |done].
  rewrite GM_bind_eq. unfold gm_result.
  by destruct (serve s d) as [[e|r]|p].
Qed.

(** One frame answered. *)
Lemma handleConn_step fuel s c m resp tl :
  readable m -> inbox c = push (EncodeMsg m) tl -> broken c = false ->
  serve s m = Ok (inr resp) ->
  handleConn (S fuel) s c = handleConn fuel s (mkConn tl (outbox c ++ [resp]) false).
Proof.
  intros Hm Hc Hb Hs. rewrite handleConn_S, (ReadMsg_push m [] tl) by (rewrite ?app_nil_r; done).
  rewrite Hs. unfold conn_write. cbn [broken set_inbox inbox outbox]. by rewrite Hb.
Qed.

Lemma handleConn_eof fuel s c : inbox c = [] -> handleConn (S fuel) s c = Ok (c, inl EOF).
Proof. intros Hc. by rewrite handleConn_S, ReadMsg_eof. Qed.

Lemma conn_write_inv d c c' u :
  conn_write d c = Ok (c', inr u) -> inbox c' = inbox c.
Proof. unfold conn_write. destruct (broken c); [done|]. by intros [= <- <-]. Qed.

(** The loop stops by itself: each turn consumes input. *)
Lemma handleConn_fuel fuel s c :
  wf_conn c -> unread c < fuel ->
  (forall m, serve s m <> Panic PFuel) ->
  match handleConn fuel s c with
  | Ok (_, inl _) => True
  | Ok (_, inr _) => False
  | Panic p => p <> PFuel
  end.
Proof.
  revert c. induction fuel as [|fuel IH]; intros c Hw Hf Hs; [lia|].
  rewrite handleConn_S. destruct (ReadMsg c) as [[c1 [e|d]]|p] eqn:Hr; [done| |].
  2: { apply ReadMsg_panic in Hr. by subst. }
  apply ReadMsg_unread in Hr as (Hw1 & Hlt & _); [|done].
  destruct (serve s d) as [[e|r]|p] eqn:Hd; [done| |by intros ->; eapply Hs].
  destruct (conn_write r c1) as [[c2 [e|u]]|p] eqn:Hwr; [done| |].
  - apply conn_write_inv in Hwr. unfold wf_conn, unread in *. rewrite <-Hwr in Hw1, Hlt.
    apply IH; (done || lia).
  - unfold conn_write in Hwr. by destruct (broken c1).
Qed.

(** A pipeline of requests in one segment is answered in order. *)
Lemma handleConn_segment fuel s ms resps tl c :
  Forall readable ms -> Forall2 (fun m r => serve s m = Ok (inr r)) ms resps ->
  inbox c = push (segment_of ms) tl -> broken c = false ->
  handleConn (length ms + fuel) s c
  = handleConn fuel s (mkConn tl (outbox c ++ resps) false).
Proof.
  intros Hr Hs. revert c. induction Hs as [|m r ms resps Hm Hs IH]; intros c Hc Hb.
  - cbn in *. destruct c as [i o b]. cbn in *. subst. by rewrite app_nil_r.
  - inversion Hr as [|? ? Hrm Hrs]; subst. cbn [length Nat.add].
    rewrite handleConn_S, (ReadMsg_push m (segment_of ms) tl) by done.
    rewrite Hm. unfold conn_write. cbn [broken set_inbox inbox outbox]. rewrite Hb.
    rewrite IH by done. cbn [outbox]. by rewrite <-app_assoc.
Qed.
End serving.

(** ** Properties of a call *)

(** What [ReadMsg] makes of the segments that arrive. *)
Definition received (segs : list (list byte)) : go (net_error + list byte) :=
  match ReadMsg (mkConn segs [] false) with Ok (_, r) => Ok r | Panic p => Panic p end.
(** A frame of [m] is read whole, and nothing is left: its header came in one
    [Read] and its payload in the next. *)
Definition arrives (segs : list (list byte)) (m : list byte) : Prop :=
  forall b, ReadMsg (mkConn segs [] b) = Ok (mkConn [] [] b, inr m).
Lemma arrives_received segs m : arrives segs m -> received segs = Ok (inr m).
Proof. intros Ha. unfold received. by rewrite Ha. Qed.
(** In one segment, or the header in a segment of its own. *)
Lemma arrives_one m : readable m -> arrives [EncodeMsg m] m.
Proof.
  intros Hm b. rewrite (ReadMsg_push m [] []); [done|done|]. cbn [inbox]. rewrite app_nil_r.
  unfold EncodeMsg. by rewrite frame_eq.
Qed.
Lemma header_read n tl o b :
  conn_read numOfLengthByte (mkConn (be_put 8 n :: tl) o b) = Ok (mkConn tl o b, inr (be_put 8 n)).
Proof. by rewrite (conn_read_push numOfLengthByte (be_put 8 n) [] tl) by (by rewrite ?length_be_put, ?app_nil_r). Qed.
Lemma arrives_two m : readable m -> m <> [] -> arrives [be_put 8 (Z.of_nat (length m)); m] m.
Proof.
  intros Hm Hne b. unfold ReadMsg. rewrite GM_bind_eq, header_read, be_get_length by done.
  rewrite GM_bind_eq. unfold gm_lift, makeslice. rewrite decide_True by done. rewrite Nat2Z.id.
  rewrite (conn_read_push _ m [] []); [done|done|]. cbn [inbox]. rewrite app_nil_r. by destruct m.
Qed.
(** A payload in two segments: the second one is not waited for. *)
Lemma received_split x y :
  x <> [] -> readable (x ++ y) ->
  received [be_put 8 (Z.of_nat (length (x ++ y))); x; y] = Ok (inr (x ++ zeros (length y))).
Proof.
  intros Hx Hr. unfold received, ReadMsg. rewrite GM_bind_eq, header_read, be_get_length by done.
  rewrite GM_bind_eq. unfold gm_lift, makeslice. rewrite decide_True by done. rewrite Nat2Z.id.
  unfold conn_read. cbn [inbox]. destruct (length (x ++ y)) as [|n] eqn:Hn.
  { rewrite length_app in Hn. destruct x; cbn in Hn; [done|lia]. }
  rewrite <-Hn, take_ge by (rewrite length_app; lia). do 4 f_equal. rewrite length_app. lia.
Qed.

Section calls.
Context {V : Type} (marshal : V -> net_error + list byte)
  (unmarshal : list byte -> V -> V * option net_error)
  (marshal_req : Request -> net_error + list byte)
  (unmarshal_req : list byte -> Request * option net_error).
Abbreviation serve := (serve marshal unmarshal unmarshal_req).
Abbreviation remote := (remote marshal unmarshal marshal_req unmarshal_req).

(** A call whose request arrives: the server serves it, and the client reads what
    comes back. *)
Lemma remote_eq net fuel s req bs :
  marshal_req req = inr bs -> pool_err net = None -> write_err net = None ->
  arrives (uplink net (EncodeMsg bs)) bs -> 2 <= fuel -> downlink net [] = [] ->
  remote net fuel s req =
  match serve s bs with
  | Panic p => Panic p
  | Ok (inl _) => Ok (None, Some EOF)
  | Ok (inr resp) =>
      if cut net then Ok (None, Some EOF)
      else
        r ← received (downlink net [resp]);
        match r with
        | inl err => Ok (None, Some err)
        | inr data => Ok (Some (data_response data), None)
        end
  end.
Proof.
  intros Hm Hp Hw Ha Hf Hd. destruct fuel as [|[|fuel]]; [lia..|].
  unfold Rpc.remote, Client_Invoke, Client_Send, wire. rewrite Hm, Hp, Hw, handleConn_S, Ha.
  destruct (serve s bs) as [[e|resp]|p]; [|destruct (cut net) eqn:Hc|done].
  - cbn [outbox]. by rewrite Hd, go_bind_Ok, ReadMsg_eof.
  - cbn [outbox conn_write broken]. by rewrite Hd, go_bind_Ok, ReadMsg_eof.
  - unfold conn_write. cbn [broken inbox outbox app]. rewrite handleConn_eof by done. cbn [outbox].
    rewrite go_bind_Ok. unfold received. by destruct (ReadMsg _) as [[c [e|d]]|p].
Qed.

Lemma serve_ok s req bs ser m inReq res data :
  unmarshal_req bs = (req, None) ->
  s !! ServiceName req = Some ser -> methods ser !! MethodName req = Some m ->
  unmarshal (contents (Data req)) (m_in m) = (inReq, None) ->
  m_call m inReq = Ok (res, None) -> marshal res = inr data ->
  serve s bs = Ok (inr (EncodeMsg data)).
Proof.
  intros Hu Hs Hm Hd Hc Hr. unfold Rpc.serve, Server_Invoke, reflectStub_Invoke.
  rewrite Hu, Hs, Hm. cbn. rewrite Hd. cbn. rewrite Hc. cbn. by rewrite Hr.
Qed.

Lemma serve_app_error s req bs ser m inReq res e :
  unmarshal_req bs = (req, None) ->
  s !! ServiceName req = Some ser -> methods ser !! MethodName req = Some m ->
  unmarshal (contents (Data req)) (m_in m) = (inReq, None) ->
  m_call m inReq = Ok (res, Some e) ->
  serve s bs = Ok (inl e).
Proof.
  intros Hu Hs Hm Hd Hc. unfold Rpc.serve, Server_Invoke, reflectStub_Invoke.
  rewrite Hu, Hs, Hm. cbn. rewrite Hd. cbn. by rewrite Hc.
Qed.
End calls.

(** The JSON of one call: the encodings round-trip on the values it moves. *)
Definition json_ok {V} (marshal : V -> net_error + list byte)
    (unmarshal : list byte -> V -> V * option net_error)
    (marshal_req : Request -> net_error + list byte)
    (unmarshal_req : list byte -> Request * option net_error)
    (service method : string) (arg zero : V) (bs : list byte) : Prop :=
  exists d, marshal arg = inr d /\ unmarshal d zero = (arg, None)
    /\ marshal_req (call_request service method d) = inr bs
    /\ unmarshal_req bs = (call_request service method d, None).
(** A network over which the request [bs] goes through: the pool gives a
    connection, writes succeed, the request arrives, and nothing comes back when
    nothing is sent. *)
Record delivers (net : network) (bs : list byte) : Prop := {
  del_pool : pool_err net = None;
  del_write : write_err net = None;
  del_request : arrives (uplink net (EncodeMsg bs)) bs;
  del_nothing : downlink net [] = []
}.

(** C5. End-to-end call: a proxy field of the client, called on [arg], returns
    what the method of the registered service returns on [arg], through
    [Client.Invoke], the framing, the server's [handleConn], its service table
    and reflect stub.  It needs that the JSON of the call round-trips, that the
    pool gives a connection and no [Write] fails, and that the request and the
    answer each arrive with the header in one [Read] and the payload in the next,
    which a TCP connection does not promise.  When the payload of the answer
    comes in two segments instead, the client decodes its first part, filled up
    with zero bytes. *)
Theorem proxy_fn_remote {V} marshal unmarshal marshal_req unmarshal_req (net : network)
  (fuel : nat) (s : Server (V := V)) (ser : Service (V := V)) (m : Method (V := V))
  (method : string) (arg res ret : V) (bs data : list byte)
  (Hfuel : 2 <= fuel)
  (Hmethod : methods ser !! method = Some m)
  (Hjson : json_ok marshal unmarshal marshal_req unmarshal_req (Name ser) method arg (m_in m) bs)
  (Hcall : m_call m arg = Ok (res, None))
  (Hres : marshal res = inr data)
  (Hnet : delivers net bs) (Hcut : Rpc.cut net = false) :
  let result := proxy_fn marshal unmarshal
    (remote marshal unmarshal marshal_req unmarshal_req net fuel (RegisterService ser s))
    (Name ser) method ret arg in
  (arrives (downlink net [EncodeMsg data]) data -> unmarshal data ret = (res, None) -> result = Ok (res, None)) /\
  (forall x y, data = x ++ y -> x <> [] -> readable data ->
     downlink net [EncodeMsg data] = [be_put 8 (Z.of_nat (length data)); x; y] ->
     result = Ok (unmarshal (x ++ zeros (length y)) ret)).
Proof.
  intros result. destruct Hjson as (d & Ha & Hd & Hm & Hu), Hnet as [Hp Hw Har Hn].
  assert (result = r ← received (downlink net [EncodeMsg data]);
    match r with inl _ => Panic PNilDeref | inr data => Ok (unmarshal data ret) end) as ->.
  { unfold result, proxy_fn. rewrite Ha. rewrite (remote_eq _ _ _ _ net fuel _ _ bs) by done.
    rewrite (serve_ok _ _ _ (RegisterService ser s) _ bs ser m arg res data Hu
      (RegisterService_found ser s) Hmethod Hd Hcall Hres), Hcut.
    by destruct (received _) as [[e|x]|p]. }
  split.
  - intros Hr%arrives_received Hback. rewrite Hr. cbn. by rewrite Hback.
  - intros x y -> Hx Hr ->. by rewrite received_split.
Qed.

(** An error returned by the remote method crashes the client: the server
    drops the connection, [Client.Invoke] returns a nil response with an error
    that the proxy overwrites, and the proxy dereferences the nil response. *)
Lemma proxy_fn_remote_error {V} marshal unmarshal marshal_req unmarshal_req (net : network)
  (fuel : nat) (s : Server (V := V)) (ser : Service (V := V)) (m : Method (V := V))
  (method : string) (arg res ret : V) (bs : list byte) (e : net_error)
  (Hfuel : 2 <= fuel)
  (Hmethod : methods ser !! method = Some m)
  (Hjson : json_ok marshal unmarshal marshal_req unmarshal_req (Name ser) method arg (m_in m) bs)
  (Hcall : m_call m arg = Ok (res, Some e)) (Hnet : delivers net bs) :
  proxy_fn marshal unmarshal
    (remote marshal unmarshal marshal_req unmarshal_req net fuel (RegisterService ser s))
    (Name ser) method ret arg = Panic PNilDeref.
Proof.
  destruct Hjson as (d & Ha & Hd & Hm & Hu), Hnet as [Hp Hw Har Hn].
  unfold proxy_fn. rewrite Ha. rewrite (remote_eq _ _ _ _ net fuel _ _ bs) by done.
  by rewrite (serve_app_error _ _ _ (RegisterService ser s) _ bs ser m arg res e Hu
    (RegisterService_found ser s) Hmethod Hd Hcall).
Qed.

(** ** Where the errors of a call go *)
Section errors.
Context {V : Type} (marshal : V -> net_error + list byte)
  (unmarshal : list byte -> V -> V * option net_error)
  (marshal_req : Request -> net_error + list byte)
  (unmarshal_req : list byte -> Request * option net_error).

(** What a server makes of the bytes of a request: an answer, or [None], the end
    of the connection. *)
Definition server_answer (s : Server (V := V)) (bs : list byte) : go (option (list byte)) :=
  match unmarshal_req bs with
  | (_, Some _) => Ok None
  | (req, None) =>
      match s !! ServiceName req with
      | None => Ok None
      | Some ser =>
          match methods ser !! MethodName req with
          | None => Panic (PUser "reflect: call of reflect.Value.Type on zero Value")
          | Some m =>
              match m_call m (unmarshal (contents (Data req)) (m_in m)).1 with
              | Panic p => Panic p
              | Ok (_, Some _) => Ok None
              | Ok (res, None) => Ok (match marshal res with inl _ => None | inr data => Some data end)
              end
          end
      end
  end.
(** What the caller of a proxy gets. *)
Definition call_outcome (net : network) (s : Server (V := V)) (service method : string) (ret arg : V) : go (V * option net_error) :=
  match marshal arg with
  | inl err => Ok (ret, Some err)
  | inr d =>
      match marshal_req (call_request service method d) with
      | inl _ => Panic PNilDeref
      | inr bs =>
          match pool_err net, write_err net, server_answer s bs with
          | None, None, Panic p => Panic p
          | None, None, Ok (Some data) =>
              if cut net then Panic PNilDeref
              else match received (downlink net [EncodeMsg data]) with
                   | Ok (inr data') => Ok (unmarshal data' ret)
                   | Ok (inl _) => Panic PNilDeref
                   | Panic p => Panic p
                   end
          | _, _, _ => Panic PNilDeref
          end
      end
  end.

Lemma serve_answer s bs :
  match server_answer s bs with
  | Panic p => serve marshal unmarshal unmarshal_req s bs = Panic p
  | Ok None => exists e, serve marshal unmarshal unmarshal_req s bs = Ok (inl e)
  | Ok (Some data) => serve marshal unmarshal unmarshal_req s bs = Ok (inr (EncodeMsg data))
  end.
Proof.
  unfold server_answer, serve, Server_Invoke, reflectStub_Invoke.
  destruct (unmarshal_req bs) as [req [e|]]; [by eexists|].
  destruct (s !! ServiceName req) as [ser|]; [|by eexists].
  destruct (methods ser !! MethodName req) as [m|]; [|done]. cbn.
  destruct (m_call m _) as [[res [e|]]|p]; [by eexists| |done]. cbn.
  destruct (marshal res) as [e|data]; [by eexists|done].
Qed.

(** C6. What the caller of a proxy gets, for any service, method and argument, over
    any network that carries the request whole if it carries it at all: the error
    of encoding the argument or of decoding what came back, and no other.  A
    request that cannot be encoded, a pool without a connection, a [Write] that
    fails on either side, a request that the server cannot decode, an unknown
    service, an error of the method, an answer that cannot be encoded and an
    answer that does not arrive all end in a panic of the client, which
    dereferences the nil response; an unknown method, or a method that panics,
    ends the server.  An answer that arrives whole is what the client decodes;
    one whose payload is split over two segments is decoded from its first part
    and zero bytes, without an error of the connection. *)
Theorem proxy_fn_errors net fuel s service method ret arg : 2 <= fuel -> downlink net [] = [] ->
  (forall d bs, marshal arg = inr d -> marshal_req (call_request service method d) = inr bs ->
     pool_err net = None -> write_err net = None -> arrives (uplink net (EncodeMsg bs)) bs) ->
  let result := proxy_fn marshal unmarshal
    (remote marshal unmarshal marshal_req unmarshal_req net fuel s) service method ret arg in
  result = call_outcome net s service method ret arg /\
  (forall v err, result = Ok (v, Some err) ->
     (v = ret /\ marshal arg = inl err) \/
     exists d bs data data', marshal arg = inr d /\ marshal_req (call_request service method d) = inr bs /\
       server_answer s bs = Ok (Some data) /\ received (downlink net [EncodeMsg data]) = Ok (inr data') /\
       unmarshal data' ret = (v, Some err)) /\
  (forall data, arrives (downlink net [EncodeMsg data]) data -> received (downlink net [EncodeMsg data]) = Ok (inr data)) /\
  (forall x y, x <> [] -> readable (x ++ y) ->
     received [be_put 8 (Z.of_nat (length (x ++ y))); x; y] = Ok (inr (x ++ zeros (length y)))).
Proof.
  intros Hf Hn Hr result.
  assert (result = call_outcome net s service method ret arg) as Heq.
  { unfold result, proxy_fn, call_outcome. destruct (marshal arg) as [err|d] eqn:Ha; [done|].
    destruct (marshal_req (call_request service method d)) as [err|bs] eqn:Hm.
    { unfold remote, Client_Invoke. by rewrite Hm. }
    specialize (Hr d bs eq_refl Hm).
    destruct (pool_err net) eqn:Hp; [by unfold remote, Client_Invoke, Client_Send; rewrite Hm, Hp|].
    destruct (write_err net) eqn:Hw; [by unfold remote, Client_Invoke, Client_Send, wire; rewrite Hm, Hp, Hw|].
    specialize (Hr eq_refl eq_refl).
    rewrite (remote_eq _ _ _ _ net fuel s _ bs) by done. pose proof (serve_answer s bs) as Hs.
    destruct (server_answer s bs) as [[data|]|p]; [rewrite Hs|by destruct Hs as [e ->]|by rewrite Hs].
    destruct (Rpc.cut net); [done|]. by destruct (received _) as [[e|x]|p]. }
  split; [exact Heq|]. split; [|split; [intros data; apply arrives_received|intros x y; apply received_split]].
  rewrite Heq. unfold call_outcome. intros v err.
  destruct (marshal arg) as [e|d]; [intros [= <- <-]; by left|].
  destruct (marshal_req _) as [|bs] eqn:Hm; [done|].
  destruct (pool_err net), (write_err net); try done.
  destruct (server_answer s bs) as [[data|]|p] eqn:Hs; try done. destruct (Rpc.cut net); [done|].
  destruct (received _) as [[e|data']|p] eqn:Hd; try done.
  intros [= Hu]. right. by exists d, bs, data, data'.
Qed.
End errors.

(** The connection loop of the server answers a pipeline of requests in
    order, one frame each, until the peer closes; whatever arrives, it stops
    after at most one turn per byte, with an error or a panic. *)
Lemma handleConn_pipeline {V} marshal unmarshal unmarshal_req
  (fuel : nat) (s : Server (V := V)) (ms resps : list (list byte)) (out : list (list byte))
  (Hms : Forall readable ms) (Hne : ms <> [])
  (Hserve : Forall2 (fun m r => serve marshal unmarshal unmarshal_req s m = Ok (inr r)) ms resps) :
  handleConn marshal unmarshal unmarshal_req (length ms + S fuel) s
    (mkConn [segment_of ms] out false)
  = Ok (mkConn [] (out ++ resps) false, inl EOF)
  /\ (forall c, wf_conn c -> unread c < fuel ->
       (forall m, serve marshal unmarshal unmarshal_req s m <> Panic PFuel) ->
       match handleConn marshal unmarshal unmarshal_req fuel s c with
       | Ok (_, inl _) => True | Ok (_, inr _) => False | Panic p => p <> PFuel end).
Proof.
  split.
  - rewrite (handleConn_segment _ _ _ _ _ ms resps []); try done.
    destruct ms as [|m ms]; [done|]. cbn [inbox]. symmetry. apply push_nonempty.
    unfold segment_of. cbn. apply EncodeMsg_nonempty.
  - intros c. apply handleConn_fuel.
Qed.

(** ** The service of [user_service.go] *)

Section user_service.
(** Requests and responses of [GetById]; the field of the response is not
    exported. *)
Record GetByIdResp := mkGetByIdResp { resp_data : string }.
Inductive user_value := GetByIdReq (Id : Z) | Resp_ (r : GetByIdResp).
Definition UserServiceServer_GetById (req : user_value) : go (user_value * option net_error) :=
  Ok (Resp_ (mkGetByIdResp "hello rpc"), None).
Definition GetById : Method (V := user_value) := mkMethod (GetByIdReq 0) UserServiceServer_GetById.
Definition UserServiceServer : Service (V := user_value) := mkService "UserService" {[ "GetById" := GetById ]}.

(** [encoding/json] neither writes nor reads unexported fields. *)
Context (marshal : user_value -> net_error + list byte)
  (unmarshal : list byte -> user_value -> user_value * option net_error)
  (marshal_req : Request -> net_error + list byte)
  (unmarshal_req : list byte -> Request * option net_error).
Context (Hmarshal : forall r, marshal (Resp_ r) = inr (bytes_of "{}")).
Context (Hunmarshal : forall v, unmarshal (bytes_of "{}") v = (v, None)).

(** So the answer is lost on the way: the client gets an empty response. *)
Lemma GetById_lost net fuel s (arg : Z) bs :
  2 <= fuel -> delivers net bs -> Rpc.cut net = false ->
  arrives (downlink net [EncodeMsg (bytes_of "{}")]) (bytes_of "{}") ->
  json_ok marshal unmarshal marshal_req unmarshal_req "UserService" "GetById" (GetByIdReq arg) (GetByIdReq 0) bs ->
  proxy_fn marshal unmarshal
    (remote marshal unmarshal marshal_req unmarshal_req net fuel (RegisterService UserServiceServer s))
    "UserService" "GetById" (Resp_ (mkGetByIdResp "")) (GetByIdReq arg)
  = Ok (Resp_ (mkGetByIdResp ""), None).
Proof.
  intros Hf [Hp Hw Har Hn] Hcut Hback (d & Ha & Hd & Hm & Hu). unfold proxy_fn. rewrite Ha.
  rewrite (remote_eq _ _ _ _ net fuel _ _ bs) by done.
  rewrite (serve_ok marshal unmarshal unmarshal_req (RegisterService UserServiceServer s) _ bs UserServiceServer GetById _ _ _ Hu
    (RegisterService_found UserServiceServer s) eq_refl Hd eq_refl (Hmarshal _)), Hcut.
  rewrite (arrives_received _ _ Hback). cbn. by rewrite Hunmarshal.
Qed.
End user_service.

(** ** Witnesses: an identity JSON on byte strings, a service that echoes *)
Module Witness.
Definition V : Type := list byte.
Definition marshal (v : V) : net_error + list byte := inr v.
Definition unmarshal (d : list byte) (zero : V) : V * option net_error := (d, None).
Definition encode (r : Request) : list byte :=
  bytes_of (ServiceName r) ++ [splitter] ++ bytes_of (MethodName r) ++ [splitter] ++ contents (Data r).
Definition marshal_req (r : Request) : net_error + list byte := inr (encode r).
Definition unmarshal_req (bs : list byte) : Request * option net_error :=
  match takeName bs with
  | Ok (service, rest) =>
      match takeName rest with
      | Ok (method, data) => (call_request service method data, None)
      | Panic _ => (call_request "" "" [], Some JsonError)
      end
  | Panic _ => (call_request "" "" [], Some JsonError)
  end.
Definition get_by_id : Method (V := V) := mkMethod [] (fun v => Ok (v, None)).
Definition fail : Method (V := V) := mkMethod [] (fun v => Ok (v, Some (AppError "no"))).
Definition echo : Service (V := V) :=
  mkService "UserService" {[ "GetById" := get_by_id; "Fail" := fail ]}.
Definition arg : V := bytes_of "123".
Definition wire (method : string) : list byte :=
  bytes_of "UserService" ++ [splitter] ++ bytes_of method ++ [splitter] ++ arg.

Lemma json_ok_echo method :
  splitter ∉ bytes_of method ->
  json_ok marshal unmarshal marshal_req unmarshal_req "UserService" method arg [] (wire method).
Proof.
  intros Hm. exists arg. split_and!; try done. unfold unmarshal_req, wire. cbn [app].
  rewrite takeName_image by go_decide. by rewrite takeName_image.
Qed.
(** Each write arrives as one segment; the answer's payload comes in two; no
    connection. *)
Definition net : network := mkNetwork None None false (fun f => [f]) id.
Definition cut_frame (k : nat) (f : list byte) : list (list byte) := [take 8 f; drop 8 (take (8 + k) f); drop (8 + k) f].
Definition split_net : network := mkNetwork None None false (fun f => [f]) (fun l => l ≫= cut_frame 1).
Definition no_net : network := mkNetwork (Some DialError) None false (fun f => [f]) id.
Lemma net_delivers (n : network) bs : n = net \/ n = split_net -> readable bs -> delivers n bs.
Proof. intros Hn Hr. destruct Hn as [->| ->]; (split; [done|done| |done]); exact (arrives_one bs Hr). Qed.
Lemma marshaled v d : marshal v = inr d -> d = v.
Proof. intros Hm. unfold marshal in Hm. congruence. Qed.
Lemma encoded r bs : marshal_req r = inr bs -> bs = encode r.
Proof. intros Hm. unfold marshal_req in Hm. congruence. Qed.
Lemma short_readable (bs : list byte) : length bs < 1000 -> readable bs.
Proof. unfold readable, max_alloc. lia. Qed.
End Witness.

Lemma proxy_fn_remote_witness :
  let call net := proxy_fn Witness.marshal Witness.unmarshal
    (remote Witness.marshal Witness.unmarshal Witness.marshal_req Witness.unmarshal_req net 2
       (RegisterService Witness.echo NewServer)) "UserService" "GetById" [] Witness.arg in
  call Witness.net = Ok (bytes_of "123", None) /\
  call Witness.split_net = Ok (bytes_of "1" ++ zeros 2, None).
Proof.
  assert (readable (Witness.wire "GetById")) as Hr by (apply Witness.short_readable; vm_compute; lia).
  split.
  - refine (proj1 (proxy_fn_remote _ _ _ _ Witness.net 2 NewServer Witness.echo Witness.get_by_id "GetById" _ _ [] _
      Witness.arg _ _ (Witness.json_ok_echo _ _) _ _ (Witness.net_delivers _ _ _ Hr) _) _ _); try reflexivity.
    + go_decide.
    + by left.
    + apply (arrives_one Witness.arg). apply Witness.short_readable. vm_compute. lia.
  - refine (proj2 (proxy_fn_remote _ _ _ _ Witness.split_net 2 NewServer Witness.echo Witness.get_by_id "GetById" _ _ [] _
      Witness.arg _ _ (Witness.json_ok_echo _ _) _ _ (Witness.net_delivers _ _ _ Hr) _)
      (bytes_of "1") (bytes_of "23") _ _ _ _); try reflexivity.
    + go_decide.
    + by right.
    + discriminate.
    + apply Witness.short_readable. vm_compute. lia.
Defined.

Lemma proxy_fn_remote_error_witness :
  proxy_fn Witness.marshal Witness.unmarshal
    (remote Witness.marshal Witness.unmarshal Witness.marshal_req Witness.unmarshal_req Witness.net 2
       (RegisterService Witness.echo NewServer))
    "UserService" "Fail" [] Witness.arg = Panic PNilDeref.
Proof.
  refine (proxy_fn_remote_error _ _ _ _ Witness.net 2 NewServer Witness.echo Witness.fail "Fail" _ _ [] _ _ _ _
    (Witness.json_ok_echo _ _) _ (Witness.net_delivers _ _ _ _)); try reflexivity.
  - go_decide.
  - by left.
  - apply Witness.short_readable. vm_compute. lia.
Defined.

Lemma handleConn_pipeline_witness :
  handleConn Witness.marshal Witness.unmarshal Witness.unmarshal_req 3
    (RegisterService Witness.echo NewServer)
    (mkConn [segment_of [Witness.wire "GetById"; Witness.wire "GetById"]] [] false)
  = Ok (mkConn [] [EncodeMsg Witness.arg; EncodeMsg Witness.arg] false, inl EOF).
Proof.
  refine (proj1 (handleConn_pipeline Witness.marshal Witness.unmarshal Witness.unmarshal_req 0
    (RegisterService Witness.echo NewServer) [Witness.wire "GetById"; Witness.wire "GetById"]
    [EncodeMsg Witness.arg; EncodeMsg Witness.arg] [] _ _ _)).
  - repeat constructor; unfold readable, max_alloc; cbn; lia.
  - done.
  - repeat constructor.
Defined.

(** An unknown service panics the client, and so does a pool without connections;
    an unknown method panics the server. *)
Lemma proxy_fn_errors_witness :
  let call net service method := proxy_fn Witness.marshal Witness.unmarshal
    (remote Witness.marshal Witness.unmarshal Witness.marshal_req Witness.unmarshal_req net 2
       (RegisterService Witness.echo NewServer)) service method [] Witness.arg in
  call Witness.net "OrderService" "GetById" = Panic PNilDeref /\
  call Witness.no_net "UserService" "GetById" = Panic PNilDeref /\
  call Witness.net "UserService" "Delete" = Panic (PUser "reflect: call of reflect.Value.Type on zero Value") /\
  call Witness.split_net "UserService" "GetById" = Ok (bytes_of "1" ++ zeros 2, None).
Proof.
  assert (forall (n : network) service method d bs, Witness.marshal Witness.arg = inr d ->
    Witness.marshal_req (call_request service method d) = inr bs -> length (Witness.encode (call_request service method Witness.arg)) < 1000 ->
    uplink n (EncodeMsg bs) = [EncodeMsg bs] -> arrives (uplink n (EncodeMsg bs)) bs) as K.
  { intros n service method d bs Hd Hm Hl ->. apply arrives_one. apply Witness.encoded in Hm as ->. apply Witness.marshaled in Hd as ->.
    by apply Witness.short_readable. }
  split; [|split; [|split]].
  - refine (proj1 (proxy_fn_errors _ _ _ _ Witness.net 2 _ "OrderService" "GetById" _ _ _ _ _)); [lia|reflexivity|].
    intros d bs Hd Hm _ _. apply (K _ _ _ _ _ Hd Hm); [vm_compute; lia|reflexivity].
  - refine (proj1 (proxy_fn_errors _ _ _ _ Witness.no_net 2 _ "UserService" "GetById" _ _ _ _ _)); [lia|reflexivity|].
    intros d bs Hd Hm Hp. discriminate Hp.
  - refine (proj1 (proxy_fn_errors _ _ _ _ Witness.net 2 _ "UserService" "Delete" _ _ _ _ _)); [lia|reflexivity|].
    intros d bs Hd Hm _ _. apply (K _ _ _ _ _ Hd Hm); [vm_compute; lia|reflexivity].
  - refine (proj1 (proxy_fn_errors _ _ _ _ Witness.split_net 2 _ "UserService" "GetById" _ _ _ _ _)); [lia|reflexivity|].
    intros d bs Hd Hm _ _. apply (K _ _ _ _ _ Hd Hm); [vm_compute; lia|reflexivity].
Defined.
