(* ===== verification/RpcPool.v ===== *)
(** The RPC client and its connections: [Client] of [micro/rpc/client.go] over the
    pool [github.com/silenceper/pool].

    [Send] takes a connection from the pool, and closes it when it is done; it
    does not give it back to the pool, which goes on counting it.
    [client_exhausts] shows what that makes of a client: it has as many calls in
    it as the pool has connections. *)
From S2P Require Import Prelude Message Tcp Rpc.

(** ** The pool *)

(** [pool.Config], less its functions. *)
Record pool_config := mkPoolConfig {
  InitialCap : nat; MaxCap : nat; MaxIdle : nat; IdleTimeout : Z }.
(** What [Get] does: it gives a connection, fails, or blocks until a connection
    is given back. *)
Inductive got := GotConn (c : nat) | GotErr (err : net_error) | GotWait.
(** [NewChannelPool] and [Get]; the state includes what the factory will do. *)
Class ConnPool (P : Type) := {
  NewChannelPool : pool_config -> net_error + P;
  pool_Get : P -> P * got
}.
(** The pool counts the connections that it has lent, those that were neither put
    back nor closed through it; it lends one unless there are [MaxCap] of them,
    and then blocks ([micro/微服务.md] describes it). *)
Class ConnPoolLaws (P : Type) {HP : ConnPool P} := {
  lent : P -> gset nat;
  capacity : P -> nat;
  lent_new cfg p : NewChannelPool cfg = inr p -> lent p = ∅ /\ capacity p = MaxCap cfg;
  lent_conn p p' c : pool_Get p = (p', GotConn c) ->
    c ∉ lent p /\ lent p' = {[c]} ∪ lent p /\ capacity p' = capacity p /\ size (lent p) < capacity p;
  lent_same p p' g : pool_Get p = (p', g) -> (forall c, g <> GotConn c) ->
    lent p' = lent p /\ capacity p' = capacity p;
  lent_wait p : (pool_Get p).2 = GotWait <-> capacity p <= size (lent p)
}.

Lemma list_to_set_snoc (l : list nat) c : list_to_set (l ++ [c]) = {[c]} ∪ (list_to_set l : gset nat).
Proof. rewrite list_to_set_app_L, union_comm_L. cbn. by rewrite union_empty_r_L. Qed.
Lemma NoDup_snoc_fresh (l : list nat) c : NoDup l -> c ∉ (list_to_set l : gset nat) -> NoDup (l ++ [c]).
Proof. rewrite elem_of_list_to_set. intros Hl Hc. apply NoDup_app. split; [done|]. split; [|apply NoDup_singleton]. by intros x Hx ->%list_elem_of_singleton. Qed.

Section client.
Context {P : Type} {HP : ConnPool P} (marshal_req : Request -> net_error + list byte).

(** ** Calls *)

(** A call of [Client.Invoke] by some goroutine: blocked in [Get], with its
    connection, or over, with the connection it had and its result. *)
Inductive call :=
  | Waiting (req : Request)
  | Using (c : nat) (req : Request)
  | Ended (c : option nat) (x : go (option Resp.Response * option net_error)).

(** A client with the calls made so far and the connections it has not closed. *)
Record client := mkClient { cl_pool : P; cl_calls : list call; cl_open : gset nat }.
(** [NewClient]: nil when the pool cannot be made. *)
Definition client_config : pool_config := mkPoolConfig 1 30 10 60000000000.
Definition NewPooledClient : option client :=
  match NewChannelPool client_config with
  | inl _ => None
  | inr p => Some (mkClient p [] ∅)
  end.

(** [Invoke] up to the end of [pool.Get]. *)
Definition begin_call (req : Request) (p : P) : P * call :=
  match marshal_req req with
  | inl err => (p, Ended None (Ok (None, Some err)))
  | inr _ =>
      match pool_Get p with
      | (p, GotConn c) => (p, Using c req)
      | (p, GotErr err) => (p, Ended None (Ok (None, Some err)))
      | (p, GotWait) => (p, Waiting req)
      end
  end.
(** The rest of it, when the connection gives [x]; the deferred call closes the
    connection, also when the answer makes [ReadMsg] panic. *)
Definition end_call (c : nat) (req : Request) (x : net_error + list (list byte)) : call :=
  Ended (Some c) (Client_Invoke marshal_req None (fun _ => Ok x) req).

Inductive client_event :=
  | Begin (req : Request)
  | Exchange (i : nat) (x : net_error + list (list byte)).
Definition opened (k : call) : gset nat := match k with Using c _ => {[c]} | _ => ∅ end.
Definition client_step (e : client_event) (w : client) : option client :=
  match e with
  | Begin req =>
      let '(p, k) := begin_call req (cl_pool w) in
      Some (mkClient p (cl_calls w ++ [k]) (opened k ∪ cl_open w))
  | Exchange i x =>
      match cl_calls w !! i with
      | Some (Using c req) =>
          Some (mkClient (cl_pool w) (<[i := end_call c req x]> (cl_calls w)) (cl_open w ∖ {[c]}))
      | _ => None
      end
  end.
Fixpoint client_run (evs : list client_event) (w : client) : option client :=
  match evs with [] => Some w | e :: evs' => w' ← client_step e w; client_run evs' w' end.

(** ** Every call keeps a connection of the pool *)

Definition conn_of (k : call) : option nat :=
  match k with Waiting _ => None | Using c _ => Some c | Ended c _ => c end.
(** The connections that the calls have had. *)
Definition conns (w : client) : list nat := omap conn_of (cl_calls w).

Context {HL : ConnPoolLaws P}.
Record client_ok (n : nat) (w : client) : Prop := {
  ok_lent : lent (cl_pool w) = list_to_set (conns w);
  ok_nodup : NoDup (conns w);
  ok_size : length (conns w) <= n;
  ok_cap : capacity (cl_pool w) = n;
  ok_open : forall c, c ∈ cl_open w <-> exists i req, cl_calls w !! i = Some (Using c req)
}.
Lemma ok_lent_size n w : client_ok n w -> size (lent (cl_pool w)) = length (conns w).
Proof. intros [Hl Hn _ _ _]. rewrite Hl. by apply size_list_to_set. Qed.

Lemma begin_cases req p p' k : begin_call req p = (p', k) ->
  (exists c, pool_Get p = (p', GotConn c) /\ k = Using c req) \/
  (conn_of k = None /\ opened k = ∅ /\ (forall c r, k <> Using c r) /\ lent p' = lent p /\ capacity p' = capacity p).
Proof.
  unfold begin_call. destruct (marshal_req req) as [err|d]; [intros [= <- <-]; by right|].
  destruct (pool_Get p) as [q [c|err|]] eqn:Hg; intros [= <- <-]; [left; eauto|right..];
    destruct (lent_same _ _ _ Hg) as [Hl Hc]; done.
Qed.
Lemma omap_insert_same {A B} (f : A -> option B) (i : nat) x y (l : list A) :
  l !! i = Some x -> f y = f x -> omap f (<[i := y]> l) = omap f l.
Proof.
  revert i. induction l as [|z l IH]; intros [|i] Hl Hf; try done; cbn in *.
  - injection Hl as ->. by rewrite Hf.
  - by rewrite IH.
Qed.
Lemma conns_exchange i c req x w p o : cl_calls w !! i = Some (Using c req) ->
  conns (mkClient p (<[i := end_call c req x]> (cl_calls w)) o) = conns w.
Proof. intros Hi. unfold conns. cbn [cl_calls]. by eapply omap_insert_same. Qed.
Lemma conns_snoc w p k o : conns (mkClient p (cl_calls w ++ [k]) o) = conns w ++ option_list (conn_of k).
Proof. unfold conns. cbn [cl_calls]. rewrite omap_app. cbn. by destruct (conn_of k). Qed.

Lemma new_client_ok w : NewPooledClient = Some w -> client_ok (MaxCap client_config) w.
Proof.
  unfold NewPooledClient. destruct (NewChannelPool client_config) as [err|p] eqn:Hp; [done|]. intros [= <-].
  destruct (lent_new _ _ Hp) as [Hl Hc]. split; cbn; [done|constructor|lia|done|].
  intros c. split; [by intros ?%elem_of_empty|]. by intros (i & req & ?).
Qed.
Lemma begin_call_ok n req w p k : begin_call req (cl_pool w) = (p, k) -> client_ok n w ->
  client_ok n (mkClient p (cl_calls w ++ [k]) (opened k ∪ cl_open w)).
Proof.
  intros Hb Hok. pose proof (ok_lent_size _ _ Hok) as Hs. destruct Hok as [Hl Hn Hz Hc Ho].
  destruct (begin_cases _ _ _ _ Hb) as [(c & Hg & ->)|(Hk & Hop & Hu & Hl' & Hc')].
  - destruct (lent_conn _ _ _ Hg) as (Hni & Hl' & Hc' & Hlt). rewrite Hl in Hni.
    split; rewrite ?conns_snoc; cbn [conn_of option_list option_rect cl_pool cl_calls cl_open opened].
    + by rewrite Hl', Hl, list_to_set_snoc.
    + by apply NoDup_snoc_fresh.
    + rewrite length_app. cbn. lia.
    + congruence.
    + intros c'. rewrite elem_of_union, elem_of_singleton, Ho. split.
      * intros [->|(i & r & Hi)]; [exists (length (cl_calls w)), req; by apply list_lookup_middle|].
        exists i, r. by apply lookup_app_l_Some.
      * intros (i & r & Hi). apply lookup_app_Some in Hi as [Hi|[_ Hi]]; [eauto|].
        apply list_lookup_singleton_Some in Hi as [_ Hi]. injection Hi as -> ->. by left.
  - split; rewrite ?conns_snoc, ?Hk, ?app_nil_r; cbn [cl_pool cl_calls cl_open]; [congruence|done..|congruence|].
    intros c. rewrite Hop, union_empty_l_L, Ho. split; intros (i & r & Hi).
    + exists i, r. by apply lookup_app_l_Some.
    + apply lookup_app_Some in Hi as [Hi|[_ Hi]]; [eauto|].
      apply list_lookup_singleton_Some in Hi as [_ Hi]. by destruct (Hu c r).
Qed.
Lemma using_nodup calls i j c r1 r2 : NoDup (omap conn_of calls) ->
  calls !! i = Some (Using c r1) -> calls !! j = Some (Using c r2) -> i = j.
Proof.
  revert i j. induction calls as [|k calls IH]; intros [|i] [|j] Hn Hi Hj; try done; cbn in *.
  - injection Hi as ->. apply NoDup_cons in Hn as [Hni _]. destruct Hni.
    apply list_elem_of_omap. exists (Using c r2). split; [by eapply list_elem_of_lookup_2|done].
  - injection Hj as ->. apply NoDup_cons in Hn as [Hni _]. destruct Hni.
    apply list_elem_of_omap. exists (Using c r1). split; [by eapply list_elem_of_lookup_2|done].
  - f_equal. apply (IH i j); [|done..]. destruct (conn_of k); [by apply NoDup_cons in Hn as [_ Hn]|done].
Qed.
Lemma exchange_ok n i c req x w : cl_calls w !! i = Some (Using c req) -> client_ok n w ->
  client_ok n (mkClient (cl_pool w) (<[i := end_call c req x]> (cl_calls w)) (cl_open w ∖ {[c]})).
Proof.
  intros Hi [Hl Hn Hz Hc Ho]. split; rewrite ?(conns_exchange _ _ _ _ _ _ _ Hi); cbn [cl_pool cl_calls cl_open]; [done..|].
  intros c'. rewrite elem_of_difference, elem_of_singleton, Ho. split.
  - intros [(j & r & Hj) Hne]. exists j, r. rewrite list_lookup_insert_ne; [done|]. intros <-. congruence.
  - intros (j & r & Hj). destruct (decide (i = j)) as [<-|Hij].
    { rewrite list_lookup_insert_eq in Hj by by eapply lookup_lt_Some. done. }
    rewrite list_lookup_insert_ne in Hj by done. split; [eauto|]. intros ->. by destruct Hij, (using_nodup _ _ _ _ _ _ Hn Hi Hj).
Qed.
Lemma client_step_ok n e w w' : client_step e w = Some w' -> client_ok n w -> client_ok n w'.
Proof.
  destruct e as [req|i x]; cbn [client_step].
  - destruct (begin_call req (cl_pool w)) as [p k] eqn:Hb. intros [= <-]. by apply (begin_call_ok n req).
  - destruct (cl_calls w !! i) as [[|c req|]|] eqn:Hi; try done. intros [= <-]. by apply exchange_ok.
Qed.
Lemma client_run_ok n evs w w' : client_run evs w = Some w' -> client_ok n w -> client_ok n w'.
Proof.
  revert w. induction evs as [|e evs IH]; intros w; cbn; [by intros [= ->]|].
  destruct (client_step e w) as [w1|] eqn:E; cbn; [|done]. eauto using client_step_ok.
Qed.

(** A goroutine that is blocked in [Get] stays so, and no call loses its connection. *)
Lemma client_step_keeps e w w' : client_step e w = Some w' ->
  (forall i req, cl_calls w !! i = Some (Waiting req) -> cl_calls w' !! i = Some (Waiting req)) /\
  prefix (conns w) (conns w').
Proof.
  destruct e as [req|i x]; cbn [client_step].
  - destruct (begin_call req (cl_pool w)) as [p k]. intros [= <-]. split.
    + intros i r Hi. by apply lookup_app_l_Some.
    + rewrite conns_snoc. by eexists.
  - destruct (cl_calls w !! i) as [[|c req|]|] eqn:Hi; try done. intros [= <-]. split.
    + intros j r Hj. cbn. rewrite list_lookup_insert_ne; [done|]. intros <-. congruence.
    + by rewrite (conns_exchange _ _ _ _ _ _ _ Hi).
Qed.
Lemma client_run_keeps evs w w' : client_run evs w = Some w' ->
  (forall i req, cl_calls w !! i = Some (Waiting req) -> cl_calls w' !! i = Some (Waiting req)) /\
  prefix (conns w) (conns w').
Proof.
  revert w. induction evs as [|e evs IH]; intros w; cbn; [by intros [= ->]|].
  destruct (client_step e w) as [w1|] eqn:E; cbn; [|done]. intros Hr.
  destruct (client_step_keeps _ _ _ E) as [H1 H2], (IH _ Hr) as [H3 H4]. split; [eauto|by etransitivity].
Qed.
Lemma begin_waits n w req d : client_ok n w -> marshal_req req = inr d ->
  (begin_call req (cl_pool w)).2 = Waiting req <-> length (conns w) = n.
Proof.
  intros Hok Hd. rewrite <-(ok_lent_size _ _ Hok). pose proof (lent_wait (cl_pool w)) as Hw.
  pose proof (ok_size _ _ Hok) as Hz. rewrite <-(ok_lent_size _ _ Hok) in Hz. rewrite (ok_cap _ _ Hok) in Hw.
  unfold begin_call. rewrite Hd. destruct (pool_Get (cl_pool w)) as [q [c|err|]]; cbn in *.
  - split; [done|]. intros He. assert (GotConn c = GotWait) by (apply Hw; lia). done.
  - split; [done|]. intros He. assert (GotErr err = GotWait) by (apply Hw; lia). done.
  - split; [|done]. intros _. assert (n <= size (lent (cl_pool w))) by by apply Hw. lia.
Qed.
End client.

(** C7. A client over a lawful pool, used by any number of goroutines whose calls
    begin and end in any order, and whose servers answer or fail in any way.
    - Each call that is given a connection has one of its own, and there are at
      most 30 of them, ever: a connection is closed when its call ends, but the
      pool is never told.
    - Until there are 30, a call never waits for a connection; when its server
      handles the connection as [handleConn] does, it returns what [remote] does,
      over any network between the two.
    - From the 30th on, every call waits, and it waits for ever: nothing that the
      client does from then on wakes it. *)
Theorem client_exhausts {V P} {HP : ConnPool P} {HL : ConnPoolLaws P} marshal unmarshal marshal_req unmarshal_req
    evs (w0 w : client (P := P)) :
  NewPooledClient = Some w0 -> client_run marshal_req evs w0 = Some w ->
  NoDup (conns w) /\ length (conns w) <= 30 /\
  (forall c, c ∈ cl_open w <-> exists i req, cl_calls w !! i = Some (Using c req)) /\
  (forall req d, marshal_req req = inr d ->
     (begin_call marshal_req req (cl_pool w)).2 = Waiting req <-> length (conns w) = 30) /\
  (forall i c req d net fuel (s : Server (V := V)) x, cl_calls w !! i = Some (Using c req) -> marshal_req req = inr d ->
     pool_err net = None -> wire marshal unmarshal unmarshal_req net fuel s (EncodeMsg d) = Ok x ->
     exists w', client_step marshal_req (Exchange i x) w = Some w' /\ c ∉ cl_open w' /\
       cl_calls w' !! i = Some (Ended (Some c) (remote marshal unmarshal marshal_req unmarshal_req net fuel s req))) /\
  (forall evs' w', client_run marshal_req evs' w = Some w' ->
     (forall i req, cl_calls w !! i = Some (Waiting req) -> cl_calls w' !! i = Some (Waiting req)) /\
     (length (conns w) = 30 -> conns w' = conns w)).
Proof.
  intros H0 Hr. pose proof (client_run_ok _ _ _ _ _ Hr (new_client_ok _ H0)) as Hok.
  split_and!; [by destruct Hok..| | |].
  - intros req d Hd. exact (begin_waits _ _ _ _ d Hok Hd).
  - intros i c req d net fuel s x Hi Hd Hp Hx. cbn [client_step]. rewrite Hi. eexists. split; [done|]. cbn [cl_open cl_calls].
    split; [by intros [_ ?%not_elem_of_singleton]%elem_of_difference|].
    rewrite list_lookup_insert_eq by by eapply lookup_lt_Some. unfold end_call, remote, Client_Invoke, Client_Send.
    by rewrite Hd, Hp, Hx.
  - intros evs' w' Hr'. destruct (client_run_keeps _ _ _ _ Hr') as [Hw Hp]. split; [done|]. intros Hl.
    pose proof (ok_size _ _ (client_run_ok _ _ _ _ _ Hr' Hok)) as Hz. destruct Hp as [k Hk]. rewrite Hk in Hz |- *.
    rewrite length_app in Hz. cbn in Hz. destruct k; [by rewrite app_nil_r|cbn in Hz; lia].
Qed.

(** ** A small pool, and the thirty-first call *)

(** It makes a connection for every call, up to its capacity. *)
Record tiny_pool := mkTinyPool { tp_cap : nat; tp_lent : nat }.
#[export] Instance tiny_ConnPool : ConnPool tiny_pool := {
  NewChannelPool := fun cfg => inr (mkTinyPool (MaxCap cfg) 0);
  pool_Get := fun p =>
    if decide (tp_lent p < tp_cap p) then (mkTinyPool (tp_cap p) (S (tp_lent p)), GotConn (tp_lent p)) else (p, GotWait)
}.
#[export, refine] Instance tiny_ConnPoolLaws : ConnPoolLaws tiny_pool := {
  lent := fun p => set_seq 0 (tp_lent p); capacity := tp_cap
}.
Proof.
  - by intros cfg p [= <-].
  - intros [k l] p' c. cbn [pool_Get tiny_ConnPool tp_lent tp_cap]. case_decide as H; [|done].
    intros [= <- <-]. cbn [tp_lent tp_cap]. rewrite size_set_seq, elem_of_set_seq, set_seq_S_end_union_L.
    split_and!; [lia|by rewrite Nat.add_0_l|done|lia].
  - intros p p' g. cbn. case_decide; intros [= <- <-] Hg; [by destruct (Hg (tp_lent p))|done].
  - intros p. cbn. rewrite size_set_seq. case_decide; cbn; split; (done || lia).
Defined.

Definition echo_call : Request := call_request "UserService" "GetById" Witness.arg.
(** Thirty calls one after the other, each answered and its connection closed. *)
Definition thirty_calls : list client_event :=
  mjoin ((fun i => [Begin echo_call; Exchange i (inr [EncodeMsg Witness.arg])]) <$> seq 0 30).
Lemma client_exhausts_witness :
  match client_run Witness.marshal_req (thirty_calls ++ [Begin echo_call]) (mkClient (mkTinyPool 30 0) [] ∅) with
  | Some w => length (conns w) = 30 /\ cl_open w = ∅ /\
      cl_calls w !! 29 = Some (Ended (Some 29) (Ok (Some (data_response Witness.arg), None))) /\
      cl_calls w !! 30 = Some (Waiting echo_call) /\
      forall evs' w', client_run Witness.marshal_req evs' w = Some w' -> cl_calls w' !! 30 = Some (Waiting echo_call)
  | None => False
  end.
Proof.
  destruct (client_run Witness.marshal_req (thirty_calls ++ [Begin echo_call]) (mkClient (mkTinyPool 30 0) [] ∅))
    as [w|] eqn:E; [|vm_compute in E; discriminate E].
  pose proof (client_exhausts (HL := tiny_ConnPoolLaws) (V := Witness.V) Witness.marshal Witness.unmarshal Witness.marshal_req
    Witness.unmarshal_req (thirty_calls ++ [Begin echo_call]) (mkClient (mkTinyPool 30 0) [] ∅) w eq_refl E)
    as (_ & _ & _ & _ & _ & H).
  assert (cl_calls w !! 30 = Some (Waiting echo_call)) as Hw by (vm_compute in E; injection E as <-; reflexivity).
  repeat split; [vm_compute in E; injection E as <-; reflexivity..|exact Hw|].
  intros evs' w' Hr. exact (proj1 (H evs' w' Hr) 30 echo_call Hw).
Defined.
