(* ===== verification/Registry.v ===== *)
(** The metadata registry of the ORM: [orm/model/model.go], [orm/internal/errs/error.go].

    Go's reflection is modelled by type descriptors.  A [*Field] is shared by
    [Fields], [FieldMap] and [ColumnMap] of its model, so a model carries the
    cells the pointers refer to, and the maps hold pointers. *)
From S2P Require Import Prelude.

(** ** Errors ([errs], and errors of the database driver) *)

Inductive orm_error :=
  | ErrPointOnly
  | ErrNoRows
  | ErrInsertZeroRow
  | ErrUnsupportedTableReference
  | ErrUnsupportedExpression
  | ErrUnknownField (name : string)
  | ErrUnknownColumn (name : string)
  | ErrInvalidTagContent (pair : string)
  | ErrUnsupportedAssignable
  | ErrTxDone                       (** [sql.ErrTxDone] *)
  | ErrScan                         (** a failure of [sql.Rows.Scan] *)
  | ErrDriver (msg : string).

#[export] Instance orm_error_eq_dec : EqDecision orm_error.
Proof. solve_decision. Defined.

(** ** Types seen by reflection *)

(** [reflect.StructField]; the tag is its conventional list of key-value pairs,
    on which [StructTag.Lookup] is the first match. *)
Record StructField := mkStructField {
  sf_Name : string; sf_Type : string; sf_Tag : list (string * string); sf_Offset : Z }.

Inductive gtype :=
  | TStruct (name : string) (fields : list StructField)
  | TPointer (elem : gtype)
  | TOther (name : string).

#[export] Instance StructField_eq_dec : EqDecision StructField.
Proof. solve_decision. Defined.
#[export] Instance gtype_eq_dec : EqDecision gtype.
Proof. solve_decision. Defined.

(** A value passed as [any]: its dynamic type ([None] for nil), and the result
    of its [TableName] method when it has one. *)
Record entity := mkEntity { e_type : option gtype; e_table : option string }.

(** ** Models *)

Record Field := mkField { ColName : string; Type_ : string; GoName : string; Offset : Z }.

(** [Model]; a [*Field] is an index into [cells]. *)
Record Model := mkModel {
  TableName : string;
  Fields : list nat;
  FieldMap : gmap string nat;
  ColumnMap : gmap string nat;
  cells : list Field
}.

(** [m.FieldMap[name]], [m.ColumnMap[c]] and the field pointed to. *)
Definition field_named (md : Model) (name : string) : option Field :=
  p ← FieldMap md !! name; cells md !! p.
Definition field_of_column (md : Model) (c : string) : option Field :=
  p ← ColumnMap md !! c; cells md !! p.
Definition fields_of (md : Model) : list Field := omap (fun p => cells md !! p) (Fields md).

(** ** Names *)

Definition is_upper (c : char) : bool :=
  let n := Ascii.nat_of_ascii c in (65 <=? n) && (n <=? 90).
Definition to_lower (c : char) : char :=
  if is_upper c then Ascii.ascii_of_nat (Ascii.nat_of_ascii c + 32) else c.

(** [underscoreName], for ASCII names (where runes are bytes); [first] is [i == 0]. *)
Fixpoint underscore (first : bool) (name : string) : string :=
  match name with
  | EmptyString => EmptyString
  | String v name' =>
      if is_upper v
      then (if first then String (to_lower v) else String "_"%char ∘ String (to_lower v))
             (underscore false name')
      else String v (underscore false name')
  end.
Definition underscoreName (tableName : string) : string := underscore true tableName.

(** ** Tags *)

Definition tagKeyColumn : string := "column".

(** [tag.Lookup("orm")] *)
Definition tag_Lookup (key : string) (tag : list (string * string)) : option string :=
  assoc key tag.

(** The loop over the pairs of [parseTag]. *)
Fixpoint parsePairs (pairs : list string) (res : gmap string string)
  : orm_error + gmap string string :=
  match pairs with
  | [] => inr res
  | pr :: pairs' =>
      match split_on "="%char pr with
      | [key; val] => parsePairs pairs' (<[key := val]> res)
      | _ => inl (ErrInvalidTagContent pr)
      end
  end.
Definition parseTag (tag : list (string * string)) : orm_error + gmap string string :=
  match tag_Lookup "orm" tag with
  | None => inr ∅
  | Some ormTag => parsePairs (split_on ","%char ormTag) ∅
  end.

(** ** Registration *)

(** The field and column maps while the loop of [Register] runs. *)
Definition empty_model : Model := mkModel "" [] ∅ ∅ [].

(** One turn of the loop over the fields of the structure. *)
Definition addField (md : Model) (fd : StructField) : orm_error + Model :=
  match parseTag (sf_Tag fd) with
  | inl err => inl err
  | inr prs =>
      let tagged := default "" (prs !! tagKeyColumn) in
      let colName := if decide (tagged = "") then underscoreName (sf_Name fd) else tagged in
      let fdMeta := mkField colName (sf_Type fd) (sf_Name fd) (sf_Offset fd) in
      let p := length (cells md) in
      inr (mkModel (TableName md) (Fields md ++ [p])
             (<[sf_Name fd := p]> (FieldMap md)) (<[colName := p]> (ColumnMap md))
             (cells md ++ [fdMeta]))
  end.
Fixpoint addFields (md : Model) (fds : list StructField) : orm_error + Model :=
  match fds with
  | [] => inr md
  | fd :: fds' =>
      match addField md fd with
      | inl err => inl err
      | inr md' => addFields md' fds'
      end
  end.

Definition with_table (tableName : string) (md : Model) : Model :=
  mkModel tableName (Fields md) (FieldMap md) (ColumnMap md) (cells md).

(** The model that [Register] builds before it applies the options. *)
Definition parseModel (e : entity) : go (orm_error + Model) :=
  match e_type e with
  | None => Panic PNilDeref                    (* [typ.Kind()] on a nil type *)
  | Some (TPointer (TStruct name fields)) =>
      match addFields empty_model fields with
      | inl err => Ok (inl err)
      | inr md =>
          let tableName := default "" (e_table e) in
          let tableName := if decide (tableName = "") then underscoreName name else tableName in
          Ok (inr (with_table tableName md))
      end
  | Some _ => Ok (inl ErrPointOnly)
  end.

(** [ModelOpt], and the two options of the package. *)
Definition ModelOpt : Type := Model -> orm_error + Model.
Definition WithColumnName (field columnName : string) : ModelOpt := fun m =>
  match FieldMap m !! field with
  | None => inl (ErrUnknownField field)
  | Some fd =>
      inr (mkModel (TableName m) (Fields m) (FieldMap m) (ColumnMap m)
        (alter (fun f => mkField columnName (Type_ f) (GoName f) (Offset f)) fd (cells m)))
  end.
Definition WithTableName (tableName : string) : ModelOpt := fun m => inr (with_table tableName m).

Fixpoint applyOpts (opts : list ModelOpt) (res : Model) : orm_error + Model :=
  match opts with
  | [] => inr res
  | opt :: opts' =>
      match opt res with inl err => inl err | inr res' => applyOpts opts' res' end
  end.

(** [registry]: the [sync.Map] from types to models. *)
Definition registry : Type := list (option gtype * Model).
Definition NewRegistry : registry := [].
Definition models_Load (typ : option gtype) (r : registry) : option Model :=
  assoc typ r.

(** [Register]: the model is stored once everything has succeeded. *)
Definition Register (e : entity) (opts : list ModelOpt) : GM registry orm_error Model :=
  fun r =>
    res ← parseModel e;
    match res with
    | inl err => Ok (r, inl err)
    | inr md =>
        match applyOpts opts md with
        | inl err => Ok (r, inl err)
        | inr md' => Ok ((e_type e, md') :: r, inr md')
        end
    end.

(** [Get] *)
Definition Get (e : entity) : GM registry orm_error Model := fun r =>
  match models_Load (e_type e) r with
  | Some m => Ok (r, inr m)
  | None => Register e [] r
  end.

(** * Properties *)

(** ** What the fields of a structure become *)

(** The metadata of one field, and of all of them. *)
Definition field_meta (fd : StructField) : orm_error + Field :=
  match parseTag (sf_Tag fd) with
  | inl err => inl err
  | inr prs =>
      let tagged := default "" (prs !! tagKeyColumn) in
      inr (mkField (if decide (tagged = "") then underscoreName (sf_Name fd) else tagged)
             (sf_Type fd) (sf_Name fd) (sf_Offset fd))
  end.
Definition field_metas (fds : list StructField) (fs : list Field) : Prop :=
  Forall2 (fun fd f => field_meta fd = inr f) fds fs.

(** Every pointer of a model is valid, the fields are the cells in order, and
    the field map agrees with the fields' names. *)
Record model_wf (md : Model) : Prop := {
  wf_Fields : Fields md = seq 0 (length (cells md));
  wf_FieldMap : forall n p, FieldMap md !! n = Some p ->
    exists f, cells md !! p = Some f /\ GoName f = n;
  wf_all : forall f, f ∈ cells md -> is_Some (FieldMap md !! GoName f);
  wf_ColumnMap : forall c p, ColumnMap md !! c = Some p -> is_Some (cells md !! p)
}.
(** The column map agrees with the fields' columns too. *)
Definition columns_fresh (md : Model) : Prop :=
  (forall c p, ColumnMap md !! c = Some p ->
     exists f, cells md !! p = Some f /\ ColName f = c) /\
  (forall f, f ∈ cells md -> is_Some (ColumnMap md !! ColName f)).

Lemma empty_model_wf : model_wf empty_model /\ columns_fresh empty_model.
Proof. split; split; simpl; try done; intros *; try rewrite lookup_empty; try done;
  intros H; by apply not_elem_of_nil in H. Qed.

Lemma lookup_insert_case (k k' : string) (v : nat) (m : gmap string nat) :
  (k = k' /\ <[k := v]> m !! k' = Some v) \/ (k <> k' /\ <[k := v]> m !! k' = m !! k').
Proof.
  destruct (decide (k = k')) as [->|Hne]; [left|right]; split; auto.
  - by rewrite lookup_insert_eq.
  - by rewrite lookup_insert_ne.
Qed.

Lemma addField_spec md fd md' :
  addField md fd = inr md' ->
  exists f, field_meta fd = inr f /\ cells md' = cells md ++ [f] /\
    TableName md' = TableName md /\
    Fields md' = Fields md ++ [length (cells md)] /\
    FieldMap md' = <[GoName f := length (cells md)]> (FieldMap md) /\
    ColumnMap md' = <[ColName f := length (cells md)]> (ColumnMap md).
Proof.
  unfold addField, field_meta. destruct (parseTag (sf_Tag fd)); [done|].
  intros [= <-]. eexists. by split_and!.
Qed.

Lemma lookup_snoc_map (l : list Field) f p (P : Field -> Prop) :
  (exists g, l !! p = Some g /\ P g) -> exists g, (l ++ [f]) !! p = Some g /\ P g.
Proof. intros (g & Hg & HP). exists g. split; [|done]. by apply lookup_app_l_Some. Qed.
Lemma lookup_snoc_last (l : list Field) f : (l ++ [f]) !! length l = Some f.
Proof. by apply list_lookup_middle. Qed.

Lemma addField_wf md fd md' :
  model_wf md -> addField md fd = inr md' -> model_wf md'.
Proof.
  intros [HF HM HA HC] (f & _ & Hc & _ & Hf & Hm & Hcm)%addField_spec.
  split; rewrite ?Hc, ?Hf, ?Hm, ?Hcm.
  - rewrite HF, length_app. by rewrite seq_app.
  - intros n p. destruct (lookup_insert_case (GoName f) n (length (cells md)) (FieldMap md))
      as [[<- ->]|[_ ->]].
    + intros [= <-]. exists f. by rewrite lookup_snoc_last.
    + intros H. by apply lookup_snoc_map, HM.
  - intros g [Hg| ->%list_elem_of_singleton]%elem_of_app.
    + apply lookup_insert_is_Some'. right. by apply HA.
    + rewrite lookup_insert_eq. eauto.
  - intros c p. rewrite lookup_lt_is_Some, length_app; simpl.
    destruct (lookup_insert_case (ColName f) c (length (cells md)) (ColumnMap md))
      as [[<- ->]|[_ ->]].
    + intros [= <-]. lia.
    + intros H%HC%lookup_lt_is_Some. lia.
Qed.

Lemma addField_fresh md fd md' :
  columns_fresh md -> addField md fd = inr md' -> columns_fresh md'.
Proof.
  intros [HM HA] (f & _ & Hc & _ & _ & _ & Hcm)%addField_spec.
  split; rewrite ?Hc, ?Hcm.
  - intros n p. destruct (lookup_insert_case (ColName f) n (length (cells md)) (ColumnMap md))
      as [[<- ->]|[_ ->]].
    + intros [= <-]. exists f. by rewrite lookup_snoc_last.
    + intros H. by apply lookup_snoc_map, HM.
  - intros g [Hg| ->%list_elem_of_singleton]%elem_of_app.
    + apply lookup_insert_is_Some'. right. by apply HA.
    + rewrite lookup_insert_eq. eauto.
Qed.

Lemma addFields_spec fds : forall md md',
  addFields md fds = inr md' -> model_wf md -> columns_fresh md ->
  model_wf md' /\ columns_fresh md' /\
  exists fs, field_metas fds fs /\ cells md' = cells md ++ fs.
Proof.
  induction fds as [|fd fds IH]; intros md md'; simpl.
  - intros [= <-] ? ?. split_and!; [done..|]. exists []. rewrite app_nil_r. by split; [constructor|].
  - destruct (addField md fd) as [e|md1] eqn:H1; [done|]. intros H Hwf Hfr.
    destruct (IH md1 md' H (addField_wf _ _ _ Hwf H1) (addField_fresh _ _ _ Hfr H1))
      as (Hw' & Hf' & fs & Hfs & Hc).
    apply addField_spec in H1 as (f & Hfm & Hc1 & _).
    split_and!; [done..|]. exists (f :: fs). split; [by constructor|].
    rewrite Hc, Hc1. by rewrite <-app_assoc.
Qed.

Lemma addFields_total fds fs : forall md,
  field_metas fds fs -> exists md', addFields md fds = inr md'.
Proof.
  intros md H. revert md. induction H as [|fd f fds fs Hf H IH]; intros md; simpl; [eauto|].
  unfold addField. unfold field_meta in Hf.
  destruct (parseTag (sf_Tag fd)); [done|]. apply IH.
Qed.

(** The entities an ORM call accepts: pointers to structures. *)
Definition struct_entity (name : string) (fds : list StructField) (tbl : option string) : entity :=
  mkEntity (Some (TPointer (TStruct name fds))) tbl.
Definition table_of (name : string) (tbl : option string) : string :=
  if decide (default "" tbl = "") then underscoreName name else default "" tbl.

Lemma parseModel_spec name fds tbl :
  (exists md fs, parseModel (struct_entity name fds tbl) = Ok (inr md) /\
     field_metas fds fs /\ cells md = fs /\ model_wf md /\ columns_fresh md /\
     TableName md = table_of name tbl) \/
  (exists err, parseModel (struct_entity name fds tbl) = Ok (inl err) /\
     forall fs, ~ field_metas fds fs).
Proof.
  unfold parseModel; cbn [e_type e_table struct_entity].
  destruct (addFields empty_model fds) as [err|md] eqn:H.
  - right. exists err. split; [done|]. intros fs Hfs.
    destruct (addFields_total fds fs empty_model Hfs) as [md' H']. congruence.
  - left. destruct empty_model_wf as [Hw Hf].
    destruct (addFields_spec _ _ _ H Hw Hf) as (Hw' & Hf' & fs & Hfs & Hc).
    eexists _, fs. split; [reflexivity|]. split_and!; try done.
    by destruct Hw'.
Qed.

Lemma fields_of_cells md : model_wf md -> fields_of md = cells md.
Proof.
  intros Hw. unfold fields_of. rewrite (wf_Fields _ Hw). clear Hw.
  induction (cells md) as [|f l IH] using rev_ind; [done|].
  rewrite length_app; simpl. rewrite seq_app, omap_app; simpl.
  rewrite lookup_snoc_last. f_equal. rewrite <-IH at 2.
  apply list_omap_ext, Forall_Forall2_diag, Forall_seq. intros p Hp. apply lookup_app_l. lia.
Qed.

Lemma field_named_spec md n f :
  model_wf md -> field_named md n = Some f -> f ∈ fields_of md /\ GoName f = n.
Proof.
  intros Hw H. rewrite fields_of_cells by done.
  unfold field_named in H. destruct (FieldMap md !! n) as [p|] eqn:Hp; [|done]; simpl in H.
  destruct (wf_FieldMap _ Hw _ _ Hp) as (g & Hg & Hn). rewrite Hg in H; injection H as <-.
  split; [by apply list_elem_of_lookup_2 in Hg|done].
Qed.
Lemma field_named_all md f :
  model_wf md -> f ∈ fields_of md -> is_Some (field_named md (GoName f)).
Proof.
  intros Hw. rewrite fields_of_cells by done. intros Hf.
  destruct (wf_all _ Hw _ Hf) as [p Hp]. unfold field_named. rewrite Hp; simpl.
  destruct (wf_FieldMap _ Hw _ _ Hp) as (g & -> & _). eauto.
Qed.
Lemma field_of_column_spec md c f :
  model_wf md -> columns_fresh md -> field_of_column md c = Some f ->
  f ∈ fields_of md /\ ColName f = c.
Proof.
  intros Hw [Hf _] H. rewrite fields_of_cells by done. unfold field_of_column in H.
  destruct (ColumnMap md !! c) as [p|] eqn:Hp; [|done]; simpl in H.
  destruct (Hf _ _ Hp) as (g & Hg & Hn). rewrite Hg in H; injection H as <-.
  split; [by apply list_elem_of_lookup_2 in Hg|done].
Qed.
Lemma field_of_column_all md f :
  model_wf md -> columns_fresh md -> f ∈ fields_of md ->
  is_Some (field_of_column md (ColName f)).
Proof.
  intros Hw [Hc Ha] Hf. rewrite fields_of_cells in Hf by done.
  destruct (Ha _ Hf) as [p Hp]. unfold field_of_column. rewrite Hp; simpl.
  destruct (Hc _ _ Hp) as (g & -> & _). eauto.
Qed.

(** C35. [Register] without options, on a pointer to any structure whatever:
    it succeeds exactly when every field's [orm] tag parses, and never panics.
    The stored model then lists the fields in order with the columns of their
    tags or the underscored names, [FieldMap] and [ColumnMap] only lead to
    fields of that name and of that column, no field's name or column is
    missing from them, and the table is [TableName()] or the underscored type
    name.  On failure the registry does not change. *)
Theorem Register_correct name fds tbl r :
  let e := struct_entity name fds tbl in
  (exists md, Register e [] r = Ok ((e_type e, md) :: r, inr md) /\
     field_metas fds (fields_of md) /\
     TableName md = table_of name tbl /\
     (forall n f, field_named md n = Some f -> f ∈ fields_of md /\ GoName f = n) /\
     (forall f, f ∈ fields_of md -> is_Some (field_named md (GoName f))) /\
     (forall c f, field_of_column md c = Some f -> f ∈ fields_of md /\ ColName f = c) /\
     (forall f, f ∈ fields_of md -> is_Some (field_of_column md (ColName f)))) \/
  (exists err, Register e [] r = Ok (r, inl err) /\ forall fs, ~ field_metas fds fs).
Proof.
  intros e; subst e. unfold Register.
  destruct (parseModel_spec name fds tbl) as
    [(md & fs & -> & Hfs & <- & Hw & Hf & Ht)|(err & -> & Hno)].
  - left. exists md. split; [reflexivity|].
    split_and!; [by rewrite fields_of_cells|done|..];
      eauto using field_named_spec, field_named_all, field_of_column_spec, field_of_column_all.
  - right. exists err. by split.
Qed.

(** ** [Get] *)

Lemma models_Load_cons t m r t' :
  models_Load t' ((t, m) :: r) = if decide (t = t') then Some m else models_Load t' r.
Proof. reflexivity. Qed.

Lemma Register_stores e opts r r' md :
  Register e opts r = Ok (r', inr md) -> r' = (e_type e, md) :: r.
Proof.
  unfold Register. destruct (parseModel e) as [[err|md0]|p]; simpl; try done.
  destruct (applyOpts opts md0); [done|]. by intros [= <- <-].
Qed.
Lemma Register_fails e opts r r' err :
  Register e opts r = Ok (r', inl err) -> r' = r.
Proof.
  unfold Register. destruct (parseModel e) as [[err0|md0]|p]; simpl; try congruence.
  destruct (applyOpts opts md0); congruence.
Qed.

(** [Get] is a cache of [Register]: once it has returned a model, it
    returns that same model again without changing the registry, it never
    disturbs the entry of another type, and a type registered with options is
    served with them. *)
Lemma Get_cached e opts r r' md :
  Get e r = Ok (r', inr md) \/ Register e opts r = Ok (r', inr md) ->
  Get e r' = Ok (r', inr md) /\
  (forall t, t <> e_type e -> models_Load t r' = models_Load t r).
Proof.
  intros H.
  assert (models_Load (e_type e) r' = Some md /\
    (forall t, t <> e_type e -> models_Load t r' = models_Load t r)) as [HL HO].
  { unfold Get in H. destruct (models_Load (e_type e) r) as [m|] eqn:HL.
    - destruct H as [[= <- <-]|H]; [by split|].
      apply Register_stores in H as ->. rewrite models_Load_cons, decide_True by done.
      split; [done|]. intros t Ht. by rewrite models_Load_cons, decide_False by congruence.
    - assert (r' = (e_type e, md) :: r) as -> by (destruct H; eauto using Register_stores).
      rewrite models_Load_cons, decide_True by done.
      split; [done|]. intros t Ht. by rewrite models_Load_cons, decide_False by congruence. }
  split; [|done]. unfold Get. by rewrite HL.
Qed.

Definition user_fields : list StructField :=
  [mkStructField "Id" "int64" [] 0%Z;
   mkStructField "FirstName" "string" [("orm", "column=first_name_t")] 8%Z;
   mkStructField "LastName" "*sql.NullString" [] 24%Z].
Definition user_entity : entity := struct_entity "TestModel" user_fields None.
Definition model_of (e : entity) (opts : list ModelOpt) : Model :=
  match Register e opts NewRegistry with Ok (_, inr md) => md | _ => empty_model end.
Definition user_model : Model := model_of user_entity [].

Lemma Get_cached_witness :
  Get user_entity [(e_type user_entity, user_model)] =
    Ok ([(e_type user_entity, user_model)], inr user_model).
Proof.
  apply (Get_cached user_entity [] NewRegistry). left. vm_compute. reflexivity.
Defined.

(** ** Options *)

(** [WithColumnName] renames the column of the field in the shared cell,
    so [Fields] and [FieldMap] see the new name; but [ColumnMap] keeps its old
    keys: the new column is not found (unless another field had it), and the
    old column still leads to the field, now under its new name. *)
Lemma WithColumnName_stale e r r' md field new f :
  (exists md0, Register e [] r = Ok ((e_type e, md0) :: r, inr md0) /\ model_wf md0 /\
     field_named md0 field = Some f /\ field_of_column md0 (ColName f) = Some f /\
     ColumnMap md0 !! ColName f = FieldMap md0 !! field /\
     ColumnMap md0 !! new = None) ->
  Register e [WithColumnName field new] r = Ok (r', inr md) ->
  field_named md field = Some (mkField new (Type_ f) (GoName f) (Offset f)) /\
  field_of_column md new = None /\
  field_of_column md (ColName f) = Some (mkField new (Type_ f) (GoName f) (Offset f)).
Proof.
  intros (md0 & HR & Hw & Hn & Hc & Hp & Hnew). unfold Register in *.
  destruct (parseModel e) as [[err|md1]|p]; simpl in *; try done.
  injection HR as ->. unfold WithColumnName.
  unfold field_named in Hn. destruct (FieldMap md0 !! field) as [p|] eqn:Hfp; [|done]; simpl in Hn.
  intros [= <- <-]. unfold field_named, field_of_column; simpl.
  rewrite Hfp, Hnew, Hp; simpl. by rewrite list_lookup_alter_eq, Hn.
Qed.

Lemma WithColumnName_stale_witness :
  field_of_column (model_of user_entity [WithColumnName "Id" "user_id"]) "user_id" = None.
Proof.
  eapply (WithColumnName_stale user_entity NewRegistry _ _ "Id" "user_id").
  - exists user_model. split; [reflexivity|]. split.
    + destruct empty_model_wf as [Hw Hf].
      destruct (addFields empty_model user_fields) as [|m] eqn:E; [discriminate E|].
      destruct (addFields_spec _ _ _ E Hw Hf) as ([H1 H2 H3 H4] & _ & _).
      vm_compute in E. injection E as <-. split; assumption.
    + split; [reflexivity|]. split; [reflexivity|]. split; reflexivity.
  - reflexivity.
Defined.

(** ** [underscoreName] *)

Definition to_upper (c : char) : char :=
  let n := Ascii.nat_of_ascii c in
  if (97 <=? n) && (n <=? 122) then Ascii.ascii_of_nat (n - 32) else c.
(** The inverse: capitalise the first letter and each one after an underscore. *)
Fixpoint camel (up : bool) (s : string) : string :=
  match s with
  | EmptyString => EmptyString
  | String c s' =>
      if decide (c = "_"%char) then camel true s'
      else String (if up then to_upper c else c) (camel false s')
  end.

Lemma upper_lower c : is_upper c = true -> to_upper (to_lower c) = c /\ to_lower c <> "_"%char.
Proof. destruct c as [[] [] [] [] [] [] [] []]; vm_compute; intros H; try discriminate H; done. Qed.

Lemma camel_underscore name : forall first,
  "_"%char ∉ chars name ->
  (first = true -> exists c s, name = String c s /\ is_upper c = true) ->
  camel first (underscore first name) = name.
Proof.
  induction name as [|c s IH]; intros first Hn Hf; [done|].
  simpl in Hn. apply not_elem_of_cons in Hn as [Hc Hs].
  assert (camel false (underscore false s) = s) as IHs by (apply IH; done).
  cbn [underscore]. destruct (is_upper c) eqn:Hu.
  - destruct (upper_lower c Hu) as [Hul Hne].
    destruct first; cbn [camel compose].
    + rewrite decide_False by done. by rewrite Hul, IHs.
    + rewrite decide_True by done. cbn [camel]. rewrite decide_False by done. by rewrite Hul, IHs.
  - destruct first.
    { destruct (Hf eq_refl) as (c' & s' & [= <- <-] & H). congruence. }
    cbn [camel]. rewrite decide_False by congruence. by rewrite IHs.
Qed.

Definition exported (name : string) : Prop :=
  "_"%char ∉ chars name /\ exists c s, name = String c s /\ is_upper c = true.

(** [underscoreName] loses nothing on exported names without an
    underscore: [camel true] recovers the name, so two distinct fields never
    get the same default column. *)
Lemma underscoreName_inj n1 n2 :
  exported n1 -> exported n2 ->
  camel true (underscoreName n1) = n1 /\
  (underscoreName n1 = underscoreName n2 -> n1 = n2).
Proof.
  intros [H1 H1'] [H2 H2']. unfold underscoreName.
  split; [by apply camel_underscore|].
  intros H. rewrite <-(camel_underscore n1 true), H by auto. by apply camel_underscore.
Qed.

Lemma underscoreName_inj_witness :
  camel true (underscoreName "FirstName") = "FirstName" /\
  (underscoreName "FirstName" = underscoreName "Id" -> "FirstName" = "Id").
Proof.
  apply underscoreName_inj.
  - split; [go_decide|]. eexists _, _; by split.
  - split; [go_decide|]. eexists _, _; by split.
Defined.
