(* ===== verification/RegistryConc.v ===== *)
(** Goroutines on one registry: [orm/model/model.go].

    The registry is a [sync.Map], whose [Load] and [Store] are atomic.  [Get] is a
    [Load] and, when it misses, a [Register], which builds the model and then
    stores it; nothing holds the two together.  [registry_linearizable] says what
    that comes to. *)
From S2P Require Import Prelude Registry.

(** The model that [Register] stores, or its failure. *)
Definition built (e : entity) (opts : list ModelOpt) : go (orm_error + Model) :=
  res ← parseModel e;
  Ok (match res with inl err => inl err | inr md => applyOpts opts md end).
Lemma Register_built e opts r :
  Register e opts r =
  (x ← built e opts; Ok (match x with inl err => (r, inl err) | inr md => ((e_type e, md) :: r, inr md) end)).
Proof.
  unfold Register, built. destruct (parseModel e) as [[err|md]|p]; [done| |done]. cbn.
  by destruct (applyOpts opts md).
Qed.

(** ** Calls, in steps and at once *)

Inductive op := OGet (e : entity) | ORegister (e : entity) (opts : list ModelOpt).
Definition op_entity (o : op) : entity := match o with OGet e => e | ORegister e _ => e end.
Definition op_opts (o : op) : list ModelOpt := match o with OGet _ => [] | ORegister _ opts => opts end.
Definition op_type (o : op) : option gtype := e_type (op_entity o).
Definition op_built (o : op) : go (orm_error + Model) := built (op_entity o) (op_opts o).
Definition answer : Type := go (orm_error + Model).

(** The call at once, alone with the registry. *)
Definition do_op (o : op) (r : registry) : registry * answer :=
  match (match o with OGet e => Get e r | ORegister e opts => Register e opts r end) with
  | Ok (r', x) => (r', Ok x)
  | Panic p => (r, Panic p)
  end.
Fixpoint do_ops (os : list op) (r : registry) : registry * list answer :=
  match os with
  | [] => (r, [])
  | o :: os' => let '(r1, a) := do_op o r in let '(r2, l) := do_ops os' r1 in (r2, a :: l)
  end.

(** A goroutine: the calls it has to make, the first of which may have built the
    model that it is about to store, and the answers it got. *)
Record goroutine := mkG { g_todo : list op; g_pending : option Model; g_done : list answer }.
(** [r.models.Load(typ)] of a [Get]; a [Register] does not look. *)
Definition hit (o : op) (r : registry) : option Model :=
  match o with OGet e => models_Load (e_type e) r | ORegister _ _ => None end.
(** Up to the next access to the map; when the call ends there, as which call. *)
Definition advance (r : registry) (g : goroutine) : option (registry * goroutine * option (op * answer)) :=
  match g_todo g with
  | [] => None
  | o :: ops =>
      let ends r o' a := Some (r, mkG ops None (g_done g ++ [a]), Some (o', a)) in
      let reg := ORegister (op_entity o) (op_opts o) in
      match g_pending g with
      | Some m => ends ((op_type o, m) :: r) reg (Ok (inr m))       (* [r.models.Store(typ,res)] *)
      | None =>
          match hit o r with
          | Some m => ends r o (Ok (inr m))
          | None =>
              match op_built o with
              | Ok (inr m) => Some (r, mkG (o :: ops) (Some m) (g_done g), None)
              | x => ends r reg x
              end
          end
      end
  end.

(** The registry, the goroutines, and the calls that have ended, in that order. *)
Record conf := mkConf { c_models : registry; c_gs : list goroutine; c_trace : list (nat * op * answer) }.
Definition initial (progs : list (list op)) : conf :=
  mkConf NewRegistry ((fun p => mkG p None []) <$> progs) [].
Definition rstep (i : nat) (c : conf) : option conf :=
  g ← c_gs c !! i;
  '(r, g', ev) ← advance (c_models c) g;
  Some (mkConf r (<[i := g']> (c_gs c))
    (c_trace c ++ match ev with Some (o, a) => [(i, o, a)] | None => [] end)).
Fixpoint rrun (sched : list nat) (c : conf) : option conf :=
  match sched with [] => Some c | i :: sched' => c' ← rstep i c; rrun sched' c' end.

Definition trace_ops (tr : list (nat * op * answer)) : list op := (fun x => x.1.2) <$> tr.
Definition trace_answers (tr : list (nat * op * answer)) : list answer := snd <$> tr.
(** The part of a goroutine in a trace. *)
Definition told (i : nat) (tr : list (nat * op * answer)) : list (op * answer) :=
  omap (fun x => if decide (x.1.1 = i) then Some (x.1.2, x.2) else None) tr.
(** A [Get] that missed is a [Register] without options. *)
Definition done_as (o o' : op) : Prop := o' = o \/ exists e, o = OGet e /\ o' = ORegister e [].

(** ** One step *)

Definition pending_ok (g : goroutine) : Prop :=
  forall m, g_pending g = Some m -> exists o ops, g_todo g = o :: ops /\ op_built o = Ok (inr m).
Lemma do_register o r :
  do_op (ORegister (op_entity o) (op_opts o)) r =
  match op_built o with
  | Ok (inr m) => ((op_type o, m) :: r, Ok (inr m))
  | x => (r, x)
  end.
Proof. unfold do_op. rewrite Register_built. unfold op_built. by destruct (built _ _) as [[err|m]|p]. Qed.
Lemma done_register o : done_as o (ORegister (op_entity o) (op_opts o)).
Proof. destruct o; [right; eauto|by left]. Qed.
Lemma do_hit o r m : hit o r = Some m -> do_op o r = (r, Ok (inr m)) /\ exists e, o = OGet e /\ models_Load (e_type e) r = Some m.
Proof. destruct o as [e|]; [|done]. cbn. intros Hl. unfold do_op, Get. rewrite Hl. eauto. Qed.

Lemma advance_spec r g r' g' ev : pending_ok g -> advance r g = Some (r', g', ev) ->
  pending_ok g' /\
  match ev with
  | None => r' = r /\ g_todo g' = g_todo g /\ g_done g' = g_done g
  | Some (o', a) =>
      do_op o' r = (r', a) /\ g_done g' = g_done g ++ [a] /\ exists o, g_todo g = o :: g_todo g' /\ done_as o o'
  end.
Proof.
  intros Hp. unfold advance. destruct (g_todo g) as [|o ops] eqn:Ht; [done|]. cbn zeta.
  destruct (g_pending g) as [m|] eqn:Hm.
  - intros [= <- <- <-]. split; [done|]. destruct (Hp _ Hm) as (o1 & ops1 & Ht1 & Hb).
    rewrite Ht in Ht1. injection Ht1 as <- <-. rewrite do_register, Hb. eauto using done_register.
  - destruct (hit o r) as [m|] eqn:Hh.
    + intros [= <- <- <-]. split; [done|]. destruct (do_hit _ _ _ Hh) as [-> _]. split_and!; [done..|].
      exists o. split; [done|by left].
    + destruct (op_built o) as [[err|m]|p] eqn:Hb; intros [= <- <- <-].
      * split; [done|]. rewrite do_register, Hb. eauto using done_register.
      * split; [|done]. intros m' [= <-]. eauto.
      * split; [done|]. rewrite do_register, Hb. eauto using done_register.
Qed.

(** ** The invariant of a run *)

Record reg_inv (progs : list (list op)) (c : conf) : Prop := {
  ri_atomic : do_ops (trace_ops (c_trace c)) NewRegistry = (c_models c, trace_answers (c_trace c));
  ri_gs : forall i g, c_gs c !! i = Some g -> pending_ok g /\
    (told i (c_trace c)).*2 = g_done g /\
    exists prog p, progs !! i = Some prog /\ prog = p ++ g_todo g /\ Forall2 done_as p (told i (c_trace c)).*1;
  ri_len : length (c_gs c) = length progs
}.
Lemma do_ops_snoc os o r r1 l r2 a :
  do_ops os r = (r1, l) -> do_op o r1 = (r2, a) -> do_ops (os ++ [o]) r = (r2, l ++ [a]).
Proof.
  revert r l. induction os as [|o' os IH]; intros r l; cbn [do_ops app].
  - intros [= -> <-] Ho. by rewrite Ho.
  - destruct (do_op o' r) as [r' a']. destruct (do_ops os r') as [r'' l'] eqn:E. intros [= -> <-] Ho.
    by rewrite (IH _ _ E Ho).
Qed.
Lemma told_snoc i tr j o a :
  told i (tr ++ [(j, o, a)]) = told i tr ++ (if decide (j = i) then [(o, a)] else []).
Proof. unfold told. rewrite omap_app. cbn. by case_decide. Qed.
Lemma rstep_Some i c c' : rstep i c = Some c' <-> exists g r g' ev,
  c_gs c !! i = Some g /\ advance (c_models c) g = Some (r, g', ev) /\
  c' = mkConf r (<[i := g']> (c_gs c)) (c_trace c ++ match ev with Some (o, a) => [(i, o, a)] | None => [] end).
Proof.
  unfold rstep. split.
  - destruct (c_gs c !! i) as [g|]; [|done]. cbn. destruct (advance (c_models c) g) as [[[r g'] ev]|] eqn:E; [|done].
    intros [= <-]. by exists g, r, g', ev.
  - intros (g & r & g' & ev & -> & E & ->). cbn. by rewrite E.
Qed.
Lemma initial_reg_inv progs : reg_inv progs (initial progs).
Proof.
  split; [done| |apply length_fmap]. intros i g Hg. cbn in Hg. apply list_lookup_fmap_Some in Hg as (p & -> & ->).
  split; [done|]. split; [done|]. by exists p, [].
Qed.
Lemma reg_inv_step progs i c c' : rstep i c = Some c' -> reg_inv progs c -> reg_inv progs c'.
Proof.
  intros (g & r & g' & ev & Hg & Ha & ->)%rstep_Some [HA HG HL].
  destruct (HG _ _ Hg) as (Hp & Hd & prog & p & Hprog & Happ & Hf). destruct (advance_spec _ _ _ _ _ Hp Ha) as [Hp' Hev].
  assert (i < length (c_gs c)) as Hi by by eapply lookup_lt_Some. destruct ev as [[o a]|].
  - destruct Hev as (Ho & Hdone & o0 & Htodo & Has). split; cbn [c_models c_gs c_trace]; [| |by rewrite length_insert].
    + unfold trace_ops, trace_answers. rewrite !fmap_app. eapply do_ops_snoc; [exact HA|exact Ho].
    + intros j h Hh. rewrite told_snoc. destruct (decide (i = j)) as [<-|Hne].
      * rewrite list_lookup_insert_eq in Hh by done. injection Hh as <-. split; [done|]. rewrite !fmap_app, Hd, Hdone.
        split; [done|]. exists prog, (p ++ [o0]). split; [done|]. split; [by rewrite <-app_assoc, Happ, Htodo|].
        apply Forall2_app; [done|]. constructor; [done|constructor].
      * rewrite list_lookup_insert_ne in Hh by done. rewrite app_nil_r. by apply HG.
  - destruct Hev as (-> & Htodo & Hdone). rewrite app_nil_r. split; cbn [c_models c_gs c_trace]; [done| |by rewrite length_insert].
    intros j h Hh. destruct (decide (i = j)) as [<-|Hne].
    + rewrite list_lookup_insert_eq in Hh by done. injection Hh as <-. split; [done|]. rewrite Hdone, Htodo. eauto 10.
    + rewrite list_lookup_insert_ne in Hh by done. by apply HG.
Qed.
Lemma rrun_ind (P : conf -> Prop) sched c c' :
  (forall i c c', rstep i c = Some c' -> P c -> P c') -> rrun sched c = Some c' -> P c -> P c'.
Proof.
  intros HP. revert c. induction sched as [|i sched IH]; intros c; cbn; [by intros [= ->]|].
  destruct (rstep i c) as [c1|] eqn:E; cbn; [|done]. eauto.
Qed.

(** ** Types on which the calls agree *)

(** Every call that is left for the type [t] builds [m], or is a [Get] that will
    find [m]; the map has nothing else for it. *)
Record steady (t : option gtype) (m : Model) (c : conf) : Prop := {
  st_models : forall m', models_Load t (c_models c) = Some m' -> m' = m;
  st_calls : forall i g o, c_gs c !! i = Some g -> o ∈ g_todo g -> op_type o = t ->
    op_built o = Ok (inr m) \/ (exists e, o = OGet e) /\ models_Load t (c_models c) = Some m;
  st_pending : forall i g o ops m', c_gs c !! i = Some g -> g_todo g = o :: ops -> g_pending g = Some m' ->
    op_type o = t -> m' = m
}.
Definition answers_with (t : option gtype) (m : Model) (x : nat * op * answer) : Prop :=
  op_type x.1.2 = t -> x.2 = Ok (inr m).

(** What a step does for one type. *)
Lemma advance_type t m r g r' g' ev :
  advance r g = Some (r', g', ev) ->
  (forall m', models_Load t r = Some m' -> m' = m) ->
  (forall o, o ∈ g_todo g -> op_type o = t ->
     op_built o = Ok (inr m) \/ (exists e, o = OGet e) /\ models_Load t r = Some m) ->
  (forall o ops m', g_todo g = o :: ops -> g_pending g = Some m' -> op_type o = t -> m' = m) ->
  (forall o ops m', g_todo g' = o :: ops -> g_pending g' = Some m' -> op_type o = t -> m' = m) /\
  (forall o, o ∈ g_todo g' -> o ∈ g_todo g) /\
  (models_Load t r = Some m -> models_Load t r' = Some m) /\
  (forall m', models_Load t r' = Some m' -> m' = m) /\
  (forall o a, ev = Some (o, a) -> op_type o = t -> a = Ok (inr m)).
Proof.
  intros Ha Hr Hc Hp. unfold advance in Ha. destruct (g_todo g) as [|o ops] eqn:Ht; [done|]. cbn zeta in Ha.
  assert (forall x, op_type (ORegister (op_entity o) (op_opts o)) = x <-> op_type o = x) as Hreg by done.
  pose proof (Hc o (list_elem_of_here _ _)) as Ho.
  destruct (g_pending g) as [m1|] eqn:Hm.
  - injection Ha as <- <- <-. split_and!; [done|by constructor| | |].
    + intros Hl. rewrite models_Load_cons. case_decide as Ht'; [|done]. by rewrite (Hp _ _ _ eq_refl eq_refl Ht').
    + intros m'. rewrite models_Load_cons. case_decide as Ht'; [|apply Hr]. intros [= <-]. by eapply Hp.
    + intros o' a [= <- <-] Ht'. by rewrite (Hp _ _ _ eq_refl eq_refl Ht').
  - destruct (hit o r) as [m1|] eqn:Hh.
    + destruct (do_hit _ _ _ Hh) as (_ & e & -> & Hl). injection Ha as <- <- <-.
      split_and!; [done|by constructor|done|done|]. intros o' a [= <- <-] Ht'. cbn in Ht'. subst t. by rewrite (Hr _ Hl).
    + assert (op_type o = t -> op_built o = Ok (inr m)) as Hb.
      { intros Hot. destruct (Ho Hot) as [H|[[e ->] Hl]]; [done|]. change (models_Load (e_type e) r = None) in Hh. change (e_type e = t) in Hot. congruence. }
      destruct (op_built o) as [[err|m1]|p] eqn:Eb; injection Ha as <- <- <-.
      all: split_and!; [|cbn [g_todo]; auto using list_elem_of_further|done|done|].
      all: try done.
      all: try (intros o' a [= <- <-] Ht'; exact (Hb Ht')).
      intros o' ops' m' [= <- <-] [= <-] Ht'. specialize (Hb Ht'). by injection Hb.
Qed.
Lemma steady_step t m i c c' : rstep i c = Some c' -> steady t m c ->
  steady t m c' /\ exists new, c_trace c' = c_trace c ++ new /\ Forall (answers_with t m) new.
Proof.
  intros (g & r & g' & ev & Hg & Ha & ->)%rstep_Some [Hr Hc Hp].
  assert (i < length (c_gs c)) as Hi by by eapply lookup_lt_Some.
  destruct (advance_type t m _ _ _ _ _ Ha Hr (fun o => Hc i g o Hg) (fun o ops m' => Hp i g o ops m' Hg))
    as (Hp' & Hc' & Hm' & Hr' & Hev). split.
  - split; cbn [c_models c_gs].
    + done.
    + intros j h o Hh Ho Hot. assert (exists k, c_gs c !! j = Some k /\ o ∈ g_todo k) as (k & Hk & Hok).
      { destruct (decide (i = j)) as [<-|Hne]; [|rewrite list_lookup_insert_ne in Hh by done; eauto].
        rewrite list_lookup_insert_eq in Hh by done. injection Hh as <-. eauto. }
      destruct (Hc j k o Hk Hok Hot) as [H|[He Hl]]; auto.
    + intros j h o ops m' Hh. destruct (decide (i = j)) as [<-|Hne].
      * rewrite list_lookup_insert_eq in Hh by done. injection Hh as <-. apply Hp'.
      * rewrite list_lookup_insert_ne in Hh by done. by eapply Hp.
  - eexists. split; [done|]. destruct ev as [[o a]|]; [|constructor]. constructor; [|constructor].
    intros Ho. by eapply Hev.
Qed.
Lemma steady_run t m sched c c' : rrun sched c = Some c' -> steady t m c ->
  exists new, c_trace c' = c_trace c ++ new /\ Forall (answers_with t m) new.
Proof.
  intros Hr Hs. apply (rrun_ind (fun x => steady t m x /\ exists new, c_trace x = c_trace c ++ new /\
    Forall (answers_with t m) new) sched c c'); [|exact Hr|].
  - intros i x x' Hx [Hsx (new & Hn & HF)]. destruct (steady_step _ _ _ _ _ Hx Hsx) as [Hs' (new' & Hn' & HF')].
    split; [done|]. exists (new ++ new'). split; [by rewrite Hn', Hn, app_assoc|]. by apply Forall_app.
  - split; [done|]. exists []. by rewrite app_nil_r.
Qed.
Lemma initial_steady t m progs :
  (forall prog o, prog ∈ progs -> o ∈ prog -> op_type o = t -> op_built o = Ok (inr m)) -> steady t m (initial progs).
Proof.
  intros Hb. split; [done| |].
  - intros i g o Hg Ho Ht. left. cbn in Hg. apply list_lookup_fmap_Some in Hg as (p & -> & Hp).
    eapply Hb; [by eapply list_elem_of_lookup_2|done|done].
  - intros i g o ops m' Hg _ Hm. cbn in Hg. by apply list_lookup_fmap_Some in Hg as (p & -> & _).
Qed.

(** C21. Any number of goroutines that call [Get] and [Register] on a registry, in
    steps that are interleaved in any way.
    - The calls that have ended are atomic calls in the order in which they ended:
      run one after the other from an empty registry they leave the same map and
      give the same answers, where a [Get] that had missed is a [Register]
      without options.  Of each goroutine they are the calls it has made, in its
      order, and it got their answers.
    - When all the calls for a type build the same model, as they do without
      options, each of them answers that model, whatever happens in between.
    - From a moment on at which the map has [m] for a type, only calls of [Get] are
      left for it, and none of them has looked already, they all answer [m].  So
      options are safe when they are registered before the type is used. *)
Theorem registry_linearizable progs sched c : rrun sched (initial progs) = Some c ->
  do_ops (trace_ops (c_trace c)) NewRegistry = (c_models c, trace_answers (c_trace c)) /\
  (forall i prog, progs !! i = Some prog -> exists g p, c_gs c !! i = Some g /\ prog = p ++ g_todo g /\
     Forall2 done_as p (told i (c_trace c)).*1 /\ (told i (c_trace c)).*2 = g_done g) /\
  (forall t m, (forall prog o, prog ∈ progs -> o ∈ prog -> op_type o = t -> op_built o = Ok (inr m)) ->
     Forall (answers_with t m) (c_trace c)) /\
  (forall t m, models_Load t (c_models c) = Some m ->
     (forall i g o, c_gs c !! i = Some g -> o ∈ g_todo g -> op_type o = t -> (exists e, o = OGet e) /\
        (head (g_todo g) = Some o -> g_pending g = None)) ->
     forall sched' c', rrun sched' c = Some c' ->
       exists new, c_trace c' = c_trace c ++ new /\ Forall (answers_with t m) new).
Proof.
  intros Hr. pose proof (rrun_ind _ _ _ _ (reg_inv_step progs) Hr (initial_reg_inv progs)) as [HA HG HL].
  split_and!; [done| | |].
  - intros i prog Hi. destruct (lookup_lt_is_Some_2 (c_gs c) i) as [g Hg].
    { rewrite HL. by eapply lookup_lt_Some. }
    destruct (HG _ _ Hg) as (_ & Hd & prog' & p & Hp & Happ & Hf). exists g, p.
    rewrite Hi in Hp. by injection Hp as <-.
  - intros t m Hb. destruct (steady_run _ _ _ _ _ Hr (initial_steady _ _ _ Hb)) as (new & Hn & HF). by rewrite Hn.
  - intros t m Hm Hc sched' c' Hr'. apply (steady_run t m sched' c c' Hr'). split.
    + congruence.
    + intros i g o Hg Ho Ht. right. split; [|done]. by apply (Hc i g o).
    + intros i g o ops m' Hg Hto Hpe Ht. destruct (Hc i g o Hg) as [_ H]; [rewrite Hto; by constructor|done|].
      rewrite Hto in H. by rewrite (H eq_refl) in Hpe.
Qed.

(** Two goroutines get a model at the same time: both build it, and they agree. *)
Definition two_gets : list (list op) := [[OGet user_entity]; [OGet user_entity]].
Lemma registry_linearizable_witness :
  match rrun [0; 1; 0; 1] (initial two_gets) with
  | Some c => c_models c = [(e_type user_entity, user_model); (e_type user_entity, user_model)] /\
      do_ops (trace_ops (c_trace c)) NewRegistry = (c_models c, trace_answers (c_trace c)) /\
      Forall (answers_with (e_type user_entity) user_model) (c_trace c)
  | None => False
  end.
Proof.
  destruct (rrun [0; 1; 0; 1] (initial two_gets)) as [c|] eqn:E; [|vm_compute in E; discriminate E].
  destruct (registry_linearizable two_gets [0; 1; 0; 1] c E) as (HA & _ & HB & _).
  split; [vm_compute in E; injection E as <-; reflexivity|]. split; [exact HA|].
  apply HB. intros prog o Hp Ho _. unfold two_gets in Hp.
  assert (prog = [OGet user_entity]) as -> by (rewrite !elem_of_cons, elem_of_nil in Hp; by destruct Hp as [->|[->|[]]]).
  apply list_elem_of_singleton in Ho as ->. vm_compute. reflexivity.
Defined.

(** A [Get] that looked before a [Register] with options stored its model stores
    the default one over it: the options are lost for good. *)
Definition configure_while_used : list (list op) :=
  [[OGet user_entity]; [ORegister user_entity [WithTableName "users"]; OGet user_entity]].
Example options_lost :
  (c ← rrun [0; 1; 1; 0; 1] (initial configure_while_used);
   Some ((fun x => match x with Ok (inr m) => TableName m | _ => "" end) <$> trace_answers (c_trace c))) =
  Some ["users"; "test_model"; "test_model"].
Proof. vm_compute. reflexivity. Qed.
(** Configured first, the type keeps its options. *)
Example options_kept :
  (c ← rrun [1; 1; 0; 1] (initial configure_while_used);
   Some ((fun x => match x with Ok (inr m) => TableName m | _ => "" end) <$> trace_answers (c_trace c))) =
  Some ["users"; "users"; "users"].
Proof. vm_compute. reflexivity. Qed.
