(* ===== verification/Sql.v ===== *)
(** The SELECT builder of the ORM: [orm/builder.go], [orm/column.go],
    [orm/predicate.go], [orm/expression.go], [orm/aggregate.go], [orm/table.go]
    and [Selector.Build] of [orm/select.go].

    The builder is a state monad with errors and panics over the text and the
    arguments accumulated so far.  It is proved to implement a compositional
    renderer, and the properties of the SQL are proved of the renderer. *)
From S2P Require Import Prelude Registry.

(** ** The syntax tree *)

(** Plain values of the [any] arguments. *)
Inductive sqlval :=
  | VInt (z : Z)
  | VStr (s : string)
  | VNil.

(** [Table]: the entity it was made of, and its alias. *)
Record Table := mkTable { t_entity : entity; t_alias : string }.

(** [Expression], [Predicate], [Column], [TableReference], [Join], [RawExpr] and
    [any] refer to each other.  [EOther] and [TROther] are values of types that
    the switches of the builder do not know. *)
Inductive Expression :=
  | ENil
  | EPredicate (p : Predicate)
  | EColumn (c : Column)
  | ERaw (r : RawExpr)
  | EValue (v : any)
  | EOther (name : string)
with Predicate := mkPredicate (left : Expression) (op : string) (right : Expression)
with Column := mkColumn (table : TableReference) (name alias : string)
with RawExpr := mkRaw (raw : string) (args : list any)
with any := AExpr (e : Expression) | AVal (v : sqlval)
with TableReference :=
  | TRNil
  | TRTable (t : Table)
  | TRJoin (j : Join)
  | TROther (name : string)
with Join := mkJoin (left right : TableReference) (typ : string)
               (on : list Predicate) (using_ : list string).

Record Aggregate := mkAggregate { fn : string; arg : string; a_alias : string }.
Inductive Selectable :=
  | SelColumn (c : Column)
  | SelAggregate (a : Aggregate)
  | SelRaw (r : RawExpr).

(** ** Constructors of the fluent interface *)

Definition opEq : string := "=".
Definition opLT : string := "<".
Definition opGT : string := ">".
Definition opNot : string := "NOT".
Definition opAnd : string := "AND".
Definition opOr : string := "OR".

Definition C (name : string) : Column := mkColumn TRNil name "".
Definition Column_As (c : Column) (alias : string) : Column :=
  let 'mkColumn table name _ := c in mkColumn table name alias.
Definition ValueOf (a : any) : Expression :=
  match a with AExpr e => e | AVal _ => EValue a end.
Definition Column_Eq (c : Column) (a : any) : Predicate := mkPredicate (EColumn c) opEq (ValueOf a).
Definition Column_Lt (c : Column) (a : any) : Predicate := mkPredicate (EColumn c) opLT (EValue a).
Definition Column_Gt (c : Column) (a : any) : Predicate := mkPredicate (EColumn c) opGT (EValue a).
Definition Not (p : Predicate) : Predicate := mkPredicate ENil opNot (EPredicate p).
Definition And (left right : Predicate) : Predicate :=
  mkPredicate (EPredicate left) opAnd (EPredicate right).
Definition Or (left right : Predicate) : Predicate :=
  mkPredicate (EPredicate left) opOr (EPredicate right).
Definition Raw (expr : string) (args : list any) : RawExpr := mkRaw expr args.
Definition AsPredicate (r : RawExpr) : Predicate := mkPredicate (ERaw r) "" ENil.

Definition Avg (col : string) : Aggregate := mkAggregate "AVG" col "".
Definition Sum (col : string) : Aggregate := mkAggregate "SUM" col "".
Definition Count (col : string) : Aggregate := mkAggregate "COUNT" col "".
Definition Max (col : string) : Aggregate := mkAggregate "MAX" col "".
Definition Min (col : string) : Aggregate := mkAggregate "MIN" col "".
Definition Aggregate_As (a : Aggregate) (alias : string) : Aggregate :=
  mkAggregate (fn a) (arg a) alias.

Definition TableOf (e : entity) : Table := mkTable e "".
Definition Table_As (t : Table) (alias : string) : Table := mkTable (t_entity t) alias.
Definition Table_C (t : Table) (name : string) : Column := mkColumn (TRTable t) name "".

Record JoinBuilder := mkJoinBuilder {
  jb_left : TableReference; jb_right : TableReference; jb_typ : string }.
Definition Table_Join (t : Table) (right : TableReference) : JoinBuilder :=
  mkJoinBuilder (TRTable t) right "JOIN".
Definition Table_LeftJoin (t : Table) (right : TableReference) : JoinBuilder :=
  mkJoinBuilder (TRTable t) right "LEFT JOIN".
Definition Table_RightJoin (t : Table) (right : TableReference) : JoinBuilder :=
  mkJoinBuilder (TRTable t) right "RIGHT JOIN".
Definition Join_Join (j : Join) (right : TableReference) : JoinBuilder :=
  mkJoinBuilder (TRJoin j) right "JOIN".
Definition Join_LeftJoin (j : Join) (right : TableReference) : JoinBuilder :=
  mkJoinBuilder (TRJoin j) right "LEFT JOIN".
Definition Join_RightJoin (j : Join) (right : TableReference) : JoinBuilder :=
  mkJoinBuilder (TRJoin j) right "RIGHT JOIN".
Definition On (j : JoinBuilder) (ps : list Predicate) : Join :=
  mkJoin (jb_left j) (jb_right j) (jb_typ j) ps [].
Definition Using (j : JoinBuilder) (cols : list string) : Join :=
  mkJoin (jb_left j) (jb_right j) (jb_typ j) [] cols.

(** ** The builder *)

(** [builder]: its text, its arguments, and of its [core] the model and the
    registry.  The dialect and the creator of [core] never change; the
    operations that use them take them as arguments. *)
Record builder := mkBuilder {
  sb : string; args : list any; model : option Model; quoter : char; b_r : registry }.

Abbreviation B := (GM builder orm_error).

Definition writeString (s : string) : B unit := gm_modify (fun b =>
  mkBuilder (sb b +:+ s) (args b) (model b) (quoter b) (b_r b)).
Definition writeByte (c : char) : B unit := writeString (String c "").
Definition quote (name : string) : B unit := fun b =>
  (writeByte (quoter b) ;; writeString name ;; writeByte (quoter b)) b.
(** [addArgs], and the equal [Selector.addArg]. *)
Definition addArgs (vals : list any) : B unit := gm_modify (fun b =>
  mkBuilder (sb b) (args b ++ vals) (model b) (quoter b) (b_r b)).

(** [b.r.Get(entity)], [b.model.X] and [m.FieldMap[name]]. *)
Definition r_Get (e : entity) : B Model := fun b =>
  match Get e (b_r b) with
  | Ok (r', x) => Ok (mkBuilder (sb b) (args b) (model b) (quoter b) r', x)
  | Panic p => Panic p
  end.
Definition the_model : B Model := fun b =>
  match model b with Some m => Ok (b, inr m) | None => Panic PNilDeref end.
Definition fieldOf (m : Model) (name : string) : B Field :=
  match field_named m name with
  | Some fd => mret fd
  | None => gm_err (ErrUnknownField name)
  end.

Definition buildAlias (alias : string) : B unit :=
  if decide (alias = "") then mret tt else writeString " AS " ;; quote alias.

Definition buildColumn (c : Column) : B unit :=
  let 'mkColumn table name alias := c in
  match table with
  | TRNil =>
      m ← the_model;
      fd ← fieldOf m name;
      quote (ColName fd) ;;
      buildAlias alias
  | TRTable t =>
      m ← r_Get (t_entity t);
      fd ← fieldOf m name;
      (if decide (t_alias t = "") then mret tt else quote (t_alias t) ;; writeByte "."%char) ;;
      quote (ColName fd) ;;
      buildAlias alias
  | TRJoin _ | TROther _ => gm_err ErrUnsupportedTableReference
  end.

(** [_, ok := e.(Predicate)] *)
Definition is_predicate (e : Expression) : bool :=
  match e with EPredicate _ => true | _ => false end.
Definition write_if (b : bool) (c : char) : B unit := if b then writeByte c else mret tt.

Fixpoint buildExpression (expr : Expression) : B unit :=
  match expr with
  | ENil => mret tt
  | EPredicate (mkPredicate l op r) =>
      write_if (is_predicate l) "("%char ;;
      buildExpression l ;;
      write_if (is_predicate l) ")"%char ;;
      (if decide (op = "") then mret tt
       else writeByte " "%char ;; writeString op ;; writeByte " "%char) ;;
      write_if (is_predicate r) "("%char ;;
      buildExpression r ;;
      write_if (is_predicate r) ")"%char
  | EColumn c => buildColumn (Column_As c "")
  | ERaw (mkRaw raw args) =>
      writeByte "("%char ;; writeString raw ;; addArgs args ;; writeByte ")"%char
  | EValue v => writeByte "?"%char ;; addArgs [v]
  | EOther _ => gm_err ErrUnsupportedExpression
  end.

(** [for i := i; i < i+n; i++ { p = p.And(ps[i]) }] *)
Fixpoint andLoop (ps : list Predicate) (i n : nat) (p : Predicate) : go Predicate :=
  match n with
  | O => Ok p
  | S n' => q ← index_at i ps; andLoop ps (S i) n' (And p q)
  end.

(** [for i, x := range xs { if i > 0 { b.sb.WriteByte(',') }; body(x) }] *)
Fixpoint commaLoop {A} (body : A -> B unit) (first : bool) (xs : list A) : B unit :=
  match xs with
  | [] => mret tt
  | x :: xs' => write_if (negb first) ","%char ;; body x ;; commaLoop body false xs'
  end.

(** [buildTable]; [nwhere] is [len(s.where)], which the loop over [on] uses. *)
Fixpoint buildTable (nwhere : nat) (table : TableReference) : B unit :=
  match table with
  | TRNil => m ← the_model; quote (TableName m)
  | TRTable t =>
      m ← r_Get (t_entity t);
      quote (TableName m) ;;
      buildAlias (t_alias t)
  | TRJoin (mkJoin l r typ on using_) =>
      writeByte "("%char ;;
      buildTable nwhere l ;;
      writeByte " "%char ;; writeString typ ;; writeByte " "%char ;;
      buildTable nwhere r ;;
      (match using_ with
       | [] => mret tt
       | _ => writeString " USING (" ;; commaLoop (buildColumn ∘ C) true using_ ;; writeByte ")"%char
       end) ;;
      (match on with
       | [] => mret tt
       | p0 :: _ =>
           writeString " ON " ;;
           p ← gm_lift (andLoop on 1 (nwhere - 1) p0);
           buildExpression (EPredicate p)
       end) ;;
      writeByte ")"%char
  | TROther _ => gm_err ErrUnsupportedTableReference
  end.

(** [Selector], less its builder; [s_T] is [new(T)]. *)
Record Selector := mkSelector {
  s_T : entity; table : TableReference; where_ : list Predicate; columns : list Selectable }.

(** [err := m; after; if err != nil { return err }]: [after] runs on both paths. *)
Definition deferErr (m after : B unit) : B unit := fun b =>
  match m b with
  | Ok (b', x) => match after b' with
                  | Ok (b'', inr _) => Ok (b'', x)
                  | y => y
                  end
  | Panic p => Panic p
  end.

Definition buildSelectable (col : Selectable) : B unit :=
  match col with
  | SelColumn c => buildColumn c
  | SelAggregate a =>
      writeString (fn a) ;; writeByte "("%char ;;
      deferErr (buildColumn (C (arg a))) (writeByte ")"%char) ;;
      (if decide (a_alias a = "") then mret tt
       else writeString " AS `" ;; writeString (a_alias a) ;; writeByte "`"%char)
  | SelRaw (mkRaw raw args) => writeString raw ;; addArgs args
  end.
Definition buildColumns (cols : list Selectable) : B unit :=
  match cols with
  | [] => writeByte "*"%char
  | _ => commaLoop buildSelectable true cols
  end.

Record Query := mkQuery { SQL : string; Args : list any }.

Definition buildWhere (ps : list Predicate) : B unit :=
  match ps with
  | [] => mret tt
  | p0 :: _ =>
      writeString " WHERE " ;;
      p ← gm_lift (andLoop ps 1 (length ps - 1) p0);
      buildExpression (EPredicate p)
  end.

(** [if s.model == nil { s.model, err = s.r.Get(new(T)); ... }] *)
Definition ensure_model (T : entity) : B unit := fun b =>
  match model b with
  | Some _ => Ok (b, inr tt)
  | None =>
      match r_Get T b with
      | Ok (b', inr m) => Ok (mkBuilder (sb b') (args b') (Some m) (quoter b') (b_r b'), inr tt)
      | Ok (b', inl err) => Ok (b', inl err)
      | Panic p => Panic p
      end
  end.

Definition Selector_Build (s : Selector) : B Query :=
  ensure_model (s_T s) ;;
  writeString "SELECT " ;;
  buildColumns (columns s) ;;
  writeString " FROM " ;;
  buildTable (length (where_ s)) (table s) ;;
  buildWhere (where_ s) ;;
  writeByte ";"%char ;;
  b ← gm_get;
  mret (mkQuery (sb b) (args b)).

(** [NewSelector] with the quoter of the dialect, [From], [Where] and [Select]. *)
Definition new_builder (q : char) (r : registry) : builder := mkBuilder "" [] None q r.
Definition NewSelector (T : entity) : Selector := mkSelector T TRNil [] [].
Definition From_ (s : Selector) (t : TableReference) : Selector :=
  mkSelector (s_T s) t (where_ s) (columns s).
Definition Where (s : Selector) (ps : list Predicate) : Selector :=
  mkSelector (s_T s) (table s) ps (columns s).
Definition Select (s : Selector) (cols : list Selectable) : Selector :=
  mkSelector (s_T s) (table s) (where_ s) cols.

(** * The renderer: what a tree means as text and arguments

    It says nothing of how the text is accumulated: a tree's text is composed of
    the texts of its parts, and its arguments are those of its parts in order. *)

Abbreviation frag := (string * list any)%type.
Abbreviation R := (GM registry orm_error frag).

Definition r_str (s : string) : R := mret (s, []).
Definition r_args (vs : list any) : R := mret ("", vs).
Definition r_err (e : orm_error) : R := gm_err e.
Definition r_seq (x y : R) : R := a ← x; b ← y; mret (a.1 +:+ b.1, a.2 ++ b.2).
Declare Scope frag_scope.
Delimit Scope frag_scope with frag.
Infix "⊕" := r_seq (at level 51, right associativity) : frag_scope.
Open Scope frag_scope.

Fixpoint r_seps (sep : string) (xs : list R) : R :=
  match xs with
  | [] => r_str ""
  | [x] => x
  | x :: xs' => x ⊕ (r_str sep ⊕ r_seps sep xs')
  end.
Definition r_paren (b : bool) (x : R) : R :=
  if b then r_str "(" ⊕ x ⊕ r_str ")" else x.
Definition quoted (q : char) (name : string) : string := String q (name +:+ String q "").
Definition r_alias (q : char) (alias : string) : R :=
  r_str (if decide (alias = "") then "" else " AS " +:+ quoted q alias).

Definition render_column (q : char) (md : Model) (c : Column) : R :=
  let 'mkColumn table name alias := c in
  match table with
  | TRNil =>
      match field_named md name with
      | Some fd => r_str (quoted q (ColName fd)) ⊕ r_alias q alias
      | None => r_err (ErrUnknownField name)
      end
  | TRTable t =>
      m ← (Get (t_entity t) : GM registry orm_error Model);
      match field_named m name with
      | Some fd =>
          r_str ((if decide (t_alias t = "") then "" else quoted q (t_alias t) +:+ ".")
                   +:+ quoted q (ColName fd)) ⊕ r_alias q alias
      | None => r_err (ErrUnknownField name)
      end
  | _ => r_err ErrUnsupportedTableReference
  end.

Fixpoint render_expr (q : char) (md : Model) (e : Expression) : R :=
  match e with
  | ENil => r_str ""
  | EPredicate (mkPredicate l op r) =>
      r_paren (is_predicate l) (render_expr q md l)
      ⊕ r_str (if decide (op = "") then "" else " " +:+ op +:+ " ")
      ⊕ r_paren (is_predicate r) (render_expr q md r)
  | EColumn c => render_column q md (Column_As c "")
  | ERaw (mkRaw raw args) => r_str "(" ⊕ (r_str raw ⊕ r_args args) ⊕ r_str ")"
  | EValue v => r_str "?" ⊕ r_args [v]
  | EOther _ => r_err ErrUnsupportedExpression
  end.

(** The conjunction of a list of predicates, to the left. *)
Definition conj_of (p0 : Predicate) (ps : list Predicate) : Predicate := foldl And p0 ps.
Definition render_clause (q : char) (md : Model) (kw : string) (ps : list Predicate) : R :=
  match ps with
  | [] => r_str ""
  | p0 :: ps' => r_str kw ⊕ render_expr q md (EPredicate (conj_of p0 ps'))
  end.

Fixpoint render_table (q : char) (md : Model) (t : TableReference) : R :=
  match t with
  | TRNil => r_str (quoted q (TableName md))
  | TRTable t =>
      m ← (Get (t_entity t) : GM registry orm_error Model);
      r_str (quoted q (TableName m)) ⊕ r_alias q (t_alias t)
  | TRJoin (mkJoin l r typ on using_) =>
      r_str "(" ⊕ render_table q md l ⊕ r_str (" " +:+ typ +:+ " ") ⊕ render_table q md r
      ⊕ (match using_ with
         | [] => r_str ""
         | _ => r_str " USING (" ⊕ r_seps "," (render_column q md ∘ C <$> using_) ⊕ r_str ")"
         end)
      ⊕ render_clause q md " ON " on
      ⊕ r_str ")"
  | TROther _ => r_err ErrUnsupportedTableReference
  end.

Definition render_selectable (q : char) (md : Model) (col : Selectable) : R :=
  match col with
  | SelColumn c => render_column q md c
  | SelAggregate a =>
      r_str (fn a) ⊕ r_str "(" ⊕ render_column q md (C (arg a)) ⊕ r_str ")"
      ⊕ r_str (if decide (a_alias a = "") then "" else " AS `" +:+ a_alias a +:+ "`")
  | SelRaw (mkRaw raw args) => r_str raw ⊕ r_args args
  end.
Definition render_columns (q : char) (md : Model) (cols : list Selectable) : R :=
  match cols with
  | [] => r_str "*"
  | _ => r_seps "," (render_selectable q md <$> cols)
  end.

Definition render_select (q : char) (md : Model) (s : Selector) : R :=
  r_str "SELECT " ⊕ render_columns q md (columns s) ⊕ r_str " FROM "
  ⊕ render_table q md (table s) ⊕ render_clause q md " WHERE " (where_ s) ⊕ r_str ";".

(** ** The builder implements the renderer *)

Definition emit (f : frag) (r : registry) (b : builder) : builder :=
  mkBuilder (sb b +:+ f.1) (args b ++ f.2) (model b) (quoter b) r.

Definition implements_at (m : B unit) (x : R) (b : builder) : Prop :=
  match x (b_r b) with
  | Ok (r', inr f) => m b = Ok (emit f r' b, inr tt)
  | Ok (r', inl err) => exists b', m b = Ok (b', inl err) /\ b_r b' = r' /\ model b' = model b
  | Panic p => m b = Panic p
  end.
(** For every builder with this quoter and this model. *)
Definition implements (q : char) (md : Model) (m : B unit) (x : R) : Prop :=
  forall b, quoter b = q -> model b = Some md -> implements_at m x b.

Lemma emit_nil r b : r = b_r b -> emit ("", []) r b = b.
Proof. intros ->. unfold emit; simpl. rewrite string_app_nil_r, app_nil_r. by destruct b. Qed.
Lemma emit_emit f g r r' b :
  emit g r' (emit f r b) = emit (f.1 +:+ g.1, f.2 ++ g.2) r' b.
Proof. unfold emit; simpl. by rewrite string_app_assoc, app_assoc. Qed.

Section implements.
Context (q : char) (md : Model).

Lemma impl_ret s : s = "" -> implements q md (mret tt) (r_str s).
Proof. intros -> b _ _. unfold implements_at; simpl. by rewrite emit_nil. Qed.
Lemma impl_str s : implements q md (writeString s) (r_str s).
Proof.
  intros b _ _. unfold implements_at, writeString, gm_modify, emit; simpl.
  by rewrite app_nil_r.
Qed.
Lemma impl_byte c : implements q md (writeByte c) (r_str (String c "")).
Proof. apply impl_str. Qed.
Lemma impl_args vs : implements q md (addArgs vs) (r_args vs).
Proof.
  intros b _ _. unfold implements_at, addArgs, gm_modify, emit; simpl.
  by rewrite string_app_nil_r.
Qed.
Lemma impl_err e : implements q md (gm_err e) (r_err e).
Proof. intros b _ _. unfold implements_at; simpl. eauto. Qed.

Lemma impl_seq m1 x1 m2 x2 :
  implements q md m1 x1 -> implements q md m2 x2 ->
  implements q md (m1 ;; m2) (x1 ⊕ x2).
Proof.
  intros H1 H2 b Hq Hm. specialize (H1 b Hq Hm). unfold implements_at, r_seq in *.
  rewrite !GM_bind_eq. destruct (x1 (b_r b)) as [[r1 [e|f]]|p]; simpl.
  - destruct H1 as (b' & -> & ?). eauto.
  - rewrite H1, GM_bind_eq. assert (model (emit f r1 b) = Some md) as Hm' by done.
    specialize (H2 (emit f r1 b) Hq Hm'). unfold implements_at in H2. simpl in H2.
    destruct (x2 r1) as [[r2 [e|g]]|p]; simpl.
    + destruct H2 as (b' & ? & ? & ?). exists b'. split_and!; [done|done|]. congruence.
    + rewrite H2. by rewrite emit_emit.
    + done.
  - by rewrite H1.
Qed.

(** Equal renderings and equal monadic programs can be exchanged. *)
Lemma impl_eq_r m x y : (forall r, x r = y r) -> implements q md m x -> implements q md m y.
Proof. intros E H b Hq Hm. unfold implements_at. rewrite <-E. by apply H. Qed.
Lemma impl_eq_l m n x : (forall b, m b = n b) -> implements q md m x -> implements q md n x.
Proof. intros E H b Hq Hm. specialize (H b Hq Hm). unfold implements_at in *. by rewrite <-E. Qed.
End implements.

Lemma r_seq_eq x y r :
  (x ⊕ y) r = match x r with
              | Ok (r1, inr a) =>
                  match y r1 with
                  | Ok (r2, inr b) => Ok (r2, inr (a.1 +:+ b.1, a.2 ++ b.2))
                  | Ok (r2, inl e) => Ok (r2, inl e)
                  | Panic p => Panic p
                  end
              | Ok (r1, inl e) => Ok (r1, inl e)
              | Panic p => Panic p
              end.
Proof.
  unfold r_seq. rewrite GM_bind_eq. by destruct (x r) as [[r1 [e|a]]|p].
Qed.
Lemma r_seq_inv x y r r2 f :
  (x ⊕ y) r = Ok (r2, inr f) ->
  exists r1 a b, x r = Ok (r1, inr a) /\ y r1 = Ok (r2, inr b).
Proof.
  rewrite r_seq_eq. destruct (x r) as [[r1 [e|a]]|p]; try done.
  destruct (y r1) as [[r2' [e|b]]|p] eqn:E; try done. intros [= <- <-]. eauto 10.
Qed.
Lemma r_seq_assoc x y z r : ((x ⊕ y) ⊕ z) r = (x ⊕ (y ⊕ z)) r.
Proof.
  rewrite !r_seq_eq. destruct (x r) as [[r1 [e|a]]|p]; try done.
  rewrite r_seq_eq. destruct (y r1) as [[r2 [e|b]]|p]; try done.
  destruct (z r2) as [[r3 [e|c]]|p]; try done. simpl. by rewrite string_app_assoc, app_assoc.
Qed.
Lemma r_str_app s t r : (r_str s ⊕ r_str t) r = r_str (s +:+ t) r.
Proof. by rewrite r_seq_eq. Qed.
Lemma r_seq_nil_l x r : (r_str "" ⊕ x) r = x r.
Proof. rewrite r_seq_eq; simpl. by destruct (x r) as [[r1 [e|[a b]]]|p]. Qed.
Lemma r_seq_nil_r x r : (x ⊕ r_str "") r = x r.
Proof.
  rewrite r_seq_eq; simpl. destruct (x r) as [[r1 [e|[a b]]]|p]; try done. simpl.
  by rewrite string_app_nil_r, app_nil_r.
Qed.
Lemma r_seq_proper x x' y y' r :
  (forall r, x r = x' r) -> (forall r, y r = y' r) -> (x ⊕ y) r = (x' ⊕ y') r.
Proof.
  intros Hx Hy. rewrite !r_seq_eq, Hx. destruct (x' r) as [[r1 [e|a]]|p]; try done. by rewrite Hy.
Qed.

(** ** Each operation of the builder *)

Section operations.
Context (q : char) (md : Model).
Abbreviation impl := (implements q md).

Lemma impl_app m1 s1 m2 s2 :
  impl m1 (r_str s1) -> impl m2 (r_str s2) -> impl (m1 ;; m2) (r_str (s1 +:+ s2)).
Proof.
  intros H1 H2. eapply impl_eq_r; [|by apply impl_seq]. intros r. by rewrite r_str_app.
Qed.
Lemma impl_quote name : impl (quote name) (r_str (quoted q name)).
Proof.
  intros b Hq Hm. unfold implements_at. simpl. unfold quote. rewrite Hq.
  change (quoted q name) with (String q "" +:+ (name +:+ String q "")).
  exact (impl_app _ _ _ _ (impl_byte q md q)
    (impl_app _ _ _ _ (impl_str q md name) (impl_byte q md q)) b Hq Hm).
Qed.
Lemma impl_alias alias : impl (buildAlias alias) (r_alias q alias).
Proof.
  unfold buildAlias, r_alias. case_decide; [by apply impl_ret|].
  apply impl_app; [apply impl_str|apply impl_quote].
Qed.
Lemma impl_write_if b c : impl (write_if b c) (r_str (if b then String c "" else "")).
Proof. destruct b; [apply impl_byte|by apply impl_ret]. Qed.
Lemma impl_paren b m x rest y :
  impl m x -> impl rest y ->
  impl (write_if b "("%char ;; m ;; write_if b ")"%char ;; rest) (r_paren b x ⊕ y).
Proof.
  intros Hm Hr.
  eapply impl_eq_r; [|apply impl_seq; [apply impl_write_if|apply impl_seq; [exact Hm|
    apply impl_seq; [apply impl_write_if|exact Hr]]]].
  intros r. unfold r_paren. destruct b.
  - rewrite !r_seq_assoc. apply r_seq_proper; [done|]. intros r1.
    apply r_seq_assoc || (rewrite r_seq_assoc; done).
  - rewrite r_seq_nil_l. apply r_seq_proper; [done|]. apply r_seq_nil_l.
Qed.

Lemma impl_paren_last b m x :
  impl m x -> impl (write_if b "("%char ;; m ;; write_if b ")"%char) (r_paren b x).
Proof.
  intros Hm. destruct b; cbn [write_if r_paren].
  - apply impl_seq; [apply impl_byte|]. apply impl_seq; [exact Hm|apply impl_byte].
  - apply (impl_eq_r q md _ (r_str "" ⊕ x ⊕ r_str "")).
    + intros r. rewrite r_seq_nil_l, r_seq_nil_r. done.
    + repeat (apply impl_seq; try done); by apply impl_ret.
Qed.

Lemma impl_model (k : Model -> B unit) x : impl (k md) x -> impl (m ← the_model; k m) x.
Proof.
  intros H b Hq Hm. unfold implements_at.
  assert ((m ← the_model; k m) b = k md b) as ->
    by (rewrite GM_bind_eq; unfold the_model; by rewrite Hm).
  exact (H b Hq Hm).
Qed.
Lemma impl_field m name (k : Field -> B unit) (x : Field -> R) :
  (forall fd, impl (k fd) (x fd)) ->
  impl (fd ← fieldOf m name; k fd)
    (match field_named m name with Some fd => x fd | None => r_err (ErrUnknownField name) end).
Proof.
  intros H b Hq Hm. unfold implements_at. rewrite GM_bind_eq. unfold fieldOf.
  destruct (field_named m name) as [fd|]; [by apply H|]. simpl. eauto.
Qed.
Lemma impl_Get e (k : Model -> B unit) (x : Model -> R) :
  (forall m, impl (k m) (x m)) ->
  impl (m ← r_Get e; k m) (m ← (Get e : GM registry orm_error Model); x m).
Proof.
  intros H b Hq Hm. unfold implements_at. rewrite !GM_bind_eq. unfold r_Get.
  destruct (Get e (b_r b)) as [[r1 [err|m]]|p]; simpl; [by eauto| |done].
  exact (H m (mkBuilder (sb b) (args b) (model b) (quoter b) r1) Hq Hm).
Qed.

Lemma impl_column c : impl (buildColumn c) (render_column q md c).
Proof.
  destruct c as [[|t|j|o] name alias]; cbn [buildColumn render_column].
  - apply impl_model, impl_field. intros fd. apply impl_seq; [apply impl_quote|apply impl_alias].
  - apply impl_Get. intros m. apply impl_field. intros fd.
    eapply impl_eq_r; [|apply impl_seq; [|apply impl_seq; [apply impl_quote|apply impl_alias]]].
    + intros r. rewrite <-r_seq_assoc. apply r_seq_proper; [|done]. apply r_str_app.
    + case_decide; [by apply impl_ret|]. apply impl_app; [apply impl_quote|apply impl_byte].
  - apply impl_err.
  - apply impl_err.
Qed.

Lemma impl_spaced op :
  impl (writeByte " "%char ;; writeString op ;; writeByte " "%char) (r_str (" " +:+ op +:+ " ")).
Proof. apply impl_app; [apply impl_byte|]. apply impl_app; [apply impl_str|apply impl_byte]. Qed.

Lemma impl_expr : forall e, impl (buildExpression e) (render_expr q md e).
Proof.
  fix IH 1. intros [|[l op r]|c|[raw vs]|v|o]; cbn [buildExpression render_expr].
  - by apply impl_ret.
  - apply impl_paren; [apply IH|]. apply impl_seq.
    + case_decide; [by apply impl_ret|apply impl_spaced].
    + apply impl_paren_last, IH.
  - apply impl_column.
  - apply impl_seq; [apply impl_byte|].
    eapply impl_eq_r; [intros r; symmetry; apply r_seq_assoc|].
    apply impl_seq; [apply impl_str|]. apply impl_seq; [apply impl_args|apply impl_byte].
  - apply impl_seq; [apply impl_byte|apply impl_args].
  - apply impl_err.
Qed.

Lemma impl_comma {A} (body : A -> B unit) (x : A -> R) xs :
  (forall a, a ∈ xs -> impl (body a) (x a)) ->
  forall first,
  impl (commaLoop body first xs)
    (r_str (if negb first then (match xs with [] => "" | _ => "," end) else "")
     ⊕ r_seps "," (x <$> xs)).
Proof.
  induction xs as [|a xs IH]; intros Hb first; cbn [commaLoop fmap list_fmap].
  - eapply impl_eq_r; [intros r; symmetry; apply r_str_app|].
    destruct first; by apply impl_ret.
  - apply impl_seq; [destruct first; [by apply impl_ret|apply impl_byte]|].
    destruct xs as [|a' xs].
    + cbn [commaLoop fmap list_fmap r_seps]. eapply impl_eq_r; [apply r_seq_nil_r|].
      apply impl_seq; [apply Hb; constructor|by apply impl_ret].
    + apply impl_seq; [apply Hb; constructor|]. apply IH. intros c Hc. apply Hb. by constructor.
Qed.
Lemma impl_loop {A} (body : A -> B unit) (x : A -> R) xs :
  (forall a, a ∈ xs -> impl (body a) (x a)) ->
  impl (commaLoop body true xs) (r_seps "," (x <$> xs)).
Proof. intros H. eapply impl_eq_r; [|by apply impl_comma]. intros r. apply r_seq_nil_l. Qed.

Lemma impl_selectable col : impl (buildSelectable col) (render_selectable q md col).
Proof.
  destruct col as [c|a|[raw vs]]; cbn [buildSelectable render_selectable].
  - apply impl_column.
  - apply impl_seq; [apply impl_str|]. apply impl_seq; [apply impl_byte|].
    eapply impl_eq_r; [intros r; apply r_seq_assoc|].
    apply impl_seq.
    + intros b Hq Hm. pose proof (impl_column (C (arg a)) b Hq Hm) as H.
      unfold implements_at, deferErr in *. rewrite r_seq_eq.
      destruct (render_column q md (C (arg a)) (b_r b)) as [[r' [e|f]]|p].
      * destruct H as (b' & -> & ? & ?). simpl. eauto.
      * rewrite H. simpl. unfold emit; simpl. by rewrite string_app_assoc, !app_nil_r.
      * by rewrite H.
    + case_decide; [by apply impl_ret|].
      apply impl_app; [apply impl_str|]. apply impl_app; [apply impl_str|apply impl_byte].
  - apply impl_seq; [apply impl_str|apply impl_args].
Qed.

Lemma impl_columns cols : impl (buildColumns cols) (render_columns q md cols).
Proof.
  destruct cols as [|col cols]; [apply impl_byte|].
  cbn [buildColumns render_columns]. apply impl_loop. intros c _. apply impl_selectable.
Qed.

Lemma impl_lift p p' (k : Predicate -> B unit) x :
  p = Ok p' -> impl (k p') x -> impl (p0 ← gm_lift p; k p0) x.
Proof. intros ->. done. Qed.
End operations.

Lemma andLoop_conj ps : forall i n p,
  length ps = i + n -> andLoop ps i n p = Ok (conj_of p (drop i ps)).
Proof.
  intros i n. revert i. induction n as [|n IH]; intros i p Hl; cbn [andLoop].
  - by rewrite drop_ge by lia.
  - destruct (lookup_lt_is_Some_2 ps i ltac:(lia)) as [x Hx].
    unfold index_at. rewrite Hx. cbn [go_of_option]. rewrite go_bind_Ok.
    rewrite IH by lia. by rewrite (drop_S _ _ _ Hx).
Qed.
Lemma andLoop_all p0 ps : andLoop (p0 :: ps) 1 (length (p0 :: ps) - 1) p0 = Ok (conj_of p0 ps).
Proof. rewrite andLoop_conj by (simpl; lia). done. Qed.

(** The loop over [on] counts to [len(s.where)]: it reads the right number of
    predicates when every join's [on] is empty, or has as many as [where], or
    has one and [where] none. *)
Fixpoint joins_ok (nwhere : nat) (t : TableReference) : Prop :=
  match t with
  | TRJoin (mkJoin l r _ on _) =>
      joins_ok nwhere l /\ joins_ok nwhere r /\ (on = [] \/ length on - 1 = nwhere - 1)
  | _ => True
  end.

Lemma impl_table q md nw : forall t,
  joins_ok nw t -> implements q md (buildTable nw t) (render_table q md t).
Proof.
  fix IH 1. intros [|t|[l r typ on using_]|o]; cbn [buildTable render_table joins_ok].
  - intros _. apply impl_model, impl_quote.
  - intros _. apply impl_Get. intros m. apply impl_seq; [apply impl_quote|apply impl_alias].
  - intros (Hl & Hr & Hon). apply impl_seq; [apply impl_byte|].
    apply impl_seq; [by apply IH|].
    apply (impl_eq_l q md (
      (writeByte " "%char ;; writeString typ ;; writeByte " "%char) ;;
      buildTable nw r ;;
      (match using_ with
       | [] => mret tt
       | _ => writeString " USING (" ;; commaLoop (buildColumn ∘ C) true using_ ;; writeByte ")"%char
       end) ;;
      (match on with
       | [] => mret tt
       | p0 :: _ =>
           writeString " ON " ;;
           p ← gm_lift (andLoop on 1 (nw - 1) p0);
           buildExpression (EPredicate p)
       end) ;;
      writeByte ")"%char)); [done|].
    apply impl_seq; [apply impl_spaced|].
    apply impl_seq; [by apply IH|].
    apply impl_seq.
    { destruct using_ as [|u us]; [by apply impl_ret|].
      apply impl_seq; [apply impl_str|]. apply impl_seq; [|apply impl_byte].
      apply impl_loop. intros c _. apply impl_column. }
    apply impl_seq; [|apply impl_byte].
    destruct on as [|p0 ps]; [by apply impl_ret|].
    apply impl_seq; [apply impl_str|]. eapply impl_lift; [|apply impl_expr].
    destruct Hon as [Hon|<-]; [done|]. apply andLoop_all.
  - intros _. apply impl_err.
Qed.

Lemma impl_where q md ps : implements q md (buildWhere ps) (render_clause q md " WHERE " ps).
Proof.
  destruct ps as [|p0 ps]; cbn [buildWhere render_clause]; [by apply impl_ret|].
  apply impl_seq; [apply impl_str|]. eapply impl_lift; [apply andLoop_all|apply impl_expr].
Qed.

(** The text of a build, with the model at hand. *)
Definition build_text (s : Selector) : B unit :=
  writeString "SELECT " ;;
  buildColumns (columns s) ;;
  writeString " FROM " ;;
  buildTable (length (where_ s)) (table s) ;;
  buildWhere (where_ s) ;;
  writeByte ";"%char.

Lemma impl_text q md s :
  joins_ok (length (where_ s)) (table s) -> implements q md (build_text s) (render_select q md s).
Proof.
  intros Hj. unfold build_text, render_select.
  apply impl_seq; [apply impl_str|]. apply impl_seq; [apply impl_columns|].
  apply impl_seq; [apply impl_str|]. apply impl_seq; [by apply impl_table|].
  apply impl_seq; [apply impl_where|apply impl_byte].
Qed.

Lemma Selector_Build_eq s b :
  Selector_Build s b =
  (ensure_model (s_T s) ;; build_text s ;; b ← gm_get; mret (mkQuery (sb b) (args b))) b.
Proof.
  unfold Selector_Build, build_text. rewrite !GM_bind_eq.
  destruct (ensure_model (s_T s) b) as [[b1 [e|[]]]|p]; try done.
  repeat (rewrite GM_bind_assoc, !GM_bind_eq;
    match goal with |- context [match ?m ?b' with Ok _ => _ | Panic _ => _ end] =>
      destruct (m b') as [[? [?|[]]]|]; try done end).
Qed.

(** What a caller of [Build] sees: the registry, and an error or a query. *)
Definition outcome (x : go (builder * (orm_error + Query))) : go (registry * (orm_error + frag)) :=
  match x with
  | Ok (b, inr qy) => Ok (b_r b, inr (SQL qy, Args qy))
  | Ok (b, inl err) => Ok (b_r b, inl err)
  | Panic p => Panic p
  end.

(** [Build] on a builder that knows its model appends the rendering to what the
    builder already holds, and returns everything it holds. *)
Lemma Selector_Build_append s b md :
  model b = Some md -> joins_ok (length (where_ s)) (table s) ->
  match render_select (quoter b) md s (b_r b) with
  | Ok (r', inr f) =>
      Selector_Build s b =
        Ok (emit f r' b, inr (mkQuery (sb b +:+ f.1) (args b ++ f.2)))
  | Ok (r', inl err) => exists b', Selector_Build s b = Ok (b', inl err) /\ b_r b' = r'
  | Panic p => Selector_Build s b = Panic p
  end.
Proof.
  intros Hm Hj. pose proof (impl_text (quoter b) md s Hj b eq_refl Hm) as H.
  unfold implements_at in H. rewrite Selector_Build_eq, GM_bind_eq.
  unfold ensure_model. rewrite Hm. rewrite GM_bind_eq.
  destruct (render_select _ md s _) as [[r' [e|f]]|p].
  - destruct H as (b' & -> & ? & _). eauto.
  - by rewrite H.
  - by rewrite H.
Qed.

(** C1. The SELECT builder implements the renderer: for every selector whose
    [ON] loops read the right number of predicates, [Build] on a fresh builder
    returns exactly the rendered text and arguments, or the rendering's error,
    or panics when it does, and leaves the registry the rendering leaves. *)
Theorem Selector_Build_refines s q r :
  joins_ok (length (where_ s)) (table s) ->
  outcome (Selector_Build s (new_builder q r)) =
  (m ← (Get (s_T s) : GM registry orm_error Model); render_select q m s) r.
Proof.
  intros Hj. rewrite GM_bind_eq.
  assert (Selector_Build s (new_builder q r) =
    match Get (s_T s) r with
    | Ok (r1, inr m) => Selector_Build s (mkBuilder "" [] (Some m) q r1)
    | Ok (r1, inl e) => Ok (new_builder q r1, inl e)
    | Panic p => Panic p
    end) as ->.
  { rewrite Selector_Build_eq, GM_bind_eq. unfold ensure_model, new_builder, r_Get; simpl.
    destruct (Get (s_T s) r) as [[r1 [e|m]]|p]; simpl; try done.
    by rewrite Selector_Build_eq. }
  destruct (Get (s_T s) r) as [[r1 [e|m]]|p]; try done.
  pose proof (Selector_Build_append s (mkBuilder "" [] (Some m) q r1) m eq_refl Hj) as H.
  simpl in H. destruct (render_select q m s r1) as [[r2 [e|[t a]]]|p].
  - by destruct H as (b' & -> & <-).
  - by rewrite H.
  - by rewrite H.
Qed.

(** * Properties of the rendering *)

(** Replacing the bound values of a tree. *)
Definition vmap_raw (f : any -> any) (x : RawExpr) : RawExpr :=
  let 'mkRaw raw args := x in mkRaw raw (f <$> args).
Fixpoint vmap_expr (f : any -> any) (e : Expression) : Expression :=
  match e with
  | EPredicate (mkPredicate l op r) =>
      EPredicate (mkPredicate (vmap_expr f l) op (vmap_expr f r))
  | ERaw x => ERaw (vmap_raw f x)
  | EValue v => EValue (f v)
  | _ => e
  end.
Definition vmap_pred (f : any -> any) (p : Predicate) : Predicate :=
  let 'mkPredicate l op r := p in mkPredicate (vmap_expr f l) op (vmap_expr f r).
Fixpoint vmap_table (f : any -> any) (t : TableReference) : TableReference :=
  match t with
  | TRJoin (mkJoin l r typ on using_) =>
      TRJoin (mkJoin (vmap_table f l) (vmap_table f r) typ (vmap_pred f <$> on) using_)
  | _ => t
  end.
Definition vmap_selectable (f : any -> any) (c : Selectable) : Selectable :=
  match c with SelRaw x => SelRaw (vmap_raw f x) | _ => c end.
Definition vmap_selector (f : any -> any) (s : Selector) : Selector :=
  mkSelector (s_T s) (vmap_table f (table s)) (vmap_pred f <$> where_ s)
    (vmap_selectable f <$> columns s).

(** The text parts of a tree satisfy [okstr], its raw expressions [okraw], and
    the models of its entities [okmodel]. *)
Section tree_ok.
Context (okstr : string -> Prop) (okraw : RawExpr -> Prop) (okent : entity -> Prop).

Definition column_ok (c : Column) : Prop :=
  let 'mkColumn table _ alias := c in
  okstr alias /\ match table with TRTable t => okent (t_entity t) /\ okstr (t_alias t) | _ => True end.
Fixpoint expr_ok (e : Expression) : Prop :=
  match e with
  | EPredicate (mkPredicate l op r) => expr_ok l /\ okstr op /\ expr_ok r
  | EColumn c => column_ok c
  | ERaw x => okraw x
  | _ => True
  end.
Definition pred_ok (p : Predicate) : Prop := expr_ok (EPredicate p).
Fixpoint table_ok (t : TableReference) : Prop :=
  match t with
  | TRTable t => okent (t_entity t) /\ okstr (t_alias t)
  | TRJoin (mkJoin l r typ on _) =>
      table_ok l /\ table_ok r /\ okstr typ /\ Forall pred_ok on
  | _ => True
  end.
Definition selectable_ok (c : Selectable) : Prop :=
  match c with
  | SelColumn c => column_ok c
  | SelAggregate a => okstr (fn a) /\ okstr (a_alias a)
  | SelRaw x => okraw x
  end.
Definition selector_ok (s : Selector) : Prop :=
  okent (s_T s) /\ table_ok (table s) /\ Forall pred_ok (where_ s) /\
  Forall selectable_ok (columns s).
End tree_ok.

(** The fixed pieces of text. *)
Definition literals : list string :=
  [""; "("; ")"; ","; "*"; ";"; "."; " "; "`"; " AS "; " AS `"; " USING ("; " ON "; " WHERE ";
   "SELECT "; " FROM "; "AND"].

(** What is closed under the constructions of the renderer holds of the
    rendering of a tree and of the rendering with its values replaced. *)
Section parametric.
Context (okstr : string -> Prop) (okraw : RawExpr -> Prop) (okent : entity -> Prop).
Context (okmodel : Model -> Prop) (f : any -> any) (P : R -> R -> Prop) (q : char).
Context (Hlit : Forall okstr literals) (Hq : okstr (String q "")).
Context (Happ : forall s t, okstr s -> okstr t -> okstr (s +:+ t)).
Context (Hstr : forall s, okstr s -> P (r_str s) (r_str s)).
Context (Herr : forall e, P (r_err e) (r_err e)).
Context (Hval : forall v, P (r_str "?" ⊕ r_args [v]) (r_str "?" ⊕ r_args [f v])).
Context (Hraw : forall raw args, okraw (mkRaw raw args) ->
  P (r_str raw ⊕ r_args args) (r_str raw ⊕ r_args (f <$> args))).
Context (Hseq : forall x x' y y', P x x' -> P y y' -> P (x ⊕ y) (x' ⊕ y')).
Context (Hget : forall e (x x' : Model -> R), okent e ->
  (forall m, okmodel m -> P (x m) (x' m)) ->
  P (m ← (Get e : GM registry orm_error Model); x m) (m ← (Get e : GM registry orm_error Model); x' m)).
Context (Hmodel : forall m, okmodel m ->
  okstr (TableName m) /\ forall n fd, field_named m n = Some fd -> okstr (ColName fd)).

Abbreviation cok := (column_ok okstr okent).
Abbreviation eok := (expr_ok okstr okraw okent).
Abbreviation pok := (pred_ok okstr okraw okent).
Abbreviation tok := (table_ok okstr okraw okent).

Lemma lit_ok s : s ∈ literals -> okstr s.
Proof. rewrite Forall_forall in Hlit. auto. Qed.
Local Ltac lit := apply lit_ok; go_decide.

Lemma quoted_ok name : okstr name -> okstr (quoted q name).
Proof. intros H. change (okstr (String q "" +:+ (name +:+ String q ""))). auto. Qed.
Lemma par_alias alias : okstr alias -> P (r_alias q alias) (r_alias q alias).
Proof.
  intros H. apply Hstr. case_decide; [lit|]. apply Happ; [lit|by apply quoted_ok].
Qed.
Lemma par_column md c : okmodel md -> cok c -> P (render_column q md c) (render_column q md c).
Proof.
  intros Hmd. destruct c as [[|t|j|o] name alias]; simpl; intros [Ha Ht]; auto.
  - destruct (field_named md name) as [fd|] eqn:Hf; [|auto]. apply Hseq; [|by apply par_alias].
    apply Hstr, quoted_ok. by eapply Hmodel.
  - destruct Ht as [He Hta]. apply Hget; [done|]. intros m Hm. destruct (field_named m name) as [fd|] eqn:Hf; [|auto].
    apply Hseq; [|by apply par_alias]. apply Hstr, Happ.
    + case_decide; [lit|]. apply Happ; [by apply quoted_ok|lit].
    + apply quoted_ok. by eapply Hmodel.
Qed.
Lemma par_paren b x x' : P x x' -> P (r_paren b x) (r_paren b x').
Proof.
  intros H. destruct b; simpl; [|done].
  apply Hseq; [apply Hstr; lit|]. apply Hseq; [done|apply Hstr; lit].
Qed.
Lemma is_predicate_vmap e : is_predicate (vmap_expr f e) = is_predicate e.
Proof. by destruct e as [|[]|?|[]|?|?]. Qed.

Lemma par_expr md : okmodel md -> forall e, eok e ->
  P (render_expr q md e) (render_expr q md (vmap_expr f e)).
Proof.
  intros Hmd. fix IH 1. intros [|[l op r]|c|[raw vs]|v|o];
    cbn [expr_ok vmap_expr render_expr vmap_raw]; intros Hok.
  - apply Hstr; lit.
  - destruct Hok as (Hl & Hop & Hr). rewrite !is_predicate_vmap.
    apply Hseq; [by apply par_paren, IH|]. apply Hseq; [|by apply par_paren, IH].
    apply Hstr. case_decide; [lit|]. apply Happ; [lit|]. apply Happ; [done|lit].
  - apply par_column; [done|]. destruct c as [t n a]. simpl in *. split; [lit|tauto].
  - apply Hseq; [apply Hstr; lit|]. apply Hseq; [by apply Hraw|apply Hstr; lit].
  - apply Hval.
  - apply Herr.
Qed.

Lemma conj_of_ok ps : forall p0, pok p0 -> Forall pok ps -> pok (conj_of p0 ps).
Proof.
  induction ps as [|p ps IH]; intros p0 H0 Hps; [done|].
  inversion_clear Hps as [|? ? Hp Hps']. simpl. apply IH; [|done].
  split_and!; [done|lit|done].
Qed.
Lemma conj_of_vmap ps : forall p0,
  vmap_pred f (conj_of p0 ps) = conj_of (vmap_pred f p0) (vmap_pred f <$> ps).
Proof.
  induction ps as [|p ps IH]; intros p0; [done|]. simpl. rewrite IH. f_equal.
  by destruct p0, p.
Qed.
Lemma par_clause md kw ps : okmodel md -> okstr kw -> Forall pok ps ->
  P (render_clause q md kw ps) (render_clause q md kw (vmap_pred f <$> ps)).
Proof.
  intros Hmd Hkw Hps. destruct Hps as [|p0 ps H0 Hps]; simpl; [apply Hstr; lit|].
  apply Hseq; [by apply Hstr|]. rewrite <-conj_of_vmap.
  pose proof (par_expr md Hmd _ (conj_of_ok ps p0 H0 Hps)) as H.
  destruct (conj_of p0 ps). exact H.
Qed.
Lemma par_seps {A} (g g' : A -> R) (h : A -> A) xs :
  (forall x, x ∈ xs -> P (g x) (g' (h x))) -> P (r_seps "," (g <$> xs)) (r_seps "," (g' <$> (h <$> xs))).
Proof.
  intros H. induction xs as [|x [|y xs] IH]; simpl.
  - apply Hstr; lit.
  - apply H. constructor.
  - apply Hseq; [apply H; constructor|]. apply Hseq; [apply Hstr; lit|].
    apply IH. intros z Hz. apply H. by constructor.
Qed.

Lemma par_table md : okmodel md -> forall t, tok t ->
  P (render_table q md t) (render_table q md (vmap_table f t)).
Proof.
  intros Hmd. fix IH 1. intros [|t|[l r typ on us]|o]; cbn [table_ok vmap_table render_table].
  - intros _. apply Hstr, quoted_ok. by apply Hmodel.
  - intros [He Ha]. apply Hget; [done|]. intros m Hm.
    apply Hseq; [|by apply par_alias]. apply Hstr, quoted_ok. by apply Hmodel.
  - intros (Hl & Hr & Ht & Hon).
    apply Hseq; [apply Hstr; lit|]. apply Hseq; [by apply IH|].
    apply Hseq; [apply Hstr, Happ; [lit|apply Happ; [done|lit]]|].
    apply Hseq; [by apply IH|]. apply Hseq.
    { destruct us as [|u us]; [apply Hstr; lit|]. apply Hseq; [apply Hstr; lit|].
      apply Hseq; [|apply Hstr; lit].
      rewrite <-(list_fmap_id (u :: us)) at 2. apply par_seps.
      intros c _. apply par_column; [done|]. simpl. split; [lit|done]. }
    apply Hseq; [|apply Hstr; lit]. apply par_clause; [done|lit|done].
  - auto.
Qed.

Lemma par_select md s : okmodel md -> selector_ok okstr okraw okent s ->
  P (render_select q md s) (render_select q md (vmap_selector f s)).
Proof.
  intros Hmd (HT & Ht & Hw & Hc). unfold render_select.
  apply Hseq; [apply Hstr; lit|]. apply Hseq.
  { cbn [columns vmap_selector]. rewrite Forall_forall in Hc. unfold render_columns.
    destruct (columns s) as [|c cs]; [apply Hstr; lit|].
    change (vmap_selectable f <$> c :: cs)
      with (vmap_selectable f c :: (vmap_selectable f <$> cs)). cbn iota.
    change (vmap_selectable f c :: (vmap_selectable f <$> cs))
      with (vmap_selectable f <$> c :: cs).
    apply par_seps. intros x Hx%Hc.
    destruct x as [x|a|[raw vs]]; cbn [vmap_selectable vmap_raw render_selectable] in *.
    - by apply par_column.
    - destruct Hx as [Hf Ha]. apply Hseq; [by apply Hstr|]. apply Hseq; [apply Hstr; lit|].
      apply Hseq; [apply par_column; [done|]; simpl; split; [lit|done]|].
      apply Hseq; [apply Hstr; lit|]. apply Hstr. case_decide; [lit|].
      apply Happ; [lit|]. apply Happ; [done|lit].
    - by apply Hraw. }
  apply Hseq; [apply Hstr; lit|]. apply Hseq; [by apply par_table|].
  apply Hseq; [|apply Hstr; lit]. apply par_clause; [done|lit|done].
Qed.

Lemma par_build s : selector_ok okstr okraw okent s ->
  P (m ← (Get (s_T s) : GM registry orm_error Model); render_select q m s)
    (m ← (Get (s_T s) : GM registry orm_error Model); render_select q m (vmap_selector f s)).
Proof. intros Hs. apply Hget; [apply Hs|]. intros m Hm. by apply par_select. Qed.
End parametric.

Lemma tree_ok_all (okstr : string -> Prop) (okraw : RawExpr -> Prop) (okent : entity -> Prop) s :
  (forall x, okstr x) -> (forall x, okraw x) -> (forall x, okent x) ->
  selector_ok okstr okraw okent s.
Proof.
  intros Hs Hr He.
  assert (forall c, column_ok okstr okent c) as Hc by (intros [[| | |] ? ?]; simpl; auto).
  assert (forall e, expr_ok okstr okraw okent e) as Hx.
  { fix IH 1. intros [|[l op r]| | | |]; simpl; auto. }
  assert (forall t, table_ok okstr okraw okent t) as Ht.
  { fix IH 1. intros [| |[l r typ on us]|]; simpl; auto.
    split_and!; auto. apply Forall_forall. intros p _. apply (Hx (EPredicate p)). }
  split_and!; auto; apply Forall_forall.
  - intros p _. apply (Hx (EPredicate p)).
  - intros [c|a|x] _; simpl; auto.
Qed.

Lemma joins_ok_vmap f n t : joins_ok n t -> joins_ok n (vmap_table f t).
Proof.
  revert t. fix IH 1. intros [| |[l r typ on us]|]; simpl; auto.
  intros (Hl & Hr & Hon). split_and!; auto. rewrite length_fmap.
  destruct Hon as [->|Hon]; auto.
Qed.

(** ** Bound values never reach the text *)

Definition map_args (f : any -> any) (x : go (registry * (orm_error + frag))) :=
  match x with
  | Ok (r, inr (t, a)) => Ok (r, inr (t, f <$> a))
  | y => y
  end.
Definition val_related (f : any -> any) (x y : R) : Prop := forall r, y r = map_args f (x r).

Lemma val_related_seq f x x' y y' :
  val_related f x x' -> val_related f y y' -> val_related f (x ⊕ y) (x' ⊕ y').
Proof.
  intros Hx Hy r. rewrite !r_seq_eq, Hx.
  destruct (x r) as [[r1 [e|[t a]]]|p]; simpl; try done.
  rewrite Hy. destruct (y r1) as [[r2 [e|[t' a']]]|p]; simpl; try done.
  by rewrite fmap_app.
Qed.

(** C31. The text of a query does not depend on the values bound in it: if the
    values of the tree are replaced by any others, by whatever function, the
    SQL is the same string and the arguments are the replaced ones in the same
    order (and errors, panics and the registry are the same).  No value can
    change the statement that is sent. *)
Theorem Selector_Build_values f s q r :
  joins_ok (length (where_ s)) (table s) ->
  outcome (Selector_Build (vmap_selector f s) (new_builder q r)) =
  map_args f (outcome (Selector_Build s (new_builder q r))).
Proof.
  intros Hj. rewrite !Selector_Build_refines; [|done|].
  2: { simpl. rewrite length_fmap. by apply joins_ok_vmap. }
  change (s_T (vmap_selector f s)) with (s_T s). revert r.
  apply (par_build (fun _ => True) (fun _ => True) (fun _ => True) (fun _ => True) f (val_related f) q);
    try done.
  - by apply Forall_forall.
  - intros *. apply val_related_seq.
  - intros e x x' _ H r0. rewrite !GM_bind_eq.
    destruct (Get e r0) as [[r1 [e'|m]]|p]; try done. by apply H.
  - by apply tree_ok_all.
Qed.

Definition user_selector : Selector :=
  Where (NewSelector user_entity) [Column_Eq (C "Id") (AVal (VInt 12))].

Lemma Selector_Build_values_witness :
  outcome (Selector_Build (vmap_selector (fun _ => AVal (VStr "'; DROP TABLE x")) user_selector)
    (new_builder "`"%char [])) =
  Ok ([(e_type user_entity, user_model)],
      inr ("SELECT * FROM `test_model` WHERE `id` = ?;", [AVal (VStr "'; DROP TABLE x")])).
Proof.
  rewrite (Selector_Build_values _ user_selector); [reflexivity|exact I].
Defined.

Definition join_selector : Selector :=
  let t1 := Table_As (TableOf user_entity) "t1" in
  let t2 := Table_As (TableOf user_entity) "t2" in
  From_ (NewSelector user_entity) (TRJoin (On (Table_Join t1 (TRTable t2))
    [Column_Eq (Table_C t1 "Id") (AExpr (EColumn (Table_C t2 "FirstName")))])).

Lemma Selector_Build_refines_witness :
  outcome (Selector_Build join_selector (new_builder "`"%char [])) =
  Ok ([(e_type user_entity, user_model)],
      inr ("SELECT * FROM (`test_model` AS `t1` JOIN `test_model` AS `t2` ON `t1`.`id` = `t2`.`first_name_t`);", [])).
Proof.
  rewrite (Selector_Build_refines join_selector); [reflexivity|].
  split_and!; [done|done|by right].
Defined.

(** ** One placeholder per argument *)

Definition qmarks (s : string) : nat := length (filter (fun c => c = "?"%char) (chars s)).
Definition clean (s : string) : Prop := qmarks s = 0.
Definition clean_model (m : Model) : Prop :=
  clean (TableName m) /\ Forall (fun fd => clean (ColName fd)) (cells m).
Definition clean_entity (e : entity) : Prop :=
  match parseModel e with Ok (inr m) => clean_model m | _ => True end.
(** A raw expression has a placeholder for each of its own arguments. *)
Definition raw_balanced (x : RawExpr) : Prop :=
  let 'mkRaw raw args := x in qmarks raw = length args.
Definition clean_registry (r : registry) : Prop := Forall (fun tm => clean_model tm.2) r.

Lemma qmarks_app s t : qmarks (s +:+ t) = qmarks s + qmarks t.
Proof. unfold qmarks. by rewrite chars_app, filter_app, length_app. Qed.

Lemma Get_clean e r r' m :
  clean_entity e -> clean_registry r -> Get e r = Ok (r', inr m) ->
  clean_model m /\ clean_registry r'.
Proof.
  unfold clean_entity, Get, Register. intros He Hr.
  destruct (models_Load (e_type e) r) as [m0|] eqn:HL.
  - intros [= <- <-]. split; [|done]. clear He.
    unfold models_Load in HL. induction Hr as [|[t m'] r Hm Hr IH]; [done|].
    cbn in HL. case_decide; [by simplify_eq|auto].
  - destruct (parseModel e) as [[err|md]|p]; simpl; try done. intros [= <- <-].
    split; [done|by constructor].
Qed.

Definition balanced (x _ : R) : Prop := forall r r' t a,
  clean_registry r -> x r = Ok (r', inr (t, a)) -> clean_registry r' /\ qmarks t = length a.

(** C32. When no name contains a question mark and each raw expression has as
    many as it has arguments, the built query has exactly one placeholder for
    each argument: columns, aggregates, joins, aliases and operators of any
    depth never unbalance it. *)
Theorem Selector_Build_placeholders s q r r' t a :
  selector_ok clean raw_balanced clean_entity s -> clean_registry r ->
  q <> "?"%char -> joins_ok (length (where_ s)) (table s) ->
  outcome (Selector_Build s (new_builder q r)) = Ok (r', inr (t, a)) ->
  qmarks t = length a.
Proof.
  intros Hs Hr Hq Hj. rewrite Selector_Build_refines by done. intros H.
  refine (proj2 (par_build clean raw_balanced clean_entity clean_model id balanced q
    _ _ _ _ _ _ _ _ _ _ s Hs r r' t a Hr H)).
  - by repeat constructor.
  - unfold clean, qmarks. cbn [chars]. by rewrite filter_cons_False.
  - unfold clean. intros x y Hx Hy. rewrite qmarks_app. lia.
  - intros x Hx r0 r1 t0 a0 Hr0 [= <- <- <-]. by split.
  - by intros e r0 r1 t0 a0 _ ?.
  - by intros v r0 r1 t0 a0 Hr0 [= <- <- <-].
  - intros raw vs Hraw r0 r1 t0 a0 Hr0. rewrite r_seq_eq. intros [= <- <- <-].
    split; [done|]. rewrite qmarks_app. cbn. simpl in Hraw. lia.
  - intros x x0 y y0 Hx Hy r0 r2 t0 a0 Hr0. rewrite r_seq_eq.
    destruct (x r0) as [[r1 [e|[t1 a1]]]|p] eqn:E1; try done.
    destruct (y r1) as [[r2' [e|[t2 a2]]]|p] eqn:E2; try done. intros [= <- <- <-].
    destruct (Hx _ _ _ _ Hr0 E1) as [Hr1 Hl1]. destruct (Hy _ _ _ _ Hr1 E2) as [Hr2 Hl2].
    split; [done|]. cbn. rewrite qmarks_app, length_app. lia.
  - intros e x x0 He Hx r0 r2 t0 a0 Hr0. rewrite GM_bind_eq.
    destruct (Get e r0) as [[r1 [err|m]]|p] eqn:E; try done.
    destruct (Get_clean _ _ _ _ He Hr0 E) as [Hm Hr1]. intros H2. by apply (Hx m Hm r1 r2 t0 a0).
  - intros m [Ht Hc]. split; [done|]. intros n fd Hf. unfold field_named in Hf.
    destruct (FieldMap m !! n) as [i|]; simpl in Hf; [|done].
    rewrite Forall_forall in Hc. apply Hc. by apply list_elem_of_lookup_2 in Hf.
Qed.

Lemma Selector_Build_placeholders_witness :
  qmarks "SELECT * FROM `test_model` WHERE `id` = ?;" = length [AVal (VInt 12)].
Proof.
  apply (Selector_Build_placeholders user_selector "`"%char [] [(e_type user_entity, user_model)]).
  - split_and!; [| exact I | |by constructor].
    + split; [reflexivity|]. repeat constructor.
    + repeat constructor.
  - constructor.
  - discriminate.
  - exact I.
  - reflexivity.
Defined.

(** ** Building twice *)

Definition reg_extends (r r' : registry) : Prop :=
  forall t m, models_Load t r = Some m -> models_Load t r' = Some m.

Lemma Get_extends e r r' m : Get e r = Ok (r', inr m) -> reg_extends r r'.
Proof.
  unfold Get. destruct (models_Load (e_type e) r) as [m0|] eqn:HL.
  - by intros [= <- <-] t m1.
  - intros H t m1 Ht. apply Register_stores in H as ->. rewrite models_Load_cons.
    rewrite decide_False; [done|]. intros <-. congruence.
Qed.
Lemma Get_again e r r' r2 m :
  Get e r = Ok (r', inr m) -> reg_extends r' r2 -> Get e r2 = Ok (r2, inr m).
Proof.
  intros H Hext.
  assert (models_Load (e_type e) r' = Some m) as HL.
  { unfold Get in H. destruct (models_Load (e_type e) r) as [m0|] eqn:HL.
    - by injection H as <- <-.
    - apply Register_stores in H as ->. by rewrite models_Load_cons, decide_True. }
  unfold Get. by rewrite (Hext _ _ HL).
Qed.

(** Once rendered, a tree renders the same from any larger registry. *)
Definition stable (x _ : R) : Prop := forall r r' f,
  x r = Ok (r', inr f) ->
  reg_extends r r' /\ forall r2, reg_extends r' r2 -> x r2 = Ok (r2, inr f).

Lemma render_stable s q md : stable (render_select q md s) (render_select q md (vmap_selector id s)).
Proof.
  apply (par_select (fun _ => True) (fun _ => True) (fun _ => True) (fun _ => True)).
  - by apply Forall_forall.
  - done.
  - done.
  - intros t _ r r' f [= <- <-]. by split; [intros ?|intros r2].
  - by intros e r r' f ?.
  - intros v r r' f [= <- <-]. by split; [intros ?|intros r2].
  - intros raw vs _ r r' f. rewrite r_seq_eq. intros [= <- <-]. by split; [intros ?|intros r2].
  - intros x x0 y y0 Hx Hy r r' f. rewrite r_seq_eq.
    destruct (x r) as [[r1 [e|a]]|p] eqn:E1; try done.
    destruct (y r1) as [[r2 [e|b]]|p] eqn:E2; try done. intros [= <- <-].
    destruct (Hx _ _ _ E1) as [X1 X2]. destruct (Hy _ _ _ E2) as [Y1 Y2].
    split; [intros t m Ht; auto|]. intros r3 H3. rewrite r_seq_eq.
    rewrite X2 by (intros t m Ht; auto). by rewrite Y2.
  - intros e x x0 _ Hx r r' f. rewrite GM_bind_eq.
    destruct (Get e r) as [[r1 [err|m]]|p] eqn:E; try done. intros H.
    destruct (Hx m I _ _ _ H) as [X1 X2]. pose proof (Get_extends _ _ _ _ E) as G1.
    split; [intros t m1 Ht; auto|]. intros r2 H2. rewrite GM_bind_eq.
    rewrite (Get_again _ _ _ _ _ E) by (intros t m1 Ht; auto). by apply X2.
  - done.
  - done.
  - by apply tree_ok_all.
Qed.

(** [Build] does not reset the builder: when a selector is built a second
    time, as it is when a middleware builds the query to look at it, the second
    query holds the statement twice in a row and every argument twice. *)
Lemma Selector_Build_twice s q r b qy :
  joins_ok (length (where_ s)) (table s) ->
  Selector_Build s (new_builder q r) = Ok (b, inr qy) ->
  exists b', Selector_Build s b =
    Ok (b', inr (mkQuery (SQL qy +:+ SQL qy) (Args qy ++ Args qy))).
Proof.
  intros Hj. rewrite Selector_Build_eq, GM_bind_eq.
  unfold ensure_model, new_builder, r_Get; simpl.
  destruct (Get (s_T s) r) as [[r1 [e|m]]|p]; simpl; try done.
  set (b1 := mkBuilder "" [] (Some m) q r1). intros H.
  assert (Selector_Build s b1 = Ok (b, inr qy)) as H1 by by rewrite Selector_Build_eq.
  pose proof (Selector_Build_append s b1 m eq_refl Hj) as HA. simpl in HA.
  destruct (render_select q m s r1) as [[r2 [e|[t a]]]|p] eqn:ER.
  - destruct HA as (b' & HA & _). congruence.
  - rewrite H1 in HA. injection HA as -> ->.
    destruct (render_stable s q m _ _ _ ER) as [_ HS].
    pose proof (Selector_Build_append s (emit (t, a) r2 b1) m eq_refl Hj) as HB. simpl in HB.
    rewrite HS in HB by by intros ?. simpl in HB. eauto.
  - congruence.
Qed.

Lemma Selector_Build_twice_witness : exists b',
  Selector_Build user_selector
    (mkBuilder "SELECT * FROM `test_model` WHERE `id` = ?;" [AVal (VInt 12)] (Some user_model)
       "`"%char [(e_type user_entity, user_model)]) =
  Ok (b', inr (mkQuery
    "SELECT * FROM `test_model` WHERE `id` = ?;SELECT * FROM `test_model` WHERE `id` = ?;"
    [AVal (VInt 12); AVal (VInt 12)])).
Proof.
  apply (Selector_Build_twice user_selector "`"%char [] _
    (mkQuery "SELECT * FROM `test_model` WHERE `id` = ?;" [AVal (VInt 12)])).
  - exact I.
  - reflexivity.
Defined.

(** ** The loop over [on] *)

Lemma andLoop_short ps : forall n i p,
  i <= length ps -> length ps < i + n -> andLoop ps i n p = Panic PIndex.
Proof.
  induction n as [|n IH]; intros i p Hi Hn; [lia|]. cbn [andLoop]. unfold index_at.
  destruct (ps !! i) as [x|] eqn:Hx; cbn [go_of_option]; [|done].
  rewrite go_bind_Ok. apply lookup_lt_Some in Hx. apply IH; lia.
Qed.
Lemma andLoop_prefix ps : forall n i p,
  i + n <= length ps -> andLoop ps i n p = Ok (conj_of p (take n (drop i ps))).
Proof.
  induction n as [|n IH]; intros i p Hn; [done|]. cbn [andLoop]. unfold index_at.
  destruct (lookup_lt_is_Some_2 ps i ltac:(lia)) as [x Hx]. rewrite Hx.
  cbn [go_of_option]. rewrite go_bind_Ok, IH by lia. by rewrite (drop_S _ _ _ Hx).
Qed.

(** The loop that joins the predicates of [ON] counts to [len(s.where)]
    instead of [len(t.on)].  With more predicates in [WHERE] than in [ON] it
    runs past the end: [Build] panics whenever the tables and the columns render
    and no [USING] is given.  With fewer, the text is that of the join with the
    last predicates of [ON] dropped: without [WHERE], every one but the first. *)
Lemma Join_on_loop md q nw l r typ p0 on b :
  quoter b = q -> model b = Some md -> joins_ok nw l -> joins_ok nw r ->
  (nw > length (p0 :: on) ->
   forall r1 f, (render_table q md l ⊕ render_table q md r) (b_r b) = Ok (r1, inr f) ->
   buildTable nw (TRJoin (mkJoin l r typ (p0 :: on) [])) b = Panic PIndex) /\
  (nw - 1 <= length on ->
   buildTable nw (TRJoin (mkJoin l r typ (p0 :: on) [])) b =
   buildTable nw (TRJoin (mkJoin l r typ (p0 :: take (nw - 1) on) [])) b).
Proof.
  intros Hq Hm Hl Hr. split.
  - intros Hnw r1 f Hf. cbn [buildTable].
    rewrite (andLoop_short (p0 :: on)) by (simpl in *; lia).
    apply r_seq_inv in Hf as (r2 & f1 & f2 & E1 & E2).
    assert ((r_str "(" ⊕ render_table q md l ⊕ r_str (" " +:+ typ +:+ " ") ⊕ render_table q md r)
      (b_r b) = Ok (r1, inr ("" +:+ "(" +:+ f1.1 +:+ (" " +:+ typ +:+ " ") +:+ f2.1, f1.2 ++ f2.2)))
      as E by (rewrite r_seq_eq; simpl; rewrite r_seq_eq, E1, r_seq_eq; simpl; by rewrite E2).
    pose proof (impl_seq q md _ _ _ _ (impl_byte q md "("%char)
      (impl_seq q md _ _ _ _ (impl_table q md nw l Hl)
      (impl_seq q md _ _ _ _ (impl_spaced q md typ) (impl_table q md nw r Hr))) b Hq Hm) as H.
    unfold implements_at in H. rewrite E in H.
    apply GM_bind_inv in H as (b1 & [] & W1 & H). apply GM_bind_inv in H as (b2 & [] & W2 & H).
    apply GM_bind_inv in H as (b3 & [] & W3 & H).
    rewrite GM_bind_eq, W1, GM_bind_eq, W2.
    apply GM_bind_inv in W3 as (c1 & [] & V1 & W3). apply GM_bind_inv in W3 as (c2 & [] & V2 & V3).
    rewrite GM_bind_eq, V1, GM_bind_eq, V2, GM_bind_eq, V3, GM_bind_eq, H. done.
  - intros Hnw. cbn [buildTable].
    rewrite (andLoop_prefix (p0 :: on)) by (simpl in *; lia).
    rewrite (andLoop_prefix (p0 :: take (nw - 1) on)) by (simpl in *; rewrite length_take; lia).
    simpl. rewrite !drop_0. by rewrite take_take, Nat.min_id.
Qed.

Lemma Join_on_loop_witness :
  let on1 := Column_Eq (C "Id") (AVal (VInt 1)) in
  let b := mkBuilder "" [] (Some user_model) "`"%char [] in
  let t := TRTable (TableOf user_entity) in
  buildTable 2 (TRJoin (mkJoin t t "JOIN" [on1] [])) b = Panic PIndex /\
  buildTable 0 (TRJoin (mkJoin t t "JOIN" [on1; on1] [])) b =
  buildTable 0 (TRJoin (mkJoin t t "JOIN" [on1] [])) b.
Proof.
  intros on1 b t.
  pose proof (fun nw on => Join_on_loop user_model "`"%char nw t t "JOIN" on1 on b
    eq_refl eq_refl I I) as H.
  split.
  - destruct (H 2 []) as [H1 _]. eapply H1; [simpl; lia|reflexivity].
  - destruct (H 0 [on1]) as [_ H2]. apply H2. simpl. lia.
Defined.
