(* ===== verification/Valuer.v ===== *)
(** Reading and writing the fields of an entity: [orm/internal/valuer].

    The memory is a map from addresses to values.  [reflectValue] goes by the
    names of the dynamic type, [unsafeValue] by the offsets of the model; both
    are instances of the interface [Value], on which the INSERT builder and the
    query handlers rely. *)
From S2P Require Import Prelude Registry Sql.

(** ** Memory and rows *)

Definition mem : Type := gmap Z sqlval.

(** [mem] hides the map from rewriting; these do not. *)
Lemma mem_insert_other (m : mem) a b v : a <> b -> (<[a := v]> m : mem) !! b = m !! b.
Proof. apply (lookup_insert_ne (M := gmap Z)). Qed.
Lemma mem_insert_same (m : mem) a v : (<[a := v]> m : mem) !! a = Some v.
Proof. apply (lookup_insert_eq (M := gmap Z)). Qed.

(** A pointer to a structure: its dynamic type's fields, and its address. *)
Record ptr := mkPtr { p_fields : list StructField; p_addr : Z }.

(** Reading an address; nothing but fields of live structures is mapped. *)
Definition mem_read (a : Z) : GM mem orm_error sqlval := fun m =>
  match m !! a with Some v => Ok (m, inr v) | None => Panic (PFatal "invalid memory address") end.

(** [*sql.Rows] on a row: what [Columns] returns, and the row's values. *)
Record Rows := mkRows { r_Columns : orm_error + list string; r_row : list sqlval }.

(** ** The interface *)

(** [Creator] and [Value]. *)
Class Creator (V : Type) := {
  NewValue : Model -> ptr -> V;
  Value_Field : V -> string -> GM mem orm_error sqlval;
  Value_SetColumns : V -> Rows -> GM mem orm_error unit
}.

Section scan.
(** [convertAssign] of [database/sql]: a value for a destination of a type. *)
Context (convertAssign : string -> sqlval -> option sqlval).

(** [rows.Scan(dests...)]: it stores in order and stops at the first value that
    does not convert.  A destination is a type and a place; [store] writes it. *)
Fixpoint scan_loop {D S} (store : D -> sqlval -> S -> S) (dests : list (string * D))
    (row : list sqlval) (s : S) : S * option orm_error :=
  match dests, row with
  | (ty, d) :: dests', v :: row' =>
      match convertAssign ty v with
      | Some v' => scan_loop store dests' row' (store d v' s)
      | None => (s, Some ErrScan)
      end
  | _, _ => (s, None)
  end.
Definition Scan {D S} (store : D -> sqlval -> S -> S) (dests : list (string * D))
    (row : list sqlval) (s : S) : S * option orm_error :=
  if decide (length dests = length row) then scan_loop store dests row s else (s, Some ErrScan).

(** [fd, ok := model.ColumnMap[c]] for each column. *)
Fixpoint columns_fields (md : Model) (cs : list string) : orm_error + list Field :=
  match cs with
  | [] => inr []
  | c :: cs' =>
      match field_of_column md c with
      | None => inl (ErrUnknownColumn c)
      | Some fd =>
          match columns_fields md cs' with
          | inl err => inl err
          | inr fds => inr (fd :: fds)
          end
      end
  end.

(** ** [reflectValue] *)

Record reflectValue := mkReflectValue { rv_model : Model; rv_val : ptr }.
Definition NewReflectValue (md : Model) (val : ptr) : reflectValue := mkReflectValue md val.

Definition is_exported (name : string) : bool :=
  match name with String c _ => is_upper c | EmptyString => false end.
(** [val.FieldByName(name)], and using the result: the zero [reflect.Value] and
    an unexported field panic in [Interface] and in [Set]. *)
Definition FieldByName (p : ptr) (name : string) : go Z :=
  match List.find (fun sf => bool_decide (sf_Name sf = name)) (p_fields p) with
  | Some sf => if is_exported name then Ok (p_addr p + sf_Offset sf)%Z
               else Panic (PUser "reflect: unexported field")
  | None => Panic (PUser "reflect: zero Value")
  end.

Definition reflect_Field (r : reflectValue) (name : string) : GM mem orm_error sqlval :=
  a ← gm_lift (FieldByName (rv_val r) name);
  mem_read a.

(** The loop that sets the fields, over the columns and [valElem]. *)
Fixpoint reflect_set (r : reflectValue) (cs : list string) (valElem : list sqlval)
  : GM mem orm_error unit :=
  match cs, valElem with
  | c :: cs', v :: vs' =>
      match field_of_column (rv_model r) c with
      | None => gm_err (ErrUnknownColumn c)
      | Some fd =>
          a ← gm_lift (FieldByName (rv_val r) (GoName fd));
          gm_modify (fun m => <[a := v]> m) ;;
          reflect_set r cs' vs'
      end
  | _, _ => mret tt
  end.
(** The fresh values that [rows.Scan] fills are numbered as in [valElem]. *)
Definition reflect_SetColumns (r : reflectValue) (rows : Rows) : GM mem orm_error unit :=
  match r_Columns rows with
  | inl err => gm_err err
  | inr cs =>
      match columns_fields (rv_model r) cs with
      | inl err => gm_err err
      | inr fds =>
          let dests := imap (fun i fd => (Type_ fd, i)) fds in
          match Scan (fun (i : nat) v (l : list sqlval) => <[i := v]> l) dests (r_row rows)
                  (replicate (length fds) VNil) with
          | (_, Some err) => gm_err err
          | (valElem, None) => reflect_set r cs valElem
          end
      end
  end.
#[export] Instance reflect_Creator : Creator reflectValue :=
  Build_Creator _ NewReflectValue reflect_Field reflect_SetColumns.

(** ** [unsafeValue] *)

Record unsafeValue := mkUnsafeValue { uv_model : Model; uv_address : Z }.
Definition NewUnsafeValue (md : Model) (val : ptr) : unsafeValue := mkUnsafeValue md (p_addr val).

Definition unsafe_Field (u : unsafeValue) (name : string) : GM mem orm_error sqlval :=
  match field_named (uv_model u) name with
  | None => gm_err (ErrUnknownField name)
  | Some fd => mem_read (uv_address u + Offset fd)%Z
  end.
(** The error of [Scan] is assigned and not returned. *)
Definition unsafe_SetColumns (u : unsafeValue) (rows : Rows) : GM mem orm_error unit :=
  match r_Columns rows with
  | inl err => gm_err err
  | inr cs =>
      match columns_fields (uv_model u) cs with
      | inl err => gm_err err
      | inr fds =>
          let vals := (fun fd => (Type_ fd, uv_address u + Offset fd)%Z) <$> fds in
          fun m =>
            let '(m', err) := Scan (fun (a : Z) v (m : mem) => <[a := v]> m) vals (r_row rows) m in
            Ok (m', inr tt)
      end
  end.
#[export] Instance unsafe_Creator : Creator unsafeValue :=
  Build_Creator _ NewUnsafeValue unsafe_Field unsafe_SetColumns.

(** * Properties *)

(** The model was registered for the structure the pointer leads to. *)
Definition model_of_struct (md : Model) (sfs : list StructField) : Prop :=
  (forall n fd, field_named md n = Some fd ->
     GoName fd = n /\ exists sf, sf ∈ sfs /\ sf_Name sf = n /\ sf_Offset sf = Offset fd /\ sf_Type sf = Type_ fd) /\
  (forall c fd, field_of_column md c = Some fd -> field_named md (GoName fd) = Some fd).

Lemma find_field sfs sf :
  NoDup (sf_Name <$> sfs) -> sf ∈ sfs ->
  List.find (fun x => bool_decide (sf_Name x = sf_Name sf)) sfs = Some sf.
Proof.
  induction sfs as [|x sfs IH]; intros Hn Hin; [by apply not_elem_of_nil in Hin|].
  cbn [fmap list_fmap] in Hn. apply NoDup_cons in Hn as [Hx Hn]. simpl.
  apply elem_of_cons in Hin as [->|Hin]; [by rewrite bool_decide_eq_true_2|].
  rewrite bool_decide_eq_false_2; [by apply IH|].
  intros E. apply Hx. rewrite E. by apply list_elem_of_fmap_2.
Qed.

(** Both ways to find a field lead to the same address. *)
Lemma FieldByName_offset md p n fd :
  model_of_struct md (p_fields p) -> NoDup (sf_Name <$> p_fields p) ->
  field_named md n = Some fd -> is_exported n = true ->
  FieldByName p n = Ok (p_addr p + Offset fd)%Z.
Proof.
  intros [Hm _] Hn Hf He. destruct (Hm _ _ Hf) as (_ & sf & Hin & <- & <- & _).
  unfold FieldByName. by rewrite find_field, He.
Qed.

Lemma columns_fields_named md sfs cs fds :
  model_of_struct md sfs -> columns_fields md cs = inr fds ->
  Forall2 (fun c fd => field_of_column md c = Some fd /\ field_named md (GoName fd) = Some fd) cs fds.
Proof.
  intros [_ Hm]. revert fds. induction cs as [|c cs IH]; simpl; intros fds.
  - intros [= <-]. constructor.
  - destruct (field_of_column md c) as [fd|] eqn:Hc; [|done].
    destruct (columns_fields md cs) as [|fds']; [done|]. intros [= <-].
    constructor; [by split; [|eapply Hm]|by apply IH].
Qed.

(** The values of a row, converted for the fields. *)
Fixpoint convert_all (fds : list Field) (row : list sqlval) : option (list sqlval) :=
  match fds, row with
  | fd :: fds', v :: row' =>
      v' ← convertAssign (Type_ fd) v; vs ← convert_all fds' row'; Some (v' :: vs)
  | [], [] => Some []
  | _, _ => None
  end.

Lemma scan_loop_all {D S} (store : D -> sqlval -> S -> S) : forall fds ds row s vs,
  length ds = length fds -> convert_all fds row = Some vs ->
  scan_loop store (zip (Type_ <$> fds) ds) row s =
  (foldl (fun s dv => store dv.1 dv.2 s) s (zip ds vs), None).
Proof.
  induction fds as [|fd fds IH]; intros ds row s vs Hl Hv; destruct ds as [|d ds], row as [|v row];
    simplify_eq/=; [done..|].
  destruct (convertAssign (Type_ fd) v) as [v'|]; simpl in *; [|done].
  destruct (convert_all fds row) as [vs'|] eqn:E; simpl in *; [|done]. simplify_eq.
  simpl. by apply IH.
Qed.
Lemma scan_loop_fails {D S} (store : D -> sqlval -> S -> S) : forall fds ds row s,
  length ds = length fds -> length row = length fds -> convert_all fds row = None ->
  exists s', scan_loop store (zip (Type_ <$> fds) ds) row s = (s', Some ErrScan).
Proof.
  induction fds as [|fd fds IH]; intros ds row s Hl Hr Hv; destruct ds as [|d ds], row as [|v row];
    simplify_eq/=.
  destruct (convertAssign (Type_ fd) v) as [v'|]; simpl in *; [|by eauto].
  destruct (convert_all fds row) as [vs'|] eqn:E; simpl in *; [done|]. by apply IH.
Qed.
Lemma convert_all_length fds row vs :
  convert_all fds row = Some vs -> length row = length fds /\ length vs = length fds.
Proof.
  revert row vs. induction fds as [|fd fds IH]; intros [|v row] vs H; simplify_eq/=; [done|].
  destruct (convertAssign (Type_ fd) v); simpl in *; [|done].
  destruct (convert_all fds row) eqn:E; simplify_eq/=. apply IH in E. lia.
Qed.

Lemma Scan_all {D S} (store : D -> sqlval -> S -> S) fds ds row s :
  length ds = length fds ->
  match convert_all fds row with
  | Some vs => Scan store (zip (Type_ <$> fds) ds) row s =
               (foldl (fun s dv => store dv.1 dv.2 s) s (zip ds vs), None)
  | None => exists s', Scan store (zip (Type_ <$> fds) ds) row s = (s', Some ErrScan)
  end.
Proof.
  intros Hl. unfold Scan. rewrite length_zip_with, length_fmap, Hl, Nat.min_id.
  destruct (convert_all fds row) as [vs|] eqn:E.
  - rewrite decide_True by by apply convert_all_length in E as [-> _]. by apply scan_loop_all.
  - case_decide; [|by eauto]. by apply scan_loop_fails.
Qed.

Lemma fill_all vs : forall pre n,
  length vs = n ->
  foldl (fun (l : list sqlval) dv => <[dv.1 := dv.2]> l) (pre ++ replicate n VNil)
    (zip (seq (length pre) n) vs) = pre ++ vs.
Proof.
  induction vs as [|v vs IH]; intros pre [|n] Hl; simplify_eq/=; [done|].
  rewrite insert_app_r_alt, Nat.sub_diag by lia. simpl. replace (S (length pre)) with (length (pre ++ [v]))
    by (rewrite length_app; simpl; lia).
  rewrite (app_cons_snoc pre v), IH by done. by rewrite <-app_assoc.
Qed.

Lemma imap_zip_seq (fds : list Field) :
  imap (fun i fd => (Type_ fd, i)) fds = zip (Type_ <$> fds) (seq 0 (length fds)).
Proof.
  assert (forall (l : list Field) n,
    imap (fun i fd => (Type_ fd, n + i)) l = zip (Type_ <$> l) (seq n (length l))) as H.
  { induction l as [|x l IH]; intros n; [done|]. cbn [imap fmap list_fmap length seq zip_with].
    rewrite Nat.add_0_r. f_equal. rewrite <-IH. apply imap_ext. intros i y _. simpl. f_equal. lia. }
  apply (H fds 0).
Qed.

Section valuers.
Context (md : Model) (p : ptr).
Context (Hmd : model_of_struct md (p_fields p)).
Context (Hnames : NoDup (sf_Name <$> p_fields p)).

(** The memory after the fields of a row have been stored. *)
Definition store_fields (fds : list Field) (vs : list sqlval) (m : mem) : mem :=
  foldl (fun m dv => <[dv.1 := dv.2]> m) m (zip ((fun fd => p_addr p + Offset fd)%Z <$> fds) vs).

Lemma reflect_set_store cs fds vs m :
  Forall2 (fun c fd => field_of_column md c = Some fd /\ field_named md (GoName fd) = Some fd) cs fds ->
  Forall (fun fd => is_exported (GoName fd) = true) fds -> length vs = length fds ->
  reflect_set (NewReflectValue md p) cs vs m = Ok (store_fields fds vs m, inr tt).
Proof.
  intros HF. revert vs m. induction HF as [|c fd cs fds [Hc Hn] HF IH]; intros vs m He Hl.
  - destruct vs; [done|discriminate].
  - inversion_clear He as [|? ? He1 He2]. destruct vs as [|v vs]; [discriminate|].
    cbn [reflect_set rv_model rv_val NewReflectValue]. rewrite Hc.
    rewrite (FieldByName_offset md p _ fd) by done.
    rewrite GM_bind_eq. cbn [gm_lift]. rewrite GM_bind_eq. cbn [gm_modify].
    change (mkReflectValue md p) with (NewReflectValue md p).
    rewrite IH; [done|done|]. by injection Hl.
Qed.

Lemma unsafe_SetColumns_eq rows cs fds m :
  r_Columns rows = inr cs -> columns_fields md cs = inr fds ->
  match convert_all fds (r_row rows) with
  | Some vs => unsafe_SetColumns (NewUnsafeValue md p) rows m = Ok (store_fields fds vs m, inr tt)
  | None => exists m', unsafe_SetColumns (NewUnsafeValue md p) rows m = Ok (m', inr tt)
  end.
Proof.
  intros Hc Hf. unfold unsafe_SetColumns. cbn [uv_model uv_address NewUnsafeValue].
  rewrite Hc, Hf.
  assert ((fun fd => (Type_ fd, p_addr p + Offset fd)%Z) <$> fds =
    zip (Type_ <$> fds) ((fun fd => p_addr p + Offset fd)%Z <$> fds)) as ->.
  { clear. induction fds as [|fd fds IH]; [done|]. cbn [fmap list_fmap zip_with]. by rewrite <-IH. }
  pose proof (Scan_all (fun (a : Z) v (m : mem) => <[a := v]> m) fds
    ((fun fd => p_addr p + Offset fd)%Z <$> fds) (r_row rows) m ltac:(by rewrite length_fmap)) as H.
  destruct (convert_all fds (r_row rows)) as [vs|].
  - by rewrite H.
  - destruct H as [s' ->]. eauto.
Qed.

Lemma reflect_SetColumns_eq rows cs fds m :
  r_Columns rows = inr cs -> columns_fields md cs = inr fds ->
  Forall (fun fd => is_exported (GoName fd) = true) fds ->
  reflect_SetColumns (NewReflectValue md p) rows m =
  match convert_all fds (r_row rows) with
  | Some vs => Ok (store_fields fds vs m, inr tt)
  | None => Ok (m, inl ErrScan)
  end.
Proof.
  intros Hc Hf He. unfold reflect_SetColumns. cbn [rv_model NewReflectValue].
  rewrite Hc, Hf, imap_zip_seq.
  pose proof (Scan_all (fun (i : nat) v (l : list sqlval) => <[i := v]> l) fds
    (seq 0 (length fds)) (r_row rows) (replicate (length fds) VNil) ltac:(by rewrite length_seq)) as H.
  destruct (convert_all fds (r_row rows)) as [vs|] eqn:Hv.
  - rewrite H. apply convert_all_length in Hv as [_ Hl].
    pose proof (fill_all vs [] _ Hl) as HL. simpl in HL. rewrite HL.
    apply reflect_set_store; [by eapply columns_fields_named|done|done].
  - by destruct H as [s' ->].
Qed.

(** C27. The two valuers agree: reading an exported field of the model gives the
    same value, and storing a row whose columns are all exported fields and
    whose values convert leaves the same memory; an unknown column and a failing
    [Columns] give the same error and write nothing. *)
Theorem valuers_agree name fd rows m :
  field_named md name = Some fd -> is_exported name = true ->
  (forall cs fds, r_Columns rows = inr cs -> columns_fields md cs = inr fds ->
     Forall (fun fd => is_exported (GoName fd) = true) fds /\
     is_Some (convert_all fds (r_row rows))) ->
  Value_Field (NewValue (V := reflectValue) md p) name m =
    Value_Field (NewValue (V := unsafeValue) md p) name m /\
  Value_SetColumns (NewValue (V := reflectValue) md p) rows m =
    Value_SetColumns (NewValue (V := unsafeValue) md p) rows m.
Proof.
  intros Hf He Hr. cbn. split.
  - unfold reflect_Field, unsafe_Field. cbn. rewrite Hf.
    by rewrite (FieldByName_offset md p name fd).
  - destruct (r_Columns rows) as [err|cs] eqn:Hc.
    { unfold reflect_SetColumns, unsafe_SetColumns. by rewrite Hc. }
    destruct (columns_fields md cs) as [err|fds] eqn:Hcf.
    { unfold reflect_SetColumns, unsafe_SetColumns. cbn. by rewrite Hc, Hcf. }
    destruct (Hr cs fds eq_refl Hcf) as [Hex [vs Hvs]].
    rewrite (reflect_SetColumns_eq rows cs fds) by done.
    pose proof (unsafe_SetColumns_eq rows cs fds m Hc Hcf) as H.
    rewrite Hvs in *. by rewrite H.
Qed.

(** Where they differ: when a value of the row does not convert,
    [reflectValue] returns the error of [Scan] and leaves the entity alone,
    while [unsafeValue] reports success, having stored whatever came before it;
    and on a name that is not a field, [reflectValue.Field] panics while
    [unsafeValue.Field] returns an error. *)
Lemma valuers_differ name rows cs fds m :
  r_Columns rows = inr cs -> columns_fields md cs = inr fds ->
  Forall (fun fd => is_exported (GoName fd) = true) fds ->
  convert_all fds (r_row rows) = None ->
  name ∉ (sf_Name <$> p_fields p) ->
  Value_SetColumns (NewValue (V := reflectValue) md p) rows m = Ok (m, inl ErrScan) /\
  (exists m', Value_SetColumns (NewValue (V := unsafeValue) md p) rows m = Ok (m', inr tt)) /\
  Value_Field (NewValue (V := reflectValue) md p) name m = Panic (PUser "reflect: zero Value") /\
  Value_Field (NewValue (V := unsafeValue) md p) name m = Ok (m, inl (ErrUnknownField name)).
Proof.
  intros Hc Hf He Hv Hn. cbn. split_and!.
  - rewrite (reflect_SetColumns_eq rows cs fds) by done. by rewrite Hv.
  - pose proof (unsafe_SetColumns_eq rows cs fds m Hc Hf) as H. by rewrite Hv in H.
  - unfold reflect_Field, FieldByName. cbn [rv_val NewReflectValue].
    assert (List.find (fun sf => bool_decide (sf_Name sf = name)) (p_fields p) = None) as ->; [|done].
    clear - Hn. induction (p_fields p) as [|x l IH]; [done|].
    cbn [fmap list_fmap] in Hn. apply not_elem_of_cons in Hn as [Hx Hl]. simpl.
    rewrite bool_decide_eq_false_2 by congruence. auto.
  - unfold unsafe_Field. cbn. destruct (field_named md name) as [fd|] eqn:Hfn; [|done].
    destruct (proj1 Hmd _ _ Hfn) as (_ & sf & Hin & <- & _ & _).
    exfalso. apply Hn. by apply list_elem_of_fmap_2.
Qed.
(** ** Typed memory *)

Section typed.
(** The types of addresses, and the values of a type; a conversion gives a value
    of the type that it converts to, as [database/sql] documents. *)
Context (tys : gmap Z string) (has_type : string -> sqlval -> Prop).
Context (Hconv : forall ty v v', convertAssign ty v = Some v' -> has_type ty v').

Definition mem_ok (m : mem) : Prop :=
  forall a ty, tys !! a = Some ty -> exists v, m !! a = Some v /\ has_type ty v.
(** The structure that the pointer leads to is allocated. *)
Definition allocated : Prop :=
  forall sf, sf ∈ p_fields p -> tys !! (p_addr p + sf_Offset sf)%Z = Some (sf_Type sf).
(** Only fields of the structure differ. *)
Definition outside_same (m m' : mem) : Prop :=
  forall a, (forall sf, sf ∈ p_fields p -> a <> (p_addr p + sf_Offset sf)%Z) -> m' !! a = m !! a.

Lemma scan_loop_inv {D S} (P : S -> Prop) (store : D -> sqlval -> S -> S) dests row s :
  (forall ty d v v' s, (ty, d) ∈ dests -> convertAssign ty v = Some v' -> P s -> P (store d v' s)) ->
  P s -> P (scan_loop store dests row s).1.
Proof.
  revert row s. induction dests as [|[ty d] dests IH]; intros [|v row] s Hs HP; cbn; try done.
  destruct (convertAssign ty v) as [v'|] eqn:E; [|done]. apply IH.
  - intros ty0 d0 v0 v0' s0 Hin. apply Hs, elem_of_cons. by right.
  - apply (Hs ty d v v'); [apply elem_of_cons; by left|done|done].
Qed.
Lemma field_address n fd :
  allocated -> field_named md n = Some fd ->
  tys !! (p_addr p + Offset fd)%Z = Some (Type_ fd) /\
  exists sf, sf ∈ p_fields p /\ (p_addr p + Offset fd)%Z = (p_addr p + sf_Offset sf)%Z.
Proof.
  intros Ha Hf. destruct (proj1 Hmd _ _ Hf) as (_ & sf & Hin & _ & <- & <-). split; [by apply Ha|]. eauto.
Qed.

(** Storing a row by offset. *)
Lemma unsafe_SetColumns_typed rows m :
  allocated -> mem_ok m ->
  exists m' res, unsafe_SetColumns (NewUnsafeValue md p) rows m = Ok (m', res) /\ mem_ok m' /\ outside_same m m'.
Proof.
  intros Ha Hm. unfold unsafe_SetColumns. cbn [uv_model uv_address NewUnsafeValue].
  destruct (r_Columns rows) as [err|cs] eqn:Hc; [by exists m, (inl err)|].
  destruct (columns_fields md cs) as [err|fds] eqn:Hf; [by exists m, (inl err)|].
  set (vals := (fun fd => (Type_ fd, (p_addr p + Offset fd)%Z)) <$> fds).
  assert (Hinv : let r := Scan (fun (a : Z) v (m : mem) => <[a := v]> m) vals (r_row rows) m in
    mem_ok r.1 /\ outside_same m r.1).
  { cbn zeta. unfold Scan. case_decide; [|by split]. apply (scan_loop_inv (fun m' => mem_ok m' /\ outside_same m m')); [|by split].
    intros ty a v v' m1 Hin Hcv [Hok Hfr].
    apply list_elem_of_fmap in Hin as (fd & [= -> ->] & Hfd).
    assert (exists n, field_named md n = Some fd) as [n Hn].
    { clear - Hmd Hf Hfd. pose proof (columns_fields_named _ _ _ _ Hmd Hf) as H2.
      apply list_elem_of_lookup in Hfd as [i Hi]. destruct (Forall2_lookup_r _ _ _ _ _ H2 Hi) as (c & _ & _ & Hn). eauto. }
    destruct (field_address _ _ Ha Hn) as [Hty (sf & Hsf & Heq)]. split.
    - intros b tb Hb. destruct (decide ((p_addr p + Offset fd)%Z = b)) as [<-|Hne].
      + exists v'. split; [apply mem_insert_same|]. rewrite Hty in Hb. injection Hb as <-. by eapply Hconv.
      + destruct (Hok b tb Hb) as (w & ? & ?). exists w. split; [|done]. by rewrite mem_insert_other.
    - intros b Hb. rewrite mem_insert_other; [by apply Hfr|]. intros <-. by apply (Hb sf). }
  cbn zeta in Hinv. destruct (Scan _ vals (r_row rows) m) as [m' err]. by exists m', (inr tt).
Qed.

(** C29. The valuers are type safe on the memory of a registered structure.
    Reading a field of the model gives a value of the type that the structure
    declares for it; storing a row, of whatever columns and values, does not
    panic, and whether or not it fails half way every address keeps its type
    and nothing outside the structure changes.  For [reflectValue], which cannot
    touch unexported fields, the names and the columns are exported. *)
Theorem valuers_typed (m : mem) (rows : Rows) :
  allocated -> mem_ok m ->
  (exists m' res, Value_SetColumns (NewValue (V := unsafeValue) md p) rows m = Ok (m', res) /\
     mem_ok m' /\ outside_same m m') /\
  ((forall cs fds, r_Columns rows = inr cs -> columns_fields md cs = inr fds ->
      Forall (fun fd => is_exported (GoName fd) = true) fds) ->
   exists m' res, Value_SetColumns (NewValue (V := reflectValue) md p) rows m = Ok (m', res) /\
     mem_ok m' /\ outside_same m m') /\
  (forall name fd, field_named md name = Some fd ->
     exists v, has_type (Type_ fd) v /\
       Value_Field (NewValue (V := unsafeValue) md p) name m = Ok (m, inr v) /\
       (is_exported name = true -> Value_Field (NewValue (V := reflectValue) md p) name m = Ok (m, inr v))).
Proof.
  intros Ha Hm. cbn. destruct (unsafe_SetColumns_typed rows m Ha Hm) as (mu & ru & Hu & Hok & Hfr).
  split_and!; [by exists mu, ru| |].
  - intros He. destruct (r_Columns rows) as [err|cs] eqn:Hc.
    { exists m, (inl err). unfold reflect_SetColumns. by rewrite Hc. }
    destruct (columns_fields md cs) as [err|fds] eqn:Hcf.
    { exists m, (inl err). unfold reflect_SetColumns. cbn. by rewrite Hc, Hcf. }
    rewrite (reflect_SetColumns_eq rows cs fds) by eauto.
    pose proof (unsafe_SetColumns_eq rows cs fds m Hc Hcf) as H.
    destruct (convert_all fds (r_row rows)) as [vs|]; [|by exists m, (inl ErrScan)].
    rewrite Hu in H. injection H as -> ->. by eexists _, _.
  - intros name fd Hf. destruct (field_address _ _ Ha Hf) as [Hty _].
    destruct (Hm _ _ Hty) as (v & Hv & Ht). exists v. split_and!; [done| |].
    + unfold unsafe_Field. cbn. rewrite Hf. unfold mem_read. by rewrite Hv.
    + intros He. unfold reflect_Field. cbn. rewrite (FieldByName_offset md p name fd) by done.
      rewrite GM_bind_eq. cbn. unfold mem_read. by rewrite Hv.
Qed.
End typed.
End valuers.
End scan.

(** Registered models describe their structures. *)
Lemma Register_model_of_struct name fds tbl r r' md :
  NoDup (sf_Name <$> fds) ->
  Register (struct_entity name fds tbl) [] r = Ok (r', inr md) -> model_of_struct md fds.
Proof.
  intros Hn. unfold Register.
  destruct (parseModel_spec name fds tbl) as
    [(md0 & fs & -> & Hfs & Hc & Hw & Hf & _)|(err & -> & _)]; simpl; [|done].
  intros [= _ <-].
  assert (forall n fd, field_named md0 n = Some fd -> GoName fd = n /\
    exists sf, sf ∈ fds /\ sf_Name sf = n /\ sf_Offset sf = Offset fd /\ sf_Type sf = Type_ fd) as H1.
  { intros n fd H. destruct (field_named_spec _ _ _ Hw H) as [Hin <-]. split; [done|].
    rewrite fields_of_cells, Hc in Hin by done. clear - Hfs Hin.
    induction Hfs as [|sf f fds fs Hm Hfs IH]; [by apply not_elem_of_nil in Hin|].
    apply elem_of_cons in Hin as [->|Hin].
    - exists sf. split; [constructor|]. unfold field_meta in Hm.
      destruct (parseTag (sf_Tag sf)); simplify_eq/=. done.
    - destruct (IH Hin) as (sf' & ? & ?). exists sf'. split; [by constructor|done]. }
  split; [done|]. intros c fd H.
  destruct (field_of_column_spec _ _ _ Hw Hf H) as [Hin _].
  destruct (field_named_all _ _ Hw Hin) as [fd' Hfd']. rewrite Hfd'. f_equal.
  destruct (field_named_spec _ _ _ Hw Hfd') as [Hin' HE].
  rewrite fields_of_cells, Hc in Hin, Hin' by done.
  clear - Hn Hfs Hin Hin' HE.
  assert (GoName <$> fs = sf_Name <$> fds) as HG.
  { clear - Hfs. induction Hfs as [|sf f fds fs Hm Hfs IH]; [done|]. cbn. rewrite IH. f_equal.
    unfold field_meta in Hm. by destruct (parseTag (sf_Tag sf)); simplify_eq/=. }
  rewrite <-HG in Hn. apply list_elem_of_lookup in Hin as [i Hi].
  apply list_elem_of_lookup in Hin' as [j Hj].
  assert (i = j) as ->.
  { eapply NoDup_lookup; [exact Hn| |]; rewrite list_lookup_fmap; [rewrite Hi|rewrite Hj]; simpl;
      by rewrite ?HE. }
  congruence.
Qed.

Definition user_ptr : ptr := mkPtr user_fields 100%Z.
Definition user_mem : mem := {[ 100%Z := VInt 1; 108%Z := VStr "Tom"; 124%Z := VNil ]}.
(** A conversion that accepts integers and strings for the types of that name. *)
Definition conv_plain (ty : string) (v : sqlval) : option sqlval :=
  match v with
  | VInt _ => if decide (ty = "int64") then Some v else None
  | _ => if decide (ty = "int64") then None else Some v
  end.
Lemma user_model_of_struct : model_of_struct user_model user_fields.
Proof.
  apply (Register_model_of_struct "TestModel" _ None NewRegistry
    [(e_type user_entity, user_model)]); [go_decide|reflexivity].
Qed.

Lemma valuers_agree_witness :
  let rows := mkRows (inr ["id"; "last_name"]) [VInt 7; VStr "Jerry"] in
  Value_SetColumns (Creator := reflect_Creator conv_plain)
    (NewValue (Creator := reflect_Creator conv_plain) user_model user_ptr) rows user_mem =
  Value_SetColumns (Creator := unsafe_Creator conv_plain)
    (NewValue (Creator := unsafe_Creator conv_plain) user_model user_ptr) rows user_mem.
Proof.
  intros rows.
  refine (proj2 (valuers_agree conv_plain user_model user_ptr user_model_of_struct
    _ "Id" (mkField "id" "int64" "Id" 0%Z) rows user_mem _ _ _)).
  - go_decide.
  - reflexivity.
  - reflexivity.
  - intros cs fds [= <-] H. vm_compute in H. injection H as <-.
    split; [repeat constructor|]. vm_compute. eauto.
Defined.

(** Integers for [int64], anything else for the other types. *)
Definition plain_type (ty : string) (v : sqlval) : Prop :=
  match v with VInt _ => ty = "int64" | _ => ty <> "int64" end.
Definition user_tys : gmap Z string :=
  {[ 100%Z := "int64"; 108%Z := "string"; 124%Z := "*sql.NullString" ]}.
Lemma valuers_typed_witness :
  exists m' res,
    Value_SetColumns (Creator := unsafe_Creator conv_plain)
      (NewValue (Creator := unsafe_Creator conv_plain) user_model user_ptr)
      (mkRows (inr ["last_name"; "id"]) [VStr "Jerry"; VStr "x"]) user_mem = Ok (m', res) /\
    mem_ok user_tys plain_type m'.
Proof.
  destruct (valuers_typed conv_plain user_model user_ptr user_model_of_struct ltac:(go_decide)
    user_tys plain_type ltac:(intros ty [] v' H; unfold conv_plain in H; case_decide; try discriminate H; injection H as <-; assumption)
    user_mem (mkRows (inr ["last_name"; "id"]) [VStr "Jerry"; VStr "x"])) as [(m' & res & H & Hok & _) _].
  - refine (proj1 (Forall_forall _ _) _). repeat constructor.
  - intros a ty H. unfold user_tys in H. rewrite !lookup_insert_Some, lookup_singleton_Some in H.
    destruct H as [[<- <-]|[_ [[<- <-]|[_ [<- <-]]]]]; eexists; (split; [reflexivity|easy]).
  - exists m', res. split; [exact H|exact Hok].
Defined.

Lemma valuers_differ_witness :
  let rows := mkRows (inr ["id"; "last_name"]) [VStr "x"; VStr "Jerry"] in
  Value_SetColumns (Creator := reflect_Creator conv_plain)
    (NewValue (Creator := reflect_Creator conv_plain) user_model user_ptr) rows user_mem =
  Ok (user_mem, inl ErrScan).
Proof.
  intros rows.
  refine (proj1 (valuers_differ conv_plain user_model user_ptr user_model_of_struct
    _ "Nobody" rows ["id"; "last_name"]
    [mkField "id" "int64" "Id" 0%Z; mkField "last_name" "*sql.NullString" "LastName" 24%Z]
    user_mem _ _ _ _ _)).
  - go_decide.
  - reflexivity.
  - reflexivity.
  - repeat constructor.
  - reflexivity.
  - go_decide.
Defined.
