(* ===== verification/Insert.v ===== *)
(** The INSERT builder of the ORM and the dialects: [orm/insert.go],
    [orm/dialect.go], [orm/assignment.go].

    The entities are read through the interface [Creator] of [Valuer]; a dialect
    is a record of the methods of the Go interface. *)
From S2P Require Import Prelude Registry Sql Valuer.

(** ** Upserts and dialects *)

Record Assignment := mkAssignment { as_col : string; as_val : any }.
Definition Assign (col : string) (val : any) : Assignment := mkAssignment col val.
(** [Assignable]; [AssOther] is a type the dialects do not know. *)
Inductive Assignable :=
  | AssAssignment (a : Assignment)
  | AssColumn (c : Column)
  | AssOther (name : string).
Record Upsert := mkUpsert { assigns : list Assignable; conflictColumns : list string }.

(** The two methods of the interface [Dialect]. *)
Record Dialect := mkDialect { d_quoter : go char; d_buildUpsert : Upsert -> B unit }.

(** [b.model.FieldMap[name]] *)
Definition modelField (name : string) : B Field := m ← the_model; fieldOf m name.

Definition standardSQL : Dialect :=
  mkDialect (Panic (PUser "implement me")) (fun _ => gm_panic (PUser "implement me")).

(** The body of the loop over the assignments, and what follows a column: the
    two dialects differ in the second. *)
Definition buildAssign (excluded : Field -> B unit) (a : Assignable) : B unit :=
  match a with
  | AssAssignment a =>
      fd ← modelField (as_col a);
      quote (ColName fd) ;; writeString "=?" ;; addArgs [as_val a]
  | AssColumn (mkColumn _ name _) =>
      fd ← modelField name;
      quote (ColName fd) ;; excluded fd
  | AssOther _ => gm_err ErrUnsupportedAssignable
  end.

Definition mysql_buildUpsert (upsert : Upsert) : B unit :=
  writeString " ON DUPLICATE KEY UPDATE " ;;
  commaLoop (buildAssign (fun fd =>
    writeString "=VALUES(" ;; quote (ColName fd) ;; writeByte ")"%char)) true (assigns upsert).
Definition mysqlDialect : Dialect := mkDialect (Ok "`"%char) mysql_buildUpsert.

Definition sqlite_buildUpsert (upsert : Upsert) : B unit :=
  writeString "ON CONFLICT(" ;;
  commaLoop (buildColumn ∘ C) true (conflictColumns upsert) ;;
  writeString ") DO UPDATE SET " ;;
  commaLoop (buildAssign (fun fd => writeString "=excluded." ;; quote (ColName fd)))
    true (assigns upsert).
Definition sqliteDialect : Dialect := mkDialect (Ok "`"%char) sqlite_buildUpsert.

(** [postgreDialect] only embeds [standardSQL]. *)
Definition postgreDialect : Dialect := standardSQL.

(** ** The builder *)

Section inserter.
Context {V : Type} {HC : Creator V}.

(** [Inserter], less its builder; [i_T] is the entity type of the values. *)
Record Inserter := mkInserter {
  i_T : entity; i_dialect : Dialect; values : list ptr; i_columns : list string;
  onDuplicateKey : option Upsert }.

(** [NewInserter] asks the dialect for its quoter. *)
Definition NewInserter (T : entity) (d : Dialect) (r : registry) : go (Inserter * builder) :=
  q ← d_quoter d; Ok (mkInserter T d [] [] None, new_builder q r).
Definition Values (i : Inserter) (vals : list ptr) : Inserter :=
  mkInserter (i_T i) (i_dialect i) vals (i_columns i) (onDuplicateKey i).
Definition Columns (i : Inserter) (cols : list string) : Inserter :=
  mkInserter (i_T i) (i_dialect i) (values i) cols (onDuplicateKey i).

(** [UpsertBuilder]: [OnDuplicateKey], [ConflictColumns] and [Update]. *)
Record UpsertBuilder := mkUpsertBuilder { ub_i : Inserter; ub_conflictColumns : list string }.
Definition OnDuplicateKey (i : Inserter) : UpsertBuilder := mkUpsertBuilder i [].
Definition ConflictColumns (o : UpsertBuilder) (cols : list string) : UpsertBuilder :=
  mkUpsertBuilder (ub_i o) cols.
Definition Update (o : UpsertBuilder) (assigns : list Assignable) : Inserter :=
  let i := ub_i o in
  mkInserter (i_T i) (i_dialect i) (values i) (i_columns i)
    (Some (mkUpsert assigns (ub_conflictColumns o))).

Definition reset_sb : B unit := gm_modify (fun b =>
  mkBuilder "" (args b) (model b) (quoter b) (b_r b)).
Definition reset_args : B unit := gm_modify (fun b =>
  mkBuilder (sb b) [] (model b) (quoter b) (b_r b)).

(** The fields of the user's columns. *)
Fixpoint columnFields (md : Model) (cols : list string) : B (list Field) :=
  match cols with
  | [] => mret []
  | fd :: cols' =>
      match field_named md fd with
      | None => gm_err (ErrUnknownColumn fd)
      | Some fdMeta => fs ← columnFields md cols'; mret (fdMeta :: fs)
      end
  end.
Definition insertFields (md : Model) (cols : list string) : B (list Field) :=
  match cols with [] => mret (fields_of md) | _ => columnFields md cols end.

(** [val.Field(name)], reading the memory. *)
Definition readField (m : mem) (v : V) (name : string) : B sqlval := fun b =>
  match Value_Field v name m with
  | Ok (_, x) => Ok (b, x)
  | Panic p => Panic p
  end.

(** One parenthesised row of placeholders, and the arguments it binds. *)
Definition insertRow (m : mem) (md : Model) (fields : list Field) (v : ptr) : B unit :=
  writeByte "("%char ;;
  commaLoop (fun field =>
    writeByte "?"%char ;;
    arg ← readField m (NewValue md v) (GoName field);
    addArgs [AVal arg]) true fields ;;
  writeByte ")"%char.

Definition Inserter_Build (i : Inserter) (m : mem) : B Query :=
  match values i with
  | [] => gm_err ErrInsertZeroRow
  | _ =>
      reset_sb ;;
      writeString "INSERT INTO " ;;
      ensure_model (i_T i) ;;
      md ← the_model;
      quote (TableName md) ;;
      writeByte "("%char ;;
      fields ← insertFields md (i_columns i);
      commaLoop (fun field => quote (ColName field)) true fields ;;
      writeByte ")"%char ;;
      writeString " VALUES " ;;
      reset_args ;;
      commaLoop (insertRow m md fields) true (values i) ;;
      (match onDuplicateKey i with
       | Some upsert => d_buildUpsert (i_dialect i) upsert
       | None => mret tt
       end) ;;
      writeByte ";"%char ;;
      b ← gm_get;
      mret (mkQuery (sb b) (args b))
  end.

(** * The statement an INSERT stands for *)

(** What an upsert adds: text and arguments, or the first unknown field. *)
Definition assign_frag (q : char) (md : Model) (excluded : string -> string) (a : Assignable)
  : orm_error + frag :=
  match a with
  | AssAssignment a =>
      match field_named md (as_col a) with
      | Some fd => inr (quoted q (ColName fd) +:+ "=?", [as_val a])
      | None => inl (ErrUnknownField (as_col a))
      end
  | AssColumn (mkColumn _ name _) =>
      match field_named md name with
      | Some fd => inr (quoted q (ColName fd) +:+ excluded (quoted q (ColName fd)), [])
      | None => inl (ErrUnknownField name)
      end
  | AssOther _ => inl ErrUnsupportedAssignable
  end.
Definition conflict_frag (q : char) (md : Model) (col : string) : orm_error + frag :=
  match field_named md col with
  | Some fd => inr (quoted q (ColName fd), [])
  | None => inl (ErrUnknownField col)
  end.
(** All the pieces, or the first error. *)
Fixpoint all_frags (xs : list (orm_error + frag)) : orm_error + list frag :=
  match xs with
  | [] => inr []
  | inl e :: _ => inl e
  | inr f :: xs' => match all_frags xs' with inl e => inl e | inr fs => inr (f :: fs) end
  end.
Definition comma_frags (fs : list frag) : frag := (join "," (fst <$> fs), concat (snd <$> fs)).

Definition mysql_upsert (q : char) (md : Model) (u : Upsert) : orm_error + frag :=
  match all_frags (assign_frag q md (fun c => "=VALUES(" +:+ c +:+ ")") <$> assigns u) with
  | inl e => inl e
  | inr fs => let f := comma_frags fs in inr (" ON DUPLICATE KEY UPDATE " +:+ f.1, f.2)
  end.
Definition sqlite_upsert (q : char) (md : Model) (u : Upsert) : orm_error + frag :=
  match all_frags (conflict_frag q md <$> conflictColumns u) with
  | inl e => inl e
  | inr cs =>
      match all_frags (assign_frag q md (fun c => "=excluded." +:+ c) <$> assigns u) with
      | inl e => inl e
      | inr fs =>
          let f := comma_frags fs in
          inr ("ON CONFLICT(" +:+ (comma_frags cs).1 +:+ ") DO UPDATE SET " +:+ f.1, f.2)
      end
  end.

(** A rendering that does not touch the registry. *)
Definition r_pure (x : orm_error + frag) : R := fun r => Ok (r, x).

Lemma r_pure_str s r : r_pure (inr (s, [])) r = r_str s r.
Proof. reflexivity. Qed.
Lemma r_pure_seq x y r :
  (r_pure x ⊕ r_pure y) r =
  r_pure (match x, y with
          | inl e, _ => inl e
          | inr _, inl e => inl e
          | inr a, inr b => inr (a.1 +:+ b.1, a.2 ++ b.2)
          end) r.
Proof. rewrite r_seq_eq. unfold r_pure. by destruct x, y. Qed.

Lemma r_seps_pure {A} (g : A -> orm_error + frag) xs r :
  r_seps "," (r_pure ∘ g <$> xs) r =
  r_pure (match all_frags (g <$> xs) with inl e => inl e | inr fs => inr (comma_frags fs) end) r.
Proof.
  revert r. induction xs as [|x xs IH]; intros r; [done|].
  destruct xs as [|y xs].
  - unfold comma_frags, r_pure; cbn. destruct (g x) as [e|[t a]]; cbn; [done|].
    by rewrite app_nil_r.
  - change (r_seps "," (r_pure ∘ g <$> x :: y :: xs))
      with (r_pure (g x) ⊕ (r_str "," ⊕ r_seps "," (r_pure ∘ g <$> y :: xs))).
    rewrite r_seq_eq. change (r_pure (g x) r) with (Ok (r, g x) : go (registry * (orm_error + frag))).
    change (all_frags (g <$> x :: y :: xs)) with
      (match g x with
       | inl e => inl e
       | inr f => match all_frags (g <$> y :: xs) with inl e => inl e | inr fs => inr (f :: fs) end
       end).
    destruct (g x) as [e|[t a]]; [done|]. rewrite r_seq_eq. cbn [r_str mret GM_ret].
    rewrite IH. unfold r_pure.
    destruct (all_frags (g <$> y :: xs)) as [e|fs] eqn:E; [done|].
    destruct fs as [|f fs].
    { exfalso. cbn in E. destruct (g y); [done|]. by destruct (all_frags (g <$> xs)). }
    done.
Qed.

Section insert_impl.
Context (q : char) (md : Model).
Abbreviation impl := (implements q md).

Lemma impl_modelField name (k : Field -> B unit) (x : Field -> R) :
  (forall fd, impl (k fd) (x fd)) ->
  impl (fd ← modelField name; k fd)
    (match field_named md name with Some fd => x fd | None => r_err (ErrUnknownField name) end).
Proof.
  intros H. unfold modelField.
  eapply impl_eq_l; [intros b; symmetry; apply GM_bind_assoc|].
  apply impl_model, impl_field, H.
Qed.

Lemma impl_assign excluded ex a :
  (forall fd, impl (excluded fd) (r_str (ex (quoted q (ColName fd))))) ->
  impl (buildAssign excluded a) (r_pure (assign_frag q md ex a)).
Proof.
  intros He. destruct a as [a|[t name al]|o]; cbn [buildAssign assign_frag].
  - eapply impl_eq_r; [|apply impl_modelField; intros fd; apply impl_seq; [apply impl_quote|
      apply impl_seq; [apply impl_str|apply impl_args]]].
    intros r. cbn beta. by destruct (field_named md (as_col a)).
  - eapply impl_eq_r; [|apply impl_modelField; intros fd; apply impl_seq; [apply impl_quote|apply He]].
    intros r. cbn beta. by destruct (field_named md name).
  - eapply impl_eq_r; [|apply impl_err]. done.
Qed.
Lemma impl_conflict col : impl ((buildColumn ∘ C) col) (r_pure (conflict_frag q md col)).
Proof.
  eapply impl_eq_r; [|apply impl_column]. intros r. unfold conflict_frag, C, render_column.
  destruct (field_named md col); [|done]. change (r_alias q "") with (r_str "").
  by rewrite r_seq_nil_r.
Qed.

Lemma impl_assigns excluded ex xs :
  (forall fd, impl (excluded fd) (r_str (ex (quoted q (ColName fd))))) ->
  impl (commaLoop (buildAssign excluded) true xs)
    (r_pure (match all_frags (assign_frag q md ex <$> xs) with
             | inl e => inl e | inr fs => inr (comma_frags fs) end)).
Proof.
  intros He. eapply impl_eq_r; [intros r; apply r_seps_pure|].
  apply impl_loop. intros a _. by apply impl_assign.
Qed.

Lemma mysql_implements u : impl (mysql_buildUpsert u) (r_pure (mysql_upsert q md u)).
Proof.
  eapply impl_eq_r; [|apply impl_seq; [apply impl_str|apply
    (impl_assigns _ (fun c => "=VALUES(" +:+ c +:+ ")"))]].
  - intros r. rewrite r_seq_eq. unfold mysql_upsert. cbn [r_str mret GM_ret]. unfold r_pure.
    by destruct (all_frags _).
  - intros fd. apply impl_app; [apply impl_str|]. apply impl_app; [apply impl_quote|apply impl_byte].
Qed.

Lemma all_conflict_args cols cs :
  all_frags (conflict_frag q md <$> cols) = inr cs -> concat (snd <$> cs) = [].
Proof.
  revert cs. induction cols as [|col cols IH]; cbn [fmap list_fmap all_frags]; intros cs.
  - by intros [= <-].
  - unfold conflict_frag at 1. destruct (field_named md col); [|done].
    destruct (all_frags (conflict_frag q md <$> cols)); [done|]. intros [= <-]. cbn. by apply IH.
Qed.
Lemma sqlite_implements u : impl (sqlite_buildUpsert u) (r_pure (sqlite_upsert q md u)).
Proof.
  eapply impl_eq_r; [|apply impl_seq; [apply impl_str|apply impl_seq; [|
    apply impl_seq; [apply impl_str|apply (impl_assigns _ (fun c => "=excluded." +:+ c))]]]].
  2: { apply impl_loop. intros a _. apply impl_conflict. }
  2: { intros fd. apply impl_app; [apply impl_str|apply impl_quote]. }
  intros r. rewrite r_seq_eq. cbn [r_str mret GM_ret]. rewrite r_seq_eq.
  rewrite (r_seps_pure (conflict_frag q md)). unfold sqlite_upsert, r_pure.
  destruct (all_frags (conflict_frag q md <$> conflictColumns u)) as [e|cs] eqn:Ec; [done|].
  rewrite r_seq_eq. cbn [r_str mret GM_ret].
  destruct (all_frags (assign_frag _ _ _ <$> assigns u)) as [e|fs]; [done|].
  cbn. by rewrite (all_conflict_args _ _ Ec).
Qed.

(** Running an operation that succeeds, and then the rest. *)
Lemma impl_run m x (k : B Query) b r' f :
  impl m x -> quoter b = q -> model b = Some md -> x (b_r b) = Ok (r', inr f) ->
  (m ;; k) b = k (emit f r' b).
Proof.
  intros H Hq Hm Hx. specialize (H b Hq Hm). unfold implements_at in H. rewrite Hx in H.
  by rewrite GM_bind_eq, H.
Qed.
Lemma impl_run_str s m (k : B Query) b :
  impl m (r_str s) -> quoter b = q -> model b = Some md ->
  (m ;; k) b = k (emit (s, []) (b_r b) b).
Proof. intros. by eapply impl_run. Qed.
End insert_impl.

(** The values of a row, as the valuer reads them. *)
Definition row_reads (m : mem) (md : Model) (fields : list Field) (v : ptr) (xs : list sqlval) : Prop :=
  Forall2 (fun fd x => Value_Field (NewValue md v) (GoName fd) m = Ok (m, inr x)) fields xs.
Definition row_frag (xs : list sqlval) : frag :=
  ("(" +:+ join "," ((fun _ => "?") <$> xs) +:+ ")", AVal <$> xs).

Lemma all_frags_inr fs : all_frags (inr <$> fs) = inr fs.
Proof. induction fs as [|f fs IH]; [done|]. cbn. by rewrite IH. Qed.

Lemma commaLoop_run {A} q md (body : A -> B unit) (xs : list A) (fs : list frag) :
  Forall2 (fun x f => implements q md (body x) (r_pure (inr f))) xs fs ->
  implements q md (commaLoop body true xs) (r_pure (inr (comma_frags fs))).
Proof.
  intros HF.
  assert (forall first, implements q md (commaLoop body first xs)
    (r_str (if negb first then (match fs with [] => "" | _ => "," end) else "")
     ⊕ r_seps "," (r_pure ∘ inr <$> fs))) as H.
  { induction HF as [|x f xs fs Hx HF IH]; intros first; cbn [commaLoop fmap list_fmap].
    - eapply impl_eq_r; [intros r; symmetry; apply r_str_app|]. destruct first; by apply impl_ret.
    - apply impl_seq; [destruct first; [by apply impl_ret|apply impl_byte]|].
      destruct HF as [|x' f' xs fs Hx' HF].
      + cbn [commaLoop fmap list_fmap r_seps]. eapply impl_eq_r; [apply r_seq_nil_r|].
        apply impl_seq; [exact Hx|by apply impl_ret].
      + apply impl_seq; [exact Hx|]. apply IH. }
  eapply impl_eq_r; [|apply (H true)]. intros r. cbn [negb]. rewrite r_seq_nil_l.
  rewrite r_seps_pure. by rewrite all_frags_inr.
Qed.

Lemma insertRow_run q md m fields v xs :
  row_reads m md fields v xs ->
  implements q md (insertRow m md fields v) (r_pure (inr (row_frag xs))).
Proof.
  intros HF.
  eapply impl_eq_r; [|apply impl_seq; [apply impl_byte|apply impl_seq; [
    apply (commaLoop_run _ _ _ _ ((fun x => ("?", [AVal x])) <$> xs))|apply impl_byte]]].
  - intros r. rewrite r_seq_eq. cbn [r_str mret GM_ret].
    rewrite (r_pure_seq _ (inr (")", []))). unfold r_pure, row_frag, comma_frags.
    cbn. rewrite <-!list_fmap_compose, app_nil_r. cbn. repeat f_equal.
    clear. induction xs as [|x xs IH]; [done|]. cbn in *. by rewrite IH.
  - apply Forall2_fmap_r. eapply Forall2_impl; [exact HF|]. intros fd x Hx.
    eapply impl_eq_r; [|apply impl_seq; [apply impl_byte|apply (impl_eq_l _ _ (addArgs [AVal x]))]].
    + intros r. apply (r_pure_seq (inr ("?", [])) (inr ("", [AVal x]))).
    + intros b. rewrite GM_bind_eq. unfold readField. by rewrite Hx.
    + apply impl_args.
Qed.

(** The fields a statement inserts: the user's, or all of them. *)
Fixpoint named_fields (md : Model) (cols : list string) : orm_error + list Field :=
  match cols with
  | [] => inr []
  | c :: cols' =>
      match field_named md c with
      | None => inl (ErrUnknownColumn c)
      | Some fd => match named_fields md cols' with inl e => inl e | inr fs => inr (fd :: fs) end
      end
  end.
Definition insert_fields (md : Model) (cols : list string) : orm_error + list Field :=
  match cols with [] => inr (fields_of md) | _ => named_fields md cols end.

Lemma insertFields_eq md cols b : insertFields md cols b = Ok (b, insert_fields md cols).
Proof.
  unfold insertFields, insert_fields. destruct cols as [|c cols]; [done|].
  generalize (c :: cols). intros l. induction l as [|x l IH]; [done|].
  cbn [columnFields named_fields]. destruct (field_named md x) as [fd|]; [|done].
  rewrite GM_bind_eq, IH. by destruct (named_fields md l).
Qed.

Definition upsert_frag (up : char -> Model -> Upsert -> orm_error + frag) (q : char) (md : Model)
    (o : option Upsert) : orm_error + frag :=
  match o with Some u => up q md u | None => inr ("", []) end.

(** [INSERT INTO `t`(`c1`,`c2`) VALUES (?,?),(?,?)...;] *)
Definition insert_query (q : char) (md : Model) (fields : list Field) (rows : list (list sqlval))
    (up : frag) : Query :=
  mkQuery
    ("INSERT INTO " +:+ quoted q (TableName md) +:+ "(" +:+
     join "," ((fun fd => quoted q (ColName fd)) <$> fields) +:+ ") VALUES " +:+
     join "," ((fun _ => "(" +:+ join "," ((fun _ => "?") <$> fields) +:+ ")") <$> rows) +:+
     up.1 +:+ ";")
    ((AVal <$> concat rows) ++ up.2).

(** What a dialect promises to the builder. *)
Definition dialect_ok (d : Dialect) (up : char -> Model -> Upsert -> orm_error + frag) : Prop :=
  forall q md u, implements q md (d_buildUpsert d u) (r_pure (up q md u)).

(** The model is already there, or the registry gives it. *)
Definition has_model (i : Inserter) (b : builder) (md : Model) : Prop :=
  model b = Some md \/
  (model b = None /\ exists r', Get (i_T i) (b_r b) = Ok (r', inr md)).

Lemma ensure_model_run T b md (k : B Query) :
  (model b = Some md \/ (model b = None /\ exists r', Get T (b_r b) = Ok (r', inr md))) ->
  exists r', (ensure_model T ;; k) b = k (mkBuilder (sb b) (args b) (Some md) (quoter b) r').
Proof.
  rewrite GM_bind_eq. unfold ensure_model, r_Get. intros [H|[H [r' Hr]]].
  - rewrite H. exists (b_r b). destruct b; simpl in *. by subst.
  - rewrite H, Hr. simpl. eauto.
Qed.

Lemma row_frags fields rows m md vs :
  Forall2 (row_reads m md fields) vs rows ->
  comma_frags (row_frag <$> rows) =
  (join "," ((fun _ => "(" +:+ join "," ((fun _ => "?") <$> fields) +:+ ")") <$> rows),
   AVal <$> concat rows).
Proof.
  intros HF. unfold comma_frags. rewrite <-!list_fmap_compose. f_equal.
  - f_equal. induction HF as [|v xs vs rows Hr HF IH]; [done|]. cbn. rewrite IH. f_equal.
    unfold compose, row_frag; cbn. do 3 f_equal.
    clear -Hr. induction Hr as [|fd x fds xs Hx Hr IH]; [done|]. cbn. by rewrite IH.
  - clear. induction rows as [|xs rows IH]; [done|]. cbn. by rewrite IH, fmap_app.
Qed.

Definition insert_tail (i : Inserter) (m : mem) (md : Model) (fields : list Field) : B Query :=
  commaLoop (insertRow m md fields) true (values i) ;;
  (match onDuplicateKey i with
   | Some upsert => d_buildUpsert (i_dialect i) upsert
   | None => mret tt
   end) ;;
  writeByte ";"%char ;;
  b ← gm_get;
  mret (mkQuery (sb b) (args b)).

Lemma insert_tail_run i m up b md fields rows f :
  dialect_ok (i_dialect i) up -> model b = Some md ->
  Forall2 (row_reads m md fields) (values i) rows ->
  upsert_frag up (quoter b) md (onDuplicateKey i) = inr f ->
  let fr := comma_frags (row_frag <$> rows) in
  let b' := emit (fr.1 +:+ f.1 +:+ ";", fr.2 ++ f.2) (b_r b) b in
  insert_tail i m md fields b = Ok (b', inr (mkQuery (sb b') (args b'))).
Proof.
  intros Hd Hm HF Hup fr b'. unfold insert_tail.
  rewrite (impl_run (quoter b) md _ (r_pure (inr fr)) _ b (b_r b) fr); try done.
  2: { apply commaLoop_run, Forall2_fmap_r. eapply Forall2_impl; [exact HF|].
       intros v xs. apply insertRow_run. }
  rewrite (impl_run (quoter b) md _ (r_pure (upsert_frag up (quoter b) md (onDuplicateKey i)))
    _ _ (b_r b) f); try done.
  2: { destruct (onDuplicateKey i) as [u|]; [apply Hd|]. by apply impl_ret. }
  2: { by rewrite Hup. }
  rewrite (impl_run_str (quoter b) md ";"); [|apply impl_byte|done|done].
  cbn [b_r emit]. rewrite !emit_emit. cbn [fst snd]. rewrite GM_bind_eq. cbn [gm_get].
  subst b'. by rewrite app_nil_r.
Qed.

Lemma Inserter_Build_run i m up b md fields rows f :
  dialect_ok (i_dialect i) up -> has_model i b md -> values i <> [] ->
  insert_fields md (i_columns i) = inr fields ->
  Forall2 (row_reads m md fields) (values i) rows ->
  upsert_frag up (quoter b) md (onDuplicateKey i) = inr f ->
  exists b', Inserter_Build i m b = Ok (b', inr (insert_query (quoter b) md fields rows f)) /\
    model b' = Some md /\ quoter b' = quoter b.
Proof.
  intros Hd Hmod Hv Hf HF Hup. unfold Inserter_Build.
  destruct (values i) as [|v vs] eqn:Ev; [done|]. rewrite <-Ev in *.
  rewrite GM_bind_eq. cbn [reset_sb gm_modify].
  rewrite GM_bind_eq. cbn [writeString gm_modify sb args model quoter b_r].
  destruct (ensure_model_run (i_T i)
    (mkBuilder ("" +:+ "INSERT INTO ") (args b) (model b) (quoter b) (b_r b)) md
    (md0 ← the_model;
     quote (TableName md0) ;; writeByte "("%char ;; fields0 ← insertFields md0 (i_columns i);
     commaLoop (fun field => quote (ColName field)) true fields0 ;;
     writeByte ")"%char ;; writeString " VALUES " ;; reset_args ;; insert_tail i m md0 fields0))
    as [r' E]; [exact Hmod|]. unfold insert_tail in E. rewrite E. clear E.
  cbn [sb args quoter]. rewrite GM_bind_eq. cbn [the_model model].
  rewrite (impl_run_str (quoter b) md (quoted (quoter b) (TableName md)));
    [|apply impl_quote|done|done].
  rewrite (impl_run_str (quoter b) md "("); [|apply impl_byte|done|done].
  rewrite GM_bind_eq, insertFields_eq, Hf.
  rewrite (impl_run (quoter b) md _ (r_pure (inr (comma_frags
    ((fun fd => (quoted (quoter b) (ColName fd), [])) <$> fields)))) _ _ r'
    (comma_frags ((fun fd => (quoted (quoter b) (ColName fd), [])) <$> fields))); try done.
  2: { apply commaLoop_run, Forall2_fmap_r, Forall_Forall2_diag, Forall_forall. intros fd _.
       apply impl_quote. }
  rewrite (impl_run_str (quoter b) md ")"); [|apply impl_byte|done|done].
  rewrite (impl_run_str (quoter b) md " VALUES "); [|apply impl_str|done|done].
  rewrite !emit_emit. rewrite GM_bind_eq. cbn [reset_args gm_modify emit sb args model quoter b_r fst snd].
  set (b1 := mkBuilder _ [] _ _ _).
  pose proof (insert_tail_run i m up b1 md fields rows f Hd eq_refl HF Hup) as HT.
  unfold insert_tail in HT. rewrite HT. clear HT. match goal with |- exists _, Ok (?x, _) = _ /\ _ => exists x end. split; [|by split].
  do 3 f_equal. rewrite (row_frags fields rows m md (values i)) by done.
  unfold b1, insert_query. cbn [emit sb args fst snd]. f_equal.
  rewrite <-!string_app_assoc. unfold comma_frags; cbn [fst].
  rewrite <-list_fmap_compose. cbn. done.
Qed.

(** C13. [Inserter.Build] on any builder, used or fresh, with the model at hand
    or in the registry: when the columns and the assigned fields are known and
    the fields can be read, it returns the statement with one parenthesised
    group of placeholders for each value and one placeholder for each field, and
    the arguments row by row and then those of the upsert.  As it resets the
    text and the arguments, building again returns the same query. *)
Theorem Inserter_Build_correct i m up b md fields rows f :
  dialect_ok (i_dialect i) up -> has_model i b md -> values i <> [] ->
  insert_fields md (i_columns i) = inr fields ->
  Forall2 (row_reads m md fields) (values i) rows ->
  upsert_frag up (quoter b) md (onDuplicateKey i) = inr f ->
  exists b', Inserter_Build i m b = Ok (b', inr (insert_query (quoter b) md fields rows f)) /\
    exists b'', Inserter_Build i m b' = Ok (b'', inr (insert_query (quoter b) md fields rows f)).
Proof.
  intros Hd Hmod Hv Hf HF Hup.
  destruct (Inserter_Build_run i m up b md fields rows f Hd Hmod Hv Hf HF Hup)
    as (b' & HB & Hm' & Hq').
  exists b'. split; [done|]. rewrite <-Hq' in Hup |- *.
  destruct (Inserter_Build_run i m up b' md fields rows f Hd (or_introl Hm') Hv Hf HF Hup)
    as (b'' & HB' & _). eauto.
Qed.

(** The failures of an INSERT: no values, an unregistrable type and an
    unknown column are reported, in this order, before any value is read. *)
Lemma Inserter_Build_errors i m b :
  (values i = [] -> Inserter_Build i m b = Ok (b, inl ErrInsertZeroRow)) /\
  (forall r' err, values i <> [] -> model b = None -> Get (i_T i) (b_r b) = Ok (r', inl err) ->
     exists b', Inserter_Build i m b = Ok (b', inl err)) /\
  (forall md err, values i <> [] -> has_model i b md ->
     insert_fields md (i_columns i) = inl err ->
     exists b', Inserter_Build i m b = Ok (b', inl err)).
Proof.
  unfold Inserter_Build. split_and!.
  - by intros ->.
  - intros r' err Hv Hm Hg. destruct (values i) as [|v vs]; [done|].
    rewrite GM_bind_eq. cbn [reset_sb gm_modify].
    rewrite GM_bind_eq. cbn [writeString gm_modify]. rewrite GM_bind_eq.
    unfold ensure_model, r_Get. cbn [model b_r]. rewrite Hm, Hg. eauto.
  - intros md err Hv Hmod Hf. destruct (values i) as [|v vs]; [done|].
    rewrite GM_bind_eq. cbn [reset_sb gm_modify].
    rewrite GM_bind_eq. cbn [writeString gm_modify sb args model quoter b_r].
    match goal with |- exists _, (_ ≫= (fun _ => ?k)) ?b0 = _ =>
      destruct (ensure_model_run (i_T i) b0 md k Hmod) as [r' E] end.
    rewrite E. clear E. cbn [sb args quoter]. rewrite GM_bind_eq. cbn [the_model model].
    rewrite (impl_run_str (quoter b) md (quoted (quoter b) (TableName md)));
      [|apply impl_quote|done|done].
    rewrite (impl_run_str (quoter b) md "("); [|apply impl_byte|done|done].
    rewrite GM_bind_eq, insertFields_eq, Hf. eauto.
Qed.
End inserter.

Lemma mysql_ok : dialect_ok mysqlDialect mysql_upsert.
Proof. intros q md u. apply mysql_implements. Qed.
Lemma sqlite_ok : dialect_ok sqliteDialect sqlite_upsert.
Proof. intros q md u. apply sqlite_implements. Qed.

(** ** A concrete statement *)

Definition user_inserter : Inserter :=
  Update (ConflictColumns (OnDuplicateKey (Columns (Values
    (mkInserter user_entity sqliteDialect [] [] None) [user_ptr; user_ptr]) ["Id"; "FirstName"]))
    ["Id"]) [AssColumn (C "FirstName"); AssAssignment (Assign "LastName" (AVal (VStr "x")))].

Lemma Inserter_Build_correct_witness : exists b',
  Inserter_Build (HC := unsafe_Creator conv_plain) user_inserter user_mem (new_builder "`"%char []) =
  Ok (b', inr (mkQuery
    "INSERT INTO `test_model`(`id`,`first_name_t`) VALUES (?,?),(?,?)ON CONFLICT(`id`) DO UPDATE SET `first_name_t`=excluded.`first_name_t`,`last_name`=?;"
    [AVal (VInt 1); AVal (VStr "Tom"); AVal (VInt 1); AVal (VStr "Tom"); AVal (VStr "x")])).
Proof.
  destruct (Inserter_Build_correct (HC := unsafe_Creator conv_plain) user_inserter user_mem
    sqlite_upsert (new_builder "`"%char []) user_model
    [mkField "id" "int64" "Id" 0%Z; mkField "first_name_t" "string" "FirstName" 8%Z]
    [[VInt 1; VStr "Tom"]; [VInt 1; VStr "Tom"]]
    (match upsert_frag sqlite_upsert "`"%char user_model (onDuplicateKey user_inserter) with
     | inr f => f | inl _ => ("", []) end))
    as (b' & HB & _).
  - apply sqlite_ok.
  - right. split; [reflexivity|]. eexists. reflexivity.
  - discriminate.
  - reflexivity.
  - repeat constructor.
  - reflexivity.
  - exists b'. rewrite HB. reflexivity.
Defined.

Lemma Inserter_Build_errors_witness :
  Inserter_Build (HC := unsafe_Creator conv_plain)
    (mkInserter user_entity mysqlDialect [] [] None) user_mem (new_builder "`"%char []) =
  Ok (new_builder "`"%char [], inl ErrInsertZeroRow).
Proof.
  apply (proj1 (Inserter_Build_errors (HC := unsafe_Creator conv_plain)
    (mkInserter user_entity mysqlDialect [] [] None) user_mem (new_builder "`"%char []))).
  reflexivity.
Defined.
