(* ===== verification/Reflect.v ===== *)
(** The exercises on reflection and unsafe memory: [orm/reflect] ([fields.go],
    [iterate.go], [func_call.go]), [orm/unsafe/accessor.go] and the JSON column of
    [orm/sql_demo/json.go].

    Structures are in the memory of [Valuer]; a value passed as [any] is a
    structure, a pointer to a value, or something else. *)
From S2P Require Import Prelude Registry Sql Valuer.

#[export] Instance sqlval_eq_dec : EqDecision sqlval.
Proof. solve_decision. Defined.

(** ** Values and their types *)

Inductive rtype := KStruct (sfs : list StructField) | KPtr (elem : rtype) | KOther.
(** [VOther] only tells whether it is the zero value of its type. *)
Inductive rvalue :=
  | VStruct (sfs : list StructField) (base : Z)
  | VPtr (elem : rtype) (to : option rvalue)
  | VOther (zero : bool).
Definition TypeOf (v : rvalue) : rtype :=
  match v with VStruct sfs _ => KStruct sfs | VPtr t _ => KPtr t | VOther _ => KOther end.

Section fields.
(** [reflect.Zero] of a type, and whether a value may be assigned to a type. *)
Context (zero_of : string -> sqlval) (assignable : string -> sqlval -> bool).

(** [val.IsZero()] *)
Definition IsZero (m : mem) (v : rvalue) : bool :=
  match v with
  | VStruct sfs base =>
      forallb (fun sf => bool_decide (m !! (base + sf_Offset sf)%Z = Some (zero_of (sf_Type sf)))) sfs
  | VPtr _ to => match to with None => true | Some _ => false end
  | VOther zero => zero
  end.
Definition zero_Value {A} (method : string) : go A :=
  Panic (PUser ("reflect: call of reflect.Value." +:+ method +:+ " on zero Value")).

(** The loop of [IterateFields]: the type and the value go down together, and the
    element of a nil pointer is the zero [reflect.Value], here [None]. *)
Fixpoint indirect (typ : rtype) (val : option rvalue) : go (rtype * option rvalue) :=
  match typ with
  | KPtr elem =>
      match val with
      | Some (VPtr _ to) => indirect elem to
      | _ => zero_Value "Elem"
      end
  | _ => Ok (typ, val)
  end.

Inductive reflect_error :=
  | ErrNil              (** 不支持 nil *)
  | ErrZero             (** 不支持零值 *)
  | ErrKind             (** 不支持类型 *)
  | ErrCannotSet        (** 不可修改字段 *)
  | ErrIllegalField.    (** 非法字段 *)

(** The loop over the fields of the structure at an address. *)
Fixpoint iterate (sfs : list StructField) (base : Z) (m : mem) (res : gmap string sqlval)
  : go (gmap string sqlval) :=
  match sfs with
  | [] => Ok res
  | fieldType :: sfs' =>
      if is_exported (sf_Name fieldType) then
        match m !! (base + sf_Offset fieldType)%Z with
        | Some v => iterate sfs' base m (<[sf_Name fieldType := v]> res)
        | None => Panic (PFatal "invalid memory address")
        end
      else iterate sfs' base m (<[sf_Name fieldType := zero_of (sf_Type fieldType)]> res)
  end.
Definition IterateFields (entity : option rvalue) (m : mem) : go (reflect_error + gmap string sqlval) :=
  match entity with
  | None => Ok (inl ErrNil)
  | Some e =>
      if IsZero m e then Ok (inl ErrZero)
      else
        x ← indirect (TypeOf e) (Some e);
        match x with
        | (KStruct sfs, val) =>
            match sfs, val with
            | [], _ => Ok (inr ∅)
            | _, Some (VStruct _ base) => inr <$> iterate sfs base m ∅
            | _, _ => zero_Value "Field"
            end
        | _ => Ok (inl ErrKind)
        end
  end.

(** The loop of [SetField], and whether the value it ends with is addressable. *)
Fixpoint elem_of_pointers (val : rvalue) (addressable : bool) : go (rvalue * bool) :=
  match val with
  | VPtr _ None => zero_Value "Type"
  | VPtr _ (Some to) => elem_of_pointers to true
  | _ => Ok (val, addressable)
  end.
Definition find_sf (name : string) (sfs : list StructField) : option StructField :=
  List.find (fun sf => bool_decide (sf_Name sf = name)) sfs.
Definition SetField (entity : option rvalue) (field : string) (newVal : option sqlval) (m : mem)
  : go (mem * option reflect_error) :=
  match entity with
  | None => zero_Value "Type"
  | Some e =>
      x ← elem_of_pointers e false;
      match x with
      | (VStruct sfs base, addressable) =>
          match find_sf field sfs with
          | Some sf =>
              if addressable && is_exported field then
                match newVal with
                | None => zero_Value "Set"
                | Some v =>
                    if assignable (sf_Type sf) v then Ok (<[(base + sf_Offset sf)%Z := v]> m, None)
                    else Panic (PUser "reflect.Set: value is not assignable")
                end
              else Ok (m, Some ErrCannotSet)
          | None => Ok (m, Some ErrCannotSet)
          end
      | _ => Panic (PUser "reflect: call of reflect.Value.FieldByName on non-struct Value")
      end
  end.

(** ** [UnsafeAccessor] *)

Record fieldMeta := mkFieldMeta { fm_Offset : Z; fm_typ : string }.
Record UnsafeAccessor := mkUnsafeAccessor { ua_fields : gmap string fieldMeta; ua_address : Z }.
(** [NewUnsafeAccessor]; the address of a nil pointer is zero, and the elements
    of other values have no fields. *)
Definition NewUnsafeAccessor (entity : option rvalue) : go UnsafeAccessor :=
  match entity with
  | Some (VPtr (KStruct sfs) to) =>
      Ok (mkUnsafeAccessor
        (foldl (fun fs fd => <[sf_Name fd := mkFieldMeta (sf_Offset fd) (sf_Type fd)]> fs) ∅ sfs)
        (match to with Some (VStruct _ base) => base | _ => 0%Z end))
  | Some (VPtr _ _) => Panic (PUser "reflect: NumField of non-struct type")
  | Some _ => Panic (PUser "reflect: Elem of invalid type")
  | None => Panic PNilDeref
  end.
Definition accessor_Field (a : UnsafeAccessor) (field : string) (m : mem) : go (reflect_error + sqlval) :=
  match ua_fields a !! field with
  | None => Ok (inl ErrIllegalField)
  | Some fd =>
      match m !! (ua_address a + fm_Offset fd)%Z with
      | Some v => Ok (inr v)
      | None => Panic (PFatal "invalid memory address")
      end
  end.
Definition accessor_SetField (a : UnsafeAccessor) (field : string) (val : option sqlval) (m : mem)
  : go (mem * option reflect_error) :=
  match ua_fields a !! field with
  | None => Ok (m, Some ErrIllegalField)
  | Some fd =>
      match val with
      | None => zero_Value "Set"
      | Some v =>
          if assignable (fm_typ fd) v then
            match m !! (ua_address a + fm_Offset fd)%Z with
            | Some _ => Ok (<[(ua_address a + fm_Offset fd)%Z := v]> m, None)
            | None => Panic (PFatal "invalid memory address")
            end
          else Panic (PUser "reflect.Set: value is not assignable")
      end
  end.

(** ** The map of the fields *)

Lemma find_sf_Some name sfs sf : find_sf name sfs = Some sf -> sf ∈ sfs /\ sf_Name sf = name.
Proof.
  unfold find_sf. intros H%List.find_some. destruct H as [Hin Hb].
  split; [by apply list_elem_of_In|by apply bool_decide_eq_true_1 in Hb].
Qed.
Lemma find_sf_cons name sf sfs :
  find_sf name (sf :: sfs) = if decide (sf_Name sf = name) then Some sf else find_sf name sfs.
Proof. unfold find_sf. cbn. by case_decide as H; [rewrite bool_decide_eq_true_2|rewrite bool_decide_eq_false_2]. Qed.
Lemma find_sf_None name sfs : name ∉ (sf_Name <$> sfs) -> find_sf name sfs = None.
Proof.
  induction sfs as [|sf sfs IH]; [done|]. cbn [fmap list_fmap]. intros [H1 H2]%not_elem_of_cons.
  rewrite find_sf_cons, decide_False by congruence. by apply IH.
Qed.
(** A map filled by the names of fields. *)
Lemma foldl_fields_lookup {A} (F : StructField -> A) sfs (res : gmap string A) name :
  NoDup (sf_Name <$> sfs) ->
  foldl (fun res sf => <[sf_Name sf := F sf]> res) res sfs !! name =
  match find_sf name sfs with Some sf => Some (F sf) | None => res !! name end.
Proof.
  revert res. induction sfs as [|sf sfs IH]; intros res Hn; [done|].
  cbn [fmap list_fmap] in Hn. apply NoDup_cons in Hn as [Hnin Hn].
  cbn [foldl]. rewrite IH, find_sf_cons by done. case_decide as He.
  - subst name. rewrite find_sf_None by done. by rewrite lookup_insert_eq.
  - destruct (find_sf name sfs); [done|]. by rewrite lookup_insert_ne.
Qed.

(** What [IterateFields] shows of a field. *)
Definition shown (base : Z) (m : mem) (sf : StructField) : sqlval :=
  if is_exported (sf_Name sf) then default VNil (m !! (base + sf_Offset sf)%Z) else zero_of (sf_Type sf).
Definition mapped (sfs : list StructField) (base : Z) (m : mem) : Prop :=
  Forall (fun sf => is_Some (m !! (base + sf_Offset sf)%Z)) sfs.
Lemma iterate_eq sfs base m res :
  mapped sfs base m ->
  iterate sfs base m res = Ok (foldl (fun res sf => <[sf_Name sf := shown base m sf]> res) res sfs).
Proof.
  intros HF. revert res. induction HF as [|sf sfs [v Hv] HF IH]; intros res; [done|].
  cbn [iterate foldl]. unfold shown at 2. rewrite Hv. by destruct (is_exported (sf_Name sf)).
Qed.

Definition shown_fields (sfs : list StructField) (base : Z) (m : mem) : gmap string sqlval :=
  foldl (fun res sf => <[sf_Name sf := shown base m sf]> res) ∅ sfs.
Lemma shown_fields_lookup sfs base m name :
  NoDup (sf_Name <$> sfs) -> shown_fields sfs base m !! name = shown base m <$> find_sf name sfs.
Proof.
  intros Hn. unfold shown_fields. rewrite (foldl_fields_lookup (shown base m)) by done.
  by destruct (find_sf name sfs).
Qed.

(** A structure behind [n] pointers. *)
Fixpoint behind (n : nat) (sfs : list StructField) (base : Z) : rvalue :=
  match n with
  | O => VStruct sfs base
  | S n' => VPtr (TypeOf (behind n' sfs base)) (Some (behind n' sfs base))
  end.
Lemma indirect_behind n sfs base :
  indirect (TypeOf (behind n sfs base)) (Some (behind n sfs base)) = Ok (KStruct sfs, Some (VStruct sfs base)).
Proof. by induction n. Qed.
Lemma pointers_behind n sfs base b :
  elem_of_pointers (behind n sfs base) b = Ok (VStruct sfs base, match n with O => b | _ => true end).
Proof. revert b. induction n as [|n IH]; intros b; [done|]. cbn. rewrite IH. by destruct n. Qed.
Lemma IterateFields_behind n sfs base m :
  sfs <> [] -> mapped sfs base m ->
  IterateFields (Some (behind (S n) sfs base)) m =
  Ok (inr (shown_fields sfs base m)).
Proof.
  intros Hne HF. unfold IterateFields. cbn [IsZero behind].
  change (VPtr (TypeOf (behind n sfs base)) (Some (behind n sfs base))) with (behind (S n) sfs base).
  rewrite indirect_behind. cbn [mbind go_bind]. destruct sfs as [|sf sfs]; [done|].
  by rewrite iterate_eq.
Qed.
Lemma mapped_insert sfs base m a v : mapped sfs base m -> mapped sfs base (<[a := v]> m).
Proof.
  intros HF. eapply Forall_impl; [exact HF|]. intros sf Hs. unfold mem in *.
  rewrite lookup_insert_is_Some'. by right.
Qed.

(** The accessor of a structure. *)
Definition accessor_of (sfs : list StructField) (base : Z) : UnsafeAccessor :=
  mkUnsafeAccessor (foldl (fun fs fd => <[sf_Name fd := mkFieldMeta (sf_Offset fd) (sf_Type fd)]> fs) ∅ sfs) base.
Lemma accessor_lookup sfs base name :
  NoDup (sf_Name <$> sfs) ->
  ua_fields (accessor_of sfs base) !! name = (fun sf => mkFieldMeta (sf_Offset sf) (sf_Type sf)) <$> find_sf name sfs.
Proof.
  intros Hn. cbn. rewrite (foldl_fields_lookup (fun fd => mkFieldMeta (sf_Offset fd) (sf_Type fd))) by done.
  by destruct (find_sf name sfs).
Qed.
(** Reflection and unsafe access, on a structure with distinct fields.  The
    accessor of a pointer to it sets any field, and then reads the new value
    there and the old one in every other field.  Behind any number of pointers
    [SetField] does the same to an exported field, and [IterateFields] then
    shows the new value and nothing else changed.  An unexported field is not
    touched by [SetField], which reports it, and what the accessor writes there is not
    shown by [IterateFields]; a structure that is passed by value cannot be set. *)
Lemma reflect_unsafe_agree n sfs base (m : mem) f sf v :
  sfs <> [] -> NoDup (sf_Name <$> sfs) -> NoDup (sf_Offset <$> sfs) -> mapped sfs base m ->
  find_sf f sfs = Some sf -> assignable (sf_Type sf) v = true ->
  let e := behind (S n) sfs base in
  exists a m' res,
    NewUnsafeAccessor (Some (behind 1 sfs base)) = Ok a /\
    accessor_SetField a f (Some v) m = Ok (m', None) /\ accessor_Field a f m' = Ok (inr v) /\
    (forall g, g <> f -> accessor_Field a g m' = accessor_Field a g m) /\
    IterateFields (Some e) m = Ok (inr res) /\
    (if is_exported f
     then SetField (Some e) f (Some v) m = Ok (m', None) /\ IterateFields (Some e) m' = Ok (inr (<[f := v]> res))
     else SetField (Some e) f (Some v) m = Ok (m, Some ErrCannotSet) /\ IterateFields (Some e) m' = Ok (inr res)) /\
    SetField (Some (behind 0 sfs base)) f (Some v) m = Ok (m, Some ErrCannotSet).
Proof.
  intros Hne Hn Ho Hm Hf Hv e. destruct (find_sf_Some _ _ _ Hf) as [Hin Hname].
  set (m' := <[(base + sf_Offset sf)%Z := v]> m : mem).
  assert (Hother : forall sg, sg ∈ sfs -> sf_Name sg <> f -> m' !! (base + sf_Offset sg)%Z = m !! (base + sf_Offset sg)%Z).
  { intros sg Hg Hne'. apply mem_insert_other. intros E. apply Hne'. rewrite <-Hname. f_equal.
    eapply (NoDup_fmap_eq sf_Offset); [done..|]. lia. }
  assert (Hmf : is_Some (m !! (base + sf_Offset sf)%Z)).
  { unfold mapped in Hm. rewrite Forall_forall in Hm. by apply Hm. }
  exists (accessor_of sfs base), m'. eexists. split; [done|]. split_and!.
  - unfold accessor_SetField. rewrite accessor_lookup, Hf by done. cbn [fmap option_fmap option_map fm_typ fm_Offset].
    rewrite Hv. cbn [accessor_of ua_address]. by destruct Hmf as [w ->].
  - unfold accessor_Field. rewrite accessor_lookup, Hf by done. cbn.
    unfold m'. by rewrite mem_insert_same.
  - intros g Hg. unfold accessor_Field. rewrite accessor_lookup by done.
    destruct (find_sf g sfs) as [sg|] eqn:Hsg; [|done]. cbn.
    destruct (find_sf_Some _ _ _ Hsg) as [Hgin Hgn]. by rewrite Hother by (done || congruence).
  - by apply IterateFields_behind.
  - assert (HS : SetField (Some e) f (Some v) m =
      if is_exported f then Ok (m', None) else Ok (m, Some ErrCannotSet)).
    { unfold SetField, e. rewrite pointers_behind. cbn [mbind go_bind]. rewrite Hf.
      cbn [andb]. destruct (is_exported f); [|done]. by rewrite Hv. }
    assert (HI : shown_fields sfs base m' =
      if is_exported f then <[f := v]> (shown_fields sfs base m) else shown_fields sfs base m).
    { apply map_eq. intros g. rewrite shown_fields_lookup by done. destruct (decide (g = f)) as [->|Hg].
      - rewrite Hf. cbn. unfold shown at 1. rewrite Hname. destruct (is_exported f) eqn:He.
        + rewrite lookup_insert_eq. unfold m'. by rewrite mem_insert_same.
        + rewrite shown_fields_lookup, Hf by done. cbn. unfold shown. by rewrite Hname, He.
      - transitivity (shown_fields sfs base m !! g).
        2: { destruct (is_exported f); [|done]. by rewrite lookup_insert_ne. }
        rewrite shown_fields_lookup by done. destruct (find_sf g sfs) as [sg|] eqn:Hsg; [|done].
        destruct (find_sf_Some _ _ _ Hsg) as [Hgin Hgn]. cbn. unfold shown.
        by rewrite Hother by (done || congruence). }
    rewrite HS. unfold e. rewrite (IterateFields_behind n sfs base m') by (done || by apply mapped_insert).
    rewrite HI. by destruct (is_exported f).
  - unfold SetField. rewrite pointers_behind. cbn [mbind go_bind]. by rewrite Hf.
Qed.
End fields.

(** [types.User]; [zero_plain] and [assign_plain] know its two types. *)
Definition User_sfs : list StructField :=
  [mkStructField "Name" "string" [] 0%Z; mkStructField "age" "int" [] 16%Z].
Definition zero_plain (ty : string) : sqlval := if decide (ty = "string") then VStr "" else VInt 0.
Definition assign_plain (ty : string) (v : sqlval) : bool :=
  match v with VStr _ => bool_decide (ty = "string") | VInt _ => bool_decide (ty = "int") | VNil => false end.
(** [NewUser] and [NewUserPtr]: a structure at a fresh address. *)
Definition NewUser (name : string) (age base : Z) (m : mem) : mem :=
  <[base := VStr name]> (<[(base + 16)%Z := VInt age]> m).
Definition GetAge (base : Z) (m : mem) : go sqlval := go_of_option PNilDeref (m !! (base + 16)%Z).
Definition ChangeName (newName : string) (base : Z) (m : mem) : mem := <[base := VStr newName]> m.

Lemma reflect_unsafe_agree_witness :
  let m := NewUser "Tom" 18 100 ∅ in
  (exists m', SetField assign_plain (Some (behind 1 User_sfs 100)) "Name" (Some (VStr "Jerry")) m = Ok (m', None)) /\
  exists m' res, IterateFields zero_plain (Some (behind 2 User_sfs 100)) m = Ok (inr res) /\
    SetField assign_plain (Some (behind 2 User_sfs 100)) "age" (Some (VInt 19)) m = Ok (m, Some ErrCannotSet) /\
    IterateFields zero_plain (Some (behind 2 User_sfs 100)) m' = Ok (inr res).
Proof.
  intros m.
  assert (mapped User_sfs 100 m) as Hm by (constructor; [eexists; reflexivity|constructor; [eexists; reflexivity|constructor]]).
  split.
  - destruct (reflect_unsafe_agree zero_plain assign_plain 0 User_sfs 100 m "Name"
      (mkStructField "Name" "string" [] 0%Z) (VStr "Jerry") ltac:(discriminate) ltac:(go_decide) ltac:(go_decide)
      Hm eq_refl eq_refl) as (a & m' & res & _ & _ & _ & _ & _ & [H _] & _).
    exists m'. exact H.
  - destruct (reflect_unsafe_agree zero_plain assign_plain 1 User_sfs 100 m "age"
      (mkStructField "age" "int" [] 16%Z) (VInt 19) ltac:(discriminate) ltac:(go_decide) ltac:(go_decide)
      Hm eq_refl eq_refl) as (a & m' & res & _ & _ & _ & _ & HI & [HS HI'] & _).
    exists m', res. split; [exact HI|]. split; [exact HS|exact HI'].
Defined.

(** ** [iterate.go] *)

Section iterate.
Context {A K : Type}.

(** What the two functions are given: arrays and slices, strings (whose elements
    are bytes), maps with the order of the iteration, and anything else. *)
Inductive container :=
  | CList (l : list A) | CString (l : list A) | CMap (l : list (K * A)) | COther.
Definition Len (c : container) : go nat :=
  match c with
  | CList l | CString l => Ok (length l)
  | CMap l => Ok (length l)
  | COther => Panic (PUser "reflect: call of reflect.Value.Len")
  end.
Definition Index (c : container) (i : nat) : go A :=
  match c with
  | CList l | CString l => go_of_option PIndex (l !! i)
  | _ => Panic (PUser "reflect: call of reflect.Value.Index")
  end.
(** The loop up to [val.Len()], which is asked again in every round. *)
Fixpoint iterate_loop (fuel : nat) (c : container) (i : nat) (res : list A) : go (list A) :=
  n ← Len c;
  if decide (i < n) then
    match fuel with
    | O => Panic PFuel
    | S fuel' => ele ← Index c i; iterate_loop fuel' c (S i) (res ++ [ele])
    end
  else Ok res.
Definition IterateArrayOrSlice (c : container) : go (list A) :=
  n ← Len c; iterate_loop n c 0 [].
Definition IterateMap (c : container) : go (list K * list A) :=
  match c with
  | CMap l => Ok (foldl (fun res kv => (res.1 ++ [kv.1], res.2 ++ [kv.2])) ([], []) l)
  | CList _ | CString _ => Panic (PUser "reflect: call of reflect.Value.MapRange")
  | COther => Panic (PUser "reflect: call of reflect.Value.Len")
  end.

Lemma iterate_loop_drop fuel l : forall i res,
  i + fuel = length l -> iterate_loop fuel (CList l) i res = Ok (res ++ drop i l).
Proof.
  induction fuel as [|fuel IH]; intros i res Hi; cbn.
  - rewrite decide_False by lia. rewrite drop_ge by lia. by rewrite app_nil_r.
  - rewrite decide_True by lia. destruct (lookup_lt_is_Some_2 l i) as [x Hx]; [lia|].
    rewrite Hx. cbn. rewrite IH by lia. by rewrite <-app_assoc, (drop_S l x i).
Qed.
(** All elements, in order; and the keys of a map beside their values. *)
Lemma IterateArrayOrSlice_all l : IterateArrayOrSlice (CList l) = Ok l.
Proof. unfold IterateArrayOrSlice. cbn. by rewrite iterate_loop_drop. Qed.
Lemma IterateMap_all l : IterateMap (CMap l) = Ok (l.*1, l.*2).
Proof.
  cbn. f_equal. assert (forall res, foldl (fun (res : list K * list A) kv => (res.1 ++ [kv.1], res.2 ++ [kv.2])) res l
    = (res.1 ++ l.*1, res.2 ++ l.*2)) as H; [|apply H].
  induction l as [|[k a] l IH]; intros [ks vs]; cbn; [by rewrite !app_nil_r|].
  rewrite IH. cbn. by rewrite <-!app_assoc.
Qed.
End iterate.

(** ** [func_call.go] *)

Section func_call.
Context {V W : Type}.

(** A method in the method set of the dynamic type, by name as [reflect] orders
    them: its types, without the receiver, and its effect on the state. *)
Record method := mkMethod {
  mt_Name : string; mt_In : list string; mt_Out : list string;
  mt_call : V -> list V -> W -> go (W * list V) }.
Record FunInfo := mkFunInfo {
  fi_Name : string; InputTypes : list string; OutputTypes : list string; fi_Result : list V }.
Context (zero_of : string -> V).

(** The loop of [IterateFunc]: each method is called on the entity with zero
    arguments. *)
Fixpoint call_methods (typ : string) (entity : V) (ms : list method) (res : gmap string FunInfo) (w : W)
  : go (W * gmap string FunInfo) :=
  match ms with
  | [] => Ok (w, res)
  | mt :: ms' =>
      x ← mt_call mt entity (zero_of <$> mt_In mt) w;
      call_methods typ entity ms'
        (<[mt_Name mt := mkFunInfo (mt_Name mt) (typ :: mt_In mt) (mt_Out mt) x.2]> res) x.1
  end.
Definition IterateFunc (typ : string) (entity : V) (ms : list method) (w : W) : go (W * gmap string FunInfo) :=
  call_methods typ entity ms ∅ w.

Lemma call_methods_lookup typ entity ms : forall res w w' res' name,
  NoDup (mt_Name <$> ms) -> call_methods typ entity ms res w = Ok (w', res') ->
  match List.find (fun mt => bool_decide (mt_Name mt = name)) ms with
  | Some mt => exists w0 w1 out, mt_call mt entity (zero_of <$> mt_In mt) w0 = Ok (w1, out) /\
      res' !! name = Some (mkFunInfo name (typ :: mt_In mt) (mt_Out mt) out)
  | None => res' !! name = res !! name
  end.
Proof.
  induction ms as [|mt ms IH]; intros res w w' res' name Hn H; [by injection H as _ <-|].
  cbn [fmap list_fmap] in Hn. apply NoDup_cons in Hn as [Hnin Hn]. cbn [call_methods] in H.
  destruct (mt_call mt entity (zero_of <$> mt_In mt) w) as [[w1 out]|] eqn:Hc; [|done].
  cbn [mbind go_bind fst snd] in H. specialize (IH _ _ _ _ name Hn H). cbn [List.find].
  destruct (decide (mt_Name mt = name)) as [<-|Hne].
  - rewrite bool_decide_eq_true_2 by done. exists w, w1, out. split; [done|].
    assert (List.find (fun x => bool_decide (mt_Name x = mt_Name mt)) ms = None) as Hnone.
    { clear -Hnin. induction ms as [|x ms IH]; [done|]. cbn in *. apply not_elem_of_cons in Hnin as [H1 H2].
      rewrite bool_decide_eq_false_2 by congruence. by apply IH. }
    rewrite Hnone in IH. rewrite IH. by rewrite lookup_insert_eq.
  - rewrite bool_decide_eq_false_2 by done.
    destruct (List.find (fun x => bool_decide (mt_Name x = name)) ms); [done|].
    rewrite IH. by rewrite lookup_insert_ne.
Qed.
End func_call.

(** ** The JSON column *)

Section json.
Context {T : Type}.
(** [json.Marshal] and [json.Unmarshal] into a value, which it may have changed
    when it fails; the errors are strings. *)
Context (Marshal : T -> string + string) (Unmarshal : string -> T -> T * option string).

Record JsonColumn := mkJsonColumn { Val : T; Valid : bool }.
(** What [database/sql] passes to [Scan]. *)
Inductive src := SrcString (s : string) | SrcBytes (s : string) | SrcNil | SrcOther.
(** [None] is the value nil. *)
Definition json_Value (j : JsonColumn) : string + option string :=
  if negb (Valid j) then inr None
  else match Marshal (Val j) with inl err => inl err | inr bs => inr (Some bs) end.
Definition json_Scan (s : src) (j : JsonColumn) : JsonColumn * option string :=
  match s with
  | SrcNil => (j, None)
  | SrcOther => (j, Some "不支持类型")
  | SrcString bs | SrcBytes bs =>
      let '(val, err) := Unmarshal bs (Val j) in
      (mkJsonColumn val (match err with Some _ => true | None => Valid j end), err)
  end.

(** A column that was read from the database is written back as NULL: a
    successful [Scan] leaves [Valid] as it was, and a failing one sets it. *)
Lemma json_Scan_lost bs v0 v :
  Unmarshal bs v0 = (v, None) ->
  json_Scan (SrcBytes bs) (mkJsonColumn v0 false) = (mkJsonColumn v false, None) /\
  json_Value (json_Scan (SrcBytes bs) (mkJsonColumn v0 false)).1 = inr None.
Proof. intros H. unfold json_Scan. cbn [Val Valid]. by rewrite H. Qed.
Lemma json_Scan_invalid bs v0 b v err :
  Unmarshal bs v0 = (v, Some err) -> Valid (json_Scan (SrcBytes bs) (mkJsonColumn v0 b)).1 = true.
Proof. intros H. unfold json_Scan. cbn [Val Valid]. by rewrite H. Qed.
End json.
