(* ===== verification/Orm.v ===== *)
(** Execution of queries: [orm/core.go], [orm/middleware.go], [orm/raw_query.go],
    [orm/result.go], [orm/db.go], [orm/transaction.go], [Selector.Get] and
    [Inserter.Exec].

    [database/sql] and the driver behind it are the class [SqlDB].  What a
    handler did to the world survives its panic, for the deferred calls that run
    then; a method of the builder or of the valuer that panics leaves its
    receiver as it found it. *)
From S2P Require Import Prelude Registry Sql Valuer Insert.

(** ** The database below *)

(** [*sql.DB] and [*sql.Tx] over a driver state [D].  A handle is [None] for the
    pool and [Some t] for a transaction; a query gives no row or a row. *)
Class SqlDB (D : Type) := {
  sql_Query : option nat -> string -> list any -> D -> D * (orm_error + option Rows);
  sql_Exec : option nat -> string -> list any -> D -> D * (orm_error + (Z * Z));
  sql_BeginTx : D -> D * (orm_error + nat);
  sql_Commit : nat -> D -> D * option orm_error;
  sql_Rollback : nat -> D -> D * option orm_error;
  sql_Now : D -> Z
}.

(** ** Results *)

(** [sql.Result]: nil, the driver's, or the ORM's [Result] around another. *)
Inductive sqlResult :=
  | NilResult
  | DriverResult (lastId affected : Z)
  | Result (err : option orm_error) (res : sqlResult).

Definition Result_Err (r : sqlResult) : option orm_error :=
  match r with Result err _ => err | _ => None end.
Fixpoint LastInsertId (r : sqlResult) : go (orm_error + Z) :=
  match r with
  | NilResult => Panic PNilDeref
  | DriverResult i _ => Ok (inr i)
  | Result (Some err) _ => Ok (inl err)
  | Result None res => LastInsertId res
  end.
Fixpoint RowsAffected (r : sqlResult) : go (orm_error + Z) :=
  match r with
  | NilResult => Panic PNilDeref
  | DriverResult _ n => Ok (inr n)
  | Result (Some err) _ => Ok (inl err)
  | Result None res => RowsAffected res
  end.

(** What [QueryResult.Result] holds: nil, a [*T], or a [Result]. *)
Inductive qresult := RNil | RRow (tp : ptr) | RResult (r : sqlResult).
Record QueryResult := mkQueryResult { qr_Result : qresult; qr_Err : option orm_error }.

(** ** Handlers *)

Section orm.
Context {D : Type} {HD : SqlDB D}.

(** A [logFunc]: the one that prints, or a function of the user, by its number. *)
Inductive logger := LogPrintf | LogUser (fn : nat).
(** What the middlewares and the handlers do that can be observed; a duration
    is in milliseconds and a tracer is known by its name. *)
Inductive event :=
  | EvQuery (tx : option nat) (sql : string) (args : list any)
  | EvExec (tx : option nat) (sql : string) (args : list any)
  | EvLog (fn : logger) (sql : string) (args : list any)
  | EvObserve (type table : string) (ms : Z)
  | EvSpanStart (tracer name : string)
  | EvAttribute (key val : string)
  | EvRecordError (err : orm_error)
  | EvSpanEnd.

(** The state a query runs in: its own builder, the database, the memory. *)
Record world := mkWorld { w_b : builder; w_db : D; w_mem : mem; w_log : list event }.

(** A computation on the world: it returns or panics, and the world is what it
    made of it in both cases. *)
Definition OM (A : Type) : Type := world -> world * go A.
#[export] Instance OM_ret : MRet OM := fun A a w => (w, Ok a).
#[export] Instance OM_bind : MBind OM := fun A B f m w =>
  match m w with
  | (w, Ok a) => f a w
  | (w, Panic p) => (w, Panic p)
  end.
Definition lift_go {A} (x : go A) : OM A := fun w => (w, x).
(** [defer d()]: it runs after a return and after a panic; a panic of its own
    replaces the other. *)
Definition deferred {A} (d : OM unit) (m : OM A) : OM A := fun w =>
  let '(w, x) := m w in
  match d w with
  | (w, Ok _) => (w, x)
  | (w, Panic p) => (w, Panic p)
  end.

(** [QueryContext]: the builder is a method call on the state's [builder]. *)
Record QueryContext := mkQueryContext {
  qc_Type : string; qc_Builder : B Query; qc_Model : option Model }.

Definition Handler : Type := QueryContext -> OM QueryResult.
Definition Middleware : Type := Handler -> Handler.

(** [core], less the model and the registry, which are in the builder. *)
Definition creator_fn : Type := Model -> ptr -> Rows -> GM mem orm_error unit.
Definition creator_of (V : Type) {HC : Creator V} : creator_fn := fun md p rows =>
  Value_SetColumns (NewValue md p) rows.
Record core := mkCore {
  c_dialect : Dialect; c_creator : creator_fn; c_mdls : list Middleware }.

(** [Session]: the pool or a transaction. *)
Record Session := mkSession { sess_getCore : go core; sess_handle : option nat }.

Definition add_event (e : event) (w : world) : world :=
  mkWorld (w_b w) (w_db w) (w_mem w) (w_log w ++ [e]).
Definition log_event (e : event) : OM unit := fun w => (add_event e w, Ok tt).
Definition sess_queryContext (s : Session) (sql : string) (args : list any)
  : OM (orm_error + option Rows) := fun w =>
  let '(d, x) := sql_Query (sess_handle s) sql args (w_db w) in
  (mkWorld (w_b w) d (w_mem w) (w_log w ++ [EvQuery (sess_handle s) sql args]), Ok x).
Definition sess_execContext (s : Session) (sql : string) (args : list any)
  : OM (orm_error + (Z * Z)) := fun w =>
  let '(d, x) := sql_Exec (sess_handle s) sql args (w_db w) in
  (mkWorld (w_b w) d (w_mem w) (w_log w ++ [EvExec (sess_handle s) sql args]), Ok x).
(** A method on the builder, [qc.Builder.Build()] above all, and one on memory. *)
Definition on_builder {A} (f : B A) : OM (orm_error + A) := fun w =>
  match f (w_b w) with
  | Ok (b, x) => (mkWorld b (w_db w) (w_mem w) (w_log w), Ok x)
  | Panic p => (w, Panic p)
  end.
Definition qc_Build (qc : QueryContext) : OM (orm_error + Query) := on_builder (qc_Builder qc).
Definition on_mem {A} (f : GM mem orm_error A) : OM (orm_error + A) := fun w =>
  match f (w_mem w) with
  | Ok (m, x) => (mkWorld (w_b w) (w_db w) m (w_log w), Ok x)
  | Panic p => (w, Panic p)
  end.

(** [new(T)]: zeroed cells above every address in use. *)
Definition mem_top (m : mem) : Z := map_fold (fun a _ top => Z.max (a + 1) top)%Z 0%Z m.
Definition new_T (sfs : list StructField) (m : mem) : ptr * mem :=
  let p := mkPtr sfs (mem_top m) in
  (p, foldl (fun m sf => <[(p_addr p + sf_Offset sf)%Z := VNil]> m) m sfs).

Definition new_row (sfs : list StructField) : OM ptr := fun w =>
  let '(p, m) := new_T sfs (w_mem w) in (mkWorld (w_b w) (w_db w) m (w_log w), Ok p).
(** The error of a call that gives nothing else. *)
Definition err_of {A} (x : orm_error + A) : option orm_error :=
  match x with inl err => Some err | inr _ => None end.

(** [getHandler[T]]; [sfs] are the fields of [T], [md] is [c.model]. *)
Definition getHandler (sfs : list StructField) (sess : Session) (c : core) (md : option Model)
  : Handler := fun qc =>
  x ← qc_Build qc;
  match x with
  | inl err => mret (mkQueryResult RNil (Some err))
  | inr q =>
      y ← sess_queryContext sess (SQL q) (Args q);
      match y with
      | inl err => mret (mkQueryResult RNil (Some err))
      | inr None => mret (mkQueryResult RNil (Some ErrNoRows))
      | inr (Some rows) =>
          tp ← new_row sfs;
          model ← lift_go (go_of_option PNilDeref md);
          z ← on_mem (c_creator c model tp rows);
          mret (mkQueryResult (RRow tp) (err_of z))
      end
  end.

Definition execHandler (sess : Session) (c : core) : Handler := fun qc =>
  x ← qc_Build qc;
  match x with
  | inl err => mret (mkQueryResult (RResult (Result (Some err) NilResult)) (Some err))
  | inr q =>
      y ← sess_execContext sess (SQL q) (Args q);
      match y with
      | inl err => mret (mkQueryResult (RResult (Result (Some err) NilResult)) (Some err))
      | inr (i, n) => mret (mkQueryResult (RResult (Result None (DriverResult i n))) None)
      end
  end.

(** [for i := len(c.mdls)-1; i >= 0; i-- { root = c.mdls[i](root) }] *)
Definition wrap (mdls : list Middleware) (root : Handler) : Handler :=
  fold_right (fun mdl root => mdl root) root mdls.
Definition get (sfs : list StructField) (sess : Session) (c : core) (md : option Model) : Handler :=
  wrap (c_mdls c) (getHandler sfs sess c md).
Definition exec (sess : Session) (c : core) : Handler := wrap (c_mdls c) (execHandler sess c).

(** [s.model, err = s.r.Get(new(T))] *)
Definition set_model (T : entity) : OM (option orm_error) := fun w =>
  let with_model b md := mkWorld (mkBuilder (sb b) (args b) md (quoter b) (b_r b)) (w_db w) (w_mem w) (w_log w) in
  match r_Get T (w_b w) with
  | Ok (b, inr m) => (with_model b (Some m), Ok None)
  | Ok (b, inl err) => (with_model b None, Ok (Some err))
  | Panic p => (w, Panic p)
  end.
(** [s.model] *)
Definition get_model : OM (option Model) := fun w => (w, Ok (model (w_b w))).
(** The model, set when it is nil. *)
Definition query_model (T : entity) : OM (option orm_error) :=
  md ← get_model;
  match md with None => set_model T | Some _ => mret None end.

(** The fields of the structure type of an entity. *)
Definition struct_fields (T : entity) : list StructField :=
  match e_type T with Some (TPointer (TStruct _ sfs)) => sfs | _ => [] end.

(** The row and the error of a [QueryResult]; a [Result] is not a [*T]. *)
Definition row_result (res : QueryResult) : go (option ptr * option orm_error) :=
  match qr_Result res with
  | RNil => Ok (None, qr_Err res)
  | RRow tp => Ok (Some tp, qr_Err res)
  | RResult _ => Panic PTypeAssert
  end.
(** [Result] of a [QueryResult]; a [*T] is not an [sql.Result]. *)
Definition exec_result (res : QueryResult) : go sqlResult :=
  match qr_Result res with
  | RNil => Ok (Result (qr_Err res) NilResult)
  | RResult r => Ok (Result (qr_Err res) r)
  | RRow _ => Panic PTypeAssert
  end.

Definition Selector_Get (s : Selector) (sess : Session) (c : core)
  : OM (option ptr * option orm_error) :=
  x ← set_model (s_T s);
  match x with
  | Some err => mret (None, Some err)
  | None =>
      md ← get_model;
      y ← get (struct_fields (s_T s)) sess c md (mkQueryContext "SELECT" (Selector_Build s) md);
      lift_go (row_result y)
  end.
(** [GetMulti] runs the query and drops the rows and the error. *)
Definition Selector_GetMulti (s : Selector) (sess : Session)
  : OM (option (list ptr) * option orm_error) :=
  x ← on_builder (Selector_Build s);
  match x with
  | inl err => mret (None, Some err)
  | inr q => sess_queryContext sess (SQL q) (Args q) ;; mret (None, None)
  end.

(** [i.values] point into memory, which [Build] reads each time. *)
Definition Inserter_Exec {V} {HC : Creator V} (i : Inserter) (sess : Session) (c : core) : OM sqlResult := fun w =>
  (x ← query_model (i_T i);
   match x with
   | Some err => mret (Result (Some err) NilResult)
   | None =>
       md ← get_model;
       y ← exec sess c (mkQueryContext "INSERT" (Inserter_Build (HC := HC) i (w_mem w)) md);
       lift_go (exec_result y)
   end) w.

(** [NewSelector] and [NewInserter] on a session: the core, the empty query and
    its builder, which shares the registry [r] of the core. *)
Definition NewSelectorOn (T : entity) (sess : Session) (r : registry)
  : go (core * Selector * builder) :=
  c ← sess_getCore sess;
  q ← d_quoter (c_dialect c);
  Ok (c, NewSelector T, new_builder q r).
Definition NewInserterOn (T : entity) (sess : Session) (r : registry)
  : go (core * (Inserter * builder)) :=
  c ← sess_getCore sess;
  i ← NewInserter T (c_dialect c) r;
  Ok (c, i).

(** ** Raw queries

    The methods have a value receiver: the model they set is that of a copy, and
    each call starts from the builder of [RawQuery]. *)

Record RawQuerier := mkRawQuerier { rq_T : entity; rq_sql : string; rq_args : list any }.
Definition RawQuerier_Build (r : RawQuerier) : B Query := mret (mkQuery (rq_sql r) (rq_args r)).
Definition RawQuery (T : entity) (sess : Session) (query : string) (args : list any)
  : go (RawQuerier * core) :=
  c ← sess_getCore sess; Ok (mkRawQuerier T query args, c).
Definition RawQuerier_Get (r : RawQuerier) (sess : Session) (c : core)
  : OM (option ptr * option orm_error) :=
  x ← set_model (rq_T r);
  match x with
  | Some err => mret (None, Some err)
  | None =>
      md ← get_model;
      y ← get (struct_fields (rq_T r)) sess c md (mkQueryContext "RAW" (RawQuerier_Build r) md);
      lift_go (row_result y)
  end.
Definition RawQuerier_Exec (r : RawQuerier) (sess : Session) (c : core) : OM sqlResult :=
  x ← query_model (rq_T r);
  match x with
  | Some err => mret (Result (Some err) NilResult)
  | None =>
      md ← get_model;
      y ← exec sess c (mkQueryContext "RAW" (RawQuerier_Build r) md);
      lift_go (exec_result y)
  end.
(** It is not written yet. *)
Definition RawQuerier_GetMulti (r : RawQuerier) (sess : Session) (c : core)
  : OM (option (list ptr) * option orm_error) := lift_go (Panic (PUser "implement me")).

(** ** The database handle and transactions *)

Record DB := mkDB { db_core : core }.
Definition DBOption : Type := DB -> DB.
(** [OpenDB]: the defaults, then the options in order. *)
Definition OpenDB (convertAssign : string -> sqlval -> option sqlval) (opts : list DBOption) : DB :=
  foldl (fun db opt => opt db)
    (mkDB (mkCore mysqlDialect (creator_of unsafeValue (HC := unsafe_Creator convertAssign)) [])) opts.
Definition DBWithMiddleware (mdls : list Middleware) : DBOption := fun db =>
  mkDB (mkCore (c_dialect (db_core db)) (c_creator (db_core db)) mdls).
Definition DBWithDialect (dialect : Dialect) : DBOption := fun db =>
  mkDB (mkCore dialect (c_creator (db_core db)) (c_mdls (db_core db))).
Definition DBWithReflect (convertAssign : string -> sqlval -> option sqlval) : DBOption := fun db =>
  mkDB (mkCore (c_dialect (db_core db))
    (creator_of reflectValue (HC := reflect_Creator convertAssign)) (c_mdls (db_core db))).

(** [Open] and [MustOpenDB]: [sql.Open] fails or not. *)
Definition Open (sql_Open : option orm_error) (convertAssign : string -> sqlval -> option sqlval)
    (opts : list DBOption) : orm_error + DB :=
  match sql_Open with Some err => inl err | None => inr (OpenDB convertAssign opts) end.
Definition MustOpenDB (sql_Open : option orm_error) (convertAssign : string -> sqlval -> option sqlval)
    (opts : list DBOption) : go DB :=
  match Open sql_Open convertAssign opts with
  | inl err => Panic (PUser "MustOpenDB")
  | inr res => Ok res
  end.
(** [Wait], over the results of the pings; [None] is still waiting. *)
Definition ErrBadConn : orm_error := ErrDriver "driver: bad connection".
Fixpoint Wait (pings : list (option orm_error)) : option (option orm_error) :=
  match pings with
  | [] => None
  | err :: pings' => if decide (err = Some ErrBadConn) then Wait pings' else Some err
  end.

Record Tx := mkTx { tx_tx : nat; tx_db : option DB; tx_done : bool }.

(** The two sessions. *)
Definition DB_Session (db : DB) : Session := mkSession (Ok (db_core db)) None.
Definition Tx_Session (t : Tx) : Session :=
  mkSession (db ← go_of_option PNilDeref (tx_db t); Ok (db_core db)) (Some (tx_tx t)).

(** Pointers to transactions live in a heap; a context carries at most one. *)
Record txworld := mkTxWorld { t_d : D; t_heap : list Tx }.
Definition context : Type := option nat.

Definition DB_BeginTx (db : DB) (w : txworld) : txworld * (orm_error + nat) :=
  match sql_BeginTx (t_d w) with
  | (d, inl err) => (mkTxWorld d (t_heap w), inl err)
  | (d, inr tx) =>
      (mkTxWorld d (t_heap w ++ [mkTx tx None false]), inr (length (t_heap w)))
  end.
Definition BeginTxV2 (db : DB) (ctx : context) (w : txworld)
  : txworld * (orm_error + (context * nat)) :=
  match (p ← ctx; t ← t_heap w !! p; if tx_done t then None else Some p) with
  | Some p => (w, inr (ctx, p))
  | None =>
      match DB_BeginTx db w with
      | (w, inl err) => (w, inl err)
      | (w, inr p) => (w, inr (Some p, p))
      end
  end.

(** [t.done = true], then the method of [*sql.Tx]. *)
Definition finish (f : nat -> D -> D * option orm_error) (p : nat) (w : txworld)
  : go (txworld * option orm_error) :=
  t ← go_of_option PNilDeref (t_heap w !! p);
  let '(d, err) := f (tx_tx t) (t_d w) in
  Ok (mkTxWorld d (<[p := mkTx (tx_tx t) (tx_db t) true]> (t_heap w)), err).
Definition Tx_Commit : nat -> txworld -> go (txworld * option orm_error) := finish sql_Commit.
Definition Tx_Rollback : nat -> txworld -> go (txworld * option orm_error) := finish sql_Rollback.
Definition RollbackIfNotCommit (p : nat) (w : txworld) : go (txworld * option orm_error) :=
  x ← finish sql_Rollback p w;
  let '(w, err) := x in
  Ok (w, if decide (err = Some ErrTxDone) then None else err).

(** How a closure ended: it returned an error value, or it panicked. *)
Inductive ended := Returned (err : option orm_error) | Panicked (p : panic).
(** [errs.NewErrFailedToRollbackTx] *)
Inductive txerror :=
  | TxErr (err : orm_error)
  | FailedToRollback (bizErr rbErr : option orm_error) (panicked : bool).
Inductive txended := TxReturned (err : option txerror) | TxPanicked (p : panic).

(** [DoTx]: the result of [fn(ctx,tx)] is not assigned to [err]. *)
Definition DoTx (db : DB) (fn : nat -> txworld -> txworld * ended) (w : txworld)
  : go (txworld * txended) :=
  match DB_BeginTx db w with
  | (w, inl err) => Ok (w, TxReturned (Some (TxErr err)))
  | (w, inr tx) =>
      match fn tx w with
      | (w, Panicked p) =>
          (* the deferred call rolls back; the panic goes on *)
          x ← Tx_Rollback tx w;
          Ok (x.1, TxPanicked p)
      | (w, Returned _) =>
          x ← Tx_Commit tx w;
          Ok (x.1, TxReturned (TxErr <$> x.2))
      end
  end.

(** * Properties *)

Lemma OM_bind_eq {A B} (m : OM A) (f : A -> OM B) w :
  (m ≫= f) w = match m w with (w, Ok a) => f a w | (w, Panic p) => (w, Panic p) end.
Proof. reflexivity. Qed.

(** A world in which the model of a query has been looked up. *)
Definition with_model (r : registry) (md : option Model) (w : world) : world :=
  mkWorld (mkBuilder (sb (w_b w)) (args (w_b w)) md (quoter (w_b w)) r) (w_db w) (w_mem w) (w_log w).
Lemma set_model_eq T w :
  set_model T w =
  match Get T (b_r (w_b w)) with
  | Ok (r, inr m) => (with_model r (Some m) w, Ok None)
  | Ok (r, inl err) => (with_model r None w, Ok (Some err))
  | Panic p => (w, Panic p)
  end.
Proof. unfold set_model, r_Get. by destruct (Get T (b_r (w_b w))) as [[r [e|m]]|p]. Qed.

(** A fresh query over a database and a memory. *)
Definition fresh_world (q : char) (r : registry) (d : D) (m : mem) : world :=
  mkWorld (new_builder q r) d m [].

(** The row that a query gave, stored in a new entity. *)
Definition stored (c : core) (md : Model) (sfs : list StructField) (rows : Rows) (m : mem)
  : mem * go (ptr * option orm_error) :=
  let '(tp, m1) := new_T sfs m in
  match c_creator c md tp rows m1 with
  | Ok (m2, y) => (m2, Ok (tp, err_of y))
  | Panic p => (m1, Panic p)
  end.

(** What [Get] returns after the database has answered. *)
Definition answer (c : core) (md : Model) (sfs : list StructField) (m : mem)
    (x : orm_error + option Rows) : mem * go (option ptr * option orm_error) :=
  match x with
  | inl err => (m, Ok (None, Some err))
  | inr None => (m, Ok (None, Some ErrNoRows))
  | inr (Some rows) =>
      let '(m, y) := stored c md sfs rows m in (m, y ← y; Ok (Some y.1, y.2))
  end.

(** A handler followed by the conversion of its result. *)
Definition get_result (h : OM QueryResult) : OM (option ptr * option orm_error) :=
  y ← h; lift_go (row_result y).
Definition exec_result_of (h : OM QueryResult) : OM sqlResult := y ← h; lift_go (exec_result y).

Lemma getHandler_run sfs sess c md qc w b' qy :
  qc_Builder qc (w_b w) = Ok (b', inr qy) ->
  get_result (getHandler sfs sess c (Some md) qc) w =
  let '(d, x) := sql_Query (sess_handle sess) (SQL qy) (Args qy) (w_db w) in
  let '(m, y) := answer c md sfs (w_mem w) x in
  (mkWorld b' d m (w_log w ++ [EvQuery (sess_handle sess) (SQL qy) (Args qy)]), y).
Proof.
  intros HB. unfold get_result, getHandler, qc_Build, on_builder, sess_queryContext, new_row, on_mem, lift_go.
  rewrite !OM_bind_eq, HB. rewrite !OM_bind_eq. cbn [w_db w_b w_mem w_log].
  destruct (sql_Query _ _ _ _) as [d [err|[rows|]]]; try done.
  rewrite !OM_bind_eq. cbn [answer w_mem w_log w_b w_db]. unfold stored.
  destruct (new_T sfs (w_mem w)) as [tp m1]. rewrite !OM_bind_eq. cbn [go_of_option w_mem w_log w_b w_db].
  rewrite OM_bind_eq. cbn [w_mem w_log w_b w_db]. by destruct (c_creator c md tp rows m1) as [[m2 y]|p].
Qed.

Lemma getHandler_err sfs sess c md qc w b' err :
  qc_Builder qc (w_b w) = Ok (b', inl err) ->
  get_result (getHandler sfs sess c md qc) w =
  (mkWorld b' (w_db w) (w_mem w) (w_log w), Ok (None, Some err)).
Proof.
  intros HB. unfold get_result, getHandler, qc_Build, on_builder. by rewrite !OM_bind_eq, HB.
Qed.
Lemma getHandler_panic sfs sess c md qc w p :
  qc_Builder qc (w_b w) = Panic p -> get_result (getHandler sfs sess c md qc) w = (w, Panic p).
Proof.
  intros HB. unfold get_result, getHandler, qc_Build, on_builder. by rewrite !OM_bind_eq, HB.
Qed.

(** A selector with its model at hand. *)
Definition select_world (q : char) (r : registry) (md : Model) (d : D) (m : mem) : world :=
  mkWorld (mkBuilder "" [] (Some md) q r) d m [].
Lemma Selector_Get_eq s sess c q r d m r1 md :
  Get (s_T s) r = Ok (r1, inr md) ->
  Selector_Get s sess c (fresh_world q r d m) =
  get_result (wrap (c_mdls c) (getHandler (struct_fields (s_T s)) sess c (Some md))
    (mkQueryContext "SELECT" (Selector_Build s) (Some md))) (select_world q r1 md d m).
Proof.
  intros Hg. unfold Selector_Get. rewrite OM_bind_eq, set_model_eq. cbn [fresh_world w_b new_builder b_r].
  by rewrite Hg.
Qed.
Lemma Selector_Get_run s sess c q r d m r1 md r2 t a :
  c_mdls c = [] -> joins_ok (length (where_ s)) (table s) ->
  Get (s_T s) r = Ok (r1, inr md) -> render_select q md s r1 = Ok (r2, inr (t, a)) ->
  exists b', Selector_Get s sess c (fresh_world q r d m) =
    let '(d', x) := sql_Query (sess_handle sess) t a d in
    let '(m', y) := answer c md (struct_fields (s_T s)) m x in
    (mkWorld b' d' m' [EvQuery (sess_handle sess) t a], y).
Proof.
  intros Hc Hj Hg Hr. rewrite (Selector_Get_eq _ _ _ _ _ _ _ r1 md), Hc by done.
  pose proof (Selector_Build_append s (mkBuilder "" [] (Some md) q r1) md eq_refl Hj) as HB.
  cbn [quoter b_r sb args] in HB. rewrite Hr in HB. eexists.
  exact (getHandler_run (struct_fields (s_T s)) sess c md
    (mkQueryContext "SELECT" (Selector_Build s) (Some md)) (select_world q r1 md d m) _ _ HB).
Qed.
(** An execution without middlewares whose statement builds. *)
Lemma execHandler_run sess c qc w b' qy d i n :
  qc_Builder qc (w_b w) = Ok (b', inr qy) ->
  sql_Exec (sess_handle sess) (SQL qy) (Args qy) (w_db w) = (d, inr (i, n)) ->
  exec_result_of (execHandler sess c qc) w =
  (mkWorld b' d (w_mem w) (w_log w ++ [EvExec (sess_handle sess) (SQL qy) (Args qy)]),
   Ok (Result None (Result None (DriverResult i n)))).
Proof.
  intros HB HE. unfold exec_result_of, execHandler, qc_Build, on_builder, sess_execContext.
  rewrite !OM_bind_eq, HB, !OM_bind_eq. cbn [w_db w_b w_mem w_log]. by rewrite HE.
Qed.

(** An insertion with its model at hand. *)
Lemma Inserter_Exec_eq {V} {HC : Creator V} (i : Inserter) sess c q r d m r1 md :
  Get (i_T i) r = Ok (r1, inr md) ->
  Inserter_Exec i sess c (fresh_world q r d m) =
  exec_result_of (wrap (c_mdls c) (execHandler sess c)
    (mkQueryContext "INSERT" (Inserter_Build (HC := HC) i m) (Some md))) (select_world q r1 md d m).
Proof.
  intros Hg. unfold Inserter_Exec, query_model. rewrite !OM_bind_eq.
  cbn [get_model fresh_world w_b new_builder model]. rewrite set_model_eq.
  cbn [fresh_world w_b new_builder b_r]. by rewrite Hg.
Qed.

(** C12. [Selector.Get] without middlewares, on a fresh query: the database is
    asked exactly once, with the rendering of the selector; its error, the
    absence of a row, or a new entity filled from the row with the error of
    [SetColumns] is what the caller gets.  When the selector does not render,
    the caller gets that error, or the panic, and the database is not asked. *)
Theorem Selector_Get_correct s sess c q r d m r1 md :
  c_mdls c = [] -> joins_ok (length (where_ s)) (table s) ->
  Get (s_T s) r = Ok (r1, inr md) ->
  match render_select q md s r1 with
  | Ok (r2, inr (t, a)) =>
      exists b', Selector_Get s sess c (fresh_world q r d m) =
        let '(d', x) := sql_Query (sess_handle sess) t a d in
        let '(m', y) := answer c md (struct_fields (s_T s)) m x in
        (mkWorld b' d' m' [EvQuery (sess_handle sess) t a], y)
  | Ok (r2, inl err) =>
      exists b', Selector_Get s sess c (fresh_world q r d m) =
        (mkWorld b' d m [], Ok (None, Some err))
  | Panic p =>
      exists b', Selector_Get s sess c (fresh_world q r d m) = (mkWorld b' d m [], Panic p)
  end.
Proof.
  intros Hc Hj Hg. destruct (render_select q md s r1) as [[r2 [err|[t a]]]|p] eqn:Hr.
  2: by eapply Selector_Get_run.
  all: rewrite (Selector_Get_eq _ _ _ _ _ _ _ r1 md), Hc by done.
  all: pose proof (Selector_Build_append s (mkBuilder "" [] (Some md) q r1) md eq_refl Hj) as HB;
    cbn [quoter b_r] in HB; rewrite Hr in HB.
  - destruct HB as (b' & HB & _). exists b'. exact (getHandler_err _ _ _ _
      (mkQueryContext "SELECT" (Selector_Build s) (Some md)) (select_world q r1 md d m) b' err HB).
  - eexists. exact (getHandler_panic _ _ _ _
      (mkQueryContext "SELECT" (Selector_Build s) (Some md)) (select_world q r1 md d m) p HB).
Qed.

(** [Wait] returns the first answer that is not a bad connection. *)
Lemma Wait_first n err pings :
  err <> Some ErrBadConn -> Wait (replicate n (Some ErrBadConn) ++ err :: pings) = Some err.
Proof. intros He. induction n as [|n IH]; cbn; [by rewrite decide_False|by rewrite decide_True]. Qed.

(** ** Transactions *)

(** [DoTx]: a transaction that cannot begin is reported; when the closure
    panics, its transaction is rolled back and the panic goes on; when the
    closure returns, whatever error it returns, the transaction is committed and
    [DoTx] returns the error of the commit alone: a failing closure is
    committed, and its error is lost. *)
Lemma DoTx_spec db fn w :
  match sql_BeginTx (t_d w) with
  | (d, inl err) => DoTx db fn w = Ok (mkTxWorld d (t_heap w), TxReturned (Some (TxErr err)))
  | (d, inr tx) =>
      let p := length (t_heap w) in
      let '(w1, res) := fn p (mkTxWorld d (t_heap w ++ [mkTx tx None false])) in
      forall done db', t_heap w1 !! p = Some (mkTx tx db' done) ->
      let fin := (fun d => mkTxWorld d (<[p := mkTx tx db' true]> (t_heap w1))) in
      match res with
      | Panicked v => DoTx db fn w = Ok (fin (sql_Rollback tx (t_d w1)).1, TxPanicked v)
      | Returned err =>
          DoTx db fn w = Ok (fin (sql_Commit tx (t_d w1)).1,
                             TxReturned (TxErr <$> (sql_Commit tx (t_d w1)).2))
      end
  end.
Proof.
  unfold DoTx, DB_BeginTx. destruct (sql_BeginTx (t_d w)) as [d [err|tx]]; [done|].
  cbn zeta. destruct (fn _ _) as [w1 [err|v]]; intros done db' Hp;
    unfold Tx_Commit, Tx_Rollback, finish; rewrite Hp; cbn.
  - by destruct (sql_Commit tx (t_d w1)).
  - by destruct (sql_Rollback tx (t_d w1)).
Qed.

(** A transaction of [BeginTx] carries no [DB], so every query on it panics
    when it asks its session for the core.  [BeginTxV2] hands out the
    transaction of the context until it is finished, and a new one afterwards.
    When the driver answers [ErrTxDone] to a finished transaction,
    [RollbackIfNotCommit] after a commit returns nil. *)
Lemma Tx_sessions db w p w1 :
  DB_BeginTx db w = (w1, inr p) ->
  exists t, t_heap w1 !! p = Some t /\
    (forall T r query args,
       NewSelectorOn T (Tx_Session t) r = Panic PNilDeref /\
       NewInserterOn T (Tx_Session t) r = Panic PNilDeref /\
       RawQuery T (Tx_Session t) query args = Panic PNilDeref) /\
    BeginTxV2 db (Some p) w1 = (w1, inr (Some p, p)) /\
    (forall w2 err, Tx_Commit p w1 = Ok (w2, err) ->
       BeginTxV2 db (Some p) w2 = BeginTxV2 db None w2 /\
       ((sql_Rollback (tx_tx t) (t_d w2)).2 = Some ErrTxDone ->
        exists w3, RollbackIfNotCommit p w2 = Ok (w3, None))).
Proof.
  unfold DB_BeginTx. destruct (sql_BeginTx (t_d w)) as [d [err|tx]]; [done|]. intros [= <- <-].
  exists (mkTx tx None false). cbn [t_heap].
  assert ((t_heap w ++ [mkTx tx None false]) !! length (t_heap w) = Some (mkTx tx None false)) as Hl
    by by apply list_lookup_middle.
  split_and!; [done|by intros *| |].
  - unfold BeginTxV2. cbn [mbind option_bind t_heap]. by rewrite Hl.
  - intros w2 err. unfold Tx_Commit, finish. cbn [t_heap t_d]. rewrite Hl.
    cbn [go_of_option mbind go_bind tx_tx tx_db].
    destruct (sql_Commit tx d) as [d2 e]. intros [= <- <-].
    assert ((<[length (t_heap w) := mkTx tx None true]> (t_heap w ++ [mkTx tx None false]))
      !! length (t_heap w) = Some (mkTx tx None true)) as Hl2.
    { apply list_lookup_insert_eq. rewrite length_app; simpl. lia. }
    split.
    + unfold BeginTxV2. cbn [mbind option_bind t_heap]. by rewrite Hl2.
    + intros Hd. unfold RollbackIfNotCommit, finish. cbn [t_heap t_d] in *. rewrite Hl2.
      cbn [go_of_option mbind go_bind tx_tx tx_db].
      destruct (sql_Rollback tx d2) as [d3 e3]. cbn in Hd. subst e3. cbn. eauto.
Qed.
End orm.

(** ** A small database *)

(** Its state is the list of its transactions, finished or not; a finished one
    answers [ErrTxDone]; a query gives one row. *)
Definition finish_tx (t : nat) (d : list bool) : list bool * option orm_error :=
  match d !! t with
  | Some false => (<[t := true]> d, None)
  | _ => (d, Some ErrTxDone)
  end.
#[export] Instance tiny_db : SqlDB (list bool) := {
  sql_Query := fun _ _ _ d => (d, inr (Some (mkRows (inr ["id"]) [VInt 5])));
  sql_Exec := fun _ _ _ d => (d, inr (1%Z, 1%Z));
  sql_BeginTx := fun d => (d ++ [false], inr (length d));
  sql_Commit := finish_tx;
  sql_Rollback := finish_tx;
  sql_Now := fun _ => 0%Z
}.
Definition tiny_core (mdls : list (Middleware (D := list bool))) : core :=
  db_core (OpenDB conv_plain [DBWithMiddleware mdls]).

Lemma Selector_Get_correct_witness : exists b' m',
  Selector_Get user_selector (DB_Session (mkDB (tiny_core []))) (tiny_core [])
    (fresh_world "`"%char [] [] ∅) =
  (mkWorld b' [] m' [EvQuery None "SELECT * FROM `test_model` WHERE `id` = ?;" [AVal (VInt 12)]],
   Ok (Some (mkPtr user_fields 0%Z), None)).
Proof.
  pose proof (Selector_Get_correct user_selector (DB_Session (mkDB (tiny_core []))) (tiny_core [])
    "`"%char [] [] ∅ [(e_type user_entity, user_model)] user_model eq_refl I eq_refl) as H.
  change (render_select "`"%char user_model user_selector [(e_type user_entity, user_model)])
    with (Ok ([(e_type user_entity, user_model)],
      inr ("SELECT * FROM `test_model` WHERE `id` = ?;", [AVal (VInt 12)]))
      : go (registry * (orm_error + frag))) in H.
  destruct H as [b' H]. exists b'. eexists. rewrite H. reflexivity.
Defined.

Lemma DoTx_spec_witness :
  DoTx (mkDB (tiny_core [])) (fun _ w => (w, Returned (Some ErrNoRows))) (mkTxWorld [] []) =
  Ok (mkTxWorld [true] [mkTx 0 None true], TxReturned None).
Proof.
  exact (DoTx_spec (mkDB (tiny_core [])) (fun _ w => (w, Returned (Some ErrNoRows)))
    (mkTxWorld [] []) false None eq_refl).
Defined.

Lemma Tx_sessions_witness :
  exists t, [mkTx 0 None false] !! 0 = Some t /\
    BeginTxV2 (mkDB (tiny_core [])) (Some 0) (mkTxWorld [false] [t]) =
      (mkTxWorld [false] [t], inr (Some 0, 0)) /\
    exists w3, RollbackIfNotCommit 0 (mkTxWorld [true] [mkTx 0 None true]) = Ok (w3, None).
Proof.
  destruct (Tx_sessions (HD := tiny_db) (mkDB (tiny_core [])) (mkTxWorld [] []) 0
    (mkTxWorld [false] [mkTx 0 None false]) ltac:(reflexivity)) as (t & Ht & _ & HB & HC).
  injection Ht as <-. eexists. split; [reflexivity|]. split; [exact HB|].
  exact (proj2 (HC (mkTxWorld [true] [mkTx 0 None true]) None eq_refl) eq_refl).
Defined.
