(* ===== verification/OrmMiddleware.v ===== *)
(** The middlewares of the ORM: [orm/middlewares/querylog], [slowquery],
    [prometheus] and [opentelemetry].

    They build the statement for themselves before or after the next handler
    runs.  [observers_transparent] shows that this goes unnoticed when building
    twice gives the same statement, as it does for an INSERT and a raw query;
    [querylog_doubles_select] that it does not for a SELECT. *)
From S2P Require Import Prelude Registry Sql Valuer Insert Metrics Orm.

Section middlewares.
Context {D : Type} {HD : SqlDB D}.
Abbreviation OM := (OM (D := D)).
Abbreviation world := (world (D := D)).
Abbreviation Middleware := (Middleware (D := D)).
Abbreviation Handler := (Handler (D := D)).

(** A [logFunc] is called with the query; a nil one panics. *)
Definition call_log (logFunc : option logger) (q : Query) : OM unit :=
  match logFunc with
  | Some f => log_event (EvLog f (SQL q) (Args q))
  | None => lift_go (Panic PNilDeref)
  end.
Definition now : OM Z := fun w => (w, Ok (sql_Now (w_db w))).

(** [querylog]: the builder logs through the package [log] unless told otherwise. *)
Record QuerylogBuilder := mkQuerylog { ql_logFunc : option logger }.
Definition NewQuerylogBuilder : QuerylogBuilder := mkQuerylog (Some LogPrintf).
Definition Querylog_LogFunc (fn : option logger) (m : QuerylogBuilder) : QuerylogBuilder := mkQuerylog fn.
Definition querylog (m : QuerylogBuilder) : Middleware := fun next qc =>
  x ← qc_Build qc;
  match x with
  | inl err => mret (mkQueryResult RNil (Some err))
  | inr q => call_log (ql_logFunc m) q ;; next qc
  end.

(** [slowquery]: the deferred call builds the query again when it was slow;
    times are in nanoseconds. *)
Record SlowqueryBuilder := mkSlowquery { sq_threshold : Z; sq_logFunc : option logger }.
Definition NewSlowqueryBuilder (threshold : Z) : SlowqueryBuilder := mkSlowquery threshold (Some LogPrintf).
Definition Slowquery_LogFunc (fn : option logger) (m : SlowqueryBuilder) : SlowqueryBuilder :=
  mkSlowquery (sq_threshold m) fn.
Definition slowquery_defer (m : SlowqueryBuilder) (qc : QueryContext) (startTime : Z) : OM unit :=
  t ← now;
  if decide (t - startTime < sq_threshold m)%Z then mret tt
  else
    y ← qc_Build qc;
    match y with
    | inr q => call_log (sq_logFunc m) q
    | inl _ => mret tt
    end.
Definition slowquery (m : SlowqueryBuilder) : Middleware := fun next qc =>
  startTime ← now; deferred (slowquery_defer m qc startTime) (next qc).

(** [prometheus]: [Build] registers the vector; each call is observed. *)
Definition prometheus_defer (qc : QueryContext) (startTime : Z) : OM unit :=
  md ← lift_go (go_of_option PNilDeref (qc_Model qc));
  t ← now;
  log_event (EvObserve (qc_Type qc) (TableName md) ((t - startTime) `quot` 1000000)).
Definition orm_prometheus : Middleware := fun next qc =>
  startTime ← now; deferred (prometheus_defer qc startTime) (next qc).
Definition orm_prometheus_Build {R} {HR : Registerer R} (m : PromBuilder) (reg : R) : go (R * Middleware) :=
  reg ← MustRegister (summary_opts m) ["type"; "table"] reg; Ok (reg, orm_prometheus).

(** [opentelemetry]: a nil tracer is replaced by the one of the package. *)
Record OtelBuilder := mkOtel { Tracer : option string }.
Definition instrumentationName : string := "gotest/orm/middlewares/opentelemetry".
Definition otel_body (next : Handler) (qc : QueryContext) (tbl : string) : OM QueryResult :=
  x ← qc_Build qc;
  (match x with inr q => log_event (EvAttribute "sql" (SQL q)) | inl _ => mret tt end) ;;
  log_event (EvAttribute "table" tbl) ;;
  log_event (EvAttribute "component" "orm") ;;
  res ← next qc;
  (match qr_Err res with Some err => log_event (EvRecordError err) | None => mret tt end) ;;
  mret res.
Definition orm_opentelemetry (m : OtelBuilder) : Middleware := fun next qc =>
  md ← lift_go (go_of_option PNilDeref (qc_Model qc));
  let tbl := TableName md in
  log_event (EvSpanStart (default instrumentationName (Tracer m)) (qc_Type qc +:+ "-" +:+ tbl)) ;;
  deferred (log_event EvSpanEnd) (otel_body next qc tbl).

(** The middlewares of the repository. *)
Inductive observer : Middleware -> Prop :=
  | ob_querylog m : observer (querylog m)
  | ob_slowquery m : observer (slowquery m)
  | ob_prometheus : observer orm_prometheus
  | ob_opentelemetry m : observer (orm_opentelemetry m).

(** ** Spans are ended *)

Definition span_change (e : event) : Z :=
  match e with EvSpanStart _ _ => 1 | EvSpanEnd => -1 | _ => 0 end.
Definition open_spans (w : world) : Z := foldr (fun e n => span_change e + n)%Z 0%Z (w_log w).
(** Whether it returns or panics, the computation leaves as many spans open as
    it found. *)
Definition balanced {A} (m : OM A) : Prop := forall w, open_spans (m w).1 = open_spans w.

Lemma open_spans_add e w : open_spans (add_event e w) = (open_spans w + span_change e)%Z.
Proof.
  unfold open_spans, add_event. cbn [w_log]. induction (w_log w) as [|e' l IH]; cbn in *; lia.
Qed.
Lemma balanced_ret {A} (a : A) : balanced (mret a).
Proof. done. Qed.
Lemma balanced_lift {A} (x : go A) : balanced (lift_go x).
Proof. done. Qed.
Lemma balanced_now : balanced now.
Proof. done. Qed.
Lemma balanced_bind {A B} (m : OM A) (f : A -> OM B) :
  balanced m -> (forall a, balanced (f a)) -> balanced (m ≫= f).
Proof.
  intros Hm Hf w. rewrite OM_bind_eq. specialize (Hm w).
  destruct (m w) as [w' [a|p]]; cbn in *; [by rewrite Hf|done].
Qed.
Lemma balanced_log e : span_change e = 0%Z -> balanced (log_event e).
Proof. intros He w. unfold log_event. cbn [fst]. rewrite open_spans_add. lia. Qed.
Lemma balanced_deferred {A} (d : OM unit) (m : OM A) : balanced d -> balanced m -> balanced (deferred d m).
Proof.
  intros Hd Hm w. unfold deferred. specialize (Hm w). destruct (m w) as [w1 x]. specialize (Hd w1).
  destruct (d w1) as [w2 [u|p]]; cbn in *; congruence.
Qed.
Lemma balanced_Build qc : balanced (qc_Build (D := D) qc).
Proof. intros w. unfold qc_Build, on_builder. by destruct (qc_Builder qc (w_b w)) as [[b x]|p]. Qed.
Lemma balanced_mem {A} (f : GM mem orm_error A) : balanced (on_mem f).
Proof. intros w. unfold on_mem. by destruct (f (w_mem w)) as [[m x]|p]. Qed.
Lemma balanced_row sfs : balanced (new_row (D := D) sfs).
Proof. intros w. unfold new_row. by destruct (new_T sfs (w_mem w)). Qed.
Lemma balanced_query s sql args : balanced (sess_queryContext s sql args).
Proof.
  intros w. unfold sess_queryContext. destruct (sql_Query _ _ _ _). cbn.
  exact (eq_trans (open_spans_add (EvQuery (sess_handle s) sql args) w) (Z.add_0_r _)).
Qed.
Lemma balanced_exec s sql args : balanced (sess_execContext s sql args).
Proof.
  intros w. unfold sess_execContext. destruct (sql_Exec _ _ _ _). cbn.
  exact (eq_trans (open_spans_add (EvExec (sess_handle s) sql args) w) (Z.add_0_r _)).
Qed.
Lemma balanced_call_log f q : balanced (call_log f q).
Proof. destruct f; [by apply balanced_log|apply balanced_lift]. Qed.

Create HintDb spans.
#[local] Hint Resolve balanced_ret balanced_lift balanced_now balanced_bind balanced_log balanced_deferred
  balanced_Build balanced_mem balanced_row balanced_query balanced_exec balanced_call_log : spans.
(** Through the binds and the matches of a handler. *)
Ltac balance := repeat first
  [ progress intros | apply balanced_bind | case_match | by eauto with spans ].

Lemma balanced_getHandler sfs sess c md qc : balanced (getHandler (D := D) sfs sess c md qc).
Proof. unfold getHandler. balance. Qed.
Lemma balanced_execHandler sess c qc : balanced (execHandler (D := D) sess c qc).
Proof. unfold execHandler. balance. Qed.
Lemma balanced_otel m (next : Handler) qc : balanced (next qc) -> balanced (orm_opentelemetry m next qc).
Proof.
  intros Hn. unfold orm_opentelemetry. apply balanced_bind; [apply balanced_lift|]. intros md w.
  assert (balanced (otel_body next qc (TableName md))) as HB.
  { unfold otel_body. balance. }
  rewrite OM_bind_eq. unfold log_event at 1, deferred.
  match goal with |- context [otel_body _ _ _ ?w'] => set (w1 := w') end.
  specialize (HB w1). destruct (otel_body next qc (TableName md) w1) as [w2 x]. cbn [fst] in HB.
  unfold log_event. cbn [fst]. rewrite open_spans_add, HB. unfold w1. rewrite open_spans_add. cbn. lia.
Qed.
Lemma balanced_observer mdl (next : Handler) qc :
  observer mdl -> balanced (next qc) -> balanced (mdl next qc).
Proof.
  intros [m|m| |m] Hn.
  - unfold querylog. balance.
  - unfold slowquery. apply balanced_bind; [apply balanced_now|]. intros t.
    apply balanced_deferred; [|done]. unfold slowquery_defer. balance.
  - unfold orm_prometheus. apply balanced_bind; [apply balanced_now|]. intros t.
    apply balanced_deferred; [|done]. unfold prometheus_defer. balance.
  - by apply balanced_otel.
Qed.
Lemma balanced_wrap mdls (root : Handler) qc :
  Forall observer mdls -> balanced (root qc) -> balanced (wrap mdls root qc).
Proof. intros HF Hr. induction HF as [|mdl mdls Hm HF IH]; [exact Hr|]. exact (balanced_observer mdl (wrap mdls root) qc Hm IH). Qed.

(** ** Observers change nothing *)

(** The statements that were sent. *)
Definition statement (e : event) : bool :=
  match e with EvQuery _ _ _ | EvExec _ _ _ => true | _ => false end.
Definition sent (w : world) : list event := filter (fun e => statement e = true) (w_log w).

Section transparent.
(** A query whose builder gives the statement [q] whenever it is asked. *)
Context (P : builder -> Prop) (q : Query) (qc : QueryContext) (md : Model).
Context (HB : forall b, P b -> exists b', qc_Builder qc b = Ok (b', inr q) /\ P b').
Context (Hmd : qc_Model qc = Some md).

(** Worlds that differ in the text of the builder and in what was observed. *)
Record same_world (w w' : world) : Prop := {
  same_builder : P (w_b w) /\ P (w_b w');
  same_db : w_db w = w_db w';
  same_mem : w_mem w = w_mem w';
  same_sent : sent w = sent w'
}.
Definition same {A} (m m' : OM A) : Prop := forall w w', same_world w w' ->
  same_world (m w).1 (m' w').1 /\ (m w).2 = (m' w').2.
(** A computation that only observes. *)
Definition silent {A} (m : OM A) : Prop := forall w w', same_world w w' ->
  same_world (m w).1 w' /\ exists a, (m w).2 = Ok a.

Lemma silent_ret {A} (a : A) : silent (mret a).
Proof. intros w w' Hw. split; [done|by eexists]. Qed.
Lemma silent_bind {A B} (m : OM A) (f : A -> OM B) :
  silent m -> (forall a, silent (f a)) -> silent (m ≫= f).
Proof.
  intros Hm Hf w w' Hw. rewrite OM_bind_eq. destruct (Hm w w' Hw) as [H1 [a H2]].
  destruct (m w) as [w1 x]. cbn in *. subst x. by apply Hf.
Qed.
Lemma silent_now : silent now.
Proof. intros w w' Hw. split; [done|by eexists]. Qed.
Lemma silent_log e : statement e = false -> silent (log_event e).
Proof.
  intros He w w' [H1 H2 H3 H4]. split; [|by eexists]. split; try done. rewrite <-H4.
  unfold sent, log_event, add_event. cbn [fst w_log].
  rewrite filter_app, filter_cons_False, filter_nil by congruence. apply app_nil_r.
Qed.
Lemma silent_Build : silent (qc_Build qc).
Proof.
  intros w w' [[H1 H1'] H2 H3 H4]. unfold qc_Build, on_builder.
  destruct (HB _ H1) as (b & Hb & HP). rewrite Hb. split; [|by eexists]. by split.
Qed.
Lemma silent_same {A B} (m : OM A) (f : A -> OM B) (m' : OM B) :
  silent m -> (forall a, same (f a) m') -> same (m ≫= f) m'.
Proof.
  intros Hm Hf w w' Hw. rewrite OM_bind_eq. destruct (Hm w w' Hw) as [H1 [a H2]].
  destruct (m w) as [w1 x]. cbn in *. subst x. by apply Hf.
Qed.
Lemma same_silent {A} (m m' : OM A) (f : A -> OM A) :
  same m m' -> (forall a, silent (f a) /\ forall w, (f a w).2 = Ok a) -> same (m ≫= f) m'.
Proof.
  intros Hm Hf w w' Hw. rewrite OM_bind_eq. destruct (Hm w w' Hw) as [H1 H2].
  destruct (m w) as [w1 [a|p]]; cbn in *; [|by rewrite <-H2].
  destruct (Hf a) as [Hs Ha]. destruct (Hs _ _ H1) as [H3 _]. by rewrite Ha, <-H2.
Qed.
Lemma same_deferred {A} (d : OM unit) (m m' : OM A) : silent d -> same m m' -> same (deferred d m) m'.
Proof.
  intros Hd Hm w w' Hw. unfold deferred. destruct (Hm w w' Hw) as [H1 H2].
  destruct (m w) as [w1 x]. cbn in *. destruct (Hd _ _ H1) as [H3 [[] H4]].
  destruct (d w1) as [w2 y]. cbn in *. by subst y.
Qed.
Lemma same_bind {A B} (m m' : OM A) (f f' : A -> OM B) :
  same m m' -> (forall a, same (f a) (f' a)) -> same (m ≫= f) (m' ≫= f').
Proof.
  intros Hm Hf w w' Hw. rewrite !OM_bind_eq. destruct (Hm w w' Hw) as [H1 H2].
  destruct (m w) as [w1 x], (m' w') as [w1' x']. cbn in *. subst x'. destruct x; [by apply Hf|done].
Qed.
Lemma same_ret {A} (a : A) : same (mret a) (mret a).
Proof. by intros w w' Hw. Qed.
Lemma same_lift {A} (x : go A) : same (lift_go x) (lift_go x).
Proof. by intros w w' Hw. Qed.
Lemma same_Build : same (qc_Build qc) (qc_Build qc).
Proof.
  intros w w' [[H1 H1'] H2 H3 H4]. unfold qc_Build, on_builder.
  destruct (HB _ H1) as (b & -> & HP), (HB _ H1') as (b' & -> & HP'). by split.
Qed.
Lemma sent_add e w : sent (add_event e w) = sent w ++ (if statement e then [e] else []).
Proof.
  unfold sent, add_event. cbn [w_log]. rewrite filter_app. f_equal. destruct (statement e) eqn:He.
  - by rewrite filter_cons_True.
  - by rewrite filter_cons_False by congruence.
Qed.
Lemma same_query s sql args : same (sess_queryContext s sql args) (sess_queryContext s sql args).
Proof.
  intros w w' [H1 H2 H3 H4]. unfold sess_queryContext. rewrite <-H2. destruct (sql_Query _ _ _ _) as [d x].
  split; [|done]. split; try done. pose proof (sent_add (EvQuery (sess_handle s) sql args)) as K.
  exact (eq_trans (K w) (eq_trans (f_equal (fun l => l ++ _) H4) (eq_sym (K w')))).
Qed.
Lemma same_exec s sql args : same (sess_execContext s sql args) (sess_execContext s sql args).
Proof.
  intros w w' [H1 H2 H3 H4]. unfold sess_execContext. rewrite <-H2. destruct (sql_Exec _ _ _ _) as [d x].
  split; [|done]. split; try done. pose proof (sent_add (EvExec (sess_handle s) sql args)) as K.
  exact (eq_trans (K w) (eq_trans (f_equal (fun l => l ++ _) H4) (eq_sym (K w')))).
Qed.
Lemma same_row sfs : same (new_row sfs) (new_row sfs).
Proof.
  intros w w' [H1 H2 H3 H4]. unfold new_row. rewrite <-H3. destruct (new_T sfs (w_mem w)). by split.
Qed.
Lemma same_on_mem {A} (f : GM mem orm_error A) : same (on_mem f) (on_mem f).
Proof.
  intros w w' Hw. pose proof Hw as [H1 H2 H3 H4]. unfold on_mem. rewrite <-H3.
  destruct (f (w_mem w)) as [[m x]|p]; [by split|done].
Qed.
#[local] Hint Resolve same_bind same_ret same_lift same_Build same_query same_exec same_row same_on_mem : spans.

Lemma same_execHandler sess c : same (execHandler sess c qc) (execHandler sess c qc).
Proof. unfold execHandler. repeat first [progress intros | apply same_bind | case_match | by eauto with spans]. Qed.
Lemma same_getHandler sfs sess c o : same (getHandler sfs sess c o qc) (getHandler sfs sess c o qc).
Proof. unfold getHandler. repeat first [progress intros | apply same_bind | case_match | by eauto with spans]. Qed.

(** A middleware whose log function, if it has one, is set. *)
Definition set_up (mdl : Middleware) : Prop :=
  (exists f, mdl = querylog (mkQuerylog (Some f))) \/ (exists t f, mdl = slowquery (mkSlowquery t (Some f))) \/
  mdl = orm_prometheus \/ exists m, mdl = orm_opentelemetry m.

Lemma silent_slowquery t f start : silent (slowquery_defer (mkSlowquery t (Some f)) qc start).
Proof.
  apply silent_bind; [apply silent_now|]. intros t'. case_decide; [apply silent_ret|].
  apply silent_bind; [apply silent_Build|]. intros [err|q']; [apply silent_ret|by apply silent_log].
Qed.
Lemma same_set_up mdl (next : Handler) (m' : OM QueryResult) :
  set_up mdl -> same (next qc) m' -> same (mdl next qc) m'.
Proof.
  intros [[f ->]|[(t & f & ->)|[->|[m ->]]]] Hn.
  - intros w w' Hw. unfold querylog, qc_Build. rewrite OM_bind_eq. unfold on_builder.
    destruct Hw as [[H1 H1'] H2 H3 H4]. destruct (HB _ H1) as (b & -> & HP).
    apply (silent_same (call_log (Some f) q) (fun _ => next qc) m'); [by apply silent_log|by intros []|].
    by split.
  - apply silent_same; [apply silent_now|]. intros t0. apply same_deferred; [apply silent_slowquery|done].
  - apply silent_same; [apply silent_now|]. intros t0. apply same_deferred; [|done].
    unfold prometheus_defer. rewrite Hmd. apply silent_bind; [intros w w' Hw; split; [done|by eexists]|].
    intros md'. apply silent_bind; [apply silent_now|]. intros t1. by apply silent_log.
  - unfold orm_opentelemetry. rewrite Hmd.
    apply silent_same; [intros w w' Hw; split; [done|by eexists]|]. intros md'.
    apply silent_same; [by apply silent_log|]. intros [].
    apply same_deferred; [by apply silent_log|]. unfold otel_body.
    apply silent_same; [apply silent_Build|]. intros x.
    apply silent_same; [destruct x; [apply silent_ret|by apply silent_log]|]. intros [].
    apply silent_same; [by apply silent_log|]. intros [].
    apply silent_same; [by apply silent_log|]. intros [].
    apply same_silent; [done|]. intros res. split; [|intros w; by destruct (qr_Err res)].
    apply silent_bind; [destruct (qr_Err res); [by apply silent_log|apply silent_ret]|].
    intros []. apply silent_ret.
Qed.
Lemma same_wrap mdls (root : Handler) :
  Forall set_up mdls -> same (root qc) (root qc) -> same (wrap mdls root qc) (root qc).
Proof.
  intros HF Hr. induction HF as [|mdl mdls Hm HF IH]; [exact Hr|].
  exact (same_set_up mdl (wrap mdls root) _ Hm IH).
Qed.
End transparent.

Definition with_mdls (c : core (D := D)) (mdls : list Middleware) : core :=
  mkCore (c_dialect c) (c_creator c) mdls.
(** The same answer, database, memory and statements, and no span left open. *)
Definition unnoticed {A} (x y : world * go A) : Prop :=
  x.2 = y.2 /\ w_db x.1 = w_db y.1 /\ w_mem x.1 = w_mem y.1 /\ sent x.1 = sent y.1 /\
  open_spans x.1 = 0%Z.

(** A run of the handler chain with and without observers, from one world. *)
Lemma unnoticed_run {A} (P : builder -> Prop) qy qc md mdls (root : Handler) (f : QueryResult -> go A) w :
  (forall b, P b -> exists b', qc_Builder qc b = Ok (b', inr qy) /\ P b') -> qc_Model qc = Some md ->
  Forall set_up mdls -> same P (root qc) (root qc) -> balanced (root qc) ->
  P (w_b w) -> w_log w = [] ->
  unnoticed ((y ← wrap mdls root qc; lift_go (f y)) w) ((y ← root qc; lift_go (f y)) w).
Proof.
  intros HB Hmd HF Hr Hbal HP Hlog.
  assert (Forall observer mdls) as HF'.
  { eapply Forall_impl; [exact HF|]. intros mdl [[g ->]|[(t & g & ->)|[->|[m ->]]]]; constructor. }
  destruct (same_bind P _ _ (fun y => lift_go (f y)) (fun y => lift_go (f y))
    (same_wrap P qy qc md HB Hmd mdls root HF Hr) (fun y => same_lift P (f y)) w w)
    as [[_ H2 H3 H4] H5]; [by split|].
  pose proof (balanced_bind _ (fun y => lift_go (f y)) (balanced_wrap mdls root qc HF' Hbal)
    (fun y => balanced_lift (f y)) w) as H6.
  unfold unnoticed. split_and!; [exact H5|exact H2|exact H3|exact H4|].
  rewrite H6. unfold open_spans. by rewrite Hlog.
Qed.

(** A raw query with its model at hand. *)
Lemma RawQuerier_Get_eq (rq : RawQuerier) sess (c : core (D := D)) q r d m r1 md :
  Get (rq_T rq) r = Ok (r1, inr md) ->
  RawQuerier_Get rq sess c (fresh_world q r d m) =
  get_result (wrap (c_mdls c) (getHandler (struct_fields (rq_T rq)) sess c (Some md))
    (mkQueryContext "RAW" (RawQuerier_Build rq) (Some md))) (select_world q r1 md d m).
Proof.
  intros Hg. unfold RawQuerier_Get. rewrite OM_bind_eq, set_model_eq. cbn [fresh_world w_b new_builder b_r].
  by rewrite Hg.
Qed.
Lemma RawQuerier_Exec_eq (rq : RawQuerier) sess (c : core (D := D)) q r d m r1 md :
  Get (rq_T rq) r = Ok (r1, inr md) ->
  RawQuerier_Exec rq sess c (fresh_world q r d m) =
  exec_result_of (wrap (c_mdls c) (execHandler sess c)
    (mkQueryContext "RAW" (RawQuerier_Build rq) (Some md))) (select_world q r1 md d m).
Proof.
  intros Hg. unfold RawQuerier_Exec, query_model. rewrite !OM_bind_eq.
  cbn [get_model fresh_world w_b new_builder model]. rewrite set_model_eq.
  cbn [fresh_world w_b new_builder b_r]. by rewrite Hg.
Qed.
(** The handlers do not look at the middlewares of the core. *)
Lemma execHandler_mdls sess (c : core (D := D)) mdls : execHandler sess (with_mdls c mdls) = execHandler sess c.
Proof. done. Qed.

(** C38. The middlewares of the repository, any number of them in any order, with
    their log functions set, only observe an INSERT and a raw query: the answer,
    the database, the memory and the statements that reach the database are
    those of the query without middlewares, although each of them builds the
    statement anew.  Whatever happens, a panic of a middleware or of the
    handler included, every span that was started is ended. *)
Theorem observers_transparent {V} {HC : Creator V} (i : Inserter) (rq : RawQuerier) sess (c : core (D := D))
    mdls q r d m r1 md up fields rows f :
  c_mdls c = [] -> Forall set_up mdls ->
  Get (i_T i) r = Ok (r1, inr md) -> rq_T rq = i_T i ->
  dialect_ok (i_dialect i) up -> values i <> [] ->
  insert_fields md (i_columns i) = inr fields ->
  Forall2 (row_reads (HC := HC) m md fields) (values i) rows ->
  upsert_frag up q md (onDuplicateKey i) = inr f ->
  let w := fresh_world q r d m in
  unnoticed (Inserter_Exec i sess (with_mdls c mdls) w) (Inserter_Exec i sess c w) /\
  unnoticed (RawQuerier_Get rq sess (with_mdls c mdls) w) (RawQuerier_Get rq sess c w) /\
  unnoticed (RawQuerier_Exec rq sess (with_mdls c mdls) w) (RawQuerier_Exec rq sess c w) /\
  forall mdls' sfs o qc w', Forall observer mdls' ->
    open_spans (wrap mdls' (execHandler sess c) qc w').1 = open_spans w' /\
    open_spans (wrap mdls' (getHandler sfs sess c o) qc w').1 = open_spans w'.
Proof.
  intros Hc HF Hg HT Hd Hv Hf Hrows Hup w.
  assert (forall b : builder, True -> exists b',
    RawQuerier_Build rq b = Ok (b', inr (mkQuery (rq_sql rq) (rq_args rq))) /\ True) as HBr by eauto.
  assert (forall b, model b = Some md /\ quoter b = q -> exists b',
    Inserter_Build i m b = Ok (b', inr (insert_query q md fields rows f)) /\
    model b' = Some md /\ quoter b' = q) as HBi.
  { intros b [Hm Hq]. rewrite <-Hq in Hup |- *.
    exact (Inserter_Build_run i m up b md fields rows f Hd (or_introl Hm) Hv Hf Hrows Hup). }
  pose proof (balanced_execHandler sess c) as HbE. pose proof (fun sfs => balanced_getHandler sfs sess c) as HbG.
  split_and!.
  - unfold w. rewrite !(Inserter_Exec_eq i sess _ q r d m r1 md Hg), Hc.
    apply (unnoticed_run (fun b => model b = Some md /\ quoter b = q)
      (insert_query q md fields rows f) _ md mdls (execHandler sess c)); try done.
    by apply (same_execHandler _ (insert_query q md fields rows f)).
  - unfold w. rewrite <-HT in Hg. rewrite !(RawQuerier_Get_eq rq sess _ q r d m r1 md Hg), Hc.
    apply (unnoticed_run (fun _ => True) (mkQuery (rq_sql rq) (rq_args rq)) _ md mdls
      (getHandler (struct_fields (rq_T rq)) sess c (Some md))); try done.
    by apply (same_getHandler _ (mkQuery (rq_sql rq) (rq_args rq))).
  - unfold w. rewrite <-HT in Hg. rewrite !(RawQuerier_Exec_eq rq sess _ q r d m r1 md Hg), Hc.
    apply (unnoticed_run (fun _ => True) (mkQuery (rq_sql rq) (rq_args rq)) _ md mdls (execHandler sess c)); try done.
    by apply (same_execHandler _ (mkQuery (rq_sql rq) (rq_args rq))).
  - intros mdls' sfs o qc w' HF'. by split; apply balanced_wrap.
Qed.

(** ** A SELECT notices *)

Lemma querylog_run (h : Handler) qc w b1 q1 :
  qc_Builder qc (w_b w) = Ok (b1, inr q1) ->
  querylog NewQuerylogBuilder h qc w =
  h qc (mkWorld b1 (w_db w) (w_mem w) (w_log w ++ [EvLog LogPrintf (SQL q1) (Args q1)])).
Proof. intros HB. unfold querylog, qc_Build, on_builder. rewrite OM_bind_eq. by rewrite HB. Qed.

(** The logging middleware is not transparent for a SELECT: it logs the query,
    but building it for the log leaves it in the selector's builder, so the
    statement that the SELECT then sends is the query twice with its arguments
    twice, and not the one that was logged. *)
Lemma querylog_doubles_select s sess c q r d m r1 md r2 t a :
  c_mdls c = [querylog NewQuerylogBuilder] -> joins_ok (length (where_ s)) (table s) ->
  Get (s_T s) r = Ok (r1, inr md) -> render_select q md s r1 = Ok (r2, inr (t, a)) ->
  exists b', Selector_Get s sess c (fresh_world q r d m) =
    let '(d', x) := sql_Query (sess_handle sess) (t +:+ t) (a ++ a) d in
    let '(m', y) := answer c md (struct_fields (s_T s)) m x in
    (mkWorld b' d' m' [EvLog LogPrintf t a; EvQuery (sess_handle sess) (t +:+ t) (a ++ a)], y).
Proof.
  intros Hc Hj Hg Hr. rewrite (Selector_Get_eq s sess c q r d m r1 md Hg), Hc.
  set (qc := mkQueryContext "SELECT" (Selector_Build s) (Some md)).
  set (b0 := mkBuilder "" [] (Some md) q r1).
  pose proof (Selector_Build_append s b0 md eq_refl Hj) as HB1. cbn [b0 quoter b_r sb args] in HB1.
  rewrite Hr in HB1. fold b0 in HB1.
  destruct (render_stable s q md _ _ _ Hr) as [_ HS].
  pose proof (Selector_Build_append s (emit (t, a) r2 b0) md eq_refl Hj) as HB2.
  cbn [emit b0 quoter b_r sb args fst snd] in HB2. rewrite HS in HB2 by by intros ?.
  eexists. unfold get_result, wrap. cbn [fold_right]. rewrite OM_bind_eq.
  rewrite (querylog_run _ qc (select_world q r1 md d m) _ _ HB1).
  exact (getHandler_run (struct_fields (s_T s)) sess c md qc
    (mkWorld _ d m [EvLog LogPrintf t a]) _ _ HB2).
Qed.
End middlewares.

Definition observers : list (Middleware (D := list bool)) :=
  [orm_opentelemetry (mkOtel None); slowquery (NewSlowqueryBuilder 0); orm_prometheus;
   querylog NewQuerylogBuilder].
Lemma observers_set_up : Forall set_up observers.
Proof.
  unfold observers. rewrite !Forall_cons. unfold set_up. split_and!; [| | | |constructor].
  - right; right; right. by eexists.
  - right; left. by do 2 eexists.
  - by right; right; left.
  - left. by eexists.
Qed.
Definition tiny_insert : Inserter := mkInserter user_entity mysqlDialect [user_ptr] [] None.
Definition user_row : list sqlval := [VInt 1; VStr "Tom"; VNil].

Lemma observers_transparent_witness :
  unnoticed
    (Inserter_Exec (HC := unsafe_Creator conv_plain) tiny_insert (DB_Session (mkDB (tiny_core observers)))
       (tiny_core observers) (fresh_world "`"%char [] [] user_mem))
    (Inserter_Exec (HC := unsafe_Creator conv_plain) tiny_insert (DB_Session (mkDB (tiny_core observers)))
       (tiny_core []) (fresh_world "`"%char [] [] user_mem)).
Proof.
  destruct (observers_transparent (HC := unsafe_Creator conv_plain) tiny_insert
    (mkRawQuerier user_entity "DELETE FROM `test_model`" []) (DB_Session (mkDB (tiny_core observers)))
    (tiny_core []) observers "`"%char [] [] user_mem [(e_type user_entity, user_model)] user_model mysql_upsert
    (fields_of user_model) [user_row] ("", [])
    eq_refl observers_set_up eq_refl eq_refl mysql_ok ltac:(discriminate) eq_refl
    ltac:(repeat constructor) eq_refl) as (H & _ & _ & _).
  exact H.
Defined.
Lemma querylog_doubles_select_witness : exists b' m',
  Selector_Get user_selector (DB_Session (mkDB (tiny_core [querylog NewQuerylogBuilder])))
    (tiny_core [querylog NewQuerylogBuilder]) (fresh_world "`"%char [] [] ∅) =
  (mkWorld b' [] m'
     [EvLog LogPrintf "SELECT * FROM `test_model` WHERE `id` = ?;" [AVal (VInt 12)];
      EvQuery None
        "SELECT * FROM `test_model` WHERE `id` = ?;SELECT * FROM `test_model` WHERE `id` = ?;"
        [AVal (VInt 12); AVal (VInt 12)]],
   Ok (Some (mkPtr user_fields 0%Z), None)).
Proof.
  destruct (querylog_doubles_select user_selector (DB_Session (mkDB (tiny_core [querylog NewQuerylogBuilder])))
    (tiny_core [querylog NewQuerylogBuilder]) "`"%char [] [] ∅ [(e_type user_entity, user_model)] user_model
    [(e_type user_entity, user_model)] "SELECT * FROM `test_model` WHERE `id` = ?;"
    [AVal (VInt 12)] eq_refl I eq_refl eq_refl) as [b' H].
  exists b'. eexists. rewrite H. reflexivity.
Defined.
