(* ===== verification/OrmTx.v ===== *)
(** Transactions: closures run by [DB.DoTx] ([orm/db.go], [orm/transaction.go]).

    A closure is a program: queries on its transaction, statements on the
    database beside it, its own commits and rollbacks, transactions within.
    [DoTx_transaction] says what [DoTx] makes of any of them. *)
From S2P Require Import Prelude Registry Sql Valuer Insert Orm.

(** What [database/sql] promises of transactions: which are open, and what other
    connections see. *)
Class TxLaws (D S : Type) {HD : SqlDB D} := {
  tx_open : nat -> D -> Prop;
  visible : D -> S;
  begin_ok : forall d d' tx, sql_BeginTx d = (d', inr tx) ->
    ~ tx_open tx d /\ (forall t, tx_open t d' <-> t = tx \/ tx_open t d) /\ visible d' = visible d;
  begin_err : forall d d' err, sql_BeginTx d = (d', inl err) -> forall t, tx_open t d' <-> tx_open t d;
  exec_open : forall h q a d t, tx_open t (sql_Exec h q a d).1 <-> tx_open t d;
  commit_open : forall tx d t, tx_open t (sql_Commit tx d).1 <-> t <> tx /\ tx_open t d;
  rollback_open : forall tx d t, tx_open t (sql_Rollback tx d).1 <-> t <> tx /\ tx_open t d;
  rollback_visible : forall tx d, visible (sql_Rollback tx d).1 = visible d;
  commit_done : forall tx d, ~ tx_open tx d -> (sql_Commit tx d).2 = Some ErrTxDone
}.

Section tx.
Context {D : Type} {HD : SqlDB D}.
Abbreviation txworld := (@Orm.txworld D).
Abbreviation Tx := (@Orm.Tx D).
Abbreviation DB := (@Orm.DB D).

(** ** Closures *)

(** A query of the ORM on a session: what it does to the database, and its panic. *)
Definition orm_query : Type := Session (D := D) -> D -> D * option panic.
Definition orm_of {A X} (start : go A) (run : A -> @world D * go X) (d : D) : D * option panic :=
  match start with
  | Ok a => match run a with
            | (w, Ok _) => (w_db w, None)
            | (w, Panic p) => (w_db w, Some p)
            end
  | Panic p => (d, Some p)
  end.
Definition orm_get (T : entity) (wh : list Predicate) (r : registry) (m : mem) : orm_query := fun sess d =>
  orm_of (NewSelectorOn T sess r)
    (fun '(c, s, b) => Selector_Get (Where s wh) sess c (mkWorld b d m [])) d.
Definition orm_insert {V} {HC : Creator V} (T : entity) (vals : list ptr) (r : registry) (m : mem) : orm_query := fun sess d =>
  orm_of (NewInserterOn T sess r)
    (fun '(c, (i, b)) => Inserter_Exec (HC := HC) (Values i vals) sess c (mkWorld b d m [])) d.
Definition orm_raw (T : entity) (query : string) (args : list any) (q : char) (r : registry) (m : mem) : orm_query := fun sess d =>
  orm_of (RawQuery T sess query args)
    (fun '(rq, c) => RawQuerier_Exec rq sess c (mkWorld (new_builder q r) d m [])) d.

(** The statements of a closure of [DoTx]. *)
Inductive stmt :=
  | SOrm (q : orm_query)                        (** a query on the transaction *)
  | SBeside (query : string) (args : list any)  (** a statement on the database, beside it *)
  | SCommit | SRollback | SRollbackIfNotCommit  (** on the transaction, the error ignored *)
  | SNested (body : list stmt) (fin : ended).   (** [db.DoTx] within, its error ignored *)

(** One statement of the closure whose transaction is [p]: a panic ends it. *)
Definition ended_of (x : go (txworld * option orm_error)) (w : txworld) : txworld * option panic :=
  match x with Ok (w', _) => (w', None) | Panic e => (w, Some e) end.
Fixpoint exec_stmt (db : DB) (p : nat) (st : stmt) (w : txworld) {struct st} : txworld * option panic :=
  match st with
  | SOrm q =>
      match t_heap w !! p with
      | Some t => let '(d, e) := q (Tx_Session t) (t_d w) in (mkTxWorld d (t_heap w), e)
      | None => (w, Some PNilDeref)
      end
  | SBeside query args => (mkTxWorld (sql_Exec None query args (t_d w)).1 (t_heap w), None)
  | SCommit => ended_of (Tx_Commit p w) w
  | SRollback => ended_of (Tx_Rollback p w) w
  | SRollbackIfNotCommit => ended_of (RollbackIfNotCommit p w) w
  | SNested body fin =>
      let closure := fix closure (l : list stmt) (p : nat) (w : txworld) {struct l} :=
        match l with
        | [] => (w, fin)
        | st :: l' =>
            match exec_stmt db p st w with
            | (w, Some e) => (w, Panicked e)
            | (w, None) => closure l' p w
            end
        end in
      match DoTx db (closure body) w with
      | Ok (w, TxPanicked e) => (w, Some e)
      | Ok (w, TxReturned _) => (w, None)
      | Panic e => (w, Some e)
      end
  end.
Fixpoint closure (db : DB) (l : list stmt) (fin : ended) (p : nat) (w : txworld) : txworld * ended :=
  match l with
  | [] => (w, fin)
  | st :: l' =>
      match exec_stmt db p st w with
      | (w, Some e) => (w, Panicked e)
      | (w, None) => closure db l' fin p w
      end
  end.

Lemma exec_nested db p body fin w :
  exec_stmt db p (SNested body fin) w =
  match DoTx db (closure db body fin) w with
  | Ok (w, TxPanicked e) => (w, Some e)
  | Ok (w, TxReturned _) => (w, None)
  | Panic e => (w, Some e)
  end.
Proof.
  cbn [exec_stmt]. match goal with |- context [DoTx db (?f body) w] => set (g := f) end.
  assert (forall l q u, g l q u = closure db l fin q u) as K.
  { induction l as [|st l IH]; intros q u; [done|]. cbn.
    destruct (exec_stmt db q st u) as [u' [e|]]; [done|apply IH]. }
  unfold DoTx. destruct (DB_BeginTx db w) as [w1 [err|q]]; [done|]. by rewrite K.
Qed.
Section stmt_ind.
Context (P : stmt -> Prop) (HO : forall q, P (SOrm q)) (HB : forall q a, P (SBeside q a))
  (HC : P SCommit) (HR : P SRollback) (HI : P SRollbackIfNotCommit)
  (HN : forall body fin, Forall P body -> P (SNested body fin)).
Definition stmt_ind' : forall st, P st :=
  fix go st :=
    match st with
    | SOrm q => HO q
    | SBeside q a => HB q a
    | SCommit => HC
    | SRollback => HR
    | SRollbackIfNotCommit => HI
    | SNested body fin => HN body fin ((fix all l : Forall P l :=
        match l with [] => Forall_nil_2 P | st :: l' => Forall_cons_2 P st l' (go st) (all l') end) body)
    end.
End stmt_ind.

(** ** Every transaction is closed *)

Context {S : Type} {HL : TxLaws D S}.

(** A query asks its session for the core before anything else; those of the ORM do. *)
Definition uses_core (q : orm_query) : Prop :=
  forall sess d e, sess_getCore sess = Panic e -> q sess d = (d, Some e).
Lemma orm_uses_core :
  (forall T wh r m, uses_core (orm_get T wh r m)) /\
  (forall V (HC : Creator V) T vals r m, uses_core (orm_insert T vals r m)) /\
  (forall T query args q r m, uses_core (orm_raw T query args q r m)).
Proof.
  split_and!; intros *; intros sess d e He;
    unfold orm_get, orm_insert, orm_raw, NewSelectorOn, NewInserterOn, RawQuery; by rewrite He.
Qed.
Inductive wf_stmt : stmt -> Prop :=
  | wf_orm q : uses_core q -> wf_stmt (SOrm q)
  | wf_beside q a : wf_stmt (SBeside q a)
  | wf_commit : wf_stmt SCommit
  | wf_rollback : wf_stmt SRollback
  | wf_rollback_if : wf_stmt SRollbackIfNotCommit
  | wf_nested body fin : Forall wf_stmt body -> wf_stmt (SNested body fin).

(** The pointers keep their transactions. *)
Definition heap_ext (h h' : list Tx) : Prop :=
  forall p t, h !! p = Some t -> exists b, h' !! p = Some (mkTx (tx_tx t) (tx_db t) b).
#[local] Instance heap_ext_refl : Reflexive heap_ext.
Proof. intros h p [a b c] Hp. by exists c. Qed.
#[local] Instance heap_ext_trans : Transitive heap_ext.
Proof. intros h1 h2 h3 H1 H2 p t Hp. destruct (H1 _ _ Hp) as [b Hb]. destruct (H2 _ _ Hb) as [b' Hb']. by exists b'. Qed.
Lemma heap_ext_snoc h t : heap_ext h (h ++ [t]).
Proof. intros p [a b c] Hp. exists c. by apply lookup_app_l_Some. Qed.
Lemma heap_ext_done h p t : h !! p = Some t -> heap_ext h (<[p := mkTx (tx_tx t) (tx_db t) true]> h).
Proof.
  intros Hp q u Hq. destruct (decide (p = q)) as [<-|Hne].
  - rewrite Hp in Hq. injection Hq as <-. exists true. eapply list_lookup_insert_eq, lookup_lt_Some, Hp.
  - destruct u as [a b c]. exists c. by rewrite list_lookup_insert_ne.
Qed.

(** What a step of the transaction [tx] may do to the others, and to itself. *)
Definition within (tx : nat) (w w' : txworld) : Prop :=
  (forall u, u <> tx -> tx_open u (t_d w') <-> tx_open u (t_d w)) /\
  (tx_open tx (t_d w') -> tx_open tx (t_d w)) /\ heap_ext (t_heap w) (t_heap w').
#[local] Instance within_refl tx : Reflexive (within tx).
Proof. by intros w. Qed.
#[local] Instance within_trans tx : Transitive (within tx).
Proof.
  intros w1 w2 w3 (A1 & B1 & C1) (A2 & B2 & C2). split_and!; [|auto|by etransitivity].
  intros u Hu. by rewrite A2, A1.
Qed.

Lemma within_finish f p t w :
  t_heap w !! p = Some t ->
  (forall u, tx_open u (f (tx_tx t) (t_d w)).1 <-> u <> tx_tx t /\ tx_open u (t_d w)) ->
  exists w' err, finish f p w = Ok (w', err) /\ within (tx_tx t) w w' /\
    t_d w' = (f (tx_tx t) (t_d w)).1 /\ err = (f (tx_tx t) (t_d w)).2 /\
    ~ tx_open (tx_tx t) (t_d w').
Proof.
  intros Hp Hf. unfold finish. rewrite Hp. cbn [go_of_option mbind go_bind].
  destruct (f (tx_tx t) (t_d w)) as [d err]. cbn [fst snd] in *. do 2 eexists. split; [done|]. cbn [t_d].
  split_and!; [|done|done|rewrite Hf; tauto]. split_and!; cbn [t_d t_heap].
  - intros u Hu. rewrite Hf. tauto.
  - rewrite Hf. tauto.
  - by apply heap_ext_done.
Qed.

(** A function of [DoTx] that keeps within its transaction. *)
Definition keeps_within (fn : nat -> txworld -> txworld * ended) : Prop :=
  forall p w t, t_heap w !! p = Some t -> tx_db t = None -> within (tx_tx t) w (fn p w).1.

Definition begun (d : D) (tx : nat) w : txworld := mkTxWorld d (t_heap w ++ [mkTx tx None false]).
Lemma DoTx_run db fn w d tx :
  keeps_within fn -> sql_BeginTx (t_d w) = (d, inr tx) ->
  let '(w1, res) := fn (length (t_heap w)) (begun d tx w) in
  exists w', DoTx db fn w = Ok (w', match res with
      | Panicked v => TxPanicked v
      | Returned _ => TxReturned (TxErr <$> (sql_Commit tx (t_d w1)).2)
      end) /\
    t_d w' = match res with
             | Panicked _ => (sql_Rollback tx (t_d w1)).1
             | Returned _ => (sql_Commit tx (t_d w1)).1
             end /\
    (forall u, tx_open u (t_d w') <-> tx_open u (t_d w)) /\ heap_ext (t_heap w) (t_heap w').
Proof.
  intros Hk HB. unfold DoTx, DB_BeginTx. rewrite HB. fold (begun d tx w).
  assert (t_heap (begun d tx w) !! length (t_heap w) = Some (mkTx tx None false)) as Hp by by apply list_lookup_middle.
  destruct (Hk _ _ _ Hp eq_refl) as (A & B & C). destruct (begin_ok _ _ _ HB) as (Hn & Ho & _).
  destruct (fn (length (t_heap w)) (begun d tx w)) as [w1 res]. cbn [fst tx_tx t_d begun t_heap] in *.
  destruct (C _ _ Hp) as [b Hp1]. cbn [tx_tx tx_db] in Hp1.
  assert (forall w', within tx w1 w' -> ~ tx_open tx (t_d w') ->
    (forall u, tx_open u (t_d w') <-> tx_open u (t_d w)) /\ heap_ext (t_heap w) (t_heap w')) as K.
  { intros w' (A' & _ & C') Hn'. split.
    - intros u. destruct (decide (u = tx)) as [->|Hu]; [tauto|]. rewrite A', A, Ho by done. tauto.
    - etransitivity; [apply heap_ext_snoc|]. by etransitivity. }
  destruct res as [err|v].
  - destruct (within_finish sql_Commit _ _ _ Hp1 (commit_open _ _)) as (w' & e & HF & Hw & Hd & He & Hn').
    unfold Tx_Commit. rewrite HF. exists w'. cbn [mbind go_bind fst snd]. rewrite He. eauto using K.
  - destruct (within_finish sql_Rollback _ _ _ Hp1 (rollback_open _ _)) as (w' & e & HF & Hw & Hd & He & Hn').
    unfold Tx_Rollback. rewrite HF. exists w'. cbn [mbind go_bind fst snd]. eauto using K.
Qed.

Lemma DoTx_failed db fn w d err :
  sql_BeginTx (t_d w) = (d, inl err) -> DoTx db fn w = Ok (mkTxWorld d (t_heap w), TxReturned (Some (TxErr err))).
Proof. intros HB. unfold DoTx, DB_BeginTx. by rewrite HB. Qed.
Lemma DoTx_closes db fn w :
  keeps_within fn -> exists w' x, DoTx db fn w = Ok (w', x) /\
    (forall u, tx_open u (t_d w') <-> tx_open u (t_d w)) /\ heap_ext (t_heap w) (t_heap w').
Proof.
  intros Hk. destruct (sql_BeginTx (t_d w)) as [d [err|tx]] eqn:HB.
  - exists (mkTxWorld d (t_heap w)), (TxReturned (Some (TxErr err))). split; [by apply DoTx_failed|].
    split; [|done]. exact (begin_err _ _ _ HB).
  - pose proof (DoTx_run db fn w d tx Hk HB) as HR. destruct (fn _ _) as [w1 res].
    destruct HR as (w' & HD' & _ & Ho & Hh). eauto 6.
Qed.

Lemma closure_within_of db l fin :
  Forall (fun st => forall p w t, t_heap w !! p = Some t -> tx_db t = None -> within (tx_tx t) w (exec_stmt db p st w).1) l ->
  keeps_within (closure db l fin).
Proof.
  induction l as [|st l IH]; intros HF p w t Hp Hdb; [done|]. apply Forall_cons in HF as [Hst HF]. cbn [closure].
  specialize (Hst p w t Hp Hdb). destruct (exec_stmt db p st w) as [w1 [e|]]; [done|]. cbn [fst] in Hst.
  etransitivity; [exact Hst|]. destruct Hst as (_ & _ & Hh). destruct (Hh _ _ Hp) as [b Hp1].
  exact (IH HF p w1 _ Hp1 Hdb).
Qed.
Lemma stmt_within db st : wf_stmt st ->
  forall p w t, t_heap w !! p = Some t -> tx_db t = None -> within (tx_tx t) w (exec_stmt db p st w).1.
Proof.
  induction st as [q|q a| | | |body fin IH] using stmt_ind'; intros Hwf p w t Hp Hdb; inversion_clear Hwf as [? Hq| | | | |? ? Hb].
  - cbn. rewrite Hp, (Hq (Tx_Session t) _ PNilDeref); [by destruct w|]. unfold Tx_Session. cbn. by rewrite Hdb.
  - split_and!; cbn; [|by rewrite exec_open|done]. intros u _. apply exec_open.
  - destruct (within_finish sql_Commit _ _ _ Hp (commit_open _ _)) as (w' & e & HF & Hw & _).
    cbn [exec_stmt]. unfold Tx_Commit. by rewrite HF.
  - destruct (within_finish sql_Rollback _ _ _ Hp (rollback_open _ _)) as (w' & e & HF & Hw & _).
    cbn [exec_stmt]. unfold Tx_Rollback. by rewrite HF.
  - destruct (within_finish sql_Rollback _ _ _ Hp (rollback_open _ _)) as (w' & e & HF & Hw & _).
    cbn [exec_stmt]. unfold RollbackIfNotCommit. by rewrite HF.
  - rewrite exec_nested. destruct (DoTx_closes db (closure db body fin) w) as (w' & x & HD' & Ho & Hh).
    + apply closure_within_of. rewrite Forall_forall in IH, Hb |- *. auto.
    + rewrite HD'. assert (within (tx_tx t) w w') as Hw.
      { split_and!; [by intros u _|by rewrite Ho|done]. }
      by destruct x.
Qed.
Lemma closure_within db l fin : Forall wf_stmt l -> keeps_within (closure db l fin).
Proof.
  intros Hl. apply closure_within_of. rewrite Forall_forall in Hl |- *. intros st Hst. by apply stmt_within, Hl.
Qed.

(** ** What becomes of the transaction *)

(** Statements that are neither queries of the ORM nor transactions within; those
    that end the transaction; those that undo or do nothing. *)
Inductive plain : stmt -> Prop :=
  | plain_beside q a : plain (SBeside q a)
  | plain_commit : plain SCommit
  | plain_rollback : plain SRollback
  | plain_rollback_if : plain SRollbackIfNotCommit.
Inductive ending : stmt -> Prop :=
  | ending_commit : ending SCommit
  | ending_rollback : ending SRollback
  | ending_rollback_if : ending SRollbackIfNotCommit.
Inductive undoable : stmt -> Prop :=
  | undoable_orm q : uses_core q -> undoable (SOrm q)
  | undoable_rollback : undoable SRollback
  | undoable_rollback_if : undoable SRollbackIfNotCommit.
#[local] Hint Constructors wf_stmt plain ending undoable : core.
Lemma plain_wf l : Forall plain l -> Forall wf_stmt l.
Proof. intros Hl. eapply Forall_impl; [exact Hl|]. intros ? []; auto. Qed.
Lemma undoable_wf l : Forall undoable l -> Forall wf_stmt l.
Proof. intros Hl. eapply Forall_impl; [exact Hl|]. intros ? []; auto. Qed.

Lemma finish_runs f p t w : t_heap w !! p = Some t ->
  ended_of (finish f p w) w =
  (mkTxWorld (f (tx_tx t) (t_d w)).1 (<[p := mkTx (tx_tx t) (tx_db t) true]> (t_heap w)), None).
Proof. intros Hp. unfold finish. rewrite Hp. cbn. by destruct (f (tx_tx t) (t_d w)). Qed.
Lemma rollback_if_runs p t w : t_heap w !! p = Some t ->
  ended_of (RollbackIfNotCommit p w) w = ended_of (Tx_Rollback p w) w.
Proof. intros Hp. unfold RollbackIfNotCommit, Tx_Rollback, finish. rewrite Hp. cbn. by destruct (sql_Rollback (tx_tx t) (t_d w)). Qed.
Lemma plain_step db st p w t : plain st -> t_heap w !! p = Some t ->
  exists w', exec_stmt db p st w = (w', None) /\ (ending st -> ~ tx_open (tx_tx t) (t_d w')).
Proof.
  intros [] Hp; cbn [exec_stmt]; rewrite ?(rollback_if_runs _ _ _ Hp); unfold Tx_Commit, Tx_Rollback;
    rewrite ?(finish_runs _ _ _ _ Hp); eexists; (split; [done|]); intros HE; cbn [t_d];
    rewrite ?commit_open, ?rollback_open; [inversion HE|tauto..].
Qed.
Lemma plain_steps db l p w t :
  Forall plain l -> t_heap w !! p = Some t -> tx_db t = None ->
  exists w', (forall rest fin, closure db (l ++ rest) fin p w = closure db rest fin p w') /\
    within (tx_tx t) w w' /\ (Exists ending l -> ~ tx_open (tx_tx t) (t_d w')).
Proof.
  intros Hl. revert w t. induction Hl as [|st l Hst Hl IH]; intros w t Hp Hdb.
  { exists w. split_and!; [done..|]. by intros ?%Exists_nil. }
  destruct (plain_step db st p w t Hst Hp) as (w1 & HE & Hend).
  assert (within (tx_tx t) w w1) as Hw1.
  { pose proof (stmt_within db st) as K. rewrite Forall_forall in Hl. destruct Hst; specialize (K ltac:(auto) p w t Hp Hdb); by rewrite HE in K. }
  pose proof Hw1 as (_ & _ & Hh). destruct (Hh _ _ Hp) as [b Hp1].
  destruct (IH w1 _ Hp1 Hdb) as (w2 & HC & Hw2 & Hend2). cbn [tx_tx] in *.
  exists w2. split_and!; [|by etransitivity|].
  - intros rest fin. cbn. by rewrite HE, HC.
  - intros [He|He]%Exists_cons; [|by apply Hend2]. intros Ho. apply (Hend He). by apply Hw2.
Qed.

Lemma undoable_step db st p w t : undoable st -> t_heap w !! p = Some t -> tx_db t = None ->
  visible (t_d (exec_stmt db p st w).1) = visible (t_d w).
Proof.
  intros Hst Hp Hdb. destruct Hst as [q Hq| |]; cbn [exec_stmt]; rewrite ?(rollback_if_runs _ _ _ Hp); unfold Tx_Rollback;
    rewrite ?(finish_runs _ _ _ _ Hp); [|apply rollback_visible..].
  rewrite Hp, (Hq _ _ PNilDeref); [done|]. unfold Tx_Session. by rewrite Hdb.
Qed.
Lemma undoable_steps db l fin p w t :
  Forall undoable l -> t_heap w !! p = Some t -> tx_db t = None ->
  visible (t_d (closure db l fin p w).1) = visible (t_d w).
Proof.
  intros Hl. revert w t. induction Hl as [|st l Hst Hl IH]; intros w t Hp Hdb; [done|]. cbn [closure].
  pose proof (undoable_step db st p w t Hst Hp Hdb) as HV.
  assert (wf_stmt st) as Hwf by (destruct Hst; auto).
  pose proof (stmt_within db st Hwf p w t Hp Hdb) as (_ & _ & Hh).
  destruct (exec_stmt db p st w) as [w1 [e|]]; [done|]. cbn [fst] in *.
  destruct (Hh _ _ Hp) as [b Hp1]. rewrite <-HV. by eapply IH.
Qed.

(** C16. [DB.DoTx] over a closure made of queries of the ORM on its transaction,
    statements on the database beside it, its own commits and rollbacks, and
    transactions within, at any depth: [DoTx] returns, or panics with the panic of
    the closure, and the transactions open afterwards are those open before, so
    that none leaks.  A transaction that cannot begin is reported.  Otherwise
    - the first query of the ORM panics, since the transaction has no core;
    - a closure that panics without having written beside its transaction or
      committed it leaves the visible state as it found it;
    - a closure that returns gets the error of the commit after its last
      statement, and its own error is lost; when it has ended the transaction
      itself, that error is [ErrTxDone]. *)
Theorem DoTx_transaction db l fin w : Forall wf_stmt l ->
  exists w' x, DoTx db (closure db l fin) w = Ok (w', x) /\
    (forall u, tx_open u (t_d w') <-> tx_open u (t_d w)) /\
    match sql_BeginTx (t_d w) with
    | (d, inl err) => x = TxReturned (Some (TxErr err))
    | (d, inr tx) =>
        (forall before q after, l = before ++ SOrm q :: after -> Forall plain before -> x = TxPanicked PNilDeref) /\
        (Forall plain l -> forall e, fin = Panicked e -> x = TxPanicked e) /\
        (Forall undoable l -> forall e, x = TxPanicked e -> visible (t_d w') = visible (t_d w)) /\
        (Forall plain l -> forall err, fin = Returned err ->
           let d1 := t_d (closure db l fin (length (t_heap w)) (begun d tx w)).1 in
           t_d w' = (sql_Commit tx d1).1 /\ x = TxReturned (TxErr <$> (sql_Commit tx d1).2) /\
           (Exists ending l -> x = TxReturned (Some (TxErr ErrTxDone))))
    end.
Proof.
  intros Hl. destruct (sql_BeginTx (t_d w)) as [d [err|tx]] eqn:HB.
  { exists (mkTxWorld d (t_heap w)), (TxReturned (Some (TxErr err))).
    split_and!; [by apply DoTx_failed|exact (begin_err _ _ _ HB)|done]. }
  assert (t_heap (begun d tx w) !! length (t_heap w) = Some (mkTx tx None false)) as Hp by by apply list_lookup_middle.
  pose proof (DoTx_run db _ w d tx (closure_within db l fin Hl) HB) as HR.
  destruct (closure db l fin (length (t_heap w)) (begun d tx w)) as [w1 res] eqn:HC.
  destruct HR as (w' & HD' & Hd & Ho & _). exists w'. eexists. split; [exact HD'|]. split; [exact Ho|].
  cbn zeta. cbn [fst]. split_and!.
  - intros before q after -> Hb. destruct (plain_steps db before _ _ _ Hb Hp eq_refl) as (w2 & HC2 & (_ & _ & Hh) & _).
    rewrite HC2 in HC. destruct (Hh _ _ Hp) as [b Hp2]. cbn [closure exec_stmt] in HC. rewrite Hp2 in HC.
    apply Forall_app in Hl as [_ [Hq _]%Forall_cons]. inversion_clear Hq as [? Hu| | | | |].
    rewrite (Hu _ _ PNilDeref) in HC by done. by injection HC as _ <-.
  - intros Hpl e ->. destruct (plain_steps db l _ _ _ Hpl Hp eq_refl) as (w2 & HC2 & _).
    specialize (HC2 [] (Panicked e)). rewrite app_nil_r, HC in HC2. by injection HC2 as _ ->.
  - intros Hun e Hx. destruct res as [|v]; [done|]. rewrite Hd, rollback_visible.
    pose proof (undoable_steps db l fin _ _ _ Hun Hp eq_refl) as HV. rewrite HC in HV. cbn [fst] in HV.
    rewrite HV. cbn [begun t_d]. exact (proj2 (proj2 (begin_ok _ _ _ HB))).
  - intros Hpl err ->. destruct (plain_steps db l _ _ _ Hpl Hp eq_refl) as (w2 & HC2 & _ & Hend).
    specialize (HC2 [] (Returned err)). rewrite app_nil_r, HC in HC2. injection HC2 as -> ->.
    split_and!; [done..|]. intros HE. cbn [tx_tx t_d] in *. by rewrite (commit_done _ _ (Hend HE)).
Qed.
End tx.

(** ** A small database for which the laws hold *)

(** It keeps the statements executed: those committed, and those of each open
    transaction; [None] is a transaction that is finished. *)
Record journal := mkJournal { j_done : list string; j_txs : list (option (list string)) }.
Definition journal_exec (h : option nat) (q : string) (d : journal) : journal :=
  match h with
  | None => mkJournal (j_done d ++ [q]) (j_txs d)
  | Some t => match j_txs d !! t with
              | Some (Some l) => mkJournal (j_done d) (<[t := Some (l ++ [q])]> (j_txs d))
              | _ => d
              end
  end.
Definition journal_end (keep : bool) (t : nat) (d : journal) : journal * option orm_error :=
  match j_txs d !! t with
  | Some (Some l) => (mkJournal (j_done d ++ if keep then l else []) (<[t := None]> (j_txs d)), None)
  | _ => (d, Some ErrTxDone)
  end.
#[export] Instance journal_db : SqlDB journal := {
  sql_Query := fun _ _ _ d => (d, inr None);
  sql_Exec := fun h q _ d => (journal_exec h q d, inr (0%Z, 1%Z));
  sql_BeginTx := fun d => (mkJournal (j_done d) (j_txs d ++ [Some []]), inr (length (j_txs d)));
  sql_Commit := journal_end true;
  sql_Rollback := journal_end false;
  sql_Now := fun _ => 0%Z
}.
Definition journal_open (t : nat) (d : journal) : Prop := exists l, j_txs d !! t = Some (Some l).

Lemma journal_end_open keep tx d t :
  journal_open t (journal_end keep tx d).1 <-> t <> tx /\ journal_open t d.
Proof.
  unfold journal_open, journal_end. destruct (j_txs d !! tx) as [[l|]|] eqn:Hd; cbn.
  - destruct (decide (t = tx)) as [->|Hne].
    + rewrite list_lookup_insert_eq by by eapply lookup_lt_Some. split; [intros [? [=]]|tauto].
    + rewrite list_lookup_insert_ne by done. tauto.
  - split; [|tauto]. intros [l Hl]. split; [congruence|eauto].
  - split; [|tauto]. intros [l Hl]. split; [congruence|eauto].
Qed.
Lemma journal_exec_open h q d t : journal_open t (journal_exec h q d) <-> journal_open t d.
Proof.
  unfold journal_open, journal_exec. destruct h as [u|]; [|done]. destruct (j_txs d !! u) as [[l|]|] eqn:Hd; [|done..].
  cbn. destruct (decide (t = u)) as [->|Hne]; [|by rewrite list_lookup_insert_ne].
  rewrite list_lookup_insert_eq by by eapply lookup_lt_Some. rewrite Hd. split; eauto.
Qed.
Lemma journal_begin_open d t :
  journal_open t (mkJournal (j_done d) (j_txs d ++ [Some []])) <-> t = length (j_txs d) \/ journal_open t d.
Proof.
  unfold journal_open. cbn. destruct (decide (t = length (j_txs d))) as [->|Hne].
  - rewrite list_lookup_middle by done. split; eauto.
  - rewrite lookup_app. destruct (j_txs d !! t) eqn:Ht; [split; [eauto|by intros [?|?]]|].
    apply lookup_ge_None in Ht. rewrite (lookup_ge_None_2 [Some []]) by (cbn; lia). split; [by intros []|by intros [?|[]]].
Qed.
#[export, refine] Instance journal_laws : TxLaws journal (list string) := {
  tx_open := journal_open; visible := j_done
}.
Proof.
  - intros d d' tx [= <- <-]. split_and!; [|apply journal_begin_open|done].
    intros [l Hl]. by rewrite lookup_ge_None_2 in Hl by lia.
  - done.
  - intros. apply journal_exec_open.
  - intros. apply journal_end_open.
  - intros. apply journal_end_open.
  - intros tx d. cbn. unfold journal_end. destruct (j_txs d !! tx) as [[l|]|]; [by rewrite app_nil_r|done..].
  - intros tx d H. cbn. unfold journal_end. destruct (j_txs d !! tx) as [[l|]|] eqn:Hd; [|done..].
    destruct H. by exists l.
Defined.

Definition journal_core : DB := mkDB (db_core (OpenDB (D := journal) conv_plain [])).
(** A statement beside the transaction, one transaction within, a commit of one's
    own: the second commit fails. *)
Definition own_commit : list (stmt (D := journal)) :=
  [SBeside "DELETE FROM `t`;" []; SNested [SRollback] (Returned None); SCommit].
Lemma DoTx_transaction_witness : exists w' x,
  DoTx journal_core (closure journal_core own_commit (Returned (Some ErrNoRows))) (mkTxWorld (mkJournal [] []) []) = Ok (w', x) /\
    x = TxReturned (Some (TxErr ErrTxDone)) /\ t_d w' = mkJournal ["DELETE FROM `t`;"] [None; None] /\
    (forall u, journal_open u (t_d w') <-> journal_open u (mkJournal [] [])).
Proof.
  destruct (DoTx_transaction (HL := journal_laws) journal_core own_commit (Returned (Some ErrNoRows))
    (mkTxWorld (mkJournal [] []) []) ltac:(repeat constructor)) as (w' & x & HD & Ho & _).
  exists w', x. split; [exact HD|]. split; [|split; [|exact Ho]]; vm_compute in HD; injection HD as <- <-; reflexivity.
Defined.
(** A query of the ORM in a transaction: the row deleted beside it stays deleted,
    the transaction is rolled back, and the caller panics. *)
Example query_in_transaction :
  DoTx journal_core
    (closure journal_core [SBeside "DELETE FROM `t`;" []; SOrm (orm_raw user_entity "DROP TABLE `t`;" [] "`"%char [] ∅); SCommit] (Returned None))
    (mkTxWorld (mkJournal [] []) []) =
  Ok (mkTxWorld (mkJournal ["DELETE FROM `t`;"] [None]) [mkTx 0 None true], TxPanicked PNilDeref).
Proof. vm_compute. reflexivity. Qed.
