(* ===== verification/OrmRoundtrip.v ===== *)
(** An entity through the database: [Inserter.Exec] of [orm/insert.go], then
    [Selector.Get] of [orm/select.go], over any lawful valuer of
    [orm/internal/valuer].

    The two queries are those of [Insert] and [Sql]; what they exchange with the
    database is a row of values, which the valuer reads from one structure and
    stores in another. *)
From S2P Require Import Prelude Registry Sql Valuer Insert Orm.

(** ** What the queries need of a valuer *)

(** Its fields are the places of the structure, and a row that converts is
    stored in them. *)
Class CreatorLaws (convertAssign : string -> sqlval -> option sqlval) (V : Type) {HC : Creator V} := {
  law_Field md p name fd m :
    model_of_struct md (p_fields p) -> NoDup (sf_Name <$> p_fields p) ->
    field_named md name = Some fd -> is_exported name = true ->
    Value_Field (NewValue md p) name m = mem_read (p_addr p + Offset fd)%Z m;
  law_SetColumns md p rows cs fds vs m :
    model_of_struct md (p_fields p) -> NoDup (sf_Name <$> p_fields p) ->
    r_Columns rows = inr cs -> columns_fields md cs = inr fds ->
    Forall (fun fd => is_exported (GoName fd) = true) fds ->
    convert_all convertAssign fds (r_row rows) = Some vs ->
    Value_SetColumns (NewValue md p) rows m = Ok (store_fields p fds vs m, inr tt)
}.
#[export] Instance reflect_laws convertAssign :
  CreatorLaws convertAssign reflectValue (HC := reflect_Creator convertAssign).
Proof.
  split.
  - intros md p name fd m Hm Hn Hf He. cbn. unfold reflect_Field. cbn.
    by rewrite (FieldByName_offset md p name fd).
  - intros md p rows cs fds vs m Hm Hn Hc Hf He Hv. cbn.
    erewrite reflect_SetColumns_eq; [by rewrite Hv|done..].
Qed.
#[export] Instance unsafe_laws convertAssign :
  CreatorLaws convertAssign unsafeValue (HC := unsafe_Creator convertAssign).
Proof.
  split.
  - intros md p name fd m Hm Hn Hf He. cbn. unfold unsafe_Field. cbn. by rewrite Hf.
  - intros md p rows cs fds vs m Hm Hn Hc Hf He Hv. cbn.
    pose proof (unsafe_SetColumns_eq convertAssign md p rows cs fds m Hc Hf) as H.
    by rewrite Hv in H.
Qed.

(** ** Models of structures that can be stored *)

Record entity_model (md : Model) (sfs : list StructField) : Prop := {
  em_wf : model_wf md;
  em_fresh : columns_fresh md;
  em_struct : model_of_struct md sfs;
  em_names : NoDup (sf_Name <$> sfs);
  em_columns : NoDup (ColName <$> fields_of md);
  em_GoNames : NoDup (GoName <$> fields_of md);
  em_offsets : NoDup (Offset <$> fields_of md);
  em_layout : Forall (fun sf => 0 <= sf_Offset sf)%Z sfs;
  em_exported : Forall (fun fd => is_exported (GoName fd) = true) (fields_of md)
}.

Section model.
Context (md : Model) (sfs : list StructField) (Hem : entity_model md sfs).

Lemma em_field_named fd : fd ∈ fields_of md -> field_named md (GoName fd) = Some fd.
Proof.
  intros Hin. destruct (field_named_all md fd (em_wf _ _ Hem) Hin) as [g Hg]. rewrite Hg. f_equal.
  destruct (field_named_spec _ _ _ (em_wf _ _ Hem) Hg).
  by eapply (NoDup_fmap_eq GoName); [apply Hem|..].
Qed.
Lemma em_field_of_column fd : fd ∈ fields_of md -> field_of_column md (ColName fd) = Some fd.
Proof.
  intros Hin. destruct (field_of_column_all md fd (em_wf _ _ Hem) (em_fresh _ _ Hem) Hin) as [g Hg].
  rewrite Hg. f_equal. destruct (field_of_column_spec _ _ _ (em_wf _ _ Hem) (em_fresh _ _ Hem) Hg).
  by eapply (NoDup_fmap_eq ColName); [apply Hem|..].
Qed.
Lemma em_columns_fields : columns_fields md (ColName <$> fields_of md) = inr (fields_of md).
Proof.
  assert (forall fds, Forall (fun fd => fd ∈ fields_of md) fds -> columns_fields md (ColName <$> fds) = inr fds) as H.
  { intros fds HF. induction HF as [|fd fds Hfd HF IH]; [done|]. cbn.
    rewrite em_field_of_column, IH by done. done. }
  apply H. by apply Forall_forall.
Qed.
Lemma em_offset fd : fd ∈ fields_of md ->
  exists sf, sf ∈ sfs /\ sf_Offset sf = Offset fd /\ (0 <= Offset fd)%Z.
Proof.
  intros Hin. destruct (proj1 (em_struct _ _ Hem) _ _ (em_field_named _ Hin)) as (_ & sf & Hsf & _ & Ho & _).
  exists sf. split_and!; [done..|]. rewrite <-Ho. pose proof (em_layout _ _ Hem) as Hl.
  rewrite Forall_forall in Hl. by apply Hl.
Qed.
End model.

(** ** Memory *)

Lemma foldl_insert_other (l : list (Z * sqlval)) (m : mem) a :
  a ∉ l.*1 -> foldl (fun (m : mem) dv => <[dv.1 := dv.2]> m) m l !! a = m !! a.
Proof.
  revert m. induction l as [|[b v] l IH]; intros m Ha; [done|]. cbn in *.
  apply not_elem_of_cons in Ha as [Hb Ha]. rewrite IH by done.
  by apply mem_insert_other.
Qed.
Lemma foldl_insert_lookup (l : list (Z * sqlval)) (m : mem) i a v :
  NoDup l.*1 -> l !! i = Some (a, v) -> foldl (fun (m : mem) dv => <[dv.1 := dv.2]> m) m l !! a = Some v.
Proof.
  revert m i. induction l as [|[b w] l IH]; intros m [|i] Hn Hi; simplify_eq/=.
  - apply NoDup_cons in Hn as [Hn _]. rewrite foldl_insert_other by done.
    apply mem_insert_same.
  - apply NoDup_cons in Hn as [_ Hn]. by apply (IH _ i).
Qed.

(** Every address in use is below the top. *)
Lemma mem_top_spec m a v : m !! a = Some v -> (a < mem_top m)%Z.
Proof.
  unfold mem_top. revert a v.
  apply (map_fold_weak_ind (M := gmap Z) (fun top (m : gmap Z sqlval) => forall a v, m !! a = Some v -> (a < top)%Z)).
  - intros a v. by rewrite lookup_empty.
  - intros i x m' r _ IH a v. destruct (decide (i = a)) as [->|Hne].
    + intros _. lia.
    + rewrite lookup_insert_ne by done. intros H%IH. lia.
Qed.
(** Allocating a structure changes nothing that is in use. *)
Lemma new_T_old sfs m a v :
  Forall (fun sf => 0 <= sf_Offset sf)%Z sfs -> m !! a = Some v -> (new_T sfs m).2 !! a = Some v.
Proof.
  intros Hl Ha. pose proof (mem_top_spec _ _ _ Ha) as Ht. unfold new_T. cbn [snd p_addr].
  revert Ht. generalize (mem_top m). intros top Ht. revert m Ha.
  induction Hl as [|sf sfs Hsf Hl IH]; intros m Ha; [done|]. cbn. apply IH.
  by rewrite mem_insert_other by lia.
Qed.

(** The places of a new structure's fields, and what a row stores in them. *)
Section store.
Context (md : Model) (p : ptr).

Lemma store_fields_lookup vs m i fd v :
  NoDup (Offset <$> fields_of md) -> length vs = length (fields_of md) ->
  fields_of md !! i = Some fd -> vs !! i = Some v ->
  store_fields p (fields_of md) vs m !! (p_addr p + Offset fd)%Z = Some v.
Proof.
  intros Hn Hl Hi Hv. unfold store_fields. eapply (foldl_insert_lookup _ _ i).
  - rewrite fst_zip by (rewrite length_fmap; lia).
    rewrite (list_fmap_compose Offset (Z.add (p_addr p))). apply NoDup_fmap_2; [|done].
    intros x y E. lia.
  - rewrite lookup_zip_with, list_lookup_fmap, Hi, Hv. done.
Qed.
Lemma store_fields_other vs m a :
  (forall fd, fd ∈ fields_of md -> a <> (p_addr p + Offset fd)%Z) ->
  store_fields p (fields_of md) vs m !! a = m !! a.
Proof.
  intros Ha. unfold store_fields. apply foldl_insert_other. intros Hin.
  apply list_elem_of_fmap in Hin as ([b v] & -> & Hz). apply elem_of_zip_l in Hz. cbn in *.
  apply list_elem_of_fmap in Hz as (fd & E & Hfd). by apply (Ha fd).
Qed.
End store.

(** ** The trip *)

Section roundtrip.
Context {V : Type} {HC : Creator V} (convertAssign : string -> sqlval -> option sqlval).
Context {HL : CreatorLaws convertAssign V}.
Context {D : Type} {HD : SqlDB D}.
Context (md : Model) (sfs : list StructField) (Hem : entity_model md sfs).

(** A structure with these values in its fields. *)
Definition holds_values (m : mem) (p : ptr) (xs : list sqlval) : Prop :=
  Forall2 (fun fd x => m !! (p_addr p + Offset fd)%Z = Some x) (fields_of md) xs.

Lemma em_exported_elem fd : fd ∈ fields_of md -> is_exported (GoName fd) = true.
Proof. intros Hin. pose proof (em_exported _ _ Hem) as He. rewrite Forall_forall in He. by apply He. Qed.

Lemma holds_row_reads m p xs :
  p_fields p = sfs -> holds_values m p xs -> row_reads m md (fields_of md) p xs.
Proof.
  intros Hp HF. unfold row_reads. apply Forall2_same_length_lookup_2; [by eapply Forall2_length|].
  intros i fd x Hfd Hx. pose proof (Forall2_lookup_lr _ _ _ _ _ _ HF Hfd Hx) as Hm. cbn in Hm.
  apply list_elem_of_lookup_2 in Hfd.
  rewrite (law_Field (convertAssign := convertAssign) md p (GoName fd) fd).
  - unfold mem_read. by rewrite Hm.
  - rewrite Hp. apply Hem.
  - rewrite Hp. apply Hem.
  - by apply (em_field_named md sfs).
  - by apply em_exported_elem.
Qed.

Lemma convert_all_same xs :
  Forall2 (fun fd x => convertAssign (Type_ fd) x = Some x) (fields_of md) xs ->
  convert_all convertAssign (fields_of md) xs = Some xs.
Proof.
  intros HF. induction HF as [|fd x fds xs Hx HF IH]; [done|]. cbn. rewrite Hx. cbn. by rewrite IH.
Qed.

(** A new structure filled from a row of the values has them, and the old one
    keeps its own. *)
Lemma stored_values (c : core (D := D)) m p xs :
  c_creator c = creator_of V -> holds_values m p xs ->
  Forall2 (fun fd x => convertAssign (Type_ fd) x = Some x) (fields_of md) xs ->
  exists m' tp, stored c md sfs (mkRows (inr (ColName <$> fields_of md)) xs) m = (m', Ok (tp, None)) /\
    p_fields tp = sfs /\ holds_values m' tp xs /\ holds_values m' p xs.
Proof.
  intros Hc Hp Hx. unfold stored. set (tp := (new_T sfs m).1). set (m1 := (new_T sfs m).2).
  replace (new_T sfs m) with (tp, m1) by done. rewrite Hc. unfold creator_of.
  rewrite (law_SetColumns md tp _ (ColName <$> fields_of md) (fields_of md) xs m1);
    [|apply Hem|apply Hem|done|by eapply em_columns_fields|apply Hem|by apply convert_all_same].
  eexists _, tp. split; [done|]. split; [done|].
  pose proof (Forall2_length _ _ _ Hp) as Hlen. cbn [fst]. split.
  - apply Forall2_same_length_lookup_2; [done|]. intros i fd x Hfd Hxi.
    eapply store_fields_lookup; [apply Hem|done|done|done].
  - apply Forall2_same_length_lookup_2; [done|]. intros i fd x Hfd Hxi.
    pose proof (Forall2_lookup_lr _ _ _ _ _ _ Hp Hfd Hxi) as Hm. cbn in Hm.
    rewrite store_fields_other; [apply new_T_old; [apply Hem|done]|].
    intros g Hg E. pose proof (mem_top_spec _ _ _ Hm) as Ht.
    destruct (em_offset md sfs Hem g Hg) as (_ & _ & _ & Ho). unfold tp, new_T in E. cbn in E. lia.
Qed.

(** C15. An entity survives the database.  [Inserter.Exec] of one entity sends
    every field, in the order of the structure, under its column; when the
    database answers a SELECT of the same entity type with the row it was given,
    [Selector.Get] returns a new entity in which every field has the value that
    the inserted one has, and the inserted one is untouched; neither reports an
    error.  This holds for both valuers, every dialect that keeps its contract,
    the pool and a transaction, if the values are of the types of their fields,
    so that [database/sql] stores them as they are. *)
Theorem insert_get_roundtrip (i : Inserter) (s : Selector) (up : char -> Model -> Upsert -> orm_error + frag)
    (sess : Session (D := D)) (c : core (D := D)) (q : char) (r r1 r2 : registry) (d d1 d2 : D) (m : mem) (p : ptr)
    (xs : list sqlval) (t : string) (a : list any) (id n : Z) :
  i_T i = s_T s -> values i = [p] -> i_columns i = [] -> onDuplicateKey i = None ->
  dialect_ok (i_dialect i) up -> c_mdls c = [] -> c_creator c = creator_of V ->
  struct_fields (s_T s) = sfs -> p_fields p = sfs -> Get (s_T s) r = Ok (r1, inr md) ->
  joins_ok (length (where_ s)) (table s) -> render_select q md s r1 = Ok (r2, inr (t, a)) ->
  holds_values m p xs -> Forall2 (fun fd x => convertAssign (Type_ fd) x = Some x) (fields_of md) xs ->
  (** the database takes the row, and gives it back *)
  sql_Exec (sess_handle sess) (SQL (insert_query q md (fields_of md) [xs] ("", []))) (AVal <$> xs) d
    = (d1, inr (id, n)) ->
  sql_Query (sess_handle sess) t a d1
    = (d2, inr (Some (mkRows (inr (ColName <$> fields_of md)) xs))) ->
  exists w1 w2 tp,
    Inserter_Exec (HC := HC) i sess c (fresh_world q r d m) =
      (w1, Ok (Result None (Result None (DriverResult id n)))) /\ w_db w1 = d1 /\ w_mem w1 = m /\
    Selector_Get s sess c (fresh_world q r d1 m) = (w2, Ok (Some tp, None)) /\ p_fields tp = sfs /\
    row_reads (w_mem w2) md (fields_of md) tp xs /\ row_reads (w_mem w2) md (fields_of md) p xs.
Proof.
  intros HT Hvs Hcs Hup Hdial Hmd Hcr Hsfs Hp Hg Hj Hr Hm Hx HE HQ.
  destruct (stored_values c m p xs Hcr Hm Hx) as (m' & tp & Hst & Htp & Hnew & Hold).
  destruct (Selector_Get_run s sess c q r d1 m r1 md r2 t a Hmd Hj Hg Hr) as (b2 & HG).
  rewrite HQ, Hsfs in HG. cbn [answer] in HG. rewrite Hst in HG. cbn [mbind go_bind fst snd] in HG.
  destruct (Inserter_Build_run i m up (mkBuilder "" [] (Some md) q r1) md (fields_of md) [xs] ("", []))
    as (b1 & HB & _ & _); [done|by left|by rewrite Hvs|by rewrite Hcs| |by rewrite Hup|].
  { rewrite Hvs. constructor; [by apply holds_row_reads|constructor]. }
  assert (Inserter_Exec (HC := HC) i sess c (fresh_world q r d m) =
    exec_result_of (execHandler sess c (mkQueryContext "INSERT" (Inserter_Build (HC := HC) i m) (Some md)))
      (select_world q r1 md d m)) as HI.
  { rewrite (Inserter_Exec_eq i sess c q r d m r1 md) by (by rewrite HT). by rewrite Hmd. }
  erewrite execHandler_run in HI; [|exact HB|].
  2: { cbn [w_db select_world SQL Args insert_query concat app]. rewrite !app_nil_r. exact HE. }
  eexists _, _, tp. split_and!; [exact HI|done|done|exact HG|done| |].
  - by apply holds_row_reads.
  - by apply holds_row_reads.
Qed.
End roundtrip.

(** ** Registered models *)

Lemma field_metas_eq fds fs :
  field_metas fds fs -> GoName <$> fs = sf_Name <$> fds /\ Offset <$> fs = sf_Offset <$> fds.
Proof.
  intros HF. induction HF as [|sf f fds fs Hm HF [IH1 IH2]]; [done|]. cbn. rewrite IH1, IH2.
  unfold field_meta in Hm. by destruct (parseTag (sf_Tag sf)); simplify_eq/=.
Qed.
(** A structure of exported fields with distinct columns can be stored, once it
    is registered. *)
Lemma Register_entity_model name fds tbl r r' md :
  NoDup (sf_Name <$> fds) -> NoDup (sf_Offset <$> fds) -> Forall (fun sf => 0 <= sf_Offset sf)%Z fds ->
  Forall (fun n => is_exported n = true) (sf_Name <$> fds) -> NoDup (ColName <$> fields_of md) ->
  Register (struct_entity name fds tbl) [] r = Ok (r', inr md) -> entity_model md fds.
Proof.
  intros Hn Ho Hl He Hcol Hreg. pose proof (Register_model_of_struct _ _ _ _ _ _ Hn Hreg) as Hms.
  unfold Register in Hreg.
  destruct (parseModel_spec name fds tbl) as [(md0 & fs & HP & Hfs & Hc & Hw & Hf & _)|(err & HP & _)];
    rewrite HP in Hreg; simpl in Hreg; [|done]. injection Hreg as _ <-.
  destruct (field_metas_eq _ _ Hfs) as [HG HO].
  assert (fields_of md0 = fs) as Hfo by (by rewrite fields_of_cells).
  split; [done|done|done|done|done|by rewrite Hfo, HG|by rewrite Hfo, HO|done|].
  rewrite Hfo. rewrite <-HG in He. by rewrite Forall_fmap in He.
Qed.

(** A database of one table of users: the row that was inserted last. *)
#[export] Instance one_row_db : SqlDB (list sqlval) := {
  sql_Query := fun _ _ _ d => (d, inr (Some (mkRows (inr ["id"; "first_name_t"; "last_name"]) d)));
  sql_Exec := fun _ _ args d => (omap (fun x => match x with AVal v => Some v | _ => None end) args, inr (1, 1))%Z;
  sql_BeginTx := fun d => (d, inl ErrTxDone);
  sql_Commit := fun _ d => (d, None);
  sql_Rollback := fun _ d => (d, None);
  sql_Now := fun _ => 0%Z
}.
Definition one_row_core : core (D := list sqlval) := db_core (OpenDB conv_plain []).
Definition user_inserter : Inserter :=
  mkInserter user_entity mysqlDialect [user_ptr] [] None.
Lemma user_entity_model : entity_model user_model user_fields.
Proof.
  refine (Register_entity_model "TestModel" user_fields None [] [(e_type user_entity, user_model)] _ _ _ _ _ _ _).
  - go_decide.
  - go_decide.
  - repeat constructor; done.
  - repeat constructor.
  - go_decide.
  - reflexivity.
Qed.
(** The user that the selector asks for. *)
Definition user_mem12 : mem := <[100%Z := VInt 12]> user_mem.
Lemma insert_get_roundtrip_witness :
  exists w1 w2 tp,
    Inserter_Exec (HC := unsafe_Creator conv_plain) user_inserter (DB_Session (mkDB one_row_core)) one_row_core
      (fresh_world "`"%char [] [] user_mem12) = (w1, Ok (Result None (Result None (DriverResult 1 1)))) /\
    Selector_Get user_selector (DB_Session (mkDB one_row_core)) one_row_core
      (fresh_world "`"%char [] [VInt 12; VStr "Tom"; VNil] user_mem12) = (w2, Ok (Some tp, None)) /\
    row_reads (HC := unsafe_Creator conv_plain) (w_mem w2) user_model (fields_of user_model) tp [VInt 12; VStr "Tom"; VNil].
Proof.
  destruct (insert_get_roundtrip (HC := unsafe_Creator conv_plain) conv_plain user_model user_fields
    user_entity_model user_inserter user_selector mysql_upsert (DB_Session (mkDB one_row_core)) one_row_core
    "`"%char [] [(e_type user_entity, user_model)] [(e_type user_entity, user_model)]
    [] [VInt 12; VStr "Tom"; VNil] [VInt 12; VStr "Tom"; VNil] user_mem12 user_ptr
    [VInt 12; VStr "Tom"; VNil] "SELECT * FROM `test_model` WHERE `id` = ?;" [AVal (VInt 12)] 1%Z 1%Z
    eq_refl eq_refl eq_refl eq_refl mysql_ok eq_refl eq_refl eq_refl eq_refl eq_refl I eq_refl
    ltac:(repeat constructor) ltac:(repeat constructor) eq_refl eq_refl)
    as (w1 & w2 & tp & H1 & _ & _ & H2 & _ & H3 & _).
  exists w1, w2, tp. split; [exact H1|]. split; [exact H2|exact H3].
Defined.
