(* ===== verification/Router.v ===== *)
(** The route tree of the web framework: [web/router.go].

    A node owns its children, so the pointers form a tree.  Registration mutates
    the tree as it goes down; a panic leaves the nodes created so far, so
    [addRoute] returns the new tree together with the panic. *)
From S2P Require Import Prelude.

Section router.
(** [HandleFunc]. *)
Context {H : Type}.

(** [node]; a Go map of children that is nil has no keys, and the switches on it
    treat it so. *)
Inductive node := Node {
  n_route : string;
  n_path : string;
  n_children : list (string * node);
  n_starChild : option node;
  n_paramChild : option node;
  n_handler : option H
}.
Definition new_node (path : string) : node := Node "" path [] None None None.

(** [n.children[seg] = child] *)
Fixpoint put_child (seg : string) (child : node) (l : list (string * node)) : list (string * node) :=
  match l with
  | [] => [(seg, child)]
  | kv :: l' => if decide (kv.1 = seg) then (seg, child) :: l' else kv :: put_child seg child l'
  end.

(** [router]: the trees by method. *)
Definition router : Type := gmap string node.
Definition newRouter : router := ∅.

Definition first_char (s : string) : option char :=
  match s with EmptyString => None | String c _ => Some c end.
Definition slash : char := "/"%char.

(** [childOrCreate]: which child the segment goes to, created when needed; a
    parameter or a wildcard child is always created anew. *)
Inductive slot := SParam | SStar | SStatic.
#[export] Instance slot_eq_dec : EqDecision slot.
Proof. solve_decision. Defined.
Definition slot_of (seg : string) : slot :=
  if decide (first_char seg = Some ":"%char) then SParam
  else if decide (seg = "*") then SStar else SStatic.
Definition childOrCreate (n : node) (seg : string) : node + string :=
  match slot_of seg with
  | SParam =>
      match n_starChild n with
      | Some _ => inr "web：不允许同时注册路径参数和通配符匹配，已有通配符匹配"
      | None => inl (new_node seg)
      end
  | SStar =>
      match n_paramChild n with
      | Some _ => inr "web：不允许同时注册路径参数和通配符匹配，已有路径参数匹配"
      | None => inl (new_node seg)
      end
  | SStatic =>
      match assoc seg (n_children n) with
      | Some res => inl res
      | None => inl (new_node seg)
      end
  end.
(** The node with that child in its place. *)
Definition set_child (n : node) (seg : string) (child : node) : node :=
  match slot_of seg with
  | SParam => Node (n_route n) (n_path n) (n_children n) (n_starChild n) (Some child) (n_handler n)
  | SStar => Node (n_route n) (n_path n) (n_children n) (Some child) (n_paramChild n) (n_handler n)
  | SStatic => Node (n_route n) (n_path n) (put_child seg child (n_children n))
                 (n_starChild n) (n_paramChild n) (n_handler n)
  end.
Definition set_handler (n : node) (h : H) (route : string) : node :=
  Node route (n_path n) (n_children n) (n_starChild n) (n_paramChild n) (Some h).

(** The loop of [addRoute] over the segments, and the registration at its end. *)
Fixpoint insert_segs (segs : list string) (h : H) (route : string) (n : node)
  : node * option string :=
  match segs with
  | [] =>
      match n_handler n with
      | Some _ => (n, Some "web:普通节点重复注册")
      | None => (set_handler n h route, None)
      end
  | seg :: segs' =>
      if decide (seg = "") then (n, Some "web:路径中间不能有连续的/")
      else
        match childOrCreate n seg with
        | inr msg => (n, Some msg)
        | inl child =>
            let '(child', p) := insert_segs segs' h route child in
            (set_child n seg child', p)
        end
  end.

Definition addRoute (r : router) (method path : string) (handleFunc : H)
  : router * option string :=
  match path with
  | EmptyString => (r, Some "web 路径不能为空")
  | String c rest =>
      let root := default (new_node "/") (r !! method) in
      let r' := <[method := root]> r in
      if decide (c <> slash) then (r', Some "web:路径必须以/开头")
      else if decide (path <> "/" /\ last (chars path) = Some slash)
      then (r', Some "web:路径不能以/结尾")
      else if decide (path = "/") then
        match n_handler root with
        | Some _ => (r', Some "web:根节点重复注册")
        | None => (<[method := set_handler root handleFunc "/"]> r, None)
        end
      else
        let '(root', p) := insert_segs (split_on slash rest) handleFunc path root in
        (<[method := root']> r, p)
  end.

(** ** Matching *)

(** [childOf]: static, then parameter, then wildcard; the flag says parameter. *)
Definition childOf (n : node) (path : string) : option (node * bool) :=
  match assoc path (n_children n) with
  | Some child => Some (child, false)
  | None =>
      match n_paramChild n with
      | Some child => Some (child, true)
      | None => (fun child => (child, false)) <$> n_starChild n
      end
  end.

(** [matchInfo] *)
Record matchInfo := mkMatchInfo { mi_n : node; mi_pathParams : gmap string string }.

(** [child.path[1:]] *)
Definition tail_string (s : string) : string :=
  match s with EmptyString => EmptyString | String _ s' => s' end.

Fixpoint find_segs (segs : list string) (n : node) (pathParams : gmap string string)
  : option matchInfo :=
  match segs with
  | [] => Some (mkMatchInfo n pathParams)
  | seg :: segs' =>
      match childOf n seg with
      | None => None
      | Some (child, paramChild) =>
          find_segs segs' child
            (if paramChild : bool then <[tail_string (n_path child) := seg]> pathParams
             else pathParams)
      end
  end.

Definition findRoute (r : router) (method path : string) : option matchInfo :=
  match r !! method with
  | None => None
  | Some root =>
      if decide (path = "/") then Some (mkMatchInfo root ∅)
      else find_segs (split_on slash (trim slash path)) root ∅
  end.

(** [h.addRoute(...)] for a list of registrations, as a program makes them. *)
Record registration := mkReg { rg_method : string; rg_path : string; rg_handler : H }.
Definition addRoutes (rs : list registration) (r : router) : router :=
  foldl (fun r g => (addRoute r (rg_method g) (rg_path g) (rg_handler g)).1) r rs.

(** * Properties *)

(** ** Soundness: a matched route matches *)

(** A route's segment accepts a segment of a request. *)
Definition seg_accepts (pat seg : string) : Prop :=
  match slot_of pat with SParam => True | SStar => True | SStatic => pat = seg end.
(** The segments of a route; the root has none. *)
Definition segs_of (route : string) : list string :=
  if decide (route = "/") then [] else split_on slash (tail_string route).

(** The tree below a node reached by [pre]: labels agree with the paths, and a
    handler is one that was registered for its route, which has these segments. *)
Inductive tree_ok (regs : list (string * H)) : list string -> node -> Prop :=
  tree_ok_intro pre n :
    (forall h, n_handler n = Some h ->
       (n_route n, h) ∈ regs /\ segs_of (n_route n) = pre) ->
    (forall k c, assoc k (n_children n) = Some c ->
       slot_of k = SStatic /\ n_path c = k /\ tree_ok regs (pre ++ [k]) c) ->
    (forall c, n_paramChild n = Some c ->
       slot_of (n_path c) = SParam /\ tree_ok regs (pre ++ [n_path c]) c) ->
    (forall c, n_starChild n = Some c ->
       slot_of (n_path c) = SStar /\ tree_ok regs (pre ++ [n_path c]) c) ->
    tree_ok regs pre n.

Lemma assoc_put_child seg child l k :
  assoc k (put_child seg child l) = if decide (seg = k) then Some child else assoc k l.
Proof.
  induction l as [|[k' c] l IH]; cbn [put_child].
  - cbn. done.
  - cbn [fst]. destruct (decide (k' = seg)) as [->|E1].
    + cbn. by destruct (decide (seg = k)).
    + cbn. destruct (decide (k' = k)) as [->|E2]; [|exact IH].
      by rewrite decide_False by congruence.
Qed.

Lemma new_node_ok regs pre path : tree_ok regs pre (new_node path).
Proof. by constructor. Qed.
Lemma tree_ok_mono regs regs' pre n :
  (forall x, x ∈ regs -> x ∈ regs') -> tree_ok regs pre n -> tree_ok regs' pre n.
Proof.
  intros Hs. revert pre n. fix IH 3. intros pre n [pre' n' H1 H2 H3 H4]. constructor.
  - intros h Hh. destruct (H1 h Hh). auto.
  - intros k c Hk. destruct (H2 k c Hk) as (? & ? & ?). split_and!; [done|done|by apply IH].
  - intros c Hc. destruct (H3 c Hc) as [? ?]. split; [done|by apply IH].
  - intros c Hc. destruct (H4 c Hc) as [? ?]. split; [done|by apply IH].
Qed.

Lemma childOrCreate_ok regs pre n seg child :
  tree_ok regs pre n -> childOrCreate n seg = inl child ->
  n_path child = seg /\ tree_ok regs (pre ++ [seg]) child.
Proof.
  intros [? ? H1 H2 H3 H4]. unfold childOrCreate. destruct (slot_of seg) eqn:Es.
  - destruct (n_starChild n0); [done|]. intros [= <-]. split; [done|apply new_node_ok].
  - destruct (n_paramChild n0); [done|]. intros [= <-]. split; [done|apply new_node_ok].
  - destruct (assoc seg (n_children n0)) as [c|] eqn:Ec; intros [= <-].
    + by apply H2.
    + split; [done|apply new_node_ok].
Qed.

Lemma set_child_ok regs pre n seg child :
  tree_ok regs pre n -> n_path child = seg -> tree_ok regs (pre ++ [seg]) child ->
  tree_ok regs pre (set_child n seg child).
Proof.
  intros [? ? H1 H2 H3 H4] Hp Hc. unfold set_child.
  destruct (slot_of seg) eqn:Es; constructor; simpl; try assumption.
  - intros c [= <-]. by rewrite Hp.
  - intros c [= <-]. by rewrite Hp.
  - intros k c. rewrite assoc_put_child. case_decide as E.
    + subst k. intros [= <-]. done.
    + apply H2.
Qed.

Lemma insert_segs_path segs h route n : n_path (insert_segs segs h route n).1 = n_path n.
Proof.
  destruct segs as [|seg segs]; cbn [insert_segs].
  - by destruct (n_handler n).
  - case_decide; [done|]. destruct (childOrCreate n seg) as [c|]; [|done].
    destruct (insert_segs segs h route c). unfold set_child. by destruct (slot_of seg).
Qed.

Lemma insert_segs_ok regs h route segs : forall pre n,
  (route, h) ∈ regs -> segs_of route = pre ++ segs -> tree_ok regs pre n ->
  tree_ok regs pre (insert_segs segs h route n).1.
Proof.
  induction segs as [|seg segs IH]; intros pre n Hin Hr Hok; cbn [insert_segs].
  - rewrite app_nil_r in Hr. destruct (n_handler n) eqn:Eh; [done|].
    destruct Hok as [? ? H1 H2 H3 H4]. constructor; simpl; try assumption.
    intros h' [= <-]. done.
  - case_decide; [done|]. destruct (childOrCreate n seg) as [c|] eqn:Ec; [|done].
    destruct (childOrCreate_ok _ _ _ _ _ Hok Ec) as [Hp Hc].
    pose proof (IH (pre ++ [seg]) c Hin ltac:(by rewrite <-app_assoc) Hc) as HI.
    pose proof (insert_segs_path segs h route c) as HP.
    destruct (insert_segs segs h route c) as [c' p]. cbn in *.
    apply set_child_ok; [done|by rewrite HP|done].
Qed.

(** What was registered for a method. *)
Definition regs_for (m : string) (rs : list registration) : list (string * H) :=
  omap (fun g => if decide (rg_method g = m) then Some (rg_path g, rg_handler g) else None) rs.
Definition router_ok (rs : list registration) (r : router) : Prop :=
  forall m root, r !! m = Some root -> tree_ok (regs_for m rs) [] root.

Lemma regs_for_snoc m rs g x : x ∈ regs_for m rs -> x ∈ regs_for m (rs ++ [g]).
Proof. unfold regs_for. rewrite omap_app. intros ?. apply elem_of_app. by left. Qed.
Lemma regs_for_last m rs g :
  rg_method g = m -> (rg_path g, rg_handler g) ∈ regs_for m (rs ++ [g]).
Proof.
  intros <-. unfold regs_for. rewrite omap_app. apply elem_of_app. right. cbn.
  rewrite decide_True by done. constructor.
Qed.

Lemma router_ok_insert rs r g root :
  router_ok rs r -> tree_ok (regs_for (rg_method g) (rs ++ [g])) [] root ->
  router_ok (rs ++ [g]) (<[rg_method g := root]> r).
Proof.
  unfold router_ok, router in *. intros Hr Hok m root'. destruct (decide (rg_method g = m)) as [<-|Hne].
  - rewrite lookup_insert_eq. by intros [= <-].
  - rewrite lookup_insert_ne by done. intros Hl.
    eapply tree_ok_mono; [|by apply Hr]. intros x. apply regs_for_snoc.
Qed.

Lemma addRoute_ok rs r g :
  router_ok rs r -> router_ok (rs ++ [g]) (addRoute r (rg_method g) (rg_path g) (rg_handler g)).1.
Proof.
  intros Hr.
  assert (tree_ok (regs_for (rg_method g) (rs ++ [g])) [] (default (new_node "/") (r !! rg_method g)))
    as Hroot.
  { destruct (r !! rg_method g) as [root|] eqn:E; cbn; [|apply new_node_ok].
    eapply tree_ok_mono; [|by apply Hr]. intros x. apply regs_for_snoc. }
  unfold addRoute. destruct (rg_path g) as [|c rest] eqn:Ep.
  { intros m root Hl. eapply tree_ok_mono; [|by apply Hr]. intros x. apply regs_for_snoc. }
  rewrite <-Ep. case_decide as Hc; [by apply router_ok_insert|].
  case_decide; [by apply router_ok_insert|]. case_decide as Hslash.
  - destruct (n_handler (default _ _)) eqn:Eh; [by apply router_ok_insert|].
    apply router_ok_insert; [done|]. inversion Hroot as [? ? H1 H2 H3 H4]; subst.
    constructor; simpl; try assumption.
    intros h' [= <-]. split; [|done]. rewrite <-Hslash. by apply regs_for_last.
  - pose proof (insert_segs_ok (regs_for (rg_method g) (rs ++ [g])) (rg_handler g) (rg_path g)
      (split_on slash rest) [] _ (regs_for_last _ _ _ eq_refl)
      ltac:(unfold segs_of; rewrite decide_False by done; by rewrite Ep) Hroot) as HI.
    destruct (insert_segs _ _ _ _) as [root' p]. by apply router_ok_insert.
Qed.

Lemma newRouter_ok : router_ok [] newRouter.
Proof. unfold router_ok, newRouter, router. intros m root Hl. by rewrite lookup_empty in Hl. Qed.
Lemma addRoutes_ok rs : forall rs0 r, router_ok rs0 r -> router_ok (rs0 ++ rs) (addRoutes rs r).
Proof.
  induction rs as [|g rs IH]; intros rs0 r Hr; cbn.
  - by rewrite app_nil_r.
  - rewrite (app_cons_snoc rs0 g rs). apply IH, addRoute_ok, Hr.
Qed.

(** ** What a match returns *)

(** Going down a tree of registered routes along accepted segments. *)
Lemma find_segs_ok regs segs : forall pre n ps mi,
  tree_ok regs pre n -> find_segs segs n ps = Some mi ->
  exists pats, Forall2 seg_accepts pats segs /\ tree_ok regs (pre ++ pats) (mi_n mi) /\
    mi_pathParams mi =
      foldl (fun ps kv => <[tail_string kv.1 := kv.2]> ps) ps
        (filter (fun kv => slot_of kv.1 = SParam) (zip pats segs)).
Proof.
  induction segs as [|seg segs IH]; intros pre n ps mi Hok; cbn [find_segs].
  - intros [= <-]. exists []. rewrite app_nil_r. by split_and!; [constructor|done|].
  - unfold childOf. inversion Hok as [? ? H1 H2 H3 H4]; subst.
    assert (forall (c : node) (b : bool) pat,
      seg_accepts pat seg -> tree_ok regs (pre ++ [pat]) c ->
      (if b then slot_of pat = SParam /\ n_path c = pat else slot_of pat <> SParam) ->
      find_segs segs c (if b then <[tail_string (n_path c) := seg]> ps else ps) = Some mi ->
      exists pats, Forall2 seg_accepts pats (seg :: segs) /\ tree_ok regs (pre ++ pats) (mi_n mi) /\
        mi_pathParams mi =
          foldl (fun ps kv => <[tail_string kv.1 := kv.2]> ps) ps
            (filter (fun kv => slot_of kv.1 = SParam) (zip pats (seg :: segs)))) as K.
    { intros c b pat Ha Hc Hb Hf. destruct (IH _ _ _ _ Hc Hf) as (pats & HF & HT & HP).
      exists (pat :: pats). split_and!; [by constructor|by rewrite (app_cons_snoc pre)|].
      rewrite HP. cbn [zip_with]. destruct b.
      - destruct Hb as [Hb <-]. rewrite filter_cons_True by done. done.
      - rewrite filter_cons_False by done. done. }
    destruct (assoc seg (n_children n)) as [c|] eqn:Ec.
    + destruct (H2 _ _ Ec) as (Hs & Hp & Hc). apply (K c false seg); [|done|congruence].
      unfold seg_accepts. by rewrite Hs.
    + destruct (n_paramChild n) as [c|] eqn:Epc.
      * destruct (H3 _ eq_refl) as (Hs & Hc). apply (K c true (n_path c)); [|done|done].
        unfold seg_accepts. by rewrite Hs.
      * destruct (n_starChild n) as [c|] eqn:Esc; [|done]. cbn [fmap option_fmap option_map].
        destruct (H4 _ eq_refl) as (Hs & Hc). apply (K c false (n_path c)); [|done|congruence].
        unfold seg_accepts. by rewrite Hs.
Qed.

(** The segments of a request, as [findRoute] splits them. *)
Definition request_segs (path : string) : list string :=
  if decide (path = "/") then [] else split_on slash (trim slash path).

(** C3. Soundness of matching: after any registrations whatever, those that
    panicked half-way included, a node that [findRoute] returns with a handler
    has a route and a handler that were registered together for that method, the
    route's segments match the segments of the request one by one (a static
    segment is equal, a parameter and a wildcard take any one segment), and the
    path parameters are the bindings of the route's parameter segments, the
    last of two equal names winning. *)
Theorem findRoute_sound rs method path mi h :
  findRoute (addRoutes rs newRouter) method path = Some mi ->
  n_handler (mi_n mi) = Some h ->
  (exists g, g ∈ rs /\ rg_method g = method /\ rg_path g = n_route (mi_n mi) /\ rg_handler g = h) /\
  Forall2 seg_accepts (segs_of (n_route (mi_n mi))) (request_segs path) /\
  mi_pathParams mi =
    foldl (fun ps kv => <[tail_string kv.1 := kv.2]> ps) ∅
      (filter (fun kv => slot_of kv.1 = SParam)
        (zip (segs_of (n_route (mi_n mi))) (request_segs path))).
Proof.
  pose proof (addRoutes_ok rs [] newRouter newRouter_ok) as Hok.
  unfold findRoute, request_segs. destruct (addRoutes rs newRouter !! method) as [root|] eqn:Er; [|done].
  assert (forall pats, tree_ok (regs_for method rs) pats (mi_n mi) -> n_handler (mi_n mi) = Some h ->
    (exists g, g ∈ rs /\ rg_method g = method /\ rg_path g = n_route (mi_n mi) /\ rg_handler g = h) /\
    segs_of (n_route (mi_n mi)) = pats) as K.
  { intros pats Ht Hh. inversion Ht as [? ? H1 _ _ _]; subst. destruct (H1 _ Hh) as [Hin Hs].
    split; [|done]. unfold regs_for in Hin. apply list_elem_of_omap in Hin as (g & Hg & Hd).
    case_decide; [|done]. injection Hd as E1 E2. by exists g. }
  specialize (Hok _ _ Er). case_decide as Hp.
  - intros [= <-] Hh. destruct (K [] Hok Hh) as [Hg Hs]. cbn [mi_n mi_pathParams] in *.
    rewrite Hs. split_and!; [done|constructor|done].
  - intros Hf Hh. destruct (find_segs_ok _ _ _ _ _ _ Hok Hf) as (pats & HF & HT & HP).
    destruct (K pats HT Hh) as [Hg Hs]. by rewrite Hs.
Qed.

(** ** Completeness on static routes *)

Fixpoint static_at (segs : list string) (n : node) : option node :=
  match segs with
  | [] => Some n
  | seg :: segs' => c ← assoc seg (n_children n); static_at segs' c
  end.

Lemma find_segs_static segs : forall n m ps,
  static_at segs n = Some m -> find_segs segs n ps = Some (mkMatchInfo m ps).
Proof.
  induction segs as [|seg segs IH]; intros n m ps; cbn [static_at find_segs].
  - by intros [= ->].
  - unfold childOf. destruct (assoc seg (n_children n)) as [c|]; [|done]. apply IH.
Qed.
Lemma find_segs_app a b : forall n ps,
  find_segs (a ++ b) n ps =
  (mi ← find_segs a n ps; find_segs b (mi_n mi) (mi_pathParams mi)).
Proof.
  induction a as [|seg a IH]; intros n ps; [done|]. cbn [app find_segs].
  destruct (childOf n seg) as [[c p]|]; [apply IH|done].
Qed.

(** A handler and its route, where a node has one. *)
Definition serves (n : node) (h : H) (route : string) : Prop :=
  n_handler n = Some h /\ n_route n = route.

Lemma set_child_serves n seg c h route : serves n h route -> serves (set_child n seg c) h route.
Proof. unfold set_child, serves. by destruct (slot_of seg). Qed.
Lemma set_child_children n seg c :
  n_children (set_child n seg c) =
  match slot_of seg with SStatic => put_child seg c (n_children n) | _ => n_children n end.
Proof. unfold set_child. by destruct (slot_of seg). Qed.

Lemma insert_segs_keeps h' route' segs' : forall segs n m h route,
  static_at segs n = Some m -> serves m h route ->
  exists m', static_at segs (insert_segs segs' h' route' n).1 = Some m' /\ serves m' h route.
Proof.
  induction segs' as [|seg' segs' IH]; intros segs n m h route Hs Hm; cbn [insert_segs].
  - destruct (n_handler n) eqn:Eh; cbn [fst]; [eauto|].
    destruct segs as [|seg segs]; cbn [static_at] in *.
    + injection Hs as ->. destruct Hm. congruence.
    + eauto.
  - case_decide; cbn [fst]; [eauto|]. destruct (childOrCreate n seg') as [c|] eqn:Ec; cbn [fst]; [|eauto].
    destruct (insert_segs segs' h' route' c) as [c' p] eqn:EI. cbn [fst].
    destruct segs as [|seg segs]; cbn [static_at] in *.
    + injection Hs as ->. eauto using set_child_serves.
    + rewrite set_child_children. destruct (slot_of seg') eqn:Es; [by eauto..|].
      rewrite assoc_put_child. case_decide as Eq; [|by eauto]. subst seg'.
      unfold childOrCreate in Ec. rewrite Es in Ec.
      destruct (assoc seg (n_children n)) as [c0|] eqn:Ea; [|done]. injection Ec as ->.
      cbn [mbind option_bind] in *. destruct (IH segs c m h route Hs Hm) as (m' & Hm' & Hs').
      rewrite EI in Hm'. eauto.
Qed.

Lemma insert_segs_serves h route segs : forall n n',
  Forall (fun seg => slot_of seg = SStatic) segs ->
  insert_segs segs h route n = (n', None) ->
  exists m, static_at segs n' = Some m /\ serves m h route.
Proof.
  induction segs as [|seg segs IH]; intros n n' Hst; cbn [insert_segs static_at].
  - destruct (n_handler n); [done|]. intros [= <-]. eexists. by split.
  - inversion_clear Hst as [|? ? Hs Hst']. case_decide; [done|].
    destruct (childOrCreate n seg) as [c|]; [|done].
    destruct (insert_segs segs h route c) as [c' p] eqn:EI. intros [= <- ->].
    rewrite set_child_children, Hs, assoc_put_child, decide_True by done.
    exact (IH _ _ Hst' EI).
Qed.

(** The root of a method serves a route along its static segments. *)
Definition routed (r : router) (m : string) (segs : list string) (h : H) (route : string) : Prop :=
  exists root n, r !! m = Some root /\ static_at segs root = Some n /\ serves n h route.

Lemma routed_insert_same (r : router) m segs h route root n :
  static_at segs root = Some n -> serves n h route -> routed (<[m := root]> r) m segs h route.
Proof. intros. exists root, n. unfold router in *. by rewrite lookup_insert_eq. Qed.

Lemma addRoute_keeps r m' p' h' m segs h route :
  routed r m segs h route -> routed (addRoute r m' p' h').1 m segs h route.
Proof.
  intros HR. pose proof HR as (root & n & Hr & Hs & Hn).
  assert (forall root', (m' = m -> exists n', static_at segs root' = Some n' /\ serves n' h route) ->
    routed (<[m' := root']> r) m segs h route) as K.
  { intros root' HK. destruct (decide (m' = m)) as [->|Hne].
    - destruct (HK eq_refl) as (n' & ? & ?). by eapply routed_insert_same.
    - exists root, n. unfold router in *. by rewrite lookup_insert_ne. }
  assert (m' = m -> default (new_node "/") (r !! m') = root) as Hd by (intros ->; by rewrite Hr).
  unfold addRoute. destruct p' as [|c rest]; [done|].
  case_decide; [apply K; intros E; rewrite (Hd E); eauto|].
  case_decide; [apply K; intros E; rewrite (Hd E); eauto|].
  case_decide.
  - destruct (n_handler (default _ _)) eqn:Eh; cbn [fst]; apply K; intros E; rewrite (Hd E) in *; [eauto|].
    destruct segs as [|seg segs]; cbn [static_at] in *; [|by eauto].
    injection Hs as ->. destruct Hn. congruence.
  - destruct (insert_segs _ _ _ _) as [root' p] eqn:EI. cbn [fst]. apply K. intros E.
    rewrite (Hd E) in EI.
    destruct (insert_segs_keeps h' (String c rest) (split_on slash rest) segs root n h route Hs Hn)
      as (n' & Hn' & Hs'). rewrite EI in Hn'. eauto.
Qed.
Lemma addRoutes_keeps rs : forall r m segs h route,
  routed r m segs h route -> routed (addRoutes rs r) m segs h route.
Proof.
  induction rs as [|g rs IH]; intros r m segs h route HR; [done|].
  cbn. apply IH. by apply addRoute_keeps.
Qed.

Lemma addRoutes_app rs1 g rs2 r :
  addRoutes (rs1 ++ g :: rs2) r =
  addRoutes rs2 (addRoute (addRoutes rs1 r) (rg_method g) (rg_path g) (rg_handler g)).1.
Proof. unfold addRoutes. by rewrite foldl_app. Qed.

Definition static_route (p : string) : Prop := Forall (fun seg => slot_of seg = SStatic) (segs_of p).

Lemma addRoute_routed r m p h :
  static_route p -> (addRoute r m p h).2 = None -> routed (addRoute r m p h).1 m (segs_of p) h p.
Proof.
  unfold static_route, addRoute, segs_of. intros Hst. destruct p as [|c rest]; [done|].
  destruct (decide (c <> slash)); [done|].
  destruct (decide (String c rest <> "/" /\ last (chars (String c rest)) = Some slash)); [done|].
  destruct (decide (String c rest = "/")) as [Hp|Hp].
  - rewrite Hp. destruct (n_handler _); [done|]. intros _.
    eapply routed_insert_same; [done|by split].
  - destruct (insert_segs _ _ _ _) as [root' p] eqn:EI. cbn [snd fst]. intros ->.
    destruct (insert_segs_serves _ _ _ _ _ Hst EI) as (nd & Hn & Hs).
    by eapply routed_insert_same.
Qed.

(** Completeness for static routes: once a static route has been registered
    without a panic, every request whose segments are those of the route (extra
    slashes at both ends included) is matched to its handler, with its route and
    no path parameters, whatever was registered before or is registered later:
    neither parameters, nor wildcards, nor panics half-way can shadow it. *)
Theorem findRoute_static rs1 rs2 m p h q :
  static_route p -> (addRoute (addRoutes rs1 newRouter) m p h).2 = None ->
  request_segs q = segs_of p ->
  exists mi, findRoute (addRoutes (rs1 ++ mkReg m p h :: rs2) newRouter) m q = Some mi /\
    n_handler (mi_n mi) = Some h /\ n_route (mi_n mi) = p /\ mi_pathParams mi = ∅.
Proof.
  intros Hst Hok Hq. rewrite addRoutes_app. cbn [rg_method rg_path rg_handler].
  pose proof (addRoutes_keeps rs2 _ _ _ _ _ (addRoute_routed _ _ _ _ Hst Hok))
    as (root & n & Hr & Hs & Hn).
  unfold findRoute. rewrite Hr. rewrite <-Hq in Hs.
  unfold request_segs in Hs. case_decide as E.
  - injection Hs as ->. exists (mkMatchInfo n ∅). destruct Hn. by split_and!.
  - rewrite (find_segs_static _ _ _ _ Hs). eexists. destruct Hn. by split_and!.
Qed.

(** ** Parameters overwrite each other *)

Lemma insert_segs_static_app pre rest h route : forall n n',
  Forall (fun seg => slot_of seg = SStatic) pre ->
  insert_segs (pre ++ rest) h route n = (n', None) ->
  exists m m', static_at pre n' = Some m' /\ insert_segs rest h route m = (m', None).
Proof.
  induction pre as [|seg pre IH]; intros n n' Hst; cbn [app insert_segs static_at].
  - eauto.
  - inversion_clear Hst as [|? ? Hs Hst']. case_decide; [done|].
    destruct (childOrCreate n seg) as [c|]; [|done].
    destruct (insert_segs (pre ++ rest) h route c) as [c' p] eqn:EI. intros [= <- ->].
    rewrite set_child_children, Hs, assoc_put_child, decide_True by done.
    exact (IH _ _ Hst' EI).
Qed.

Lemma insert_segs_fresh_param y s rest h route n n' :
  slot_of y = SParam -> insert_segs (y :: s :: rest) h route n = (n', None) ->
  exists c, n_paramChild n' = Some c /\ n_handler c = None.
Proof.
  intros Hy. cbn [insert_segs]. destruct (decide (y = "")); [done|].
  unfold childOrCreate at 1. rewrite Hy. destruct (n_starChild n); [done|].
  destruct (decide (s = "")); [done|]. destruct (childOrCreate (new_node y) s) as [c2|]; [|done].
  destruct (insert_segs rest h route c2) as [c3 p3]. intros [= <- ->].
  unfold set_child at 1. rewrite Hy. cbn [n_paramChild]. eexists. split; [done|].
  unfold set_child. by destruct (slot_of s).
Qed.

(** Registering a route through a parameter discards every route that went
    through a parameter at the same place: after a successful registration of
    [pre/:y/s...] below static segments [pre], a request for [pre/v], which a
    route [pre/:x] would serve, finds a node without a handler (unless [v] is
    itself a static child there), even if [pre/:x] was registered before. *)
Lemma param_overwrites r m p h r' pre y s rest root v q :
  addRoute r m p h = (r', None) -> p <> "/" -> segs_of p = pre ++ y :: s :: rest ->
  Forall (fun seg => slot_of seg = SStatic) pre -> slot_of y = SParam ->
  r' !! m = Some root -> static_at (pre ++ [v]) root = None ->
  q <> "/" -> request_segs q = pre ++ [v] ->
  exists mi, findRoute r' m q = Some mi /\ n_handler (mi_n mi) = None.
Proof.
  intros Ha Hp Hsegs Hst Hy Hr Hv Hq Hqs.
  unfold findRoute. rewrite Hr. unfold request_segs in Hqs. rewrite decide_False in Hqs by done.
  rewrite decide_False, Hqs by done. unfold segs_of in Hsegs. rewrite decide_False in Hsegs by done.
  unfold addRoute in Ha. destruct p as [|c p]; [done|].
  case_decide; [done|]. case_decide; [done|]. rewrite decide_False in Ha by done.
  cbn [tail_string] in Hsegs. rewrite Hsegs in Ha.
  destruct (insert_segs _ _ _ _) as [root' x] eqn:EI. injection Ha as <- ->.
  unfold router in *. rewrite lookup_insert_eq in Hr. injection Hr as ->.
  destruct (insert_segs_static_app _ _ _ _ _ _ Hst EI) as (n & n' & Hn' & EI').
  rewrite find_segs_app, (find_segs_static _ _ _ _ Hn'). cbn [mbind option_bind mi_n mi_pathParams].
  assert (assoc v (n_children n') = None) as Hv'.
  { clear - Hv Hn'. revert root Hv Hn'. induction pre as [|a pre IH]; intros root; cbn.
    - intros Hv [= ->]. by destruct (assoc v (n_children n')).
    - destruct (assoc a (n_children root)) as [c|]; [|done]. apply IH. }
  destruct (insert_segs_fresh_param _ _ _ _ _ _ _ Hy EI') as (c2 & Hc2 & Hh).
  cbn [find_segs]. unfold childOf. rewrite Hv', Hc2. by eexists.
Qed.
End router.

Definition sample_routes : list (registration (H := nat)) :=
  [mkReg "GET" "/" 0; mkReg "GET" "/user/home" 1; mkReg "GET" "/user/:id" 2;
   mkReg "GET" "/user/*" 3; mkReg "GET" "/user//x" 4; mkReg "POST" "/user/:id/posts/:pid" 5].

Lemma findRoute_sound_witness :
  exists mi, findRoute (addRoutes sample_routes newRouter) "POST" "/user/7/posts/9/" = Some mi /\
    mi_pathParams mi = {[ "id" := "7"; "pid" := "9" ]} /\
    Forall2 seg_accepts ["user"; ":id"; "posts"; ":pid"] ["user"; "7"; "posts"; "9"].
Proof.
  eexists. split; [reflexivity|].
  pose proof (findRoute_sound sample_routes "POST" "/user/7/posts/9/" _ 5 eq_refl eq_refl)
    as (_ & HF & HP).
  split; [exact HP|exact HF].
Defined.

Lemma findRoute_static_witness :
  exists mi, findRoute (addRoutes sample_routes newRouter) "GET" "//user/home/" = Some mi /\
    n_handler (mi_n mi) = Some 1 /\ n_route (mi_n mi) = "/user/home" /\ mi_pathParams mi = ∅.
Proof.
  apply (findRoute_static [mkReg "GET" "/" 0]
    [mkReg "GET" "/user/:id" 2; mkReg "GET" "/user/*" 3; mkReg "GET" "/user//x" 4;
     mkReg "POST" "/user/:id/posts/:pid" 5]).
  - repeat constructor.
  - reflexivity.
  - reflexivity.
Defined.

Lemma param_overwrites_witness :
  exists mi, findRoute (addRoutes (H := nat)
    [mkReg "GET" "/user/:id" 1; mkReg "GET" "/user/:id/posts" 2] newRouter) "GET" "/user/7" = Some mi /\
    n_handler (mi_n mi) = None.
Proof.
  eapply (param_overwrites (addRoutes [mkReg "GET" "/user/:id" 1] newRouter) "GET" "/user/:id/posts" 2
    _ ["user"] ":id" "posts" [] _ "7").
  - reflexivity.
  - discriminate.
  - reflexivity.
  - repeat constructor.
  - reflexivity.
  - reflexivity.
  - reflexivity.
  - discriminate.
  - reflexivity.
Defined.
