(* ===== verification/RouteTable.v ===== *)
(** The abstract specification of [web/router.go]: a route table.

    The table is the list of the registered routes, in the order of their
    registration, with no tree.  [table_match] says which of them a request
    gets, segment by segment: the static routes first, then the parameter
    route, then the wildcard route.  [findRoute_refines] shows that the route
    tree of Router.v implements it. *)
From S2P Require Import Prelude Router.

Section table.
Context {H : Type}.

(** A route below a node: the segments left, and what was registered at the
    end: the whole route and its handler. *)
Definition entry : Type := list string * (string * H).
Implicit Types (L : list entry) (e : entry).

(** The routes that end at the node: there is at most one. *)
Definition own (L : list entry) : option (string * H) :=
  head (omap (fun e => match e.1 with [] => Some e.2 | _ => None end) L).
(** The routes through the static child [k]. *)
Definition statics (k : string) (L : list entry) : list entry :=
  omap (fun e =>
    match e.1 with
    | seg :: segs => if decide (slot_of seg = SStatic /\ seg = k) then Some (segs, e.2) else None
    | [] => None
    end) L.
(** The last route registered through a parameter (a wildcard): the node it
    made replaced the node of the routes before it. *)
Definition last_slot (s : slot) (L : list entry) : option (string * entry) :=
  last (omap (fun e =>
    match e.1 with
    | seg :: segs => if decide (slot_of seg = s) then Some (seg, (segs, e.2)) else None
    | [] => None
    end) L).

(** What a request gets: the route, its handler and the path parameters. *)
Fixpoint table_match (segs : list string) (L : list entry) (ps : gmap string string)
  : option (string * H * gmap string string) :=
  match segs with
  | [] => (fun x => (x, ps)) <$> own L
  | seg :: segs' =>
      match statics seg L, last_slot SParam L, last_slot SStar L with
      | (_ :: _) as L', _, _ => table_match segs' L' ps
      | [], Some (name, e), _ => table_match segs' [e] (<[tail_string name := seg]> ps)
      | [], None, Some (_, e) => table_match segs' [e] ps
      | [], None, None => None
      end
  end.

(** The table of a method after some registrations. *)
Definition table_of (m : string) (rs : list (registration (H := H))) : list entry :=
  (fun x => (segs_of x.1, x)) <$> regs_for m rs.

(** No registration of the list panics. *)
Fixpoint registers (rs : list (registration (H := H))) (r : router) : Prop :=
  match rs with
  | [] => True
  | g :: rs' =>
      let a := addRoute r (rg_method g) (rg_path g) (rg_handler g) in
      a.2 = None /\ registers rs' a.1
  end.

(** ** The tree represents the table *)

Definition node_own (n : node) : option (string * H) := pair (n_route n) <$> n_handler n.

(** A node represents a table: its own route is the table's, and each child
    represents the routes that go through it. *)
Inductive represents : list entry -> node -> Prop :=
  represents_intro L n :
    own L = node_own n ->
    (forall k c, assoc k (n_children n) = Some c -> statics k L <> [] /\ represents (statics k L) c) ->
    (forall k, assoc k (n_children n) = None -> statics k L = []) ->
    (forall c, n_paramChild n = Some c ->
       exists e, last_slot SParam L = Some (n_path c, e) /\ represents [e] c) ->
    (n_paramChild n = None -> last_slot SParam L = None) ->
    (forall c, n_starChild n = Some c ->
       exists e, last_slot SStar L = Some (n_path c, e) /\ represents [e] c) ->
    (n_starChild n = None -> last_slot SStar L = None) ->
    represents L n.

Lemma new_node_represents path : represents [] (new_node path).
Proof. by constructor. Qed.

(** What one more route adds to each part of a table. *)
Lemma own_snoc L segs x :
  own (L ++ [(segs, x)]) =
  match own L, segs with Some y, _ => Some y | None, [] => Some x | None, _ => None end.
Proof.
  unfold own. rewrite omap_app. destruct (omap _ L); cbn; [|done]. by destruct segs.
Qed.
Lemma statics_snoc k L segs x :
  statics k (L ++ [(segs, x)]) = statics k L ++ statics k [(segs, x)].
Proof. apply omap_app. Qed.
Lemma last_slot_snoc s L segs x :
  last_slot s (L ++ [(segs, x)]) =
  match last_slot s [(segs, x)] with Some y => Some y | None => last_slot s L end.
Proof.
  unfold last_slot. rewrite omap_app. cbn. destruct segs as [|seg segs]; cbn.
  - by rewrite app_nil_r.
  - case_decide; cbn; [by rewrite last_snoc|by rewrite app_nil_r].
Qed.

(** The child a segment goes to stands for the routes it will hold: those of
    the static child, none for a parameter or a wildcard, created anew. *)
Definition kept (seg : string) L : list entry :=
  match slot_of seg with SStatic => statics seg L | _ => [] end.
Lemma childOrCreate_represents L n seg child :
  represents L n -> childOrCreate n seg = inl child ->
  represents (kept seg L) child /\ (slot_of seg <> SStatic -> n_path child = seg).
Proof.
  intros [? ? H1 H2 H3 H4 H5 H6 H7]. unfold childOrCreate, kept. destruct (slot_of seg).
  - destruct (n_starChild n0); [done|]. intros [= <-]. split; [apply new_node_represents|done].
  - destruct (n_paramChild n0); [done|]. intros [= <-]. split; [apply new_node_represents|done].
  - destruct (assoc seg (n_children n0)) as [c|] eqn:Ec; intros [= <-].
    + split; [apply H2, Ec|done].
    + split; [|done]. rewrite (H3 _ Ec). apply new_node_represents.
Qed.

Lemma own_cons_snoc L seg segs x : own (L ++ [(seg :: segs, x)]) = own L.
Proof. rewrite own_snoc. by destruct (own L). Qed.
Lemma statics_cons_snoc k L seg segs x :
  statics k (L ++ [(seg :: segs, x)]) =
  if decide (slot_of seg = SStatic /\ seg = k) then statics k L ++ [(segs, x)] else statics k L.
Proof. rewrite statics_snoc. cbn. case_decide; [done|apply app_nil_r]. Qed.
Lemma last_slot_cons_snoc s L seg segs x :
  last_slot s (L ++ [(seg :: segs, x)]) =
  if decide (slot_of seg = s) then Some (seg, (segs, x)) else last_slot s L.
Proof. rewrite last_slot_snoc. unfold last_slot at 1. cbn. by case_decide. Qed.

(** Putting the child back adds the route to the node's table. *)
Lemma set_child_represents L n seg segs x child :
  represents L n -> (slot_of seg <> SStatic -> n_path child = seg) ->
  represents (kept seg L ++ [(segs, x)]) child ->
  represents (L ++ [(seg :: segs, x)]) (set_child n seg child).
Proof.
  intros [L' m H1 H2 H3 H4 H5 H6 H7] Hp Hc. unfold set_child, kept in *.
  assert (forall k, slot_of seg <> SStatic -> statics k (L' ++ [(seg :: segs, x)]) = statics k L') as Hst.
  { intros k Hs. rewrite statics_cons_snoc. apply decide_False. by intros [??]. }
  assert (forall s, slot_of seg <> s -> last_slot s (L' ++ [(seg :: segs, x)]) = last_slot s L') as Hls.
  { intros s Hs. rewrite last_slot_cons_snoc. by apply decide_False. }
  assert (last_slot (slot_of seg) (L' ++ [(seg :: segs, x)]) = Some (seg, (segs, x))) as Hl.
  { rewrite last_slot_cons_snoc. by apply decide_True. }
  destruct (slot_of seg) eqn:Es; constructor; rewrite ?own_cons_snoc; cbn; auto;
    intros *; rewrite ?Hst, ?Hls by discriminate; auto.
  - intros [= <-]. rewrite Hp by done. eauto.
  - done.
  - intros [= <-]. rewrite Hp by done. eauto.
  - done.
  - rewrite assoc_put_child, statics_cons_snoc. case_decide as E; [subst k|].
    + intros [= <-]. rewrite decide_True by done. split; [|done]. by destruct (statics seg L').
    + rewrite decide_False by (intros [??]; done). auto.
  - rewrite assoc_put_child, statics_cons_snoc. case_decide as E; [done|].
    rewrite decide_False by (intros [??]; done). auto.
Qed.

(** Registering a route adds it to the table the tree represents. *)
Lemma insert_segs_represents h route segs : forall L n n',
  represents L n -> insert_segs segs h route n = (n', None) ->
  represents (L ++ [(segs, (route, h))]) n'.
Proof.
  induction segs as [|seg segs IH]; intros L n n' Hr; cbn [insert_segs].
  - destruct (n_handler n) eqn:Eh; [done|]. intros [= <-].
    destruct Hr as [L m H1 H2 H3 H4 H5 H6 H7]. constructor; cbn; intros *;
      rewrite ?statics_snoc, ?last_slot_snoc; cbn; rewrite ?app_nil_r; auto.
    rewrite own_snoc, H1. unfold node_own at 1. by rewrite Eh.
  - case_decide; [done|]. destruct (childOrCreate n seg) as [c|] eqn:Ec; [|done].
    destruct (childOrCreate_represents _ _ _ _ Hr Ec) as [Hc Hp].
    pose proof (insert_segs_path segs h route c) as HP.
    destruct (insert_segs segs h route c) as [c' p] eqn:EI. intros [= <- ->].
    apply set_child_represents; [done| |by apply (IH _ _ _ Hc)].
    intros Hs. cbn in HP. rewrite HP. auto.
Qed.

(** The tree and its table give the same match. *)
Definition result (mi : matchInfo (H := H)) : option (string * H * gmap string string) :=
  (fun x => (x, mi_pathParams mi)) <$> node_own (mi_n mi).

Lemma find_segs_represents segs : forall L n ps,
  represents L n -> find_segs segs n ps ≫= result = table_match segs L ps.
Proof.
  induction segs as [|seg segs IH]; intros L n ps [L' m H1 H2 H3 H4 H5 H6 H7];
    cbn [find_segs table_match mbind option_bind].
  - unfold result. cbn. by rewrite H1.
  - unfold childOf. destruct (assoc seg (n_children m)) as [c|] eqn:Ec.
    { destruct (H2 _ _ Ec) as [Hne Hc]. rewrite (IH _ _ _ Hc). by destruct (statics seg L'). }
    rewrite (H3 _ Ec). destruct (n_paramChild m) as [c|].
    { destruct (H4 _ eq_refl) as ([e x] & -> & Hc). apply IH, Hc. }
    rewrite (H5 eq_refl). destruct (n_starChild m) as [c|]; cbn [fmap option_fmap option_map].
    { destruct (H6 _ eq_refl) as ([e x] & -> & Hc). apply IH, Hc. }
    by rewrite (H7 eq_refl).
Qed.

(** ** The router *)

(** Each method's tree represents the method's table; a method without a tree
    has no route. *)
Definition router_represents (rs : list registration) (r : router) : Prop :=
  forall m, represents (table_of m rs) (default (new_node "/") (r !! m)) /\
    (r !! m = None -> table_of m rs = []).

Lemma table_of_snoc m rs g :
  table_of m (rs ++ [g]) =
  table_of m rs ++
    (if decide (rg_method g = m) then [(segs_of (rg_path g), (rg_path g, rg_handler g))] else []).
Proof.
  unfold table_of, regs_for. rewrite omap_app, fmap_app. f_equal. cbn. by case_decide.
Qed.

Lemma newRouter_represents : router_represents [] newRouter.
Proof.
  intros m. unfold newRouter, router. rewrite lookup_empty. split; [apply new_node_represents|done].
Qed.

Lemma represents_root L n h :
  represents L n -> n_handler n = None ->
  represents (L ++ [([], ("/", h))]) (set_handler n h "/").
Proof.
  intros Hr Hh. apply (insert_segs_represents h "/" [] L n); [done|]. cbn. by rewrite Hh.
Qed.

Lemma addRoute_represents rs r g :
  router_represents rs r -> (addRoute r (rg_method g) (rg_path g) (rg_handler g)).2 = None ->
  router_represents (rs ++ [g]) (addRoute r (rg_method g) (rg_path g) (rg_handler g)).1.
Proof.
  intros Hr.
  assert (forall root', represents
      (table_of (rg_method g) rs ++ [(segs_of (rg_path g), (rg_path g, rg_handler g))]) root' ->
    router_represents (rs ++ [g]) (<[rg_method g := root']> r)) as K.
  { intros root' Hroot m. rewrite table_of_snoc. unfold router in *.
    destruct (decide (rg_method g = m)) as [<-|Hne].
    - by rewrite lookup_insert_eq.
    - rewrite lookup_insert_ne, app_nil_r by done. apply Hr. }
  destruct (Hr (rg_method g)) as [Hroot _]. unfold addRoute.
  destruct (rg_path g) as [|c rest]; [done|].
  case_decide; [done|]. case_decide; [done|]. case_decide as Hs.
  - rewrite Hs in *. destruct (n_handler _) eqn:Eh; [done|]. intros _. apply K, represents_root; done.
  - destruct (insert_segs _ _ _ _) as [root' p] eqn:EI. cbn [fst snd]. intros ->. apply K.
    unfold segs_of. rewrite decide_False by done. exact (insert_segs_represents _ _ _ _ _ _ Hroot EI).
Qed.

Lemma addRoutes_represents rs : forall rs0 r,
  router_represents rs0 r -> registers rs r -> router_represents (rs0 ++ rs) (addRoutes rs r).
Proof.
  induction rs as [|g rs IH]; intros rs0 r Hr; cbn.
  - by rewrite app_nil_r.
  - intros [Hg Hrs]. rewrite (app_cons_snoc rs0 g rs). apply IH; [|done]. by apply addRoute_represents.
Qed.

Lemma table_match_nil segs ps : table_match segs [] ps = None.
Proof. by destruct segs. Qed.

Lemma router_represents_find rs r method path :
  router_represents rs r ->
  findRoute r method path ≫= result = table_match (request_segs path) (table_of method rs) ∅.
Proof.
  intros HR. destruct (HR method) as [Hr Hn]. unfold findRoute.
  destruct (r !! method) as [root|] eqn:E; cbn in Hr.
  - unfold request_segs. case_decide; [by apply (find_segs_represents [] _ root ∅)|].
    by apply find_segs_represents.
  - rewrite (Hn eq_refl). by rewrite table_match_nil.
Qed.

(** C4. The route tree implements the route table: after registrations none of
    which panics, the route, the handler and the path parameters that
    [findRoute] gives a request are those that the table of the request's
    method gives its segments: at each segment the routes with that static
    segment, otherwise the parameter route registered last there, otherwise the
    wildcard route registered last there; nothing when no route is left, or
    when no route ends where the request does.  In particular no route is tried
    again once a more specific one has taken a segment. *)
Theorem findRoute_refines rs method path :
  registers rs newRouter ->
  findRoute (addRoutes rs newRouter) method path ≫= result =
  table_match (request_segs path) (table_of method rs) ∅.
Proof.
  intros Hrs. apply router_represents_find.
  exact (addRoutes_represents rs [] _ newRouter_represents Hrs).
Qed.
End table.

(** A table where precedence decides: the static route of [/user/home] takes the
    segment, and [/user/home/posts] is lost to it; the second parameter route
    has replaced the first. *)
Definition precedence_routes : list (registration (H := nat)) :=
  [mkReg "GET" "/" 0; mkReg "GET" "/user/home" 1; mkReg "GET" "/user/:id" 2;
   mkReg "GET" "/user/:id/posts" 3; mkReg "GET" "/file/*" 4].

Lemma findRoute_refines_witness :
  (findRoute (addRoutes precedence_routes newRouter) "GET" "/user/7/posts" ≫= result =
     Some ("/user/:id/posts", 3, {[ "id" := "7" ]})) /\
  (findRoute (addRoutes precedence_routes newRouter) "GET" "/user/home/posts" ≫= result = None) /\
  (findRoute (addRoutes precedence_routes newRouter) "GET" "/user/7" ≫= result = None).
Proof.
  assert (registers precedence_routes newRouter) as Hrs by (vm_compute; tauto).
  rewrite !(findRoute_refines precedence_routes _ _ Hrs). vm_compute. done.
Defined.
