(* ===== verification/Web.v ===== *)
(** Request handling of the web framework: [web/serve.go], [web/context.go],
    [web/middleware.go] and [web/middlewares].

    A handler takes the context to its final state together with the panic it
    ended in, if any: deferred calls and [recover] then act as in Go. *)
From S2P Require Import Prelude Router Metrics.

(** ** Requests, responses and the context *)

Inductive web_error :=
  | ErrKeyNotExist            (** "web:key不存在" *)
  | ErrNilInput               (** "web:输入为nil" *)
  | ErrNilBody                (** "web:body为nil" *)
  | ErrSyntax                 (** [strconv.ErrSyntax] *)
  | ErrRange                  (** [strconv.ErrRange] *)
  | ErrWeb (msg : string).    (** an error of a library call *)

(** [*http.Request]: the parts the framework reads.  [ParseForm] gives the form
    or fails. *)
Record Request := mkRequest {
  Method : string; URL_Path : string; Host : string;
  URL_Scheme : string;
  URL_Query : gmap string (list string);
  ParseForm : web_error + gmap string (list string);
  Body : option string;
  Cookies : list (string * string)
}.

(** What is done to the [http.ResponseWriter], in order. *)
Inductive resp_event :=
  | WriteHeader (status : Z)
  | Write (data : string)
  | SetHeader (key val : string)
  | SetCookie (name val : string) (maxAge : Z)
  | ServeFile (path : string).      (** the call of [http.ServeFile] *)

(** [accesslog]: the line of a request. *)
Record accesslog_line := mkLine {
  al_Host : string; al_Route : string; al_HTTPMethod : string; al_Path : string }.

(** What the middlewares report to the outside. *)
Inductive web_event :=
  | AccessLog (l : accesslog_line)
  | PanicLog (path : string)
  | Observe (pattern method : string) (status : Z)
  | SpanStart (tracer name : string)
  | SpanAttribute (key val : string)
  | SpanName (route : string)
  | SpanEnd.

Section web.
(** The values of [UserValues], and of the data of [Render], [RespJSON]. *)
Context {U V : Type}.

(** [TemplateEngine] ([web/template.go]): the page, which may be cut short, and
    the error. *)
Definition TemplateEngine : Type := string -> V -> go (string * option web_error).
(** [GoTemplateEngine]: a pointer to a template, whose [ExecuteTemplate] appends to
    a buffer. *)
Definition Template : Type := string -> string -> V -> string * option web_error.
Record GoTemplateEngine := mkGoTemplateEngine { gt_T : option Template }.
Definition GoTemplateEngine_Render (g : GoTemplateEngine) : TemplateEngine := fun tplName data =>
  ExecuteTemplate ← go_of_option PNilDeref (gt_T g);
  let '(bs, err) := ExecuteTemplate "" tplName data in
  Ok (bs, err).

(** [Context]; a nil map is an empty one, except the cache of the query. *)
Record Context := mkContext {
  Req : Request;
  Resp : list resp_event;
  RespData : string;
  RespStatusCode : Z;
  PathParams : gmap string string;
  queryValues : option (gmap string (list string));
  MatchRoute : string;
  tplEngine : option TemplateEngine;
  UserValues : gmap string U;
  Events : list web_event
}.

Definition set_resp (data : string) (status : Z) (c : Context) : Context :=
  mkContext (Req c) (Resp c) data status (PathParams c) (queryValues c) (MatchRoute c)
    (tplEngine c) (UserValues c) (Events c).
Definition write_resp (es : list resp_event) (c : Context) : Context :=
  mkContext (Req c) (Resp c ++ es) (RespData c) (RespStatusCode c) (PathParams c) (queryValues c)
    (MatchRoute c) (tplEngine c) (UserValues c) (Events c).
Definition report (e : web_event) (c : Context) : Context :=
  mkContext (Req c) (Resp c) (RespData c) (RespStatusCode c) (PathParams c) (queryValues c)
    (MatchRoute c) (tplEngine c) (UserValues c) (Events c ++ [e]).
Definition set_match (ps : gmap string string) (route : string) (c : Context) : Context :=
  mkContext (Req c) (Resp c) (RespData c) (RespStatusCode c) ps (queryValues c) route
    (tplEngine c) (UserValues c) (Events c).
Definition set_query (qv : gmap string (list string)) (c : Context) : Context :=
  mkContext (Req c) (Resp c) (RespData c) (RespStatusCode c) (PathParams c) (Some qv) (MatchRoute c)
    (tplEngine c) (UserValues c) (Events c).
Definition set_body (body : string) (c : Context) : Context :=
  let r := Req c in
  mkContext (mkRequest (Method r) (URL_Path r) (Host r) (URL_Scheme r) (URL_Query r) (ParseForm r) (Some body) (Cookies r))
    (Resp c) (RespData c) (RespStatusCode c) (PathParams c) (queryValues c) (MatchRoute c) (tplEngine c)
    (UserValues c) (Events c).
Definition set_user (uv : gmap string U) (c : Context) : Context :=
  mkContext (Req c) (Resp c) (RespData c) (RespStatusCode c) (PathParams c) (queryValues c)
    (MatchRoute c) (tplEngine c) uv (Events c).

(** ** Methods of the context *)

Record StringValue := mkStringValue { sv_value : string; sv_err : option web_error }.

(** [vals[0]] of the values of a key. *)
Definition first_value (vals : gmap string (list string)) (key : string) : go StringValue :=
  match vals !! key with
  | None => Ok (mkStringValue "" (Some ErrKeyNotExist))
  | Some vs => v ← index_at 0 vs; Ok (mkStringValue v None)
  end.

Definition FormValue (c : Context) (key : string) : go StringValue :=
  match ParseForm (Req c) with
  | inl err => Ok (mkStringValue "" (Some err))
  | inr form => first_value form key
  end.
(** The query is parsed at the first call and kept. *)
Definition QueryValue (c : Context) (key : string) : Context * go StringValue :=
  let c := match queryValues c with
           | None => set_query (URL_Query (Req c)) c
           | Some _ => c
           end in
  (c, first_value (default ∅ (queryValues c)) key).
Definition PathValue (c : Context) (key : string) : StringValue :=
  match PathParams c !! key with
  | None => mkStringValue "" (Some ErrKeyNotExist)
  | Some val => mkStringValue val None
  end.

(** [strconv.ParseInt(s, 10, 64)]: a sign, then at least one digit; a value out
    of range is clamped and reported. *)
Definition digit (c : char) : option Z :=
  let n := Z.of_nat (Ascii.nat_of_ascii c) in
  if decide (48 <= n <= 57)%Z then Some (n - 48)%Z else None.
(** The loop of [ParseUint]: it stops at the first digit that is too much, or at
    the first byte that is no digit. *)
Definition max_uint64 : Z := 18446744073709551615.
Fixpoint digits (s : string) (acc : Z) : web_error + Z :=
  match s with
  | EmptyString => inr acc
  | String c s' =>
      match digit c with
      | None => inl ErrSyntax
      | Some d =>
          let acc' := (acc * 10 + d)%Z in
          if decide (max_uint64 < acc')%Z then inl ErrRange else digits s' acc'
      end
  end.
Definition max_int64 : Z := 9223372036854775807.
Definition ParseInt (s : string) : Z * option web_error :=
  let '(neg, body) := match s with
                      | String "-"%char s' => (true, s')
                      | String "+"%char s' => (false, s')
                      | _ => (false, s)
                      end in
  let clamp := (if neg : bool then - max_int64 - 1 else max_int64)%Z in
  match body with
  | EmptyString => (0%Z, Some ErrSyntax)
  | _ =>
      match digits body 0 with
      | inl ErrRange => (clamp, Some ErrRange)
      | inl err => (0%Z, Some err)
      | inr n =>
          if decide (n <= (if neg then max_int64 + 1 else max_int64))%Z
          then ((if neg then - n else n)%Z, None) else (clamp, Some ErrRange)
      end
  end.
Definition AsInt64 (s : StringValue) : Z * option web_error :=
  match sv_err s with Some err => (0%Z, Some err) | None => ParseInt (sv_value s) end.

Definition Render (c : Context) (tplName : string) (data : V) : go (Context * option web_error) :=
  engine ← go_of_option PNilDeref (tplEngine c);
  x ← engine tplName data;
  match x with
  | (_, Some err) => Ok (set_resp (RespData c) 500 c, Some err)
  | (d, None) => Ok (set_resp d 200 c, None)
  end.
Section json.
(** [json.Marshal] and [Decoder.Decode]. *)
Context (Marshal : V -> web_error + string).
(** What the decoder makes of a value, its error, and what it leaves of the body. *)
Context (Decode : string -> V -> V * option web_error * string).
(** [write_err] is what [c.Resp.Write] returns. *)
Definition RespJSON (write_err : option web_error) (c : Context) (status : Z) (val : V)
  : Context * option web_error :=
  match Marshal val with
  | inl err => (c, Some err)
  | inr data => (set_resp data status (write_resp [WriteHeader status; Write data] c), write_err)
  end.
Definition RespJSONOK (write_err : option web_error) (c : Context) (val : V) : Context * option web_error :=
  RespJSON write_err c 200 val.
(** [BindJSON]: [val] is nil, or what it points to. *)
Definition BindJSON (c : Context) (val : option V) : Context * option V * option web_error :=
  match val, Body (Req c) with
  | None, _ => (c, val, Some ErrNilInput)
  | _, None => (c, val, Some ErrNilBody)
  | Some v, Some b => let '(v', err, rest) := Decode b v in (set_body rest c, Some v', err)
  end.
End json.
Definition SetCookie_ (c : Context) (name val : string) (maxAge : Z) : Context :=
  write_resp [SetCookie name val maxAge] c.

(** ** Handlers, middlewares and the server *)

Definition HandleFunc : Type := Context -> Context * option panic.
Definition Middleware : Type := HandleFunc -> HandleFunc.

(** [HTTPServer], less its logger. *)
Record HTTPServer := mkHTTPServer {
  s_router : router (H := HandleFunc);
  s_mdls : list Middleware;
  s_tplEngine : option TemplateEngine
}.
Definition HTTPServerOption : Type := HTTPServer -> HTTPServer.
Definition NewHTTPServer (opts : list HTTPServerOption) : HTTPServer :=
  foldl (fun s opt => opt s) (mkHTTPServer newRouter [] None) opts.
Definition ServerWithTemplateEngine (e : TemplateEngine) : HTTPServerOption :=
  fun s => mkHTTPServer (s_router s) (s_mdls s) (Some e).
Definition ServerWithMiddleware (mdls : list Middleware) : HTTPServerOption :=
  fun s => mkHTTPServer (s_router s) mdls (s_tplEngine s).
(** [Get], [Post] and [Options] register a route. *)
Definition register (method : string) (s : HTTPServer) (path : string) (h : HandleFunc)
  : HTTPServer * option string :=
  let '(r, p) := addRoute (s_router s) method path h in
  (mkHTTPServer r (s_mdls s) (s_tplEngine s), p).
Definition Server_Get : HTTPServer -> string -> HandleFunc -> HTTPServer * option string := register "GET".
Definition Server_Post : HTTPServer -> string -> HandleFunc -> HTTPServer * option string := register "POST".
Definition Server_Options : HTTPServer -> string -> HandleFunc -> HTTPServer * option string :=
  register "OPTIONS".

Definition serve (h : HTTPServer) : HandleFunc := fun ctx =>
  let not_found := (set_resp "NOT FOUND" 404 ctx, None) in
  match findRoute (s_router h) (Method (Req ctx)) (URL_Path (Req ctx)) with
  | None => not_found
  | Some info =>
      match n_handler (mi_n info) with
      | None => not_found
      | Some handler => handler (set_match (mi_pathParams info) (n_route (mi_n info)) ctx)
      end
  end.

(** [flashResp] writes the response data; nothing calls it. *)
Definition flashResp (ctx : Context) : Context :=
  let ctx := if decide (RespStatusCode ctx = 0%Z) then ctx
             else write_resp [WriteHeader (RespStatusCode ctx)] ctx in
  write_resp [Write (RespData ctx)] ctx.

(** The loop that builds the chain, from the last middleware to the first. *)
Definition chain (mdls : list Middleware) (root : HandleFunc) : HandleFunc :=
  fold_right (fun mdl root => mdl root) root mdls.
(** The outermost middleware [m] of [ServeHTTP] only calls the next. *)
Definition outermost : Middleware := fun next ctx => next ctx.
Definition new_context (h : HTTPServer) (request : Request) : Context :=
  mkContext request [] "" 0 ∅ None "" (s_tplEngine h) ∅ [].
Definition ServeHTTP (h : HTTPServer) (request : Request) : Context * option panic :=
  outermost (chain (s_mdls h) (serve h)) (new_context h request).

(** [Start]: listening fails, or every request that arrives is served with a
    context of its own, until [http.Serve] returns its error; it recovers the
    panics of handlers. *)
Definition Start (h : HTTPServer) (listen : web_error + unit) (requests : list Request)
    (serve_err : web_error) : list (Context * option panic) * web_error :=
  match listen with
  | inl err => ([], err)
  | inr _ => (ServeHTTP h <$> requests, serve_err)
  end.

(** ** The middlewares *)

(** [errhdl]: [m.resp] is the table built by [AddCode]. *)
Definition NewMiddlewareBuild : gmap Z string := ∅.
Definition AddCode (status : Z) (data : string) (resp : gmap Z string) : gmap Z string :=
  <[status := data]> resp.
Definition errhdl (resp : gmap Z string) : Middleware := fun next ctx =>
  match next ctx with
  | (ctx, Some p) => (ctx, Some p)
  | (ctx, None) =>
      match resp !! RespStatusCode ctx with
      | Some data => (set_resp data (RespStatusCode ctx) ctx, None)
      | None => (ctx, None)
      end
  end.

(** [recover]; its deferred function is over when [m.Log] is called, which panics
    anew when it is nil. *)
Record RecoverBuilder := mkRecover {
  rec_StatusCode : Z; rec_Data : string; rec_Log : option (Context -> Context) }.
Definition recover_mdl (m : RecoverBuilder) : Middleware := fun next ctx =>
  match next ctx with
  | (ctx, Some _) =>
      let ctx := set_resp (rec_Data m) (rec_StatusCode m) ctx in
      match rec_Log m with
      | Some log => (log ctx, None)
      | None => (ctx, Some PNilDeref)
      end
  | (ctx, None) => (ctx, None)
  end.

(** [accesslog]: the deferred call logs on return and on panic; what [logFunc]
    does with the line is seen as an event. *)
Record AccessLogBuilder := mkAccessLog { al_logFunc : option (accesslog_line -> web_event) }.
Definition LogFunc (fn : accesslog_line -> web_event) (m : AccessLogBuilder) : AccessLogBuilder :=
  mkAccessLog (Some fn).
Definition line_of (ctx : Context) : accesslog_line :=
  mkLine (Host (Req ctx)) (MatchRoute ctx) (Method (Req ctx)) (URL_Path (Req ctx)).
Definition accesslog (m : AccessLogBuilder) : Middleware := fun next ctx =>
  let '(ctx, p) := next ctx in
  match al_logFunc m with
  | Some logFunc => (report (logFunc (line_of ctx)) ctx, p)
  | None => (ctx, Some PNilDeref)
  end.

(** [prometheus]: the deferred call observes on return and on panic. *)
Definition web_prometheus : Middleware := fun next ctx =>
  let '(ctx, p) := next ctx in
  let pattern := if decide (MatchRoute ctx = "") then "unknown" else MatchRoute ctx in
  (report (Observe pattern (Method (Req ctx)) (RespStatusCode ctx)) ctx, p).
Definition web_prometheus_Build {R} {HR : Registerer R} (m : PromBuilder) (reg : R) : go (R * Middleware) :=
  reg ← MustRegister (summary_opts m) ["pattern"; "method"; "status"] reg; Ok (reg, web_prometheus).

(** [opentelemetry]: the span is named after the handler, when it returned; a
    nil tracer is replaced by the one of the package.  The text of the URL is
    what [URL.String] gives.  The statement after the name lacks an argument and
    does not compile. *)
Record OtelBuilder := mkOtel { Tracer : option string }.
Definition instrumentationName : string := "gotest/web/middlewares/opentelementry".
Definition web_opentelemetry (URL_String : Request -> string) (m : OtelBuilder) : Middleware := fun next ctx =>
  let ctx := report (SpanStart (default instrumentationName (Tracer m)) "unknown") ctx in
  let ctx := report (SpanAttribute "http.method" (Method (Req ctx))) ctx in
  let ctx := report (SpanAttribute "http.url" (URL_String (Req ctx))) ctx in
  let ctx := report (SpanAttribute "http.scheme" (URL_Scheme (Req ctx))) ctx in
  let ctx := report (SpanAttribute "http.host" (Host (Req ctx))) ctx in
  let '(ctx, p) := next ctx in
  let ctx := match p with None => report (SpanName (MatchRoute ctx)) ctx | Some _ => ctx end in
  (report SpanEnd ctx, p).

(** ** Properties of the context *)

Lemma digits_nonneg s acc n : (0 <= acc)%Z -> digits s acc = inr n -> (0 <= n)%Z.
Proof.
  revert acc. induction s as [|a s IH]; intros acc Ha; cbn; [by intros [= <-]|].
  unfold digit. case_decide as Hd; [|done]. case_decide; [done|]. apply IH. lia.
Qed.
(** What [AsInt64] returns is an [int64] whatever the text, error or not. *)
Lemma AsInt64_range v : (- max_int64 - 1 <= (AsInt64 v).1 <= max_int64)%Z.
Proof.
  assert (max_int64 = 9223372036854775807%Z) as Hm by done.
  unfold AsInt64. destruct (sv_err v); [cbn; lia|]. unfold ParseInt.
  match goal with |- context [let '(neg, body) := ?x in _] => destruct x as [neg body] end.
  destruct body as [|a s]; [cbn; lia|].
  destruct (digits (String a s) 0) as [[]|n] eqn:Hd; try (cbn [fst]; lia); [destruct neg; cbn [fst]; lia|].
  apply digits_nonneg in Hd; [|done]. case_decide; destruct neg; cbn [fst]; lia.
Qed.
(** A page that the template could not finish is not sent, not even its beginning. *)
Lemma Render_failed g execute tplName data page err c :
  gt_T g = Some execute -> execute "" tplName data = (page, Some err) ->
  tplEngine c = Some (GoTemplateEngine_Render g) ->
  Render c tplName data = Ok (set_resp (RespData c) 500 c, Some err).
Proof. intros Hg He Hc. unfold Render. rewrite Hc. cbn. unfold GoTemplateEngine_Render. rewrite Hg. cbn. by rewrite He. Qed.

(** ** Properties of serving *)

(** What [errhdl] makes of the response of a handler that returned. *)
Definition substituted (resp : gmap Z string) (ctx : Context) : string :=
  default (RespData ctx) (resp !! RespStatusCode ctx).

(** C34. The usual stack of middlewares, an access log around a recovery around
    error pages, on any server and any request.  With both functions set, no
    panic of a handler escapes; exactly one line is logged, after everything
    else, with the route that matched; when the handler panics, the response is
    the recovery's, as [Log] leaves it, and the error pages are skipped; when it
    returns, the response data is the page registered for its status, and its
    own data for any other status.  An access log whose function was never set,
    which is how its builder starts, ends every request with a panic; and so
    does a recovery without [Log] when the handler panics. *)
Theorem middleware_stack h request pages a r :
  s_mdls h = [accesslog a; recover_mdl r; errhdl pages] ->
  let '(ctx, p) := serve h (new_context h request) in
  let '(ctx', p') := ServeHTTP h request in
  match al_logFunc a with
  | None => p' = Some PNilDeref
  | Some logFunc =>
      exists ctx1, ctx' = report (logFunc (line_of ctx1)) ctx1 /\
      match p with
      | None =>
          p' = None /\ MatchRoute ctx1 = MatchRoute ctx /\ Events ctx1 = Events ctx /\
          RespStatusCode ctx1 = RespStatusCode ctx /\ RespData ctx1 = substituted pages ctx
      | Some _ =>
          let answered := set_resp (rec_Data r) (rec_StatusCode r) ctx in
          match rec_Log r with
          | Some log => p' = None /\ ctx1 = log answered
          | None => p' = Some PNilDeref /\ ctx1 = answered
          end
      end
  end.
Proof.
  intros Hm. destruct (serve h (new_context h request)) as [ctx p] eqn:Es.
  unfold ServeHTTP. rewrite Hm. unfold outermost, chain; cbn [fold_right].
  unfold accesslog, recover_mdl, errhdl, substituted. rewrite Es.
  destruct p as [p|].
  - destruct (rec_Log r), (al_logFunc a); by eauto.
  - destruct (pages !! RespStatusCode ctx), (al_logFunc a); (done || (eexists; by split_and!)).
Qed.
End web.

Definition get_request (path : string) : Request :=
  mkRequest "GET" path "localhost" "http" ∅ (inr ∅) None [].
(** A server with a route that panics and one that answers 404 itself. *)
Definition sample_server (mdls : list (@Middleware unit unit)) : @HTTPServer unit unit :=
  let s := NewHTTPServer [ServerWithMiddleware mdls] in
  let s := (Server_Get s "/boom" (fun ctx => (ctx, Some (PUser "boom")))).1 in
  (Server_Get s "/user/:id" (fun ctx => (set_resp "no such user" 404 ctx, None))).1.

(** A recovery that reports the panic and an access log with its function. *)
Definition sample_recover : RecoverBuilder (U := unit) (V := unit) :=
  mkRecover 500 "oops" (Some (fun ctx => report (PanicLog (URL_Path (Req ctx))) ctx)).
Definition sample_accesslog : AccessLogBuilder := LogFunc AccessLog (mkAccessLog None).

Lemma middleware_stack_witness :
  let s := sample_server [accesslog sample_accesslog; recover_mdl sample_recover;
                          errhdl (AddCode 404 "page" NewMiddlewareBuild)] in
  let '(ctx', p') := ServeHTTP s (get_request "/boom") in
  exists ctx1, ctx' = report (AccessLog (line_of ctx1)) ctx1 /\ p' = None /\
    ctx1 = report (PanicLog "/boom") (set_resp "oops" 500 (serve s (new_context s (get_request "/boom"))).1).
Proof.
  exact (middleware_stack (sample_server [accesslog sample_accesslog; recover_mdl sample_recover;
                          errhdl (AddCode 404 "page" NewMiddlewareBuild)])
    (get_request "/boom") (AddCode 404 "page" NewMiddlewareBuild) sample_accesslog sample_recover eq_refl).
Defined.
