(* ===== verification/WebStack.v ===== *)
(** The web framework put together: a server whose routes were registered by
    [Get], [Post] and [Options], behind a stack of middlewares.

    [ServeHTTP_table] answers a request from the route table of RouteTable.v, with
    neither the tree nor the middlewares that only observe. *)
From S2P Require Import Prelude Router RouteTable Web.

Section stack.
Context {U V : Type}.
Abbreviation Context := (@Web.Context U V).
Abbreviation HandleFunc := (@Web.HandleFunc U V).
Abbreviation Middleware := (@Web.Middleware U V).
Abbreviation HTTPServer := (@Web.HTTPServer U V).

(** ** Setting a server up *)

Inductive route_call :=
  | RGet (path : string) (h : HandleFunc)
  | RPost (path : string) (h : HandleFunc)
  | ROptions (path : string) (h : HandleFunc).
Definition call_route (a : route_call) (s : HTTPServer) : HTTPServer * option string :=
  match a with
  | RGet path h => Server_Get s path h
  | RPost path h => Server_Post s path h
  | ROptions path h => Server_Options s path h
  end.
(** A program that registers its routes one after the other; a panic ends it. *)
Fixpoint set_up (calls : list route_call) (s : HTTPServer) : HTTPServer * option string :=
  match calls with
  | [] => (s, None)
  | a :: calls' =>
      let '(s, p) := call_route a s in
      match p with None => set_up calls' s | Some msg => (s, Some msg) end
  end.
Definition reg_of (a : route_call) : registration (H := HandleFunc) :=
  match a with
  | RGet path h => mkReg "GET" path h
  | RPost path h => mkReg "POST" path h
  | ROptions path h => mkReg "OPTIONS" path h
  end.

Lemma call_route_eq a s :
  call_route a s =
  let x := addRoute (s_router s) (rg_method (reg_of a)) (rg_path (reg_of a)) (rg_handler (reg_of a)) in
  (mkHTTPServer x.1 (s_mdls s) (s_tplEngine s), x.2).
Proof.
  destruct a; cbn [call_route reg_of rg_method rg_path rg_handler];
    unfold Server_Get, Server_Post, Server_Options, register;
    destruct (addRoute _ _ _ _); done.
Qed.
Lemma set_up_routes calls : forall s s',
  set_up calls s = (s', None) ->
  registers (reg_of <$> calls) (s_router s) /\
  s' = mkHTTPServer (addRoutes (reg_of <$> calls) (s_router s)) (s_mdls s) (s_tplEngine s).
Proof.
  induction calls as [|a calls IH]; intros s s'; cbn [set_up fmap list_fmap registers].
  - intros [= <-]. by destruct s.
  - rewrite call_route_eq.
    set (x := addRoute (s_router s) (rg_method (reg_of a)) (rg_path (reg_of a)) (rg_handler (reg_of a))).
    cbn zeta. destruct x.2 eqn:Hx; [done|]. intros Hs. by destruct (IH _ _ Hs) as [HR ->].
Qed.

(** ** Answering from the route table *)

Definition table_handler (calls : list route_call) : HandleFunc := fun ctx =>
  match table_match (H := HandleFunc) (request_segs (URL_Path (Req ctx)))
          (table_of (Method (Req ctx)) (reg_of <$> calls)) ∅ with
  | Some (route, handler, ps) => handler (set_match ps route ctx)
  | None => (set_resp "NOT FOUND" 404 ctx, None)
  end.

Lemma serve_table calls s s' ctx :
  s_router s = newRouter -> set_up calls s = (s', None) -> serve s' ctx = table_handler calls ctx.
Proof.
  intros Hn Hs. destruct (set_up_routes _ _ _ Hs) as [HR ->]. rewrite Hn in *.
  pose proof (router_represents_find _ _ (Method (Req ctx)) (URL_Path (Req ctx))
    (addRoutes_represents _ [] _ newRouter_represents HR)) as HF. cbn [app] in HF.
  unfold serve, table_handler. cbn [s_router]. rewrite <-HF.
  destruct (findRoute _ _ _) as [[n ps]|]; [|done].
  cbn [mbind option_bind mi_n mi_pathParams]. unfold result, node_own. cbn [mi_n mi_pathParams].
  by destruct (n_handler n).
Qed.

(** What holds of every handler of a table holds of the one it gives. *)
Lemma table_match_handler {H} (P : H -> Prop) segs : forall (L : list (entry (H := H))) ps route h ps',
  Forall (fun e => P e.2.2) L -> table_match segs L ps = Some (route, h, ps') -> P h.
Proof.
  assert (forall {A} (f : entry (H := H) -> option A) (Q : A -> Prop) L,
    (forall e a, P e.2.2 -> f e = Some a -> Q a) -> Forall (fun e => P e.2.2) L -> Forall Q (omap f L)) as K.
  { intros A f Q L Hf HL. apply Forall_forall. intros a Ha.
    apply list_elem_of_omap in Ha as (e & He & Hfe).
    rewrite Forall_forall in HL. eauto. }
  assert (forall s L seg e, Forall (fun e : entry (H := H) => P e.2.2) L -> last_slot s L = Some (seg, e) -> P e.2.2) as KL.
  { intros s L seg e HL Hl. unfold last_slot in Hl. apply last_Some_elem_of in Hl.
    refine (proj1 (Forall_forall (fun x : string * entry (H := H) => P x.2.2.2) _) _ _ Hl).
    apply (K _ _ _ L); [|done]. intros [[|sg sgs] x] a Hx; cbn; [done|]. case_decide; [|done]. by intros [= <-]. }
  induction segs as [|seg segs IH]; intros L ps route h ps' HL; cbn [table_match].
  - unfold own. destruct (head _) as [[r' h']|] eqn:Ho; [|done]. intros [= <- <- <-].
    apply head_Some_elem_of in Ho.
    refine (proj1 (Forall_forall (fun x : string * H => P x.2) _) _ _ Ho).
    apply (K _ _ _ L); [|done]. intros [[|sg sgs] x] a Hx; cbn; [|done]. by intros [= <-].
  - assert (Forall (fun e => P e.2.2) (statics seg L)) as HS.
    { apply (K _ _ _ L); [|done]. intros [[|sg sgs] x] a Hx; cbn; [done|]. case_decide; [|done]. by intros [= <-]. }
    destruct (statics seg L); [|by apply IH].
    destruct (last_slot SParam L) as [[name e]|] eqn:Hp; [apply IH|].
    { constructor; [exact (KL _ _ _ _ HL Hp)|constructor]. }
    destruct (last_slot SStar L) as [[name e]|] eqn:Hs; [apply IH|done].
    constructor; [exact (KL _ _ _ _ HL Hs)|constructor].
Qed.

(** ** What a client can tell apart *)

(** The context without what the middlewares reported. *)
Definition quiet (c : Context) : Context :=
  mkContext (Req c) (Resp c) (RespData c) (RespStatusCode c) (PathParams c) (queryValues c)
    (MatchRoute c) (tplEngine c) (UserValues c) [].
Definition alike : relation Context := fun c c' => quiet c = quiet c'.
Definition same_outcome : relation (Context * option panic) :=
  fun x y => alike x.1 y.1 /\ x.2 = y.2.
Definition agree : relation HandleFunc := (alike ==> same_outcome)%signature.

#[export] Instance alike_equiv : Equivalence alike.
Proof. unfold alike. split; repeat intro; congruence. Qed.
#[export] Instance same_outcome_equiv : Equivalence same_outcome.
Proof.
  split.
  - by intros x.
  - intros x y [H1 H2]. by split.
  - intros x y z [H1 H2] [H3 H4]. split; [by transitivity y.1|congruence].
Qed.
#[export] Instance agree_symmetric : Symmetric agree.
Proof. intros h h' Hh c c' Hc. symmetry. apply Hh. by symmetry. Qed.
#[export] Instance agree_transitive : Transitive agree.
Proof. intros h1 h2 h3 H12 H23 c c' Hc. transitivity (h2 c); [by apply H12|by apply H23]. Qed.
Lemma agree_left h h' : agree h h' -> Proper agree h.
Proof. intros Hh. change (agree h h). transitivity h'; [done|by symmetry]. Qed.
#[export] Instance Req_proper : Proper (alike ==> eq) (Req (U := U) (V := V)).
Proof. intros c c' Hc. by injection Hc. Qed.
#[export] Instance RespStatusCode_proper : Proper (alike ==> eq) (RespStatusCode (U := U) (V := V)).
Proof. intros c c' Hc. by injection Hc. Qed.
#[export] Instance set_resp_proper : Proper (eq ==> eq ==> alike ==> alike) (set_resp (U := U) (V := V)).
Proof. intros d _ <- st _ <- c c' Hc. unfold alike, quiet in *. cbn. congruence. Qed.
#[export] Instance set_match_proper : Proper (eq ==> eq ==> alike ==> alike) (set_match (U := U) (V := V)).
Proof. intros d _ <- st _ <- c c' Hc. unfold alike, quiet in *. cbn. congruence. Qed.
Lemma report_alike e (c : Context) : alike (report e c) c.
Proof. done. Qed.

(** Spans that were started and not ended. *)
Definition span_change (e : web_event) : Z :=
  match e with SpanStart _ _ => 1 | SpanEnd => -1 | _ => 0 end.
Definition open_spans (c : Context) : Z := foldr (fun e n => span_change e + n)%Z 0%Z (Events c).
Lemma open_spans_report e c : open_spans (report e c) = (open_spans c + span_change e)%Z.
Proof. unfold open_spans, report. cbn [Events]. induction (Events c) as [|e' l IH]; cbn in *; lia. Qed.

(** A handler that does not look at what the middlewares report, and leaves the
    spans of others alone; a middleware that makes such a handler of one. *)
Class Tame (h : HandleFunc) : Prop := {
  #[global] tame_agree :: Proper agree h;
  tame_spans : forall c, open_spans (h c).1 = open_spans c
}.
Class TameMiddleware (m : Middleware) : Prop := {
  #[global] tame_mdl_agree :: Proper (agree ==> agree) m;
  tame_mdl_spans : forall next, (forall c, open_spans (next c).1 = open_spans c) ->
    forall c, open_spans (m next c).1 = open_spans c
}.

#[export] Instance errhdl_tame pages : TameMiddleware (errhdl pages).
Proof.
  split.
  - intros n n' Hn c c' Hc. destruct (Hn _ _ Hc) as [Ha Hp]. unfold errhdl.
    destruct (n c) as [c1 p], (n' c') as [c1' p']. cbn in Ha, Hp. subst p'.
    destruct p as [p|]; [done|]. rewrite Ha at 1. destruct (pages !! RespStatusCode c1'); [|done].
    split; [cbn|done]. by rewrite Ha.
  - intros next Hn c. unfold errhdl. specialize (Hn c). destruct (next c) as [c1 [p|]]; [done|].
    by destruct (pages !! RespStatusCode c1).
Qed.
(** A recovery whose [Log] is set, and is such a function itself. *)
#[export] Instance recover_tame code data (log : Context -> Context) :
  Proper (alike ==> alike) log -> (forall c, open_spans (log c) = open_spans c) ->
  TameMiddleware (recover_mdl (mkRecover code data (Some log))).
Proof.
  intros Hl Hs. split.
  - intros n n' Hn c c' Hc. destruct (Hn _ _ Hc) as [Ha Hp]. unfold recover_mdl.
    destruct (n c) as [c1 p], (n' c') as [c1' p']. cbn in Ha, Hp. subst p'.
    destruct p as [p|]; [|done]. split; [cbn|done]. by rewrite Ha.
  - intros next Hn c. unfold recover_mdl. specialize (Hn c). destruct (next c) as [c1 [p|]]; [|done].
    cbn. rewrite Hs. exact Hn.
Qed.

(** The middlewares of the repository that only observe. *)
Inductive observer : Middleware -> Prop :=
  | ob_accesslog logFunc : (forall l, span_change (logFunc l) = 0%Z) ->
      observer (accesslog (mkAccessLog (Some logFunc)))
  | ob_prometheus : observer web_prometheus
  | ob_opentelemetry us m : observer (web_opentelemetry us m).

Lemma observer_outcome m (next : HandleFunc) c :
  observer m -> Proper agree next -> same_outcome (m next c) (next c).
Proof.
  intros [f Hf| |us t] Hn.
  - unfold accesslog. by destruct (next c).
  - unfold web_prometheus. by destruct (next c).
  - unfold web_opentelemetry. set (c0 := report (SpanAttribute "http.host" _) _).
    assert (alike c0 c) as Hc by done. destruct (Hn _ _ Hc) as [Ha Hp].
    destruct (next c0) as [c1 p], (next c) as [c1' p']. cbn in Ha, Hp. subst p'.
    split; [|done]. cbn. destruct p; exact Ha.
Qed.
Lemma observer_spans m (next : HandleFunc) c :
  observer m -> (forall c, open_spans (next c).1 = open_spans c) -> open_spans (m next c).1 = open_spans c.
Proof.
  intros [f Hf| |us t] Hn.
  - unfold accesslog. specialize (Hn c). destruct (next c) as [c1 p]. cbn [al_logFunc fst] in *.
    rewrite open_spans_report, Hf. lia.
  - unfold web_prometheus. specialize (Hn c). destruct (next c) as [c1 p]. cbn [fst] in *.
    rewrite open_spans_report. cbn. lia.
  - unfold web_opentelemetry. set (c0 := report (SpanAttribute "http.host" _) _). specialize (Hn c0).
    assert (open_spans c0 = open_spans c + 1)%Z as H0.
    { unfold c0. rewrite !open_spans_report. cbn. lia. }
    destruct (next c0) as [c1 p]. cbn [fst] in *. rewrite open_spans_report.
    destruct p; rewrite ?open_spans_report; cbn [span_change]; lia.
Qed.

(** A stack with observers put anywhere in another stack. *)
Inductive observed : list Middleware -> list Middleware -> Prop :=
  | observed_nil : observed [] []
  | observed_add m ms ms' : observer m -> observed ms ms' -> observed (m :: ms) ms'
  | observed_keep m ms ms' : TameMiddleware m -> observed ms ms' -> observed (m :: ms) (m :: ms').

Lemma observed_agree ms ms' r r' : observed ms ms' -> agree r r' -> agree (chain ms r) (chain ms' r').
Proof.
  intros Ho Hr. induction Ho as [|m ms ms' Hm _ IH|m ms ms' Hm _ IH]; cbn; [done| |].
  - intros c c' Hc. transitivity (chain ms r c).
    + apply observer_outcome; [done|by apply agree_left in IH].
    + by apply IH.
  - by apply tame_mdl_agree.
Qed.
Lemma observed_spans ms ms' r :
  observed ms ms' -> (forall c, open_spans (r c).1 = open_spans c) ->
  forall c, open_spans (chain ms r c).1 = open_spans c.
Proof.
  intros Ho Hr. induction Ho as [|m ms ms' Hm _ IH|m ms ms' Hm _ IH]; cbn; [done| |]; intros c.
  - by apply observer_spans.
  - by apply tame_mdl_spans.
Qed.

Lemma table_handler_tame calls :
  Forall (fun a => Tame (rg_handler (reg_of a))) calls -> Tame (table_handler calls).
Proof.
  intros Hh.
  assert (forall m, Forall (fun e => Tame e.2.2) (table_of m (reg_of <$> calls))) as HT.
  { intros m. unfold table_of, regs_for. rewrite Forall_fmap. apply Forall_forall. intros x Hx.
    apply list_elem_of_omap in Hx as (g & Hg & Hx). apply list_elem_of_fmap in Hg as (a & -> & Ha).
    rewrite Forall_forall in Hh. specialize (Hh _ Ha). case_decide; [|done]. by injection Hx as <-. }
  split.
  - intros c c' Hc. unfold table_handler. rewrite Hc.
    destruct (table_match _ _ _) as [[[route h] ps]|] eqn:Hm.
    + apply (table_match_handler Tame) in Hm; [|apply HT]. apply tame_agree. by rewrite Hc.
    + split; [cbn|done]. by rewrite Hc.
  - intros c. unfold table_handler. destruct (table_match _ _ _) as [[[route h] ps]|] eqn:Hm; [|done].
    apply (table_match_handler Tame) in Hm; [|apply HT]. by rewrite tame_spans.
Qed.

(** The options of the repository set fields that the router is not one of. *)
Inductive known_option : HTTPServerOption (U := U) (V := V) -> Prop :=
  | known_engine e : known_option (ServerWithTemplateEngine e)
  | known_middleware mdls : known_option (ServerWithMiddleware mdls).
Lemma NewHTTPServer_router opts :
  Forall known_option opts -> s_router (NewHTTPServer opts) = newRouter.
Proof.
  unfold NewHTTPServer. set (s := mkHTTPServer newRouter [] None).
  assert (s_router s = newRouter) as Hs by done. clearbody s. revert s Hs.
  induction opts as [|o opts IH]; intros s Hs Ho; [done|].
  apply Forall_cons in Ho as [Hk Ho]. cbn [foldl]. apply IH; [|done]. by destruct Hk.
Qed.

(** C8. A server with routes registered by [Get], [Post] and [Options], none of which
    panicked, behind a stack of middlewares with access logs, metrics and traces
    put anywhere in it.  What a client can tell of a request, panics included, is
    what the other middlewares make of the handler that the route table gives
    the request, run once with the path parameters and the route of the match:
    neither the tree nor the observers show.  Every span that was started is
    ended, also when the handler panics.  And when only observers are there and
    no route matches, the context gets status 404 and its text, but nothing at
    all is written to the client: the last step that the code announces,
    flushing the response, does not exist. *)
Theorem ServeHTTP_table opts calls s core request :
  Forall known_option opts ->
  set_up calls (NewHTTPServer opts) = (s, None) ->
  Forall (fun a => Tame (rg_handler (reg_of a))) calls ->
  observed (s_mdls (NewHTTPServer opts)) core ->
  let ctx := new_context s request in
  same_outcome (ServeHTTP s request) (chain core (table_handler calls) ctx) /\
  open_spans (ServeHTTP s request).1 = 0%Z /\
  (core = [] ->
   table_match (H := HandleFunc) (request_segs (URL_Path request))
     (table_of (Method request) (reg_of <$> calls)) ∅ = None ->
   let ctx' := (ServeHTTP s request).1 in
   (ServeHTTP s request).2 = None /\ RespStatusCode ctx' = 404%Z /\ RespData ctx' = "NOT FOUND" /\
   Resp ctx' = []).
Proof.
  intros Hk Hs Hh Ho ctx.
  pose proof (fun c => serve_table _ _ _ c (NewHTTPServer_router _ Hk) Hs) as HST.
  destruct (table_handler_tame calls Hh) as [HA HP].
  assert (s_mdls s = s_mdls (NewHTTPServer opts)) as Hm by by destruct (set_up_routes _ _ _ Hs) as [_ ->].
  rewrite <-Hm in Ho.
  assert (agree (serve s) (table_handler calls)) as HS.
  { intros c c' Hc. rewrite HST. by apply HA. }
  assert (same_outcome (ServeHTTP s request) (chain core (table_handler calls) ctx)) as HO.
  { exact (observed_agree _ _ _ _ Ho HS ctx ctx eq_refl). }
  split_and!; [done| |].
  - assert (forall c, open_spans (serve s c).1 = open_spans c) as HB by (intros c; by rewrite HST).
    exact (observed_spans _ _ _ Ho HB ctx).
  - intros -> Ht. destruct HO as [Ha Hp]. cbn [chain fold_right] in Ha, Hp. unfold table_handler in Ha, Hp.
    cbn [ctx new_context Req] in Ha, Hp. rewrite Ht in Ha, Hp. by injection Ha.
Qed.
End stack.

(** An access log outside everything, a trace inside the recovery. *)
Definition sample_mdls : list (Middleware (U := unit) (V := unit)) :=
  [accesslog sample_accesslog; recover_mdl sample_recover;
   web_opentelemetry (fun r => URL_Path r) (mkOtel None);
   errhdl (AddCode 404 "page" NewMiddlewareBuild); web_prometheus].
Definition sample_core : list (Middleware (U := unit) (V := unit)) :=
  [recover_mdl sample_recover; errhdl (AddCode 404 "page" NewMiddlewareBuild)].
Definition sample_calls : list (route_call (U := unit) (V := unit)) :=
  [RGet "/boom" (fun ctx => (ctx, Some (PUser "boom")));
   RGet "/user/:id" (fun ctx => (set_resp (default "" (PathParams ctx !! "id")) 200 ctx, None));
   RPost "/user/:id" (fun ctx => (set_resp "created" 201 ctx, None))].

Lemma sample_observed : observed sample_mdls sample_core.
Proof.
  apply observed_add; [by constructor|]. apply observed_keep.
  { apply recover_tame.
    - intros c c' Hc. exact Hc.
    - intros c. rewrite open_spans_report. cbn. lia. }
  apply observed_add; [constructor|]. apply observed_keep; [apply _|].
  apply observed_add; constructor.
Qed.
Lemma sample_calls_tame : Forall (fun a => Tame (rg_handler (reg_of a))) sample_calls.
Proof.
  unfold sample_calls. rewrite !Forall_cons. split_and!; [| | |constructor];
    (split; [intros c c' Hc; split; [|done]; cbn|done]).
  - exact Hc.
  - assert (PathParams c = PathParams c') as -> by by injection Hc. by rewrite Hc.
  - by rewrite Hc.
Qed.

Lemma ServeHTTP_table_witness :
  let s := (set_up sample_calls (NewHTTPServer [ServerWithMiddleware sample_mdls])).1 in
  let '(c7, p7) := ServeHTTP s (get_request "/user/7") in
  let '(cb, pb) := ServeHTTP s (get_request "/boom") in
  (p7 = None /\ RespData c7 = "7" /\ RespStatusCode c7 = 200%Z /\ MatchRoute c7 = "/user/:id") /\
  (pb = None /\ RespData cb = "oops" /\ RespStatusCode cb = 500%Z /\ open_spans cb = 0%Z).
Proof.
  intros s.
  assert (Forall known_option [ServerWithMiddleware (V := unit) sample_mdls]) as Hk by by repeat constructor.
  pose proof (fun request => ServeHTTP_table [ServerWithMiddleware sample_mdls] sample_calls s sample_core request
    Hk eq_refl sample_calls_tame sample_observed) as HT.
  destruct (HT (get_request "/user/7")) as ([H1 H2] & _ & _).
  destruct (HT (get_request "/boom")) as ([H3 H4] & H5 & _).
  destruct (ServeHTTP s (get_request "/user/7")) as [c7 p7], (ServeHTTP s (get_request "/boom")) as [cb pb].
  cbn [fst snd] in *. subst p7 pb. vm_compute in H1, H3. injection H1. injection H3. intros. subst. done.
Defined.
