(* ===== verification/Files.v ===== *)
(** File handlers of the web framework: [web/file.go], with the functions of
    [path/filepath] they use, on slash-separated paths. *)
From stdpp Require Import pretty.
From S2P Require Import Prelude Router Web.

(** ** Paths *)

(** One element of a path, for [filepath.Clean]; the stack is reversed. *)
Definition clean_step (rooted : bool) (st : list string) (seg : string) : list string :=
  if decide (seg = "" \/ seg = ".") then st
  else if decide (seg = "..") then
    match st with
    | top :: st' => if decide (top = "..") then seg :: st else st'
    | [] => if rooted then [] else [seg]
    end
  else seg :: st.
Definition Clean (path : string) : string :=
  let rooted := bool_decide (first_char path = Some slash) in
  let out := join "/" (rev (foldl (clean_step rooted) [] (split_on slash path))) in
  if rooted then "/" +:+ out else if decide (out = "") then "." else out.
(** [filepath.Join] of two elements. *)
Definition Join2 (a b : string) : string :=
  if decide (a = "") then (if decide (b = "") then "" else Clean b) else Clean (a +:+ "/" +:+ b).
(** [filepath.Ext]: from the last dot of the last element. *)
Definition Ext (path : string) : string :=
  let base := default "" (last (split_on slash path)) in
  match split_on "."%char base with
  | [] | [_] => ""
  | _ :: rest => "." +:+ default "" (last rest)
  end.
Definition Base (path : string) : string :=
  if decide (path = "") then "."
  else
    let base := default "" (last (split_on slash (trim_right slash path))) in
    if decide (base = "") then "/" else base.

(** ** The libraries below *)

(** Reading, creating and filling files.  A read that fails gives what it had read
    until then, and its error. *)
Class FileSystem (F : Type) := {
  fs_ReadFile : string -> F -> string * option web_error;
  fs_OpenFile : string -> F -> F * option web_error;
  fs_Copy : string -> string -> F -> F * option web_error
}.
(** [*lru.Cache]; [Add] may evict other keys, never the one just added. *)
Class LruCache (C : Type) := {
  lru_New : Z -> web_error + C;
  lru_Get : string -> C -> C * option string;
  lru_Add : string -> string -> C -> C
}.
Class LruLaws (C : Type) {HC : LruCache C} := {
  lru_view : C -> gmap string string;
  lru_New_view : forall n c, lru_New n = inr c -> lru_view c = ∅;
  lru_Get_view : forall k c,
    (lru_Get k c).2 = lru_view c !! k /\ lru_view (lru_Get k c).1 = lru_view c;
  lru_Add_view : forall k v c,
    lru_view (lru_Add k v c) !! k = Some v /\ lru_view (lru_Add k v c) ⊆ <[k := v]> (lru_view c)
}.
Lemma lru_Get_Add {C} {HC : LruCache C} {HL : LruLaws C} k v (c : C) :
  (lru_Get k (lru_Add k v c)).2 = Some v.
Proof. rewrite (proj1 (lru_Get_view k (lru_Add k v c))). apply lru_Add_view. Qed.

Section files.
Context {U V : Type}.
Abbreviation Context_ := (@Context U V).

(** ** Uploading *)

(** What [ctx.Req.FormFile] gives: an error, or the file's name and content. *)
Record FileHeader := mkFileHeader { fh_Filename : string; fh_content : string }.
Definition Error (e : web_error) : string :=
  match e with
  | ErrKeyNotExist => "web:key不存在"
  | ErrNilInput => "web:输入为nil"
  | ErrNilBody => "web:body为nil"
  | ErrSyntax => "invalid syntax"
  | ErrRange => "value out of range"
  | ErrWeb msg => msg
  end.

Record FileUpLoader := mkFileUpLoader { FileField : string; DstPathFunc : FileHeader -> string }.
Definition FileUpLoader_Handle {F} {HF : FileSystem F} (u : FileUpLoader)
    (formFile : string -> web_error + FileHeader) (ctx : Context_) (fs : F) : Context_ * F :=
  match formFile (FileField u) with
  | inl err => (set_resp ("上次失败" +:+ Error err) 500 ctx, fs)
  | inr file =>
      let dst := DstPathFunc u file in
      match fs_OpenFile dst fs with
      | (fs, Some err) => (set_resp ("上次失败" +:+ Error err) 500 ctx, fs)
      | (fs, None) =>
          match fs_Copy dst (fh_content file) fs with
          | (fs, Some _) => (set_resp "上次失败" 500 ctx, fs)
          | (fs, None) => (set_resp "上次成功" 200 ctx, fs)
          end
      end
  end.

(** ** Downloading *)

Record FileDownLoader := mkFileDownLoader { d_Dir : string }.
Definition FileDownLoader_Handle (d : FileDownLoader) (ctx : Context_) : go Context_ :=
  let '(ctx, req) := QueryValue ctx "file" in
  req ← req;
  match sv_err req with
  | Some _ => Ok (set_resp "找不到目标文件" 400 ctx)
  | None =>
      let dst := Join2 (d_Dir d) (Clean (sv_value req)) in
      Ok (write_resp
        [SetHeader "Content-Disposition" ("attachment;filename=" +:+ Base dst);
         SetHeader "Content-Description" "File Transfer";
         SetHeader "Content-Type" "application/octet-stream";
         SetHeader "Content-Transfer-Encoding" "binary";
         SetHeader "Expires" "0";
         SetHeader "Cache-Control" "must-revalidate";
         SetHeader "Pragma" "public";
         ServeFile dst] ctx)
  end.

(** ** Static resources *)

(** [StaticResourceHandler], less its cache, which is the state of [Static_Handle]. *)
Record StaticResourceHandler := mkStatic {
  st_dir : string; extContextTypeMap : gmap string string; maxSize : Z }.
Section options.
Context {C : Type} {HC : LruCache C}.
Definition StaticResourceHandlerOption : Type := StaticResourceHandler * C -> StaticResourceHandler * C.
(** [NewStaticResourceHandler]: the defaults with a cache of its own, then the
    options in order. *)
Definition NewStaticResourceHandler (dir : string) (opts : list StaticResourceHandlerOption)
  : web_error + (StaticResourceHandler * C) :=
  match lru_New (100 * 1024 * 1024) with
  | inl err => inl err
  | inr c => inr (foldl (fun res opt => opt res)
      (mkStatic dir {[ "jpeg" := "image/jpeg"; "jpe" := "image/jpeg"; "jpg" := "image/jpeg";
                       "png" := "image/png"; "pdf" := "image/pdf" ]} (1024 * 1024 * 10), c) opts)
  end.
Definition StaticWithMaxFileSize (n : Z) : StaticResourceHandlerOption := fun '(s, c) =>
  (mkStatic (st_dir s) (extContextTypeMap s) n, c).
Definition WithFileCache (c : C) : StaticResourceHandlerOption := fun '(s, _) => (s, c).
Definition StaticWithMoreExtions (m : gmap string string) : StaticResourceHandlerOption := fun '(s, c) =>
  (mkStatic (st_dir s) (m ∪ extContextTypeMap s) (maxSize s), c).
End options.

(** The decimal text of a length. *)
Definition Itoa (n : nat) : string := pretty n.

(** The response of a file, from the cache or from the disk. *)
Definition static_found (s : StaticResourceHandler) (ext data : string) (ctx : Context_) : Context_ :=
  set_resp data 200 (write_resp
    [SetHeader "Content-Type" (default "" (extContextTypeMap s !! ext));
     SetHeader "Content-Length" (Itoa (String.length data))] ctx).

Section static.
Context {F C : Type} {HF : FileSystem F} {HC : LruCache C}.

(** [StaticResourceHandler.Handle]; what a failed read gives is cached like any
    other data. *)
Definition Static_Handle (s : StaticResourceHandler) (fs : F) (c : C) (ctx : Context_)
  : C * (Context_ * option panic) :=
  let req := PathValue ctx "file" in
  match sv_err req with
  | Some _ => (c, (set_resp "请求路径不对" 400 ctx, None))
  | None =>
      let dst := Join2 (st_dir s) (sv_value req) in
      match Ext dst with
      | EmptyString => (c, (ctx, Some PSlice))
      | String _ ext =>
          match lru_Get (sv_value req) c with
          | (c, Some data) => (c, (static_found s ext data ctx, None))
          | (c, None) =>
              let '(data, err) := fs_ReadFile dst fs in
              let c := if decide (Z.of_nat (String.length data) <= maxSize s)%Z
                       then lru_Add (sv_value req) data c else c in
              match err with
              | Some _ => (c, (set_resp "服务器错误" 500 ctx, None))
              | None => (c, (static_found s ext data ctx, None))
              end
          end
      end
  end.

(** What one request does, when its path has a name and an extension. *)
Definition read_file (s : StaticResourceHandler) (fs : F) (name : string) : string * option web_error :=
  fs_ReadFile (Join2 (st_dir s) name) fs.
Lemma Static_Handle_eq s fs c ctx name ch ext :
  PathParams ctx !! "file" = Some name -> Ext (Join2 (st_dir s) name) = String ch ext ->
  Static_Handle s fs c ctx =
  match lru_Get name c with
  | (c, Some data) => (c, (static_found s ext data ctx, None))
  | (c, None) =>
      let '(data, err) := read_file s fs name in
      let c := if decide (Z.of_nat (String.length data) <= maxSize s)%Z
               then lru_Add name data c else c in
      match err with
      | Some _ => (c, (set_resp "服务器错误" 500 ctx, None))
      | None => (c, (static_found s ext data ctx, None))
      end
  end.
Proof. intros Hn He. unfold Static_Handle, PathValue. rewrite Hn. cbn [sv_err sv_value]. by rewrite He. Qed.

(** A file that is not cached is answered from the disk, and from then on from
    the cache, whatever happens to the file.  A file that cannot be read is
    answered 500 once, but what was read of it, perhaps nothing, enters the cache,
    so the very next request for it is answered 200 with that, and even a file
    that has appeared since is not served. *)
Lemma Static_Handle_cached {HL : LruLaws C} s fs fs' c ctx name ch ext :
  PathParams ctx !! "file" = Some name ->
  Ext (Join2 (st_dir s) name) = String ch ext ->
  (lru_Get name c).2 = None ->
  let '(c1, (ctx1, p1)) := Static_Handle s fs c ctx in
  let '(ctx2, p2) := (Static_Handle s fs' c1 ctx).2 in
  p1 = None /\ p2 = None /\
  let '(data, err) := fs_ReadFile (Join2 (st_dir s) name) fs in
  match err with
  | None => ctx1 = static_found s ext data ctx
  | Some _ => RespStatusCode ctx1 = 500%Z
  end /\
  ((Z.of_nat (String.length data) <= maxSize s)%Z -> ctx2 = static_found s ext data ctx).
Proof.
  intros Hn He Hc. pose proof (fun fs c => Static_Handle_eq s fs c ctx name ch ext Hn He) as Heq.
  rewrite (Heq fs c). destruct (lru_Get name c) as [c0 o]. cbn in Hc. subst o. unfold read_file at 1.
  destruct (fs_ReadFile (Join2 (st_dir s) name) fs) as [data err]. cbv beta iota zeta. case_decide as Hd.
  - pose proof (lru_Get_Add name data c0) as HA.
    destruct err; rewrite (Heq fs'); destruct (lru_Get name _) as [c2 o]; cbn in HA; by subst o.
  - destruct err; rewrite (Heq fs'); destruct (lru_Get name c0) as [c2 [d|]]; try by split_and!.
    all: destruct (read_file s fs' name) as [data' [err|]]; by split_and!.
Qed.

(** ** A history of requests *)

(** The requests in order, each with the disk at its time. *)
Fixpoint serve_all (s : StaticResourceHandler) (reqs : list (F * Context_)) (c : C)
  : C * list (Context_ * option panic) :=
  match reqs with
  | [] => (c, [])
  | (fs, ctx) :: reqs' =>
      let '(c, x) := Static_Handle s fs c ctx in
      let '(c, xs) := serve_all s reqs' c in
      (c, x :: xs)
  end.
(** Some request of the list asked for [name] and read [data]. *)
Definition read_before (s : StaticResourceHandler) (reqs : list (F * Context_)) (name data : string) : Prop :=
  exists fs ctx, (fs, ctx) ∈ reqs /\ PathParams ctx !! "file" = Some name /\
    (read_file s fs name).1 = data /\ (Z.of_nat (String.length data) <= maxSize s)%Z.
Definition cache_read {HL : LruLaws C} (s : StaticResourceHandler) (past : list (F * Context_)) (c : C) : Prop :=
  forall name data, lru_view c !! name = Some data -> read_before s past name data.
(** How a request is answered, given the requests before it. *)
Definition answered (s : StaticResourceHandler) (past : list (F * Context_)) (fs : F) (ctx : Context_)
    (x : Context_ * option panic) : Prop :=
  match PathParams ctx !! "file" with
  | None => x = (set_resp "请求路径不对" 400 ctx, None)
  | Some name =>
      match Ext (Join2 (st_dir s) name) with
      | EmptyString => x = (ctx, Some PSlice)
      | String _ ext =>
          (exists data, x = (static_found s ext data ctx, None) /\ read_before s past name data) \/
          match read_file s fs name with
          | (data, None) => x = (static_found s ext data ctx, None)
          | (_, Some _) => x = (set_resp "服务器错误" 500 ctx, None)
          end
      end
  end.

Lemma Static_Handle_step {HL : LruLaws C} s past fs c ctx :
  cache_read s past c ->
  answered s past fs ctx (Static_Handle s fs c ctx).2 /\
  cache_read s (past ++ [(fs, ctx)]) (Static_Handle s fs c ctx).1.
Proof.
  intros Hc.
  assert (forall c', lru_view c' ⊆ lru_view c -> cache_read s (past ++ [(fs, ctx)]) c') as Hold.
  { intros c' Hs name data Hl. destruct (Hc name data) as (fs' & ctx' & Hi & Hr).
    - by eapply lookup_weaken.
    - exists fs', ctx'. split; [|exact Hr]. apply elem_of_app. by left. }
  unfold answered. destruct (PathParams ctx !! "file") as [name|] eqn:Hn.
  2: { unfold Static_Handle, PathValue. rewrite Hn. cbn. auto. }
  destruct (Ext (Join2 (st_dir s) name)) as [|ch ext] eqn:He.
  { unfold Static_Handle, PathValue. rewrite Hn. cbn [sv_err sv_value]. rewrite He. cbn. auto. }
  rewrite (Static_Handle_eq _ _ _ _ _ _ _ Hn He). destruct (lru_Get_view name c) as [Hg Hv].
  destruct (lru_Get name c) as [c1 [data|]]; cbn [fst snd] in *.
  - split; [|apply Hold; by rewrite Hv]. left. exists data. split; [done|]. by apply Hc.
  - split.
    + right. by destruct (read_file s fs name) as [data [err|]].
    + assert (forall data, (read_file s fs name).1 = data -> cache_read s (past ++ [(fs, ctx)])
        (if decide (Z.of_nat (String.length data) <= maxSize s)%Z then lru_Add name data c1 else c1)) as K.
      { intros data Hd. case_decide as Hsz; [|apply Hold; by rewrite Hv].
        intros k d Hl. pose proof (lookup_weaken _ _ _ _ Hl (proj2 (lru_Add_view name data c1))) as Hi.
        rewrite Hv in Hi. apply lookup_insert_Some in Hi as [[<- <-]|[Hne Hi]].
        - exists fs, ctx. split; [|done]. apply elem_of_app. right. by apply list_elem_of_singleton.
        - apply (Hold c); [done|exact Hi]. }
      specialize (K _ eq_refl). by destruct (read_file s fs name) as [data [err|]].
Qed.
Lemma serve_all_from {HL : LruLaws C} s reqs : forall past c i fs ctx,
  cache_read s past c -> reqs !! i = Some (fs, ctx) ->
  exists x, (serve_all s reqs c).2 !! i = Some x /\ answered s (past ++ take i reqs) fs ctx x.
Proof.
  induction reqs as [|[fs0 ctx0] reqs IH]; intros past c i fs ctx Hc Hi; [done|]. cbn [serve_all].
  destruct (Static_Handle_step s past fs0 c ctx0 Hc) as [Ha Hc'].
  destruct (Static_Handle s fs0 c ctx0) as [c1 x]. cbn [fst snd] in *.
  destruct i as [|i].
  - injection Hi as -> ->. exists x. cbn [take]. rewrite app_nil_r. by destruct (serve_all s reqs c1).
  - destruct (IH _ _ _ _ _ Hc' Hi) as (y & Hy & HA). exists y. destruct (serve_all s reqs c1) as [c2 xs].
    split; [exact Hy|]. cbn [take]. by rewrite <-app_assoc in HA.
Qed.

(** C39. Static resources over any history of requests, while the files change:
    a handler with a new cache answers every request.  Without a name in the path
    the answer is 400, and a name without an extension is a panic.  Otherwise the
    answer is the file as it is now, or 500 when it cannot be read, or with 200
    what an earlier request for the same name read, however long ago: at most
    [maxSize] bytes, and possibly what a read that failed gave, nothing or a part of
    the file, which the handler caches like any other. *)
Theorem Static_history {HL : LruLaws C} s n c reqs i fs ctx :
  lru_New n = inr c -> reqs !! i = Some (fs, ctx) ->
  exists x, (serve_all s reqs c).2 !! i = Some x /\ answered s (take i reqs) fs ctx x.
Proof.
  intros Hc Hi. apply (serve_all_from s reqs [] c i fs ctx); [|done].
  intros name data. by rewrite (lru_New_view _ _ Hc), lookup_empty.
Qed.
End static.

(** ** Where a download leads *)

(** An ordinary element of a path. *)
Definition plain (seg : string) : Prop :=
  seg <> "" /\ seg <> "." /\ seg <> ".." /\ slash ∉ chars seg.

Lemma clean_plain rooted l : forall st,
  Forall plain l -> foldl (clean_step rooted) st l = rev l ++ st.
Proof.
  induction l as [|x l IH]; intros st Hl; [done|].
  inversion_clear Hl as [|? ? (H1 & H2 & H3 & _) Hl']. cbn [foldl].
  unfold clean_step at 2. rewrite decide_False by tauto. rewrite decide_False by done.
  rewrite IH by done. simpl. by rewrite <-app_assoc.
Qed.
Lemma clean_up st k :
  Forall plain st -> k <= length st ->
  foldl (clean_step true) st (replicate k "..") = drop k st.
Proof.
  revert st. induction k as [|k IH]; intros st Hst Hk; [done|].
  destruct Hst as [|x st (H1 & H2 & H3 & _) Hst]; [simpl in Hk; lia|].
  cbn [replicate foldl]. unfold clean_step at 2. rewrite decide_False by by intros [|].
  rewrite decide_True by done. rewrite decide_False by done. apply IH; [done|simpl in Hk; lia].
Qed.
Lemma clean_dots k : forall st, Forall (eq "..") st ->
  foldl (clean_step false) st (replicate k "..") = replicate k ".." ++ st.
Proof.
  induction k as [|k IH]; intros st Hst; [done|]. cbn [replicate foldl].
  assert (clean_step false st ".." = ".." :: st) as ->.
  { unfold clean_step. rewrite decide_False by by intros [|]. rewrite decide_True by done.
    destruct Hst as [|x st <- Hst]; [done|]. by rewrite decide_True. }
  rewrite IH by by constructor. cbn [app]. f_equal. clear. induction k as [|k IH]; [done|].
  cbn. by rewrite IH.
Qed.

Lemma join_first sep w l : w <> "" -> first_char (join sep (w :: l)) = first_char w.
Proof. intros Hw. destruct w as [|c w]; [done|]. by destruct l. Qed.
Lemma rev_replicate {A} k (x : A) : rev (replicate k x) = replicate k x.
Proof.
  induction k as [|k IH]; [done|]. cbn. rewrite IH. clear. induction k as [|k IH]; [done|].
  cbn. by rewrite IH.
Qed.

Lemma split_join_slash l :
  l <> [] -> Forall (fun w => slash ∉ chars w) l -> split_on slash (join "/" l) = l.
Proof. apply (split_on_join slash). Qed.

Lemma rev_drop {A} k (l : list A) : k <= length l -> rev (drop k l) = take (length l - k) (rev l).
Proof.
  intros Hk. rewrite <-(take_drop k l) at 3. rewrite rev_app_distr, take_app_le.
  - rewrite take_ge; [done|]. rewrite length_rev, length_drop. lia.
  - rewrite length_rev, length_drop. lia.
Qed.

(** A relative path of dots and ordinary names is clean. *)
Lemma Clean_relative k names :
  Forall plain names -> names <> [] ->
  Clean (join "/" (replicate k ".." ++ names)) = join "/" (replicate k ".." ++ names).
Proof.
  intros Hn Hn0. unfold Clean.
  assert (Forall (fun w => w <> "" /\ slash ∉ chars w) (replicate k ".." ++ names)) as Hns.
  { apply Forall_app. split; [apply Forall_replicate; split; [done|go_decide]|].
    eapply Forall_impl; [exact Hn|]. by intros ? (? & ? & ? & ?). }
  assert (replicate k ".." ++ names <> []) as Hne by (destruct (replicate k ".."); by destruct names).
  assert (exists c, first_char (join "/" (replicate k ".." ++ names)) = Some c /\ c <> slash) as (c & Hc & Hcs).
  { destruct (replicate k ".." ++ names) as [|w l]; [done|].
    inversion_clear Hns as [|? ? [Hw Hsl] _]. rewrite join_first by done.
    destruct w as [|c w]; [done|]. exists c. split; [done|]. intros ->. apply Hsl. constructor. }
  rewrite Hc. rewrite bool_decide_eq_false_2 by congruence.
  rewrite (split_join_slash _ Hne) by (eapply Forall_impl; [exact Hns|]; by intros ? []).
  rewrite foldl_app, clean_dots by constructor. rewrite app_nil_r, clean_plain by done.
  rewrite rev_app_distr, rev_involutive, rev_replicate.
  rewrite decide_False; [done|]. intros E. by rewrite E in Hc.
Qed.

(** A path below a rooted directory, with dots in the middle. *)
Lemma Clean_rooted dirs k names :
  Forall plain dirs -> Forall plain names -> dirs <> [] -> k <= length dirs ->
  names <> [] ->
  Clean (("/" +:+ join "/" dirs) +:+ "/" +:+ join "/" (replicate k ".." ++ names)) =
  "/" +:+ join "/" (take (length dirs - k) dirs ++ names).
Proof.
  intros Hd Hn Hd0 Hk Hn0.
  assert (replicate k ".." ++ names <> []) as Hne by (destruct (replicate k ".."); by destruct names).
  assert (("/" +:+ join "/" dirs) +:+ "/" +:+ join "/" (replicate k ".." ++ names) =
    join "/" ("" :: dirs ++ replicate k ".." ++ names)) as ->.
  { rewrite join_cons by by destruct dirs. rewrite (join_string_app _ dirs) by done.
    by rewrite <-string_app_assoc. }
  unfold Clean. rewrite bool_decide_eq_true_2.
  2: { rewrite join_cons by by destruct dirs. done. }
  rewrite split_join_slash; [|done|].
  2: { constructor; [go_decide|]. apply Forall_app. split; [|apply Forall_app; split].
       - eapply Forall_impl; [exact Hd|]. by intros ? (? & ? & ? & ?).
       - apply Forall_replicate. go_decide.
       - eapply Forall_impl; [exact Hn|]. by intros ? (? & ? & ? & ?). }
  cbn [foldl]. change (clean_step true [] "") with (@nil string).
  rewrite !foldl_app, (clean_plain true dirs []) by done. rewrite app_nil_r.
  rewrite clean_up by (rewrite ?length_rev; try done; by apply Forall_rev).
  rewrite clean_plain by done. rewrite rev_app_distr, rev_involutive. do 3 f_equal.
  rewrite <-(rev_involutive dirs) at 2 3. rewrite length_rev. apply rev_drop.
  by rewrite length_rev.
Qed.

Lemma QueryValue_first (ctx : Context_) key v :
  queryValues ctx = None -> URL_Query (Req ctx) !! key = Some [v] ->
  QueryValue ctx key = (set_query (URL_Query (Req ctx)) ctx, Ok (mkStringValue v None)).
Proof.
  intros Hq Hf. unfold QueryValue. rewrite Hq. unfold first_value, set_query. cbn. by rewrite Hf.
Qed.

(** [FileDownLoader] serves files outside its directory: for a directory
    [/d1/.../dn] and a query value that starts with [k] times [..] (none is the
    normal case), the file served is the rest of the value below the directory
    with its last [k] elements removed. *)
Lemma FileDownLoader_traversal (d : FileDownLoader) ctx dirs k names v :
  Forall plain dirs -> Forall plain names -> dirs <> [] -> names <> [] -> k <= length dirs ->
  d_Dir d = "/" +:+ join "/" dirs -> v = join "/" (replicate k ".." ++ names) ->
  queryValues ctx = None -> URL_Query (Req ctx) !! "file" = Some [v] ->
  exists ctx', FileDownLoader_Handle d ctx = Ok ctx' /\
    last (Resp ctx') =
      Some (ServeFile ("/" +:+ join "/" (take (length dirs - k) dirs ++ names))).
Proof.
  intros Hd Hn Hd0 Hn0 Hk Hdir -> Hq Hf. unfold FileDownLoader_Handle.
  rewrite (QueryValue_first _ _ _ Hq Hf). cbn [mbind go_bind sv_err sv_value].
  eexists. split; [reflexivity|]. unfold write_resp. cbn [Resp].
  rewrite last_app_cons. cbn [last]. do 2 f_equal.
  rewrite Clean_relative by done. unfold Join2. rewrite Hdir.
  rewrite decide_False by done. by apply Clean_rooted.
Qed.
End files.

(** ** Witnesses *)

(** A disk and a cache that are maps; the cache keeps everything. *)
#[export] Instance map_fs : FileSystem (gmap string string) := {
  fs_ReadFile := fun p fs => match fs !! p with Some d => (d, None) | None => ("", Some (ErrWeb "no such file")) end;
  fs_OpenFile := fun p fs => (<[p := ""]> fs, None);
  fs_Copy := fun p d fs => (<[p := d]> fs, None)
}.
#[export] Instance map_lru : LruCache (gmap string string) := {
  lru_New := fun n => if decide (n <= 0)%Z then inl (ErrWeb "Must provide a positive size") else inr ∅;
  lru_Get := fun k c => (c, c !! k);
  lru_Add := fun k v c => <[k := v]> c
}.
#[export] Instance map_lru_laws : LruLaws (gmap string string).
Proof.
  exists id; cbn.
  - intros n c. case_decide; [done|]. by intros [= <-].
  - done.
  - intros k v c. split; [apply lookup_insert_eq|done].
Defined.

Definition a_request : Request :=
  mkRequest "GET" "/download" "localhost" "http" {[ "file" := ["../../etc/passwd"] ]} (inr ∅) None [].
Definition a_context (ps : gmap string string) : @Context unit unit :=
  mkContext a_request [] "" 0 ps None "" None ∅ [].

(** The handler of [/static] with the defaults and [jpg] served as text. *)
Definition a_static : StaticResourceHandler :=
  mkStatic "/static" {[ "jpeg" := "image/jpeg"; "jpe" := "image/jpeg"; "jpg" := "text/plain";
                        "png" := "image/png"; "pdf" := "image/pdf" ]} 10485760.
Example a_static_new :
  NewStaticResourceHandler (C := gmap string string) "/static"
    [StaticWithMoreExtions {[ "jpg" := "text/plain" ]}; WithFileCache {[ "a.png" := "A" ]}] =
  inr (a_static, {[ "a.png" := "A" ]}).
Proof. vm_compute. reflexivity. Qed.

(** A request for a file that is not there yet, and another one when it is. *)
Definition a_history : list (gmap string string * @Context unit unit) :=
  [(∅, a_context {[ "file" := "logo.png" ]});
   ({[ "/static/logo.png" := "PNG" ]}, a_context {[ "file" := "logo.png" ]})].
Example a_history_answers :
  (fun x => (RespStatusCode x.1, RespData x.1)) <$> (serve_all a_static a_history (∅ : gmap string string)).2 =
  [(500%Z, "服务器错误"); (200%Z, "")].
Proof. vm_compute. reflexivity. Qed.

Lemma Static_history_witness :
  exists x, (serve_all a_static a_history (∅ : gmap string string)).2 !! 1 = Some x /\
    answered a_static (take 1 a_history) ({[ "/static/logo.png" := "PNG" ]} : gmap string string)
      (a_context {[ "file" := "logo.png" ]}) x.
Proof. by apply (Static_history a_static 8 ∅ a_history 1). Defined.

Lemma FileDownLoader_traversal_witness :
  exists ctx', FileDownLoader_Handle (mkFileDownLoader "/var/files") (a_context ∅) = Ok ctx' /\
    last (Resp ctx') = Some (ServeFile "/etc/passwd").
Proof.
  apply (FileDownLoader_traversal (mkFileDownLoader "/var/files") (a_context ∅)
    ["var"; "files"] 2 ["etc"; "passwd"] "../../etc/passwd").
  - repeat constructor; try discriminate; go_decide.
  - repeat constructor; try discriminate; go_decide.
  - discriminate.
  - discriminate.
  - simpl. lia.
  - reflexivity.
  - reflexivity.
  - reflexivity.
  - reflexivity.
Defined.
