(* ===== verification/Session.v ===== *)
(** Sessions of the web framework: [web/session], its memory and Redis stores,
    and the cookie propagator.

    [Store] is an interface with its laws; the manager is proved against it, and
    the memory store discharges it. *)
From Stdlib Require Import Ascii.
From S2P Require Import Prelude Router Web.

Inductive session_error :=
  | ErrNoCookie               (** [http.ErrNoCookie] *)
  | ErrSessionNotFound
  | ErrSessionKeyNotFound
  | ErrStore (msg : string).

(** ** The interface *)

(** [session.Store] and [session.Session]: [S] is the state of the store, [P] the
    sessions it hands out. *)
Class Store (S P : Type) := {
  Store_Generate : string -> S -> S * (session_error + P);
  Store_Refresh : string -> S -> S * option session_error;
  Store_Remove : string -> S -> S * option session_error;
  Store_Get : string -> S -> S * (session_error + P);
  Session_ID : P -> string
}.
(** What a store promises: a generated session is there, under its id; a removed
    one is not; looking changes nothing. *)
Class StoreLaws (S P : Type) {HS : Store S P} := {
  Generate_Get : forall id s s' p, Store_Generate id s = (s', inr p) ->
    Session_ID p = id /\ Store_Get id s' = (s', inr p);
  Get_pure : forall id s, (Store_Get id s).1 = s;
  Remove_Get : forall id s s' p, Store_Remove id s = (s', None) -> (Store_Get id s').2 <> inr p
}.

(** ** The cookie propagator *)

Record Propagator := mkPropagator { cookieName : string }.
Definition NewPropagator (opts : list (Propagator -> Propagator)) : Propagator :=
  foldl (fun p opt => opt p) (mkPropagator "sessId") opts.
Definition WithCookieName (name : string) : Propagator -> Propagator := fun _ => mkPropagator name.

Section propagator.
Context {U V : Type}.
Abbreviation Context_ := (@Context U V).

(** [cookieOption] does nothing by default. *)
Definition Inject (p : Propagator) (id : string) (ctx : Context_) : Context_ :=
  SetCookie_ ctx (cookieName p) id 0.
Definition Extract (p : Propagator) (req : Request) : session_error + string :=
  match assoc (cookieName p) (Cookies req) with
  | Some v => inr v
  | None => inl ErrNoCookie
  end.
Definition Propagator_Remove (p : Propagator) (ctx : Context_) : Context_ :=
  SetCookie_ ctx (cookieName p) "" (-1).
End propagator.

(** [http.SetCookie] drops a cookie whose name is not a token, and the bytes of a
    value that a cookie cannot hold; [req.Cookie] then gives the others back. *)
Definition token_char (c : ascii) : bool :=
  let n := nat_of_ascii c in
  ((48 <=? n) && (n <=? 57)) || ((65 <=? n) && (n <=? 90)) || ((97 <=? n) && (n <=? 122))
  || existsb (Ascii.eqb c) (String.list_ascii_of_string "!#$%&'*+-.^_`|~").
Definition valid_cookie_name (name : string) : bool :=
  negb (String.eqb name "") && forallb token_char (String.list_ascii_of_string name).
Definition value_char (c : ascii) : bool :=
  let n := nat_of_ascii c in
  (32 <=? n) && (n <=? 126) && negb ((n =? 34) || (n =? 59) || (n =? 92)).
Definition sanitize (val : string) : string :=
  String.string_of_list_ascii (List.filter value_char (String.list_ascii_of_string val)).
(** The cookies a browser keeps after a response. *)
Definition keep_cookie (jar : list (string * string)) (e : resp_event) : list (string * string) :=
  match e with
  | SetCookie name val maxAge =>
      let jar' := filter (fun kv => kv.1 <> name) jar in
      if negb (valid_cookie_name name) then jar
      else if decide (maxAge < 0)%Z then jar' else (name, sanitize val) :: jar'
  | _ => jar
  end.
Definition browser (jar : list (string * string)) (resp : list resp_event) : list (string * string) :=
  foldl keep_cookie jar resp.

(** ** The manager *)

Section manager.
Context {S P V : Type} {HS : Store S P}.
Abbreviation Context_ := (@Context P V).

Record Manager := mkManager { m_Propagator : Propagator; SessCtxKey : string }.

(** [GetSession]: the session of the context, or of the cookie, then kept in the
    context. *)
Definition GetSession (m : Manager) (ctx : Context_) (s : S)
  : Context_ * S * (session_error + P) :=
  match UserValues ctx !! SessCtxKey m with
  | Some val => (ctx, s, inr val)
  | None =>
      match Extract (m_Propagator m) (Req ctx) with
      | inl err => (ctx, s, inl err)
      | inr sessId =>
          match Store_Get sessId s with
          | (s, inl err) => (ctx, s, inl err)
          | (s, inr sess) => (set_user (<[SessCtxKey m := sess]> (UserValues ctx)) ctx, s, inr sess)
          end
      end
  end.
(** [InitSession]; [id] is the new UUID. *)
Definition InitSession (m : Manager) (id : string) (ctx : Context_) (s : S)
  : Context_ * S * (session_error + P) :=
  match Store_Generate id s with
  | (s, inl err) => (ctx, s, inl err)
  | (s, inr sess) => (Inject (m_Propagator m) id ctx, s, inr sess)
  end.
Definition RemoveSession (m : Manager) (ctx : Context_) (s : S)
  : Context_ * S * option session_error :=
  match GetSession m ctx s with
  | (ctx, s, inl err) => (ctx, s, Some err)
  | (ctx, s, inr sess) =>
      match Store_Remove (Session_ID sess) s with
      | (s, Some err) => (ctx, s, Some err)
      | (s, None) => (Propagator_Remove (m_Propagator m) ctx, s, None)
      end
  end.
Definition RefreshSession (m : Manager) (ctx : Context_) (s : S)
  : Context_ * S * option session_error :=
  match GetSession m ctx s with
  | (ctx, s, inl err) => (ctx, s, Some err)
  | (ctx, s, inr sess) =>
      let '(s, err) := Store_Refresh (Session_ID sess) s in (ctx, s, err)
  end.

(** A new request with these cookies, in a new context. *)
Definition next_context (ctx : Context_) (cookies : list (string * string)) : Context_ :=
  mkContext (mkRequest (Method (Req ctx)) (URL_Path (Req ctx)) (Host (Req ctx)) (URL_Scheme (Req ctx)) (URL_Query (Req ctx))
      (ParseForm (Req ctx)) (Body (Req ctx)) cookies) [] "" 0 ∅ None "" (tplEngine ctx) ∅ [].

Lemma assoc_filter_ne {W} (l : list (string * W)) k :
  assoc k (filter (fun kv => kv.1 <> k) l) = None.
Proof.
  induction l as [|[k' w] l IH]; [done|]. destruct (decide (k' = k)) as [->|Hne].
  - rewrite filter_cons_False by (cbn; tauto). done.
  - rewrite filter_cons_True by done. cbn. by rewrite decide_False.
Qed.

(** C22. The life of a session, for every store that keeps its promises, a cookie
    name that is a token and an id that a cookie can hold (UUIDs are): after
    [InitSession], the next request of the same browser finds the session, of
    that id, and keeps it in its context; after [RemoveSession] the browser has
    no cookie any more, and a request that replays the old cookie is refused by
    the store; but the very context that removed the session goes on returning
    it, as nothing takes it out of [UserValues]. *)
Theorem Manager_lifecycle {HL : StoreLaws S P} m id ctx jar s ctx1 s1 p :
  InitSession m id ctx s = (ctx1, s1, inr p) -> Resp ctx = [] ->
  valid_cookie_name (cookieName (m_Propagator m)) = true -> sanitize id = id ->
  let cookies := browser jar (Resp ctx1) in
  let ctx2 := next_context ctx cookies in
  Session_ID p = id /\
  exists ctx3, GetSession m ctx2 s1 = (ctx3, s1, inr p) /\
    GetSession m ctx3 s1 = (ctx3, s1, inr p) /\
    forall ctx4 s4, RemoveSession m ctx2 s1 = (ctx4, s4, None) ->
      Extract (m_Propagator m) (Req (next_context ctx (browser cookies (Resp ctx4)))) = inl ErrNoCookie /\
      (forall q, (GetSession m (next_context ctx cookies) s4).2 <> inr q) /\
      GetSession m ctx4 s4 = (ctx4, s4, inr p).
Proof.
  unfold InitSession. destruct (Store_Generate id s) as [s0 [err|p0]] eqn:EG; [done|].
  intros [= <- <- <-] Hr Hn Hsan. cbn [Inject SetCookie_ write_resp Resp]. rewrite Hr.
  destruct (Generate_Get _ _ _ _ EG) as [Hid Hget].
  set (cookies := browser jar _).
  assert (assoc (cookieName (m_Propagator m)) cookies = Some id) as Hc.
  { subst cookies. cbn [browser foldl app keep_cookie]. rewrite Hn, Hsan. cbn. rewrite (decide_False (P := (_ < 0)%Z)) by lia. cbn. by rewrite decide_True. }
  assert (forall s', GetSession m (next_context ctx cookies) s' =
    match Store_Get id s' with
    | (s, inl err) => (next_context ctx cookies, s, inl err)
    | (s, inr sess) => (set_user (<[SessCtxKey m := sess]> ∅) (next_context ctx cookies), s, inr sess)
    end) as HG.
  { intros s'. unfold GetSession. cbn [next_context UserValues Req]. rewrite lookup_empty.
    unfold Extract. cbn [Cookies]. by rewrite Hc. }
  split; [done|]. eexists. rewrite HG, Hget. split; [reflexivity|].
  assert (forall ctx', UserValues ctx' !! SessCtxKey m = Some p0 ->
    forall s', GetSession m ctx' s' = (ctx', s', inr p0)) as Hcached.
  { intros ctx' Hu s'. unfold GetSession. by rewrite Hu. }
  split; [apply Hcached; cbn; by rewrite lookup_insert_eq|].
  intros ctx4 s4. unfold RemoveSession. rewrite HG, Hget, Hid.
  destruct (Store_Remove id s0) as [s5 [err|]] eqn:ER; [done|]. intros [= <- <-].
  split_and!.
  - unfold Extract. cbn [next_context Req Cookies]. cbn [Propagator_Remove SetCookie_ write_resp Resp app].
    cbn [set_user next_context Resp app browser foldl keep_cookie].
    rewrite Hn. cbn [negb]. rewrite decide_True by done. by rewrite assoc_filter_ne.
  - intros q. rewrite HG. pose proof (Remove_Get id s0 s5 q ER) as HR.
    destruct (Store_Get id s5) as [s6 [err|q']]; cbn in *; congruence.
  - apply Hcached. cbn. by rewrite lookup_insert_eq.
Qed.
End manager.

(** ** The memory store *)

(** [github.com/patrickmn/go-cache]: values with a time to live. *)
Class GoCache (C : Type) (T : Type) := {
  gc_New : Z -> Z -> C;
  gc_Set : string -> T -> Z -> Z -> C -> C;
  gc_Get : string -> Z -> C -> option T;
  gc_Delete : string -> C -> C
}.
(** [New] has no values.  [Set k v ttl now]: found until its time has passed, and for ever when the
    time to live is not positive; [Delete] removes. *)
Class GoCacheLaws (C T : Type) {HC : GoCache C T} := {
  gc_Get_New : forall k now expiration interval, gc_Get k now (gc_New expiration interval) = None;
  gc_Get_Set : forall k v ttl now now' c, (ttl <= 0 \/ now' <= now + ttl)%Z ->
    gc_Get k now' (gc_Set k v ttl now c) = Some v;
  gc_Get_Delete : forall k now c, gc_Get k now (gc_Delete k c) = None
}.

(** A session and its values; the store maps ids to pointers. *)
Record MemSession := mkMemSession { ms_id : string; ms_values : gmap string string }.

Section memory.
Context {C : Type} {HC : GoCache C nat}.

(** [memory.Store], with the heap of its sessions and the time. *)
Record MemStore := mkMemStore {
  sessions : C; expiration : Z; ms_heap : list MemSession; ms_now : Z }.

(** [NewStore] at a time; the cache sweeps every second. *)
Definition NewStore (expiration now : Z) : MemStore :=
  mkMemStore (gc_New expiration 1000000000) expiration [] now.

(** A [*Session], with the id that its object holds for ever. *)
Definition memptr : Type := nat * string.

Definition Mem_Generate (id : string) (s : MemStore) : MemStore * (session_error + memptr) :=
  let p := length (ms_heap s) in
  (mkMemStore (gc_Set id p (expiration s) (ms_now s) (sessions s)) (expiration s)
     (ms_heap s ++ [mkMemSession id ∅]) (ms_now s), inr (p, id)).
Definition Mem_Refresh (id : string) (s : MemStore) : MemStore * option session_error :=
  match gc_Get id (ms_now s) (sessions s) with
  | None => (s, Some (ErrStore "session: 该id对应的session不存在"))
  | Some val =>
      (mkMemStore (gc_Set id val (expiration s) (ms_now s) (sessions s)) (expiration s)
         (ms_heap s) (ms_now s), None)
  end.
Definition Mem_Remove (id : string) (s : MemStore) : MemStore * option session_error :=
  (mkMemStore (gc_Delete id (sessions s)) (expiration s) (ms_heap s) (ms_now s), None).
Definition Mem_Get (id : string) (s : MemStore) : MemStore * (session_error + memptr) :=
  match gc_Get id (ms_now s) (sessions s) with
  | None => (s, inl ErrSessionNotFound)
  | Some p =>
      match ms_heap s !! p with
      | Some o => (s, inr (p, ms_id o))
      | None => (s, inl ErrSessionNotFound)
      end
  end.
(** [Session.Get] and [Session.Set] through a pointer. *)
Definition MemSession_Get (p : memptr) (key : string) (s : MemStore) : session_error + string :=
  match (o ← ms_heap s !! p.1; ms_values o !! key) with
  | Some v => inr v
  | None => inl ErrSessionKeyNotFound
  end.
Definition MemSession_Set (p : memptr) (key val : string) (s : MemStore) : MemStore :=
  mkMemStore (sessions s) (expiration s)
    (alter (fun o => mkMemSession (ms_id o) (<[key := val]> (ms_values o))) p.1 (ms_heap s)) (ms_now s).

#[export] Instance Mem_Store : Store MemStore memptr := {
  Store_Generate := Mem_Generate;
  Store_Refresh := Mem_Refresh;
  Store_Remove := Mem_Remove;
  Store_Get := Mem_Get;
  Session_ID := snd
}.

Lemma Mem_Generate_Get {HL : GoCacheLaws C nat} id s s' p :
  Mem_Generate id s = (s', inr p) -> snd p = id /\ Mem_Get id s' = (s', inr p).
Proof.
  intros [= <- <-]. split; [done|]. unfold Mem_Get. cbn [ms_now sessions ms_heap].
  rewrite gc_Get_Set by lia. by rewrite lookup_app_r, Nat.sub_diag by lia.
Qed.
Lemma NewStore_Get {HL : GoCacheLaws C nat} id expiration now :
  Mem_Get id (NewStore expiration now) = (NewStore expiration now, inl ErrSessionNotFound).
Proof. unfold Mem_Get, NewStore. cbn [ms_now sessions]. by rewrite gc_Get_New. Qed.
#[export] Instance Mem_StoreLaws {HL : GoCacheLaws C nat} : StoreLaws MemStore memptr.
Proof.
  constructor.
  - intros id s s' p. apply Mem_Generate_Get.
  - intros id s. cbn. unfold Mem_Get. destruct (gc_Get _ _ _) as [p|]; [|done].
    by destruct (ms_heap s !! p).
  - intros id s s' p [= <-]. cbn. unfold Mem_Get. cbn [ms_now sessions]. by rewrite gc_Get_Delete.
Qed.
End memory.

(** ** The Redis store *)

(** The commands of [redis.Cmdable] that the store sends. *)
Class RedisHash (R : Type) := {
  HSet : string -> string -> string -> R -> R * (session_error + Z);
  HGet : string -> string -> R -> session_error + string;
  Expire : string -> Z -> R -> R * (session_error + bool);
  Del : string -> R -> R * (session_error + Z);
  Exists : string -> R -> session_error + Z
}.
(** A field that was set is read back. *)
Class RedisHashLaws (R : Type) {HR : RedisHash R} := {
  HGet_HSet : forall key field val r r' n,
    HSet key field val r = (r', inr n) -> HGet key field r' = inr val;
  HSet_count : forall key field val r r' n, HSet key field val r = (r', inr n) -> (0 <= n)%Z
}.

Section redis.
Context {R : Type} {HR : RedisHash R}.

Record RedisStore := mkRedisStore { rs_prefix : string; rs_expiration : Z }.
Record RedisSession := mkRedisSession { rs_id : string; rs_key : string }.
Definition redisKey (prefix id : string) : string := prefix +:+ "-" +:+ id.
Definition StoreWithPrefix (prefix : string) (s : RedisStore) : RedisStore :=
  mkRedisStore prefix (rs_expiration s).
Definition NewRedisStore (opts : list (RedisStore -> RedisStore)) : RedisStore :=
  foldl (fun s opt => opt s) (mkRedisStore "sessId" 900) opts.

Definition Redis_Generate (s : RedisStore) (id : string) (r : R) : R * (session_error + RedisSession) :=
  let key := redisKey (rs_prefix s) id in
  match HSet key id id r with
  | (r, inl err) => (r, inl err)
  | (r, inr _) =>
      match Expire key (rs_expiration s) r with
      | (r, inl err) => (r, inl err)
      | (r, inr _) => (r, inr (mkRedisSession id key))
      end
  end.
Definition Redis_Refresh (s : RedisStore) (id : string) (r : R) : R * option session_error :=
  match Expire (redisKey (rs_prefix s) id) (rs_expiration s) r with
  | (r, inl err) => (r, Some err)
  | (r, inr ok) => (r, if ok : bool then None else Some ErrSessionNotFound)
  end.
Definition Redis_Remove (s : RedisStore) (id : string) (r : R) : R * option session_error :=
  match Del (redisKey (rs_prefix s) id) r with
  | (r, inl err) => (r, Some err)
  | (r, inr _) => (r, None)
  end.
Definition Redis_Get (s : RedisStore) (id : string) (r : R) : session_error + RedisSession :=
  match Exists (redisKey (rs_prefix s) id) r with
  | inl err => inl err
  | inr cnt =>
      if decide (cnt = 1)%Z then inr (mkRedisSession id (redisKey (rs_prefix s) id))
      else inl ErrSessionNotFound
  end.

(** The script of [Session.Set].  In Lua every number is true in a condition,
    zero included. *)
Definition lua_truthy (n : Z) : bool := true.
Definition lua_set (key1 argv1 argv2 : string) (r : R) : R * (session_error + Z) :=
  match Exists key1 r with
  | inl err => (r, inl err)
  | inr n => if lua_truthy n then HSet key1 argv1 argv2 r else (r, inr (-1)%Z)
  end.
(** Both methods name the hash after the key of the value, not of the session. *)
Definition RedisSession_Get (s : RedisSession) (key : string) (r : R) : session_error + string :=
  HGet key key r.
Definition RedisSession_Set (s : RedisSession) (key val : string) (r : R)
  : R * option session_error :=
  match lua_set key key val r with
  | (r, inl err) => (r, Some err)
  | (r, inr res) => (r, if decide (res < 0)%Z then Some ErrSessionNotFound else None)
  end.

(** The values of Redis sessions are not kept apart: when Redis answers, a
    value that one session has set is what every other session, of any id and
    any store, reads under that key; and [Set] succeeds however the script's
    test of existence comes out, so a session that was removed is never
    reported. *)
Lemma RedisSession_shared {HL : RedisHashLaws R} s1 s2 key val r r' n c :
  Exists key r = inr n -> HSet key key val r = (r', inr c) ->
  RedisSession_Set s1 key val r = (r', None) /\ RedisSession_Get s2 key r' = inr val.
Proof.
  intros HE HS. unfold RedisSession_Set, RedisSession_Get, lua_set. rewrite HE. cbn [lua_truthy].
  rewrite HS. pose proof (HSet_count _ _ _ _ _ _ HS). rewrite decide_False by lia.
  split; [done|]. by eapply HGet_HSet.
Qed.
End redis.

(** ** Witnesses *)

(** A cache and a Redis that are maps. *)
#[export] Instance map_gocache : GoCache (gmap string (nat * option Z)) nat := {
  gc_New := fun _ _ => ∅;
  gc_Set := fun k v ttl now c => <[k := (v, if decide (ttl <= 0)%Z then None else Some (now + ttl)%Z)]> c;
  gc_Get := fun k now c =>
    match c !! k with
    | Some (v, Some e) => if decide (e < now)%Z then None else Some v
    | Some (v, None) => Some v
    | None => None
    end;
  gc_Delete := fun k c => delete k c
}.
#[export] Instance map_gocache_laws : GoCacheLaws (gmap string (nat * option Z)) nat.
Proof.
  constructor.
  - intros k now expiration interval. cbn. by rewrite lookup_empty.
  - intros k v ttl now now' c H. cbn. rewrite lookup_insert_eq. case_decide; [done|].
    by rewrite decide_False by lia.
  - intros k now c. cbn. by rewrite lookup_delete_eq.
Qed.
#[export] Instance map_redis : RedisHash (gmap string (gmap string string)) := {
  HSet := fun key field val r =>
    (<[key := <[field := val]> (default ∅ (r !! key))]> r,
     inr (if decide (is_Some (r !! key ≫= (fun h => h !! field))) then 0%Z else 1%Z));
  HGet := fun key field r =>
    match r !! key ≫= (fun h => h !! field) with Some v => inr v | None => inl ErrSessionKeyNotFound end;
  Expire := fun key _ r => (r, inr (bool_decide (is_Some (r !! key))));
  Del := fun key r => (delete key r, inr (if decide (is_Some (r !! key)) then 1%Z else 0%Z));
  Exists := fun key r => inr (if decide (is_Some (r !! key)) then 1%Z else 0%Z)
}.
#[export] Instance map_redis_laws : RedisHashLaws (gmap string (gmap string string)).
Proof.
  constructor.
  - intros key field val r r' n [= <- _]. cbn. rewrite lookup_insert_eq. cbn.
    by rewrite lookup_insert_eq.
  - intros key field val r r' n [= _ <-]. case_decide; lia.
Qed.

Definition login_context : @Context memptr unit :=
  mkContext (mkRequest "POST" "/login" "localhost" "http" ∅ (inr ∅) None []) [] "" 0 ∅ None "" None ∅ [].
Definition empty_store : MemStore (C := gmap string (nat * option Z)) := NewStore 900 0.

Lemma Manager_lifecycle_witness :
  let m := mkManager (NewPropagator []) "sess" in
  let ctx2 := next_context login_context [("sessId", "abc")] in
  let s1 := (Mem_Generate "abc" empty_store).1 in
  exists ctx3, GetSession m ctx2 s1 = (ctx3, s1, inr (0, "abc")) /\
    GetSession m ctx3 s1 = (ctx3, s1, inr (0, "abc")).
Proof.
  intros m ctx2 s1.
  destruct (Manager_lifecycle (HS := Mem_Store) m "abc" login_context [] empty_store
    (Inject (NewPropagator []) "abc" login_context) s1 (0, "abc") ltac:(reflexivity) ltac:(reflexivity)
    ltac:(reflexivity) ltac:(reflexivity))
    as (_ & ctx3 & H1 & H2 & _).
  exists ctx3. split; [exact H1|exact H2].
Defined.

Lemma RedisSession_shared_witness :
  let r : gmap string (gmap string string) := ∅ in
  exists r', RedisSession_Set (mkRedisSession "alice" "sessId-alice") "name" "Alice" r = (r', None) /\
    RedisSession_Get (mkRedisSession "bob" "sessId-bob") "name" r' = inr "Alice".
Proof.
  intros r. eexists.
  apply (RedisSession_shared (mkRedisSession "alice" "sessId-alice") (mkRedisSession "bob" "sessId-bob")
    "name" "Alice" r _ 0%Z 1%Z).
  - reflexivity.
  - reflexivity.
Defined.
