(* ===== verification/Cache.v ===== *)
(** The in-memory cache: [cache/local_cache.go].

    A method is a sequence of critical sections on the map, under a readers-writer
    lock.  The sections are defined once: the methods compose them with the lock,
    and the concurrent semantics interleaves them. *)
From S2P Require Import Prelude.

Inductive cache_error :=
  | ErrNoValue                      (** [errNoValue] *)
  | ErrNoCapacity                   (** [errNoCapacity] *)
  | ErrFailToRefreshCache (er : cache_error)
  | ErrCache (msg : string).        (** an error of a collaborator *)

#[export] Instance cache_error_eq_dec : EqDecision cache_error.
Proof.
  intros x. induction x as [| |x IH|m]; intros [| |y|n]; try (by left); try (right; discriminate).
  - destruct (IH y) as [->|H]; [by left|right; congruence].
  - destruct (decide (m = n)) as [->|H]; [by left|right; congruence].
Defined.

(** ** [sync.RWMutex] *)

Record RWMutex := mkRW { readers : nat; writer : bool }.
Definition unlocked : RWMutex := mkRW 0 false.

Section local.
(** The values, and the state that the eviction callback works on. *)
Context {V E : Type}.

Record item := mkItem { it_val : V; it_expiration : option Z }.
(** [deadlineBefore]; a zero time is no deadline. *)
Definition deadlineBefore (i : item) (t : Z) : bool :=
  match it_expiration i with Some e => bool_decide (e < t)%Z | None => false end.

(** [BuildInMapCache]; [ev] is the state of what [onEvicted] refers to. *)
Record cache := mkCache { data : gmap string item; mutex : RWMutex; ev : E }.
Abbreviation M := (GM cache cache_error).

(** The lock: what would block a single goroutine for ever is a deadlock, and
    unlocking what is not locked is a fatal error of the runtime. *)
Definition set_mutex (m : RWMutex) (c : cache) : cache := mkCache (data c) m (ev c).
Definition Lock : M unit := fun c =>
  if decide (readers (mutex c) = 0 /\ writer (mutex c) = false)
  then Ok (set_mutex (mkRW 0 true) c, inr tt) else Panic (PFatal "deadlock").
Definition Unlock : M unit := fun c =>
  if writer (mutex c) then Ok (set_mutex (mkRW (readers (mutex c)) false) c, inr tt)
  else Panic (PFatal "sync: Unlock of unlocked RWMutex").
Definition RLock : M unit := fun c =>
  if writer (mutex c) then Panic (PFatal "deadlock")
  else Ok (set_mutex (mkRW (S (readers (mutex c))) false) c, inr tt).
Definition RUnlock : M unit := fun c =>
  match readers (mutex c) with
  | O => Panic (PFatal "sync: RUnlock of unlocked RWMutex")
  | S n => Ok (set_mutex (mkRW n (writer (mutex c))) c, inr tt)
  end.
(** [defer d()]: it runs whether the body returns a value or an error. *)
Definition deferred {A} (d : M unit) (m : M A) : M A := fun c =>
  match m c with
  | Ok (c', x) => match d c' with
                  | Ok (c'', _) => Ok (c'', x)
                  | Panic p => Panic p
                  end
  | Panic p => Panic p
  end.

(** ** The critical sections, on the map and the callback's state *)

Section sections.
(** [onEvicted] *)
Context (onEvicted : string -> V -> E -> E).
Abbreviation mstate := (gmap string item * E)%type.

(** [delete] *)
Definition sec_delete (key : string) (s : mstate) : mstate :=
  match s.1 !! key with
  | None => s
  | Some val => (delete key s.1, onEvicted key (it_val val) s.2)
  end.
(** [set] *)
Definition sec_set (key : string) (val : V) (expiration now : Z) (s : mstate) : mstate :=
  (<[key := mkItem val (if decide (0 < expiration)%Z then Some (now + expiration)%Z else None)]> s.1,
   s.2).
(** The second half of [Get], after its check for the key again. *)
Definition sec_get (key : string) (now : Z) (s : mstate) : mstate * (cache_error + V) :=
  match s.1 !! key with
  | None => (s, inl ErrNoValue)
  | Some val => (if deadlineBefore val now then sec_delete key s else s, inr (it_val val))
  end.
(** The loop of the janitor over the keys in the order of the runtime. *)
Fixpoint sec_sweep (i : nat) (keys : list string) (t : Z) (s : mstate) : mstate :=
  match keys with
  | [] => s
  | k :: keys' =>
      if decide (1000 < i) then s
      else
        sec_sweep (S i) keys' t
          (match s.1 !! k with
           | Some v => if deadlineBefore v t then sec_delete k s else s
           | None => s
           end)
  end.

(** A section run by the goroutine that holds the lock. *)
Definition section {A} (f : mstate -> mstate * (cache_error + A)) : M A := fun c =>
  let '((d, e), x) := f (data c, ev c) in Ok (mkCache d (mutex c) e, x).
Definition section_ (f : mstate -> mstate) : M unit := section (fun s => (f s, inr tt)).

(** ** The methods *)

Definition NewBuildInMapCache (e : E) : cache := mkCache ∅ unlocked e.
(** The option sets [onEvicted], which does nothing by default. *)
Definition BuildInMapCacheOption : Type := (string -> V -> E -> E) -> (string -> V -> E -> E).
Definition BuildInMapCacheWithEvictCallBack (fn : string -> V -> E -> E) : BuildInMapCacheOption := fun _ => fn.
Definition callback_of (opts : list BuildInMapCacheOption) : string -> V -> E -> E :=
  foldl (fun f opt => opt f) (fun _ _ e => e) opts.

Definition Set_ (key : string) (val : V) (expiration now : Z) : M unit :=
  Lock ;; deferred Unlock (section_ (sec_set key val expiration now)).
Definition Get (key : string) (now : Z) : M V :=
  RLock ;; c ← gm_get; RUnlock ;;
  match data c !! key with
  | None => gm_err ErrNoValue
  | Some _ => Lock ;; deferred Unlock (section (sec_get key now))
  end.
Definition Delete (key : string) : M V :=
  RLock ;;
  deferred Unlock (
    c ← gm_get; RUnlock ;;
    match data c !! key with
    | None => gm_err ErrNoValue
    | Some res => Lock ;; section_ (sec_delete key) ;; mret (it_val res)
    end).
(** One tick of the janitor; [keys] is the order in which it ranges. *)
Definition janitor (keys : list string) (t : Z) : M unit :=
  Lock ;; section_ (sec_sweep 0 keys t) ;; Unlock.

(** [Close] hands a token to the goroutine of the janitor, which ends; a second
    one waits for ever ([None]). *)
Definition Close (janitor_running : bool) : option bool :=
  if janitor_running then Some false else None.

(** ** What one goroutine sees *)

Lemma section_unlocked {A} (f : mstate -> mstate * (cache_error + A)) c :
  mutex c = unlocked ->
  (Lock ;; deferred Unlock (section f)) c =
  let '((d, e), x) := f (data c, ev c) in Ok (mkCache d unlocked e, x).
Proof.
  intros Hm. rewrite GM_bind_eq. unfold Lock. rewrite Hm. rewrite decide_True by done.
  unfold deferred, section. cbn [data ev set_mutex mutex].
  by destruct (f (data c, ev c)) as [[d e] x].
Qed.

Lemma Get_eq key now c :
  mutex c = unlocked ->
  Get key now c =
  let '((d, e), x) := sec_get key now (data c, ev c) in Ok (mkCache d unlocked e, x).
Proof.
  intros Hm. unfold Get. rewrite GM_bind_eq. unfold RLock. rewrite Hm. cbn [unlocked writer].
  rewrite GM_bind_eq. cbn [gm_get]. rewrite GM_bind_eq. unfold RUnlock. cbn [set_mutex mutex readers].
  cbn [data ev set_mutex mutex readers writer unlocked].
  destruct (data c !! key) as [v|] eqn:Ek.
  - rewrite section_unlocked by done. done.
  - unfold sec_get. cbn [fst]. rewrite Ek. destruct c. simpl in *. by subst.
Qed.

Lemma Set_eq key val exp now c :
  mutex c = unlocked ->
  Set_ key val exp now c =
  Ok (mkCache (sec_set key val exp now (data c, ev c)).1 unlocked (ev c), inr tt).
Proof. intros Hm. unfold Set_, section_. by rewrite section_unlocked. Qed.

Lemma Delete_eq key c :
  mutex c = unlocked ->
  Delete key c =
  match data c !! key with
  | None => Panic (PFatal "sync: Unlock of unlocked RWMutex")
  | Some res => Ok (mkCache (delete key (data c)) unlocked (onEvicted key (it_val res) (ev c)),
                    inr (it_val res))
  end.
Proof.
  intros Hm. unfold Delete. rewrite GM_bind_eq. unfold RLock. rewrite Hm. cbn [unlocked writer].
  unfold deferred. rewrite GM_bind_eq. cbn [gm_get]. rewrite GM_bind_eq. unfold RUnlock.
  cbn [set_mutex mutex readers data ev]. destruct (data c !! key) as [v|] eqn:Ek; [|done].
  rewrite GM_bind_eq. unfold Lock. cbn [mutex readers writer set_mutex data ev].
  rewrite decide_True by done. rewrite GM_bind_eq. unfold section_, section. cbn [data ev].
  unfold sec_delete. cbn [fst snd set_mutex data ev]. by rewrite Ek.
Qed.

(** One goroutine on an unlocked cache.  After [Set], [Get] gives the value
    and changes nothing until the deadline has passed, for ever when there is no
    deadline.  After the deadline the first [Get] still returns the expired
    value, while it evicts it through the callback, and the next one reports
    that there is no value.  [Delete] of a present key evicts it and returns its
    value; [Delete] of an absent key does not return its error: the deferred
    unlock of the mutex it does not hold is fatal. *)
Lemma local_cache_spec key val exp t0 c :
  mutex c = unlocked ->
  exists c1, Set_ key val exp t0 c = Ok (c1, inr tt) /\ mutex c1 = unlocked /\
    (forall t, (exp <= 0 \/ t <= t0 + exp)%Z -> Get key t c1 = Ok (c1, inr val)) /\
    (forall t t', (0 < exp)%Z -> (t0 + exp < t)%Z ->
       exists c2, Get key t c1 = Ok (c2, inr val) /\
         ev c2 = onEvicted key val (ev c1) /\ Get key t' c2 = Ok (c2, inl ErrNoValue)) /\
    exists c3, Delete key c1 = Ok (c3, inr val) /\ mutex c3 = unlocked /\ data c3 = delete key (data c) /\
      Delete key c3 = Panic (PFatal "sync: Unlock of unlocked RWMutex").
Proof.
  intros Hm. rewrite Set_eq by done. unfold sec_set. cbn [fst].
  eexists. split; [reflexivity|]. split; [done|]. split_and!.
  - intros t Ht. rewrite Get_eq by done. unfold sec_get. cbn [data ev fst]. rewrite lookup_insert_eq.
    assert (deadlineBefore (mkItem val (if decide (0 < exp)%Z then Some (t0 + exp)%Z else None)) t = false) as ->; [|done].
    unfold deadlineBefore. cbn. case_decide; [|done]. apply bool_decide_eq_false_2. lia.
  - intros t t' He Ht. rewrite Get_eq by done. unfold sec_get. cbn [data ev fst]. rewrite lookup_insert_eq.
    assert (deadlineBefore (mkItem val (if decide (0 < exp)%Z then Some (t0 + exp)%Z else None)) t = true) as ->.
    { unfold deadlineBefore. cbn. rewrite decide_True by done. apply bool_decide_eq_true_2. lia. }
    unfold sec_delete. cbn [fst snd]. rewrite lookup_insert_eq. eexists. split; [reflexivity|].
    split; [done|]. rewrite Get_eq by done. unfold sec_get. cbn [data ev fst].
    by rewrite lookup_delete_eq.
  - rewrite Delete_eq by done. cbn [data]. rewrite lookup_insert_eq. eexists. split; [reflexivity|].
    cbn [mutex data]. split_and!; [done|by rewrite delete_insert_eq|].
    rewrite Delete_eq by done. cbn [data]. by rewrite lookup_delete_eq.
Qed.
End sections.
End local.
Lemma local_cache_spec_witness :
  let evict := fun k (v : nat) e => e ++ [(k, v)] in
  let c : cache := NewBuildInMapCache [] in
  exists c1, Set_ "k" 7 10 0 c = Ok (c1, inr tt) /\
    Get evict "k" 10 c1 = Ok (c1, inr 7).
Proof.
  intros evict c.
  destruct (local_cache_spec evict "k" 7 10 0 c eq_refl) as (c1 & HS & _ & HG & _).
  exists c1. split; [exact HS|]. apply HG. lia.
Defined.
