(* ===== verification/CacheConc.v ===== *)
(** Goroutines on one cache: [cache/local_cache.go] under every interleaving.

    A call takes and gives back the lock in steps of its own, and what it does
    under the write lock takes two: it looks at the map, and later it leaves it
    changed.  That nothing comes between is a consequence of the lock, which
    [cache_linearizable] proves, and not of the model; it fails once a [Delete]
    of an absent key unlocks a lock it does not hold ([missed_loses_update]).
    [Set] is what the cache has for it: that of [local_cache.go] ([plain_set]),
    or that of the bounded cache, which [MaxCnt] puts in its place.  The lock does
    what the documentation of [sync.RWMutex] says. *)
From S2P Require Import Prelude Cache.

(** [BuildInMapCache.set], which never fails. *)
Definition plain_set {V E : Type} (key : string) (val : V) (expiration now : Z)
    (s : gmap string (item (V := V)) * E) : gmap string (item (V := V)) * E * (cache_error + unit) :=
  (sec_set key val expiration now s, inr tt).

Section conc.
Context {V E : Type} (onEvicted : string -> V -> E -> E).
Abbreviation mstate := (gmap string (item (V := V)) * E)%type.
(** What [Set] does under the write lock. *)
Context (setting : string -> V -> Z -> Z -> mstate -> mstate * (cache_error + unit)).
(** What a call returns: an error, nothing, or a value. *)
Abbreviation res := (cache_error + option V)%type.

(** The calls; a tick of the janitor came at some time, which it read before it
    waited for the lock, and it ranges over the keys in some order. *)
Inductive op :=
  | OSet (key : string) (val : V) (expiration : Z)
  | OGet (key : string)
  | ODelete (key : string)
  | OSweep (keys : list string) (t : Z).

(** Where a goroutine is in its call; [o] is what it read under the read lock. *)
Inductive pc :=
  | PIdle
  | PReading                                 (** it holds the read lock *)
  | PRead (o : option (item (V := V)))       (** it still holds it *)
  | PWant (o : option (item (V := V)))       (** it waits for the write lock *)
  | PLocked (o : option (item (V := V)))     (** it holds the write lock *)
  | PInside (o : option (item (V := V))) (s : mstate)
  | PUnlocking (x : res)                     (** it still holds it *)
  | PMissed                                  (** a [Delete] about to run its deferred [Unlock] *)
  | PDone (x : res).

(** ** The operations as if they were atomic *)

Inductive sop :=
  | SSet (key : string) (val : V) (expiration now : Z)
  | SGet (key : string) (now : Z)
  | SPeek (key : string)
  | SRemove (key : string)
  | SSweep (keys : list string) (now : Z).
Definition value_of (x : cache_error + V) : res := match x with inl e => inl e | inr v => inr (Some v) end.
Definition nothing (x : cache_error + unit) : res := match x with inl e => inl e | inr _ => inr None end.
Definition peeked (o : option (item (V := V))) : res :=
  match o with None => inl ErrNoValue | Some i => inr (Some (it_val i)) end.
Definition spec (a : sop) (s : mstate) : mstate * res :=
  match a with
  | SSet key val exp now => let '(s', x) := setting key val exp now s in (s', nothing x)
  | SGet key now => let '(s', x) := sec_get onEvicted key now s in (s', value_of x)
  | SPeek key => (s, peeked (s.1 !! key))
  | SRemove key => (sec_delete onEvicted key s, inr None)
  | SSweep keys now => (sec_sweep onEvicted 0 keys now s, inr None)
  end.
(** A sequence of atomic operations with their results. *)
Inductive legal : list (sop * res) -> mstate -> mstate -> Prop :=
  | legal_nil s : legal [] s s
  | legal_snoc h s s1 a s2 x : legal h s s1 -> spec a s1 = (s2, x) -> legal (h ++ [(a, x)]) s s2.

(** ** The steps of the code *)

(** The operation a call performs under the write lock, and what it returns. *)
Definition body (o : op) (now : Z) : sop :=
  match o with
  | OSet key val exp => SSet key val exp now
  | OGet key => SGet key now
  | ODelete key => SRemove key
  | OSweep keys t => SSweep keys t
  end.
Definition answer (o : op) (read : option (item (V := V))) (x : res) : res :=
  match o with ODelete _ => peeked read | _ => x end.
Definition key_of (o : op) : string :=
  match o with OSet key _ _ | OGet key | ODelete key => key | OSweep _ _ => "" end.

(** What a step is seen to do: an atomic operation of a goroutine, the unlock
    of a [Delete] that does not hold the lock, or nothing. *)
Inductive label :=
  | LOp (i : nat) (a : sop) (x : res)
  | LMiss (i : nat)
  | LTau.

(** A [Get] that finds nothing and a [Delete] look at the map with effect. *)
Definition read_label (i : nat) (o : op) (now : Z) (read : option (item (V := V))) : label :=
  match o, read with
  | OGet key, None => LOp i (SGet key now) (inl ErrNoValue)
  | ODelete key, _ => LOp i (SPeek key) (peeked read)
  | _, _ => LTau
  end.
(** Where a goroutine goes when it gives the read lock back. *)
Definition after_read (o : op) (read : option (item (V := V))) : pc :=
  match read, o with
  | Some _, _ => PWant read
  | None, ODelete _ => PMissed
  | None, _ => PDone (inl ErrNoValue)
  end.

(** One step of goroutine [i]; [None] when it waits. *)
Definition acquire (m : RWMutex) : option RWMutex :=
  if decide (readers m = 0 /\ writer m = false) then Some (mkRW 0 true) else None.
Definition advance (i : nat) (o : op) (p : pc) (now : Z) (c : cache (V := V) (E := E))
  : option (go (cache (V := V) (E := E) * pc * label)) :=
  let lock read := m ← acquire (mutex c); Some (Ok (set_mutex m c, PLocked read, LTau)) in
  match p with
  | PIdle =>
      match o with
      | OSet _ _ _ | OSweep _ _ => lock None
      | OGet _ | ODelete _ =>
          if writer (mutex c) then None
          else Some (Ok (set_mutex (mkRW (S (readers (mutex c))) false) c, PReading, LTau))
      end
  | PReading =>
      let read := data c !! key_of o in
      Some (Ok (c, PRead read, read_label i o now read))
  | PRead read =>
      match readers (mutex c) with
      | O => Some (Panic (PFatal "sync: RUnlock of unlocked RWMutex"))
      | S n =>
          Some (Ok (set_mutex (mkRW n (writer (mutex c))) c, after_read o read, LTau))
      end
  | PWant read => lock read
  | PLocked read => Some (Ok (c, PInside read (data c, ev c), LTau))
  | PInside read s =>
      let '((d, e), x) := spec (body o now) s in
      Some (Ok (mkCache d (mutex c) e, PUnlocking (answer o read x), LOp i (body o now) x))
  | PUnlocking x =>
      if writer (mutex c) then Some (Ok (set_mutex (mkRW (readers (mutex c)) false) c, PDone x, LTau))
      else Some (Panic (PFatal "sync: Unlock of unlocked RWMutex"))
  | PMissed =>
      if writer (mutex c)
      then Some (Ok (set_mutex (mkRW (readers (mutex c)) false) c, PDone (inl ErrNoValue), LMiss i))
      else Some (Panic (PFatal "sync: Unlock of unlocked RWMutex"))
  | PDone _ => None
  end.

Record world := mkWorld { w_c : cache (V := V) (E := E); w_now : Z; w_gs : list (op * pc) }.
Inductive step : world -> label -> world -> Prop :=
  | step_go i o p c now gs c' p' l :
      gs !! i = Some (o, p) -> advance i o p now c = Some (Ok (c', p', l)) ->
      step (mkWorld c now gs) l (mkWorld c' now (<[i := (o, p')]> gs))
  | step_time c now now' gs :
      (now <= now')%Z -> step (mkWorld c now gs) LTau (mkWorld c now' gs).
Definition initial (ops : list op) (e : E) (now : Z) : world :=
  mkWorld (NewBuildInMapCache e) now ((fun o => (o, PIdle)) <$> ops).
Inductive run (w0 : world) : list label -> world -> Prop :=
  | run_nil : run w0 [] w0
  | run_snoc tr w l w' : run w0 tr w -> step w l w' -> run w0 (tr ++ [l]) w'.

(** The atomic operations of a run, and those of one goroutine. *)
Definition history (tr : list label) : list (sop * res) :=
  omap (fun l => match l with LOp _ a x => Some (a, x) | _ => None end) tr.
Definition history_of (i : nat) (tr : list label) : list (sop * res) :=
  omap (fun l => match l with LOp j a x => if decide (i = j) then Some (a, x) else None | _ => None end) tr.

(** A call that returned [x] is explained by its operations: [Set], [Get] and a
    tick by a single one that gave [x]; a [Delete] by a look at the key and, when
    it was there, by a later removal. *)
Definition explained (o : op) (x : res) (h : list (sop * res)) : Prop :=
  match o with
  | OSet key val exp => exists now, h = [(SSet key val exp now, x)]
  | OGet key => exists now, h = [(SGet key now, x)]
  | OSweep keys t => h = [(SSweep keys t, x)]
  | ODelete key =>
      (x = inl ErrNoValue /\ h = [(SPeek key, x)]) \/
      (exists v, x = inr (Some v) /\ h = [(SPeek key, x); (SRemove key, inr None)])
  end.
(** And on the way there. *)
Definition told (o : op) (p : pc) (h : list (sop * res)) : Prop :=
  match o, p with
  | _, (PUnlocking x | PDone x) => explained o x h
  | _, PIdle => h = []
  | (OSet _ _ _ | OSweep _ _), (PLocked _ | PInside _ _) => h = []
  | (OSet _ _ _ | OSweep _ _), _ => False
  | OGet key, PRead None => exists now, h = [(SGet key now, inl ErrNoValue)]
  | OGet _, PMissed => False
  | OGet _, _ => h = []
  | ODelete _, PReading => h = []
  | ODelete key, PRead read => h = [(SPeek key, peeked read)]
  | ODelete key, (PWant read | PLocked read | PInside read _) =>
      h = [(SPeek key, peeked read)] /\ is_Some read
  | ODelete key, PMissed => h = [(SPeek key, inl ErrNoValue)]
  end.

(** ** The lock and the goroutines *)

Definition reading (p : pc) : nat := match p with PReading | PRead _ => 1 | _ => 0 end.
Definition holding (p : pc) : nat := match p with PLocked _ | PInside _ _ | PUnlocking _ => 1 | _ => 0 end.
Definition total (f : pc -> nat) (gs : list (op * pc)) : nat := sum_list_with (fun g => f g.2) gs.
Arguments total : simpl never.

Record lock_inv (w : world) : Prop := {
  inv_readers : readers (mutex (w_c w)) = total reading (w_gs w);
  inv_writer : (if writer (mutex (w_c w)) then 1 else 0) = total holding (w_gs w);
  inv_excl : writer (mutex (w_c w)) = true -> readers (mutex (w_c w)) = 0;
  inv_inside : forall i o read s,
    w_gs w !! i = Some (o, PInside read s) -> s = (data (w_c w), ev (w_c w))
}.

Lemma total_insert f gs i o p p' :
  gs !! i = Some (o, p) -> total f (<[i := (o, p')]> gs) + f p = total f gs + f p'.
Proof. intros Hi. exact (sum_list_insert (fun g => f g.2) gs i (o, p) (o, p') Hi). Qed.
Lemma total_lookup f gs i o p : gs !! i = Some (o, p) -> f p <= total f gs.
Proof. intros Hi. exact (sum_list_lookup (fun g => f g.2) gs i (o, p) Hi). Qed.
Lemma total_two f gs i j o p o' p' :
  i <> j -> gs !! i = Some (o, p) -> gs !! j = Some (o', p') -> f p + f p' <= total f gs.
Proof. intros Hne Hi Hj. exact (sum_list_two (fun g => f g.2) gs i j _ _ Hne Hi Hj). Qed.

Lemma initial_lock_inv ops e now : lock_inv (initial ops e now).
Proof.
  assert (forall f, f PIdle = 0 -> total f ((fun o => (o, PIdle)) <$> ops) = 0) as K.
  { intros f Hf. unfold total. induction ops as [|o ops IH]; [done|]. rewrite fmap_cons.
    cbn [sum_list_with snd]. by rewrite Hf, IH. }
  constructor; cbn.
  - by rewrite K.
  - by rewrite K.
  - done.
  - intros i o read s Hi. by apply list_lookup_fmap_Some in Hi as (o' & [= _ <-] & _).
Qed.

(** What a step makes of the cache and the lock, by the place it starts from. *)
Variant advanced (o : op) (now : Z) (c : cache (V := V) (E := E)) (i : nat) :
    pc -> cache (V := V) (E := E) -> pc -> label -> Prop :=
  | adv_rlock :
      (match o with OGet _ | ODelete _ => True | _ => False end) -> writer (mutex c) = false ->
      advanced o now c i PIdle (set_mutex (mkRW (S (readers (mutex c))) false) c) PReading LTau
  | adv_read :
      advanced o now c i PReading c (PRead (data c !! key_of o)) (read_label i o now (data c !! key_of o))
  | adv_runlock read n :
      readers (mutex c) = S n ->
      advanced o now c i (PRead read) (set_mutex (mkRW n (writer (mutex c))) c) (after_read o read) LTau
  | adv_lock p read :
      (p = PWant read \/ (p = PIdle /\ read = None /\ match o with OSet _ _ _ | OSweep _ _ => True | _ => False end)) ->
      readers (mutex c) = 0 -> writer (mutex c) = false ->
      advanced o now c i p (set_mutex (mkRW 0 true) c) (PLocked read) LTau
  | adv_enter read :
      advanced o now c i (PLocked read) c (PInside read (data c, ev c)) LTau
  | adv_body read s d e x :
      spec (body o now) s = ((d, e), x) ->
      advanced o now c i (PInside read s) (mkCache d (mutex c) e) (PUnlocking (answer o read x))
        (LOp i (body o now) x)
  | adv_unlock x :
      writer (mutex c) = true ->
      advanced o now c i (PUnlocking x) (set_mutex (mkRW (readers (mutex c)) false) c) (PDone x) LTau
  | adv_miss :
      writer (mutex c) = true ->
      advanced o now c i PMissed (set_mutex (mkRW (readers (mutex c)) false) c)
        (PDone (inl ErrNoValue)) (LMiss i).

Lemma advance_cases i o p now c c' p' l :
  advance i o p now c = Some (Ok (c', p', l)) -> advanced o now c i p c' p' l.
Proof.
  assert (forall q read, (q = PWant read \/ (q = PIdle /\ read = None /\ match o with OSet _ _ _ | OSweep _ _ => True | _ => False end)) ->
    (m ← acquire (mutex c); Some (Ok (set_mutex m c, PLocked read, LTau))) = Some (Ok (c', p', l)) ->
    advanced o now c i q c' p' l) as K.
  { intros q read Hq. unfold acquire. case_decide as Hm; [|done]. destruct Hm as [Hr Hw].
    intros [= <- <- <-]. by apply adv_lock. }
  destruct p as [| |read|read|read|read s|x| |x]; cbn [advance].
  - destruct o; try (apply K; right; done).
    all: destruct (writer (mutex c)) eqn:Hw; [done|]; intros [= <- <- <-]; by apply adv_rlock.
  - intros [= <- <- <-]. apply adv_read.
  - destruct (readers (mutex c)) as [|n] eqn:Hr; [done|]. intros [= <- <- <-]. by apply adv_runlock.
  - apply K. by left.
  - intros [= <- <- <-]. apply adv_enter.
  - destruct (spec (body o now) s) as [[d e] x] eqn:Hs. intros [= <- <- <-]. by apply adv_body.
  - destruct (writer (mutex c)) eqn:Hw; [|done]. intros [= <- <- <-]. by apply adv_unlock.
  - destruct (writer (mutex c)) eqn:Hw; [|done]. intros [= <- <- <-]. by apply adv_miss.
  - done.
Qed.

Lemma after_read_counts o read : reading (after_read o read) = 0 /\ holding (after_read o read) = 0.
Proof. by destruct read, o. Qed.

(** Steps other than a missed unlock keep the lock and the counts in step. *)
Lemma advanced_counts o now c i p c' p' l gs :
  advanced o now c i p c' p' l -> (forall j, l <> LMiss j) -> gs !! i = Some (o, p) ->
  readers (mutex c) = total reading gs -> (if writer (mutex c) then 1 else 0) = total holding gs ->
  (writer (mutex c) = true -> readers (mutex c) = 0) ->
  let gs' := <[i := (o, p')]> gs in
  readers (mutex c') = total reading gs' /\ (if writer (mutex c') then 1 else 0) = total holding gs' /\
  (writer (mutex c') = true -> readers (mutex c') = 0).
Proof.
  intros Hadv Hl Hi I1 I2 I3 gs'.
  pose proof (total_insert reading gs i o p p' Hi) as TR. pose proof (total_insert holding gs i o p p' Hi) as TH.
  fold gs' in TR, TH.
  destruct Hadv as [Ho Hw| |read n Hr|p read Hp Hr Hw|read|read s d e x Hs|x Hw|Hw];
    cbn [reading holding mutex set_mutex readers writer] in *.
  - rewrite Hw in I2. split_and!; [lia..|done].
  - split_and!; [lia..|done].
  - destruct (after_read_counts o read) as [E1 E2]. rewrite E1 in TR. rewrite E2 in TH.
    destruct (writer (mutex c)); [specialize (I3 eq_refl)|]; split_and!; lia.
  - assert (reading p = 0 /\ holding p = 0) as [E1 E2] by (by destruct Hp as [->|[-> _]]).
    rewrite E1 in TR. rewrite E2 in TH. rewrite Hw in I2. split_and!; lia.
  - split_and!; [lia..|done].
  - split_and!; [lia..|done].
  - rewrite Hw in I2. specialize (I3 Hw). split_and!; [lia..|done].
  - by destruct (Hl i).
Qed.

(** A goroutine inside still sees the map as it is: nobody else writes. *)
Lemma advanced_inside o now c i p c' p' l gs j o' read s :
  advanced o now c i p c' p' l -> gs !! i = Some (o, p) ->
  (if writer (mutex c) then 1 else 0) = total holding gs ->
  (forall j o read s, gs !! j = Some (o, PInside read s) -> s = (data c, ev c)) ->
  <[i := (o, p')]> gs !! j = Some (o', PInside read s) -> s = (data c', ev c').
Proof.
  intros Hadv Hi I2 I4 Hj. apply (lookup_update _ _ _ _ _ _ Hi) in Hj as [[-> [= -> Hp']]|[Hne Hj]].
  - destruct Hadv as [ | |read' n Hr| |read'| | | ]; try done; [|by injection Hp' as _ ->].
    by destruct read', o.
  - pose proof (total_two holding gs i j _ _ _ _ Hne Hi Hj) as Htwo. pose proof (I4 _ _ _ _ Hj) as ->.
    destruct Hadv; try done. cbn in Htwo. destruct (writer (mutex c)); lia.
Qed.

(** A run without a missed unlock keeps the lock and the goroutines in step. *)
Lemma lock_inv_step w l w' : step w l w' -> (forall i, l <> LMiss i) -> lock_inv w -> lock_inv w'.
Proof.
  intros [i o p c now gs c' p' l' Hi Ha|c now now' gs _] Hl [I1 I2 I3 I4]; [|by split]. cbn in *.
  pose proof (advance_cases _ _ _ _ _ _ _ _ Ha) as Hadv.
  destruct (advanced_counts _ _ _ _ _ _ _ _ gs Hadv Hl Hi I1 I2 I3) as (J1 & J2 & J3).
  constructor; cbn; [done..|]. intros j o' read s Hj. by eapply advanced_inside.
Qed.
Lemma lock_inv_run w tr w' :
  run w tr w' -> (forall i, LMiss i ∉ tr) -> lock_inv w -> lock_inv w'.
Proof.
  intros Hrun Hm Hi. induction Hrun as [|tr w1 l w2 Hrun IH Hst]; [done|].
  apply (lock_inv_step _ _ _ Hst).
  - intros i ->. apply (Hm i), elem_of_app. right. constructor.
  - apply IH. intros i Hin. apply (Hm i), elem_of_app. by left.
Qed.

(** ** The history *)

Definition label_ops (l : label) : list (sop * res) :=
  match l with LOp _ a x => [(a, x)] | _ => [] end.
Lemma history_snoc tr l : history (tr ++ [l]) = history tr ++ label_ops l.
Proof. unfold history. rewrite omap_app. by destruct l. Qed.
Lemma history_of_snoc i tr l :
  history_of i (tr ++ [l]) =
  history_of i tr ++ match l with LOp j a x => if decide (i = j) then [(a, x)] else [] | _ => [] end.
Proof. unfold history_of. rewrite omap_app. destruct l; try done. cbn. by case_decide. Qed.

(** A step performs the operation of its label at once. *)
Lemma advanced_spec o now c i p c' p' l :
  advanced o now c i p c' p' l -> (forall read s, p = PInside read s -> s = (data c, ev c)) ->
  match l with
  | LOp j a x => j = i /\ spec a (data c, ev c) = ((data c', ev c'), x)
  | _ => data c' = data c /\ ev c' = ev c
  end.
Proof.
  intros [Ho Hw| |read n Hr|q read Hp Hr Hw|read|read s d e x Hs|x Hw|Hw] Hin; try done.
  - unfold read_label. destruct o as [k v e|key|key|ks t]; [by split| |by split|by split].
    cbn [key_of]. destruct (data c !! key) as [it|] eqn:Ek; [by split|]. split; [done|].
    cbn. unfold sec_get. cbn [fst]. by rewrite Ek.
  - rewrite (Hin read s eq_refl) in Hs. by split.
Qed.

Lemma advanced_told o now c i p c' p' l h :
  advanced o now c i p c' p' l -> told o p h -> told o p' (h ++ label_ops l).
Proof.
  intros [Ho Hw| |read n Hr|q read Hp Hr Hw|read|read s d e x Hs|x Hw|Hw].
  - destruct o; cbn; try done; intros ->; done.
  - destruct o as [k v e|key|key|ks t]; cbn; try done.
    + intros ->. destruct (data c !! key); cbn; [done|]. by exists now.
    + by intros ->.
  - destruct o as [k v e|key|key|ks t]; cbn [told]; try done; rewrite app_nil_r; destruct read; cbn; try done.
    all: naive_solver.
  - rewrite app_nil_r. destruct Hp as [->|(-> & -> & Ho)]; destruct o; cbn; try done.
  - rewrite app_nil_r. by destruct o.
  - destruct o as [key val exp|key|key|keys t]; cbn [told body answer label_ops explained].
    + intros ->. by exists now.
    + intros ->. by exists now.
    + intros [-> [it ->]]. right. exists (it_val it). split; [done|]. cbn. by injection Hs as _ <-.
    + by intros ->.
  - rewrite app_nil_r. by destruct o.
  - rewrite app_nil_r. destruct o; cbn; try done. intros ->. by left.
Qed.

Lemma run_history w0 tr w e now ops :
  w0 = initial ops e now -> run w0 tr w -> (forall i, LMiss i ∉ tr) ->
  legal (history tr) (∅, e) (data (w_c w), ev (w_c w)) /\
  forall i o p, w_gs w !! i = Some (o, p) -> told o p (history_of i tr).
Proof.
  intros -> Hrun. induction Hrun as [|tr w l w' Hrun IH Hst]; intros Hm.
  - split; [constructor|]. intros i o p Hi. cbn in Hi.
    apply list_lookup_fmap_Some in Hi as (o' & [= -> ->] & _). by destruct o'.
  - assert (forall i, LMiss i ∉ tr) as Hm' by (intros i Hin; apply (Hm i), elem_of_app; by left).
    destruct (IH Hm') as [HL HT]. pose proof (lock_inv_run _ _ _ Hrun Hm' (initial_lock_inv _ _ _)) as HI.
    rewrite history_snoc. destruct Hst as [i o p c n gs c' p' l Hi Ha|c n n' gs _].
    2: { cbn [label_ops]. rewrite app_nil_r. split; [done|]. intros i o p Hi. rewrite history_of_snoc, app_nil_r. by apply HT. }
    pose proof (advance_cases _ _ _ _ _ _ _ _ Ha) as Hadv. cbn [w_c w_gs] in *.
    pose proof (advanced_spec _ _ _ _ _ _ _ _ Hadv (fun read s E => inv_inside _ HI i o read s (eq_trans Hi (f_equal (fun q => Some (o, q)) E)))) as Hs.
    split.
    + destruct l as [j a x|j|]; cbn [label_ops].
      * destruct Hs as [-> Hs]. by apply legal_snoc with (data c, ev c).
      * rewrite app_nil_r. destruct Hs as [-> ->]. done.
      * rewrite app_nil_r. destruct Hs as [-> ->]. done.
    + intros j oj q Hj. rewrite history_of_snoc.
      apply (lookup_update _ _ _ _ _ _ Hi) in Hj as [[<- [= -> ->]]|[Hne Hj]].
      * pose proof (advanced_told _ _ _ _ _ _ _ _ _ Hadv (HT _ _ _ Hi)) as K.
        destruct l as [j a x|j|]; try done. destruct Hs as [-> _]. by rewrite decide_True.
      * destruct l as [k a x|k|]; rewrite ?app_nil_r; try by apply HT.
        destruct Hs as [-> _]. rewrite decide_False, app_nil_r by done. by apply HT.
Qed.

(** ** Nobody is stuck *)

Definition can_step (w : world) : Prop :=
  exists i o p a, w_gs w !! i = Some (o, p) /\ advance i o p (w_now w) (w_c w) = Some a.

Lemma inv_no_fatal w i o p f :
  lock_inv w -> w_gs w !! i = Some (o, p) -> p <> PMissed ->
  advance i o p (w_now w) (w_c w) <> Some (Panic f).
Proof.
  intros [I1 I2 I3 I4] Hi Hp. pose proof (total_lookup reading _ _ _ _ Hi) as TR.
  pose proof (total_lookup holding _ _ _ _ Hi) as TH. rewrite <-I1 in TR. rewrite <-I2 in TH.
  assert (forall read, (m ← acquire (mutex (w_c w)); Some (Ok (set_mutex m (w_c w), PLocked read, LTau)))
    <> Some (Panic f)) as K by (intros read; unfold acquire; by case_decide).
  destruct p as [| |read|read|read|read s|x| |x]; cbn [advance reading holding] in *; try done.
  - destruct o; try apply K. all: by destruct (writer (mutex (w_c w))).
  - destruct (readers (mutex (w_c w))); [lia|done].
  - by destruct (spec (body o (w_now w)) s) as [[d e] x].
  - destruct (writer (mutex (w_c w))); [done|lia].
Qed.

(** Who holds the lock can go on. *)
Lemma holder_steps w i o p :
  w_gs w !! i = Some (o, p) -> 0 < reading p + holding p -> can_step w.
Proof.
  intros Hi Hp. exists i, o, p. destruct p as [| |read|read|read|read s|x| |x]; cbn in *; try lia.
  all: try (eexists; by split).
  - destruct (readers (mutex (w_c w))); eexists; by split.
  - destruct (spec (body o (w_now w)) s) as [[d e] x]. eexists; by split.
  - destruct (writer (mutex (w_c w))); eexists; by split.
Qed.
Lemma inv_progress w i o p :
  lock_inv w -> w_gs w !! i = Some (o, p) -> (forall x, p <> PDone x) -> can_step w.
Proof.
  intros [I1 I2 I3 I4] Hi Hp.
  assert (forall f, 0 < total f (w_gs w) -> exists j oj pj, w_gs w !! j = Some (oj, pj) /\ 0 < f pj) as T.
  { intros f Hf. destruct (sum_list_pos (fun g => f g.2) (w_gs w) Hf) as (j & [oj pj] & Hj & Hpos). eauto. }
  destruct (decide (0 < reading p + holding p)) as [Hh|Hh]; [by eapply holder_steps|].
  destruct (writer (mutex (w_c w))) eqn:Hw.
  { destruct (T holding) as (j & oj & pj & Hj & Hpos); [lia|]. apply (holder_steps w j oj pj Hj). lia. }
  destruct (readers (mutex (w_c w))) as [|n] eqn:Hr.
  2: { destruct (T reading) as (j & oj & pj & Hj & Hpos); [lia|]. apply (holder_steps w j oj pj Hj). lia. }
  assert (acquire (mutex (w_c w)) = Some (mkRW 0 true)) as Ha by (unfold acquire; by rewrite Hr, Hw).
  exists i, o, p. destruct p as [| |read|read|read|read s|x| |x]; cbn in *; try lia.
  - destruct o; rewrite ?Ha, ?Hw; eexists; by split.
  - rewrite Ha. eexists; by split.
  - rewrite Hw. eexists; by split.
  - by destruct (Hp x).
Qed.

(** C19. Any number of goroutines that set, get, delete and sweep one cache, in
    any interleaving in which no [Delete] has unlocked a lock that it does not
    hold.  What the cache contains and what its callback has seen is the result
    of a sequence of atomic operations, in the order in which the steps of the
    run take effect, with the [Set] of the local cache or of the bounded one;
    [Set], [Get] and a tick of the janitor are one of them, which gave what the
    call returned; a [Delete] is two, a look at the key that gave its answer and
    a later removal of whatever is there by then.  No call that holds a lock
    fails to give it back, and the calls never all wait for each other.  A [Delete] that found nothing is different: its deferred unlock
    is a fatal error, or gives back the lock of another goroutine. *)
Theorem cache_linearizable ops e now tr w :
  run (initial ops e now) tr w -> (forall i, LMiss i ∉ tr) ->
  legal (history tr) (∅, e) (data (w_c w), ev (w_c w)) /\
  (forall i o x, w_gs w !! i = Some (o, PDone x) -> explained o x (history_of i tr)) /\
  (forall i o p f, w_gs w !! i = Some (o, p) -> p <> PMissed ->
     advance i o p (w_now w) (w_c w) <> Some (Panic f)) /\
  (forall i o p, w_gs w !! i = Some (o, p) -> (forall x, p <> PDone x) -> can_step w) /\
  (forall i o, w_gs w !! i = Some (o, PMissed) ->
     advance i o PMissed (w_now w) (w_c w) = Some (Panic (PFatal "sync: Unlock of unlocked RWMutex")) \/
     exists j oj pj c', w_gs w !! j = Some (oj, pj) /\ holding pj = 1 /\
       advance i o PMissed (w_now w) (w_c w) = Some (Ok (c', PDone (inl ErrNoValue), LMiss i)) /\
       writer (mutex c') = false).
Proof.
  intros Hrun Hm. pose proof (lock_inv_run _ _ _ Hrun Hm (initial_lock_inv ops e now)) as HI.
  destruct (run_history _ _ _ e now ops eq_refl Hrun Hm) as [HL HT]. split_and!.
  - done.
  - intros i o x Hi. specialize (HT _ _ _ Hi). by destruct o.
  - intros i o p f. by apply inv_no_fatal.
  - intros i o p. by apply inv_progress.
  - intros i o Hi. cbn. destruct (writer (mutex (w_c w))) eqn:Hw; [|by left]. right.
    pose proof (inv_writer _ HI) as Hh. rewrite Hw in Hh.
    destruct (sum_list_pos (fun g => holding g.2) (w_gs w)) as (j & [oj pj] & Hj & Hpos).
    { fold (total holding (w_gs w)). lia. }
    exists j, oj, pj. eexists. split_and!; [done| |done|done]. cbn in Hpos. destruct pj; cbn in *; lia.
Qed.

(** ** Schedules *)

(** The run in which the goroutines step in this order. *)
Fixpoint exec (sched : list nat) (w : world) : option (list label * world) :=
  match sched with
  | [] => Some ([], w)
  | i :: sched' =>
      '(o, p) ← w_gs w !! i;
      match advance i o p (w_now w) (w_c w) with
      | Some (Ok (c, p', l)) =>
          '(tr, w') ← exec sched' (mkWorld c (w_now w) (<[i := (o, p')]> (w_gs w)));
          Some (l :: tr, w')
      | _ => None
      end
  end.
Lemma exec_run w0 sched : forall tr0 w tr w',
  run w0 tr0 w -> exec sched w = Some (tr, w') -> run w0 (tr0 ++ tr) w'.
Proof.
  induction sched as [|i sched IH]; intros tr0 w tr w' Hr; cbn [exec].
  - intros [= <- <-]. by rewrite app_nil_r.
  - destruct (w_gs w !! i) as [[o p]|] eqn:Hi; [|done]. cbn [mbind option_bind].
    destruct (advance i o p (w_now w) (w_c w)) as [[[[c p'] l]|]|] eqn:Ha; try done.
    destruct (exec sched _) as [[tr1 w1]|] eqn:He; [|done]. intros [= <- <-].
    rewrite (app_cons_snoc tr0 l tr1). eapply IH; [|exact He]. apply run_snoc with w; [done|].
    destruct w as [cw nw gw]. by apply step_go with p.
Qed.
Lemma exec_run_initial sched ops e now tr w' :
  exec sched (initial ops e now) = Some (tr, w') -> run (initial ops e now) tr w'.
Proof. apply (exec_run (initial ops e now) sched []). constructor. Qed.
End conc.

Definition cc_evict : string -> nat -> list (string * nat) -> list (string * nat) := fun k v e => e ++ [(k, v)].
Definition cc_ops : list (op (V := nat)) := [OSet "k" 7 0; OGet "k"; ODelete "k"; ODelete "k"].
Definition cc_world (sched : list nat) (ops : list (op (V := nat))) :
    option (list (label (V := nat)) * world (V := nat) (E := list (string * nat))) :=
  exec cc_evict plain_set sched (initial ops [] 0).

(** Two [Delete]s that look before either removes: both return the value, which
    is evicted once. *)
Example deletes_both_succeed :
  (fun x => (snd <$> w_gs x.2, ev (w_c x.2))) <$> cc_world [0; 0; 0; 0; 2; 3; 2; 3; 2; 3; 2; 2; 2; 2; 3; 3; 3; 3] cc_ops =
  Some ([PDone (inr None); PIdle; PDone (inr (Some 7)); PDone (inr (Some 7))], [("k", 7)]).
Proof. vm_compute. reflexivity. Qed.

(** A [Delete] of a key that is not there gives back the lock of a [Set]; another
    [Set] comes in, and what it wrote is lost. *)
Example missed_loses_update :
  (fun x => (snd <$> w_gs x.2, (fun k => it_val <$> data (w_c x.2) !! k) <$> ["a"; "b"])) <$>
    cc_world [2; 2; 2; 0; 0; 2; 1; 1; 1; 1; 0] [OSet "a" 1 0; OSet "b" 2 0; ODelete "c"] =
  Some ([PUnlocking (inr None); PDone (inr None); PDone (inl ErrNoValue)], [Some 1; None]).
Proof. vm_compute. reflexivity. Qed.

(** A [Get] between a [Set] and a [Delete]. *)
Definition cc_run : option (list (label (V := nat)) * world (V := nat) (E := list (string * nat))) :=
  Eval vm_compute in cc_world [0; 0; 0; 0; 1; 1; 1; 1; 1; 1; 1; 2; 2; 2; 2; 2; 2; 2] cc_ops.
Definition cc_tr : list (label (V := nat)) := default [] (fst <$> cc_run).
Definition cc_end : world (V := nat) (E := list (string * nat)) :=
  default (initial [] [] 0) (snd <$> cc_run).

Lemma cache_linearizable_witness :
  legal cc_evict plain_set (history cc_tr) (∅, []) (data (w_c cc_end), ev (w_c cc_end)) /\
  explained (OGet "k") (inr (Some 7)) (history_of 1 cc_tr) /\
  explained (ODelete "k") (inr (Some 7)) (history_of 2 cc_tr) /\
  can_step cc_evict plain_set cc_end.
Proof.
  assert (run cc_evict plain_set (initial cc_ops [] 0) cc_tr cc_end) as Hrun.
  { apply (exec_run_initial cc_evict plain_set [0; 0; 0; 0; 1; 1; 1; 1; 1; 1; 1; 2; 2; 2; 2; 2; 2; 2]). vm_compute. reflexivity. }
  destruct (cache_linearizable cc_evict plain_set cc_ops [] 0 cc_tr cc_end Hrun) as (H1 & H2 & _ & H4 & _).
  { intros i Hin. apply list_elem_of_In in Hin. vm_compute in Hin. intuition discriminate. }
  split; [exact H1|]. split; [exact (H2 1 (OGet "k") _ eq_refl)|].
  split; [exact (H2 2 (ODelete "k") _ eq_refl)|]. apply (H4 3 (ODelete "k") PIdle eq_refl). discriminate.
Defined.
