(* ===== verification/MaxCnt.v ===== *)
(** The cache of bounded size: [cache/max_cnt_cache.go], and its goroutines, which
    step as those of [CacheConc] with another [Set]. *)
From S2P Require Import Prelude Cache CacheConc.

Section maxcnt.
Context {V E : Type}.
(** The callback that the wrapped cache had. *)
Context (evict : string -> V -> E -> E).

(** [int32] arithmetic. *)
Definition int32 (z : Z) : Z := ((z + 2147483648) `mod` 4294967296 - 2147483648)%Z.

(** [MaxCntCache]: the counter is in the state of the callback. *)
Definition onEvicted (key : string) (val : V) (e : Z * E) : Z * E :=
  (int32 (e.1 + -1), evict key val e.2).
Abbreviation mstate := (gmap string (item (V := V)) * (Z * E))%type.

(** [NewMaxCntCache] of a cache: the counter starts at zero. *)
Definition NewMaxCntCache (b : cache (V := V) (E := E)) : cache (V := V) (E := Z * E) :=
  mkCache (data b) (mutex b) (0%Z, ev b).

(** [MaxCntCache.Set], under the lock. *)
Definition sec_max_set (maxCnt : Z) (key : string) (val : V) (expiration now : Z) (s : mstate)
  : mstate * (cache_error + unit) :=
  let present := bool_decide (is_Some (s.1 !! key)) in
  if negb present && bool_decide (maxCnt < int32 (s.2.1 + 1))%Z then (s, inl ErrNoCapacity)
  else
    let cnt := if present then s.2.1 else int32 (s.2.1 + 1) in
    (sec_set key val expiration now (s.1, (cnt, s.2.2)), inr tt).
Definition MaxCnt_Set (maxCnt : Z) (key : string) (val : V) (expiration now : Z)
  : GM (cache (V := V) (E := Z * E)) cache_error unit :=
  Lock ;; deferred Unlock (section (sec_max_set maxCnt key val expiration now)).

(** The goroutines on one bounded cache: [Set] is its own, and [Get], [Delete] and
    the janitor are those of the cache that it wraps. *)
Definition max_initial (ops : list (op (V := V))) (e : E) (now : Z) : world :=
  mkWorld (NewMaxCntCache (NewBuildInMapCache e)) now ((fun o => (o, PIdle)) <$> ops).

(** ** The invariant *)








(** The methods run the sections of the interleavings. *)
Lemma MaxCnt_Set_eq maxCnt key val exp now c :
  mutex c = unlocked ->
  MaxCnt_Set maxCnt key val exp now c =
  let '((d, e), x) := sec_max_set maxCnt key val exp now (data c, ev c) in
  Ok (mkCache d unlocked e, x).
Proof. intros Hm. unfold MaxCnt_Set. by rewrite section_unlocked. Qed.
End maxcnt.

(** A [Delete] of an absent key gives back the lock of a [Set] that has found the
    cache empty; another [Set] comes in, and both succeed although the maximum is
    one. *)
Definition mc_evict : string -> nat -> unit -> unit := fun _ _ e => e.
Definition mc_world (maxCnt : Z) (ops : list (op (V := nat))) (sched : list nat) :
    option (list (label (V := nat)) * world (V := nat) (E := Z * unit)) :=
  exec (onEvicted mc_evict) (sec_max_set maxCnt) sched (max_initial ops tt 0).
Example missed_exceeds :
  (fun x => snd <$> w_gs x.2) <$>
    mc_world 1 [OSet "a" 1 0; OSet "b" 2 0; ODelete "c"] [2; 2; 2; 0; 0; 2; 1; 1; 1; 1; 0] =
  Some [PUnlocking (inr None); PDone (inr None); PDone (inl ErrNoValue)].
Proof. vm_compute. reflexivity. Qed.

