(* ===== verification/Patterns.v ===== *)
(** Cache patterns over the interface [Cache]: [cache/types.go],
    [cache/read_through.go], [cache/write_through.go], [cache/bloom_cache.go],
    [cache/singleflight.go], and [cache/redis_cache.go].

    An operation is a program: a tree of the calls it makes of the cache, the
    database and the singleflight group, and of the goroutines it starts, each of
    which other goroutines can come between.  [alone] runs a program that nobody
    disturbs; [Coherence] interleaves them.  The patterns are proved against the
    laws of the interface; the local cache of [Cache] discharges them. *)
From S2P Require Import Prelude Cache.

(** ** The interface *)

Class CacheOps (C V : Type) := {
  cache_Set : string -> V -> Z -> GM C cache_error unit;
  cache_Get : string -> GM C cache_error V;
  cache_Delete : string -> GM C cache_error V
}.
(** A value that was set is found. *)
Class CacheLaws (C V : Type) {HC : CacheOps C V} := {
  Get_Set : forall key v exp c c', cache_Set key v exp c = Ok (c', inr tt) ->
    exists c'', cache_Get key c' = Ok (c'', inr v)
}.

Section patterns.
Context {C V L : Type} {HC : CacheOps C V}.
(** The nil of [any]; a cache returns it with its errors. *)
Context (nil : V).

(** The pair a Go function returns: a value, perhaps nil, and an error. *)
Abbreviation ret := (V * option cache_error)%type.
(** What [LoadFunc] and [StoreFunc] do to the database [L]. *)
Abbreviation load_fn := (string -> L -> L * ret).
Abbreviation store_fn := (string -> V -> L -> L * option cache_error).

(** ** Programs *)

(** What an operation does next, and how it goes on with the answer.  [CDo] is
    [g.Do] of a singleflight group. *)
Inductive prog (A : Type) : Type :=
  | CRet (a : A)
  | CPanic (e : panic)
  | CGet (key : string) (k : cache_error + V -> prog A)
  | CSet (key : string) (v : V) (expiration : Z) (k : cache_error + unit -> prog A)
  | CLoad (f : load_fn) (key : string) (k : ret -> prog A)
  | CStore (f : store_fn) (key : string) (v : V) (k : option cache_error -> prog A)
  | CGo (t : prog unit) (k : prog A)
  | CDo (key : string) (fn : prog ret) (k : ret -> prog A).
#[export] Instance prog_ret : MRet prog := CRet.
#[export] Instance prog_bind : MBind prog := fun A B f =>
  fix bind (p : prog A) : prog B :=
    match p with
    | CRet _ a => f a
    | CPanic _ e => CPanic B e
    | CGet _ key k => CGet B key (fun x => bind (k x))
    | CSet _ key v exp k => CSet B key v exp (fun x => bind (k x))
    | CLoad _ g key k => CLoad B g key (fun x => bind (k x))
    | CStore _ g key v k => CStore B g key v (fun x => bind (k x))
    | CGo _ t k => CGo B t (bind k)
    | CDo _ key fn k => CDo B key fn (fun x => bind (k x))
    end.
Definition p_panic {A} (e : panic) : prog A := CPanic A e.
Definition p_get (key : string) : prog (cache_error + V) := CGet _ key (CRet _).
Definition p_set (key : string) (v : V) (expiration : Z) : prog (cache_error + unit) := CSet _ key v expiration (CRet _).
Definition p_load (f : load_fn) (key : string) : prog ret := CLoad _ f key (CRet _).
Definition p_store (f : store_fn) (key : string) (v : V) : prog (option cache_error) := CStore _ f key v (CRet _).
Definition p_go (t : prog unit) : prog unit := CGo _ t (CRet _ tt).
Definition p_do (key : string) (fn : prog ret) : prog ret := CDo _ key fn (CRet _).

(** The cache, the database, and the goroutines started and not yet run. *)
Record world := mkWorld { w_c : C; w_l : L; w_tasks : list (prog unit) }.
Definition W (A : Type) : Type := world -> go (world * A).
#[export] Instance W_ret : MRet W := fun A a w => Ok (w, a).
#[export] Instance W_bind : MBind W := fun A B f m w =>
  match m w with Ok (w', a) => f a w' | Panic p => Panic p end.

Definition on_cache {A} (m : GM C cache_error A) : W (cache_error + A) := fun w =>
  match m (w_c w) with
  | Ok (c, x) => Ok (mkWorld c (w_l w) (w_tasks w), x)
  | Panic p => Panic p
  end.
Definition on_db {A} (f : L -> L * A) : W A := fun w =>
  let '(l, x) := f (w_l w) in Ok (mkWorld (w_c w) l (w_tasks w), x).
Definition spawn (t : prog unit) : W unit := fun w =>
  Ok (mkWorld (w_c w) (w_l w) (w_tasks w ++ [t]), tt).
(** A program that runs from its first call to its last with nobody between
    them; no call of the group is in flight, so [Do] runs its function. *)
Fixpoint alone {A} (p : prog A) : W A :=
  match p with
  | CRet _ a => mret a
  | CPanic _ e => fun _ => Panic e
  | CGet _ key k => x ← on_cache (cache_Get key); alone (k x)
  | CSet _ key v exp k => x ← on_cache (cache_Set key v exp); alone (k x)
  | CLoad _ f key k => x ← on_db (f key); alone (k x)
  | CStore _ f key v k => x ← on_db (f key v); alone (k x)
  | CGo _ t k => spawn t ;; alone k
  | CDo _ key fn k => x ← alone fn; alone (k x)
  end.

Definition pair_of (x : cache_error + V) : ret :=
  match x with inl e => (nil, Some e) | inr v => (v, None) end.

(** ** Read-through *)

Record ReadThroughCache := mkReadThrough { LoadFunc : load_fn; rt_expiration : Z }.

(** The inner [v, err] of the branch hide the outer ones. *)
Definition ReadThrough_Get (r : ReadThroughCache) (key : string) : prog ret :=
  x ← p_get key;
  match x with
  | inl ErrNoValue =>
      y ← p_load (LoadFunc r) key;
      match y with
      | (v, None) =>
          er ← p_set key v (rt_expiration r);
          match er with
          | inl er => mret (nil, Some (ErrFailToRefreshCache er))
          | inr _ => mret (pair_of x)
          end
      | (_, Some _) => mret (pair_of x)
      end
  | _ => mret (pair_of x)
  end.
(** The goroutine of [GetV1]; the error of its [Set] is only logged. *)
Definition refresh (r : ReadThroughCache) (key : string) (v : V) : prog unit :=
  p_set key v (rt_expiration r) ;; mret tt.
Definition ReadThrough_GetV1 (r : ReadThroughCache) (key : string) : prog ret :=
  x ← p_get key;
  match x with
  | inl ErrNoValue =>
      y ← p_load (LoadFunc r) key;
      match y with
      | (v, None) => p_go (refresh r key v) ;; mret (pair_of x)
      | (_, Some _) => mret (pair_of x)
      end
  | _ => mret (pair_of x)
  end.
(** The goroutine of [GetV2]. *)
Definition reload (r : ReadThroughCache) (key : string) : prog unit :=
  y ← p_load (LoadFunc r) key;
  match y with
  | (v, None) => p_set key v (rt_expiration r) ;; mret tt
  | (_, Some _) => mret tt
  end.
Definition ReadThrough_GetV2 (r : ReadThroughCache) (key : string) : prog ret :=
  x ← p_get key;
  match x with
  | inl ErrNoValue => p_go (reload r key) ;; mret (pair_of x)
  | _ => mret (pair_of x)
  end.
(** The functions given to [g.Do], which runs them when no call for the key is in
    flight: the value is loaded, [cached v] is stored, and [failed v] is the
    value that goes with an error of [Set]. *)
Definition load_and_set (r : ReadThroughCache) (cached failed : V -> V) (key : string) : prog ret :=
  y ← p_load (LoadFunc r) key;
  match y with
  | (v, None) =>
      er ← p_set key (cached v) (rt_expiration r);
      match er with
      | inl er => mret (failed v, Some (ErrFailToRefreshCache er))
      | inr _ => mret (v, None)
      end
  | (v, Some er) => mret (v, Some er)
  end.
Definition ReadThrough_GetV3 (r : ReadThroughCache) (key : string) : prog ret :=
  x ← p_get key;
  match x with
  | inl ErrNoValue => p_do key (load_and_set r id (fun _ => nil) key)
  | _ => mret (pair_of x)
  end.
(** [ReadThroughCacheV1.Get]: the results are asserted to be of type [T]; a nil
    value is of none. *)
Definition assertT (isT : V -> bool) (x : ret) : prog ret :=
  if isT x.1 then mret x else p_panic PTypeAssert.
Definition ReadThroughV1_Get (isT : V -> bool) (r : ReadThroughCache) (key : string) : prog ret :=
  x ← p_get key;
  match x with
  | inl ErrNoValue =>
      y ← p_load (LoadFunc r) key;
      match y with
      | (v, None) =>
          er ← p_set key v (rt_expiration r);
          match er with
          | inl er => assertT isT (v, Some (ErrFailToRefreshCache er))
          | inr _ => assertT isT (pair_of x)
          end
      | (_, Some _) => assertT isT (pair_of x)
      end
  | _ => assertT isT (pair_of x)
  end.

(** ** Bloom filter and singleflight *)

Definition NewBloomFilterCache (HasKey : string -> bool) (loadFunc : load_fn) : ReadThroughCache :=
  mkReadThrough (fun key l => if HasKey key then loadFunc key l else (l, (nil, Some ErrNoValue))) 0.
Definition BloomV1_Get (HasKey : string -> bool) (r : ReadThroughCache) (key : string) : prog ret :=
  x ← p_get key;
  match x with
  | inl e => if HasKey key then load_and_set r id id key else mret (pair_of x)
  | inr _ => mret (pair_of x)
  end.
(** Each call has a group of its own, so [Do] always runs the function. *)
Definition NewSingleFlightCache (loadFunc : load_fn) (expiration : Z) : ReadThroughCache :=
  mkReadThrough loadFunc expiration.
(** The value it stores is [val], which is still that of the miss: nil. *)
Definition SingleFlightV1_Get (r : ReadThroughCache) (key : string) : prog ret :=
  x ← p_get key;
  match x with
  | inl ErrNoValue => p_do key (load_and_set r (fun _ => nil) id key)
  | _ => mret (pair_of x)
  end.

(** ** Write-through *)

Definition err_of (x : cache_error + unit) : option cache_error :=
  match x with inl e => Some e | inr _ => None end.
Definition WriteThrough_Set (StoreFunc : store_fn) (key : string) (v : V) (expiration : Z)
  : prog (option cache_error) :=
  err ← p_store StoreFunc key v;
  match err with
  | Some e => mret (Some e)
  | None => x ← p_set key v expiration; mret (err_of x)
  end.
Definition WriteThrough_SetV1 (StoreFunc : store_fn) (key : string) (v : V) (expiration : Z)
  : prog (option cache_error) :=
  x ← p_set key v expiration;
  match x with
  | inl e => mret (Some e)
  | inr _ => p_store StoreFunc key v
  end.
(** [log.Fatalln] ends the program. *)
Definition log_Fatalln : prog unit := p_panic (PFatal "log.Fatalln").
(** The goroutines of [SetV2] and of [SetV3]. *)
Definition set_or_die (key : string) (v : V) (expiration : Z) : prog unit :=
  er ← p_set key v expiration;
  match er with inl _ => log_Fatalln | inr _ => mret tt end.
Definition store_and_set (StoreFunc : store_fn) (key : string) (v : V) (expiration : Z) : prog unit :=
  err ← p_store StoreFunc key v;
  match err with
  | Some _ => log_Fatalln
  | None => set_or_die key v expiration
  end.
Definition WriteThrough_SetV2 (StoreFunc : store_fn) (key : string) (v : V) (expiration : Z)
  : prog (option cache_error) :=
  err ← p_store StoreFunc key v;
  p_go (set_or_die key v expiration) ;;
  mret err.
Definition WriteThrough_SetV3 (StoreFunc : store_fn) (key : string) (v : V) (expiration : Z)
  : prog (option cache_error) :=
  p_go (store_and_set StoreFunc key v expiration) ;; mret None.

End patterns.
Arguments CRet {V L A} a.
Arguments CPanic {V L A} e.
Arguments CGet {V L A} key k.
Arguments CSet {V L A} key v expiration k.
Arguments CLoad {V L A} f key k.
Arguments CStore {V L A} f key v k.
Arguments CGo {V L A} t k.
Arguments CDo {V L A} key fn k.

(** Unfolds a program that runs alone. *)
Ltac run_alone :=
  cbn -[cache_Get cache_Set]; unfold mbind, W_bind, on_cache, on_db, assertT;
  cbn -[cache_Get cache_Set].

Section miss.
Context {C V L : Type} {HC : CacheOps C V} (nil : V).

(** Alone, [Do] is its function. *)
Lemma alone_do key fn (w : world (C := C)) : alone (p_do key fn) w = alone (L := L) fn w.
Proof. run_alone. by destruct (alone fn w) as [[w' x]|]. Qed.

(** A miss on a key that the database has and the cache takes, for every
    cache that keeps its promises.  [Get] loads the value and stores it, so the
    next [Get] finds it, but it returns nil and the error of the miss, for the
    loaded value is in a shadowed variable; the typed [ReadThroughCacheV1.Get]
    then asserts nil and panics; [GetV3] does the same work and returns the
    value.  [SingleFlightCacheV1.Get] returns the value too, but it stores nil
    in its place, which every later [Get] finds.  When the database fails,
    [GetV3] returns its error, and [Get] hides it behind the miss. *)
Lemma ReadThrough_miss {HL : CacheLaws C V} (isT : V -> bool) (r : ReadThroughCache (V := V) (L := L)) key
    (w : world (C := C)) c1 :
  isT nil = false ->
  cache_Get key (w_c w) = Ok (c1, inl ErrNoValue) ->
  match LoadFunc r key (w_l w) with
  | (l, (v, None)) =>
      (forall c2, cache_Set key v (rt_expiration r) c1 = Ok (c2, inr tt) ->
       let w' := mkWorld c2 l (w_tasks w) in
       alone (ReadThrough_Get nil r key) w = Ok (w', (nil, Some ErrNoValue)) /\
       (exists w'', alone (ReadThrough_Get nil r key) w' = Ok (w'', (v, None))) /\
       alone (ReadThroughV1_Get nil isT r key) w = Panic PTypeAssert /\
       alone (ReadThrough_GetV3 nil r key) w = Ok (w', (v, None))) /\
      (forall c2, cache_Set key nil (rt_expiration r) c1 = Ok (c2, inr tt) ->
       let w' := mkWorld c2 l (w_tasks w) in
       alone (SingleFlightV1_Get nil r key) w = Ok (w', (v, None)) /\
       exists w'', alone (SingleFlightV1_Get nil r key) w' = Ok (w'', (nil, None)))
  | (l, (v, Some e)) =>
      let w' := mkWorld c1 l (w_tasks w) in
      alone (ReadThrough_Get nil r key) w = Ok (w', (nil, Some ErrNoValue)) /\
      alone (ReadThrough_GetV3 nil r key) w = Ok (w', (v, Some e))
  end.
Proof.
  intros HT HG. destruct (LoadFunc r key (w_l w)) as [l [v [e|]]] eqn:EL.
  - split; run_alone; rewrite HG; run_alone; by rewrite EL.
  - split; intros c2 HS; destruct (Get_Set _ _ _ _ _ HS) as [c3 HG2];
      cbn zeta; repeat apply conj; try eexists; run_alone;
      repeat (rewrite ?HG, ?EL, ?HS, ?HG2, ?HT; run_alone); reflexivity.
Qed.
End miss.

(** ** The local cache as an instance *)

Section local_cache.
Context {V E : Type} (onEvicted : string -> V -> E -> E).

(** A cache at rest and the time; expirations are counted from now. *)
Record timed := mkTimed { tm_cache : cache (V := V) (E := E); tm_now : Z }.
Definition timed_run {A} (f : Z -> GM (cache (V := V) (E := E)) cache_error A) : GM timed cache_error A :=
  fun t => match f (tm_now t) (tm_cache t) with
           | Ok (c, x) => Ok (mkTimed c (tm_now t), x)
           | Panic p => Panic p
           end.
#[export] Instance local_CacheOps : CacheOps timed V := {
  cache_Set := fun key v exp => timed_run (fun now => Set_ key v exp now);
  cache_Get := fun key => timed_run (fun now => Get onEvicted key now);
  cache_Delete := fun key => timed_run (fun _ => Delete onEvicted key)
}.

Lemma Set_unlocks key (v : V) exp now (c c' : cache (V := V) (E := E)) :
  Set_ key v exp now c = Ok (c', inr tt) ->
  mutex c' = unlocked /\ data c' !! key =
    Some (mkItem v (if decide (0 < exp)%Z then Some (now + exp)%Z else None)).
Proof.
  unfold Set_. rewrite GM_bind_eq. unfold Lock. case_decide; [|done].
  unfold deferred, section_, section, Unlock. cbn. intros [= <-]. split; [done|].
  apply lookup_insert_eq.
Qed.
#[export] Instance local_CacheLaws : CacheLaws timed V.
Proof.
  constructor. intros key v exp [c now] c'. cbn. unfold timed_run. cbn [tm_cache tm_now].
  destruct (Set_ key v exp now c) as [[c1 [e|[]]]|p] eqn:ES; try done. intros [= <-].
  destruct (Set_unlocks _ _ _ _ _ _ ES) as [Hm Hd]. cbn [tm_cache tm_now].
  rewrite Get_eq by done. unfold sec_get. cbn [fst]. rewrite Hd. cbn [it_val].
  assert (deadlineBefore (mkItem v (if decide (0 < exp)%Z then Some (now + exp)%Z else None)) now = false) as ->.
  { unfold deadlineBefore. cbn. case_decide; [|done]. apply bool_decide_eq_false_2. lia. }
  eauto.
Qed.
End local_cache.

Lemma ReadThrough_miss_witness :
  let evict := fun (_ : string) (_ : nat) (e : unit) => e in
  let HC := local_CacheOps evict in
  let r := mkReadThrough (fun _ (l : nat) => (S l, (42, None))) 10 in
  let w := mkWorld (mkTimed (NewBuildInMapCache tt) 0) 0 [] in
  (exists w', alone (ReadThrough_Get 0 r "k") w = Ok (w', (0, Some ErrNoValue)) /\
    alone (ReadThrough_GetV3 0 r "k") w = Ok (w', (42, None))) /\
  exists w1 w2, alone (SingleFlightV1_Get 0 r "k") w = Ok (w1, (42, None)) /\
    alone (SingleFlightV1_Get 0 r "k") w1 = Ok (w2, (0, None)).
Proof.
  intros evict HC r w.
  destruct (ReadThrough_miss (HC := HC) 0 (HL := local_CacheLaws evict) (fun v => negb (v =? 0)) r "k" w
    (mkTimed (NewBuildInMapCache tt) 0) eq_refl eq_refl) as [H1 H2].
  split.
  - eexists. destruct (H1 (mkTimed (mkCache {[ "k" := mkItem 42 (Some 10%Z) ]} unlocked tt) 0) eq_refl)
      as (H3 & _ & _ & H4).
    split; [exact H3|exact H4].
  - destruct (H2 (mkTimed (mkCache {[ "k" := mkItem 0 (Some 10%Z) ]} unlocked tt) 0) eq_refl)
      as (H3 & w2 & H4).
    by exists (mkWorld (mkTimed (mkCache {[ "k" := mkItem 0 (Some 10%Z) ]} unlocked tt) 0) 1 []), w2.
Defined.

(** ** [RedisCache] *)

(** The commands of [redis.Cmdable] that [cache/redis_cache.go] sends. *)
Class RedisClient (R V : Type) := {
  rc_Set : string -> V -> Z -> R -> R * (cache_error + string);
  rc_Get : string -> R -> R * (cache_error + V);
  rc_GetDel : string -> R -> R * (cache_error + V)
}.
(** [redis.Nil], the error of a missing key. *)
Definition RedisNil : cache_error := ErrCache "redis: nil".

Section redis_cache.
Context {R V : Type} {HR : RedisClient R V}.

Definition RedisCache_Set (key : string) (val : V) (expiration : Z) : GM R cache_error unit := fun r =>
  let '(r, res) := rc_Set key val expiration r in
  Ok (r, match res with
         | inl err => inl err
         | inr s => if decide (s = "OK") then inr tt
                    else inl (ErrCache ("cache: 写入 redis 失败 ,res: " +:+ s))
         end).
Definition RedisCache_Get (key : string) : GM R cache_error V := fun r => Ok (rc_Get key r).
Definition RedisCache_Delete (key : string) : GM R cache_error V := fun r => Ok (rc_GetDel key r).
#[export] Instance redis_CacheOps : CacheOps R V := {
  cache_Set := RedisCache_Set;
  cache_Get := RedisCache_Get;
  cache_Delete := RedisCache_Delete
}.

(** Over [RedisCache] the read-through cache never loads: a miss is [redis.Nil],
    which is not [errNoValue]. *)
Lemma redis_read_through {L} (nil : V) (rt : ReadThroughCache (V := V) (L := L)) key w r :
  rc_Get key (w_c w) = (r, inl RedisNil) ->
  let miss := Ok (mkWorld r (w_l w) (w_tasks w), (nil, Some RedisNil)) in
  Forall (fun p => alone p w = miss)
    [ReadThrough_Get nil rt key; ReadThrough_GetV1 nil rt key; ReadThrough_GetV2 nil rt key;
     ReadThrough_GetV3 nil rt key; SingleFlightV1_Get nil rt key].
Proof.
  intros HG miss. repeat constructor; run_alone; unfold cache_Get, redis_CacheOps, RedisCache_Get; by rewrite HG.
Qed.
End redis_cache.
