(* ===== verification/Flight.v ===== *)
(** Concurrent callers of the read-through caches that use a singleflight group:
    [ReadThroughCache.GetV3] ([cache/read_through.go]), [SingleFlightCacheV1.Get]
    and [NewSingleFlightCache] ([cache/singleflight.go]).

    A call is cut where other goroutines can run: before and after the lookup in
    the cache, the join of the group, the load, the store and the end of the
    call in the group.  [singleflight_shares] is about every interleaving. *)
From S2P Require Import Prelude Cache Patterns.

(** ** The group *)

(** [singleflight.Group]: the call that is in flight for a key, if any, by its
    number.  A call that ends takes away its own entry only; [Forget] takes away
    whichever is there. *)
Class Flight (G : Type) := {
  g_new : G;
  g_flight : G -> string -> option nat;
  g_begin : string -> nat -> G -> G;
  g_end : string -> nat -> G -> G;
  g_forget : string -> G -> G
}.
Class FlightLaws (G : Type) {HG : Flight G} := {
  flight_new : forall k, g_flight g_new k = None;
  flight_begin : forall k k' i g,
    g_flight (g_begin k i g) k' = if decide (k = k') then Some i else g_flight g k';
  flight_end : forall k i k' g,
    g_flight (g_end k i g) k' =
    if decide (k = k' /\ g_flight g k = Some i) then None else g_flight g k';
  flight_forget : forall k k' g,
    g_flight (g_forget k g) k' = if decide (k = k') then None else g_flight g k'
}.

#[export] Instance gmap_Flight : Flight (gmap string nat) := {
  g_new := ∅;
  g_flight := fun g k => g !! k;
  g_begin := fun k i g => <[k := i]> g;
  g_end := fun k i g => if decide (g !! k = Some i) then delete k g else g;
  g_forget := fun k g => delete k g
}.
#[export] Instance gmap_FlightLaws : FlightLaws (gmap string nat).
Proof.
  constructor; cbn.
  - intros k. apply lookup_empty.
  - intros k k' i g. case_decide as E; [subst; apply lookup_insert_eq|by apply lookup_insert_ne].
  - intros k i k' g. case_decide as E.
    + case_decide as E2; [destruct E2 as [<- _]; apply lookup_delete_eq|].
      apply lookup_delete_ne. intros ->. by apply E2.
    + by rewrite decide_False by by intros [_ ?].
  - intros k k' g. case_decide as E; [subst; apply lookup_delete_eq|by apply lookup_delete_ne].
Qed.

Section flight.
Context {C V L G : Type} {HC : CacheOps C V} {HG : Flight G}.
Context (nil : V) (r : ReadThroughCache (V := V) (L := L)).
(** What the function given to the group stores and what it returns with an
    error of the store, as in [load_and_set]. *)
Context (cached failed : V -> V).
Abbreviation ret := (V * option cache_error)%type.

(** Where a caller is.  A call of the group has the number of the caller that
    runs its function; a caller that joins it waits for that number. *)
Inductive pc :=
  | PStart
  | PJoin
  | PLoad
  | PSet (v : V)
  | PFinish (x : ret)
  | PWait (j : nat)
  | PDone (x : ret).
(** The cache, the database, the group, and the results of its calls. *)
Record shared := mkShared { s_c : C; s_l : L; s_g : G; s_res : gmap nat ret }.

(** What the next step of a caller does; [None] when it cannot go on. *)
Definition advance (i : nat) (key : string) (p : pc) (s : shared) : option (go (shared * pc)) :=
  match p with
  | PStart => Some (
      match cache_Get key (s_c s) with
      | Ok (c, x) =>
          Ok (mkShared c (s_l s) (s_g s) (s_res s),
              match x with inl ErrNoValue => PJoin | _ => PDone (pair_of nil x) end)
      | Panic e => Panic e
      end)
  | PJoin => Some (Ok
      match g_flight (s_g s) key with
      | Some j => (s, PWait j)
      | None => (mkShared (s_c s) (s_l s) (g_begin key i (s_g s)) (s_res s), PLoad)
      end)
  | PLoad => Some (
      let '(l, y) := LoadFunc r key (s_l s) in
      Ok (mkShared (s_c s) l (s_g s) (s_res s),
          match y with (v, None) => PSet v | (v, Some er) => PFinish (v, Some er) end))
  | PSet v => Some (
      match cache_Set key (cached v) (rt_expiration r) (s_c s) with
      | Ok (c, er) =>
          Ok (mkShared c (s_l s) (s_g s) (s_res s),
              PFinish match er with
                      | inl er => (failed v, Some (ErrFailToRefreshCache er))
                      | inr _ => (v, None)
                      end)
      | Panic e => Panic e
      end)
  | PFinish x => Some (Ok
      (mkShared (s_c s) (s_l s) (g_end key i (s_g s)) (<[i := x]> (s_res s)), PDone x))
  | PWait j => (fun x => Ok (s, PDone x)) <$> s_res s !! j
  | PDone _ => None
  end.

(** The callers with their keys; a step of one of them, or anything that others
    do to the cache and the database, expiry included. *)
Record fworld := mkFworld { f_s : shared; f_callers : list (string * pc) }.
Inductive fstep : option nat -> fworld -> fworld -> Prop :=
  | fstep_caller i key p s p' s' cs :
      cs !! i = Some (key, p) -> advance i key p s = Some (Ok (s', p')) ->
      fstep (Some i) (mkFworld s cs) (mkFworld s' (<[i := (key, p')]> cs))
  | fstep_others c' l' s cs :
      fstep None (mkFworld s cs) (mkFworld (mkShared c' l' (s_g s) (s_res s)) cs).
Inductive fsteps : list (option nat) -> fworld -> fworld -> Prop :=
  | fsteps_nil w : fsteps [] w w
  | fsteps_cons a w1 w2 tr w3 : fstep a w1 w2 -> fsteps tr w2 w3 -> fsteps (a :: tr) w1 w3.
Definition finitial (keys : list string) (c : C) (l : L) : fworld :=
  mkFworld (mkShared c l g_new ∅) ((fun k => (k, PStart)) <$> keys).

(** The caller runs the function of its call. *)
Definition leading (p : pc) : Prop :=
  match p with PLoad | PSet _ | PFinish _ => True | _ => False end.

(** How a step changes the group and the results: a caller outside stays
    outside or joins a call in flight; it begins a call; it goes on with its
    call; or it ends it. *)
Variant advanced (i : nat) (key : string) : pc -> shared -> pc -> shared -> Prop :=
  | adv_outside p s p' s' :
      ~ leading p -> ~ leading p' -> s_g s' = s_g s -> s_res s' = s_res s ->
      (forall x, p <> PDone x) ->
      (forall j, p' = PWait j -> g_flight (s_g s) key = Some j) ->
      (forall j, p = PWait j -> exists x, s_res s !! j = Some x /\ p' = PDone x) ->
      advanced i key p s p' s'
  | adv_begin s s' :
      g_flight (s_g s) key = None -> s_g s' = g_begin key i (s_g s) -> s_res s' = s_res s ->
      advanced i key PJoin s PLoad s'
  | adv_leading p s p' s' :
      leading p -> leading p' -> s_g s' = s_g s -> s_res s' = s_res s ->
      advanced i key p s p' s'
  | adv_end x s s' :
      s_g s' = g_end key i (s_g s) -> s_res s' = <[i := x]> (s_res s) ->
      advanced i key (PFinish x) s (PDone x) s'.

Lemma advance_advanced i key p s s' p' :
  advance i key p s = Some (Ok (s', p')) -> advanced i key p s p' s'.
Proof.
  destruct p as [| | |v|x|j|x]; cbn; intros Ha.
  - destruct (cache_Get key (s_c s)) as [[c y]|]; [|done]. injection Ha as <- <-.
    destruct y as [[]|]; apply adv_outside; cbn; by try tauto.
  - destruct (g_flight (s_g s) key) as [j|] eqn:E; injection Ha as <- <-.
    + apply adv_outside; cbn; try tauto; try done. intros ? [= <-]. done.
    + by apply adv_begin.
  - destruct (LoadFunc r key (s_l s)) as [l [v [e|]]]; injection Ha as <- <-; by apply adv_leading.
  - destruct (cache_Set _ _ _ _) as [[c y]|]; [|done]. injection Ha as <- <-. by apply adv_leading.
  - injection Ha as <- <-. by apply adv_end.
  - destruct (s_res s !! j) as [x|] eqn:E; [|done]. injection Ha as <- <-.
    apply adv_outside; cbn; try tauto; try done. intros ? [= <-]. eauto.
  - done.
Qed.

(** ** The invariant *)

Record flight_inv (w : fworld) : Prop := {
  inv_flight : forall k j, g_flight (s_g (f_s w)) k = Some j ->
    exists p, f_callers w !! j = Some (k, p) /\ leading p;
  inv_leading : forall i k p, f_callers w !! i = Some (k, p) -> leading p ->
    g_flight (s_g (f_s w)) k = Some i;
  inv_wait : forall i k j, f_callers w !! i = Some (k, PWait j) ->
    exists p, f_callers w !! j = Some (k, p) /\
      (leading p \/ exists x, p = PDone x /\ s_res (f_s w) !! j = Some x);
  inv_res : forall j x, s_res (f_s w) !! j = Some x ->
    exists k, f_callers w !! j = Some (k, PDone x)
}.

Lemma finitial_inv {HL : FlightLaws G} keys c l : flight_inv (finitial keys c l).
Proof.
  constructor; cbn.
  - intros k j. by rewrite flight_new.
  - intros i k p Hi. apply list_lookup_fmap_Some in Hi as (k' & [= <- ->] & _). done.
  - intros i k j Hi. by apply list_lookup_fmap_Some in Hi as (k' & [= <-] & _).
  - intros j x. by rewrite lookup_empty.
Qed.

(** A step of caller [i], kind by kind. *)
Section preserve.
Context {HL : FlightLaws G} (i : nat) (key : string) (s s' : shared) (cs : list (string * pc)).

(** What was elsewhere stays. *)
Lemma lookup_other p p' j k q :
  cs !! i = Some (key, p) -> cs !! j = Some (k, q) -> q <> p -> <[i := (key, p')]> cs !! j = Some (k, q).
Proof.
  intros Hi Hj Hne. apply (lookup_update cs i _ _ _ _ Hi). right. split; [congruence|done].
Qed.
Lemma lookup_here p p' : cs !! i = Some (key, p) -> <[i := (key, p')]> cs !! i = Some (key, p').
Proof. intros Hi. apply (lookup_update cs i _ _ _ _ Hi). auto. Qed.

Lemma flight_inv_outside p p' :
  flight_inv (mkFworld s cs) -> cs !! i = Some (key, p) ->
  ~ leading p -> ~ leading p' -> s_g s' = s_g s -> s_res s' = s_res s ->
  (forall x, p <> PDone x) -> (forall j, p' = PWait j -> g_flight (s_g s) key = Some j) ->
  flight_inv (mkFworld s' (<[i := (key, p')]> cs)).
Proof.
  intros [I1 I2 I3 I4] Hi Hp Hp' Hg Hr Hd Hw. cbn [f_s f_callers] in *.
  assert (forall q, leading q -> q <> p) as Hl by (by intros q Hq ->).
  constructor; cbn [f_s f_callers]; rewrite ?Hg, ?Hr.
  - intros k j Hf. destruct (I1 _ _ Hf) as (q & Hq & Hlq). eauto using lookup_other.
  - intros j k q Hq Hlq. apply (lookup_update _ _ _ _ _ _ Hi) in Hq as [[-> [= -> ->]]|[_ Hq]]; [done|eauto].
  - intros j k m Hq. apply (lookup_update _ _ _ _ _ _ Hi) in Hq as [[<- [= -> <-]]|[_ Hq]].
    + destruct (I1 _ _ (Hw _ eq_refl)) as (q & Hq & Hlq). eauto 6 using lookup_other.
    + destruct (I3 _ _ _ Hq) as (q & Hm & Hq'). exists q. split; [|done].
      apply lookup_other with p; try done. destruct Hq' as [?|(x & -> & _)]; [by apply Hl|by apply not_eq_sym].
  - intros j x Hx. destruct (I4 _ _ Hx) as (k & Hk). exists k. by apply lookup_other with p.
Qed.

Lemma flight_inv_begin :
  flight_inv (mkFworld s cs) -> cs !! i = Some (key, PJoin) ->
  g_flight (s_g s) key = None -> s_g s' = g_begin key i (s_g s) -> s_res s' = s_res s ->
  flight_inv (mkFworld s' (<[i := (key, PLoad)]> cs)).
Proof.
  intros [I1 I2 I3 I4] Hi Hf Hg Hr. cbn [f_s f_callers] in *.
  assert (forall q, leading q -> q <> PJoin) as Hl by (by intros q Hq ->).
  constructor; cbn [f_s f_callers]; rewrite ?Hg, ?Hr.
  - intros k j. rewrite flight_begin. case_decide as E; [subst k|].
    + intros [= <-]. exists PLoad. split; [by apply lookup_here with PJoin|done].
    + intros Hj. destruct (I1 _ _ Hj) as (q & Hq & Hlq). eauto using lookup_other.
  - intros j k q Hq Hlq. rewrite flight_begin.
    apply (lookup_update _ _ _ _ _ _ Hi) in Hq as [[-> [= -> ->]]|[_ Hq]]; [by rewrite decide_True|].
    pose proof (I2 _ _ _ Hq Hlq). rewrite decide_False; [done|congruence].
  - intros j k m Hq. apply (lookup_update _ _ _ _ _ _ Hi) in Hq as [[_ [=]]|[_ Hq]].
    destruct (I3 _ _ _ Hq) as (q & Hm & Hq'). exists q. split; [|done].
    apply lookup_other with PJoin; try done. destruct Hq' as [?|(x & -> & _)]; [by apply Hl|done].
  - intros j x Hx. destruct (I4 _ _ Hx) as (k & Hk). exists k. by apply lookup_other with PJoin.
Qed.

Lemma flight_inv_leading p p' :
  flight_inv (mkFworld s cs) -> cs !! i = Some (key, p) ->
  leading p -> leading p' -> s_g s' = s_g s -> s_res s' = s_res s ->
  flight_inv (mkFworld s' (<[i := (key, p')]> cs)).
Proof.
  intros [I1 I2 I3 I4] Hi Hp Hp' Hg Hr. cbn [f_s f_callers] in *.
  assert (forall j k q, cs !! j = Some (k, q) -> exists q', <[i := (key, p')]> cs !! j = Some (k, q') /\
    (q' = q \/ leading q')) as K.
  { intros j k q Hq. destruct (decide (i = j)) as [<-|Hne].
    - rewrite Hi in Hq. injection Hq as <- <-. eauto using lookup_here.
    - exists q. split; [|auto]. by rewrite list_lookup_insert_ne. }
  constructor; cbn [f_s f_callers]; rewrite ?Hg, ?Hr.
  - intros k j Hf. destruct (I1 _ _ Hf) as (q & Hq & Hlq).
    destruct (K _ _ _ Hq) as (q' & ? & [->|?]); eauto.
  - intros j k q Hq Hlq. apply (lookup_update _ _ _ _ _ _ Hi) in Hq as [[-> [= -> ->]]|[_ Hq]]; eauto.
  - intros j k m Hq. apply (lookup_update _ _ _ _ _ _ Hi) in Hq as [[_ [= -> <-]]|[_ Hq]]; [done|].
    destruct (I3 _ _ _ Hq) as (q & Hm & Hq'). destruct (K _ _ _ Hm) as (q' & ? & [->|?]); eauto.
  - intros j x Hx. destruct (I4 _ _ Hx) as (k & Hk). exists k. apply lookup_other with p; try done.
    by intros <-.
Qed.

Lemma flight_inv_end x :
  flight_inv (mkFworld s cs) -> cs !! i = Some (key, PFinish x) ->
  s_g s' = g_end key i (s_g s) -> s_res s' = <[i := x]> (s_res s) ->
  flight_inv (mkFworld s' (<[i := (key, PDone x)]> cs)).
Proof.
  intros [I1 I2 I3 I4] Hi Hg Hr. cbn [f_s f_callers] in *.
  constructor; cbn [f_s f_callers]; rewrite ?Hg, ?Hr.
  - intros k j. rewrite flight_end. case_decide as E; [done|]. intros Hj.
    destruct (I1 _ _ Hj) as (q & Hq & Hlq). exists q. split; [|done].
    rewrite list_lookup_insert_ne; [done|]. intros <-. apply E.
    rewrite Hi in Hq. injection Hq as -> _. done.
  - intros j k q Hq Hlq. apply (lookup_update _ _ _ _ _ _ Hi) in Hq as [[_ [= -> ->]]|[Hne Hq]]; [done|].
    rewrite flight_end. pose proof (I2 _ _ _ Hq Hlq). pose proof (I2 _ _ _ Hi I).
    rewrite decide_False; [done|]. intros [<- _]. congruence.
  - intros j k m Hq. apply (lookup_update _ _ _ _ _ _ Hi) in Hq as [[_ [=]]|[_ Hq]].
    destruct (I3 _ _ _ Hq) as (q & Hm & Hq'). destruct (decide (i = m)) as [<-|Hne].
    + rewrite Hi in Hm. injection Hm as <- <-. exists (PDone x). split; [eauto using lookup_here|].
      right. exists x. by rewrite lookup_insert_eq.
    + exists q. rewrite list_lookup_insert_ne by done. by rewrite lookup_insert_ne.
  - intros j y. destruct (decide (i = j)) as [<-|Hne].
    + rewrite lookup_insert_eq. intros [= <-]. eauto using lookup_here.
    + rewrite lookup_insert_ne by done. intros Hy. destruct (I4 _ _ Hy) as (k & Hk). exists k.
      by rewrite list_lookup_insert_ne.
Qed.
End preserve.

Lemma flight_inv_step {HL : FlightLaws G} a w w' : fstep a w w' -> flight_inv w -> flight_inv w'.
Proof.
  intros [i key p s p' s' cs Hi Ha|c' l' s cs] HI.
  - destruct (advance_advanced _ _ _ _ _ _ Ha).
    + by eapply flight_inv_outside.
    + by eapply flight_inv_begin.
    + by eapply flight_inv_leading.
    + by eapply flight_inv_end.
  - destruct HI as [I1 I2 I3 I4]. by constructor.
Qed.
Lemma flight_inv_steps {HL : FlightLaws G} tr w w' : fsteps tr w w' -> flight_inv w -> flight_inv w'.
Proof. induction 1; eauto using flight_inv_step. Qed.

(** ** Waiting callers *)

Lemma advance_not_done i key p s a x : advance i key p s = Some a -> p <> PDone x.
Proof. by intros Ha ->. Qed.

Lemma done_stable a w w' i k x :
  fstep a w w' -> f_callers w !! i = Some (k, PDone x) -> f_callers w' !! i = Some (k, PDone x).
Proof.
  intros [j key p s p' s' cs Hj Ha|c' l' s cs]; cbn; [|done]. intros Hi.
  apply lookup_other with p; try done. by apply not_eq_sym, (advance_not_done _ _ _ _ _ _ Ha).
Qed.
Lemma done_stables tr w w' i k x :
  fsteps tr w w' -> f_callers w !! i = Some (k, PDone x) -> f_callers w' !! i = Some (k, PDone x).
Proof. induction 1; eauto using done_stable. Qed.

(** A waiting caller goes on waiting, or takes the result of the call it joined. *)
Lemma wait_step {HL : FlightLaws G} a w w' i k j :
  fstep a w w' -> flight_inv w -> f_callers w !! i = Some (k, PWait j) ->
  f_callers w' !! i = Some (k, PWait j) \/
  exists x, f_callers w' !! i = Some (k, PDone x) /\ f_callers w' !! j = Some (k, PDone x).
Proof.
  intros Hst HI Hi. pose proof (fun k x => done_stable _ _ _ j k x Hst) as Hdone.
  destruct Hst as [m key p s p' s' cs Hm Ha|c' l' s cs]; [|by left]. cbn [f_s f_callers] in *.
  destruct (decide (m = i)) as [->|Hne].
  - rewrite Hi in Hm. injection Hm as <- <-. right. cbn in Ha.
    destruct (s_res s !! j) as [x|] eqn:Ex; [|done]. injection Ha as <- <-. exists x.
    destruct (inv_wait _ HI _ _ _ Hi) as (q & Hq & _). destruct (inv_res _ HI _ _ Ex) as (k' & Hk').
    cbn [f_callers] in *. rewrite Hq in Hk'. injection Hk' as -> ->.
    split; [by apply lookup_here with (PWait j)|by apply Hdone].
  - left. by rewrite list_lookup_insert_ne.
Qed.
Lemma wait_steps {HL : FlightLaws G} tr w w' i k j :
  fsteps tr w w' -> flight_inv w -> f_callers w !! i = Some (k, PWait j) ->
  f_callers w' !! i = Some (k, PWait j) \/
  exists x, f_callers w' !! i = Some (k, PDone x) /\ f_callers w' !! j = Some (k, PDone x).
Proof.
  intros Hst. induction Hst as [|a w1 w2 tr w3 H1 H2 IH]; [by left|]. intros HI Hi.
  destruct (wait_step _ _ _ _ _ _ H1 HI Hi) as [Hw|(x & Hx & Hj)].
  - apply IH; [by eapply flight_inv_step|done].
  - right. exists x. eauto using done_stables.
Qed.

(** ** No deadlock, and an end *)

Definition can_advance (w : fworld) : Prop :=
  exists i k p a, f_callers w !! i = Some (k, p) /\ advance i k p (f_s w) = Some a.

Lemma flight_progress w i k p :
  flight_inv w -> f_callers w !! i = Some (k, p) -> (forall x, p <> PDone x) -> can_advance w.
Proof.
  intros HI Hi Hp.
  assert (forall j q, f_callers w !! j = Some (k, q) -> leading q -> can_advance w) as K.
  { intros j q Hq Hl. exists j, k, q. destruct q; try done; eexists; by split. }
  destruct p as [| | |v|x|j|x]; try (by apply (K i _ Hi)); try (by do 4 eexists; split).
  - destruct (inv_wait _ HI _ _ _ Hi) as (q & Hq & [Hl|(x & -> & Hx)]); [by apply (K j q)|].
    exists i, k, (PWait j). eexists. split; [done|]. cbn. by rewrite Hx.
  - by destruct (Hp x).
Qed.

Definition rank (p : pc) : nat :=
  match p with
  | PStart => 5 | PJoin => 4 | PLoad => 3 | PSet _ => 2 | PFinish _ => 1 | PWait _ => 1 | PDone _ => 0
  end.
Definition ranks (cs : list (string * pc)) : nat := sum_list_with (fun kp => rank kp.2) cs.
Arguments ranks : simpl never.

Lemma advance_rank i key p s s' p' : advance i key p s = Some (Ok (s', p')) -> rank p' < rank p.
Proof.
  destruct p as [| | |v|x|j|x]; cbn.
  - destruct (cache_Get key (s_c s)) as [[c y]|]; [|done]. intros [= _ <-].
    destruct y as [[]|]; cbn; lia.
  - destruct (g_flight (s_g s) key); intros [= _ <-]; cbn; lia.
  - destruct (LoadFunc r key (s_l s)) as [l [v [e|]]]; intros [= _ <-]; cbn; lia.
  - destruct (cache_Set _ _ _ _) as [[c y]|]; [|done]. intros [= _ <-]; cbn; lia.
  - intros [= _ <-]. cbn. lia.
  - destruct (s_res s !! j); [|done]. intros [= _ <-]. cbn. lia.
  - done.
Qed.
Lemma ranks_insert cs i key p p' :
  cs !! i = Some (key, p) -> ranks (<[i := (key, p')]> cs) + rank p = ranks cs + rank p'.
Proof. intros Hi. exact (sum_list_insert (fun kp => rank kp.2) cs i (key, p) (key, p') Hi). Qed.

(** The steps of the callers in a run. *)
Definition own_steps (tr : list (option nat)) : nat := length (omap id tr).
Lemma fsteps_ranks tr w w' :
  fsteps tr w w' -> own_steps tr + ranks (f_callers w') <= ranks (f_callers w).
Proof.
  unfold own_steps. induction 1 as [|a w1 w2 tr w3 H1 H2 IH]; cbn; [lia|].
  destruct H1 as [i key p s p' s' cs Hi Ha|c' l' s cs]; cbn in *; [|done].
  pose proof (ranks_insert _ _ _ _ p' Hi). pose proof (advance_rank _ _ _ _ _ _ Ha). lia.
Qed.
Lemma ranks_initial keys : ranks ((fun k => (k, PStart)) <$> keys) = 5 * length keys.
Proof.
  unfold ranks. induction keys as [|k keys IH]; [done|]. rewrite fmap_cons.
  cbn [sum_list_with rank snd length]. lia.
Qed.

(** ** A caller alone *)

(** A caller that nobody disturbs does what the sequential definitions say. *)
Fixpoint solo (next : pc -> shared -> option (go (shared * pc))) (fuel : nat) (p : pc) (s : shared)
  : option (go (shared * pc)) :=
  match fuel, p with
  | O, _ | _, PDone _ => Some (Ok (s, p))
  | S fuel', _ =>
      match next p s with
      | Some (Ok (s', p')) => solo next fuel' p' s'
      | o => o
      end
  end.
(** What is left of a run: the cache, the database and the answer. *)
Definition outcome (a : option (go (shared * pc))) (tasks : list (prog unit))
  : go (world (C := C) (V := V) (L := L) * ret) :=
  match a with
  | Some (Ok (s, PDone x)) => Ok (mkWorld (s_c s) (s_l s) tasks, x)
  | Some (Panic e) => Panic e
  | _ => Panic PFuel
  end.

(** The cache of [SingleFlightCacheV1] and that of [GetV3], by what they store
    and what they return with a failed store. *)
Definition flight_Get (key : string) : W (C := C) (V := V) (L := L) ret := fun w =>
  match cache_Get key (w_c w) with
  | Ok (c, inl ErrNoValue) => alone (load_and_set r cached failed key) (mkWorld c (w_l w) (w_tasks w))
  | Ok (c, x) => Ok (mkWorld c (w_l w) (w_tasks w), pair_of nil x)
  | Panic e => Panic e
  end.
Lemma solo_flight_Get i key w g res :
  g_flight g key = None ->
  outcome (solo (advance i key) 5 PStart (mkShared (w_c w) (w_l w) g res)) (w_tasks w) = flight_Get key w.
Proof.
  intros Hg. unfold flight_Get. cbn [solo advance s_c].
  destruct (cache_Get key (w_c w)) as [[c [[]|v]]|e]; try done.
  cbn [solo advance s_g s_l s_c s_res]. rewrite Hg. cbn [solo advance s_g s_l s_c s_res].
  run_alone.
  destruct (LoadFunc r key (w_l w)) as [l [v [er|]]]; [done|].
  cbn [solo advance s_g s_l s_c s_res w_l w_c w_tasks].
  run_alone. by destruct (cache_Set key (cached v) (rt_expiration r) c) as [[c' [er|[]]]|e].
Qed.

(** ** A group of one's own *)

(** [ReadThroughCache.Get] over the [LoadFunc] of [NewSingleFlightCache], which
    makes a group, calls [Do] on it and leaves it: no result is shared. *)
Definition advance_fresh (key : string) (p : pc) (s : shared) : option (go (shared * pc)) :=
  let miss := PDone (nil, Some ErrNoValue) in
  match p with
  | PStart => Some (
      match cache_Get key (s_c s) with
      | Ok (c, x) =>
          Ok (mkShared c (s_l s) (s_g s) (s_res s),
              match x with inl ErrNoValue => PJoin | _ => PDone (pair_of nil x) end)
      | Panic e => Panic e
      end)
  | PJoin => Some (Ok (s, match g_flight g_new key with Some j => PWait j | None => PLoad end))
  | PLoad => Some (
      let '(l, y) := LoadFunc r key (s_l s) in
      Ok (mkShared (s_c s) l (s_g s) (s_res s), match y with (v, None) => PSet v | _ => miss end))
  | PSet v => Some (
      match cache_Set key v (rt_expiration r) (s_c s) with
      | Ok (c, er) =>
          Ok (mkShared c (s_l s) (s_g s) (s_res s),
              match er with
              | inl er => PDone (nil, Some (ErrFailToRefreshCache er))
              | inr _ => miss
              end)
      | Panic e => Panic e
      end)
  | _ => None
  end.
Lemma solo_fresh {HL : FlightLaws G} key w g res :
  outcome (solo (advance_fresh key) 4 PStart (mkShared (w_c w) (w_l w) g res)) (w_tasks w) =
  alone (ReadThrough_Get nil r key) w.
Proof.
  run_alone.
  destruct (cache_Get key (w_c w)) as [[c [[]|v]]|e]; try done.
  run_alone. rewrite flight_new. run_alone.
  destruct (LoadFunc r key (w_l w)) as [l [v [er|]]]; [done|].
  run_alone. by destruct (cache_Set key v (rt_expiration r) c) as [[c' [er|[]]]|e].
Qed.

Inductive fresh_step : fworld -> fworld -> Prop :=
  fresh_step_intro i key p s p' s' cs :
    cs !! i = Some (key, p) -> advance_fresh key p s = Some (Ok (s', p')) ->
    fresh_step (mkFworld s cs) (mkFworld s' (<[i := (key, p')]> cs)).

(** One more caller of a missing key gets to its load, wherever the others are. *)
Lemma fresh_load {HL : FlightLaws G} i key s cs :
  cs !! i = Some (key, PStart) -> cache_Get key (s_c s) = Ok (s_c s, inl ErrNoValue) ->
  rtc fresh_step (mkFworld s cs) (mkFworld s (<[i := (key, PLoad)]> cs)).
Proof.
  intros Hi Hg. destruct s as [c l g res]. cbn in Hg.
  apply rtc_l with (mkFworld (mkShared c l g res) (<[i := (key, PJoin)]> cs)).
  { apply fresh_step_intro with PStart; [done|]. cbn. by rewrite Hg. }
  rewrite <-(list_insert_insert_eq cs i (key, PLoad) (key, PJoin)). apply rtc_once.
  apply fresh_step_intro with PJoin; [by eapply lookup_here|]. cbn. by rewrite flight_new.
Qed.

(** All callers of a missing key can be loading at the same time. *)
Lemma fresh_herd {HL : FlightLaws G} key n c l :
  cache_Get key c = Ok (c, inl ErrNoValue) ->
  rtc fresh_step (finitial (replicate n key) c l)
    (mkFworld (mkShared c l g_new ∅) (replicate n (key, PLoad))).
Proof.
  intros Hg. unfold finitial. rewrite fmap_replicate.
  assert (forall m k, rtc fresh_step
    (mkFworld (mkShared c l g_new ∅) (replicate m (key, PLoad) ++ replicate k (key, PStart)))
    (mkFworld (mkShared c l g_new ∅) (replicate (m + k) (key, PLoad)))) as K.
  { intros m k. revert m. induction k as [|k IH]; intros m.
    - rewrite Nat.add_0_r. cbn. by rewrite app_nil_r.
    - etransitivity; [apply (fresh_load m key); [|done]|].
      + rewrite lookup_app_r by (by rewrite length_replicate). by rewrite length_replicate, Nat.sub_diag.
      + replace m with (length (replicate m (key, PLoad)) + 0) at 1 by (rewrite length_replicate; lia).
        rewrite insert_app_r. cbn. specialize (IH (S m)).
        rewrite replicate_S_end, <-app_assoc in IH. by rewrite <-Nat.add_succ_comm. }
  apply (K 0 n).
Qed.

(** C18. Callers of a cache whose singleflight group is shared ([GetV3] and
    [SingleFlightCacheV1.Get]), interleaved with each other and with anything
    that happens to the cache and the database.  At most one of them loads a
    given key at a time; a caller that waits for a call of another one joined it
    for the same key, and when it is done it has exactly the answer of the
    caller that loaded; the callers never block each other for ever, and all
    together they take at most five steps each.  With a group of its own per
    call, as [NewSingleFlightCache] makes it, any number of callers of a missing
    key load at the same time. *)
Theorem singleflight_shares {HL : FlightLaws G} keys c l tr w :
  fsteps tr (finitial keys c l) w ->
  (forall i j k p q, f_callers w !! i = Some (k, p) -> f_callers w !! j = Some (k, q) ->
     leading p -> leading q -> i = j) /\
  (forall i j k tr' w' x, f_callers w !! i = Some (k, PWait j) -> fsteps tr' w w' ->
     f_callers w' !! i = Some (k, PDone x) -> f_callers w' !! j = Some (k, PDone x)) /\
  (forall i k p, f_callers w !! i = Some (k, p) -> (forall x, p <> PDone x) -> can_advance w) /\
  own_steps tr <= 5 * length keys /\
  (forall key n, cache_Get key c = Ok (c, inl ErrNoValue) ->
     rtc fresh_step (finitial (replicate n key) c l)
       (mkFworld (mkShared c l g_new ∅) (replicate n (key, PLoad)))).
Proof.
  intros Htr. pose proof (flight_inv_steps _ _ _ Htr (finitial_inv _ _ _)) as HI. split_and!.
  - intros i j k p q Hi Hj Hp Hq.
    pose proof (inv_leading _ HI _ _ _ Hi Hp). pose proof (inv_leading _ HI _ _ _ Hj Hq). congruence.
  - intros i j k tr' w' x Hi Htr' Hx.
    destruct (wait_steps _ _ _ _ _ _ Htr' HI Hi) as [Hw|(y & Hy & Hj)]; [congruence|].
    rewrite Hx in Hy. by injection Hy as ->.
  - intros i k p. by apply flight_progress.
  - pose proof (fsteps_ranks _ _ _ Htr) as Hr. cbn in Hr. rewrite ranks_initial in Hr. lia.
  - intros key n. apply fresh_herd.
Qed.
End flight.

(** Over a shared group, what is stored and returned with a failed store: [GetV3]
    and [SingleFlightCacheV1.Get]. *)
Lemma GetV3_solo {C V L G} {HC : CacheOps C V} {HG : Flight G} (nil : V)
    (r : ReadThroughCache (V := V) (L := L)) i key w (g : G) res :
  g_flight g key = None ->
  outcome (solo (advance nil r id (fun _ => nil) i key) 5 PStart (mkShared (w_c w) (w_l w) g res)) (w_tasks w) =
  alone (ReadThrough_GetV3 nil r key) w.
Proof.
  intros Hg. rewrite solo_flight_Get by done.
  unfold flight_Get. cbn -[load_and_set p_do]. unfold mbind, W_bind, on_cache. destruct (cache_Get key (w_c w)) as [[c [[]|v]]|e]; try done.
  symmetry. apply alone_do.
Qed.
Lemma SingleFlightV1_solo {C V L G} {HC : CacheOps C V} {HG : Flight G} (nil : V)
    (r : ReadThroughCache (V := V) (L := L)) i key w (g : G) res :
  g_flight g key = None ->
  outcome (solo (advance nil r (fun _ => nil) id i key) 5 PStart (mkShared (w_c w) (w_l w) g res)) (w_tasks w) =
  alone (SingleFlightV1_Get nil r key) w.
Proof.
  intros Hg. rewrite solo_flight_Get by done.
  unfold flight_Get. cbn -[load_and_set p_do]. unfold mbind, W_bind, on_cache. destruct (cache_Get key (w_c w)) as [[c [[]|v]]|e]; try done.
  symmetry. apply alone_do.
Qed.

(** Two callers of a missing key: the second joins the call of the first. *)
Definition flight_evict : string -> nat -> unit -> unit := fun _ _ e => e.
Definition flight_cache : timed (V := nat) (E := unit) := mkTimed (NewBuildInMapCache tt) 0.
Definition flight_reader : ReadThroughCache (V := nat) (L := nat) :=
  mkReadThrough (fun _ l => (S l, (42, None))) 10.
Definition flight_joined : fworld (C := timed (V := nat) (E := unit)) (V := nat) (L := nat) (G := gmap string nat) :=
  mkFworld (mkShared flight_cache 0 {[ "k" := 0 ]} ∅) [("k", PLoad); ("k", PWait 0)].

Lemma singleflight_shares_witness :
  (forall tr' w' x,
     fsteps (HC := local_CacheOps flight_evict) 0 flight_reader id (fun _ => 0) tr' flight_joined w' ->
     f_callers w' !! 1 = Some ("k", PDone x) -> f_callers w' !! 0 = Some ("k", PDone x)) /\
  can_advance (HC := local_CacheOps flight_evict) 0 flight_reader id (fun _ => 0) flight_joined.
Proof.
  assert (fsteps (HC := local_CacheOps flight_evict) 0 flight_reader id (fun _ => 0)
    [Some 0; Some 1; Some 0; Some 1] (finitial ["k"; "k"] flight_cache 0) flight_joined) as Hrun.
  { repeat (eapply fsteps_cons; [eapply fstep_caller; reflexivity|]). apply fsteps_nil. }
  destruct (singleflight_shares (HC := local_CacheOps flight_evict) 0 flight_reader id (fun _ => 0)
    ["k"; "k"] flight_cache 0 _ flight_joined Hrun) as (_ & H2 & H3 & _).
  split.
  - intros tr' w' x. exact (H2 1 0 "k" tr' w' x eq_refl).
  - apply (H3 1 "k" (PWait 0) eq_refl). discriminate.
Defined.
