(* ===== verification/Coherence.v ===== *)
(** The cache patterns over a database: [cache/read_through.go],
    [cache/write_through.go], [cache/bloom_cache.go] and [cache/singleflight.go]
    together.

    Any number of callers of the reads and writes of the patterns and the
    goroutines they start, interleaved at each of their operations on the cache,
    the database and the singleflight group, over any cache that only holds what
    was set and any database.  [patterns_coherent] says which keys are then safe
    to read, and that a read of a safe key is a read of the database. *)
From stdpp Require Import gmap.
From S2P Require Import Prelude Cache MaxCnt Patterns Flight.

(** ** What the patterns need *)

(** A cache holds what was set last, or less: values may go at any time, and a
    [Set] that fails may have happened or not. *)
Class CacheView (C V : Type) {HC : CacheOps C V} := {
  view : C -> gmap string V;
  Get_view : forall key c c' x, cache_Get key c = Ok (c', x) ->
    view c' ⊆ view c /\ forall v, x = inr v -> view c !! key = Some v;
  Set_view : forall key v exp c c' x, cache_Set key v exp c = Ok (c', x) ->
    (x = inr tt -> view c' ⊆ <[key := v]> (view c)) /\
    forall k u, view c' !! k = Some u -> view c !! k = Some u \/ (k = key /\ u = v)
}.
(** The functions that load from a database and store into it: a load finds what
    is there, and a store that fails does nothing. *)
Class Backend {V L : Type} (load : string -> L -> L * (V * option cache_error))
    (store : string -> V -> L -> L * option cache_error) := {
  table : L -> gmap string V;
  load_table : forall key l l' v err, load key l = (l', (v, err)) ->
    table l' = table l /\ (err = None -> table l !! key = Some v);
  store_table : forall key v l l' err, store key v l = (l', err) ->
    table l' = match err with None => <[key := v]> (table l) | Some _ => table l end
}.

Section coherence.
Context {C V L G : Type} {HC : CacheOps C V} {HG : Flight G}.
Context (nil : V) (isT : V -> bool) (HasKey : string -> bool).
Context (r : ReadThroughCache (V := V) (L := L)) (store : string -> V -> L -> L * option cache_error).
Abbreviation prog := (@Patterns.prog V L).
Abbreviation ret := (V * option cache_error)%type.

(** ** The calls *)

Inductive access :=
  | AGet (key : string) | AGetV1 (key : string) | AGetV2 (key : string) | AGetV3 (key : string)
  | ATyped (key : string) | ABloom (key : string) | ASingle (key : string)
  | ASet (key : string) (v : V) (expiration : Z) | ASetV1 (key : string) (v : V) (expiration : Z)
  | ASetV2 (key : string) (v : V) (expiration : Z) | ASetV3 (key : string) (v : V) (expiration : Z).
Definition no_value (err : option cache_error) : ret := (nil, err).
Definition perform (a : access) : prog ret :=
  match a with
  | AGet key => ReadThrough_Get nil r key
  | AGetV1 key => ReadThrough_GetV1 nil r key
  | AGetV2 key => ReadThrough_GetV2 nil r key
  | AGetV3 key => ReadThrough_GetV3 nil r key
  | ATyped key => ReadThroughV1_Get nil isT r key
  | ABloom key => BloomV1_Get nil HasKey r key
  | ASingle key => SingleFlightV1_Get nil r key
  | ASet key v exp => err ← WriteThrough_Set store key v exp; mret (no_value err)
  | ASetV1 key v exp => err ← WriteThrough_SetV1 store key v exp; mret (no_value err)
  | ASetV2 key v exp => err ← WriteThrough_SetV2 store key v exp; mret (no_value err)
  | ASetV3 key v exp => err ← WriteThrough_SetV3 store key v exp; mret (no_value err)
  end.
Definition reads (a : access) : option string :=
  match a with
  | AGet key | AGetV1 key | AGetV2 key | AGetV3 key | ATyped key | ABloom key | ASingle key => Some key
  | _ => None
  end.

(** ** Goroutines *)

(** A call of the group: its number, its key and what the caller does with the
    answer. *)
Record frame := mkFrame { fr_call : nat; fr_key : string; fr_k : ret -> prog ret }.
(** A goroutine runs, inside the calls of the group that it leads; or it waits
    for a call of another one. *)
Inductive thread :=
  | Running (p : prog ret) (fs : list frame)
  | Waiting (n : nat) (k : ret -> prog ret) (fs : list frame).
(** A goroutine that was started by [go]; nobody gets an answer. *)
Definition goroutine (t : prog unit) : thread := Running (t ≫= fun _ => mret (nil, None)) [].

(** What the goroutines share: the cache, the database, the group and the
    answers of its calls. *)
Record memory := mkMemory { m_c : C; m_l : L; m_g : G; m_calls : list (option ret) }.
(** What a step did. *)
Inductive effect :=
  | Silent
  | Loaded (key : string) (v : V)
  | Stored (key : string) (v : V)
  | Cached (key : string) (ok : bool)
  | Spawned (t : prog unit).
(** The next step of a goroutine; [None] when it has returned or must wait, and
    [Panic] when it ends the program.  A call of [Do] joins the call in flight, or
    begins one that ends when its function returns. *)
Definition advance (t : thread) (m : memory) : option (go (memory * thread * effect)) :=
  match t with
  | Running (CRet x) [] => None
  | Running (CRet x) (f :: fs) => Some (Ok
      (mkMemory (m_c m) (m_l m) (g_end (fr_key f) (fr_call f) (m_g m)) (<[fr_call f := Some x]> (m_calls m)),
       Running (fr_k f x) fs, Silent))
  | Running (CPanic e) _ => Some (Panic e)
  | Running (CGet key k) fs => Some
      match cache_Get key (m_c m) with
      | Ok (c, x) => Ok (mkMemory c (m_l m) (m_g m) (m_calls m), Running (k x) fs, Silent)
      | Panic e => Panic e
      end
  | Running (CSet key v exp k) fs => Some
      match cache_Set key v exp (m_c m) with
      | Ok (c, x) =>
          Ok (mkMemory c (m_l m) (m_g m) (m_calls m), Running (k x) fs,
              Cached key match x with inl _ => false | inr _ => true end)
      | Panic e => Panic e
      end
  | Running (CLoad f key k) fs => Some
      (let '(l, x) := f key (m_l m) in
       Ok (mkMemory (m_c m) l (m_g m) (m_calls m), Running (k x) fs,
           match x with (v, None) => Loaded key v | _ => Silent end))
  | Running (CStore f key v k) fs => Some
      (let '(l, err) := f key v (m_l m) in
       Ok (mkMemory (m_c m) l (m_g m) (m_calls m), Running (k err) fs,
           match err with None => Stored key v | Some _ => Silent end))
  | Running (CGo t k) fs => Some (Ok (m, Running k fs, Spawned t))
  | Running (CDo key fn k) fs => Some (Ok
      match g_flight (m_g m) key with
      | Some n => (m, Waiting n k fs, Silent)
      | None =>
          let n := length (m_calls m) in
          (mkMemory (m_c m) (m_l m) (g_begin key n (m_g m)) (m_calls m ++ [None]),
           Running fn (mkFrame n key k :: fs), Silent)
      end)
  | Waiting n k fs =>
      match m_calls m !! n with
      | Some (Some x) => Some (Ok (m, Running (k x) fs, Silent))
      | _ => None
      end
  end.

Record system := mkSystem { mem : memory; threads : list thread }.
Definition spawned (e : effect) : list thread := match e with Spawned t => [goroutine t] | _ => [] end.
Definition step (i : nat) (w : system) : option (go (system * effect)) :=
  match threads w !! i with
  | Some t =>
      match advance t (mem w) with
      | Some (Ok (m, t', e)) => Some (Ok (mkSystem m (<[i := t']> (threads w) ++ spawned e), e))
      | Some (Panic e) => Some (Panic e)
      | None => None
      end
  | None => None
  end.
Definition call (a : access) (w : system) : system :=
  mkSystem (mem w) (threads w ++ [Running (perform a) []]).
(** Time passes, or another client acts: the cache is another one. *)
Definition recache (c : C) (w : system) : system :=
  mkSystem (mkMemory c (m_l (mem w)) (m_g (mem w)) (m_calls (mem w))) (threads w).
(** [fuel] steps of a goroutine with nobody between them; five are enough for
    every call. *)
Fixpoint undisturbed (fuel : nat) (t : thread) (m : memory) : go (memory * thread) :=
  match fuel with
  | O => Ok (m, t)
  | S fuel' =>
      match advance t m with
      | Some (Ok (m', t', _)) => undisturbed fuel' t' m'
      | Some (Panic e) => Panic e
      | None => Ok (m, t)
      end
  end.

(** ** What goroutines carry *)

(** The value that a program is about to put in the cache. *)
Fixpoint carries {A} (p : Patterns.prog (V := V) (L := L) A) : option (string * V) :=
  match p with
  | CSet key v _ _ => Some (key, v)
  | CGo t _ => carries t
  | _ => None
  end.
Definition carried (t : thread) : option (string * V) :=
  match t with Running p _ => carries p | Waiting _ _ _ => None end.
Definition carried_by (w : system) (i : nat) : option (string * V) := threads w !! i ≫= carried.
Definition carriers (key : string) (w : system) : gset nat :=
  filter (fun i => fst <$> carried_by w i = Some key) (set_seq 0 (length (threads w))).

(** ** Stale keys *)

Context {EV : EqDecision V}.
(** A goroutine carries what the database has when it has just loaded or stored it. *)
Definition fresh (e : effect) (o : option (string * V)) : bool :=
  match o with
  | None => true
  | Some kv => match e with Loaded key v | Stored key v => bool_decide (kv = (key, v)) | _ => false end
  end.
(** The keys whose cached value may not be the one of the database, and the
    goroutines that carry a value that may not be.  A store makes its key stale,
    and everybody else who carries it; the cache's [Set] makes a key safe when
    the goroutine carries what the database has. *)
Definition stale_keys (i : nat) (e : effect) (D : gset string) (S : gset nat) : gset string :=
  match e with
  | Stored key _ => D ∪ {[key]}
  | Cached key ok => if decide (i ∈ S) then D ∪ {[key]} else if ok then D ∖ {[key]} else D
  | _ => D
  end.
(** A goroutine that is started is as good as the one that starts it. *)
Definition stale_others (i : nat) (e : effect) (w : system) (S : gset nat) : gset nat :=
  match e with
  | Stored key _ => S ∪ carriers key w
  | Spawned _ =>
      let j := length (threads w) in if decide (i ∈ S) then S ∪ {[j]} else S ∖ {[j]}
  | _ => S
  end.
Definition stale_carriers (i : nat) (e : effect) (w w' : system) (S : gset nat) : gset nat :=
  if fresh e (carried_by w' i) then stale_others i e w S ∖ {[i]} else stale_others i e w S ∪ {[i]}.

(** ** Runs *)

Context {HV : CacheView C V} {HB : Backend (LoadFunc r) store}.
Abbreviation tbl := (table (load := LoadFunc r) (store := store)).
Inductive event := Call (a : access) | Step (i : nat) | Recache (c : C).
(** The events so far with the states they happened in and what they did, the
    state, the stale keys and the stale carriers. *)
Inductive run (w0 : system) : list (system * event * effect) -> system -> gset string -> gset nat -> Prop :=
  | run_nil : run w0 [] w0 ∅ ∅
  | run_call a tr w D S : run w0 tr w D S ->
      run w0 (tr ++ [(w, Call a, Silent)]) (call a w) D
        (stale_carriers (length (threads w)) Silent w (call a w) S)
  | run_step i tr w w' e D S : run w0 tr w D S -> step i w = Some (Ok (w', e)) ->
      run w0 (tr ++ [(w, Step i, e)]) w' (stale_keys i e D S) (stale_carriers i e w w' S)
  | run_recache c tr w D S : run w0 tr w D S -> view c ⊆ view (m_c (mem w)) ->
      run w0 (tr ++ [(w, Recache c, Silent)]) (recache c w) D S.

(** The calls that leave a gap by themselves: [SetV1] caches before it stores,
    [SetV2] caches what the database may have refused, and [SingleFlightCacheV1.Get]
    caches nil. *)
Definition leaves_gap (a : access) : option string :=
  match a with ASetV1 key _ _ | ASetV2 key _ _ | ASingle key => Some key | _ => None end.
(** Nothing goes wrong with a key: no such call, no [Set] of the cache that fails,
    and no store while another goroutine carries a value for the key. *)
Definition calm (key : string) (x : system * event * effect) : Prop :=
  match x with
  | (_, Call a, _) => leaves_gap a <> Some key
  | (w, Step i, Stored k _) => k = key -> carriers key w ⊆ {[i]}
  | (_, Step _, Cached k ok) => k = key -> ok = true
  | _ => True
  end.

(** ** Programs that keep to the database *)

Fixpoint lawful {A} (p : Patterns.prog (V := V) (L := L) A) : Prop :=
  match p with
  | CRet _ | CPanic _ => True
  | CGet _ k => forall x, lawful (k x)
  | CSet _ _ _ k => forall x, lawful (k x)
  | CLoad f _ k => f = LoadFunc r /\ forall x, lawful (k x)
  | CStore f _ _ k => f = store /\ forall x, lawful (k x)
  | CGo t k => lawful t /\ lawful k
  | CDo _ fn k => lawful fn /\ forall x, lawful (k x)
  end.
(** A program that only caches for [key] what it has just loaded or stored, [o] at
    first, and that does cache what it stores. *)
Fixpoint honest {A} (key : string) (o : option V) (p : Patterns.prog (V := V) (L := L) A) : Prop :=
  match p with
  | CRet _ | CPanic _ => True
  | CGet _ k => forall x, honest key None (k x)
  | CSet k' v _ k => (k' = key -> o = Some v) /\ forall x, honest key None (k x)
  | CLoad _ k' k =>
      (forall v, honest key (if decide (k' = key) then Some v else None) (k (v, None))) /\
      forall v e, honest key None (k (v, Some e))
  | CStore _ k' v k =>
      (if decide (k' = key) then honest key (Some v) (k None) /\ carries (k None) = Some (key, v)
       else honest key None (k None)) /\
      forall e, honest key None (k (Some e))
  | CGo t k => honest key o t /\ honest key None k
  | CDo _ fn k => honest key None fn /\ forall x, honest key None (k x)
  end.
Definition in_thread (P : prog ret -> Prop) (Q : prog ret -> Prop) (t : thread) : Prop :=
  match t with
  | Running p fs => P p /\ Forall (fun f => forall x, Q (fr_k f x)) fs
  | Waiting _ k fs => (forall x, Q (k x)) /\ Forall (fun f => forall x, Q (fr_k f x)) fs
  end.
Abbreviation lawful_thread := (in_thread lawful lawful).
Abbreviation honest_thread key o := (in_thread (honest key o) (honest key None)).

(** Goes through every branch of a program. *)
Ltac branches :=
  repeat first
    [ progress cbn
    | progress unfold assertT, set_or_die, log_Fatalln
    | match goal with
      | |- _ /\ _ => split
      | |- forall _, _ => intros ?
      | |- context [match ?x with _ => _ end] => destruct x eqn:?
      end
    | progress simplify_eq
    | done ].
Lemma lawful_perform a : lawful (perform a).
Proof. destruct a; branches. Qed.
Lemma honest_perform key a : leaves_gap a <> Some key -> honest key None (perform a).
Proof. destruct a; intros Hgap; branches. Qed.

(** ** A step *)

Definition memory_after (t : thread) (m m' : memory) (e : effect) : Prop :=
  match e with
  | Silent | Spawned _ => tbl (m_l m') = tbl (m_l m) /\ view (m_c m') ⊆ view (m_c m)
  | Loaded key v => tbl (m_l m') = tbl (m_l m) /\ m_c m' = m_c m /\ tbl (m_l m) !! key = Some v
  | Stored key v => tbl (m_l m') = <[key := v]> (tbl (m_l m)) /\ m_c m' = m_c m
  | Cached key ok => tbl (m_l m') = tbl (m_l m) /\ exists v, carried t = Some (key, v) /\
      (ok = true -> view (m_c m') ⊆ <[key := v]> (view (m_c m))) /\
      forall k u, view (m_c m') !! k = Some u -> view (m_c m) !! k = Some u \/ (k = key /\ u = v)
  end.
Lemma advance_memory t m m' t' e :
  advance t m = Some (Ok (m', t', e)) -> lawful_thread t -> memory_after t m m' e.
Proof.
  intros Ha HL. destruct t as [[x|q|key k|key v exp k|f key k|f key v k|t k|key fn k] fs|n k fs]; cbn in Ha.
  - destruct fs as [|f fs]; [done|]. by injection Ha as <- <- <-.
  - done.
  - destruct (cache_Get key (m_c m)) as [[c x]|] eqn:E; [|done]. injection Ha as <- <- <-.
    split; [done|]. by destruct (Get_view _ _ _ _ E).
  - destruct (cache_Set key v exp (m_c m)) as [[c x]|] eqn:E; [|done]. injection Ha as <- <- <-.
    destruct (Set_view _ _ _ _ _ _ E) as [H1 H2]. split; [done|]. exists v. split; [done|]. split; [|done].
    by destruct x as [|[]]; intros ?; [|apply H1].
  - destruct HL as [[-> HL] _]. destruct (LoadFunc r key (m_l m)) as [l [v err]] eqn:E. injection Ha as <- <- <-.
    destruct (load_table (store := store) _ _ _ _ _ E) as [H1 H2]. destruct err; [done|]. split_and!; [done|done|by apply H2].
  - destruct HL as [[-> HL] _]. destruct (store key v (m_l m)) as [l err] eqn:E. injection Ha as <- <- <-.
    pose proof (store_table (load := LoadFunc r) _ _ _ _ _ E) as H1. by destruct err.
  - by injection Ha as <- <- <-.
  - by destruct (g_flight (m_g m) key); injection Ha as <- <- <-.
  - destruct (m_calls m !! n) as [[x|]|]; [|done..]. by injection Ha as <- <- <-.
Qed.
Lemma advance_spawns t m m' t' t0 : advance t m = Some (Ok (m', t', Spawned t0)) ->
  exists k fs, t = Running (CGo t0 k) fs /\ t' = Running k fs.
Proof.
  destruct t as [[x|q|key k|key v exp k|f key k|f key v k|t k|key fn k] fs|n k fs]; cbn; intros Ha.
  - by destruct fs.
  - done.
  - by destruct (cache_Get key (m_c m)) as [[c x]|].
  - by destruct (cache_Set key v exp (m_c m)) as [[c x]|].
  - by destruct (f key (m_l m)) as [l [v [err|]]].
  - by destruct (f key v (m_l m)) as [l [err|]].
  - injection Ha as <- <- <-. eauto.
  - by destruct (g_flight (m_g m) key).
  - by destruct (m_calls m !! n) as [[x|]|].
Qed.
(** What is known of the database after a step. *)
Definition known (key : string) (e : effect) : option V :=
  match e with Loaded k v | Stored k v => if decide (k = key) then Some v else None | _ => None end.
Lemma honest_weaken {A} key o (p : Patterns.prog (V := V) (L := L) A) : honest key None p -> honest key o p.
Proof.
  revert o. induction p; intros o; cbn; try done.
  - intros [H1 H2]. split; [|done]. intros E. by specialize (H1 E).
  - intros [H1 H2]. split; [by apply IHp1|done].
Qed.
Lemma lawful_goroutine t : lawful t -> lawful_thread (goroutine t).
Proof.
  intros Ht. split; [|by constructor].
  assert (forall A (p : Patterns.prog (V := V) (L := L) A) B (f : A -> Patterns.prog (V := V) (L := L) B),
    lawful p -> (forall a, lawful (f a)) -> lawful (p ≫= f)) as K.
  { intros A p. induction p; intros B g; cbn; intros Hp Hg; try (by apply Hg); try done; intuition eauto. }
  by apply K.
Qed.
Lemma goroutine_carries {A B} (p : Patterns.prog (V := V) (L := L) A) (b : B) :
  carries (p ≫= fun _ => mret b) = carries p.
Proof. by destruct p. Qed.
Lemma honest_goroutine key o t : honest key o t -> honest_thread key o (goroutine t).
Proof.
  intros Ht. split; [|by constructor]. revert o Ht.
  assert (forall A (p : Patterns.prog (V := V) (L := L) A) B (b : B) o,
    honest key o p -> honest key o (p ≫= fun _ => mret b)) as K.
  { intros A p. induction p; intros B b o; cbn; try done; try (intuition eauto; fail).
    intros [H1 H2]. split; [|eauto]. case_decide; [|eauto]. destruct H1 as [H1 H3]. split; [eauto|].
    rewrite <-H3. apply goroutine_carries. }
  intros o. apply K.
Qed.
Lemma advance_lawful t m m' t' e : advance t m = Some (Ok (m', t', e)) -> lawful_thread t ->
  lawful_thread t' /\ Forall lawful_thread (spawned e).
Proof.
  intros Ha HL. destruct t as [[x|q|key k|key v exp k|f key k|f key v k|t k|key fn k] fs|n k fs];
    cbn in Ha; destruct HL as [H1 H2]; cbn in H1.
  - destruct fs as [|f fs]; [done|]. apply Forall_cons in H2 as [H2 H3]. injection Ha as <- <- <-. by repeat constructor.
  - done.
  - destruct (cache_Get key (m_c m)) as [[c x]|]; [|done]. injection Ha as <- <- <-. by repeat constructor.
  - destruct (cache_Set key v exp (m_c m)) as [[c x]|]; [|done]. injection Ha as <- <- <-. by repeat constructor.
  - destruct (f key (m_l m)) as [l [v [err|]]]; injection Ha as <- <- <-; repeat constructor; try done; apply H1.
  - destruct (f key v (m_l m)) as [l [err|]]; injection Ha as <- <- <-; repeat constructor; try done; apply H1.
  - injection Ha as <- <- <-. destruct H1. repeat constructor; try done. by apply lawful_goroutine.
  - destruct H1. destruct (g_flight (m_g m) key); injection Ha as <- <- <-; by repeat constructor.
  - destruct (m_calls m !! n) as [[x|]|]; [|done..]. injection Ha as <- <- <-. by repeat constructor.
Qed.
Lemma advance_honest key o t m m' t' e : advance t m = Some (Ok (m', t', e)) -> honest_thread key o t ->
  honest_thread key (known key e) t' /\ Forall (honest_thread key o) (spawned e).
Proof.
  intros Ha HL. destruct t as [[x|q|k' k|k' v exp k|f k' k|f k' v k|t k|k' fn k] fs|n k fs];
    cbn in Ha; destruct HL as [H1 H2]; cbn in H1.
  - destruct fs as [|f fs]; [done|]. apply Forall_cons in H2 as [H2 H3]. injection Ha as <- <- <-. by repeat constructor.
  - done.
  - destruct (cache_Get k' (m_c m)) as [[c x]|]; [|done]. injection Ha as <- <- <-. by repeat constructor.
  - destruct (cache_Set k' v exp (m_c m)) as [[c x]|]; [|done]. injection Ha as <- <- <-. destruct H1. by repeat constructor.
  - destruct (f k' (m_l m)) as [l [v [err|]]]; injection Ha as <- <- <-; repeat constructor; try done; apply H1.
  - destruct (f k' v (m_l m)) as [l [err|]]; injection Ha as <- <- <-; repeat constructor; try done; [apply H1|].
    cbn. destruct H1 as [H1 _]. case_decide; apply H1.
  - injection Ha as <- <- <-. destruct H1. repeat constructor; try done. by apply honest_goroutine.
  - destruct H1. destruct (g_flight (m_g m) k'); injection Ha as <- <- <-; by repeat constructor.
  - destruct (m_calls m !! n) as [[x|]|]; [|done..]. injection Ha as <- <- <-. by repeat constructor.
Qed.
(** An honest goroutine carries what is known, and goes on to carry what it stores. *)
Lemma honest_carried key o t v : honest_thread key o t -> carried t = Some (key, v) -> o = Some v.
Proof.
  destruct t as [p fs|n k fs]; [|done]. intros [H _] Hc. cbn in *. revert H Hc.
  assert (forall A (p : Patterns.prog (V := V) (L := L) A), honest key o p -> carries p = Some (key, v) -> o = Some v) as K.
  { intros A q. induction q; cbn; try done.
    - intros [H1 _] [= -> ->]. by apply H1.
    - intros [H1 _]. by apply IHq1. }
  apply K.
Qed.
Lemma honest_stores key o t m m' t' v : advance t m = Some (Ok (m', t', Stored key v)) -> honest_thread key o t ->
  carried t' = Some (key, v).
Proof.
  intros Ha Hh. destruct t as [[x|q|k' k|k' u exp k|f k' k|f k' u k|t k|k' fn k] fs|n k fs];
    cbn in Ha; destruct Hh as [H _]; cbn in H.
  - by destruct fs.
  - done.
  - by destruct (cache_Get k' (m_c m)) as [[c x]|].
  - by destruct (cache_Set k' u exp (m_c m)) as [[c x]|].
  - by destruct (f k' (m_l m)) as [l [w [err|]]].
  - destruct (f k' u (m_l m)) as [l [err|]]; [done|]. injection Ha as <- <- -> ->.
    destruct H as [H _]. rewrite decide_True in H by done. apply H.
  - done.
  - by destruct (g_flight (m_g m) k').
  - by destruct (m_calls m !! n) as [[x|]|].
Qed.

(** ** Invariants *)

Lemma system_step i w w' e : step i w = Some (Ok (w', e)) ->
  exists t t', threads w !! i = Some t /\ advance t (mem w) = Some (Ok (mem w', t', e)) /\
    threads w' = <[i := t']> (threads w) ++ spawned e.
Proof.
  unfold step. destruct (threads w !! i) as [t|]; [|done].
  destruct (advance t (mem w)) as [[[[m t'] e']|]|] eqn:Ha; [|done..]. intros [= <- <-]. eauto.
Qed.
(** A goroutine after a step: the one that moved, another one, or a new one. *)
Lemma threads_after i t t' e w w' j u :
  threads w !! i = Some t -> threads w' = <[i := t']> (threads w) ++ spawned e -> threads w' !! j = Some u ->
  (j = i /\ u = t') \/ (j <> i /\ j < length (threads w) /\ threads w !! j = Some u) \/
  (j <> i /\ j = length (threads w) /\ exists t0, e = Spawned t0 /\ u = goroutine t0).
Proof.
  intros Hi -> Hj. pose proof (lookup_lt_Some _ _ _ Hi).
  apply lookup_app_Some in Hj as [Hj|[Hle Hj]].
  - apply list_lookup_insert_Some in Hj as [(-> & -> & _)|[Hne Hj]]; [by left|].
    right; left. eauto using lookup_lt_Some.
  - rewrite length_insert in *. right; right. destruct e; try done. cbn in Hj.
    destruct (j - length (threads w)) eqn:E; [|done]. injection Hj as <-. split_and!; [lia|lia|eauto].
Qed.
Lemma carried_by_lookup w i kv : carried_by w i = Some kv <-> exists t, threads w !! i = Some t /\ carried t = Some kv.
Proof. unfold carried_by. by rewrite bind_Some. Qed.
Lemma elem_of_carriers key w i : i ∈ carriers key w <-> exists v, carried_by w i = Some (key, v).
Proof.
  unfold carriers. rewrite elem_of_filter, elem_of_set_seq. split.
  - intros [Hf _]. destruct (carried_by w i) as [[k v]|]; [|done]. injection Hf as ->. eauto.
  - intros [v Hv]. rewrite Hv. split; [done|]. apply carried_by_lookup in Hv as (t & Ht & _).
    apply lookup_lt_Some in Ht. lia.
Qed.
Lemma carrier_steps t m m' t' e key v : advance t m = Some (Ok (m', t', e)) -> carried t = Some (key, v) ->
  (exists ok, e = Cached key ok) \/ exists t0, e = Spawned t0 /\ carried (goroutine t0) = Some (key, v).
Proof.
  intros Ha Hc. destruct t as [[x|q|k' k|k' u exp k|f k' k|f k' u k|t k|k' fn k] fs|n k fs]; try done; cbn in *.
  - destruct (cache_Set k' u exp (m_c m)) as [[c x]|]; [|done]. injection Hc as -> ->. injection Ha as <- <- <-. eauto.
  - injection Ha as <- <- <-. right. exists t. split; [done|]. by rewrite goroutine_carries.
Qed.
Lemma spawned_carried t m m' t' t0 :
  advance t m = Some (Ok (m', t', Spawned t0)) -> carried (goroutine t0) = carried t.
Proof. intros (k & fs & -> & _)%advance_spawns. cbn. apply (goroutine_carries t0). Qed.

(** Outside the stale keys the cache holds, and outside the stale carriers the
    goroutines carry, what the database has. *)
Record coh (D : gset string) (S : gset nat) (w : system) : Prop := {
  coh_view k v : k ∉ D -> view (m_c (mem w)) !! k = Some v -> tbl (m_l (mem w)) !! k = Some v;
  coh_carried i k v : carried_by w i = Some (k, v) -> i ∉ S -> tbl (m_l (mem w)) !! k = Some v;
  coh_lawful i t : threads w !! i = Some t -> lawful_thread t
}.
Lemma coh_view_step i t m m' e D S :
  memory_after t m m' e ->
  (forall k v, k ∉ D -> view (m_c m) !! k = Some v -> tbl (m_l m) !! k = Some v) ->
  (forall k v, carried t = Some (k, v) -> i ∉ S -> tbl (m_l m) !! k = Some v) ->
  forall k v, k ∉ stale_keys i e D S -> view (m_c m') !! k = Some v -> tbl (m_l m') !! k = Some v.
Proof.
  intros Hm HV' Hc k u Hk Hu. destruct e as [|key v|key v|key ok|t0]; cbn in Hm, Hk.
  - destruct Hm as [-> Hm]. apply HV'; [done|]. by eapply lookup_weaken.
  - destruct Hm as (-> & Hm & _). rewrite Hm in Hu. by apply HV'.
  - destruct Hm as [-> Hm]. rewrite Hm in Hu. rewrite lookup_insert_ne by set_solver. apply HV'; [set_solver|done].
  - destruct Hm as (-> & v & Hv & Hok & Hor). case_decide as HS.
    + destruct (Hor _ _ Hu) as [Hu'|[-> ->]]; [apply HV'; [set_solver|done]|set_solver].
    + specialize (Hc _ _ Hv HS). destruct (decide (k = key)) as [->|Hne].
      * destruct ok; [|destruct (Hor _ _ Hu) as [Hu'|[_ ->]]; [by apply HV'|done]].
        pose proof (lookup_weaken _ _ _ _ Hu (Hok eq_refl)) as Hi. rewrite lookup_insert_eq in Hi. congruence.
      * destruct (Hor _ _ Hu) as [Hu'|[-> _]]; [|done]. apply HV'; [|done]. destruct ok; [set_solver|done].
  - destruct Hm as [-> Hm]. apply HV'; [done|]. by eapply lookup_weaken.
Qed.
Lemma not_stale i e w w' S j : j <> i -> j ∉ stale_carriers i e w w' S -> j ∉ stale_others i e w S.
Proof. unfold stale_carriers. case_match; set_solver. Qed.
Lemma stale_self i e w w' S : i ∉ stale_carriers i e w w' S <-> fresh e (carried_by w' i) = true.
Proof. unfold stale_carriers. destruct (fresh _ _); set_solver. Qed.
Lemma coh_step i w w' e D S : step i w = Some (Ok (w', e)) -> coh D S w ->
  coh (stale_keys i e D S) (stale_carriers i e w w' S) w'.
Proof.
  intros Hst [H1 H2 H3]. destruct (system_step _ _ _ _ Hst) as (t & t' & Hi & Ha & Hts).
  pose proof (advance_memory _ _ _ _ _ Ha (H3 _ _ Hi)) as Hm.
  assert (forall k v, carried t = Some (k, v) -> i ∉ S -> tbl (m_l (mem w)) !! k = Some v) as Hc.
  { intros k v Hv. apply H2, carried_by_lookup. eauto. }
  split.
  - eapply coh_view_step; eauto.
  - intros j k u Hj HjS. pose proof Hj as (x & Hx & Hxc)%carried_by_lookup.
    destruct (threads_after _ _ _ _ _ _ _ _ Hi Hts Hx) as [[-> ->]|[(Hne & Hlt & Hjx)|(Hne & -> & t0 & -> & ->)]].
    + apply stale_self in HjS. rewrite Hj in HjS. destruct e as [|key v|key v|key ok|t0]; try done; cbn in HjS;
        apply bool_decide_eq_true_1 in HjS as [= -> ->].
      * by destruct Hm as (-> & _ & ?).
      * destruct Hm as (-> & _). apply lookup_insert_eq.
    + apply not_stale in HjS; [|done]. assert (carried_by w j = Some (k, u)) as Hjw by (apply carried_by_lookup; eauto).
      destruct e as [|key v|key v|key ok|t0]; cbn in HjS, Hm.
      * destruct Hm as [-> _]. eauto.
      * destruct Hm as [-> _]. eauto.
      * destruct Hm as [-> _]. apply not_elem_of_union in HjS as [HjS Hcar]. rewrite elem_of_carriers in Hcar.
        rewrite lookup_insert_ne; [eauto|]. intros <-. eauto.
      * destruct Hm as [-> _]. eauto.
      * destruct Hm as [-> _]. apply (H2 j); [done|]. case_decide; set_solver by lia.
    + apply not_stale in HjS; [|done]. cbn in HjS. destruct Hm as [-> _].
      rewrite (spawned_carried _ _ _ _ _ Ha) in Hxc. apply Hc; [done|]. case_decide; [set_solver|done].
  - intros j x Hx. destruct (advance_lawful _ _ _ _ _ Ha (H3 _ _ Hi)) as [HL1 HL2].
    destruct (threads_after _ _ _ _ _ _ _ _ Hi Hts Hx) as [[-> ->]|[(Hne & Hlt & Hjx)|(Hne & -> & t0 & -> & ->)]];
      [done|eauto|]. by apply Forall_cons in HL2 as [? _].
Qed.

(** Nothing wrong has happened to [key]. *)
Record calm_inv (key : string) (D : gset string) (S : gset nat) (w : system) : Prop := {
  calm_honest i t : threads w !! i = Some t -> exists o, honest_thread key o t;
  calm_carried i v : carried_by w i = Some (key, v) -> i ∉ S;
  calm_stale : key ∈ D -> exists i v, carried_by w i = Some (key, v)
}.
(** What is carried goes on being carried until it is cached. *)
Lemma carrier_stays i w w' e key j u :
  step i w = Some (Ok (w', e)) -> carried_by w j = Some (key, u) -> (forall ok, e <> Cached key ok) ->
  exists j', carried_by w' j' = Some (key, u).
Proof.
  intros Hst (x & Hx & Hc)%carried_by_lookup Hne. destruct (system_step _ _ _ _ Hst) as (t & t' & Hi & Ha & Hts).
  destruct (decide (j = i)) as [->|Hji].
  - rewrite Hi in Hx. injection Hx as <-.
    destruct (carrier_steps _ _ _ _ _ _ _ Ha Hc) as [[ok ->]|(t0 & -> & Hc0)]; [by destruct (Hne ok)|].
    exists (length (threads w)). apply carried_by_lookup. exists (goroutine t0). split; [|done].
    rewrite Hts. cbn. rewrite lookup_app_r by (by rewrite length_insert). by rewrite length_insert, Nat.sub_diag.
  - exists j. apply carried_by_lookup. exists x. split; [|done].
    rewrite Hts. apply lookup_app_l_Some. by rewrite list_lookup_insert_ne.
Qed.
Lemma calm_carried_step key i w w' e D S j u :
  step i w = Some (Ok (w', e)) -> calm key (w, Step i, e) -> calm_inv key D S w ->
  carried_by w' j = Some (key, u) -> j ∉ stale_carriers i e w w' S.
Proof.
  intros Hst Hcalm [H1 H2 _] Hj. destruct (system_step _ _ _ _ Hst) as (t & t' & Hi & Ha & Hts).
  destruct (H1 _ _ Hi) as [o Ho]. destruct (advance_honest _ _ _ _ _ _ _ Ha Ho) as [Ho' _].
  pose proof Hj as (x & Hx & Hc)%carried_by_lookup.
  destruct (threads_after _ _ _ _ _ _ _ _ Hi Hts Hx) as [[-> ->]|[(Hne & Hlt & Hjx)|(Hne & -> & t0 & -> & ->)]].
  - apply stale_self. rewrite Hj. pose proof (honest_carried _ _ _ _ Ho' Hc) as Hk.
    destruct e as [|k v|k v|k ok|t0]; cbn in Hk |- *; try done; case_decide; try done; simplify_eq;
      by apply bool_decide_eq_true_2.
  - assert (carried_by w j = Some (key, u)) as Hjw by (apply carried_by_lookup; eauto).
    pose proof (H2 _ _ Hjw) as HjS. intros Hin. unfold stale_carriers in Hin.
    assert (j ∈ stale_others i e w S) as Hin'; [destruct (fresh _ _); set_solver|].
    destruct e as [|k v|k v|k ok|t0]; cbn in Hin'; try done.
    + apply elem_of_union in Hin' as [|Hin']; [done|]. pose proof Hin' as (v' & Hv')%elem_of_carriers.
      rewrite Hjw in Hv'. injection Hv' as -> ->. apply Hcalm in Hin'; [set_solver|done].
    + case_decide; set_solver by lia.
  - rewrite (spawned_carried _ _ _ _ _ Ha) in Hc.
    assert (i ∉ S) as HiS by (eapply H2, carried_by_lookup; eauto).
    unfold stale_carriers. cbn. rewrite decide_False by done. destruct (fresh _ _); set_solver.
Qed.
Lemma calm_stale_step key i w w' e D S :
  step i w = Some (Ok (w', e)) -> calm key (w, Step i, e) -> coh D S w -> calm_inv key D S w ->
  key ∈ stale_keys i e D S -> exists j u, carried_by w' j = Some (key, u).
Proof.
  intros Hst Hcalm [_ _ HL] [H1 H2 H3] HD. destruct (system_step _ _ _ _ Hst) as (t & t' & Hi & Ha & Hts).
  assert (key ∈ D -> (forall ok, e <> Cached key ok) -> exists j u, carried_by w' j = Some (key, u)) as K.
  { intros HD' Hne. destruct (H3 HD') as (j & u & Hj). destruct (carrier_stays _ _ _ _ _ _ _ Hst Hj Hne). eauto. }
  destruct e as [|k v|k v|k ok|t0]; cbn in HD; try (by apply K).
  - apply elem_of_union in HD as [HD| ->%elem_of_singleton]; [by apply K|].
    destruct (H1 _ _ Hi) as [o Ho]. exists i, v. apply carried_by_lookup. exists t'. split; [|by eapply honest_stores].
    rewrite Hts. apply lookup_app_l_Some, list_lookup_insert_eq. by eapply lookup_lt_Some.
  - destruct (decide (k = key)) as [->|Hne].
    + specialize (Hcalm eq_refl). subst ok.
      destruct (advance_memory _ _ _ _ _ Ha (HL _ _ Hi)) as (_ & v & Hv & _).
      assert (i ∉ S) as HiS by (eapply H2, carried_by_lookup; eauto).
      rewrite decide_False in HD by done. set_solver.
    + apply K; [|congruence]. case_decide; [set_solver|]. destruct ok; set_solver.
Qed.
Lemma calm_step key i w w' e D S :
  step i w = Some (Ok (w', e)) -> calm key (w, Step i, e) -> coh D S w -> calm_inv key D S w ->
  calm_inv key (stale_keys i e D S) (stale_carriers i e w w' S) w'.
Proof.
  intros Hst Hcalm Hw Hk. destruct (system_step _ _ _ _ Hst) as (t & t' & Hi & Ha & Hts).
  destruct (calm_honest _ _ _ _ Hk _ _ Hi) as [o Ho]. destruct (advance_honest _ _ _ _ _ _ _ Ha Ho) as [Ho' Hsp].
  split; [|intros j u; by eapply calm_carried_step|by eapply calm_stale_step].
  intros j x Hx.
  destruct (threads_after _ _ _ _ _ _ _ _ Hi Hts Hx) as [[-> ->]|[(Hne & Hlt & Hjx)|(Hne & -> & t0 & -> & ->)]];
    [eauto|by eapply calm_honest|]. apply Forall_cons in Hsp as [? _]. eauto.
Qed.

(** A call begins. *)
Lemma call_lookup a w j t : threads (call a w) !! j = Some t ->
  threads w !! j = Some t \/ (j = length (threads w) /\ t = Running (perform a) []).
Proof.
  cbn. intros [Hj|[Hle Hj]]%lookup_app_Some; [by left|right].
  apply list_lookup_singleton_Some in Hj as [Hj <-]. split; [lia|done].
Qed.
Lemma call_carried a w D S : coh D S w ->
  coh D (stale_carriers (length (threads w)) Silent w (call a w) S) (call a w).
Proof.
  intros [H1 H2 H3]. split; [exact H1| |].
  - intros j k v Hj HjS. pose proof Hj as (t & Ht & Hc)%carried_by_lookup.
    destruct (call_lookup _ _ _ _ Ht) as [Hw|[-> ->]].
    + apply (H2 j); [apply carried_by_lookup; eauto|]. apply not_stale in HjS; [done|].
      apply lookup_lt_Some in Hw. lia.
    + apply stale_self in HjS. by rewrite Hj in HjS.
  - intros j t Ht. destruct (call_lookup _ _ _ _ Ht) as [Hw|[-> ->]]; [eauto|].
    split; [apply lawful_perform|by constructor].
Qed.
Lemma call_calm key a w D S : leaves_gap a <> Some key -> calm_inv key D S w ->
  calm_inv key D (stale_carriers (length (threads w)) Silent w (call a w) S) (call a w).
Proof.
  intros Hgap [H1 H2 H3]. assert (honest_thread key None (Running (perform a) [])) as Ha.
  { split; [by apply honest_perform|by constructor]. }
  split.
  - intros j t Ht. destruct (call_lookup _ _ _ _ Ht) as [Hw|[-> ->]]; eauto.
  - intros j v (t & Ht & Hc)%carried_by_lookup. destruct (call_lookup _ _ _ _ Ht) as [Hw|[-> ->]].
    + assert (j ∉ S) as HjS by (eapply H2, carried_by_lookup; eauto). apply lookup_lt_Some in Hw.
      unfold stale_carriers. cbn. destruct (fresh _ _); set_solver by lia.
    + by pose proof (honest_carried _ _ _ _ Ha Hc).
  - intros HD. destruct (H3 HD) as (j & v & (t & Ht & Hc)%carried_by_lookup).
    exists j, v. apply carried_by_lookup. exists t. split; [|done]. by apply lookup_app_l_Some.
Qed.

(** The states of the beginning: nothing in the cache that the database does not
    have, and no goroutine. *)
Definition initial (w : system) : Prop := view (m_c (mem w)) ⊆ tbl (m_l (mem w)) /\ threads w = [].
Lemma initial_carried w i : initial w -> carried_by w i = None.
Proof. intros [_ H]. unfold carried_by. by rewrite H. Qed.
Lemma run_coh w0 tr w D S : initial w0 -> run w0 tr w D S -> coh D S w.
Proof.
  intros H0. induction 1 as [|a tr w D S Hr IH|i tr w w' e D S Hr IH Hst|c tr w D S Hr IH Hv].
  - split.
    + intros k v _ Hl. eapply lookup_weaken; [exact Hl|apply H0].
    + intros i k v. by rewrite initial_carried.
    + intros i t. by rewrite (proj2 H0).
  - by apply call_carried.
  - by apply coh_step.
  - destruct IH as [H1 H2 H3]. split; [|done..]. intros k v Hk Hl. apply H1; [done|]. by eapply lookup_weaken.
Qed.
Lemma run_keeps_calm key w0 tr w D S : initial w0 -> run w0 tr w D S -> Forall (calm key) tr -> calm_inv key D S w.
Proof.
  intros H0. induction 1 as [|a tr w D S Hr IH|i tr w w' e D S Hr IH Hst|c tr w D S Hr IH Hv]; intros HF.
  - split; [|done|done]. intros i t. by rewrite (proj2 H0).
  - apply Forall_app in HF as [HF Hc]. apply Forall_cons in Hc as [Hc _]. by apply call_calm; [|apply IH].
  - apply Forall_app in HF as [HF Hc]. apply Forall_cons in Hc as [Hc _].
    apply calm_step; [done|done|by eapply run_coh|by apply IH].
  - apply Forall_app in HF as [HF _]. by destruct (IH HF) as [H1 H2 H3].
Qed.

(** ** Calls that nobody disturbs *)

(** What a read gives: the table is as it was, and a value is the table's when
    the one in the cache is. *)
Definition read_result (key : string) (m : memory) (o : go (memory * thread)) : Prop :=
  match o with
  | Ok (m', Running (CRet x) []) =>
      tbl (m_l m') = tbl (m_l m) /\
      forall v, x = (v, None) -> (forall u, view (m_c m) !! key = Some u -> tbl (m_l m) !! key = Some u) ->
        tbl (m_l m) !! key = Some v
  | Ok _ => False
  | Panic _ => True
  end.
(** Plays the operations of a goroutine one after the other. *)
Ltac play :=
  repeat first
    [ progress (cbn -[cache_Get cache_Set])
    | progress unfold assertT
    | match goal with
      | H : g_flight ?g ?k = None |- context [g_flight ?g ?k] => rewrite H
      | |- context [cache_Get ?k ?c] => let E := fresh "EG" in destruct (cache_Get k c) as [[? [?|?]]|] eqn:E
      | |- context [cache_Set ?k ?v ?x ?c] => let E := fresh "ES" in destruct (cache_Set k v x c) as [[? [?|[]]]|] eqn:E
      | |- context [LoadFunc r ?k ?l] => let E := fresh "EL" in destruct (LoadFunc r k l) as [? [? [?|]]] eqn:E
      | |- context [store ?k ?v ?l] => let E := fresh "EB" in destruct (store k v l) as [? [?|]] eqn:E
      | |- context [match ?e with ErrNoValue => _ | _ => _ end] => destruct e
      | |- context [if ?b then _ else _] => destruct b eqn:?
      end ].
Lemma read_undisturbed a key m :
  reads a = Some key -> g_flight (m_g m) key = None ->
  read_result key m (undisturbed 5 (Running (perform a) []) m).
Proof.
  intros Ha Hg. destruct a; try done; injection Ha as ->; play; try done;
    repeat match goal with
    | H : LoadFunc r key _ = _ |- _ => apply (load_table (store := store)) in H as [? ?]
    | H : cache_Get key _ = _ |- _ => apply Get_view in H as [_ H]
    end; (split; [done|]); intros ? [= <-]; eauto.
Qed.
(** A write that succeeds. *)
Lemma write_undisturbed key v exp m m1 :
  undisturbed 5 (Running (perform (ASet key v exp)) []) m = Ok (m1, Running (CRet (nil, None)) []) ->
  tbl (m_l m1) = <[key := v]> (tbl (m_l m)) /\ forall u, view (m_c m1) !! key = Some u -> u = v.
Proof.
  play; try done. intros [= <-]. cbn.
  pose proof (store_table (load := LoadFunc r) _ _ _ _ _ EB) as Ht. split; [done|].
  intros u Hu. destruct (Set_view _ _ _ _ _ _ ES) as [Hs _].
  pose proof (lookup_weaken _ _ _ _ Hu (Hs eq_refl)) as Hi. rewrite lookup_insert_eq in Hi. congruence.
Qed.

(** C20. The cache patterns over one cache and one database: any number of
    callers of the read-through reads (synchronous, half-asynchronous,
    asynchronous, shared, typed, with a Bloom filter) and of the write-through
    writes, and the goroutines that they start, interleaved at each of their
    operations; the cache may drop values whenever it likes, and a [Set] that
    fails may have happened.
    Outside the set of stale keys that the run computes, the cache never holds
    anything but the value of the database.  A read that nobody disturbs, while no
    call for its key is in flight, returns or panics, never changes the database,
    and when it succeeds with a key that is not stale gives the database's value.
    A synchronous write that nobody disturbs and that succeeds is read back by a
    read that follows, whichever it is.  And a key can be stale only while a
    goroutine carries a value for it, unless one of the code's gaps has opened: a
    call of [SetV1], of [SetV2] or of [SingleFlightCacheV1.Get], a [Set] of the
    cache that failed, or a store while another goroutine was between its load or
    store and its [Set]. *)
Theorem patterns_coherent w0 tr w D S :
  initial w0 -> run w0 tr w D S ->
  (forall k v, k ∉ D -> view (m_c (mem w)) !! k = Some v -> tbl (m_l (mem w)) !! k = Some v) /\
  (forall a key, reads a = Some key -> g_flight (m_g (mem w)) key = None ->
     match undisturbed 5 (Running (perform a) []) (mem w) with
     | Ok (m', Running (CRet x) []) =>
         tbl (m_l m') = tbl (m_l (mem w)) /\
         forall v, x = (v, None) -> key ∉ D -> tbl (m_l (mem w)) !! key = Some v
     | Ok _ => False
     | Panic _ => True
     end) /\
  (forall key v exp m1 a m2 u,
     undisturbed 5 (Running (perform (ASet key v exp)) []) (mem w) = Ok (m1, Running (CRet (nil, None)) []) ->
     reads a = Some key -> g_flight (m_g m1) key = None ->
     undisturbed 5 (Running (perform a) []) m1 = Ok (m2, Running (CRet (u, None)) []) -> u = v) /\
  (forall key, Forall (calm key) tr -> key ∈ D -> exists i v, carried_by w i = Some (key, v)).
Proof.
  intros H0 Hr. pose proof (run_coh _ _ _ _ _ H0 Hr) as Hw. split_and!.
  - exact (coh_view _ _ _ Hw).
  - intros a key Ha Hg. pose proof (read_undisturbed a key _ Ha Hg) as Hx. unfold read_result in Hx.
    repeat case_match; try done. destruct Hx as [Ht Hv]. split; [done|]. intros v -> Hk.
    apply Hv; [done|]. intros u. by apply (coh_view _ _ _ Hw).
  - intros key v exp m1 a m2 u E1 Ha Hg E2. apply write_undisturbed in E1 as [Ht Hv].
    pose proof (read_undisturbed a key _ Ha Hg) as Hx. rewrite E2 in Hx. destruct Hx as [_ Hx].
    assert (Some v = Some u) as [=]; [|done].
    rewrite <-(Hx u eq_refl); rewrite Ht, lookup_insert_eq; [done|]. by intros x ->%Hv.
  - intros key HF. apply (calm_stale _ _ _ _ (run_keeps_calm _ _ _ _ _ _ H0 Hr HF)).
Qed.
End coherence.

(** ** The caches of the repository hold what was set *)

Section values.
Context {V E : Type} (onEvicted : string -> V -> E -> E).

Definition values (d : gmap string (item (V := V))) : gmap string V := it_val <$> d.
Lemma values_delete key d : values (delete key d) ⊆ values d.
Proof. unfold values. rewrite fmap_delete. apply delete_subseteq. Qed.
Lemma sec_get_values key now s s' x :
  sec_get onEvicted key now s = (s', x) ->
  values s'.1 ⊆ values s.1 /\ forall v, x = inr v -> values s.1 !! key = Some v.
Proof.
  unfold sec_get, sec_delete. destruct (s.1 !! key) as [i|] eqn:Ek.
  - unfold values at 3. rewrite lookup_fmap, Ek. destruct (deadlineBefore i now); intros [= <- <-];
      (split; [|by intros v [= <-]]); [apply values_delete|done].
  - intros [= <- <-]. done.
Qed.
Lemma values_set key v exp now s :
  values (sec_set (E := E) key v exp now s).1 = <[key := v]> (values s.1).
Proof. unfold values, sec_set. cbn [fst]. by rewrite fmap_insert. Qed.

(** A critical section that comes to an end. *)
Lemma locked_section_inv {A} (f : gmap string (item (V := V)) * E -> gmap string (item (V := V)) * E * (cache_error + A)) c c' x :
  (Lock ;; deferred Unlock (section f)) c = Ok (c', x) ->
  exists s', f (data c, ev c) = (s', x) /\ data c' = s'.1 /\ ev c' = s'.2.
Proof.
  rewrite GM_bind_eq. unfold Lock. case_decide; [|done]. unfold deferred, section, Unlock.
  cbn [data ev set_mutex mutex]. destruct (f (data c, ev c)) as [[d e] y]. cbn. intros [= <- <-]. by exists (d, e).
Qed.
Lemma Get_inv key now c c' x :
  Get onEvicted key now c = Ok (c', x) ->
  exists s', sec_get onEvicted key now (data c, ev c) = (s', x) /\ data c' = s'.1.
Proof.
  unfold Get. rewrite GM_bind_eq. unfold RLock. destruct (writer (mutex c)) eqn:Hw; [done|].
  rewrite GM_bind_eq. cbn [gm_get]. rewrite GM_bind_eq. unfold RUnlock. cbn [set_mutex mutex readers data ev].
  destruct (data c !! key) as [v|] eqn:Ek.
  - intros Hs. by destruct (locked_section_inv _ _ _ _ Hs) as (s' & Hs' & Hd & _); [exists s'].
  - intros [= <- <-]. exists (data c, ev c). unfold sec_get. cbn [fst]. by rewrite Ek.
Qed.

End values.

Section instances.
Context {V E : Type} (onEvicted : string -> V -> E -> E).

#[export] Instance local_CacheView : CacheView timed V (HC := local_CacheOps onEvicted).
Proof.
  exists (fun t => values (data (tm_cache t))).
  - intros key [c now] c' x. cbn. unfold timed_run. cbn [tm_cache tm_now].
    destruct (Get onEvicted key now c) as [[c1 y]|] eqn:EG; [|done]. intros [= <- <-].
    destruct (Get_inv _ _ _ _ _ _ EG) as (s' & Hs & Hd). cbn [tm_cache]. rewrite Hd.
    exact (sec_get_values _ _ _ _ _ _ Hs).
  - intros key v exp [c now] c' x. cbn. unfold timed_run. cbn [tm_cache tm_now].
    destruct (Set_ key v exp now c) as [[c1 y]|] eqn:ES; [|done]. intros [= <- <-].
    destruct (locked_section_inv _ _ _ _ ES) as (s' & [= <- <-] & Hd & _). cbn [tm_cache]. rewrite Hd, values_set.
    split; [done|]. intros k u [[-> ->]|[Hne Hu]]%lookup_insert_Some; auto.
Defined.

(** The bounded cache: a [Set] that is refused changes nothing. *)
Definition maxcnt_CacheOps (maxCnt : Z) : CacheOps (timed (V := V) (E := Z * E)) V := {|
  cache_Set := fun key v exp => timed_run (fun now => MaxCnt_Set maxCnt key v exp now);
  cache_Get := fun key => timed_run (fun now => Get (MaxCnt.onEvicted onEvicted) key now);
  cache_Delete := fun key => timed_run (fun _ => Delete (MaxCnt.onEvicted onEvicted) key)
|}.
#[export] Instance maxcnt_CacheView maxCnt :
  CacheView timed V (HC := maxcnt_CacheOps maxCnt).
Proof.
  exists (fun t => values (data (tm_cache t))).
  - intros key [c now] c' x. cbn. unfold timed_run. cbn [tm_cache tm_now].
    destruct (Get (MaxCnt.onEvicted onEvicted) key now c) as [[c1 y]|] eqn:EG; [|done]. intros [= <- <-].
    destruct (Get_inv _ _ _ _ _ _ EG) as (s' & Hs & Hd). cbn [tm_cache]. rewrite Hd.
    exact (sec_get_values _ _ _ _ _ _ Hs).
  - intros key v exp [c now] c' x. cbn. unfold timed_run. cbn [tm_cache tm_now].
    destruct (MaxCnt_Set maxCnt key v exp now c) as [[c1 y]|] eqn:ES; [|done]. intros [= <- <-].
    destruct (locked_section_inv _ _ _ _ ES) as (s' & Hs & Hd & _). cbn [tm_cache]. rewrite Hd.
    revert Hs. unfold sec_max_set. destruct (_ && _); intros [= <- <-].
    + split; [done|]. auto.
    + cbn [fst]. rewrite values_set. split; [done|]. intros k u [[-> ->]|[Hne Hu]]%lookup_insert_Some; auto.
Defined.
End instances.

(** ** Runs that can be computed *)

Section execute.
Context {C V L G : Type} {HC : CacheOps C V} {HG : Flight G} {EV : EqDecision V}.
Context (nil : V) (isT : V -> bool) (HasKey : string -> bool).
Context (r : ReadThroughCache (V := V) (L := L)) (store : string -> V -> L -> L * option cache_error).
Abbreviation system := (@Coherence.system C V L G).
Abbreviation event := (@Coherence.event C V).
Abbreviation trace := (list (system * event * effect (V := V) (L := L))).

(** Some calls and steps after a trace, with what [run] keeps of them. *)
Fixpoint execute (evs : list event) (tr : trace) (w : system) (D : gset string) (S : gset nat)
  : option (trace * system * gset string * gset nat) :=
  match evs with
  | [] => Some (tr, w, D, S)
  | Call a :: evs' =>
      let w' := call nil isT HasKey r store a w in
      execute evs' (tr ++ [(w, Call a, Silent)]) w' D (stale_carriers (length (threads w)) Silent w w' S)
  | Step i :: evs' =>
      match step nil i w with
      | Some (Ok (w', e)) =>
          execute evs' (tr ++ [(w, Step i, e)]) w' (stale_keys i e D S) (stale_carriers i e w w' S)
      | _ => None
      end
  | Recache _ :: _ => None
  end.
Lemma execute_run {HV : CacheView C V} w0 evs : forall tr w D S tr' w' D' S',
  run nil isT HasKey r store w0 tr w D S -> execute evs tr w D S = Some (tr', w', D', S') ->
  run nil isT HasKey r store w0 tr' w' D' S'.
Proof.
  induction evs as [|[a|i|c] evs IH]; intros tr w D S tr' w' D' S' Hr; cbn [execute].
  - by intros [= <- <- <- <-].
  - apply IH. by apply run_call.
  - destruct (step nil i w) as [[[w1 e]|]|] eqn:E; [|done..]. apply IH. by apply run_step.
  - done.
Qed.
End execute.

(** A table of numbers that refuses zero. *)
Definition rows_load (key : string) (l : gmap string nat) : gmap string nat * (nat * option cache_error) :=
  (l, match l !! key with Some v => (v, None) | None => (0, Some (ErrCache "no rows")) end).
Definition rows_store (key : string) (v : nat) (l : gmap string nat) : gmap string nat * option cache_error :=
  if decide (v = 0) then (l, Some (ErrCache "refused")) else (<[key := v]> l, None).
Definition rows_cache : ReadThroughCache (V := nat) (L := gmap string nat) := mkReadThrough rows_load 0.
#[export] Instance rows_Backend : Backend (LoadFunc rows_cache) rows_store.
Proof.
  exists id.
  - intros key l l' v err. cbn. unfold rows_load.
    destruct (l !! key) as [u|]; intros [= <- <- <-]; done.
  - intros key v l l' err. unfold rows_store. case_decide; by intros [= <- <-].
Defined.
Definition no_evict : string -> nat -> unit -> unit := fun _ _ e => e.
#[local] Existing Instance local_CacheOps.
Abbreviation local := (timed (V := nat) (E := unit)).
Abbreviation rows_system := (system (C := local) (V := nat) (L := gmap string nat) (G := gmap string nat)).
Definition rows_start : rows_system :=
  mkSystem (mkMemory (mkTimed (NewBuildInMapCache tt) 0) {[ "a" := 1 ]} ∅ []) [].
Definition rows_run (evs : list (event (C := local) (V := nat))) :=
  execute (HC := local_CacheOps no_evict) 0 (fun v => negb (v =? 0)) (fun _ => true) rows_cache rows_store evs
    [] rows_start ∅ ∅.
(** Whether ["a"] is stale at the end, what the cache has for it, and the database. *)
Definition rows_answer (evs : list (event (C := local) (V := nat))) : option (bool * option nat * option nat) :=
  match rows_run evs with
  | Some (_, w, D, _) =>
      Some (bool_decide ("a" ∈ D), it_val <$> data (tm_cache (m_c (mem w))) !! "a", m_l (mem w) !! "a")
  | None => None
  end.

(** The goroutine of [GetV2] has loaded when the key is written: it brings the
    old value back.  So does that of [GetV1]. *)
Example late_reload :
  rows_answer [Call (AGetV2 "a"); Step 0; Step 0; Step 1; Call (ASet "a" 2 0); Step 2; Step 2; Step 1] =
  Some (true, Some 1, Some 2).
Proof. vm_compute. reflexivity. Qed.
Example late_refresh :
  rows_answer [Call (AGetV1 "a"); Step 0; Step 0; Step 0; Call (ASet "a" 2 0); Step 2; Step 2; Step 1] =
  Some (true, Some 1, Some 2).
Proof. vm_compute. reflexivity. Qed.
(** Two writers that store in one order and cache in the other. *)
Example crossed_writes :
  rows_answer [Call (ASet "a" 2 0); Call (ASetV3 "a" 3 0); Step 0; Step 1; Step 2; Step 2; Step 0] =
  Some (true, Some 2, Some 3).
Proof. vm_compute. reflexivity. Qed.
(** What the database refuses reaches the cache by [SetV2]. *)
Example refused_write :
  rows_answer [Call (ASetV2 "a" 0 0); Step 0; Step 0; Step 1] = Some (true, Some 0, Some 1).
Proof. vm_compute. reflexivity. Qed.
(** A later write that nobody disturbs makes the key safe again. *)
Example safe_again :
  rows_answer [Call (AGetV2 "a"); Step 0; Step 0; Step 1; Call (ASet "a" 2 0); Step 2; Step 2; Step 1;
               Call (ASet "a" 5 0); Step 3; Step 3] = Some (false, Some 5, Some 5).
Proof. vm_compute. reflexivity. Qed.

(** A refresh that comes to its end, and a write that is between its store and
    its [Set]. *)
Definition rows_events : list (event (C := local) (V := nat)) :=
  [Call (AGetV1 "a"); Step 0; Step 0; Step 0; Step 1; Call (ASet "a" 2 0); Step 2].
Definition rows_end :=
  match rows_run rows_events with Some x => x | None => ([], rows_start, ∅, ∅) end.

Lemma patterns_coherent_witness :
  ("b" ∉ rows_end.1.2 /\ forall v,
     view (CacheView := local_CacheView no_evict) (m_c (mem rows_end.1.1.2)) !! "b" = Some v ->
     m_l (mem rows_end.1.1.2) !! "b" = Some v) /\
  "a" ∈ rows_end.1.2 /\ exists i v, carried_by rows_end.1.1.2 i = Some ("a", v).
Proof.
  pose proof (execute_run (HC := local_CacheOps no_evict) (HV := local_CacheView no_evict) 0 (fun v => negb (v =? 0))
    (fun _ => true) rows_cache rows_store rows_start rows_events [] rows_start ∅ ∅
    (rows_end.1.1.1) (rows_end.1.1.2) (rows_end.1.2) (rows_end.2) (run_nil _ _ _ _ _ _) eq_refl) as Hr.
  assert (initial rows_cache rows_store (HV := local_CacheView no_evict) rows_start) as H0.
  { split; [|reflexivity]. exact (map_empty_subseteq (M := gmap string) (A := nat) {[ "a" := 1 ]}). }
  destruct (patterns_coherent (HV := local_CacheView no_evict) 0 (fun v => negb (v =? 0)) (fun _ => true)
    rows_cache rows_store rows_start _ _ _ _ H0 Hr) as (H1 & _ & _ & H4).
  assert ("a" ∈ rows_end.1.2) as Ha by (refine (bool_decide_eq_true_1 _ _); vm_compute; reflexivity).
  assert ("b" ∉ rows_end.1.2) as Hb by (refine (bool_decide_eq_true_1 _ _); vm_compute; reflexivity).
  split; [|split; [exact Ha|]].
  - split; [exact Hb|]. intros v. exact (H1 "b" v Hb).
  - apply (H4 "a"); [|exact Ha].
    repeat constructor; cbn; discriminate.
Defined.
