(* ===== verification/RedisLock.v ===== *)
(** The distributed lock on Redis: [cache/redis_lock.go], its scripts
    [cache/lua/lock.lua], [unlock.lua] and [refresh.lua], and [cache/retry.go].

    Redis is a class of the commands that the client and the scripts send, with
    their documented laws; a script is atomic, so it is a function. *)
From S2P Require Import Prelude.

Inductive lock_error :=
  | ErrFailToPreemptLock      (** [errFailToPreemptLock] *)
  | ErrLockNotHold            (** [errLockNotHold] *)
  | ErrRetryLimit             (** "超出重试限制", wrapping [errFailToPreemptLock] *)
  | DeadlineExceeded          (** [context.DeadlineExceeded] *)
  | CtxErr                    (** [ctx.Err()] *)
  | ErrRedis (msg : string).  (** an error reply, or of the connection *)

#[export] Instance lock_error_eq_dec : EqDecision lock_error.
Proof. solve_decision. Defined.

(** ** Redis *)

Class Redis (R : Type) := {
  r_get : string -> R -> option string;
  (** [SET key val EX secs], and [SET key val NX] with an optional time *)
  r_set_ex : string -> string -> Z -> R -> R;
  r_setnx : string -> string -> Z -> R -> R * bool;
  r_expire : string -> Z -> R -> R * Z;
  r_del : string -> R -> R * Z
}.
Class RedisLaws (R : Type) {HR : Redis R} := {
  get_set_ex : forall k v s r, (0 < s)%Z -> r_get k (r_set_ex k v s r) = Some v;
  setnx_free : forall k v s r, r_get k r = None -> (0 <= s)%Z ->
    (r_setnx k v s r).2 = true /\ r_get k (r_setnx k v s r).1 = Some v;
  setnx_taken : forall k v s r w, r_get k r = Some w -> r_setnx k v s r = (r, false);
  (** a positive time keeps the key; any other deletes it at once *)
  expire_pos : forall k s r v, r_get k r = Some v -> (0 < s)%Z ->
    (r_expire k s r).2 = 1%Z /\ r_get k (r_expire k s r).1 = Some v;
  expire_nonpos : forall k s r v, r_get k r = Some v -> (s <= 0)%Z ->
    (r_expire k s r).2 = 1%Z /\ r_get k (r_expire k s r).1 = None;
  del_present : forall k r v, r_get k r = Some v ->
    (r_del k r).2 = 1%Z /\ r_get k (r_del k r).1 = None
}.

(** [expiration.Seconds()] as an argument: Redis takes whole seconds only.  (The
    float is exact enough to tell them apart for times below 2^53 ns.) *)
Definition Duration : Type := Z.
Definition Second : Duration := 1000000000%Z.
Definition seconds_arg (d : Duration) : option Z :=
  if decide (d `mod` Second = 0)%Z then Some (d / Second)%Z else None.

(** How a call to Redis goes: answered, refused, or executed with the answer
    lost. *)
Inductive fault := NetOk | NetErr (e : lock_error) | NetLost (e : lock_error).

Section lock.
Context {R : Type} {HR : Redis R}.

Inductive reply := RStr (s : string) | RInt (z : Z).
#[export] Instance reply_eq_dec : EqDecision reply.
Proof. solve_decision. Defined.
Definition not_integer : lock_error := ErrRedis "ERR value is not an integer or out of range".

(** [lock.lua] *)
Definition lua_lock (key v : string) (secs : option Z) (r : R) : R * (lock_error + reply) :=
  match r_get key r with
  | None =>
      match secs with
      | None => (r, inl not_integer)
      | Some s => if decide (0 < s)%Z then (r_set_ex key v s r, inr (RStr "OK"))
                  else (r, inl (ErrRedis "ERR invalid expire time in 'set' command"))
      end
  | Some val =>
      if decide (val = v) then
        match secs with
        | None => (r, inl not_integer)
        | Some s => ((r_expire key s r).1, inr (RStr "OK"))
        end
      else (r, inr (RStr ""))
  end.
(** [refresh.lua] *)
Definition lua_refresh (key v : string) (secs : option Z) (r : R) : R * (lock_error + reply) :=
  if decide (r_get key r = Some v) then
    match secs with
    | None => (r, inl not_integer)
    | Some s => let '(r, n) := r_expire key s r in (r, inr (RInt n))
    end
  else (r, inr (RInt 0)).
(** [unlock.lua] *)
Definition lua_unlock (key v : string) (r : R) : R * (lock_error + reply) :=
  if decide (r_get key r = Some v) then let '(r, n) := r_del key r in (r, inr (RInt n))
  else (r, inr (RInt 0)).

(** [client.Eval(...)] over a connection. *)
Definition Eval_ (f : fault) (script : R -> R * (lock_error + reply)) (r : R)
  : R * (lock_error + reply) :=
  match f with
  | NetOk => script r
  | NetErr e => (r, inl e)
  | NetLost e => ((script r).1, inl e)
  end.
(** [.Int64()] of a reply. *)
Definition Int64 (x : lock_error + reply) : lock_error + Z :=
  match x with
  | inl e => inl e
  | inr (RInt z) => inr z
  | inr (RStr _) => inl (ErrRedis "strconv.ParseInt: invalid syntax")
  end.

(** ** The client *)

(** [Lock]; the value is the UUID, [unlockCh] holds at most one signal. *)
Record Lock := mkLock {
  l_key : string; l_value : string; l_expiration : Duration; l_unlockCh : bool }.

Definition TryLock (f : fault) (key val : string) (expiration : Duration) (r : R)
  : R * (lock_error + Lock) :=
  let '(r', ok) := r_setnx key val expiration r in
  match f with
  | NetErr e => (r, inl e)
  | NetLost e => (r', inl e)
  | NetOk => (r', if ok : bool then inr (mkLock key val 0%Z false) else inl ErrFailToPreemptLock)
  end.

Definition Refresh (f : fault) (l : Lock) (r : R) : R * option lock_error :=
  let '(r, res) := Eval_ f (lua_refresh (l_key l) (l_value l) (seconds_arg (l_expiration l))) r in
  match Int64 res with
  | inl err => (r, Some err)
  | inr n => (r, if decide (n = 1)%Z then None else Some ErrLockNotHold)
  end.
(** [Unlock]; the deferred send to [unlockCh] never blocks. *)
Definition Unlock (f : fault) (l : Lock) (r : R) : R * Lock * option lock_error :=
  let '(r, res) := Eval_ f (lua_unlock (l_key l) (l_value l)) r in
  let l := mkLock (l_key l) (l_value l) (l_expiration l) true in
  match Int64 res with
  | inl err => (r, l, Some err)
  | inr n => (r, l, if decide (n = 1)%Z then None else Some ErrLockNotHold)
  end.

(** [FixedIntervalRetryStrategy]; [Next] does not count. *)
Record FixedIntervalRetryStrategy := mkFixed { Interval : Duration; MaxCnt : Z; cnt : Z }.
Definition Next (s : FixedIntervalRetryStrategy) : FixedIntervalRetryStrategy * option Duration :=
  if decide (MaxCnt s <= cnt s)%Z then (s, None) else (s, Some (Interval s)).

(** One turn of the loop of [Client.Lock]: it ends with a result, or goes on
    with the retry strategy.  [done]: the context ends while it waits. *)
Definition lock_turn (f : fault) (done : bool) (key val : string) (expiration : Duration)
    (retry : FixedIntervalRetryStrategy) (r : R)
  : R * ((lock_error + Lock) + FixedIntervalRetryStrategy) :=
  let '(r, res) := Eval_ f (lua_lock key val (seconds_arg expiration)) r in
  let again :=
    match Next retry with
    | (_, None) => inl (inl ErrRetryLimit)
    | (retry, Some _) => if done then inl (inl CtxErr) else inr retry
    end in
  (r, match res with
      | inl err => if decide (err <> DeadlineExceeded) then inl (inl err) else again
      | inr (RStr "OK") => inl (inr (mkLock key val expiration false))
      | inr _ => again
      end).
(** One round of [Client.Lock]: what the others did to Redis before it, how the
    call goes, and whether the context is done while it waits. *)
Record round := mkRound { rd_others : R -> R; rd_fault : fault; rd_done : bool }.
(** The loop of [Client.Lock] over the rounds; [None] is still waiting. *)
Fixpoint Lock_loop (rounds : list round) (key val : string) (expiration : Duration)
    (retry : FixedIntervalRetryStrategy) (r : R) : R * option (lock_error + Lock) :=
  match rounds with
  | [] => (r, None)
  | rd :: rounds' =>
      match lock_turn (rd_fault rd) (rd_done rd) key val expiration retry (rd_others rd r) with
      | (r, inl x) => (r, Some x)
      | (r, inr retry) => Lock_loop rounds' key val expiration retry r
      end
  end.

(** [AutoRefresh] over the events its [select] takes; a retry is pending when
    [timeoutChan] is full, and a send to it then blocks for good.  [None] has
    not returned. *)
Inductive refresh_event := Tick (f : fault) | Retry (f : fault) | Unlocked.
Fixpoint AutoRefresh (evs : list refresh_event) (l : Lock) (pending : bool) (r : R)
  : R * option (option lock_error) :=
  match evs with
  | [] => (r, None)
  | Tick f :: evs' =>
      let '(r, err) := Refresh f l r in
      match err with
      | None => AutoRefresh evs' l pending r
      | Some DeadlineExceeded =>
          if pending then (r, None) else AutoRefresh evs' l true r
      | Some e => (r, Some (Some e))
      end
  | Retry f :: evs' =>
      if pending then
        let '(r, err) := Refresh f l r in
        match err with
        | None => AutoRefresh evs' l false r
        | Some e => (r, Some (Some e))
        end
      else AutoRefresh evs' l pending r
  | Unlocked :: _ => (r, Some None)
  end.

(** [SingleLock]: one turn of its loop is how the call of [DoChan] ends for this
    caller.  Its function runs, which locks with a fresh value and sets [flag],
    and the result comes; or a call of another goroutine for the key was in
    flight, and its result comes; or the context is done first, and then the
    function, if it is this caller's, ends without anybody to take its result.
    The [singleflight.Group] decides which. *)
Inductive turn :=
  | Ran (val : string) (rounds : list round)
  | Joined (others : R -> R) (res : lock_error + Lock)
  | Cancelled (own : option (string * list round)).
Fixpoint SingleLock (turns : list turn) (key : string) (expiration : Duration)
    (retry : FixedIntervalRetryStrategy) (r : R) : R * option (lock_error + Lock) :=
  match turns with
  | [] => (r, None)
  | Ran val rounds :: turns' =>
      match Lock_loop rounds key val expiration retry r with
      | (r, None) => (r, None)
      | (r, Some (inr lock)) => (r, Some (inr lock))
      | (r, Some (inl _)) => SingleLock turns' key expiration retry r
      end
  | Joined others _ :: turns' => SingleLock turns' key expiration retry (others r)
  | Cancelled own :: _ =>
      (match own with
       | Some (val, rounds) => (Lock_loop rounds key val expiration retry r).1
       | None => r
       end, Some (inl CtxErr))
  end.

(** ** Properties *)

Context {HL : RedisLaws R}.

(** C24. Mutual exclusion: while the key holds the value of one lock, every
    operation of every other value, however the network behaves, leaves Redis
    as it is and fails, and waiting with [Lock] goes on: the retry strategy never
    reaches its limit, for [Next] does not count.  The holder can refresh the
    lock, keeping it, and release it.  But a lock taken with [TryLock] does not
    remember its expiration: its first refresh reports success and deletes the
    key, so that the next client takes the lock while the first believes it
    holds it. *)
Theorem lock_exclusion key v w r exp :
  r_get key r = Some w ->
  (v <> w ->
     (forall f l, l_key l = key -> l_value l = v ->
        (Refresh f l r).1 = r /\ (Refresh f l r).2 <> None /\
        (Unlock f l r).1.1 = r /\ (Unlock f l r).2 <> None) /\
     (forall f, exists e, TryLock f key v exp r = (r, inl e)) /\
     (forall rounds retry, (cnt retry < MaxCnt retry)%Z ->
        Forall (fun rd => rd_others rd = id /\ rd_fault rd = NetOk /\ rd_done rd = false) rounds ->
        Lock_loop rounds key v exp retry r = (r, None))) /\
  (forall l, l_key l = key -> l_value l = w ->
     (Unlock NetOk l r).2 = None /\ r_get key (Unlock NetOk l r).1.1 = None /\
     (forall n, l_expiration l = (n * Second)%Z -> (0 < n)%Z ->
        (Refresh NetOk l r).2 = None /\ r_get key (Refresh NetOk l r).1 = Some w)) /\
  (forall r0 l, TryLock NetOk key w exp r0 = (r, inr l) -> (0 <= exp)%Z ->
     (Refresh NetOk l r).2 = None /\ r_get key (Refresh NetOk l r).1 = None /\
     forall u, exists r2 l2, TryLock NetOk key u exp (Refresh NetOk l r).1 = (r2, inr l2)).
Proof.
  intros Hw. split_and!.
  - intros Hne. split_and!.
    + intros f l <- <-. unfold Refresh, Unlock, Eval_, lua_refresh, lua_unlock. rewrite Hw.
      rewrite !(decide_False (P := Some w = Some (l_value l))) by congruence.
      destruct f; cbn; by split_and!.
    + intros f. unfold TryLock. rewrite (setnx_taken _ _ _ _ _ Hw). destruct f; eauto.
    + intros rounds retry Hc HF. induction HF as [|rd rounds (Ho & Hf & Hd) HF IH]; [done|].
      cbn [Lock_loop]. rewrite Ho, Hf, Hd. unfold lock_turn. cbn [Eval_ id]. unfold lua_lock, id. rewrite Hw.
      rewrite decide_False by congruence. unfold Next. rewrite decide_False by lia. exact IH.
  - intros l <- <-. unfold Unlock, Eval_, lua_unlock. rewrite decide_True by done.
    destruct (del_present _ _ _ Hw) as [H1 H2]. destruct (r_del (l_key l) r) as [r1 n]. cbn in *.
    subst n. split_and!; [done|done|]. intros n He Hn. unfold Refresh, Eval_, lua_refresh.
    rewrite decide_True by done. unfold seconds_arg.
    rewrite He, Z.mod_mul, decide_True, Z.div_mul by done.
    destruct (expire_pos _ n _ _ Hw Hn) as [H3 H4]. destruct (r_expire (l_key l) n r) as [r2 m].
    cbn in *. by subst m.
  - intros r0 l. unfold TryLock at 1. destruct (r_setnx key w exp r0) as [r1 [|]]; [|done].
    intros [= <- <-] Hexp. unfold Refresh, Eval_, lua_refresh. cbn [l_key l_value l_expiration].
    rewrite decide_True by done. change (seconds_arg 0%Z) with (Some 0%Z).
    destruct (expire_nonpos _ 0%Z _ _ Hw ltac:(lia)) as [H3 H4].
    destruct (r_expire key 0%Z r1) as [r2 m]. cbn in *. subst m. split_and!; [done|done|].
    intros u. unfold TryLock. destruct (setnx_free _ u exp _ H4 Hexp) as [H5 H6].
    destruct (r_setnx key u exp r2) as [r3 b]. cbn in *. subst b. eauto.
Qed.
(** ** What a lock that was returned means *)

(** The script answers [OK] only to the value that the key then holds. *)
Lemma lua_lock_OK key v exp n r r' :
  exp = (n * Second)%Z -> (0 < n)%Z ->
  lua_lock key v (seconds_arg exp) r = (r', inr (RStr "OK")) -> r_get key r' = Some v.
Proof.
  intros -> Hn. unfold lua_lock, seconds_arg.
  rewrite Z.mod_mul, decide_True, Z.div_mul by done.
  destruct (r_get key r) as [w|] eqn:Hw.
  - case_decide as Hv; [|by intros [= _ ?]]. intros [= <-]. subst w. by apply expire_pos.
  - rewrite decide_True by done. intros [= <-]. by apply get_set_ex.
Qed.
(** A turn that gives a lock gives one of the value that Redis then has. *)
Lemma lock_turn_holds f done key v exp n retry r r' l :
  exp = (n * Second)%Z -> (0 < n)%Z ->
  lock_turn f done key v exp retry r = (r', inl (inr l)) ->
  l = mkLock key v exp false /\ lua_lock key v (seconds_arg exp) r = (r', inr (RStr "OK")) /\
  r_get key r' = Some v.
Proof.
  intros He Hn. unfold lock_turn.
  destruct (Eval_ f (lua_lock key v (seconds_arg exp)) r) as [r1 res] eqn:E. intros [= <- Hres].
  assert (res = inr (RStr "OK") /\ l = mkLock key v exp false) as [-> ->].
  { assert (forall again, again = match Next retry with
      | (_, None) => inl (inl ErrRetryLimit)
      | (retry, Some _) => if done then inl (inl CtxErr) else inr retry
      end -> again <> inl (inr l) :> (lock_error + Lock) + FixedIntervalRetryStrategy) as K.
    { intros again ->. destruct (Next retry) as [rt [d|]]; [by destruct done|done]. }
    destruct res as [err|rep]; [case_decide; [done|by apply K in Hres]|].
    destruct (decide (rep = RStr "OK")) as [->|Hne]; [by injection Hres|].
    exfalso. apply (K _ eq_refl). rewrite <-Hres. clear -Hne. destruct rep as [st|z]; [|done].
    repeat (match goal with |- context [match ?x with _ => _ end] => is_var x; destruct x end; try done). }
  assert (lua_lock key v (seconds_arg exp) r = (r1, inr (RStr "OK"))) as Hlua by by destruct f.
  split; [done|]. split; [done|]. by eapply lua_lock_OK.
Qed.
Lemma Lock_loop_holds rounds key v exp n retry r r' l :
  exp = (n * Second)%Z -> (0 < n)%Z ->
  Lock_loop rounds key v exp retry r = (r', Some (inr l)) ->
  l = mkLock key v exp false /\ r_get key r' = Some v.
Proof.
  intros He Hn. revert r retry. induction rounds as [|rd rounds IH]; intros r retry; [done|].
  cbn [Lock_loop].
  destruct (lock_turn _ _ _ _ _ _ _) as [r1 [x|retry']] eqn:E; [|apply IH].
  intros [= <- ->]. by destruct (lock_turn_holds _ _ _ _ _ _ _ _ _ _ He Hn E) as (-> & _ & ?).
Qed.

(** [SingleLock].  A caller gets a lock only from a turn in which its own
    function ran, whatever the locks of others that it was handed before: the
    lock has the value that this call made, which is what Redis holds under the
    key, and all turns before were of others or failed.  It returns no error
    but that of the context: a refused connection and a retry strategy that is
    exhausted are tried again, for ever.  And a context that ends while the
    function runs can leave the key taken by a lock that nobody holds. *)
Lemma SingleLock_spec turns key exp n retry r r' res :
  exp = (n * Second)%Z -> (0 < n)%Z ->
  SingleLock turns key exp retry r = (r', Some res) ->
  match res with
  | inr l =>
      r_get key r' = Some (l_value l) /\ l_key l = key /\ l_expiration l = exp /\
      exists before val rounds after, turns = before ++ Ran val rounds :: after /\ l_value l = val /\
        Forall (fun t => match t with Cancelled _ => False | _ => True end) before
  | inl e =>
      e = CtxErr /\ exists before own after, turns = before ++ Cancelled own :: after /\
        Forall (fun t => match t with Cancelled _ => False | _ => True end) before
  end /\
  (forall val w, w <> val -> r_get key r = None ->
     exists r2, SingleLock [Cancelled (Some (val, [mkRound id NetOk false]))] key exp retry r = (r2, Some (inl CtxErr)) /\
       r_get key r2 = Some val /\ lua_lock key w (seconds_arg exp) r2 = (r2, inr (RStr ""))).
Proof.
  intros He Hn Hs. split.
  - revert r Hs. induction turns as [|t turns IH]; intros r; [done|]. cbn [SingleLock].
    assert (Hskip : forall r1, SingleLock turns key exp retry r1 = (r', Some res) ->
      match t with Cancelled _ => False | _ => True end ->
      match res with
      | inr l =>
          r_get key r' = Some (l_value l) /\ l_key l = key /\ l_expiration l = exp /\
          exists before val rounds after, t :: turns = before ++ Ran val rounds :: after /\ l_value l = val /\
            Forall (fun t => match t with Cancelled _ => False | _ => True end) before
      | inl e =>
          e = CtxErr /\ exists before own after, t :: turns = before ++ Cancelled own :: after /\
            Forall (fun t => match t with Cancelled _ => False | _ => True end) before
      end).
    { intros r1 H Ht. specialize (IH r1 H). destruct res as [e|l].
      - destruct IH as (-> & before & own & after & -> & HF). split; [done|].
        exists (t :: before), own, after. split; [done|]. by constructor.
      - destruct IH as (Hg & Hk & Hx & before & val & rounds & after & -> & Hv & HF). split_and!; [done..|].
        exists (t :: before), val, rounds, after. split_and!; [done..|]. by constructor. }
    destruct t as [val rounds|others x|own].
    + destruct (Lock_loop rounds key val exp retry r) as [r1 [[e|l]|]] eqn:E; [|intros [= <- <-]|done].
      * intros H. by apply (Hskip r1).
      * destruct (Lock_loop_holds _ _ _ _ _ _ _ _ _ He Hn E) as [-> Hg]. split_and!; [done..|].
        by exists [], val, rounds, turns.
    + intros H. by apply (Hskip (others r)).
    + intros [= _ <-]. split; [done|]. by exists [], own, turns.
  - intros val w Hne Hfree. eexists. split; [reflexivity|]. cbn [Lock_loop rd_fault rd_others].
    unfold lock_turn, Eval_, id, lua_lock, seconds_arg. rewrite He, Z.mod_mul, decide_True, Z.div_mul by done. rewrite Hfree.
    rewrite decide_True by done. cbn [fst]. pose proof (get_set_ex key val n r Hn) as Hg. split; [done|].
    rewrite Hg. by rewrite decide_False by congruence.
Qed.
End lock.

(** ** A Redis that is a map *)

#[export] Instance map_Redis : Redis (gmap string string) := {
  r_get := fun k r => r !! k;
  r_set_ex := fun k v s r => if decide (0 < s)%Z then <[k := v]> r else r;
  r_setnx := fun k v _ r => match r !! k with Some _ => (r, false) | None => (<[k := v]> r, true) end;
  r_expire := fun k s r =>
    match r !! k with
    | None => (r, 0%Z)
    | Some _ => (if decide (0 < s)%Z then r else delete k r, 1%Z)
    end;
  r_del := fun k r => match r !! k with None => (r, 0%Z) | Some _ => (delete k r, 1%Z) end
}.
#[export] Instance map_RedisLaws : RedisLaws (gmap string string).
Proof.
  constructor; cbn.
  - intros k v s r Hs. rewrite decide_True by done. apply lookup_insert_eq.
  - intros k v s r -> _. cbn. by rewrite lookup_insert_eq.
  - by intros k v s r w ->.
  - intros k s r v Hk Hs. rewrite Hk. cbn. by rewrite decide_True.
  - intros k s r v Hk Hs. rewrite Hk. cbn. rewrite decide_False by lia. by rewrite lookup_delete_eq.
  - intros k r v Hk. rewrite Hk. cbn. by rewrite lookup_delete_eq.
Qed.

Lemma lock_exclusion_witness :
  let r : gmap string string := {[ "job" := "alice" ]} in
  Lock_loop [mkRound id NetOk false; mkRound id NetOk false; mkRound id NetOk false]
    "job" "bob" (10 * Second)%Z (mkFixed Second 2%Z 0%Z) r = (r, None) /\
  r_get "job" (Refresh NetOk (mkLock "job" "alice" 0%Z false) r).1 = None.
Proof.
  intros r.
  destruct (lock_exclusion (HL := map_RedisLaws) "job" "bob" "alice" r (10 * Second)%Z eq_refl)
    as (H1 & _ & H3).
  split.
  - apply (proj2 (proj2 (H1 ltac:(discriminate)))); [simpl; lia|by repeat constructor].
  - refine (proj1 (proj2 (H3 (∅ : gmap string string) (mkLock "job" "alice" 0%Z false) _ _))).
    + vm_compute. reflexivity.
    + discriminate.
Defined.

Definition no_keys : gmap string string := ∅.
Definition b2_redis : gmap string string := {[ "job" := "b2" ]}.
Lemma SingleLock_spec_witness :
  let turns : list (turn (R := gmap string string)) :=
    [Joined (fun r => <["job" := "alice"]> r) (inr (mkLock "job" "alice" Second false));
     Ran "b1" [mkRound id (NetErr (ErrRedis "refused")) false];
     Joined (delete "job") (inl ErrLockNotHold); Ran "b2" [mkRound id NetOk false]] in
  exists r l, SingleLock turns "job" (10 * Second)%Z (mkFixed Second 2%Z 0%Z) no_keys = (r, Some (inr l)) /\
    r_get "job" r = Some (l_value l).
Proof.
  intros turns.
  pose proof (SingleLock_spec (HL := map_RedisLaws) turns "job" (10 * Second)%Z 10%Z (mkFixed Second 2%Z 0%Z) no_keys
    b2_redis (inr (mkLock "job" "b2" (10 * Second)%Z false)) eq_refl eq_refl ltac:(vm_compute; reflexivity))
    as [(H & _) _].
  eexists _, _. split; [|exact H]. vm_compute. reflexivity.
Defined.
