(* ===== verification/SingleLock.v ===== *)
(** Goroutines that call [Client.SingleLock] on one client:
    [cache/redis_lock.go] over [golang.org/x/sync/singleflight].

    A call of the group runs its function in a goroutine of its own, turn by turn
    of the loop of [Client.Lock]; the callers join it, take its result or end with
    their context; the holders refresh and unlock; other clients of Redis do
    what they like with their own values.  [SingleLock_callers] is about every
    interleaving. *)
From stdpp Require Import pretty.
From S2P Require Import Prelude Flight RedisLock.

Section single.
Context {R G : Type} {HR : Redis R} {HG : Flight G}.
(** The key, the expiration and the retry strategy that all callers pass, and
    the identifiers that [uuid.New] gives to the calls of the function. *)
Context (key : string) (expiration : Duration) (retry : FixedIntervalRetryStrategy).
Context (uuid : nat -> string).

(** The function of a call of the group: in its loop, returned and not yet
    delivered, delivered.  [c_released]: its lock was unlocked. *)
Inductive cstate :=
  | CRun (retry : FixedIntervalRetryStrategy)
  | CFinish (x : lock_error + Lock)
  | CEnd (x : lock_error + Lock).
Record call := mkCall { c_owner : nat; c_st : cstate; c_released : bool }.

(** A caller: about to call [DoChan]; waiting for a call, with [own] when this
    turn began it; about to [Forget] the key; returned.  A lock comes with the
    number of the call that made it. *)
Inductive kstate :=
  | KStart
  | KWait (j : nat) (own : bool)
  | KForget (j : nat) (l : Lock)
  | KDone (x : lock_error + nat * Lock).
Record caller := mkCaller { k_st : kstate; k_done : bool }.

Record state := mkState { s_r : R; s_g : G; s_calls : list call; s_callers : list caller }.
Definition initial (n : nat) (r : R) : state := mkState r g_new [] (replicate n (mkCaller KStart false)).

Inductive event :=
  | EvTurn (i : nat)                           (** the next statement of caller [i] *)
  | EvCtx (i : nat)                            (** its [select] takes [ctx.Done()] *)
  | EvCancel (i : nat)                         (** its context ends *)
  | EvRound (j : nat) (f : fault) (done : bool)  (** a turn of the loop of call [j] *)
  | EvDeliver (j : nat)                        (** the group ends call [j] *)
  | EvUnlock (i : nat) (f : fault) | EvRefresh (i : nat) (f : fault)
  | EvOthers (f : R -> R).

Definition set_caller (i : nat) (st : kstate) (k : caller) (s : state) : state :=
  mkState (s_r s) (s_g s) (s_calls s) (<[i := mkCaller st (k_done k)]> (s_callers s)).
Definition set_call (j : nat) (st : cstate) (c : call) (r : R) (g : G) (s : state) : state :=
  mkState r g (<[j := mkCall (c_owner c) st (c_released c)]> (s_calls s)) (s_callers s).

(** [select { case res := <-resCh: ... }]: the flag is set when the call is the
    turn's own and its function got the lock. *)
Definition received (j : nat) (own : bool) (x : lock_error + Lock) : kstate :=
  match own, x with
  | true, inr l => KForget j l
  | _, _ => KStart
  end.
Definition caller_turn (i : nat) (k : caller) (s : state) : option state :=
  match k_st k with
  | KStart =>
      match g_flight (s_g s) key with
      | Some j => Some (set_caller i (KWait j false) k s)
      | None =>
          let j := length (s_calls s) in
          Some (mkState (s_r s) (g_begin key j (s_g s)) (s_calls s ++ [mkCall i (CRun retry) false])
                  (<[i := mkCaller (KWait j true) (k_done k)]> (s_callers s)))
      end
  | KWait j own =>
      c ← s_calls s !! j;
      match c_st c with
      | CEnd x => Some (set_caller i (received j own x) k s)
      | _ => None
      end
  | KForget j l =>
      Some (mkState (s_r s) (g_forget key (s_g s)) (s_calls s)
              (<[i := mkCaller (KDone (inr (j, l))) (k_done k)]> (s_callers s)))
  | KDone _ => None
  end.
(** [Unlock] of a lock that was returned; an answer that is lost unlocks all the same. *)
Definition unlock_by (f : fault) (j : nat) (l : Lock) (s : state) : option state :=
  c ← s_calls s !! j;
  let released := match f with NetErr _ => c_released c | _ => true end in
  Some (mkState (Unlock f l (s_r s)).1.1 (s_g s)
          (<[j := mkCall (c_owner c) (c_st c) released]> (s_calls s)) (s_callers s)).

Definition lstep (e : event) (s : state) : option state :=
  match e with
  | EvTurn i => k ← s_callers s !! i; caller_turn i k s
  | EvCtx i =>
      k ← s_callers s !! i;
      match k_st k, k_done k with
      | KWait _ _, true => Some (set_caller i (KDone (inl CtxErr)) k s)
      | _, _ => None
      end
  | EvCancel i =>
      k ← s_callers s !! i;
      Some (mkState (s_r s) (s_g s) (s_calls s) (<[i := mkCaller (k_st k) true]> (s_callers s)))
  | EvRound j f done =>
      c ← s_calls s !! j;
      k ← s_callers s !! c_owner c;
      match c_st c with
      | CRun rt =>
          if (done : bool) && negb (k_done k) then None
          else
            Some match lock_turn f done key (uuid j) expiration rt (s_r s) with
                 | (r, inl x) => set_call j (CFinish x) c r (s_g s) s
                 | (r, inr rt) => set_call j (CRun rt) c r (s_g s) s
                 end
      | _ => None
      end
  | EvDeliver j =>
      c ← s_calls s !! j;
      match c_st c with
      | CFinish x => Some (set_call j (CEnd x) c (s_r s) (g_end key j (s_g s)) s)
      | _ => None
      end
  | EvUnlock i f =>
      k ← s_callers s !! i;
      match k_st k with KDone (inr (j, l)) => unlock_by f j l s | _ => None end
  | EvRefresh i f =>
      k ← s_callers s !! i;
      match k_st k with
      | KDone (inr (j, l)) => Some (mkState (Refresh f l (s_r s)).1 (s_g s) (s_calls s) (s_callers s))
      | _ => None
      end
  | EvOthers f => Some (mkState (f (s_r s)) (s_g s) (s_calls s) (s_callers s))
  end.
Fixpoint lrun (evs : list event) (s : state) : option state :=
  match evs with
  | [] => Some s
  | e :: evs' => s ← lstep e s; lrun evs' s
  end.

(** ** Callers and calls fit together *)

Context {HL : FlightLaws G} {HRL : RedisLaws R}.
Context (n : Z) (Hexp : expiration = (n * Second)%Z) (Hn : (0 < n)%Z) {Huuid : Inj (=) (=) uuid}.

(** The lock that the function of a call returned. *)
Definition made (st : cstate) : option Lock :=
  match st with CFinish (inr l) | CEnd (inr l) => Some l | _ => None end.
Definition caller_ok (calls : list call) (i : nat) (k : caller) : Prop :=
  match k_st k with
  | KStart => True
  | KWait j own => exists c, calls !! j = Some c /\ (own = true -> c_owner c = i)
  | KForget j l | KDone (inr (j, l)) =>
      exists c, calls !! j = Some c /\ c_owner c = i /\ c_st c = CEnd (inr l)
  | KDone (inl e) => e = CtxErr /\ k_done k = true
  end.
Definition call_ok (m j : nat) (c : call) : Prop :=
  c_owner c < m /\ forall l, made (c_st c) = Some l -> l = mkLock key (uuid j) expiration false.
Record single_inv (s : state) : Prop := {
  inv_callers : forall i k, s_callers s !! i = Some k -> caller_ok (s_calls s) i k;
  inv_calls : forall j c, s_calls s !! j = Some c -> call_ok (length (s_callers s)) j c;
  inv_entry : forall j, g_flight (s_g s) key = Some j -> j < length (s_calls s)
}.

(** Calls only go forward. *)
Definition extends (calls calls' : list call) : Prop :=
  forall j c, calls !! j = Some c -> exists c', calls' !! j = Some c' /\ c_owner c' = c_owner c /\
    forall x, c_st c = CEnd x -> c_st c' = CEnd x.
Lemma caller_ok_mono calls calls' i k : extends calls calls' -> caller_ok calls i k -> caller_ok calls' i k.
Proof.
  intros He. unfold caller_ok. destruct (k_st k) as [|j own|j l|[e|[j l]]]; try done.
  - intros (c & Hc & Ho). destruct (He _ _ Hc) as (c' & Hc' & Ho' & _). exists c'. rewrite Ho'. auto.
  - intros (c & Hc & Ho & Hs). destruct (He _ _ Hc) as (c' & Hc' & Ho' & Hs'). exists c'. rewrite Ho'. auto.
  - intros (c & Hc & Ho & Hs). destruct (He _ _ Hc) as (c' & Hc' & Ho' & Hs'). exists c'. rewrite Ho'. auto.
Qed.
Lemma extends_refl calls : extends calls calls.
Proof. intros j c Hc. by exists c. Qed.
Lemma extends_app calls c : extends calls (calls ++ [c]).
Proof. intros j c' Hc. exists c'. split; [by apply lookup_app_l_Some|done]. Qed.
Lemma extends_update calls j c c' :
  calls !! j = Some c -> c_owner c' = c_owner c -> (forall x, c_st c = CEnd x -> c_st c' = CEnd x) ->
  extends calls (<[j := c']> calls).
Proof.
  intros Hc Ho Hs m d Hd. destruct (decide (j = m)) as [<-|Hne].
  - exists c'. rewrite Hc in Hd. injection Hd as <-. split; [|done]. eapply list_lookup_insert_eq, lookup_lt_Some, Hc.
  - exists d. by rewrite list_lookup_insert_ne.
Qed.

Lemma inv_set_caller s s' i k k' :
  single_inv s -> s_callers s !! i = Some k -> extends (s_calls s) (s_calls s') ->
  s_callers s' = <[i := k']> (s_callers s) -> caller_ok (s_calls s') i k' ->
  (forall j c, s_calls s' !! j = Some c -> call_ok (length (s_callers s)) j c) ->
  (forall j, g_flight (s_g s') key = Some j -> j < length (s_calls s')) -> single_inv s'.
Proof.
  intros [I1 I2 I3] Hi He Hcs Hk Hc Hg. split; [|by rewrite Hcs, length_insert|done].
  intros m q. rewrite Hcs. intros [[<- <-]|[_ Hq]]%(lookup_update _ _ _ _ _ _ Hi); [done|].
  eapply caller_ok_mono; [exact He|auto].
Qed.
Lemma inv_set_call s s' j c c' :
  single_inv s -> s_calls s !! j = Some c -> s_calls s' = <[j := c']> (s_calls s) ->
  s_callers s' = s_callers s -> c_owner c' = c_owner c -> (forall x, c_st c = CEnd x -> c_st c' = CEnd x) ->
  (forall l, made (c_st c') = Some l -> l = mkLock key (uuid j) expiration false) ->
  (forall m, g_flight (s_g s') key = Some m -> g_flight (s_g s) key = Some m) -> single_inv s'.
Proof.
  intros [I1 I2 I3] Hj Hcs Hks Ho He Hm Hg. split.
  - intros i k Hk. rewrite Hks in Hk. rewrite Hcs. eapply caller_ok_mono; [by eapply extends_update|auto].
  - intros m d. rewrite Hcs, Hks. intros [[<- <-]|[_ Hd]]%(lookup_update _ _ _ _ _ _ Hj); [|auto].
    split; [rewrite Ho; by apply (I2 j c)|done].
  - intros m Hm'. rewrite Hcs, length_insert. auto.
Qed.

Lemma inv_caller_turn i k s s' :
  single_inv s -> s_callers s !! i = Some k -> caller_turn i k s = Some s' -> single_inv s'.
Proof.
  intros HI Hi. pose proof (inv_callers _ HI _ _ Hi) as Hk.
  unfold caller_ok in Hk. unfold caller_turn. destruct (k_st k) as [|j own|j l|x] eqn:Est; [| | |done].
  - destruct (g_flight (s_g s) key) as [j|] eqn:Ef; intros [= <-].
    + eapply (inv_set_caller s _ i k _ HI Hi); [apply extends_refl|done| |by destruct HI|by destruct HI].
      destruct (lookup_lt_is_Some_2 (s_calls s) j) as [c Hc]; [by apply (inv_entry _ HI)|]. by exists c.
    + eapply (inv_set_caller s _ i k _ HI Hi); cbn; [apply extends_app|done| | |].
      * eexists. split; [by apply list_lookup_middle|done].
      * intros j c [Hc|[_ Hc]]%lookup_app_Some; [by apply (inv_calls _ HI)|]. apply list_lookup_singleton_Some in Hc as [_ <-].
        split; [by eapply lookup_lt_Some|done].
      * intros j. rewrite flight_begin, decide_True, length_app by done. intros [= <-]. cbn. lia.
  - destruct Hk as (c & Hc & Ho). rewrite Hc. cbn [mbind option_bind].
    destruct (c_st c) as [rt|x|x] eqn:Ec; [done|done|]. intros [= <-].
    eapply (inv_set_caller s _ i k _ HI Hi); [apply extends_refl|done| |by destruct HI|by destruct HI].
    destruct own, x as [e|l]; cbn; [done| |done|done]. exists c. auto.
  - intros [= <-]. eapply (inv_set_caller s _ i k _ HI Hi); [apply extends_refl|done|exact Hk|by destruct HI|].
    intros m. cbn. rewrite flight_forget, decide_True by done. done.
Qed.
Lemma inv_step e s s' : single_inv s -> lstep e s = Some s' -> single_inv s'.
Proof.
  intros HI. destruct e as [i|i|i|j f d|j|i f|i f|f]; cbn [lstep].
  - destruct (s_callers s !! i) as [k|] eqn:Hi; [|done]. by apply inv_caller_turn.
  - destruct (s_callers s !! i) as [k|] eqn:Hi; [|done]. cbn [mbind option_bind].
    destruct (k_st k) eqn:Est; try done. destruct (k_done k) eqn:Ed; [|done]. intros [= <-].
    eapply (inv_set_caller s _ i k _ HI Hi); [apply extends_refl|done|done|by destruct HI..].
  - destruct (s_callers s !! i) as [k|] eqn:Hi; [|done]. intros [= <-].
    pose proof (inv_callers _ HI _ _ Hi) as Hk.
    eapply (inv_set_caller s _ i k _ HI Hi); [apply extends_refl|done| |by destruct HI..].
    unfold caller_ok in *. cbn. destruct (k_st k) as [| | |[e|[]]]; try done. by destruct Hk.
  - destruct (s_calls s !! j) as [c|] eqn:Hj; [|done]. cbn [mbind option_bind].
    destruct (s_callers s !! c_owner c) as [k|]; [|done]. cbn [mbind option_bind].
    destruct (c_st c) as [rt|x|x] eqn:Ec; try done. destruct (_ && _); [done|]. intros [= <-].
    destruct (lock_turn f d key (uuid j) expiration rt (s_r s)) as [r [[e|l]|rt']] eqn:El.
    all: eapply (inv_set_call s _ j c); [done..|by cbn; rewrite Ec| |done]; cbn; try done.
    intros l' [= <-]. by destruct (lock_turn_holds _ _ _ _ _ _ _ _ _ _ Hexp Hn El).
  - destruct (s_calls s !! j) as [c|] eqn:Hj; [|done]. cbn [mbind option_bind].
    destruct (c_st c) as [rt|x|x] eqn:Ec; try done. intros [= <-].
    eapply (inv_set_call s _ j c); [done..|by cbn; rewrite Ec| |]; cbn.
    + intros l Hl. apply (inv_calls _ HI _ _ Hj). by rewrite Ec.
    + intros m. rewrite flight_end. by case_decide.
  - destruct (s_callers s !! i) as [k|] eqn:Hi; [|done]. cbn [mbind option_bind].
    destruct (k_st k) as [| | |[e|[j l]]]; try done. unfold unlock_by.
    destruct (s_calls s !! j) as [c|] eqn:Hj; [|done]. intros [= <-].
    eapply (inv_set_call s _ j c); [done..| |done]. intros l' Hl. by apply (inv_calls _ HI _ _ Hj).
  - destruct (s_callers s !! i) as [k|]; [|done]. cbn [mbind option_bind].
    destruct (k_st k) as [| | |[e|[j l]]]; try done. intros [= <-]. by destruct HI.
  - intros [= <-]. by destruct HI.
Qed.

(** ** One holder at a time *)

(** What the other clients do keeps the values of this one. *)
Definition respects (f : R -> R) : Prop :=
  forall r j, r_get key r = Some (uuid j) -> r_get key (f r) = Some (uuid j).
Definition held (s : state) : Prop :=
  forall j c l, s_calls s !! j = Some c -> made (c_st c) = Some l -> c_released c = false ->
    r_get key (s_r s) = Some (uuid j).

(** The scripts with one value leave the key to another one. *)
Lemma lua_lock_other v w secs r : r_get key r = Some w -> v <> w -> (lua_lock key v secs r).1 = r.
Proof. intros Hw Hne. unfold lua_lock. by rewrite Hw, decide_False by congruence. Qed.
Lemma lock_turn_other f d v w rt r :
  r_get key r = Some w -> v <> w -> (lock_turn f d key v expiration rt r).1 = r.
Proof.
  intros Hw Hne. unfold lock_turn, Eval_. pose proof (lua_lock_other v w (seconds_arg expiration) r Hw Hne) as H.
  destruct f; [|done|]; destruct (lua_lock _ _ _ _) as [r' x]; exact H.
Qed.
Lemma Unlock_other f l w r :
  l_key l = key -> r_get key r = Some w -> l_value l <> w -> (Unlock f l r).1.1 = r.
Proof.
  intros Hk Hw Hne. unfold Unlock, Eval_, lua_unlock. rewrite Hk, Hw, decide_False by congruence.
  destruct f; cbn; by try destruct (Int64 _).
Qed.
Lemma Refresh_keeps f l v w r :
  l = mkLock key v expiration false -> r_get key r = Some w -> r_get key (Refresh f l r).1 = Some w.
Proof.
  intros -> Hw. unfold Refresh, Eval_, lua_refresh. cbn [l_key l_value l_expiration].
  assert (r_get key (if decide (r_get key r = Some v)
     then match seconds_arg expiration with
          | Some s => let '(r, n) := r_expire key s r in (r, inr (RInt n)) : R * (lock_error + reply)
          | None => (r, inl not_integer) end
     else (r, inr (RInt 0))).1 = Some w) as H.
  { case_decide as Hv; [|done]. unfold seconds_arg. rewrite Hexp, Z.mod_mul, decide_True, Z.div_mul by done.
    destruct (expire_pos _ n _ _ Hw Hn) as [_ He]. by destruct (r_expire key n r). }
  destruct f; [|done|]; (destruct (decide _); [destruct (seconds_arg expiration)|]);
    try destruct (r_expire _ _ _); cbn in *; try case_match; done.
Qed.

(** A call goes on, and Redis changes under its own value only. *)
Lemma held_set_call s s' j c c' :
  held s -> s_calls s !! j = Some c -> s_calls s' = <[j := c']> (s_calls s) ->
  (forall m, m <> j -> r_get key (s_r s) = Some (uuid m) -> r_get key (s_r s') = Some (uuid m)) ->
  (forall l, made (c_st c') = Some l -> c_released c' = false -> r_get key (s_r s') = Some (uuid j)) ->
  held s'.
Proof.
  intros HH Hj Hcs Ho Hn' m d l. rewrite Hcs.
  intros [[<- ->]|[Hne Hm]]%(lookup_update _ _ _ _ _ _ Hj); [apply Hn'|].
  intros Hl Hr. apply Ho; [congruence|by eapply HH].
Qed.
Lemma held_turn i k s s' : held s -> caller_turn i k s = Some s' -> held s'.
Proof.
  intros HH. unfold caller_turn. destruct (k_st k) as [|j own|j l|x]; [| | |done].
  - destruct (g_flight (s_g s) key) as [m|]; intros [= <-]; [exact HH|].
    intros j c l [Hc|[_ Hc]]%lookup_app_Some; [by apply HH|].
    by apply list_lookup_singleton_Some in Hc as [_ <-].
  - destruct (s_calls s !! j) as [c|]; [|done]. cbn [mbind option_bind].
    destruct (c_st c); [done|done|]. by intros [= <-].
  - by intros [= <-].
Qed.
(** The lock of a caller that returned is the one of its call. *)
Lemma returned_lock s i k j l :
  single_inv s -> s_callers s !! i = Some k -> k_st k = KDone (inr (j, l)) ->
  exists c, s_calls s !! j = Some c /\ c_owner c = i /\ c_st c = CEnd (inr l) /\
    l = mkLock key (uuid j) expiration false.
Proof.
  intros HI Hi Hk. pose proof (inv_callers _ HI _ _ Hi) as HK. unfold caller_ok in HK. rewrite Hk in HK.
  destruct HK as (c & Hj & Ho & Hc). exists c. split_and!; [done..|].
  apply (inv_calls _ HI _ _ Hj). by rewrite Hc.
Qed.

Lemma held_step e s s' :
  single_inv s -> held s -> (forall f, e = EvOthers f -> respects f) -> lstep e s = Some s' -> held s'.
Proof.
  intros HI HH Hf. destruct e as [i|i|i|j f d|j|i f|i f|f]; cbn [lstep].
  - destruct (s_callers s !! i) as [k|]; [|done]. by apply held_turn.
  - destruct (s_callers s !! i) as [k|]; [|done]. cbn [mbind option_bind].
    destruct (k_st k); try done. destruct (k_done k); [|done]. by intros [= <-].
  - destruct (s_callers s !! i) as [k|]; [|done]. by intros [= <-].
  - destruct (s_calls s !! j) as [c|] eqn:Hj; [|done]. cbn [mbind option_bind].
    destruct (s_callers s !! c_owner c) as [k|]; [|done]. cbn [mbind option_bind].
    destruct (c_st c) as [rt|x|x] eqn:Ec; try done. destruct (_ && _); [done|]. intros [= <-].
    pose proof (fun w => lock_turn_other f d (uuid j) w rt (s_r s)) as Hother.
    destruct (lock_turn f d key (uuid j) expiration rt (s_r s)) as [r [[e|l]|rt']] eqn:El; cbn [fst] in Hother;
      (eapply (held_set_call s _ j c); [done|done|done| |]; [intros m Hne Hm; cbn|cbn; try done]);
      try (rewrite (Hother _ Hm); [done|]; intros E; by apply Hne, (inj uuid)).
    intros l' _ _. by destruct (lock_turn_holds _ _ _ _ _ _ _ _ _ _ Hexp Hn El) as (_ & _ & ?).
  - destruct (s_calls s !! j) as [c|] eqn:Hj; [|done]. cbn [mbind option_bind].
    destruct (c_st c) as [rt|x|x] eqn:Ec; try done. intros [= <-].
    eapply (held_set_call s _ j c); [done..|]. intros l Hl Hr. apply (HH j c l); [done|by rewrite Ec|done].
  - destruct (s_callers s !! i) as [k|] eqn:Hi; [|done]. cbn [mbind option_bind].
    destruct (k_st k) as [| | |[e|[j l]]] eqn:Hk; try done.
    destruct (returned_lock _ _ _ _ _ HI Hi Hk) as (c & Hj & _ & Hc & ->). unfold unlock_by. rewrite Hj. intros [= <-].
    eapply (held_set_call s _ j c); [done|done|done| |]; cbn.
    + intros m Hne Hm. rewrite (Unlock_other f _ (uuid m)); [done|done|done|]. cbn. intros E. by apply Hne, (inj uuid).
    + intros l Hl Hr. destruct f as [|e|e]; [done| |done]. by apply (HH j c l).
  - destruct (s_callers s !! i) as [k|] eqn:Hi; [|done]. cbn [mbind option_bind].
    destruct (k_st k) as [| | |[e|[j l]]] eqn:Hk; try done.
    destruct (returned_lock _ _ _ _ _ HI Hi Hk) as (c & Hj & _ & Hc & Hl). intros [= <-].
    intros m c' l' Hm Hl' Hr. cbn. apply (Refresh_keeps f l (uuid j)); [done|by apply (HH m c' l')].
  - intros [= <-] m c l Hm Hl Hr. cbn. apply (Hf f eq_refl). by apply (HH m c l).
Qed.

(** ** Runs *)

Definition benign (e : event) : Prop := match e with EvOthers f => respects f | _ => True end.
Lemma initial_single_inv m r : single_inv (initial m r).
Proof.
  split; cbn.
  - by intros i k [-> _]%lookup_replicate.
  - done.
  - intros j. by rewrite flight_new.
Qed.
Lemma lrun_single_inv evs : forall s s', single_inv s -> lrun evs s = Some s' -> single_inv s'.
Proof.
  induction evs as [|e evs IH]; intros s s' HI; cbn [lrun]; [by intros [= <-]|].
  destruct (lstep e s) as [s1|] eqn:E; [|done]. intros Hr. eapply IH; [by eapply inv_step|exact Hr].
Qed.
Lemma lrun_held evs : forall s s',
  single_inv s -> held s -> Forall benign evs -> lrun evs s = Some s' -> held s'.
Proof.
  induction evs as [|e evs IH]; intros s s' HI HH HB; cbn [lrun]; [by intros [= <-]|].
  apply Forall_cons in HB as [Hb HB]. destruct (lstep e s) as [s1|] eqn:E; [|done].
  intros Hr. eapply IH; [by eapply inv_step| |done|exact Hr]. eapply held_step; try done. by intros f ->.
Qed.

(** A statement of a caller or of the function of a call. *)
Definition runs (e : event) : Prop :=
  match e with EvTurn _ | EvRound _ _ _ | EvDeliver _ => True | _ => False end.
Lemma single_progress s i k :
  single_inv s -> s_callers s !! i = Some k -> (forall x, k_st k <> KDone x) ->
  exists e s', runs e /\ lstep e s = Some s'.
Proof.
  intros HI Hi Hk. pose proof (inv_callers _ HI _ _ Hi) as HK. unfold caller_ok in HK.
  destruct (k_st k) as [|j own|j l|x] eqn:Est; [| | |by destruct (Hk x)].
  - exists (EvTurn i). cbn [lstep]. rewrite Hi. cbn [mbind option_bind]. unfold caller_turn. rewrite Est.
    destruct (g_flight (s_g s) key); by eexists.
  - destruct HK as (c & Hj & _). destruct (c_st c) as [rt|x|x] eqn:Ec.
    + destruct (lookup_lt_is_Some_2 (s_callers s) (c_owner c)) as [k' Hk']; [by apply (inv_calls _ HI _ _ Hj)|].
      exists (EvRound j NetOk false). cbn [lstep]. rewrite Hj. cbn [mbind option_bind]. rewrite Hk'.
      cbn [mbind option_bind]. rewrite Ec. by eexists.
    + exists (EvDeliver j). cbn [lstep]. rewrite Hj. cbn [mbind option_bind]. rewrite Ec. by eexists.
    + exists (EvTurn i). cbn [lstep]. rewrite Hi. cbn [mbind option_bind]. unfold caller_turn. rewrite Est, Hj.
      cbn [mbind option_bind]. rewrite Ec. by eexists.
  - exists (EvTurn i). cbn [lstep]. rewrite Hi. cbn [mbind option_bind]. unfold caller_turn. rewrite Est. by eexists.
Qed.

(** C23. Any number of goroutines that call [SingleLock] on one client for a key,
    interleaved with each other, with the functions that the group runs, with
    refreshes and unlocks by those that got a lock, and with other clients, over
    a network that may refuse a call or lose its answer.  A caller fails only
    with the error of its context, which has ended.  A lock that it gets was made
    by the function of a call that it began itself, for the key and with the
    expiration it asked for, and no two callers get the same lock.  As long as
    the other clients respect the values of this one (they may take, keep and
    release the key with their own, and nothing expires), Redis has the value of
    every lock that was returned and not unlocked, so at most one caller holds
    one at any time.  And while a caller has not returned, some goroutine can go
    on: nobody waits for a result that never comes. *)
Theorem SingleLock_callers evs m r s :
  lrun evs (initial m r) = Some s ->
  (forall i k e, s_callers s !! i = Some k -> k_st k = KDone (inl e) -> e = CtxErr /\ k_done k = true) /\
  (forall i k j l, s_callers s !! i = Some k -> k_st k = KDone (inr (j, l)) ->
     (exists c, s_calls s !! j = Some c /\ c_owner c = i /\ c_st c = CEnd (inr l)) /\
     l = mkLock key (uuid j) expiration false /\
     forall i' k' j' l', s_callers s !! i' = Some k' -> k_st k' = KDone (inr (j', l')) ->
       l_value l = l_value l' -> i = i') /\
  (Forall benign evs ->
     (forall i k j l c, s_callers s !! i = Some k -> k_st k = KDone (inr (j, l)) ->
        s_calls s !! j = Some c -> c_released c = false -> r_get key (s_r s) = Some (l_value l)) /\
     (forall i k j l c i' k' j' l' c',
        s_callers s !! i = Some k -> k_st k = KDone (inr (j, l)) -> s_calls s !! j = Some c ->
        s_callers s !! i' = Some k' -> k_st k' = KDone (inr (j', l')) -> s_calls s !! j' = Some c' ->
        c_released c = false -> c_released c' = false -> i = i')) /\
  (forall i k, s_callers s !! i = Some k -> (forall x, k_st k <> KDone x) ->
     exists e s', runs e /\ lstep e s = Some s').
Proof.
  intros Hr. pose proof (lrun_single_inv _ _ _ (initial_single_inv m r) Hr) as HI.
  assert (forall i k j l i' k' j' l', s_callers s !! i = Some k -> k_st k = KDone (inr (j, l)) ->
    s_callers s !! i' = Some k' -> k_st k' = KDone (inr (j', l')) -> l_value l = l_value l' -> i = i') as HU.
  { intros i k j l i' k' j' l' Hi Hk Hi' Hk' E.
    destruct (returned_lock _ _ _ _ _ HI Hi Hk) as (c & Hj & <- & _ & ->).
    destruct (returned_lock _ _ _ _ _ HI Hi' Hk') as (c' & Hj' & <- & _ & ->).
    cbn in E. apply (inj uuid) in E as <-. congruence. }
  split_and!.
  - intros i k e Hi Hk. pose proof (inv_callers _ HI _ _ Hi) as HK. unfold caller_ok in HK. by rewrite Hk in HK.
  - intros i k j l Hi Hk. destruct (returned_lock _ _ _ _ _ HI Hi Hk) as (c & Hj & Ho & Hc & Hl).
    split_and!; [by exists c|done|]. intros i' k' j' l' Hi' Hk'. by apply (HU i k j l i' k' j' l').
  - intros HB. pose proof (lrun_held _ _ _ (initial_single_inv m r) ltac:(by intros j c) HB Hr) as HH.
    assert (forall i k j l c, s_callers s !! i = Some k -> k_st k = KDone (inr (j, l)) ->
      s_calls s !! j = Some c -> c_released c = false -> r_get key (s_r s) = Some (l_value l)) as K.
    { intros i k j l c Hi Hk Hj Hrel. destruct (returned_lock _ _ _ _ _ HI Hi Hk) as (c' & Hj' & _ & Hc & ->).
      rewrite Hj in Hj'. injection Hj' as <-. eapply HH; [done|by rewrite Hc|done]. }
    split; [exact K|]. intros i k j l c i' k' j' l' c' Hi Hk Hj Hi' Hk' Hj' Hrl Hrl'.
    apply (HU i k j l i' k' j' l'); try done. pose proof (K _ _ _ _ _ Hi Hk Hj Hrl). pose proof (K _ _ _ _ _ Hi' Hk' Hj' Hrl'). congruence.
  - intros i k. by apply single_progress.
Qed.
End single.

(** ** Schedules *)

Definition job_uuid (j : nat) : string := pretty j.
#[export] Instance job_uuid_inj : Inj (=) (=) job_uuid.
Proof. unfold job_uuid. apply _. Qed.
Definition job_retry : FixedIntervalRetryStrategy := mkFixed Second 3 0.
Abbreviation job_state := (state (R := gmap string string) (G := gmap string nat)).
Definition job_run (evs : list (event (R := gmap string string))) (n : nat) : option job_state :=
  lrun "job" (10 * Second)%Z job_retry job_uuid evs (initial n no_keys).

(** [Forget] after the call is over takes away the entry of another call that has
    begun since: two functions then run for the key at the same time. *)
Example forget_splits :
  (fun s => c_st <$> s_calls s) <$>
    job_run [EvTurn 0; EvRound 0 NetOk false; EvDeliver 0; EvTurn 0; EvTurn 1; EvTurn 0; EvTurn 2] 3 =
  Some [CEnd (inr (mkLock "job" "0" (10 * Second)%Z false)); CRun job_retry; CRun job_retry].
Proof. vm_compute. reflexivity. Qed.
(** A context that ends while the function runs: the key is taken, and nobody has
    the lock. *)
Example cancelled_orphan :
  (fun s => (k_st <$> s_callers s, r_get "job" (s_r s))) <$>
    job_run [EvTurn 0; EvCancel 0; EvCtx 0; EvRound 0 NetOk false] 1 =
  Some ([KDone (inl CtxErr)], Some "0").
Proof. vm_compute. reflexivity. Qed.

(** The second caller joins the call of the first, gets nothing from it, and has
    the lock after the first has given it back. *)
Definition job_events : list (event (R := gmap string string)) :=
  [EvTurn 0; EvTurn 1; EvRound 0 NetOk false; EvDeliver 0; EvTurn 0; EvTurn 0; EvTurn 1;
   EvTurn 1; EvRound 1 NetOk false; EvRefresh 0 NetOk; EvUnlock 0 NetOk; EvRound 1 NetOk false;
   EvDeliver 1; EvTurn 1; EvTurn 1].
Definition job_end : job_state := default (initial 2 no_keys) (job_run job_events 2).

Lemma SingleLock_callers_witness :
  r_get "job" (s_r job_end) = Some "1" /\
  forall i k j l c, s_callers job_end !! i = Some k -> k_st k = KDone (inr (j, l)) ->
    s_calls job_end !! j = Some c -> c_released c = false -> i = 1.
Proof.
  destruct (SingleLock_callers (HL := gmap_FlightLaws) (HRL := map_RedisLaws) "job" (10 * Second)%Z job_retry job_uuid
    10%Z eq_refl eq_refl job_events 2 no_keys job_end ltac:(vm_compute; reflexivity)) as (_ & _ & H & _).
  destruct H as [H1 H2]; [repeat constructor|]. split.
  - exact (H1 1 (mkCaller (KDone (inr (1, mkLock "job" "1" (10 * Second)%Z false))) false) 1 _
      (mkCall 1 (CEnd (inr (mkLock "job" "1" (10 * Second)%Z false))) false) ltac:(vm_compute; reflexivity)
      eq_refl ltac:(vm_compute; reflexivity) eq_refl).
  - intros i k j l c Hi Hk Hj Hr.
    exact (H2 i k j l c 1 (mkCaller (KDone (inr (1, mkLock "job" "1" (10 * Second)%Z false))) false) 1 _
      (mkCall 1 (CEnd (inr (mkLock "job" "1" (10 * Second)%Z false))) false) Hi Hk Hj
      ltac:(vm_compute; reflexivity) eq_refl ltac:(vm_compute; reflexivity) Hr eq_refl).
Defined.
