(* ===== verification/Pool.v ===== *)
(** The connection pool [micro/net/pool.go].

    [Get] and [Put] are sequences of atomic sections: what happens under the
    lock, a receive on the idle channel, a send to the channel of a request.  The
    sections are executable; a step relation interleaves them for any number of
    goroutines. *)
From S2P Require Import Prelude.

Inductive pool_error :=
  | ErrCtx                       (** [ctx.Err()] *)
  | ErrFactory (msg : string).   (** an error of the factory *)

Section pool.
Context {C : Type} `{!EqDecision C}.

(** [connInfo] *)
Record connInfo := mkConnInfo { conn : C; backTime : Z }.
(** [Pool]; [connReq] holds the channels of the waiting requests, by number, and
    [idleConn] is the buffer of the channel. *)
Record Pool := mkPool {
  lock : bool;
  maxCnt : Z;
  cnt : Z;
  connReq : list nat;
  idleConn : list connInfo;
  maxIdleCnt : Z;
  expiration : Z }.

(** ** Construction *)

Definition set_idle (l : list connInfo) (p : Pool) : Pool :=
  mkPool (lock p) (maxCnt p) (cnt p) (connReq p) l (maxIdleCnt p) (expiration p).
(** There is room in the buffer of [idleConn]. *)
Definition idle_room (p : Pool) : bool := bool_decide (Z.of_nat (length (idleConn p)) < maxIdleCnt p)%Z.

Section new.
Context {F : Type} (factory : F -> F * (pool_error + C)).
(** The loop of [NewPool], [now] giving the times it reads; a send to the full channel blocks for ever. *)
Fixpoint fill (n : nat) (now : nat -> Z) (f : F) (p : Pool) : go (F * (pool_error + Pool)) :=
  match n with
  | O => Ok (f, inr p)
  | S n' =>
      match factory f with
      | (f, inl err) => Ok (f, inl err)
      | (f, inr c) =>
          if idle_room p then fill n' now f (set_idle (idleConn p ++ [mkConnInfo c (now n')]) p)
          else Panic (PFatal "deadlock")
      end
  end.
Definition NewPool (maxCnt maxIdleCnt initCnt expiration : Z) (now : nat -> Z) (f : F)
  : go (F * (pool_error + Pool)) :=
  if decide (maxIdleCnt < 0)%Z then Panic (PUser "makechan: size out of range")
  else fill (Z.to_nat initCnt) now f (mkPool false maxCnt 0 [] [] maxIdleCnt expiration).
End new.

(** ** The sections *)

(** The first part of [Get]: a connection of the idle channel, and whether it was
    closed because it had expired. *)
Definition get_idle (now : Z) (p : Pool) : option (Pool * C * bool) :=
  match idleConn p with
  | [] => None
  | ci :: rest =>
      Some (set_idle rest p, conn ci, bool_decide (backTime ci + expiration p < now)%Z)
  end.

(** The second part, for a goroutine that has got the lock: [id] names the new
    request, [res] is what the factory gives. *)
Inductive get_outcome := GWait (id : nat) | GConn (c : C) | GErr (e : pool_error).
Definition get_locked (id : nat) (res : pool_error + C) (p : Pool) : Pool * get_outcome :=
  if decide (maxCnt p <= cnt p)%Z then
    (mkPool false (maxCnt p) (cnt p) (connReq p ++ [id]) (idleConn p) (maxIdleCnt p) (expiration p),
     GWait id)
  else
    match res with
    | inl err =>
        (** the lock is not given back *)
        (mkPool true (maxCnt p) (cnt p) (connReq p) (idleConn p) (maxIdleCnt p) (expiration p), GErr err)
    | inr c =>
        (mkPool false (maxCnt p) (cnt p + 1) (connReq p) (idleConn p) (maxIdleCnt p) (expiration p), GConn c)
    end.

(** [Put], for a goroutine that has got the lock. *)
Inductive put_outcome := PSendTo (id : nat) | PIdle | PClosed.
Definition put_locked (now : Z) (c : C) (p : Pool) : Pool * put_outcome :=
  match connReq p with
  | req :: rest =>
      (mkPool false (maxCnt p) (cnt p) rest (idleConn p) (maxIdleCnt p) (expiration p), PSendTo req)
  | [] =>
      if idle_room p then
        (mkPool false (maxCnt p) (cnt p) [] (idleConn p ++ [mkConnInfo c now]) (maxIdleCnt p) (expiration p),
         PIdle)
      else
        (mkPool false (maxCnt p) (cnt p) [] (idleConn p) (maxIdleCnt p) (expiration p), PClosed)
  end.

(** ** Interleavings *)

(** Where a goroutine stands: before the lock of [Get], waiting for its request,
    forwarding for a call whose context has ended, before the lock of [Put],
    before the send to a request. *)
Inductive call :=
  | CLock | CWait (id : nat) | CForward (id : nat) | CPut (c : C) | CSend (id : nat) (c : C).

(** The pool, the filled channels of requests, the calls under way, the
    connections that callers hold, the next request; and the history: the
    connections made, closed, and dropped by [Put]. *)
Record config := mkConfig {
  pl : Pool; chans : list (nat * C); calls : list call; held : list C; next : nat;
  created : list C; closed : list C; dropped : list C }.

Inductive step : config -> config -> Prop :=
  | step_get_idle now p p' c x ch cs h n cr cl dr :
      get_idle now p = Some (p', c, x) ->
      step (mkConfig p ch cs h n cr cl dr)
        (mkConfig p' ch cs (c :: h) n cr (if x then c :: cl else cl) dr)
  | step_get_none now p ch cs h n cr cl dr :
      get_idle now p = None ->
      step (mkConfig p ch cs h n cr cl dr) (mkConfig p ch (CLock :: cs) h n cr cl dr)
  | step_get_wait res p p' ch cs1 cs2 h n cr cl dr :
      lock p = false -> get_locked n res p = (p', GWait n) ->
      step (mkConfig p ch (cs1 ++ CLock :: cs2) h n cr cl dr)
        (mkConfig p' ch (cs1 ++ CWait n :: cs2) h (S n) cr cl dr)
  | step_get_new p p' c ch cs1 cs2 h n cr cl dr :
      lock p = false -> c ∉ cr -> get_locked n (inr c) p = (p', GConn c) ->
      step (mkConfig p ch (cs1 ++ CLock :: cs2) h n cr cl dr)
        (mkConfig p' ch (cs1 ++ cs2) (c :: h) n (c :: cr) cl dr)
  | step_get_err p p' e ch cs1 cs2 h n cr cl dr :
      lock p = false -> get_locked n (inl e) p = (p', GErr e) ->
      step (mkConfig p ch (cs1 ++ CLock :: cs2) h n cr cl dr)
        (mkConfig p' ch (cs1 ++ cs2) h n cr cl dr)
  | step_wait p ch1 ch2 cs1 cs2 id c h n cr cl dr :
      step (mkConfig p (ch1 ++ (id, c) :: ch2) (cs1 ++ CWait id :: cs2) h n cr cl dr)
        (mkConfig p (ch1 ++ ch2) (cs1 ++ cs2) (c :: h) n cr cl dr)
  | step_cancel p ch cs1 cs2 id h n cr cl dr :
      step (mkConfig p ch (cs1 ++ CWait id :: cs2) h n cr cl dr)
        (mkConfig p ch (cs1 ++ CForward id :: cs2) h n cr cl dr)
  | step_forward p ch1 ch2 cs1 cs2 id c h n cr cl dr :
      step (mkConfig p (ch1 ++ (id, c) :: ch2) (cs1 ++ CForward id :: cs2) h n cr cl dr)
        (mkConfig p (ch1 ++ ch2) (cs1 ++ CPut c :: cs2) h n cr cl dr)
  (** a caller gives back a connection that it holds *)
  | step_put p ch cs h1 h2 c n cr cl dr :
      step (mkConfig p ch cs (h1 ++ c :: h2) n cr cl dr)
        (mkConfig p ch (CPut c :: cs) (h1 ++ h2) n cr cl dr)
  | step_put_send now p p' id ch cs1 cs2 c h n cr cl dr :
      lock p = false -> put_locked now c p = (p', PSendTo id) ->
      step (mkConfig p ch (cs1 ++ CPut c :: cs2) h n cr cl dr)
        (mkConfig p' ch (cs1 ++ CSend id c :: cs2) h n cr cl dr)
  | step_put_idle now p p' ch cs1 cs2 c h n cr cl dr :
      lock p = false -> put_locked now c p = (p', PIdle) ->
      step (mkConfig p ch (cs1 ++ CPut c :: cs2) h n cr cl dr)
        (mkConfig p' ch (cs1 ++ cs2) h n cr cl dr)
  | step_put_close now p p' ch cs1 cs2 c h n cr cl dr :
      lock p = false -> put_locked now c p = (p', PClosed) ->
      step (mkConfig p ch (cs1 ++ CPut c :: cs2) h n cr cl dr)
        (mkConfig p' ch (cs1 ++ cs2) h n cr (c :: cl) (c :: dr))
  | step_send p ch cs1 cs2 id c h n cr cl dr :
      step (mkConfig p ch (cs1 ++ CSend id c :: cs2) h n cr cl dr)
        (mkConfig p ((id, c) :: ch) (cs1 ++ cs2) h n cr cl dr).

(** A new pool at rest. *)
Definition initial (p : Pool) : config :=
  mkConfig p [] [] [] 0 (conn <$> idleConn p) [] [].

(** ** Where the connections and the requests are *)

Definition call_conn (c : call) : list C :=
  match c with CPut c | CSend _ c => [c] | _ => [] end.
Definition call_wait (c : call) : list nat :=
  match c with CWait id | CForward id => [id] | _ => [] end.
Definition call_send (c : call) : list nat :=
  match c with CSend id _ => [id] | _ => [] end.
(** Every place a connection can be in. *)
Definition places (x : config) : list C :=
  held x ++ (conn <$> idleConn (pl x)) ++ (chans x).*2 ++ (calls x ≫= call_conn) ++ dropped x.
(** The requests somebody waits for, and those that have a place in the queue, a
    connection on its way or a connection in their channel. *)
Definition waiting (x : config) : list nat := calls x ≫= call_wait.
Definition served (x : config) : list nat :=
  connReq (pl x) ++ (calls x ≫= call_send) ++ (chans x).*1.

Record inv (i : Z) (p0 : Pool) (x : config) : Prop := {
  i_own : created x ≡ₚ places x;
  i_nodup : NoDup (created x);
  i_wait : waiting x ≡ₚ served x;
  i_once : forall id, occ id (waiting x) <= if decide (id < next x) then 1 else 0;
  i_made : Z.of_nat (length (created x)) = (i + cnt (pl x))%Z;
  i_cnt : (0 <= cnt (pl x) <= Z.max 0 (maxCnt p0))%Z;
  i_idle : (Z.of_nat (length (idleConn (pl x))) <= maxIdleCnt p0)%Z;
  i_max : maxCnt (pl x) = maxCnt p0;
  i_maxIdle : maxIdleCnt (pl x) = maxIdleCnt p0 }.

Lemma fill_spec {F} (factory : F -> F * (pool_error + C)) now n : forall f p f' p',
  fill factory n now f p = Ok (f', inr p') ->
  (Z.of_nat (length (idleConn p)) <= maxIdleCnt p)%Z ->
  length (idleConn p') = n + length (idleConn p) /\
  (Z.of_nat (length (idleConn p')) <= maxIdleCnt p')%Z /\
  lock p' = lock p /\ maxCnt p' = maxCnt p /\ cnt p' = cnt p /\ connReq p' = connReq p /\
  maxIdleCnt p' = maxIdleCnt p.
Proof.
  induction n as [|n IH]; intros f p f' p'; cbn [fill].
  - intros [= <- <-] H. by split_and!.
  - destruct (factory f) as [f1 [e|c]]; [done|]. unfold idle_room. case_bool_decide as Hr; [|done].
    intros HF _. destruct (IH _ _ _ _ HF) as (H1 & H2); cbn [set_idle idleConn maxIdleCnt] in *;
      rewrite ?length_app in *; cbn [length] in *; [lia|].
    split; [lia|exact H2].
Qed.

Lemma initial_inv {F} (factory : F -> F * (pool_error + C)) max idle initCnt exp now f f' p0 :
  NewPool factory max idle initCnt exp now f = Ok (f', inr p0) ->
  NoDup (conn <$> idleConn p0) ->
  inv (Z.max 0 initCnt) p0 (initial p0) /\ lock p0 = false /\
  maxCnt p0 = max /\ maxIdleCnt p0 = idle.
Proof.
  unfold NewPool. case_decide; [done|]. intros HF Hnd.
  destruct (fill_spec _ _ _ _ _ _ _ HF) as (H1 & H2 & H3 & H4 & H5 & H6 & H7); [cbn; lia|].
  cbn [length idleConn lock maxCnt cnt connReq maxIdleCnt] in *.
  split; [|done]. split; unfold places, waiting, served; cbn [initial held pl chans calls created dropped next];
    rewrite ?H5, ?H6, ?length_fmap; try constructor; try done; try lia.
  cbn. by rewrite app_nil_r.
Qed.

(** What a section does to the pool. *)
Lemma get_idle_spec now p p' c x :
  get_idle now p = Some (p', c, x) ->
  exists t rest, idleConn p = mkConnInfo c t :: rest /\ p' = set_idle rest p.
Proof.
  unfold get_idle. destruct (idleConn p) as [|[c1 t] rest]; [done|]. intros [= <- <- _].
  eauto.
Qed.
Lemma get_locked_spec id res p p' o :
  get_locked id res p = (p', o) ->
  idleConn p' = idleConn p /\ maxCnt p' = maxCnt p /\ maxIdleCnt p' = maxIdleCnt p /\
  match o with
  | GWait i => i = id /\ connReq p' = connReq p ++ [id] /\ cnt p' = cnt p
  | GConn c => connReq p' = connReq p /\ cnt p' = (cnt p + 1)%Z /\ (cnt p < maxCnt p)%Z
  | GErr _ => connReq p' = connReq p /\ cnt p' = cnt p
  end.
Proof.
  unfold get_locked. case_decide; [intros [= <- <-]; by split_and!|].
  destruct res; intros [= <- <-]; cbn; split_and!; try done; lia.
Qed.
Lemma put_locked_spec now c p p' o :
  put_locked now c p = (p', o) ->
  cnt p' = cnt p /\ maxCnt p' = maxCnt p /\ maxIdleCnt p' = maxIdleCnt p /\
  match o with
  | PSendTo id => connReq p = id :: connReq p' /\ idleConn p' = idleConn p
  | PIdle => connReq p' = connReq p /\ idleConn p' = idleConn p ++ [mkConnInfo c now] /\
             (Z.of_nat (length (idleConn p)) < maxIdleCnt p)%Z
  | PClosed => connReq p' = connReq p /\ idleConn p' = idleConn p
  end.
Proof.
  unfold put_locked. destruct (connReq p) as [|r rest] eqn:Er; [|intros [= <- <-]; by split_and!].
  unfold idle_room. case_bool_decide; intros [= <- <-]; by split_and!.
Qed.

(** A step that neither makes a connection nor opens a request. *)
Lemma inv_move i p0 x y :
  inv i p0 x ->
  created y = created x -> next y = next x -> places y ≡ₚ places x ->
  waiting y ≡ₚ served y -> (forall id, occ id (waiting y) <= occ id (waiting x)) ->
  cnt (pl y) = cnt (pl x) -> maxCnt (pl y) = maxCnt (pl x) ->
  maxIdleCnt (pl y) = maxIdleCnt (pl x) ->
  (Z.of_nat (length (idleConn (pl y))) <= Z.max (Z.of_nat (length (idleConn (pl x)))) (maxIdleCnt (pl x)))%Z ->
  inv i p0 y.
Proof.
  intros [Hown Hnd Hw Ho Hm Hc Hi Hmx Hmi] Ec En Ep Ew1 Ew2 Ecnt Emax Emi Eid.
  split; rewrite ?Ec, ?En, ?Ep, ?Ecnt, ?Emax, ?Emi; try done; [|lia].
  intros id. etrans; [apply Ew2|apply Ho].
Qed.

Ltac config_simpl := unfold places, waiting, served in *;
  cbn [pl chans calls held next created closed dropped] in *.
Ltac move_solve :=
  eapply inv_move; [eassumption| | | | | | | | |]; config_simpl; cbn;
  try (assumption || reflexivity || lia || perm_solve || (intros ?id; perm_counts id; lia)).

Lemma step_inv i p0 x y : step x y -> inv i p0 x -> inv i p0 y.
Proof.
  intros Hs Hinv. pose proof (i_wait _ _ _ Hinv) as Hw. pose proof (i_own _ _ _ Hinv) as Hown.
  destruct Hs; config_simpl.
  - apply get_idle_spec in H as (t & rest & He & ->). move_solve; rewrite ?He in *; [perm_solve|cbn; lia].
  - move_solve.
  - apply get_locked_spec in H0 as (E1 & E2 & E3 & _ & E4 & E5). destruct Hinv as [_ Hnd _ Ho Hm Hc Hi Hmx Hmi].
    split; config_simpl; rewrite ?E1, ?E2, ?E3, ?E4, ?E5; try done; [perm_solve..|].
    intros id. specialize (Ho id). perm_counts id. unfold one. repeat case_decide; lia.
  - apply get_locked_spec in H1 as (E1 & E2 & E3 & E4 & E5 & E6). destruct Hinv as [_ Hnd _ Ho Hm Hc Hi Hmx Hmi].
    split; config_simpl; rewrite ?E1, ?E2, ?E3, ?E4, ?E5; try done.
    + perm_solve.
    + by constructor.
    + perm_solve.
    + intros id. specialize (Ho id). perm_counts id. lia.
    + cbn [length]. lia.
    + lia.
  - apply get_locked_spec in H0 as (E1 & E2 & E3 & E4 & E5). move_solve; rewrite ?E1, ?E4; try perm_solve; lia.
  - move_solve.
  - move_solve.
  - move_solve.
  - move_solve.
  - apply put_locked_spec in H0 as (E1 & E2 & E3 & E4 & E5). move_solve; rewrite ?E5, ?E4 in *; try perm_solve; lia.
  - apply put_locked_spec in H0 as (E1 & E2 & E3 & E4 & E5 & E6).
    move_solve; rewrite ?E5, ?E4, ?length_app in *; try perm_solve. cbn. lia.
  - apply put_locked_spec in H0 as (E1 & E2 & E3 & E4 & E5). move_solve; rewrite ?E5, ?E4 in *; try perm_solve; lia.
  - move_solve.
Qed.

Lemma steps_inv i p0 x y : rtc step x y -> inv i p0 x -> inv i p0 y.
Proof. induction 1; eauto using step_inv. Qed.

(** The goroutines that are before the lock. *)
Definition blocked (x : config) : list (option C) :=
  calls x ≫= (fun c => match c with CLock => [None] | CPut c => [Some c] | _ => [] end).

Lemma step_dropped x y c : step x y -> occ c (dropped x) <= occ c (dropped y).
Proof. intros Hs. destruct Hs; cbn [dropped]; rewrite ?occ_cons; lia. Qed.
Lemma steps_dropped x y c : rtc step x y -> occ c (dropped x) <= occ c (dropped y).
Proof. induction 1; [done|]. etrans; [by apply step_dropped|done]. Qed.

Lemma step_locked x y :
  lock (pl x) = true -> step x y ->
  lock (pl y) = true /\ created y = created x /\ forall a, occ a (blocked x) <= occ a (blocked y).
Proof.
  intros Hl Hs. destruct Hs; unfold blocked; cbn [pl calls created] in *; try congruence;
    (split_and!; [|done|intros a; autorewrite with occ; cbn; autorewrite with occ; lia]).
  all: try done.
  apply get_idle_spec in H as (t & rest & _ & ->). done.
Qed.
Lemma steps_locked x y :
  rtc step x y -> lock (pl x) = true ->
  lock (pl y) = true /\ created y = created x /\ forall a, occ a (blocked x) <= occ a (blocked y).
Proof.
  induction 1 as [x|x y z Hxy Hyz IH]; intros Hl; [done|].
  destruct (step_locked _ _ Hl Hxy) as (Hy & Ec & Hb). destruct (IH Hy) as (Hz & Ec' & Hb').
  split_and!; [done|congruence|]. intros a. etrans; [apply Hb|apply Hb'].
Qed.

Lemma submseteq_occ (l k : list C) : (forall c, occ c l <= occ c k) -> length l <= length k.
Proof.
  revert k. induction l as [|c l IH]; intros k H; cbn; [lia|].
  assert (c ∈ k) as (k1 & k2 & ->)%list_elem_of_split.
  { apply list_elem_of_In, (count_occ_In (fun a b => decide (a = b))).
    specialize (H c). rewrite occ_cons in H. unfold one in H. rewrite decide_True in H by done.
    unfold occ in H. lia. }
  rewrite length_app. cbn. rewrite Nat.add_succ_r, <-length_app. apply le_n_S, IH.
  intros d. specialize (H d). rewrite ?occ_app, ?occ_cons in *. lia.
Qed.

(** C10. Ownership in the pool, under every interleaving of [Get] and [Put] by any
    number of goroutines that give back what they hold, their contexts ending at
    any time: every connection ever made is in exactly one place, so no two
    callers ever share one; there are as many as the initial ones and the
    counter tell, and the counter never passes [maxCnt] nor the idle channel its
    capacity; and every waiting request, abandoned ones included, is exactly
    once in the queue or on its way to a connection. *)
Theorem Pool_ownership {F} (factory : F -> F * (pool_error + C)) max idle initCnt exp now f f' p0 x :
  NewPool factory max idle initCnt exp now f = Ok (f', inr p0) ->
  NoDup (conn <$> idleConn p0) ->
  rtc step (initial p0) x ->
  created x ≡ₚ places x /\ NoDup (places x) /\
  Z.of_nat (length (created x)) = (Z.max 0 initCnt + cnt (pl x))%Z /\
  (0 <= cnt (pl x) <= Z.max 0 max)%Z /\
  (Z.of_nat (length (idleConn (pl x))) <= idle)%Z /\
  waiting x ≡ₚ served x /\ NoDup (served x).
Proof.
  intros HN Hnd Hr. destruct (initial_inv _ _ _ _ _ _ _ _ _ HN Hnd) as (Hi & _ & Emax & Eidle).
  destruct (steps_inv _ _ _ _ Hr Hi) as [Hown Hn Hw Ho Hm Hc Hid _ _].
  rewrite Emax, Eidle in *. split_and!; try done; try lia.
  - by rewrite <-Hown.
  - rewrite <-Hw. apply NoDup_ListNoDup, (NoDup_count_occ (fun a b => decide (a = b))).
    intros id. specialize (Ho id). unfold occ in Ho. case_decide; lia.
Qed.

(** C40. What the pool loses it never gets back.  A connection that [Put] drops
    because the idle channel is full stays in the counter: from then on the
    callers together hold at most as many connections as there were, less those
    dropped.  And an error of the factory leaves the pool locked, for ever:
    whoever is before the lock, to get a connection or to give one back, stays
    there, and no connection is made any more. *)
Theorem Pool_shrinks {F} (factory : F -> F * (pool_error + C)) max idle initCnt exp now f f' p0 x y :
  NewPool factory max idle initCnt exp now f = Ok (f', inr p0) ->
  NoDup (conn <$> idleConn p0) ->
  rtc step (initial p0) x -> rtc step x y ->
  (Z.of_nat (length (held y)) + Z.of_nat (length (dropped x)) <= Z.max 0 initCnt + Z.max 0 max)%Z /\
  (forall e, (cnt (pl x) < max)%Z ->
     exists p', get_locked (next x) (inl e) (pl x) = (p', GErr e) /\ lock p' = true) /\
  (lock (pl x) = true ->
     lock (pl y) = true /\ created y = created x /\ forall a, occ a (blocked x) <= occ a (blocked y)).
Proof.
  intros HN Hnd Hr Hxy. destruct (initial_inv _ _ _ _ _ _ _ _ _ HN Hnd) as (Hi & _ & Emax & _).
  pose proof (steps_inv _ _ _ _ Hr Hi) as Hx.
  destruct (steps_inv _ _ _ _ Hxy Hx) as [Hown _ _ _ Hm Hc _ _ _]. split_and!.
  - assert (length (dropped x) <= length (dropped y)) as Hd
      by (apply submseteq_occ; intros c; by apply steps_dropped).
    apply Permutation_length in Hown. unfold places in Hown. rewrite !length_app in Hown.
    rewrite Emax in Hc. lia.
  - intros e Hlt. unfold get_locked. rewrite (i_max _ _ _ Hx), Emax, decide_False by lia. eauto.
  - by apply steps_locked.
Qed.
End pool.
Arguments Pool : clear implicits.
Arguments config : clear implicits.

(** ** Runs of a small pool *)

Definition counting_factory (n : nat) : nat * (pool_error + nat) := (S n, inr n).
(** A pool of at most [max] connections and [idle] idle ones, with [k] of them in
    use and [ids] idle. *)
Definition small (max idle k : Z) (ws : list nat) (ids : list nat) : Pool nat :=
  mkPool false max k ws ((fun c => mkConnInfo c 0%Z) <$> ids) idle 60.

(** A lost wake-up: a caller that saw the idle channel empty waits in the queue
    while the only connection, given back in between, is idle; no goroutine is
    left to wake it. *)
Lemma Pool_lost_wakeup :
  rtc step (initial (small 1 1 0 [] []))
    (mkConfig (small 1 1 1 [0] [0]) [] [CWait 0] [] 1 [0] [] []).
Proof.
  eapply rtc_l; [by apply (step_get_none 0)|].
  eapply rtc_l; [by apply (step_get_new _ (small 1 1 1 [] []) 0 [] [] [] [] 0 []); [|apply not_elem_of_nil|]|].
  eapply rtc_l; [by apply (step_get_none 0)|].
  eapply rtc_l; [apply (step_put _ _ _ [] [])|].
  eapply rtc_l; [by apply (step_put_idle 0 _ (small 1 1 1 [] [0]) _ [] [CLock])|].
  eapply rtc_l; [|apply rtc_refl].
  by apply (step_get_wait (inr 7) _ _ _ []).
Qed.

Lemma Pool_ownership_witness :
  exists p0, NewPool counting_factory 2 2 1 60 (fun _ => 0%Z) 0 = Ok (1, inr p0) /\
    NoDup (places (mkConfig (set_idle [] p0) [] [] [0] 0 [0] [0] [])).
Proof.
  eexists. split; [reflexivity|].
  apply (Pool_ownership counting_factory 2 2 1 60 (fun _ => 0%Z) 0 1 (small 2 2 0 [] [0])).
  - reflexivity.
  - apply NoDup_singleton.
  - eapply rtc_l; [|apply rtc_refl]. by apply (step_get_idle 61 (small 2 2 0 [] [0]) (small 2 2 0 [] []) 0 true).
Defined.

(** A pool whose only connection was dropped: nobody gets one any more. *)
Lemma Pool_shrinks_witness :
  let x := mkConfig (small 1 0 1 [] []) [] [] [] 0 [0] [0] [0] in
  rtc step (initial (small 1 0 0 [] [])) x /\ forall y, rtc step x y -> held y = [].
Proof.
  intros x. assert (rtc step (initial (small 1 0 0 [] [])) x) as Hx.
  { eapply rtc_l; [by apply (step_get_none 0)|].
    eapply rtc_l; [by apply (step_get_new _ (small 1 0 1 [] []) 0 [] [] [] [] 0 []); [|apply not_elem_of_nil|]|].
    eapply rtc_l; [apply (step_put _ _ _ [] [])|].
    eapply rtc_l; [|apply rtc_refl].
    by apply (step_put_close 0 _ (small 1 0 1 [] []) _ [] []). }
  split; [exact Hx|]. intros y Hy. apply length_zero_iff_nil.
  pose proof (proj1 (Pool_shrinks counting_factory 1 0 0 60 (fun _ => 0%Z) 0 0 (small 1 0 0 [] [])
    x y eq_refl (NoDup_nil_2 : NoDup ([] : list nat)) Hx Hy)) as H.
  cbn in H. lia.
Defined.
