(* ===== verification/Concurrency.v ===== *)
(** The concurrency exercises: the map [cache/concurrency/sync/safe_map.go] and
    the message broker [cache/concurrency/channel/mq.go]. *)
From S2P Require Import Prelude.

(** ** [SafeMap] *)

Section safemap.
Context {K V : Type} `{Countable K}.

(** [SafeMap]: the map, and whether the write lock was left taken; between two
    sections nothing else is locked. *)
Record SafeMap := mkSafeMap { data : gmap K V; wlocked : bool }.

(** The sections, for a goroutine that has got the lock. *)
Definition Put (key : K) (val : V) (s : SafeMap) : SafeMap := mkSafeMap (<[key := val]> (data s)) false.
Definition Get (key : K) (s : SafeMap) : option V * bool :=
  (data s !! key, bool_decide (is_Some (data s !! key))).
(** [LoadOrStore]: under the read lock, then under the write lock; the return
    between the two [Unlock]s comes before the [defer]. *)
Definition load (key : K) (s : SafeMap) : option V := data s !! key.
Definition load_or_store (key : K) (newVal : V) (s : SafeMap) : SafeMap * (V * bool) :=
  match data s !! key with
  | Some res => (mkSafeMap (data s) true, (res, true))
  | None => (mkSafeMap (<[key := newVal]> (data s)) false, (newVal, false))
  end.

(** The calls of [LoadOrStore] between their sections, and the results so far. *)
Record smap := mkSmap { sm : SafeMap; pending : list (K * V); results : list (K * V * bool) }.
Inductive sm_step : smap -> smap -> Prop :=
  | sm_put key val s p r :
      wlocked s = false -> sm_step (mkSmap s p r) (mkSmap (Put key val s) p r)
  | sm_load_hit key v s p r :
      wlocked s = false -> load key s = Some v ->
      sm_step (mkSmap s p r) (mkSmap s p ((key, v, true) :: r))
  | sm_load_miss key newVal s p r :
      wlocked s = false -> load key s = None ->
      sm_step (mkSmap s p r) (mkSmap s ((key, newVal) :: p) r)
  | sm_store key newVal s s' x p1 p2 r :
      wlocked s = false -> load_or_store key newVal s = (s', x) ->
      sm_step (mkSmap s (p1 ++ (key, newVal) :: p2) r) (mkSmap s' (p1 ++ p2) ((key, x.1, x.2) :: r)).

(** How many calls say that they stored a value for the key. *)
Definition stored (key : K) (r : list (K * V * bool)) : nat :=
  length (filter (fun x => x.1.1 = key /\ x.2 = false) r).

Lemma stored_cons key k v b r :
  stored key ((k, v, b) :: r) = (if decide (k = key /\ b = false) then 1 else 0) + stored key r.
Proof.
  unfold stored. rewrite filter_cons. cbn [fst snd].
  destruct (decide (k = key /\ b = false)) as [Hd|Hd]; by repeat case_decide.
Qed.

(** The invariant, from a map [d0]: a key is stored by at most one call, and only
    when it was absent and is there now; no key disappears; and every result is
    for a key that is there. *)
Definition sm_inv (d0 : gmap K V) (x : smap) : Prop :=
  (forall key, stored key (results x) <= 1) /\
  (forall key, stored key (results x) = 1 -> d0 !! key = None /\ is_Some (data (sm x) !! key)) /\
  (forall key, is_Some (d0 !! key) -> is_Some (data (sm x) !! key)) /\
  (forall k v b, (k, v, b) ∈ results x -> is_Some (data (sm x) !! k)).

Lemma lookup_insert_is_Some_mono (m : gmap K V) k k' v :
  is_Some (m !! k) -> is_Some (<[k' := v]> m !! k).
Proof. intros Hk. rewrite lookup_insert. case_decide; eauto. Qed.

Lemma sm_step_inv d0 x y : sm_step x y -> sm_inv d0 x -> sm_inv d0 y.
Proof.
  intros Hs (H1 & H2 & H3 & H4).
  destruct Hs as [key val s p r Hl|key v s p r Hl Hv|key v s p r Hl Hv|key nv s s' x p1 p2 r Hl Hx];
    unfold sm_inv; cbn [sm results] in *.
  - cbn [Put data]. split_and!; eauto using lookup_insert_is_Some_mono.
    intros k Hk. destruct (H2 k Hk). eauto using lookup_insert_is_Some_mono.
  - split_and!; [|..|done|].
    1,2: intros k; rewrite stored_cons, decide_False by (intros [_ [=]]); apply H1 || apply H2.
    intros k w b [[= -> -> ->]|Hin]%elem_of_cons; [|by eauto]. unfold load in Hv. eauto.
  - by split_and!.
  - unfold load_or_store in Hx. destruct (data s !! key) as [v|] eqn:Ek; injection Hx as <- <-; cbn [data fst snd].
    + split_and!; [|..|done|].
      1,2: intros k; rewrite stored_cons, decide_False by (intros [_ [=]]); apply H1 || apply H2.
      intros k w b [[= -> -> ->]|Hin]%elem_of_cons; eauto.
    + assert (stored key r = 0) as H0.
      { destruct (stored key r) as [|[|n]] eqn:E; [done| |specialize (H1 key); lia].
        destruct (H2 key E) as [_ [v Hv]]. congruence. }
      split_and!.
      * intros k. rewrite stored_cons. case_decide as Hd; [|apply H1]. destruct Hd as [-> _]. lia.
      * intros k. rewrite stored_cons. case_decide as Hd.
        -- destruct Hd as [-> _]. intros _. rewrite lookup_insert_eq. split; [|eauto].
           destruct (d0 !! k) as [v|] eqn:E; [|done]. destruct (H3 k) as [v' Hv']; [eauto|congruence].
        -- intros Hk. destruct (H2 k Hk). eauto using lookup_insert_is_Some_mono.
      * intros k Hk. eauto using lookup_insert_is_Some_mono.
      * intros k w b [[= -> -> ->]|Hin]%elem_of_cons; [rewrite lookup_insert_eq; eauto|].
        eauto using lookup_insert_is_Some_mono.
Qed.

Lemma sm_steps_inv d0 x y : rtc sm_step x y -> sm_inv d0 x -> sm_inv d0 y.
Proof. induction 1; eauto using sm_step_inv. Qed.

Lemma sm_locked_frozen x y : rtc sm_step x y -> wlocked (sm x) = true -> y = x.
Proof.
  intros Hr Hl. destruct Hr as [|x y z Hxy _]; [done|].
  destruct Hxy; cbn [sm] in Hl; congruence.
Qed.

(** C26. [LoadOrStore] under every interleaving with itself and [Put]: at most
    one call per key says that it stored its value, and only for a key that was
    absent, so that the check under the write lock does what it is for (of two
    calls for one key never both return false, whatever the comment of
    [TestSafeMap_LoadOrStore] expects); every key a call returned for is in the
    map.  But the call that finds the key at
    that second check returns with the write lock taken: whenever two calls for
    an absent key have both passed the first check, the map can come to a state
    in which no call of any method ever moves again. *)
Theorem SafeMap_LoadOrStore d0 x :
  rtc sm_step (mkSmap (mkSafeMap d0 false) [] []) x ->
  (forall key, stored key (results x) <= 1) /\
  (forall key, stored key (results x) = 1 -> d0 !! key = None) /\
  (forall key v b, (key, v, b) ∈ results x -> is_Some (data (sm x) !! key)) /\
  forall key v1 v2 p1 p2 p3,
    wlocked (sm x) = false -> pending x = p1 ++ (key, v1) :: p2 ++ (key, v2) :: p3 ->
    exists y, rtc sm_step x y /\ wlocked (sm y) = true /\ forall z, rtc sm_step y z -> z = y.
Proof.
  intros Hr.
  destruct (sm_steps_inv d0 _ _ Hr) as (H1 & H2 & _ & H4).
  { split_and!; try done; [intros k; cbn; lia|by intros ? ? ? ?%not_elem_of_nil]. }
  split_and!; [done|intros k Hk; apply (H2 k Hk)|done|].
  intros key v1 v2 p1 p2 p3 Hl Hp. destruct x as [s p r]. cbn [sm pending] in *. subst p.
  destruct (load_or_store key v1 s) as [s1 x1] eqn:E1.
  pose proof (sm_store key v1 s s1 x1 p1 (p2 ++ (key, v2) :: p3) r Hl E1) as S1.
  destruct (wlocked s1) eqn:El1.
  - eexists. split; [by apply rtc_once|]. split; [done|]. intros z Hz. by apply (sm_locked_frozen _ _ Hz).
  - destruct (load_or_store key v2 s1) as [s2 x2] eqn:E2.
    rewrite app_assoc in S1.
    pose proof (sm_store key v2 s1 s2 x2 (p1 ++ p2) p3 ((key, x1.1, x1.2) :: r) El1 E2) as S2.
    assert (wlocked s2 = true) as El2.
    { unfold load_or_store in E1, E2. destruct (data s !! key) as [w|]; injection E1 as <- <-; [done|].
      cbn [data] in E2. rewrite lookup_insert_eq in E2. by injection E2 as <- <-. }
    eexists. split; [eapply rtc_l; [exact S1|by apply rtc_once]|]. split; [done|].
    intros z Hz. by apply (sm_locked_frozen _ _ Hz).
Qed.
End safemap.

Lemma SafeMap_LoadOrStore_witness :
  let x := mkSmap (mkSafeMap (∅ : gmap string nat) false) [("k", 2); ("k", 1)] [] in
  rtc sm_step (mkSmap (mkSafeMap ∅ false) [] []) x /\
  exists y, rtc sm_step x y /\ wlocked (sm y) = true /\ forall z, rtc sm_step y z -> z = y.
Proof.
  intros x. assert (rtc sm_step (mkSmap (mkSafeMap (∅ : gmap string nat) false) [] []) x) as Hx.
  { eapply rtc_l; [by apply (sm_load_miss "k" 1)|]. eapply rtc_l; [by apply (sm_load_miss "k" 2)|].
    apply rtc_refl. }
  split; [exact Hx|].
  exact (proj2 (proj2 (proj2 (SafeMap_LoadOrStore ∅ x Hx))) "k" 2 1 [] [] [] eq_refl eq_refl).
Defined.

(** ** [Broker] *)

Section broker.
Context {Msg : Type}.

(** A channel: its capacity, its buffer, how many receivers are blocked on it, and
    the messages that receivers have got, in order; [Broker] holds references to
    the channels of its subscribers. *)
Record chan := mkChan { cap : nat; buf : list Msg; waiting : nat; taken : list Msg; is_closed : bool }.
(** All that went through it. *)
Definition stream (c : chan) : list Msg := taken c ++ buf c.
Inductive broker_error := ErrQueueFull.   (** "消息队列已满" *)

(** A send that need not block hands the message to a receiver that is blocked, or
    puts it in the buffer when there is room. *)
Definition deliver (m : Msg) (c : chan) : option chan :=
  match waiting c with
  | S n => Some (mkChan (cap c) (buf c) n (taken c ++ [m]) (is_closed c))
  | O =>
      if decide (length (buf c) < cap c)
      then Some (mkChan (cap c) (buf c ++ [m]) 0 (taken c) (is_closed c)) else None
  end.
(** [select { case ch <- m: ... default: }] on the heap of channels. *)
Definition try_send (id : nat) (m : Msg) (h : list chan) : go (list chan * bool) :=
  match h !! id with
  | None => Panic PNilDeref
  | Some c =>
      if is_closed c then Panic (PFatal "send on closed channel")
      else match deliver m c with
           | Some c' => Ok (<[id := c']> h, true)
           | None => Ok (h, false)
           end
  end.
(** The loop of [Send] over the channels. *)
Fixpoint Send (m : Msg) (chans : list nat) (h : list chan) : go (list chan * option broker_error) :=
  match chans with
  | [] => Ok (h, None)
  | ch :: chans' =>
      match try_send ch m h with
      | Ok (h, true) => Send m chans' h
      | Ok (h, false) => Ok (h, Some ErrQueueFull)
      | Panic p => Panic p
      end
  end.
(** A negative capacity panics in [make] before anything is done. *)
Definition Subscribe (capacity : nat) (chans : list nat) (h : list chan) : list nat * list chan * nat :=
  (chans ++ [length h], h ++ [mkChan capacity [] 0 [] false], length h).
(** [close(ch)], which also ends the receives that are blocked. *)
Definition close_chan (id : nat) (h : list chan) : go (list chan) :=
  match h !! id with
  | None => Panic (PFatal "close of nil channel")
  | Some c =>
      if is_closed c then Panic (PFatal "close of closed channel")
      else Ok (<[id := mkChan (cap c) (buf c) 0 (taken c) true]> h)
  end.

(** What the goroutine of a subscriber does to its channel: it receives a message
    from the buffer; it blocks on an empty one; or, in a [select], it goes on
    without a message. *)
Definition take_msg (c : chan) : option chan :=
  match buf c with m :: ms => Some (mkChan (cap c) ms (waiting c) (taken c ++ [m]) (is_closed c)) | [] => None end.
Definition block (c : chan) : option chan :=
  match buf c, is_closed c with
  | [], false => Some (mkChan (cap c) [] (S (waiting c)) (taken c) false)
  | _, _ => None
  end.
Definition unblock (c : chan) : option chan :=
  match waiting c with S n => Some (mkChan (cap c) (buf c) n (taken c) (is_closed c)) | O => None end.

(** Calls under way: the rest of the loop of a [Send], which holds the read lock,
    and the rest of the loop of a [Close], which holds no lock any more. *)
Inductive broker_call := BSend (m : Msg) (rest : list nat) | BClose (rest : list nat).
Record broker := mkBroker { chans : list nat; heap : list chan; bcalls : list broker_call }.
Definition sending (c : broker_call) : bool := match c with BSend _ _ => true | BClose _ => false end.

Inductive b_step : broker -> go broker -> Prop :=
  | b_subscribe capacity cs h k cs' h' id :
      Forall (fun c => sending c = false) k -> Subscribe capacity cs h = (cs', h', id) ->
      b_step (mkBroker cs h k) (Ok (mkBroker cs' h' k))
  | b_send m cs h k : b_step (mkBroker cs h k) (Ok (mkBroker cs h (BSend m cs :: k)))
  | b_send_one m id rest cs h h' k1 k2 :
      try_send id m h = Ok (h', true) ->
      b_step (mkBroker cs h (k1 ++ BSend m (id :: rest) :: k2))
        (Ok (mkBroker cs h' (k1 ++ BSend m rest :: k2)))
  | b_send_full m id rest cs h h' k1 k2 :
      try_send id m h = Ok (h', false) ->
      b_step (mkBroker cs h (k1 ++ BSend m (id :: rest) :: k2)) (Ok (mkBroker cs h' (k1 ++ k2)))
  | b_send_panic m id rest cs h p k1 k2 :
      try_send id m h = Panic p ->
      b_step (mkBroker cs h (k1 ++ BSend m (id :: rest) :: k2)) (Panic p)
  | b_send_done m cs h k1 k2 :
      b_step (mkBroker cs h (k1 ++ BSend m [] :: k2)) (Ok (mkBroker cs h (k1 ++ k2)))
  | b_receiver id c c' cs h k :
      h !! id = Some c -> take_msg c = Some c' \/ block c = Some c' \/ unblock c = Some c' ->
      b_step (mkBroker cs h k) (Ok (mkBroker cs (<[id := c']> h) k))
  | b_close cs h k :
      Forall (fun c => sending c = false) k ->
      b_step (mkBroker cs h k) (Ok (mkBroker [] h (BClose cs :: k)))
  | b_close_one id rest cs h h' k1 k2 :
      close_chan id h = Ok h' ->
      b_step (mkBroker cs h (k1 ++ BClose (id :: rest) :: k2)) (Ok (mkBroker cs h' (k1 ++ BClose rest :: k2)))
  | b_close_panic id rest cs h p k1 k2 :
      close_chan id h = Panic p ->
      b_step (mkBroker cs h (k1 ++ BClose (id :: rest) :: k2)) (Panic p)
  | b_close_done cs h k1 k2 :
      b_step (mkBroker cs h (k1 ++ BClose [] :: k2)) (Ok (mkBroker cs h (k1 ++ k2))).

Inductive b_reach : broker -> Prop :=
  | b_start : b_reach (mkBroker [] [] [])
  | b_more x y : b_reach x -> b_step x (Ok y) -> b_reach y.

(** ** Channels stay open while the broker can send to them *)

Definition is_open (h : list chan) (id : nat) : Prop :=
  exists c, h !! id = Some c /\ is_closed c = false.
Definition closing (k : list broker_call) : list nat :=
  k ≫= (fun c => match c with BClose rest => rest | BSend _ _ => [] end).
(** Receivers are blocked only where there is nothing to receive. *)
Definition chan_ok (c : chan) : Prop := waiting c = 0 \/ buf c = [].
Record b_inv (x : broker) : Prop := {
  bi_chans : Forall chan_ok (heap x);
  bi_nodup : NoDup (chans x ++ closing (bcalls x));
  bi_open : Forall (is_open (heap x)) (chans x ++ closing (bcalls x));
  bi_send : forall m rest, BSend m rest ∈ bcalls x -> rest ⊆ chans x }.

Lemma is_open_insert h id c id' :
  is_closed c = false -> is_open h id' -> is_open (<[id := c]> h) id'.
Proof.
  intros Hc (c' & Hl & Ho). destruct (decide (id = id')) as [->|Hne].
  - exists c. rewrite list_lookup_insert_eq by (by eapply lookup_lt_Some). done.
  - exists c'. by rewrite list_lookup_insert_ne.
Qed.
Lemma is_open_insert_ne h id c id' : id <> id' -> is_open h id' -> is_open (<[id := c]> h) id'.
Proof. intros Hne (c' & Hl & Ho). exists c'. by rewrite list_lookup_insert_ne. Qed.
Lemma is_open_lt h id : is_open h id -> id < length h.
Proof. intros (c & Hl & _). by eapply lookup_lt_Some. Qed.
Lemma is_open_app h h' id : is_open h id -> is_open (h ++ h') id.
Proof. intros (c & Hl & Ho). exists c. split; [by apply lookup_app_l_Some|done]. Qed.

Lemma deliver_spec m c c' : deliver m c = Some c' -> chan_ok c ->
  chan_ok c' /\ stream c' = stream c ++ [m] /\ cap c' = cap c /\ is_closed c' = is_closed c.
Proof.
  unfold deliver, chan_ok, stream. destruct (waiting c) as [|n] eqn:Hw.
  - case_decide; intros [= <-] _; cbn. rewrite app_assoc. by split_and!; [left|..].
  - intros [= <-] [?|Hb]; [done|]. cbn. rewrite Hb, !app_nil_r. by split_and!; [right|..].
Qed.
Lemma try_send_ok h id m h' b : try_send id m h = Ok (h', b) -> Forall chan_ok h -> Forall chan_ok h'.
Proof.
  unfold try_send. destruct (h !! id) as [c|] eqn:Hl; [|done]. destruct (is_closed c); [done|].
  destruct (deliver m c) as [c'|] eqn:Hd; intros [= <- <-] HF; [|done].
  apply Forall_insert; [done|]. apply (deliver_spec m c c' Hd). by eapply Forall_lookup_1.
Qed.
Lemma close_chan_ok h id h' : close_chan id h = Ok h' -> Forall chan_ok h -> Forall chan_ok h'.
Proof.
  unfold close_chan. destruct (h !! id) as [c|]; [|done]. destruct (is_closed c); [done|]. intros [= <-] HF.
  apply Forall_insert; [done|]. by left.
Qed.
Lemma receiver_ok c c' : take_msg c = Some c' \/ block c = Some c' \/ unblock c = Some c' -> chan_ok c ->
  chan_ok c' /\ stream c' = stream c /\ is_closed c' = is_closed c.
Proof.
  unfold take_msg, block, unblock, chan_ok, stream.
  intros [H|[H|H]] Hok.
  - destruct (buf c) as [|m ms]; [done|]. injection H as <-. cbn. rewrite <-app_assoc.
    destruct Hok; [|done]. by split_and!; [left|..].
  - destruct (buf c), (is_closed c); try done. injection H as <-. by split_and!; [right|..].
  - destruct (waiting c); [done|]. injection H as <-. destruct Hok; [done|]. by split_and!; [right|..].
Qed.

Lemma try_send_open h id m :
  is_open h id -> exists h' b, try_send id m h = Ok (h', b) /\ forall i, is_open h i -> is_open h' i.
Proof.
  intros (c & Hl & Ho). unfold try_send. rewrite Hl, Ho. destruct (deliver m c) as [c'|] eqn:Hd; do 2 eexists; (split; [done|]); [|done].
  intros i Hi. apply is_open_insert; [|done]. revert Hd. unfold deliver. destruct (waiting c); [case_decide|]; by intros [= <-].
Qed.

Lemma closing_app k1 k2 : closing (k1 ++ k2) = closing k1 ++ closing k2.
Proof. apply bind_app. Qed.
(** Replacing one call, with no more to close than before. *)
Lemma b_inv_replace cs h h' k1 k2 c c' :
  b_inv (mkBroker cs h (k1 ++ c :: k2)) ->
  Forall chan_ok h' -> (forall i, is_open h i -> is_open h' i) ->
  closing c' = closing [c] -> (forall m rest, BSend m rest ∈ c' -> rest ⊆ cs) ->
  b_inv (mkBroker cs h' (k1 ++ c' ++ k2)).
Proof.
  intros [_ Hn Ho Hs] Hok Hh Hc Hb. cbn [chans heap bcalls] in *.
  assert (closing (k1 ++ c' ++ k2) = closing (k1 ++ c :: k2)) as E.
  { change (c :: k2) with ([c] ++ k2). by rewrite !closing_app, Hc. }
  split; cbn [chans heap bcalls]; rewrite ?E; [done|done|by eapply Forall_impl|].
  intros m rest [Hin|[Hin|Hin]%elem_of_app]%elem_of_app.
  - apply (Hs m). set_solver.
  - by apply (Hb m).
  - apply (Hs m). set_solver.
Qed.

Lemma no_sends k m rest : Forall (fun c => sending c = false) k -> BSend m rest ∈ k -> False.
Proof. intros HF Hin. rewrite Forall_forall in HF. by specialize (HF _ Hin). Qed.

Lemma b_inv_subscribe cs h k capacity :
  b_inv (mkBroker cs h k) -> Forall (fun c => sending c = false) k ->
  b_inv (mkBroker (cs ++ [length h]) (h ++ [mkChan capacity [] 0 [] false]) k).
Proof.
  intros [Hok Hn Ho _] HF. cbn [chans heap bcalls] in *.
  assert ((cs ++ [length h]) ++ closing k ≡ₚ length h :: cs ++ closing k) as E
    by (rewrite <-app_assoc; symmetry; apply Permutation_middle).
  split; cbn [chans heap bcalls]; rewrite ?E.
  - apply Forall_app. split; [done|]. constructor; [by left|constructor].
  - constructor; [|done]. intros Hin. rewrite Forall_forall in Ho.
    specialize (Ho _ Hin). apply is_open_lt in Ho. lia.
  - constructor.
    + exists (mkChan capacity [] 0 [] false). by rewrite lookup_app_r, Nat.sub_diag by lia.
    + eapply Forall_impl; [exact Ho|]. intros i. apply is_open_app.
  - intros m rest Hin. by destruct (no_sends _ _ _ HF Hin).
Qed.

Lemma b_inv_close_one cs h h' k1 k2 id rest :
  b_inv (mkBroker cs h (k1 ++ BClose (id :: rest) :: k2)) -> close_chan id h = Ok h' ->
  b_inv (mkBroker cs h' (k1 ++ BClose rest :: k2)).
Proof.
  intros [Hok Hn Ho Hs] Hc. cbn [chans heap bcalls] in *.
  pose proof (close_chan_ok _ _ _ Hc Hok) as Hok'.
  assert (cs ++ closing (k1 ++ BClose (id :: rest) :: k2) ≡ₚ id :: cs ++ closing (k1 ++ BClose rest :: k2)) as E.
  { rewrite !closing_app. cbn. by rewrite <-!Permutation_middle. }
  rewrite E in Hn, Ho. inversion Hn as [|? ? Hnin Hn']. inversion Ho as [|? ? Hid Ho']. subst.
  split; cbn [chans heap bcalls]; [done|done| |].
  - rewrite Forall_forall in *. intros i Hi. unfold close_chan in Hc.
    destruct Hid as (c & Hl & Hcl). rewrite Hl, Hcl in Hc. injection Hc as <-.
    apply is_open_insert_ne; [|by apply Ho']. intros ->. done.
  - intros m r Hin. apply (Hs m). rewrite elem_of_app, elem_of_cons in *.
    destruct Hin as [|[[=]|]]; auto.
Qed.

Lemma b_inv_sender_open cs h k1 k2 m id rest :
  b_inv (mkBroker cs h (k1 ++ BSend m (id :: rest) :: k2)) -> is_open h id /\ rest ⊆ cs.
Proof.
  intros [_ _ Ho Hs]. cbn [chans heap bcalls] in *. rewrite Forall_forall in Ho.
  assert (id :: rest ⊆ cs) as Hsub.
  { apply (Hs m). rewrite elem_of_app, elem_of_cons. auto. }
  split; [apply Ho, elem_of_app; left; apply Hsub, elem_of_cons; auto|].
  intros i Hi. apply Hsub, elem_of_cons. auto.
Qed.
Lemma b_inv_closer_open cs h k1 k2 id rest :
  b_inv (mkBroker cs h (k1 ++ BClose (id :: rest) :: k2)) -> is_open h id.
Proof.
  intros [_ _ Ho _]. cbn [chans heap bcalls] in Ho. rewrite Forall_forall in Ho. apply Ho.
  rewrite closing_app, !elem_of_app. cbn. rewrite elem_of_cons. auto.
Qed.

Lemma b_step_inv x y : b_step x (Ok y) -> b_inv x -> b_inv y.
Proof.
  intros Hst Hx. pose proof (bi_send _ Hx) as Hs. pose proof (bi_chans _ Hx) as Hok.
  inversion Hst as [capacity cs h k cs' h' id HF HS|m cs h k|m id rest cs h h' k1 k2 HS|
    m id rest cs h h' k1 k2 HS| |m cs h k1 k2|id c c' cs h k Hl Hr|cs h k HF|
    id rest cs h h' k1 k2 HC| |cs h k1 k2]; subst; clear Hst; cbn [chans bcalls heap] in Hs, Hok.
  - injection HS as <- <- <-. by apply b_inv_subscribe.
  - split; cbn [chans heap bcalls]; [done|apply Hx|apply Hx|].
    intros m' rest [Heq|Hin]%elem_of_cons; [by injection Heq as _ ->|by eapply Hs].
  - destruct (b_inv_sender_open _ _ _ _ _ _ _ Hx) as [Hid Hr].
    destruct (try_send_open h id m Hid) as (h2 & b & E & Hop). assert (h2 = h') as -> by congruence.
    apply (b_inv_replace cs h h' k1 k2 _ [BSend m rest] Hx (try_send_ok _ _ _ _ _ HS Hok) Hop); [done|].
    by intros m' rest' [= -> ->]%list_elem_of_singleton.
  - destruct (b_inv_sender_open _ _ _ _ _ _ _ Hx) as [Hid _].
    destruct (try_send_open h id m Hid) as (h2 & b & E & Hop). assert (h2 = h') as -> by congruence.
    apply (b_inv_replace cs h h' k1 k2 _ [] Hx (try_send_ok _ _ _ _ _ HS Hok) Hop); [done|by intros ? ? ?%not_elem_of_nil].
  - apply (b_inv_replace cs h h k1 k2 _ [] Hx); [done|done|done|by intros ? ? ?%not_elem_of_nil].
  - destruct (receiver_ok c c' Hr) as (Hc & _ & Hcl); [by eapply Forall_lookup_1|].
    destruct Hx as [_ Hn Ho _]. split; cbn [chans heap bcalls] in *; [by apply Forall_insert|done| |done].
    eapply Forall_impl; [exact Ho|]. intros i Hi. destruct (decide (id = i)) as [->|Hne].
    + apply is_open_insert; [|done]. destruct Hi as (c2 & Hl' & Hc'). congruence.
    + by apply is_open_insert_ne.
  - destruct Hx as [_ Hn Ho _]. cbn [chans heap bcalls] in *. split; cbn [chans heap bcalls]; [done|done|done|].
    intros m rest [Heq|Hin]%elem_of_cons; [done|by destruct (no_sends _ _ _ HF Hin)].
  - by eapply b_inv_close_one.
  - apply (b_inv_replace cs h h k1 k2 _ [] Hx); [done|done|done|by intros ? ? ?%not_elem_of_nil].
Qed.

Lemma b_reach_inv x : b_reach x -> b_inv x.
Proof.
  induction 1; [|by eapply b_step_inv].
  split; [constructor|constructor|constructor|by intros ? ? ?%not_elem_of_nil].
Qed.

(** A channel that takes a message at once. *)
Definition has_room (h : list chan) (id : nat) : Prop :=
  exists c, h !! id = Some c /\ (0 < waiting c \/ length (buf c) < cap c).
Lemma deliver_room m c : is_Some (deliver m c) <-> 0 < waiting c \/ length (buf c) < cap c.
Proof.
  unfold deliver. destruct (waiting c) as [|n].
  - case_decide; split; try by eauto.
    intros [?|?]; lia.
  - split; [|by eauto]. intros _. left. lia.
Qed.
(** What a message that is delivered to [pre] leaves of the channels. *)
Definition delivered (m : Msg) (pre : list nat) (h h' : list chan) : Prop :=
  forall id, stream <$> h' !! id = (fun c => if decide (id ∈ pre) then stream c ++ [m] else stream c) <$> h !! id.

Lemma Send_spec m cs : forall h,
  Forall chan_ok h -> Forall (is_open h) cs -> NoDup cs ->
  exists pre post h' err, cs = pre ++ post /\ Send m cs h = Ok (h', err) /\
    Forall (has_room h) pre /\ delivered m pre h h' /\
    match post with
    | [] => err = None
    | id :: _ => ~ has_room h id /\ err = Some ErrQueueFull
    end.
Proof.
  induction cs as [|id cs IH]; intros h Hok Ho Hn.
  - exists [], [], h, None. split_and!; done.
  - apply NoDup_cons in Hn as [Hnin Hn]. apply Forall_cons in Ho as [(c & Hl & Hc) Ho].
    cbn [Send]. unfold try_send. rewrite Hl, Hc. pose proof (deliver_room m c) as Hroom.
    destruct (deliver m c) as [c1|] eqn:Hd.
    + assert (chan_ok c) as Hcok by by eapply Forall_lookup_1.
      destruct (deliver_spec m c c1 Hd Hcok) as (Hok1 & Hst & _ & Hcl).
      assert (has_room h id) as Hid by (exists c; split; [done|by apply Hroom]). clear Hroom.
      set (h1 := <[id := c1]> h).
      assert (h1 !! id = Some c1) as Hl1 by (apply list_lookup_insert_eq; by eapply lookup_lt_Some).
      assert (forall i, i <> id -> h1 !! i = h !! i) as Hne by (intros i Hi; by apply list_lookup_insert_ne).
      destruct (IH h1) as (pre & post & h' & err & -> & HS & HR & Hh & Hp); [by apply Forall_insert| |done|].
      { eapply Forall_impl; [exact Ho|]. intros i. apply is_open_insert. congruence. }
      rewrite HS. exists (id :: pre), post, h', err. split; [done|]. split; [done|]. split_and!.
      * constructor; [done|]. rewrite Forall_forall in *. intros i Hi.
        destruct (HR i Hi) as (c' & Hl' & Hc'). exists c'. rewrite <-Hne; [done|]. clear Hc'. set_solver.
      * intros i. rewrite Hh. destruct (decide (i = id)) as [->|Hi].
        -- rewrite Hl, Hl1. cbn. rewrite decide_False by set_solver. rewrite decide_True by set_solver. by rewrite Hst.
        -- rewrite Hne by done. destruct (h !! i); [cbn; f_equal|done]. apply decide_ext. rewrite elem_of_cons. tauto.
      * destruct post as [|i post]; [done|]. destruct Hp as [Hp ->]. split; [|done].
        intros (c' & Hl' & Hc'). apply Hp. exists c'. rewrite Hne; [done|]. clear Hc'. set_solver.
    + exists [], (id :: cs), h, (Some ErrQueueFull). split_and!; try done.
      intros (c' & Hl' & Hc'). assert (c' = c) as -> by congruence. by apply Hroom in Hc' as [? [=]].
Qed.

(** C25. The broker under every interleaving of [Send], [Subscribe], [Close] and
    receivers, which may be blocked on their channels: no message is ever sent on
    a closed channel and no channel is closed twice, as [Close] takes the
    channels away under the write lock before it closes them.  And a [Send] in a
    quiet moment gives the message to the subscribers in the order of their
    subscription up to the first whose channel takes nothing, because no receiver
    is blocked on it and its buffer is full: the message comes last in what goes
    through each of these channels, handed to a receiver or left in the buffer,
    and the other channels are as before.  It succeeds exactly when there is no
    such subscriber, and otherwise the later ones miss the message. *)
Theorem Broker_safe x :
  b_reach x ->
  (forall p, ~ b_step x (Panic p)) /\
  forall m, exists pre post h' err,
    chans x = pre ++ post /\ Send m (chans x) (heap x) = Ok (h', err) /\
    Forall (has_room (heap x)) pre /\ delivered m pre (heap x) h' /\
    match post with
    | [] => err = None
    | id :: _ => ~ has_room (heap x) id /\ err = Some ErrQueueFull
    end.
Proof.
  intros Hx%b_reach_inv. split.
  - intros p Hst. inversion Hst as [| | | |m id rest cs h ? k1 k2 HS| | | | |id rest cs h ? k1 k2 HC|]; subst.
    + destruct (b_inv_sender_open _ _ _ _ _ _ _ Hx) as [Hid _].
      destruct (try_send_open h id m Hid) as (h2 & b & E & _). congruence.
    + destruct (b_inv_closer_open _ _ _ _ _ _ Hx) as (c & Hl & Hc).
      unfold close_chan in HC. rewrite Hl, Hc in HC. done.
  - intros m. destruct Hx as [Hok Hn Ho _]. apply NoDup_app in Hn as [Hn _].
    apply Forall_app in Ho as [Ho _]. by apply Send_spec.
Qed.
End broker.
Arguments chan : clear implicits.
Arguments broker : clear implicits.
Arguments broker_call : clear implicits.

(** Three subscribers: one with a buffer, one without that waits, one without that
    does not. *)
Definition b_example : broker string :=
  mkBroker [0; 1; 2] [mkChan 2 [] 0 [] false; mkChan 0 [] 1 [] false; mkChan 0 [] 0 [] false] [].
Lemma b_example_reach : b_reach b_example.
Proof.
  eapply b_more; [|by apply (b_receiver 1 (mkChan 0 [] 0 [] false) (mkChan 0 [] 1 [] false) [0; 1; 2]
    [mkChan 2 [] 0 [] false; mkChan 0 [] 0 [] false; mkChan 0 [] 0 [] false] []); [|right; left]].
  eapply b_more; [|by apply (b_subscribe 0 [0; 1] [mkChan 2 [] 0 [] false; mkChan 0 [] 0 [] false] [] _ _ 2)].
  eapply b_more; [|by apply (b_subscribe 0 [0] [mkChan 2 [] 0 [] false] [] _ _ 1)].
  eapply b_more; [|by apply (b_subscribe 2 [] [] [] _ _ 0)].
  apply b_start.
Qed.
(** The message is buffered, handed over, and refused. *)
Example b_example_send :
  Send "m" [0; 1; 2] (heap b_example) =
  Ok ([mkChan 2 ["m"] 0 [] false; mkChan 0 [] 0 ["m"] false; mkChan 0 [] 0 [] false], Some ErrQueueFull).
Proof. reflexivity. Qed.
Lemma Broker_safe_witness :
  (forall p, ~ b_step b_example (Panic p)) /\
  exists pre post h' err, [0; 1; 2] = pre ++ post /\ Send "m" [0; 1; 2] (heap b_example) = Ok (h', err) /\
    Forall (has_room (heap b_example)) pre.
Proof.
  destruct (Broker_safe b_example b_example_reach) as [H1 H2]. split; [exact H1|].
  destruct (H2 "m") as (pre & post & h' & err & H3 & H4 & H5 & _). exists pre, post, h', err. split; [exact H3|].
  split; [exact H4|exact H5].
Defined.

(** ** [BrokerV2] *)

Section broker2.
Context {Msg W : Type}.

(** [Listener]: what a callback does with a message, on the state [W] outside. *)
Definition Listener : Type := Msg -> W -> W.
Record BrokerV2 := mkBrokerV2 { consumers : list Listener }.
(** Under the read lock, one callback after the other. *)
Fixpoint Send_all (m : Msg) (cs : list Listener) (w : W) : W :=
  match cs with [] => w | c :: cs' => Send_all m cs' (c m w) end.
Definition SendV2 (m : Msg) (b : BrokerV2) (w : W) : W := Send_all m (consumers b) w.
Definition SubscribeV2 (cb : Listener) (b : BrokerV2) : BrokerV2 := mkBrokerV2 (consumers b ++ [cb]).

Lemma consumers_subscribed cbs : forall b,
  consumers (foldl (fun b cb => SubscribeV2 cb b) b cbs) = consumers b ++ cbs.
Proof.
  induction cbs as [|cb cbs IH]; intros b; cbn; [by rewrite app_nil_r|].
  rewrite IH. cbn. by rewrite <-app_assoc.
Qed.
(** A message reaches every listener once, in the order of the subscriptions, and
    has been consumed when [Send] returns. *)
Lemma SendV2_all m cbs w :
  SendV2 m (foldl (fun b cb => SubscribeV2 cb b) (mkBrokerV2 []) cbs) w = foldl (fun w cb => cb m w) w cbs.
Proof.
  unfold SendV2. rewrite consumers_subscribed. cbn [app consumers].
  revert w. induction cbs as [|cb cbs IH]; intros w; [done|]. apply IH.
Qed.
End broker2.

(** ** The spin lock of [cache/concurrency/sync/lock.go] *)

Definition UNLOCK : Z := 0.
Definition LOCKED : Z := 1.
Definition CompareAndSwapInt32 (old new state : Z) : Z * bool :=
  if decide (state = old) then (new, true) else (state, false).
(** The loop: its [locked] hides the one outside, and its body is empty. *)
Fixpoint spin (fuel : nat) (locked : bool) (i : Z) : option Z :=
  match fuel with
  | O => None
  | S fuel' => if negb locked && bool_decide (i < 10)%Z then spin fuel' locked (i + 1)%Z else Some i
  end.
(** [Lock.Lock]: the state after it has returned; [None] if it has not. *)
Definition spin_Lock (state : Z) : option Z :=
  let '(state, locked) := CompareAndSwapInt32 UNLOCK LOCKED state in
  i ← spin 11 locked 0%Z; Some state.

(** The swap is tried once, and the call returns whether or not it succeeded: a
    lock that is taken is taken again. *)
Lemma spin_Lock_returns state :
  spin_Lock state = Some (if decide (state = UNLOCK) then LOCKED else state).
Proof. unfold spin_Lock, CompareAndSwapInt32. by case_decide. Qed.

(** ** The singleton of [cache/concurrency/sync/once.go] *)

(** [singletonOnce], the variable [s] as the number of an allocation, and the
    allocations so far. *)
Record singleton := mkSingleton { once_done : bool; instance : nat; allocated : nat }.
(** [init]: the package is initialised before any call. *)
Definition singleton_init : singleton := mkSingleton false 0 1.
Definition GetSingleton (g : singleton) : singleton * nat :=
  let g := if once_done g then g else mkSingleton true (allocated g) (S (allocated g)) in
  (g, instance g).
(** The state after [n] calls. *)
Fixpoint after_calls (n : nat) : singleton :=
  match n with O => singleton_init | S n' => (GetSingleton (after_calls n')).1 end.
(** All callers get one instance; it is not the one of [init]. *)
Lemma GetSingleton_one n : (GetSingleton (after_calls n)).2 = 1 /\ instance singleton_init = 0.
Proof.
  assert (after_calls n = match n with O => singleton_init | _ => mkSingleton true 1 2 end) as ->;
    [|by destruct n].
  induction n as [|n IH]; [done|]. cbn [after_calls]. rewrite IH. by destruct n.
Qed.
