(* ===== verification/TaskPool.v ===== *)
(** The pool of goroutines of [cache/concurrency/channel/task_pool.go].

    A pool is a state machine: the buffer of the channel of tasks, whether the
    channel [close] is closed, and where each goroutine is.  A select with two
    cases ready takes either, so both are events.  [NewTaskPool] returns nothing,
    so a program is more than a pool: the pools that exist, and those that its
    callers can name ([TaskPool_unusable]).  What a pool would do for a caller
    that had it is [TaskPool_tasks]. *)
From S2P Require Import Prelude.

Section pool.
Context {Task : Type}.

(** A goroutine waits in its [select]; it has received a task, and is about to
    call it; it runs the task; or it has returned. *)
Inductive worker := Idle | Holding (t : Task) | Busy (t : Task) | Gone.
(** [made] tells whether the channels were made: those of [TaskPool{}] are nil.
    [received], [started] and [finished] are the tasks in the order in which
    goroutines received them, began with them and ended them; they are only
    observed. *)
Record TaskPool := mkTaskPool {
  made : bool; capacity : nat; tasks : list Task; closed : bool; workers : list worker;
  received : list Task; started : list Task; finished : list Task }.

(** [res] and the goroutines of [NewTaskPool].  A negative capacity panics in
    [make], a negative number of goroutines starts none. *)
Definition make_pool (numG cap : Z) : go TaskPool :=
  if decide (cap < 0)%Z then Panic (PUser "makechan: size out of range")
  else Ok (mkTaskPool true (Z.to_nat cap) [] false (replicate (Z.to_nat numG) Idle) [] [] []).
(** [TaskPool{}] *)
Definition zero_pool : TaskPool := mkTaskPool false 0 [] false [] [] [] [].

Inductive event :=
  | Submit (t : Task)                  (** the channel has room *)
  | Handover (t : Task) (i : nat)      (** a goroutine was waiting *)
  | Cancel (t : Task)                  (** the context is done *)
  | Close
  | Take (i : nat) | Begin (i : nat) | Return (i : nat) | Leave (i : nat)
  | Crash (i : nat) (e : panic).       (** the task of a goroutine panics *)
(** The events of the callers of [Submit] and [Close]. *)
Definition is_call (e : event) : bool :=
  match e with Submit _ | Handover _ _ | Cancel _ | Close => true | _ => false end.

(** A send on a nil channel is never ready. *)
Definition submit (t : Task) (p : TaskPool) : option TaskPool :=
  if decide (made p = true /\ length (tasks p) < capacity p)
  then Some (mkTaskPool true (capacity p) (tasks p ++ [t]) (closed p) (workers p) (received p) (started p) (finished p))
  else None.
Definition set_worker (i : nat) (w : worker) (p : TaskPool) : TaskPool :=
  mkTaskPool (made p) (capacity p) (tasks p) (closed p) (<[i := w]> (workers p)) (received p) (started p) (finished p).
(** A goroutine has received a task that is no longer in the channel. *)
Definition receive (i : nat) (t : Task) (p : TaskPool) : TaskPool :=
  mkTaskPool (made p) (capacity p) (tasks p) (closed p) (<[i := Holding t]> (workers p)) (received p ++ [t]) (started p) (finished p).
(** The send on an unbuffered channel, or to a goroutine that waits. *)
Definition handover (t : Task) (i : nat) (p : TaskPool) : option TaskPool :=
  match made p, workers p !! i, tasks p with
  | true, Some Idle, [] => Some (receive i t p)
  | _, _, _ => None
  end.
Definition take (i : nat) (p : TaskPool) : option TaskPool :=
  match workers p !! i, tasks p with
  | Some Idle, t :: ts =>
      Some (receive i t (mkTaskPool (made p) (capacity p) ts (closed p) (workers p) (received p) (started p) (finished p)))
  | _, _ => None
  end.
(** [t()]: it is called, and it returns. *)
Definition begin_task (i : nat) (p : TaskPool) : option TaskPool :=
  match workers p !! i with
  | Some (Holding t) =>
      Some (set_worker i (Busy t)
        (mkTaskPool (made p) (capacity p) (tasks p) (closed p) (workers p) (received p) (started p ++ [t]) (finished p)))
  | _ => None
  end.
Definition task_return (i : nat) (p : TaskPool) : option TaskPool :=
  match workers p !! i with
  | Some (Busy t) =>
      Some (set_worker i Idle
        (mkTaskPool (made p) (capacity p) (tasks p) (closed p) (workers p) (received p) (started p) (finished p ++ [t])))
  | _ => None
  end.
Definition leave (i : nat) (p : TaskPool) : option TaskPool :=
  match workers p !! i with
  | Some Idle => if closed p then Some (set_worker i Gone p) else None
  | _ => None
  end.
(** [t()] panics, and nothing recovers it: the program ends. *)
Definition crash (i : nat) (e : panic) (p : TaskPool) : option (go TaskPool) :=
  match workers p !! i with Some (Busy _) => Some (Panic e) | _ => None end.
(** [close(p.close)] *)
Definition Close_ (p : TaskPool) : go TaskPool :=
  if made p then
    if closed p then Panic (PFatal "close of closed channel")
    else Ok (mkTaskPool true (capacity p) (tasks p) true (workers p) (received p) (started p) (finished p))
  else Panic (PFatal "close of nil channel").

(** [None] for what cannot happen. *)
Definition step (e : event) (p : TaskPool) : option (go TaskPool) :=
  match e with
  | Submit t => Ok <$> submit t p
  | Handover t i => Ok <$> handover t i p
  | Cancel _ => Some (Ok p)
  | Close => Some (Close_ p)
  | Take i => Ok <$> take i p
  | Begin i => Ok <$> begin_task i p
  | Return i => Ok <$> task_return i p
  | Leave i => Ok <$> leave i p
  | Crash i e => crash i e p
  end.
Fixpoint run (evs : list event) (p : TaskPool) : option (go TaskPool) :=
  match evs with
  | [] => Some (Ok p)
  | e :: evs' =>
      match step e p with
      | Some (Ok p') => run evs' p'
      | r => r
      end
  end.

(** ** Programs that use the package *)

(** The pools that exist, with the goroutines that wait on them, and those to
    which the callers have a pointer. *)
Record program := mkProgram { pools : list TaskPool; refs : list nat }.
(** [NewTaskPool]: the pool is made, its goroutines are started, and the caller
    gets nothing. *)
Definition NewTaskPool (numG cap : Z) (g : program) : go program :=
  p ← make_pool numG cap; Ok (mkProgram (pools g ++ [p]) (refs g)).
(** [&TaskPool{}], all that a caller can write. *)
Definition new_zero (g : program) : program :=
  mkProgram (pools g ++ [zero_pool]) (refs g ++ [length (pools g)]).
Inductive program_event := New (numG cap : Z) | Zero | At (i : nat) (e : event).
(** A call needs a pointer to its pool; goroutines do not. *)
Definition program_step (e : program_event) (g : program) : option (go program) :=
  match e with
  | New numG cap => Some (NewTaskPool numG cap g)
  | Zero => Some (Ok (new_zero g))
  | At i e =>
      if decide (is_call e = true -> i ∈ refs g) then
        p ← pools g !! i;
        r ← step e p;
        Some (p' ← r; Ok (mkProgram (<[i := p']> (pools g)) (refs g)))
      else None
  end.
Fixpoint program_run (evs : list program_event) (g : program) : option (go program) :=
  match evs with
  | [] => Some (Ok g)
  | e :: evs' =>
      match program_step e g with
      | Some (Ok g') => program_run evs' g'
      | r => r
      end
  end.

(** Every pool is as it was made, and those that callers can name have no
    channels. *)
Definition as_made (numGs : list nat) (p : TaskPool) : Prop :=
  p = zero_pool \/ exists numG cap, numG ∈ numGs /\ p = mkTaskPool true cap [] false (replicate numG Idle) [] [] [].
Definition program_ok (numGs : list nat) (g : program) : Prop :=
  Forall (as_made numGs) (pools g) /\ (forall i, i ∈ refs g -> pools g !! i = Some zero_pool).
(** The goroutines that the calls of [NewTaskPool] started. *)
Definition spawned (evs : list program_event) : list nat :=
  omap (fun e => match e with New numG _ => Some (Z.to_nat numG) | _ => None end) evs.
Definition goroutines (g : program) : nat := sum_list_with (fun p => length (workers p)) (pools g).

Lemma made_stuck numGs p e r : as_made numGs p -> step e p = Some r ->
  match e with
  | Close => p <> zero_pool \/ r = Panic (PFatal "close of nil channel")
  | Cancel _ => r = Ok p
  | Submit _ | Handover _ _ => p <> zero_pool
  | _ => False
  end.
Proof.
  intros Hp Hst. assert (forall i w, workers p !! i = Some w -> w = Idle) as Hw.
  { destruct Hp as [->|(n & c & _ & ->)]; cbn; [done|]. by intros i w [-> _]%lookup_replicate. }
  assert (tasks p = [] /\ closed p = false) as [Ht Hc] by (by destruct Hp as [->|(n & c & _ & ->)]).
  destruct e as [t|t i|t| |i|i|i|i|i q]; cbn in Hst.
  - intros ->. cbn in Hst. by destruct (submit t zero_pool) eqn:E; [unfold submit in E; case_decide as H; [destruct H|]|].
  - intros ->. done.
  - by injection Hst as <-.
  - destruct (made p) eqn:Hm; [left; by intros ->|right]. unfold Close_ in Hst. rewrite Hm in Hst. by injection Hst as <-.
  - unfold take in Hst. rewrite Ht in Hst. by destruct (workers p !! i) as [[]|].
  - unfold begin_task in Hst. destruct (workers p !! i) eqn:E; [|done]. by rewrite (Hw _ _ E) in Hst.
  - unfold task_return in Hst. destruct (workers p !! i) eqn:E; [|done]. by rewrite (Hw _ _ E) in Hst.
  - unfold leave in Hst. rewrite Hc in Hst. by destruct (workers p !! i) as [[]|].
  - unfold crash in Hst. destruct (workers p !! i) eqn:E; [|done]. by rewrite (Hw _ _ E) in Hst.
Qed.
Lemma as_made_mono numGs n p : as_made numGs p -> as_made (numGs ++ n) p.
Proof. intros [->|(m & c & Hm & ->)]; [by left|right]. exists m, c. split; [by apply elem_of_app; left|done]. Qed.
Lemma program_step_ok numGs e g g' :
  program_step e g = Some (Ok g') -> program_ok numGs g ->
  program_ok (numGs ++ spawned [e]) g' /\ goroutines g' = goroutines g + sum_list (spawned [e]).
Proof.
  intros Hst [HF Hr].
  assert (forall p, as_made (numGs ++ spawned [e]) p ->
    Forall (as_made (numGs ++ spawned [e])) (pools g ++ [p])) as HF'.
  { intros p Hp. apply Forall_app. split; [|by constructor]. eapply Forall_impl; [exact HF|]. intros q. apply as_made_mono. }
  destruct e as [numG cap| |i e]; cbn [program_step] in Hst.
  - unfold NewTaskPool, make_pool in Hst. case_decide; [done|]. injection Hst as <-. split; [split; cbn [pools refs]|].
    + apply HF'. right. exists (Z.to_nat numG), (Z.to_nat cap). split; [|done]. apply elem_of_app. right. by apply list_elem_of_singleton.
    + intros i Hi. apply lookup_app_l_Some. by apply Hr.
    + unfold goroutines. cbn. rewrite sum_list_with_app. cbn. rewrite length_replicate. lia.
  - injection Hst as <-. split; [split; cbn [new_zero pools refs]|].
    + apply HF'. by left.
    + intros i [Hi| ->%list_elem_of_singleton]%elem_of_app; [apply lookup_app_l_Some; by apply Hr|].
      by rewrite lookup_app_r, Nat.sub_diag by lia.
    + unfold goroutines, new_zero. cbn. rewrite sum_list_with_app. cbn. lia.
  - case_decide as Hd; [|done]. destruct (pools g !! i) as [p|] eqn:Hp; [|done]. cbn in Hst.
    destruct (step e p) as [r|] eqn:He; [|done]. cbn in Hst. destruct r as [p'|]; [|done]. injection Hst as <-.
    pose proof (made_stuck numGs p e _ (Forall_lookup_1 _ _ _ _ HF Hp) He) as Hs.
    assert (p' = p) as ->.
    { destruct e; cbn in Hd; try done; try (assert (p = zero_pool) as E by (specialize (Hd eq_refl); apply Hr in Hd; congruence)).
      - by rewrite E in Hs.
      - by rewrite E in Hs.
      - by injection Hs.
      - destruct Hs as [Hs|Hs]; [by rewrite E in Hs|done]. }
    rewrite list_insert_id by done. cbn. rewrite app_nil_r, Nat.add_0_r. split; [by split|done].
Qed.
Lemma program_run_ok evs : forall numGs g g',
  program_run evs g = Some (Ok g') -> program_ok numGs g ->
  program_ok (numGs ++ spawned evs) g' /\ goroutines g' = goroutines g + sum_list (spawned evs).
Proof.
  induction evs as [|e evs IH]; intros numGs g g'; cbn [program_run].
  - intros [= <-] Hg. cbn. rewrite app_nil_r, Nat.add_0_r. by split.
  - destruct (program_step e g) as [[g1|]|] eqn:E; [|done|done]. intros Hr Hg.
    destruct (program_step_ok _ _ _ _ E Hg) as [H1 H2]. destruct (IH _ _ _ Hr H1) as [H3 H4].
    replace (spawned (e :: evs)) with (spawned [e] ++ spawned evs) by (symmetry; apply (omap_app _ [e] evs)).
    rewrite app_assoc, sum_list_with_app in *. split; [done|lia].
Qed.

(** C36. A pool of tasks cannot be used by any program outside its package:
    [NewTaskPool] keeps the pool that it makes to itself.  Whatever a program does
    with [NewTaskPool], with the zero pools it can write itself and with their
    methods, in any interleaving, no task is ever received, begun or dropped.
    Every call of [NewTaskPool] leaves its goroutines behind: they wait for ever,
    none of them can take a single step, and there are always as many as were
    asked for.  [Submit] on a pool that a caller can name never accepts a task,
    it only returns the error of its context; and [Close] always panics. *)
Theorem TaskPool_unusable evs g :
  program_run evs (mkProgram [] []) = Some (Ok g) ->
  Forall (fun p => tasks p = [] /\ received p = [] /\ started p = [] /\ Forall (fun w => w = Idle) (workers p)) (pools g) /\
  goroutines g = sum_list (spawned evs) /\
  (forall i e, is_call e = false -> program_step (At i e) g = None) /\
  (forall i t j, program_step (At i (Submit t)) g = None /\ program_step (At i (Handover t j)) g = None) /\
  (forall i, i ∈ refs g ->
     (forall t, program_step (At i (Cancel t)) g = Some (Ok g)) /\
     program_step (At i Close) g = Some (Panic (PFatal "close of nil channel"))).
Proof.
  intros Hrun. destruct (program_run_ok evs [] _ _ Hrun) as [[HF Hr] Hg]; [split; [by constructor|by intros i Hi%not_elem_of_nil]|]. cbn in HF, Hg.
  assert (forall i e, program_step (At i e) g <> None -> exists p r, pools g !! i = Some p /\ step e p = Some r /\
    (is_call e = true -> p = zero_pool)) as K.
  { intros i e Hst. cbn in Hst. case_decide as Hd; [|done]. destruct (pools g !! i) as [p|] eqn:Hp; [|done]. cbn in Hst.
    destruct (step e p) as [r|] eqn:He; [|done]. exists p, r. split_and!; [done..|]. intros Hc.
    specialize (Hr i (Hd Hc)). congruence. }
  assert (forall i e, (is_call e = false \/ exists t j, e = Submit t \/ e = Handover t j) -> program_step (At i e) g = None) as N.
  { intros i e Hor. destruct (program_step (At i e) g) as [x|] eqn:E; [|done].
    destruct (K i e) as (p & r & Hp & He & Hz); [by rewrite E|].
    pose proof (made_stuck _ _ _ _ (Forall_lookup_1 _ _ _ _ HF Hp) He) as Hs.
    destruct Hor as [Hc|(t & j & [->| ->])]; [by destruct e|by destruct Hs; apply Hz..]. }
  split_and!.
  - eapply Forall_impl; [exact HF|]. intros p [->|(n & c & _ & ->)]; cbn; [by split_and!; [..|constructor]|].
    split_and!; try done. by apply Forall_replicate.
  - exact Hg.
  - intros i e Hc. apply N. by left.
  - intros i t j. split; apply N; right; exists t, j; auto.
  - intros i Hi. pose proof (Hr i Hi) as Hp. split.
    + intros t. cbn. rewrite decide_True by done. rewrite Hp. cbn. rewrite list_insert_id by done. by destruct g.
    + cbn. rewrite decide_True by done. by rewrite Hp.
Qed.

(** ** A pool for a caller that has it *)

(** The tasks of the calls of [Submit] that returned nil. *)
Definition accepted (evs : list event) : list Task :=
  omap (fun e => match e with Submit t | Handover t _ => Some t | _ => None end) evs.
Definition held_task (w : worker) : option Task := match w with Holding t => Some t | _ => None end.
Definition busy_task (w : worker) : option Task := match w with Busy t => Some t | _ => None end.
Definition held (p : TaskPool) : list Task := omap held_task (workers p).
Definition running (p : TaskPool) : list Task := omap busy_task (workers p).

(** ** Invariants *)

Lemma omap_insert_at {B} (f : worker -> option B) (ws : list worker) i w w' :
  ws !! i = Some w ->
  exists l1 l2, omap f ws = l1 ++ omap f [w] ++ l2 /\ omap f (<[i := w']> ws) = l1 ++ omap f [w'] ++ l2.
Proof.
  intros Hi. exists (omap f (list.take i ws)), (omap f (drop (S i) ws)).
  rewrite <-(take_drop_middle ws i w) at 1 by done.
  rewrite insert_take_drop by (by eapply lookup_lt_Some). rewrite !omap_app. cbn.
  by destruct (f w), (f w').
Qed.
(** A goroutine moves on: what it holds and what it runs change accordingly. *)
Lemma omap_move {B} (f : worker -> option B) (ws : list worker) i w w' :
  ws !! i = Some w -> omap f [w] ++ omap f (<[i := w']> ws) ≡ₚ omap f [w'] ++ omap f ws.
Proof.
  intros Hi. destruct (omap_insert_at f ws i w w' Hi) as (l1 & l2 & -> & ->).
  rewrite !(Permutation_app_swap_app l1). apply Permutation_app_swap_app.
Qed.
Lemma omap_replicate_none {B} (f : worker -> option B) n w : f w = None -> omap f (replicate n w) = [].
Proof. intros Hf. induction n as [|n IH]; [done|]. cbn. by rewrite Hf. Qed.

(** What holds of a pool of [n] goroutines to which [acc] were submitted. *)
Record pool_ok (n c : nat) (acc : list Task) (p : TaskPool) : Prop := {
  ok_made : made p = true;
  ok_order : acc = received p ++ tasks p;
  ok_received : received p ≡ₚ started p ++ held p;
  ok_started : started p ≡ₚ finished p ++ running p;
  ok_capacity : capacity p = c /\ length (tasks p) <= c;
  ok_workers : length (workers p) = n;
  ok_open : closed p = false -> Forall (fun w => w <> Gone) (workers p)
}.

Lemma make_pool_ok numG cap p : make_pool numG cap = Ok p -> pool_ok (Z.to_nat numG) (Z.to_nat cap) [] p.
Proof.
  unfold make_pool. case_decide; [done|]. intros [= <-]. unfold held, running.
  split; cbn; rewrite ?omap_replicate_none, ?length_replicate by done; try done; [split; [done|lia]|].
  intros _. by apply Forall_replicate.
Qed.

Lemma receive_ok n c acc i t ts p q :
  workers p !! i = Some Idle -> acc = received p ++ t :: ts -> q = mkTaskPool (made p) (capacity p) ts (closed p) (workers p) (received p) (started p) (finished p) ->
  made p = true -> received p ≡ₚ started p ++ held p -> started p ≡ₚ finished p ++ running p ->
  capacity p = c /\ length ts <= c -> length (workers p) = n ->
  (closed p = false -> Forall (fun w => w <> Gone) (workers p)) ->
  pool_ok n c acc (receive i t q).
Proof.
  intros Hi -> -> Hm Hr Hs Hc Hn Ho. unfold held, running in *. split; cbn; unfold held, running; cbn.
  - done.
  - by rewrite <-app_assoc.
  - pose proof (omap_move held_task _ _ _ (Holding t) Hi) as H. cbn in H. rewrite H, Hr.
    rewrite <-Permutation_cons_append. apply Permutation_middle.
  - pose proof (omap_move busy_task _ _ _ (Holding t) Hi) as H. cbn in H. by rewrite H.
  - done.
  - by rewrite length_insert.
  - intros Hcl. by apply Forall_insert; [apply Ho|].
Qed.
Lemma step_ok n c acc e p p' :
  step e p = Some (Ok p') -> pool_ok n c acc p -> pool_ok n c (acc ++ accepted [e]) p'.
Proof.
  intros Hst [Hm Ha Hr Hs Hc Hn Ho]. destruct e as [t|t i|t| |i|i|i|i|i q]; cbn in Hst |- *; rewrite ?app_nil_r.
  - unfold submit in Hst. case_decide as Hlt; [|done]. injection Hst as <-. split; cbn; try done.
    + by rewrite Ha, app_assoc.
    + rewrite length_app. cbn. destruct Hc. split; [done|lia].
  - unfold handover in Hst. rewrite Hm in Hst. destruct (workers p !! i) as [[]|] eqn:Hi; try done.
    destruct (tasks p) eqn:Ht; [|done]. injection Hst as <-.
    eapply (receive_ok _ _ _ _ _ []); try done; [by rewrite Ha, app_nil_r|]. destruct p. cbn in *. by subst.
  - by injection Hst as <-.
  - unfold Close_ in Hst. rewrite Hm in Hst. destruct (closed p) eqn:Hcl; [done|]. by injection Hst as <-.
  - unfold take in Hst. destruct (workers p !! i) as [[]|] eqn:Hi; try done.
    destruct (tasks p) as [|t ts] eqn:Ht; [done|]. injection Hst as <-.
    eapply (receive_ok _ _ _ _ _ ts); try done. destruct Hc as [? Hl]. cbn in Hl. split; [done|lia].
  - unfold begin_task in Hst. destruct (workers p !! i) as [[]|] eqn:Hi; try done. injection Hst as <-.
    pose proof (omap_move held_task _ _ _ (Busy t) Hi) as Hh. pose proof (omap_move busy_task _ _ _ (Busy t) Hi) as Hb.
    unfold held, running in *. split; cbn; try done; unfold held, running; cbn in *.
    + by rewrite Hr, <-Hh, <-app_assoc.
    + rewrite Hs, Hb, <-Permutation_cons_append. apply Permutation_middle.
    + by rewrite length_insert.
    + intros Hcl. by apply Forall_insert; [apply Ho|].
  - unfold task_return in Hst. destruct (workers p !! i) as [[]|] eqn:Hi; try done. injection Hst as <-.
    pose proof (omap_move held_task _ _ _ Idle Hi) as Hh. pose proof (omap_move busy_task _ _ _ Idle Hi) as Hb.
    unfold held, running in *. split; cbn; try done; unfold held, running; cbn in *.
    + by rewrite Hr, Hh.
    + by rewrite Hs, <-Hb, <-app_assoc.
    + by rewrite length_insert.
    + intros Hcl. by apply Forall_insert; [apply Ho|].
  - unfold leave in Hst. destruct (workers p !! i) as [[]|] eqn:Hi; try done.
    destruct (closed p) eqn:Hcl; [|done]. injection Hst as <-.
    pose proof (omap_move held_task _ _ _ Gone Hi) as Hh. pose proof (omap_move busy_task _ _ _ Gone Hi) as Hb.
    unfold held, running in *. split; cbn; try done; unfold held, running; cbn in *.
    + by rewrite Hr, Hh.
    + by rewrite Hs, Hb.
    + by rewrite length_insert.
    + congruence.
  - unfold crash in Hst. by destruct (workers p !! i) as [[]|].
Qed.
Lemma run_ok n c evs acc p p' :
  run evs p = Some (Ok p') -> pool_ok n c acc p -> pool_ok n c (acc ++ accepted evs) p'.
Proof.
  revert acc p. induction evs as [|e evs IH]; intros acc p; cbn [run].
  - intros [= <-]. by rewrite app_nil_r.
  - destruct (step e p) as [[p1|]|] eqn:E; [|done|done]. intros Hr Hok.
    pose proof (step_ok _ _ _ _ _ _ E Hok) as H1. specialize (IH _ _ Hr H1).
    replace (acc ++ accepted (e :: evs)) with ((acc ++ accepted [e]) ++ accepted evs); [done|].
    rewrite <-app_assoc. f_equal. symmetry. apply (omap_app _ [e] evs).
Qed.

(** ** Progress *)

Definition own_event (e : event) : bool := match e with Take _ | Begin _ | Return _ => true | _ => false end.
(** What the goroutines still have to do. *)
Definition work (p : TaskPool) : nat := 3 * length (tasks p) + 2 * length (held p) + length (running p).
Lemma omap_find {B} (f : worker -> option B) (ws : list worker) b l :
  omap f ws = b :: l -> exists i w, ws !! i = Some w /\ f w = Some b.
Proof.
  intros H. assert (b ∈ omap f ws) as (w & Hw & Hf)%list_elem_of_omap by (rewrite H; left).
  apply list_elem_of_lookup in Hw as [i Hi]. eauto.
Qed.
Lemma omap_move_length {B} (f : worker -> option B) (ws : list worker) i w w' :
  ws !! i = Some w ->
  length (omap f [w]) + length (omap f (<[i := w']> ws)) = length (omap f [w']) + length (omap f ws).
Proof. intros Hi. rewrite <-!length_app. by apply Permutation_length, omap_move. Qed.
(** Of an open pool that has something to do, some goroutine can do some of it. *)
Lemma pool_works n c acc p :
  0 < n -> pool_ok n c acc p -> closed p = false -> work p <> 0 ->
  exists e p', step e p = Some (Ok p') /\ own_event e = true /\ closed p' = false /\ work p' < work p.
Proof.
  intros Hn Hok Hcl Hw. unfold work in *. destruct (running p) as [|t0 r] eqn:Hrun;
    [destruct (held p) as [|t0 r] eqn:Hheld|].
  - destruct (tasks p) as [|t ts] eqn:Ht; [done|].
    assert (exists w, workers p !! 0 = Some w) as [w Hi].
    { apply lookup_lt_is_Some. rewrite (ok_workers _ _ _ _ Hok). lia. }
    assert (w = Idle) as ->.
    { pose proof (Forall_lookup_1 _ _ _ _ (ok_open _ _ _ _ Hok Hcl) Hi) as Hg. unfold running, held in *.
      pose proof (omap_move_length held_task _ _ _ w Hi) as _. destruct w; try done.
      - destruct (omap_insert_at held_task _ _ _ Idle Hi) as (l1 & l2 & Hh & _). rewrite Hh in Hheld. cbn in Hheld. by destruct l1.
      - destruct (omap_insert_at busy_task _ _ _ Idle Hi) as (l1 & l2 & Hh & _). rewrite Hh in Hrun. cbn in Hrun. by destruct l1. }
    exists (Take 0). eexists. cbn. unfold take. rewrite Hi, Ht. split_and!; [done..|].
    pose proof (omap_move_length held_task _ _ _ (Holding t) Hi) as Hh. pose proof (omap_move_length busy_task _ _ _ (Holding t) Hi) as Hb.
    unfold held, running in *. cbn in *. rewrite Hrun in Hb. rewrite Hheld in Hh. cbn in *. lia.
  - destruct (omap_find _ _ _ _ Hheld) as (i & w & Hi & Hf). destruct w; try done.
    exists (Begin i). eexists. cbn. unfold begin_task. rewrite Hi. split_and!; [done..|].
    pose proof (omap_move_length held_task _ _ _ (Busy t) Hi) as Hh. pose proof (omap_move_length busy_task _ _ _ (Busy t) Hi) as Hb.
    unfold held, running in *. cbn in *. rewrite Hrun in Hb. rewrite Hheld in Hh. cbn in *. lia.
  - destruct (omap_find _ _ _ _ Hrun) as (i & w & Hi & Hf). destruct w; try done.
    exists (Return i). eexists. cbn. unfold task_return. rewrite Hi. split_and!; [done..|].
    pose proof (omap_move_length held_task _ _ _ Idle Hi) as Hh. pose proof (omap_move_length busy_task _ _ _ Idle Hi) as Hb.
    unfold held, running in *. cbn in *. rewrite Hrun in Hb. cbn in *. lia.
Qed.
Lemma pool_drains n c acc p :
  0 < n -> pool_ok n c acc p -> closed p = false ->
  exists evs p', run evs p = Some (Ok p') /\ Forall (fun e => own_event e = true) evs /\ pool_ok n c acc p' /\ work p' = 0.
Proof.
  intros Hn. remember (work p) as k eqn:Hk. revert p Hk.
  induction k as [k IH] using lt_wf_ind. intros p -> Hok Hcl.
  destruct (decide (work p = 0)) as [Hz|Hz]; [by exists [], p; split_and!|].
  destruct (pool_works _ _ _ _ Hn Hok Hcl Hz) as (e & p1 & He & Ho & Hc1 & Hlt).
  assert (pool_ok n c acc p1) as Hok1.
  { pose proof (step_ok _ _ _ _ _ _ He Hok) as H1. destruct e; try done; cbn in H1; by rewrite app_nil_r in H1. }
  destruct (IH _ Hlt _ eq_refl Hok1 Hc1) as (evs & p' & Hr & HF & HT).
  exists (e :: evs), p'. cbn [run]. rewrite He. split_and!; [done|by constructor|apply HT|apply HT].
Qed.

(** A pool whose goroutines have all left. *)
Definition all_gone (p : TaskPool) : Prop := closed p = true /\ Forall (fun w => w = Gone) (workers p).
Lemma gone_lookup p i w : all_gone p -> workers p !! i = Some w -> w = Gone.
Proof. intros [_ HF] Hi. by apply (Forall_lookup_1 _ _ _ _ HF Hi). Qed.
Lemma step_gone e p p' :
  step e p = Some (Ok p') -> all_gone p -> all_gone p' /\ started p' = started p.
Proof.
  intros Hst Hg. pose proof (gone_lookup p) as Hl. destruct e as [t|t i|t| |i|i|i|i|i q]; cbn in Hst;
    try (unfold handover, take, begin_task, task_return, leave, crash in Hst;
         destruct (workers p !! i) eqn:E; [rewrite (Hl _ _ Hg E) in Hst|]; by destruct (made p)).
  - unfold submit in Hst. case_decide; [|done]. by injection Hst as <-.
  - by injection Hst as <-.
  - unfold Close_ in Hst. destruct Hg as [Hc _]. rewrite Hc in Hst. by destruct (made p).
Qed.
Lemma run_gone evs p p' : run evs p = Some (Ok p') -> all_gone p -> started p' = started p.
Proof.
  revert p. induction evs as [|e evs IH]; intros p; cbn [run]; [by intros [= <-]|].
  destruct (step e p) as [[p1|]|] eqn:E; [|done|done]. intros Hr Hg.
  destruct (step_gone _ _ _ E Hg) as (Hg1 & <-). by apply IH.
Qed.

(** What a pool would do for a caller that had it, under every interleaving of
    submitters, goroutines and [Close].  Tasks are received in the order in which
    they were accepted; each is begun by the goroutine that received it, once, but
    two goroutines may begin theirs in the other order.  No more run at a time
    than there are goroutines, and no more wait than the capacity.  Until it is
    closed, a pool with goroutines can always run to the end everything that it
    has accepted.  But [Close] drops tasks: once the goroutines have left, nothing
    is begun any more, though [Submit] still accepts as many as the channel has
    room for. *)
Lemma TaskPool_tasks numG cap evs p0 p :
  make_pool numG cap = Ok p0 -> run evs p0 = Some (Ok p) ->
  (accepted evs = received p ++ tasks p /\ received p ≡ₚ started p ++ held p /\ started p ≡ₚ finished p ++ running p /\
   length (running p) <= Z.to_nat numG /\ length (tasks p) <= Z.to_nat cap) /\
  ((0 < numG)%Z -> closed p = false ->
     exists evs' p', run evs' p = Some (Ok p') /\ Forall (fun e => own_event e = true) evs' /\ accepted evs ≡ₚ finished p') /\
  (all_gone p -> forall evs' p', run evs' p = Some (Ok p') -> started p' = started p) /\
  (closed p = true -> forall t, length (tasks p) < Z.to_nat cap -> exists p', step (Submit t) p = Some (Ok p')).
Proof.
  intros Hnew Hrun. pose proof (run_ok _ _ _ _ _ _ Hrun (make_pool_ok _ _ _ Hnew)) as Hok.
  cbn [app] in Hok. split_and!; try apply Hok.
  - rewrite <-(ok_workers _ _ _ _ Hok). unfold running. clear. induction (workers p) as [|[] l IH]; cbn; lia.
  - intros Hn Hcl. destruct (pool_drains (Z.to_nat numG) _ _ _ ltac:(lia) Hok Hcl) as (evs' & p' & Hr & HF & Hok' & Hw).
    exists evs', p'. split_and!; [done|done|]. unfold work in Hw.
    rewrite (ok_order _ _ _ _ Hok'), (ok_received _ _ _ _ Hok'), (ok_started _ _ _ _ Hok').
    rewrite (nil_length_inv (tasks p')), (nil_length_inv (held p')), (nil_length_inv (running p')) by lia.
    by rewrite !app_nil_r.
  - intros Hg evs' p' Hr. by eapply run_gone.
  - intros Hcl t Hlt. cbn. unfold submit. rewrite (proj1 (ok_capacity _ _ _ _ Hok)).
    rewrite decide_True by (split; [apply Hok|done]). eauto.
Qed.
End pool.

(** Two goroutines begin their tasks in the other order. *)
Example begin_out_of_order :
  exists p, run [Submit 1; Submit 2; Take 0; Take 1; Begin 1; Begin 0]
    (mkTaskPool true 2 [] false [Idle; Idle] [] [] []) = Some (Ok p) /\ received p = [1; 2] /\ started p = [2; 1].
Proof. eexists. vm_compute. done. Qed.
(** A closed pool accepts what it will never begin. *)
Example close_drops :
  exists p, run [Submit 1; Submit 2; Take 0; Begin 0; Close; Return 0; Leave 0; Submit 3]
    (mkTaskPool true 2 [] false [Idle] [] [] []) = Some (Ok p) /\ tasks p = [2; 3] /\ workers p = [Gone].
Proof. eexists. vm_compute. done. Qed.

Definition demo_program : list (program_event (Task := nat)) := [New 2 3; Zero; At 1 (Cancel 7); New 3 0].
Definition demo_made : program (Task := nat) :=
  mkProgram [mkTaskPool true 3 [] false [Idle; Idle] [] [] []; zero_pool; mkTaskPool true 0 [] false [Idle; Idle; Idle] [] [] []] [1].
Lemma TaskPool_unusable_witness :
  program_run demo_program (mkProgram [] []) = Some (Ok demo_made) /\ goroutines demo_made = 5 /\
  program_step (At 0 (Take 0)) demo_made = None /\ program_step (At 1 (Submit 7)) demo_made = None /\
  program_step (At 1 Close) demo_made = Some (Panic (PFatal "close of nil channel")).
Proof.
  assert (program_run demo_program (mkProgram [] []) = Some (Ok demo_made)) as H by (vm_compute; reflexivity).
  destruct (TaskPool_unusable demo_program demo_made H) as (_ & Hg & Hw & Hs & Hr).
  split; [exact H|]. split; [exact Hg|]. split; [exact (Hw 0 (Take 0) eq_refl)|]. split; [exact (proj1 (Hs 1 7 0))|].
  refine (proj2 (Hr 1 _)). apply list_elem_of_singleton. reflexivity.
Defined.
