(* ===== verification/OrmGen.v ===== *)
(** The visitors of the code generator: [orm/gen/orm-gen/file.go], and the walk
    of [main.go] over the syntax tree of [go/ast].

    A node keeps what the visitors look at and its children in the order of
    [ast.Walk]. *)
From S2P Require Import Prelude.

Inductive node :=
  | NFile (Name : string) (children : list node)
  | ImportSpec (Name : option string) (Path : string)
  | TypeSpec (Name : string) (children : list node)
  | NField (Names : list string) (Type_ : node)
  | Ident (s : string)
  | StarExpr (X : node)
  | SelectorExpr (X : node) (Sel : string)
  | ArrayType (children : list node)
  | Other (children : list node).

Record Field := mkField { f_Name : string; f_Type : string }.
Record TypeVisitor := mkTypeVisitor { tv_name : string; tv_fields : list Field }.
Record FileVisitor := mkFileVisitor {
  Package : string; Imports : list string; types : list TypeVisitor }.
(** [Type] and [File], what [Get] returns. *)
Record Type_ := mkType { t_Name : string; t_Fields : list Field }.
Record File := mkFile { fl_Package : string; fl_Imports : list string; fl_Types : list Type_ }.

(** The visitors are pointers: [SingleFileEntryVisitor], its file, and the types
    of that file by position; the state is what they point to. *)
Inductive visitor := VSingle | VFile | VType (i : nat).
Definition state : Type := option FileVisitor.

Definition add_import (path : string) (f : FileVisitor) : FileVisitor :=
  mkFileVisitor (Package f) (Imports f ++ [path]) (types f).
Definition add_type (name : string) (f : FileVisitor) : FileVisitor :=
  mkFileVisitor (Package f) (Imports f) (types f ++ [mkTypeVisitor name []]).
Definition add_fields (i : nat) (fs : list Field) (f : FileVisitor) : FileVisitor :=
  mkFileVisitor (Package f) (Imports f)
    (alter (fun t => mkTypeVisitor (tv_name t) (tv_fields t ++ fs)) i (types f)).

(** The type switch of [TypeVisitor.Visit]. *)
Definition type_string (t : node) : go string :=
  match t with
  | Ident s => Ok s
  | StarExpr (Ident s) => Ok ("*" +:+ s)
  | StarExpr (SelectorExpr (Ident x) sel) => Ok ("*" +:+ x +:+ "." +:+ sel)
  | StarExpr (SelectorExpr _ _) => Panic PTypeAssert
  | StarExpr _ => Ok ""
  | ArrayType _ => Ok "[]byte"
  | _ => Ok "string"
  end.

(** [Visit] of the three visitors. *)
Definition visit (v : visitor) (n : node) (s : state) : go (visitor * state) :=
  match v with
  | VSingle =>
      match n with
      | NFile name _ => Ok (VFile, Some (mkFileVisitor name [] []))
      | _ => Ok (VSingle, s)
      end
  | VFile =>
      match s with
      | None => Panic PNilDeref
      | Some f =>
          match n with
          | TypeSpec name _ => Ok (VType (length (types f)), Some (add_type name f))
          | ImportSpec name path =>
              let path := match name with
                          | Some a => if decide (a <> "") then a +:+ " " +:+ path else path
                          | None => path
                          end in
              Ok (VFile, Some (add_import path f))
          | _ => Ok (VFile, s)
          end
      end
  | VType i =>
      match n with
      | NField names t =>
          match type_string t with
          | Ok typ => Ok (VType i, add_fields i ((fun name => mkField name typ) <$> names) <$> s)
          | Panic p => Panic p
          end
      | _ => Ok (VType i, s)
      end
  end.

(** [ast.Walk]; no visitor returns nil, and none does anything on the closing
    [Visit(nil)]. *)
Fixpoint walk (v : visitor) (n : node) (s : state) {struct n} : go state :=
  let walks := fix walks (v : visitor) (ns : list node) (s : state) {struct ns} : go state :=
    match ns with
    | [] => Ok s
    | n :: ns' => match walk v n s with Ok s' => walks v ns' s' | Panic p => Panic p end
    end in
  match visit v n s with
  | Panic p => Panic p
  | Ok (v, s) =>
      match n with
      | NFile _ ns | TypeSpec _ ns | ArrayType ns | Other ns => walks v ns s
      | NField _ t => walk v t s
      | StarExpr x | SelectorExpr x _ => walk v x s
      | ImportSpec _ _ | Ident _ => Ok s
      end
  end.
Fixpoint walks (v : visitor) (ns : list node) (s : state) : go state :=
  match ns with
  | [] => Ok s
  | n :: ns' => match walk v n s with Ok s' => walks v ns' s' | Panic p => Panic p end
  end.

(** [SingleFileEntryVisitor.Get] *)
Definition Get (s : state) : go File :=
  match s with
  | None => Panic PNilDeref
  | Some f => Ok (mkFile (Package f) (Imports f) ((fun t => mkType (tv_name t) (tv_fields t)) <$> types f))
  end.
(** The part of [gen] between the parser and the template. *)
Definition gen_file (f : node) : go File :=
  match walk VSingle f None with Ok s => Get s | Panic p => Panic p end.

(** ** The template [tpl.gohtml]

    A range is a concatenation; a left trim marker removes the white space before
    it. *)

(** A newline, a double quote, and a string literal as it is written. *)
Definition nl : string := String.String (Ascii.ascii_of_nat 10) String.EmptyString.
Definition dq : string := String.String (Ascii.ascii_of_nat 34) String.EmptyString.
Definition literal (s : string) : string := dq +:+ s +:+ dq.
Definition range {A} (body : A -> string) (xs : list A) : string := join "" (body <$> xs).

(** [Data] *)
Record Data := mkData { dt_File : File; Ops : list string }.
Definition tpl_import (import : string) : string := nl +:+ "    " +:+ import +:+ nl +:+ "    ".
Definition const_name (typ : Type_) (field : Field) : string := t_Name typ +:+ f_Name field.
Definition tpl_const (typ : Type_) (field : Field) : string :=
  nl +:+ "    //拼接你的类型名字，你的字段名字" +:+ nl +:+
  "    " +:+ const_name typ field +:+ " = " +:+ literal (f_Name field).
Definition tpl_func (typ : Type_) (field : Field) (op : string) : string :=
  nl +:+ "        func " +:+ const_name typ field +:+ op +:+ "(val " +:+ f_Type field +:+ ") orm.Predicate{" +:+ nl +:+
  "        return orm.C(" +:+ literal (f_Name field) +:+ ")." +:+ op +:+ "(val)" +:+ nl +:+ "        }".
Definition tpl_type (ops : list string) (typ : Type_) : string :=
  nl +:+ "const(" +:+ range (tpl_const typ) (t_Fields typ) +:+ nl +:+ ")" +:+
  range (fun field => range (tpl_func typ field) ops) (t_Fields typ) +:+ nl.
Definition Execute (d : Data) : string :=
  "package " +:+ fl_Package (dt_File d) +:+ nl +:+ nl +:+
  "import(" +:+ nl +:+ "    " +:+ literal "gotest/orm" +:+ nl +:+ "    " +:+
  range tpl_import (fl_Imports (dt_File d)) +:+ nl +:+ ")" +:+ nl +:+ nl +:+
  "//希望通过外面传进去" +:+ nl +:+ nl +:+ nl +:+
  range (tpl_type (Ops d)) (fl_Types (dt_File d)) +:+ nl +:+ nl.

(** [gen], to a writer that does not fail; [parser.ParseFile] is an argument. *)
Definition gen (ParseFile : string -> string + node) (srcFile : string) : go (string + string) :=
  match ParseFile srcFile with
  | inl err => Ok (inl err)
  | inr f => file ← gen_file f; Ok (inr (Execute (mkData file ["Lt"; "Gt"])))
  end.

(** ** What the generator collects *)

Fixpoint fields_of (n : node) : list Field :=
  match n with
  | NField names t =>
      ((fun name => mkField name (match type_string t with Ok typ => typ | Panic _ => "" end)) <$> names)
      ++ fields_of t
  | NFile _ ns | TypeSpec _ ns | ArrayType ns | Other ns => ns ≫= fields_of
  | StarExpr x | SelectorExpr x _ => fields_of x
  | ImportSpec _ _ | Ident _ => []
  end.
Fixpoint types_of (n : node) : list TypeVisitor :=
  match n with
  | TypeSpec name ns => [mkTypeVisitor name (ns ≫= fields_of)]
  | NFile _ ns | ArrayType ns | Other ns => ns ≫= types_of
  | NField _ x | StarExpr x | SelectorExpr x _ => types_of x
  | ImportSpec _ _ | Ident _ => []
  end.
Definition import_line (name : option string) (path : string) : string :=
  match name with Some a => if decide (a <> "") then a +:+ " " +:+ path else path | None => path end.
Fixpoint imports_of (n : node) : list string :=
  match n with
  | ImportSpec name path => [import_line name path]
  | NFile _ ns | ArrayType ns | Other ns => ns ≫= imports_of
  | NField _ x | StarExpr x | SelectorExpr x _ => imports_of x
  | TypeSpec _ _ | Ident _ => []
  end.
(** What the parser guarantees of a qualified type: a package before the dot. *)
Fixpoint qualified (n : node) : bool :=
  match n with
  | NField _ t =>
      match t with StarExpr (SelectorExpr (Ident _) _) => true | StarExpr (SelectorExpr _ _) => false | _ => true end
      && qualified t
  | StarExpr x | SelectorExpr x _ => qualified x
  | NFile _ ns | TypeSpec _ ns | ArrayType ns | Other ns => forallb qualified ns
  | ImportSpec _ _ | Ident _ => true
  end.

(** Induction over the tree, with the hypothesis for every child. *)
Section node_induction.
Context (P : node -> Prop).
Context (HFile : forall name ns, Forall P ns -> P (NFile name ns)).
Context (HImport : forall name path, P (ImportSpec name path)).
Context (HType : forall name ns, Forall P ns -> P (TypeSpec name ns)).
Context (HField : forall names t, P t -> P (NField names t)).
Context (HIdent : forall s, P (Ident s)) (HStar : forall x, P x -> P (StarExpr x)).
Context (HSel : forall x sel, P x -> P (SelectorExpr x sel)).
Context (HArray : forall ns, Forall P ns -> P (ArrayType ns)).
Context (HOther : forall ns, Forall P ns -> P (Other ns)).
Fixpoint node_tree_ind (n : node) : P n :=
  let all := fix all (ns : list node) : Forall P ns :=
    match ns with [] => Forall_nil_2 P | n :: ns' => Forall_cons_2 P n ns' (node_tree_ind n) (all ns') end in
  match n with
  | NFile name ns => HFile name ns (all ns)
  | ImportSpec name path => HImport name path
  | TypeSpec name ns => HType name ns (all ns)
  | NField names t => HField names t (node_tree_ind t)
  | Ident s => HIdent s
  | StarExpr x => HStar x (node_tree_ind x)
  | SelectorExpr x sel => HSel x sel (node_tree_ind x)
  | ArrayType ns => HArray ns (all ns)
  | Other ns => HOther ns (all ns)
  end.
End node_induction.

Lemma walk_eq v n s :
  walk v n s =
  match visit v n s with
  | Panic p => Panic p
  | Ok (v, s) =>
      match n with
      | NFile _ ns | TypeSpec _ ns | ArrayType ns | Other ns => walks v ns s
      | NField _ t => walk v t s
      | StarExpr x | SelectorExpr x _ => walk v x s
      | ImportSpec _ _ | Ident _ => Ok s
      end
  end.
Proof. destruct n; reflexivity. Qed.

Lemma add_fields_app i fs gs f : add_fields i gs (add_fields i fs f) = add_fields i (fs ++ gs) f.
Proof.
  unfold add_fields. cbn. f_equal. apply list_eq. intros j.
  destruct (decide (i = j)) as [<-|Hne].
  - rewrite !list_lookup_alter_eq. destruct (types f !! i) as [t|]; [|done]. cbn. by rewrite app_assoc.
  - by rewrite !list_lookup_alter_ne.
Qed.
Lemma add_fields_nil i f : add_fields i [] f = f.
Proof.
  destruct f as [p im ts]. unfold add_fields. cbn. f_equal. apply list_alter_id.
  intros [name fs]. cbn. by rewrite app_nil_r.
Qed.
Lemma type_string_qualified names t :
  qualified (NField names t) = true -> exists typ, type_string t = Ok typ.
Proof.
  cbn. destruct t as [| | | | |x| | |]; cbn; eauto. destruct x as [| | | | | |y sel| |]; cbn; eauto.
  destruct y; cbn; eauto; discriminate.
Qed.

Lemma walks_types i ns : forall f,
  Forall (fun n => qualified n = true -> forall f,
    walk (VType i) n (Some f) = Ok (Some (add_fields i (fields_of n) f))) ns ->
  forallb qualified ns = true ->
  walks (VType i) ns (Some f) = Ok (Some (add_fields i (ns ≫= fields_of) f)).
Proof.
  induction ns as [|n ns IH]; intros f HF Hq; cbn [walks].
  - by rewrite add_fields_nil.
  - apply Forall_cons in HF as [Hn HF]. cbn in Hq. apply andb_prop in Hq as [Hq Hqs].
    rewrite Hn by done. rewrite IH by done. by rewrite add_fields_app.
Qed.
(** Below a type, the fields of every level go to that type. *)
Lemma walk_type i n : qualified n = true -> forall f,
  walk (VType i) n (Some f) = Ok (Some (add_fields i (fields_of n) f)).
Proof.
  induction n as [name ns HF|name path|name ns HF|names t IH|s|x IH|x sel IH|ns HF|ns HF]
    using node_tree_ind; intros Hq f; rewrite walk_eq; cbn [visit fields_of];
    try (by apply walks_types); try (by apply IH); try by rewrite add_fields_nil.
  destruct (type_string_qualified _ _ Hq) as [typ ->]. cbn.
  cbn in Hq. apply andb_prop in Hq as [_ Hq]. rewrite IH by done. by rewrite add_fields_app.
Qed.

(** What a subtree adds to the file. *)
Definition add_node (n : node) (f : FileVisitor) : FileVisitor :=
  mkFileVisitor (Package f) (Imports f ++ imports_of n) (types f ++ types_of n).
Definition add_nodes (ns : list node) (f : FileVisitor) : FileVisitor :=
  mkFileVisitor (Package f) (Imports f ++ (ns ≫= imports_of)) (types f ++ (ns ≫= types_of)).
Lemma add_nothing f : mkFileVisitor (Package f) (Imports f ++ []) (types f ++ []) = f.
Proof. destruct f. cbn. by rewrite !app_nil_r. Qed.

Lemma walks_file ns : forall f,
  Forall (fun n => qualified n = true -> forall f, walk VFile n (Some f) = Ok (Some (add_node n f))) ns ->
  forallb qualified ns = true ->
  walks VFile ns (Some f) = Ok (Some (add_nodes ns f)).
Proof.
  induction ns as [|n ns IH]; intros f HF Hq; cbn [walks].
  - unfold add_nodes. cbn. by rewrite add_nothing.
  - apply Forall_cons in HF as [Hn HF]. cbn in Hq. apply andb_prop in Hq as [Hq Hqs].
    rewrite Hn by done. rewrite IH by done. unfold add_nodes, add_node. cbn. by rewrite <-!app_assoc.
Qed.
Lemma walk_file n : qualified n = true -> forall f,
  walk VFile n (Some f) = Ok (Some (add_node n f)).
Proof.
  induction n as [name ns HF|name path|name ns HF|names t IH|s|x IH|x sel IH|ns HF|ns HF]
    using node_tree_ind; intros Hq f; rewrite walk_eq; cbn [visit];
    try (by apply walks_file); try (by apply IH).
  - unfold add_node, add_import. cbn. by rewrite app_nil_r.
  - cbn in Hq. rewrite walks_types; [|apply Forall_true; intros; by apply walk_type|done].
    unfold add_node, add_fields, add_type. cbn. rewrite app_nil_r. do 3 f_equal.
    rewrite <-(Nat.add_0_r (length (types f))). rewrite alter_app_r. done.
  - cbn in Hq. apply andb_prop in Hq as [_ Hq]. by apply IH.
  - unfold add_node. cbn. by rewrite add_nothing.
Qed.

(** C37. What the generator collects from a parsed file: its package name; the
    imports in order, with their aliases; and one type for every type
    declaration that is not inside another one, wherever it stands, in order,
    with all the fields below it at every level, a field of several names once
    per name, before the fields of its own type.  This is what the template is
    executed on, with the two operators. *)
Theorem gen_file_spec ParseFile src name ns :
  ParseFile src = inr (NFile name ns) -> forallb qualified ns = true ->
  let file := mkFile name (ns ≫= imports_of)
                ((fun t => mkType (tv_name t) (tv_fields t)) <$> (ns ≫= types_of)) in
  gen_file (NFile name ns) = Ok file /\
  gen ParseFile src = Ok (inr (Execute (mkData file ["Lt"; "Gt"]))).
Proof.
  intros HP Hq file. assert (gen_file (NFile name ns) = Ok file) as H.
  { unfold gen_file. rewrite walk_eq. cbn [visit].
    rewrite walks_file; [done| |done]. apply Forall_true. intros. by apply walk_file. }
  split; [done|]. unfold gen. by rewrite HP, H.
Qed.

(** [testdata/user.go] *)
Definition user_go : node :=
  NFile "testdata" [
    Ident "testdata";
    Other [ImportSpec None (literal "database/sql")];
    Other [TypeSpec "User" [Ident "User"; Other [Other [
      NField ["Name"] (Ident "string");
      NField ["Age"] (StarExpr (Ident "int"));
      NField ["NickName"] (StarExpr (SelectorExpr (Ident "sql") "NullString"));
      NField ["Picture"] (ArrayType [Ident "byte"])]]]];
    Other [TypeSpec "UserDetail" [Ident "UserDetail"; Other [Other [NField ["Address"] (Ident "string")]]]]].

Lemma gen_file_spec_witness :
  gen_file user_go = Ok (mkFile "testdata" [literal "database/sql"] [
    mkType "User" [mkField "Name" "string"; mkField "Age" "*int";
                   mkField "NickName" "*sql.NullString"; mkField "Picture" "[]byte"];
    mkType "UserDetail" [mkField "Address" "string"]]).
Proof.
  refine (proj1 (gen_file_spec (fun _ => inr user_go) "user.go" "testdata" _ _ _)); reflexivity.
Defined.

(** The generator gives, for the test's source, the file that is kept in
    [testdata/user.gen.go]. *)
Definition const_lines (c f : string) : list string :=
  ["    //拼接你的类型名字，你的字段名字"; "    " +:+ c +:+ " = " +:+ literal f].
Definition func_lines (c f op ty : string) : list string :=
  ["        func " +:+ c +:+ op +:+ "(val " +:+ ty +:+ ") orm.Predicate{";
   "        return orm.C(" +:+ literal f +:+ ")." +:+ op +:+ "(val)"; "        }"].
Definition user_gen_go : string :=
  join nl (["package testdata"; ""; "import("; "    " +:+ literal "gotest/orm"; "    ";
    "    " +:+ literal "database/sql"; "    "; ")"; ""; "//希望通过外面传进去"; ""; ""; ""; "const("]
    ++ const_lines "UserName" "Name" ++ const_lines "UserAge" "Age"
    ++ const_lines "UserNickName" "NickName" ++ const_lines "UserPicture" "Picture" ++ [")"]
    ++ func_lines "UserName" "Name" "Lt" "string" ++ func_lines "UserName" "Name" "Gt" "string"
    ++ func_lines "UserAge" "Age" "Lt" "*int" ++ func_lines "UserAge" "Age" "Gt" "*int"
    ++ func_lines "UserNickName" "NickName" "Lt" "*sql.NullString"
    ++ func_lines "UserNickName" "NickName" "Gt" "*sql.NullString"
    ++ func_lines "UserPicture" "Picture" "Lt" "[]byte" ++ func_lines "UserPicture" "Picture" "Gt" "[]byte"
    ++ [""; "const("] ++ const_lines "UserDetailAddress" "Address" ++ [")"]
    ++ func_lines "UserDetailAddress" "Address" "Lt" "string"
    ++ func_lines "UserDetailAddress" "Address" "Gt" "string" ++ [""; ""; ""]).
Example gen_user : gen (fun _ => inr user_go) "testdata/user.go" = Ok (inr user_gen_go).
Proof. vm_compute. reflexivity. Qed.

(** The name of a constant is the type's and the field's one after the other, so
    two declarations of a file can get the same one. *)
Lemma constants_clash :
  const_name (mkType "User" []) (mkField "DetailAddress" "string") =
  const_name (mkType "UserDetail" []) (mkField "Address" "string").
Proof. reflexivity. Qed.
