(* ===== verification/Shutdown.v ===== *)
(** Graceful shutdown: [cache/homework_graceful_shutdown], the exercise
    ([service/shutdown.go]) and the answer ([service/shutdown_answer.go]), two
    builds of one package.

    An application is a state machine.  Its events are what the outside does
    (requests, signals, time) and what its goroutines do (the main one, the
    watchdog, one for each server to stop and one for each callback); an event
    that cannot happen in a state has no successor.  [http.Server] of the
    standard library is the requests it has taken and not answered, by where they
    are, and whether it still accepts.  The mark of a server is a plain bool, so a
    request may read the value it had before. *)
From S2P Require Import Prelude.

(** The two builds; they differ in how they wait. *)
Inductive build := Exercise | Answer.

(** ** The application *)

(** [App], less the state of its servers; a callback is known by its position. *)
Record App := mkApp {
  app_servers : nat; shutdownTimeout : Z; waitTime : Z; cbTimeout : Z; app_cbs : nat }.
Definition Option_ : Type := App -> App.
Definition second : Z := 1000000000.
Definition WithShutdownCallbacks (cbs : nat) : Option_ := fun app =>
  mkApp (app_servers app) (shutdownTimeout app) (waitTime app) (cbTimeout app) cbs.
Definition AppWithShutdownTimeout (t : Z) : Option_ := fun app =>
  mkApp (app_servers app) t (waitTime app) (cbTimeout app) (app_cbs app).
Definition AppWithWaitTimeout (t : Z) : Option_ := fun app =>
  mkApp (app_servers app) (shutdownTimeout app) t (cbTimeout app) (app_cbs app).
Definition AppWithCBTimeout (t : Z) : Option_ := fun app =>
  mkApp (app_servers app) (shutdownTimeout app) (waitTime app) t (app_cbs app).
Definition NewApp (servers : nat) (opts : list Option_) : App :=
  foldl (fun app opt => opt app) (mkApp servers (30 * second) (10 * second) (3 * second) 0) opts.

(** ** Servers *)

(** [Server] with its [serverMux]: the mark [reject]; the requests that are about
    to read it, those that have read that they may pass, and those in a handler;
    and whether its listener is open. *)
Record Server := mkServer { reject : bool; reading : nat; passed : nat; active : nat; listening : bool }.
Definition NewServer : Server := mkServer false 0 0 0 true.
Definition inside (s : Server) : nat := passed s + active s.

(** [serverMux.ServeHTTP], by the value that it reads from [reject]: the answer,
    or the handler of the mux below. *)
Inductive served := Rejected (code : Z) (body : string) | Delegated.
Definition ServeHTTP (reject : bool) : served :=
  if reject then Rejected 503 "服务已关闭" else Delegated.
Definition rejectReq (s : Server) : Server := mkServer true (reading s) (passed s) (active s) (listening s).
(** A request that reaches the server. *)
Definition request (s : Server) : option Server :=
  if listening s then Some (mkServer (reject s) (S (reading s)) (passed s) (active s) true) else None.
(** A request reads the mark, which is not synchronised: it sees the mark as it
    is, or as it was before [rejectReq]. *)
Definition visible (s : Server) (seen : bool) : bool := negb seen || reject s.
Definition check (seen : bool) (s : Server) : option Server :=
  match reading s with
  | S n =>
      if visible s seen then
        Some match ServeHTTP seen with
             | Rejected _ _ => mkServer (reject s) n (passed s) (active s) (listening s)
             | Delegated => mkServer (reject s) n (S (passed s)) (active s) (listening s)
             end
      else None
  | O => None
  end.
(** A request that passed enters its handler, and leaves it. *)
Definition enter_request (s : Server) : option Server :=
  match passed s with
  | O => None
  | S n => Some (mkServer (reject s) (reading s) n (S (active s)) (listening s))
  end.
Definition finish_request (s : Server) : option Server :=
  match active s with
  | O => None
  | S n => Some (mkServer (reject s) (reading s) (passed s) n (listening s))
  end.
(** [http.Server.Shutdown] closes the listener, and waits for all requests. *)
Definition close_listener (s : Server) : Server := mkServer (reject s) (reading s) (passed s) (active s) false.
Definition load (s : Server) : nat := reading s + inside s.

(** ** States and events *)

Inductive stop_state := SSpawned | SCalled | SReturned.
Inductive cb_state := CSpawned | CRunning | CDone | CSkipped.
(** Where the main goroutine is; deadlines are those of its contexts. *)
Inductive phase :=
  | Running
  | Rejecting (i : nat)
  | Sleeping (until : Z)
  | Stopping (deadline : option Z)
  | Calling (deadline : Z)
  | Closing (until : Z)
  | Finished
  | Exited.
(** The goroutine that forces the exit. *)
Inductive watchdog := WNone | WSpawned | WArmed (deadline : Z).

(** [stops] and [cbs] are the goroutines of the two groups the main one waits for. *)
Record state := mkState {
  ph : phase; svs : list Server; stops : list stop_state; cbs : list cb_state;
  now : Z; sigs : nat; wd : watchdog }.

Inductive event :=
  (** of the outside *)
  | Tick (d : Z) | Signal
  | Request (i : nat) | CheckRequest (i : nat) (seen : bool) | EnterRequest (i : nat) | FinishRequest (i : nat)
  (** of the watchdog *)
  | Watch | Force | Expire
  (** of the main goroutine and of those it starts *)
  | Start | Reject | Slept | StopCall (i : nat) | StopReturn (i : nat) | StopTimeout (i : nat)
  | Callbacks | CbStart (j : nat) | CbReturn (j : nat) | Close | Closed.

Definition ended (p : phase) : bool := match p with Finished | Exited => true | _ => false end.
Definition with_ph (p : phase) (s : state) : state :=
  mkState p (svs s) (stops s) (cbs s) (now s) (sigs s) (wd s).
Definition with_svs (l : list Server) (s : state) : state :=
  mkState (ph s) l (stops s) (cbs s) (now s) (sigs s) (wd s).
Definition with_stops (l : list stop_state) (s : state) : state :=
  mkState (ph s) (svs s) l (cbs s) (now s) (sigs s) (wd s).
Definition with_cbs (l : list cb_state) (s : state) : state :=
  mkState (ph s) (svs s) (stops s) l (now s) (sigs s) (wd s).
Definition with_wd (w : watchdog) (s : state) : state :=
  mkState (ph s) (svs s) (stops s) (cbs s) (now s) (sigs s) w.
Definition with_sigs (n : nat) (s : state) : state :=
  mkState (ph s) (svs s) (stops s) (cbs s) (now s) n (wd s).
Definition with_now (t : Z) (s : state) : state :=
  mkState (ph s) (svs s) (stops s) (cbs s) t (sigs s) (wd s).
(** A change of the [i]th element, where there is one and it may change. *)
Definition update {A} (i : nat) (f : A -> option A) (l : list A) : option (list A) :=
  x ← l !! i; y ← f x; Some (<[i := y]> l).

Definition stop_called (st : stop_state) : option stop_state :=
  match st with SSpawned => Some SCalled | _ => None end.
Definition stop_returned (st : stop_state) : option stop_state :=
  match st with SCalled => Some SReturned | _ => None end.
Definition cb_returned (c : cb_state) : option cb_state :=
  match c with CRunning => Some CDone | _ => None end.
(** A callback's goroutine: the exercise looks at the context first. *)
Definition cb_started (skip : bool) (c : cb_state) : option cb_state :=
  match c with CSpawned => Some (if skip then CSkipped else CRunning) | _ => None end.
Definition is_returned (st : stop_state) : bool := match st with SReturned => true | _ => false end.
Definition is_over (c : cb_state) : bool := match c with CDone | CSkipped => true | _ => false end.

Section app.
Context (b : build) (a : App).

Definition is_answer : bool := match b with Answer => true | Exercise => false end.
(** The capacity of the channel of signals. *)
Definition sig_cap : nat := if is_answer then 2 else 1.

Definition initial (t : Z) : state :=
  mkState Running (replicate (app_servers a) NewServer) [] [] t 0 WNone.
Definition spawn_stops (deadline : option Z) (s : state) : state :=
  with_ph (Stopping deadline) (with_stops (replicate (app_servers a) SSpawned) s).

(** One step of [shutdown] and of the goroutines it starts. *)
Definition shutdown_step (e : event) (s : state) : option state :=
  match e, ph s with
  | Reject, Rejecting i =>
      match svs s !! i with
      | Some sv => Some (with_ph (Rejecting (S i)) (with_svs (<[i := rejectReq sv]> (svs s)) s))
      | None =>
          Some (if is_answer then with_ph (Sleeping (now s + waitTime a)) s
                else spawn_stops (Some (now s + waitTime a)%Z) s)
      end
  | Slept, Sleeping until => if decide (until <= now s)%Z then Some (spawn_stops None s) else None
  | StopCall i, Stopping _ =>
      stops' ← update i stop_called (stops s);
      svs' ← update i (fun sv => Some (close_listener sv)) (svs s);
      Some (with_stops stops' (with_svs svs' s))
  | StopReturn i, Stopping _ =>
      sv ← svs s !! i;
      if decide (load sv = 0) then
        stops' ← update i stop_returned (stops s); Some (with_stops stops' s)
      else None
  | StopTimeout i, Stopping (Some dl) =>
      if decide (dl <= now s)%Z then
        stops' ← update i stop_returned (stops s); Some (with_stops stops' s)
      else None
  | Callbacks, Stopping _ =>
      if forallb is_returned (stops s)
      then Some (with_ph (Calling (now s + cbTimeout a)) (with_cbs (replicate (app_cbs a) CSpawned) s))
      else None
  | CbStart j, Calling dl =>
      cbs' ← update j (cb_started (negb is_answer && bool_decide (dl <= now s)%Z)) (cbs s);
      Some (with_cbs cbs' s)
  | CbReturn j, Calling _ => cbs' ← update j cb_returned (cbs s); Some (with_cbs cbs' s)
  | Close, Calling _ =>
      if forallb is_over (cbs s) then Some (with_ph (Closing (now s + second)) s) else None
  | Closed, Closing until => if decide (until <= now s)%Z then Some (with_ph Finished s) else None
  | _, _ => None
  end.

(** One step of [StartAndServe] and of its surroundings. *)
Definition step (e : event) (s : state) : option state :=
  if ended (ph s) then None
  else
    match e with
    | Tick d => if decide (0 < d)%Z then Some (with_now (now s + d)%Z s) else None
    | Request i => svs' ← update i request (svs s); Some (with_svs svs' s)
    | CheckRequest i seen => svs' ← update i (check seen) (svs s); Some (with_svs svs' s)
    | EnterRequest i => svs' ← update i enter_request (svs s); Some (with_svs svs' s)
    | FinishRequest i => svs' ← update i finish_request (svs s); Some (with_svs svs' s)
    | Signal => Some (if decide (sigs s < sig_cap) then with_sigs (S (sigs s)) s else s)
    | Start =>
        match ph s, sigs s with
        | Running, S n => Some (with_ph (Rejecting 0) (with_sigs n (with_wd WSpawned s)))
        | _, _ => None
        end
    | Watch =>
        match wd s with
        | WSpawned => Some (with_wd (WArmed (now s + shutdownTimeout a)) s)
        | _ => None
        end
    | Force =>
        match wd s, sigs s with
        | WArmed _, S n => Some (with_ph Exited (with_sigs n s))
        | _, _ => None
        end
    | Expire =>
        match wd s with
        | WArmed dl => if decide (dl <= now s)%Z then Some (with_ph Exited s) else None
        | _ => None
        end
    | _ => shutdown_step e s
    end.
Fixpoint run (evs : list event) (s : state) : option state :=
  match evs with [] => Some s | e :: evs' => s' ← step e s; run evs' s' end.

(** ** The order of a shutdown *)

(** What the outside never changes of a server. *)
Definition marks (l : list Server) : list (bool * bool) := (fun sv => (reject sv, listening sv)) <$> l.
Definition all_reject (s : state) : Prop := Forall (fun m => m.1 = true) (marks (svs s)).
(** The stops that have been called have closed their listeners. *)
Definition stops_ok (s : state) : Prop :=
  Forall2 (fun st m => st = SSpawned \/ m.2 = false) (stops s) (marks (svs s)).
Definition all_stopped (s : state) : Prop :=
  Forall (fun st => is_returned st = true) (stops s) /\ stops_ok s.

Definition phase_ok (s : state) : Prop :=
  match ph s with
  | Running => cbs s = []
  | Rejecting i => cbs s = [] /\ Forall (fun m => m.1 = true) (take i (marks (svs s)))
  | Sleeping _ => cbs s = [] /\ all_reject s
  | Stopping _ => cbs s = [] /\ all_reject s /\ stops_ok s
  | Calling _ => all_reject s /\ all_stopped s /\ length (cbs s) = app_cbs a
  | Closing _ | Finished =>
      all_reject s /\ all_stopped s /\ length (cbs s) = app_cbs a /\ Forall (fun c => is_over c = true) (cbs s)
  | Exited => cbs s = [] \/ (all_reject s /\ all_stopped s)
  end.
Definition wf (s : state) : Prop := length (svs s) = app_servers a /\ phase_ok s.

Lemma update_Some {A} i (f : A -> option A) l l' :
  update i f l = Some l' <-> exists x y, l !! i = Some x /\ f x = Some y /\ l' = <[i := y]> l.
Proof.
  unfold update. split.
  - destruct (l !! i) as [x|]; cbn; [|done]. destruct (f x) as [y|] eqn:E; cbn; [|done].
    intros [= <-]. eauto.
  - intros (x & y & -> & Hf & ->). cbn. by rewrite Hf.
Qed.
Lemma marks_insert i sv sv' l :
  l !! i = Some sv -> reject sv' = reject sv -> listening sv' = listening sv ->
  marks (<[i := sv']> l) = marks l.
Proof.
  intros Hl Hr Hs. unfold marks. rewrite list_fmap_insert, Hr, Hs. apply list_insert_id.
  by rewrite list_lookup_fmap, Hl.
Qed.
Lemma marks_update i f l l' :
  update i f l = Some l' ->
  (forall sv sv', f sv = Some sv' -> reject sv' = reject sv /\ listening sv' = listening sv) ->
  marks l' = marks l /\ length l' = length l.
Proof.
  intros (sv & sv' & Hl & Hf & ->)%update_Some Hm. destruct (Hm _ _ Hf).
  split; [by eapply marks_insert|apply length_insert].
Qed.
Lemma request_marks sv sv' : request sv = Some sv' -> reject sv' = reject sv /\ listening sv' = listening sv.
Proof. unfold request. destruct (listening sv) eqn:E; [|done]. intros [= <-]. cbn. by rewrite ?E. Qed.
Lemma check_marks seen sv sv' :
  check seen sv = Some sv' -> reject sv' = reject sv /\ listening sv' = listening sv.
Proof. unfold check. destruct (reading sv); [done|]. destruct (visible sv seen); [|done]. by destruct seen; intros [= <-]. Qed.
Lemma enter_request_marks sv sv' :
  enter_request sv = Some sv' -> reject sv' = reject sv /\ listening sv' = listening sv.
Proof. unfold enter_request. destruct (passed sv); [done|]. by intros [= <-]. Qed.
Lemma finish_request_marks sv sv' :
  finish_request sv = Some sv' -> reject sv' = reject sv /\ listening sv' = listening sv.
Proof. unfold finish_request. destruct (active sv); [done|]. by intros [= <-]. Qed.

(** The invariant looks at the servers through their marks only. *)
Lemma phase_ok_marks s l :
  marks l = marks (svs s) -> phase_ok s -> phase_ok (with_svs l s).
Proof.
  unfold phase_ok, all_stopped, stops_ok, all_reject. cbn [with_svs svs ph stops cbs]. by intros ->.
Qed.

Lemma Forall2_update_l {A B} (P : A -> B -> Prop) i f (l l' : list A) (k : list B) :
  update i f l = Some l' -> (forall x y z, f x = Some y -> P x z -> P y z) ->
  Forall2 P l k -> Forall2 P l' k.
Proof.
  intros (x & y & Hl & Hf & ->)%update_Some HP HF.
  destruct (Forall2_lookup_l _ _ _ _ _ HF Hl) as (z & Hz & Hxz).
  rewrite <-(list_insert_id k i z) by done. apply Forall2_insert; eauto.
Qed.
Lemma Forall_update {A} (P : A -> Prop) i f (l l' : list A) :
  update i f l = Some l' -> (forall x y, f x = Some y -> P x -> P y) -> Forall P l -> Forall P l'.
Proof.
  intros (x & y & Hl & Hf & ->)%update_Some HP HF. apply Forall_insert; [done|].
  eapply HP; [done|]. by eapply Forall_lookup_1.
Qed.

Lemma rejectReq_marks i sv l :
  l !! i = Some sv -> Forall (fun m => m.1 = true) (take i (marks l)) ->
  Forall (fun m => m.1 = true) (take (S i) (marks (<[i := rejectReq sv]> l))).
Proof.
  intros Hl HF. assert (marks (<[i := rejectReq sv]> l) !! i = Some (true, listening sv)) as Hm.
  { unfold marks. rewrite list_lookup_fmap, list_lookup_insert_eq by (by eapply lookup_lt_Some). done. }
  rewrite (take_S_r _ _ _ Hm). apply Forall_app. split; [|by repeat constructor].
  unfold marks in *. rewrite list_fmap_insert, take_insert_ge by lia. done.
Qed.

Lemma spawn_stops_ok dl s :
  length (svs s) = app_servers a -> stops_ok (spawn_stops dl s).
Proof.
  intros Hl. unfold stops_ok. cbn. apply Forall2_same_length_lookup_2.
  - unfold marks. by rewrite length_replicate, length_fmap.
  - intros i st m [-> _]%lookup_replicate _. by left.
Qed.

(** The listener of a server is closed before its stop is called. *)
Lemma stop_call_ok i s l1 l2 :
  update i stop_called (stops s) = Some l1 ->
  update i (fun sv => Some (close_listener sv)) (svs s) = Some l2 ->
  all_reject s -> stops_ok s ->
  all_reject (with_svs l2 s) /\ stops_ok (with_stops l1 (with_svs l2 s)).
Proof.
  intros (st & st' & Hs & Hf & ->)%update_Some (sv & sv' & Hl & Hv & ->)%update_Some Hr Ho.
  injection Hv as <-. unfold all_reject, stops_ok in *. cbn. unfold marks in *.
  rewrite list_fmap_insert. cbn. split.
  - apply Forall_insert; [done|]. cbn. apply (Forall_lookup_1 _ _ i (reject sv, listening sv)) in Hr; [done|].
    by rewrite list_lookup_fmap, Hl.
  - apply Forall2_insert; [done|]. by right.
Qed.

(** The events that a phase allows. *)
Ltac phase_events e Hst Ep :=
  destruct e; cbn [shutdown_step] in Hst; try rewrite Ep in Hst; try done.

Lemma stop_return_ok i s l :
  update i stop_returned (stops s) = Some l -> stops_ok s -> stops_ok (with_stops l s).
Proof.
  intros Hu. apply (Forall2_update_l _ i stop_returned); [exact Hu|].
  intros st st' m E [->|H]; [done|by right].
Qed.
Lemma cbs_over_update i f l l' :
  update i f l = Some l' -> (forall c c', f c = Some c' -> is_over c = false) ->
  Forall (fun c => is_over c = true) l -> False.
Proof.
  intros (c & c' & Hl & Hf & _)%update_Some Hn HF. specialize (Hn _ _ Hf).
  apply (Forall_lookup_1 _ _ i c) in HF; [congruence|done].
Qed.

Lemma reject_wf i s s' :
  ph s = Rejecting i -> shutdown_step Reject s = Some s' -> wf s -> wf s'.
Proof.
  unfold wf, phase_ok. cbn [shutdown_step]. intros Ep. rewrite Ep. intros Hst (Hlen & Hc & HF).
  destruct (svs s !! i) as [sv|] eqn:Hl; injection Hst as <-; cbn.
  - split; [by rewrite length_insert|]. split; [done|]. by apply rejectReq_marks.
  - assert (all_reject s) as Hr.
    { unfold all_reject. rewrite take_ge in HF; [done|].
      unfold marks. rewrite length_fmap. by apply lookup_ge_None. }
    destruct is_answer; cbn; split_and!; try done. by apply spawn_stops_ok.
Qed.
Lemma stopping_wf dl e s s' :
  ph s = Stopping dl -> shutdown_step e s = Some s' -> wf s -> wf s'.
Proof.
  unfold wf, phase_ok. intros Ep Hst. rewrite Ep. intros (Hlen & Hc & Hr & Ho).
  phase_events e Hst Ep.
  - destruct (update i stop_called _) as [l1|] eqn:E1; [|done]. cbn in Hst.
    destruct (update i _ (svs s)) as [l2|] eqn:E2; [|done]. injection Hst as <-.
    destruct (stop_call_ok i s l1 l2 E1 E2 Hr Ho) as [Hr' Ho'].
    apply update_Some in E2 as (? & ? & _ & _ & ->). cbn. rewrite Ep, length_insert. by split_and!.
  - destruct (svs s !! i) as [sv|]; [|done]. cbn in Hst. case_decide; [|done].
    destruct (update i _ _) as [l1|] eqn:E1; [|done]. injection Hst as <-. cbn. rewrite Ep.
    split_and!; [done|done|done|by eapply stop_return_ok].
  - destruct dl as [dl|]; [|done]. case_decide; [|done].
    destruct (update i _ _) as [l1|] eqn:E1; [|done]. injection Hst as <-. cbn. rewrite Ep.
    split_and!; [done|done|done|by eapply stop_return_ok].
  - destruct (forallb is_returned (stops s)) eqn:E; [|done]. injection Hst as <-. cbn.
    split_and!; [done|done| |by rewrite length_replicate]. split; [by apply forallb_Forall_true|done].
Qed.
Lemma calling_wf dl e s s' :
  ph s = Calling dl -> shutdown_step e s = Some s' -> wf s -> wf s'.
Proof.
  unfold wf, phase_ok. intros Ep Hst. rewrite Ep. intros (Hlen & Hr & Ho & Hn).
  phase_events e Hst Ep.
  - destruct (update j _ _) as [l|] eqn:E; [|done]. injection Hst as <-. cbn. rewrite Ep.
    split_and!; [done|done|done|]. apply update_Some in E as (? & ? & _ & _ & ->). by rewrite length_insert.
  - destruct (update j _ _) as [l|] eqn:E; [|done]. injection Hst as <-. cbn. rewrite Ep.
    split_and!; [done|done|done|]. apply update_Some in E as (? & ? & _ & _ & ->). by rewrite length_insert.
  - destruct (forallb is_over (cbs s)) eqn:E; [|done]. injection Hst as <-. cbn.
    split_and!; [done|done|done|done|by apply forallb_Forall_true].
Qed.
Lemma shutdown_step_wf e s s' : shutdown_step e s = Some s' -> wf s -> wf s'.
Proof.
  intros Hst Hw. destruct (ph s) eqn:Ep.
  - phase_events e Hst Ep.
  - assert (e = Reject) as -> by (phase_events e Hst Ep).
    by eapply reject_wf.
  - unfold wf, phase_ok in *. rewrite Ep in Hw. destruct Hw as (Hlen & Hc & Hr).
    phase_events e Hst Ep.
    case_decide; [|done]. injection Hst as <-. cbn. split_and!; try done. by apply spawn_stops_ok.
  - by eapply stopping_wf.
  - by eapply calling_wf.
  - unfold wf, phase_ok in *. rewrite Ep in Hw. phase_events e Hst Ep.
    case_decide; [|done]. by injection Hst as <-.
  - phase_events e Hst Ep.
  - phase_events e Hst Ep.
Qed.

(** Forcing the exit is possible from every phase. *)
Lemma exit_wf s : wf s -> phase_ok (with_ph Exited s).
Proof. intros [_ Hok]. unfold phase_ok in *. cbn. destruct (ph s); tauto. Qed.

(** What happens to the requests of a server leaves its marks. *)
Lemma update_wf i f s s' :
  (svs' ← update i f (svs s); Some (with_svs svs' s)) = Some s' ->
  (forall sv sv', f sv = Some sv' -> reject sv' = reject sv /\ listening sv' = listening sv) ->
  wf s -> wf s'.
Proof.
  unfold mbind, option_bind. destruct (update i f (svs s)) as [l|] eqn:E; [|done]. intros [= <-] Hf [Hlen Hok].
  destruct (marks_update _ _ _ _ E Hf) as [Hm Hl]. split; [cbn; congruence|by apply phase_ok_marks].
Qed.

Lemma step_wf e s s' : step e s = Some s' -> wf s -> wf s'.
Proof.
  unfold step. destruct (ended (ph s)) eqn:En; [done|]. intros Hst Hw.
  destruct e; try by eapply shutdown_step_wf.
  - case_decide; [|done]. by injection Hst as <-.
  - injection Hst as <-. by case_decide.
  - eapply update_wf; [exact Hst|apply request_marks|done].
  - eapply update_wf; [exact Hst|apply check_marks|done].
  - eapply update_wf; [exact Hst|apply enter_request_marks|done].
  - eapply update_wf; [exact Hst|apply finish_request_marks|done].
  - destruct (wd s); [done| |done]. by injection Hst as <-.
  - destruct (wd s), (sigs s); try done. injection Hst as <-. split; [apply Hw|by apply exit_wf].
  - destruct (wd s); [done|done|]. case_decide; [|done]. injection Hst as <-.
    split; [apply Hw|by apply exit_wf].
  - destruct (ph s) eqn:Ep; try done. destruct (sigs s); [done|]. injection Hst as <-.
    destruct Hw as [Hlen Hok]. unfold phase_ok in Hok. rewrite Ep in Hok. split; [done|]. by split.
Qed.

Lemma run_wf evs s s' : run evs s = Some s' -> wf s -> wf s'.
Proof.
  revert s. induction evs as [|e evs IH]; intros s; cbn; [by intros [= ->]|].
  destruct (step e s) as [s1|] eqn:E; cbn; [|done]. eauto using step_wf.
Qed.
Lemma initial_wf t : wf (initial t).
Proof. split; [apply length_replicate|done]. Qed.

(** ** Requests and servers that are stopping *)

(** How a server goes on.  Once it is marked, only requests that had read the mark
    before, or that read an old value ([k] of them), are on their way into its
    handlers; once its listener is closed, its requests only become fewer. *)
Definition goes (k : nat) (sv sv' : Server) : Prop :=
  (reject sv = true -> reject sv' = true /\ inside sv' <= inside sv + k) /\
  (listening sv = false -> listening sv' = false /\ load sv' <= load sv).
Lemma goes_refl sv : goes 0 sv sv.
Proof. split; split; try done; lia. Qed.
Lemma goes_trans k1 k2 x y z : goes k1 x y -> goes k2 y z -> goes (k1 + k2) x z.
Proof.
  intros [R1 L1] [R2 L2]. split; intros H.
  - destruct (R1 H) as [H' ?]. destruct (R2 H'). split; [done|lia].
  - destruct (L1 H) as [H' ?]. destruct (L2 H'). split; [done|lia].
Qed.
(** The reads of an old value at server [j]. *)
Definition stale_read (j : nat) (e : event) : bool :=
  match e with CheckRequest i false => bool_decide (i = j) | _ => false end.
Definition stale_count (j : nat) (e : event) : nat := if stale_read j e then 1 else 0.

Lemma request_goes sv sv' : request sv = Some sv' -> goes 0 sv sv'.
Proof.
  unfold request. destruct (listening sv) eqn:E; [|done]. intros [= <-]. split; [|congruence].
  intros Hr. unfold inside. cbn. split; [done|lia].
Qed.
Lemma check_goes seen sv sv' : check seen sv = Some sv' -> goes (if seen then 0 else 1) sv sv'.
Proof.
  unfold check, goes, load, inside. destruct (reading sv) as [|n]; [done|]. destruct (visible sv seen); [|done].
  destruct seen; intros [= <-]; cbn; split; intros H; split; try done; lia.
Qed.
Lemma enter_goes sv sv' : enter_request sv = Some sv' -> goes 0 sv sv'.
Proof.
  unfold enter_request, goes, load, inside. destruct (passed sv) as [|n]; [done|]. intros [= <-]. cbn.
  split; intros H; split; try done; lia.
Qed.
Lemma finish_goes sv sv' : finish_request sv = Some sv' -> goes 0 sv sv'.
Proof.
  unfold finish_request, goes, load, inside. destruct (active sv) as [|n]; [done|]. intros [= <-]. cbn.
  split; intros H; split; try done; lia.
Qed.
Lemma goes_mono k k' sv sv' : goes k sv sv' -> k <= k' -> goes k' sv sv'.
Proof. intros [H1 H2] Hk. split; [|done]. intros H. destruct (H1 H). split; [done|lia]. Qed.
Lemma update_lookup {A} i f (l l' : list A) j x :
  update i f l = Some l' -> l !! j = Some x -> l' !! j = Some x \/ (i = j /\ exists y, f x = Some y /\ l' !! j = Some y).
Proof.
  intros (x0 & y & Hl & Hf & ->)%update_Some Hj. destruct (decide (i = j)) as [->|Hne].
  - right. split; [done|]. exists y. assert (x0 = x) as <- by congruence.
    rewrite list_lookup_insert_eq; [done|]. by eapply lookup_lt_Some.
  - left. by rewrite list_lookup_insert_ne.
Qed.
Lemma update_goes k i f l l' j sv :
  update i f l = Some l' -> (forall x y, i = j -> f x = Some y -> goes k x y) -> l !! j = Some sv ->
  exists sv', l' !! j = Some sv' /\ goes k sv sv'.
Proof.
  intros Hu Hf Hj. destruct (update_lookup _ _ _ _ _ _ Hu Hj) as [H|[-> (y & Hy & H)]]; [|eauto].
  exists sv. split; [done|]. eapply goes_mono; [apply goes_refl|lia].
Qed.
(** An event of the requests of a server. *)
Lemma with_update_goes k i f s s' j sv :
  (svs' ← update i f (svs s); Some (with_svs svs' s)) = Some s' ->
  (forall x y, i = j -> f x = Some y -> goes k x y) -> svs s !! j = Some sv ->
  exists sv', svs s' !! j = Some sv' /\ goes k sv sv'.
Proof.
  unfold mbind, option_bind. destruct (update i f (svs s)) as [l|] eqn:E; [|done]. intros [= <-].
  by apply (update_goes k i f).
Qed.
Lemma step_goes e s s' j sv :
  step e s = Some s' -> svs s !! j = Some sv ->
  exists sv', svs s' !! j = Some sv' /\ goes (stale_count j e) sv sv'.
Proof.
  intros Hst Hj. unfold step in Hst. destruct (ended (ph s)); [done|].
  assert (svs s' = svs s -> exists sv', svs s' !! j = Some sv' /\ goes 0 sv sv') as Hsame.
  { intros ->. exists sv. split; [done|apply goes_refl]. }
  destruct e; cbn [shutdown_step] in Hst.
  3: { eapply with_update_goes; [exact Hst|by intros x y _ ?%request_goes|done]. }
  3: { eapply with_update_goes; [exact Hst| |done]. intros x y -> Hc%check_goes.
       unfold stale_count, stale_read. destruct seen; [done|]. by rewrite bool_decide_eq_true_2. }
  3: { eapply with_update_goes; [exact Hst|by intros x y _ ?%enter_goes|done]. }
  3: { eapply with_update_goes; [exact Hst|by intros x y _ ?%finish_goes|done]. }
  all: unfold mbind, option_bind in Hst.
  all: try (apply Hsame; repeat (case_match || case_decide); by simplify_eq/=).
  - destruct (ph s); try done. destruct (svs s !! i) as [sv0|] eqn:Hl; injection Hst as <-.
    + apply (update_goes _ i (fun sv => Some (rejectReq sv)) (svs s)); [| |done].
      * cbn. unfold update. by rewrite Hl.
      * intros x y _ [= <-]. unfold goes, load, inside. cbn. split; intros H; split; try done; lia.
    + apply Hsame. by destruct is_answer.
  - destruct (ph s); try done. destruct (update i stop_called (stops s)); [|done].
    destruct (update i _ (svs s)) as [k|] eqn:E; [|done]. injection Hst as <-.
    eapply update_goes; [exact E| |done]. intros x y _ [= <-]. unfold goes, load, inside. cbn.
    split; intros H; split; try done; lia.
Qed.
Lemma run_goes evs s s' j sv :
  run evs s = Some s' -> svs s !! j = Some sv ->
  exists sv', svs s' !! j = Some sv' /\ goes (sum_list_with (stale_count j) evs) sv sv'.
Proof.
  revert s sv. induction evs as [|e evs IH]; intros s sv; cbn.
  - intros [= ->] Hj. exists sv. split; [done|apply goes_refl].
  - destruct (step e s) as [s1|] eqn:E; cbn; [|done]. intros Hr Hj.
    destruct (step_goes _ _ _ _ _ E Hj) as (sv1 & Hj1 & H1).
    destruct (IH _ _ Hr Hj1) as (sv2 & Hj2 & H2). exists sv2. split; [done|by eapply goes_trans].
Qed.

(** How a stop comes to have returned. *)
Lemma step_returned e s s' i :
  step e s = Some s' -> stops s' !! i = Some SReturned ->
  stops s !! i = Some SReturned \/
  (exists dl sv, ph s = Stopping dl /\ stops s !! i = Some SCalled /\
     svs s !! i = Some sv /\ svs s' !! i = Some sv /\ load sv = 0) \/
  (exists dl, ph s = Stopping (Some dl)).
Proof.
  intros Hst Hi. unfold step in Hst. destruct (ended (ph s)); [done|].
  destruct e; cbn [shutdown_step] in Hst; unfold mbind, option_bind in Hst;
    try (left; repeat (case_match || case_decide); by simplify_eq/=).
  - left. destruct (ph s); try done. destruct (svs s !! i0); injection Hst as <-; [done|].
    destruct is_answer; cbn in Hi; [done|]. by apply lookup_replicate in Hi as [? _].
  - left. destruct (ph s); try done. case_decide; [|done]. injection Hst as <-. cbn in Hi.
    by apply lookup_replicate in Hi as [? _].
  - left. destruct (ph s); try done. destruct (update i0 stop_called (stops s)) as [k|] eqn:E; [|done].
    destruct (update i0 _ (svs s)); [|done]. injection Hst as <-. cbn in Hi.
    apply update_Some in E as (st & st' & Hl & Hf & ->). destruct (decide (i0 = i)) as [->|Hne].
    + rewrite list_lookup_insert_eq in Hi by (by eapply lookup_lt_Some). destruct st; simplify_eq/=.
    + by rewrite list_lookup_insert_ne in Hi.
  - destruct (ph s) eqn:Ep; try done. destruct (svs s !! i0) as [sv|] eqn:Hsv; [|done]. case_decide as H0; [|done].
    destruct (update i0 stop_returned (stops s)) as [k|] eqn:E; [|done]. injection Hst as <-. cbn in Hi.
    apply update_Some in E as (st & st' & Hl & Hf & ->). destruct (decide (i0 = i)) as [->|Hne].
    + right; left. exists deadline, sv. split_and!; try done. by destruct st.
    + left. by rewrite list_lookup_insert_ne in Hi.
  - destruct (ph s) as [| | |[dl|]| | | |]; try done. right; right. eauto.
Qed.
Lemma step_deadline e s s' dl :
  step e s = Some s' -> b = Answer -> ph s' = Stopping (Some dl) -> ph s = Stopping (Some dl).
Proof.
  intros Hst Hb Hp. unfold step in Hst. destruct (ended (ph s)); [done|].
  destruct e; cbn [shutdown_step] in Hst; unfold mbind, option_bind in Hst;
    repeat (case_match || case_decide); simplify_eq/=; try congruence.
  all: unfold is_answer in *; rewrite Hb in *; done.
Qed.

(** The answer waits for the requests of the servers that it stops. *)
Definition drained (s : state) : Prop :=
  (forall dl, ph s <> Stopping (Some dl)) /\
  forall i sv, stops s !! i = Some SReturned -> svs s !! i = Some sv -> listening sv = false /\ load sv = 0.
Lemma step_drained e s s' : b = Answer -> step e s = Some s' -> wf s -> drained s -> drained s'.
Proof.
  intros Hb Hst Hwf [Hd Ha]. pose proof (step_wf _ _ _ Hst Hwf) as [Hlen' _]. destruct Hwf as [Hlen Hok]. split.
  - intros dl Hp. by apply (Hd dl), (step_deadline e s s').
  - intros i sv' Hi Hsv'. destruct (step_returned _ _ _ _ Hst Hi) as [Hi0|[(dl & sv & Ep & Hc & H1 & H2 & H0)|[dl Ep]]].
    + destruct (svs s !! i) as [sv|] eqn:Hsv.
      * destruct (Ha _ _ Hi0 Hsv) as [Hr H0]. destruct (step_goes _ _ _ _ _ Hst Hsv) as (sv2 & H2 & [_ Hn]).
        assert (sv2 = sv') as -> by congruence. destruct (Hn Hr). split; [done|lia].
      * apply lookup_lt_Some in Hsv'. apply lookup_ge_None in Hsv. lia.
    + assert (sv = sv') as -> by congruence. split; [|done].
      unfold phase_ok in Hok. rewrite Ep in Hok. destruct Hok as (_ & _ & Ho).
      destruct (Forall2_lookup_l _ _ _ _ _ Ho Hc) as (m & Hm & [?|Hl]); [done|].
      unfold marks in Hm. rewrite list_lookup_fmap, H1 in Hm. by injection Hm as <-.
    + by destruct (Hd dl).
Qed.
Lemma run_drained evs s s' : b = Answer -> run evs s = Some s' -> wf s -> drained s -> drained s'.
Proof.
  intros Hb. revert s. induction evs as [|e evs IH]; intros s; cbn; [by intros [= ->]|].
  destruct (step e s) as [s1|] eqn:E; cbn; [|done]. eauto using step_wf, step_drained.
Qed.

(** C17. The order of a graceful shutdown, in both builds, whatever requests come,
    signals arrive and time passes.  When the first callback is started, every
    server is marked, has closed its listener, and its stop has returned; in the
    answer no request is left, neither in a handler nor on its way into one.
    When the application has finished, every callback has returned or was
    skipped.  A request that reads the mark of its server is answered 503.  The
    mark is not synchronised, so after it was set handlers are still entered: by
    the requests that had read it before, and by each that reads an old value,
    and by no others. *)
Theorem shutdown_order evs t s :
  run evs (initial t) = Some s ->
  (cbs s <> [] -> forall i sv, svs s !! i = Some sv ->
     reject sv = true /\ listening sv = false /\ stops s !! i = Some SReturned /\
     (b = Answer -> load sv = 0)) /\
  (ph s = Finished -> length (cbs s) = app_cbs a /\ Forall (fun c => c = CDone \/ c = CSkipped) (cbs s)) /\
  (forall i sv, svs s !! i = Some sv -> reject sv = true ->
     (forall sv', check true sv = Some sv' ->
        ServeHTTP true = Rejected 503 "服务已关闭" /\ inside sv' = inside sv /\ load sv' < load sv) /\
     forall evs' s', run evs' s = Some s' ->
       exists sv', svs s' !! i = Some sv' /\ reject sv' = true /\
         inside sv' <= inside sv + sum_list_with (stale_count i) evs').
Proof.
  intros Hrun. pose proof (run_wf _ _ _ Hrun (initial_wf t)) as [Hlen Hok]. split_and!.
  - intros Hcb i sv Hi.
    assert (all_reject s /\ all_stopped s) as [Hr [Hst Ho]]
      by (unfold phase_ok in Hok; destruct (ph s); tauto).
    assert (marks (svs s) !! i = Some (reject sv, listening sv)) as Hm
      by (unfold marks; by rewrite list_lookup_fmap, Hi).
    destruct (Forall2_lookup_r _ _ _ _ _ Ho Hm) as (st & Hsti & Hor).
    pose proof (Forall_lookup_1 _ _ _ _ Hst Hsti) as Hret. destruct st; try done.
    split_and!; [exact (Forall_lookup_1 _ _ _ _ Hr Hm)|by destruct Hor|done|].
    intros Hb. apply (run_drained _ _ _ Hb Hrun (initial_wf t)) with (i := i); [|done|done].
    split; [done|]. intros i' sv' Hi'. cbn in Hi'. rewrite lookup_nil in Hi'. done.
  - intros Hf. unfold phase_ok in Hok. rewrite Hf in Hok. destruct Hok as (_ & _ & Hn & Hall).
    split; [done|]. eapply Forall_impl; [exact Hall|]. intros []; cbn; try done; auto.
  - intros i sv Hi Hr. split.
    + intros sv'. unfold check, load, inside. destruct (reading sv) as [|n]; [done|].
      destruct (visible sv true); [|done]. intros [= <-]. cbn. split_and!; [done|done|lia].
    + intros evs' s' Hrun'. destruct (run_goes _ _ _ _ _ Hrun' Hi) as (sv' & Hi' & [Hn _]).
      destruct (Hn Hr). eauto.
Qed.

(** ** Termination *)

(** The events of the main goroutine and of those it starts. *)
Definition is_main (e : event) : bool :=
  match e with
  | Tick _ | Signal | Request _ | CheckRequest _ _ | EnterRequest _ | FinishRequest _ | Watch | Force | Expire => false
  | _ => true
  end.
Definition stop_work (st : stop_state) : nat :=
  match st with SSpawned => 2 | SCalled => 1 | SReturned => 0 end.
Definition cb_work (c : cb_state) : nat := match c with CSpawned => 2 | CRunning => 1 | _ => 0 end.
(** The steps left at most. *)
Definition work (s : state) : nat :=
  let n := app_servers a in let k := app_cbs a in
  match ph s with
  | Running => n + (2 * n + 2 * k + 6)
  | Rejecting i => (n - i) + (2 * n + 2 * k + 5)
  | Sleeping _ => 2 * n + 2 * k + 4
  | Stopping _ => sum_list_with stop_work (stops s) + (2 * k + 3)
  | Calling _ => sum_list_with cb_work (cbs s) + 2
  | Closing _ => 1
  | Finished | Exited => 0
  end.

Lemma sum_replicate {A} (f : A -> nat) n x : sum_list_with f (replicate n x) = n * f x.
Proof. induction n; cbn; lia. Qed.
Lemma sum_update {A} (w : A -> nat) i f (l l' : list A) :
  update i f l = Some l' -> (forall x y, f x = Some y -> w y < w x) ->
  sum_list_with w l' < sum_list_with w l.
Proof.
  intros (x & y & Hl & Hf & ->)%update_Some Hw. specialize (Hw _ _ Hf).
  revert i Hl. induction l as [|z l IH]; intros [|i] Hl; simplify_eq/=; [lia|].
  specialize (IH _ Hl). lia.
Qed.
Lemma step_work e s s' :
  step e s = Some s' -> length (svs s) = app_servers a ->
  work s' + (if is_main e then 1 else 0) <= work s.
Proof.
  intros Hst Hlen. unfold step in Hst. destruct (ended (ph s)) eqn:En; [done|].
  unfold work. destruct e; cbn [is_main shutdown_step] in *; unfold mbind, option_bind in Hst;
    step_cases Hst; unfold with_ph, with_svs, with_stops, with_cbs, with_wd, with_sigs, with_now, spawn_stops in *;
    cbn; rewrite ?sum_replicate; simplify_eq/=; try lia.
  1: pose proof (lookup_lt_Some _ _ _ Heqo); lia.
  all: match goal with Hp : ph ?s = _ |- _ => rewrite Hp end.
  all: match goal with Hu : update _ _ ?l = Some ?l' |- context [sum_list_with ?w ?l'] =>
         assert (sum_list_with w l' < sum_list_with w l); [eapply sum_update; [exact Hu|]|lia] end.
  all: intros [] y; cbn; intros; repeat case_match; simplify_eq/=; lia.
Qed.
Lemma run_work evs s s' :
  run evs s = Some s' -> wf s -> work s' + length (filter is_main evs) <= work s.
Proof.
  revert s. induction evs as [|e evs IH]; intros s; [intros [= ->] _; cbn; lia|].
  cbn [run]. destruct (step e s) as [s1|] eqn:E; cbn [mbind option_bind]; [|done]. intros Hr Hw.
  pose proof (step_work _ _ _ E (proj1 Hw)). specialize (IH _ Hr (step_wf _ _ _ E Hw)).
  rewrite filter_cons. unfold is_true. destruct (is_main e); case_decide; cbn [length]; try done; lia.
Qed.
Lemma run_app evs evs' s : run (evs ++ evs') s = s' ← run evs s; run evs' s'.
Proof.
  revert s. induction evs as [|e evs IH]; intros s; [done|]. cbn. destruct (step e s); [apply IH|done].
Qed.
Lemma run_cons e evs s s1 : step e s = Some s1 -> run (e :: evs) s = run evs s1.
Proof. intros H. cbn. by rewrite H. Qed.
Lemma run_one e s : run [e] s = step e s.
Proof. cbn. by destruct (step e s). Qed.

(** The events of an application that is left alone: no signal, no new request,
    no forced exit. *)
Definition calm (e : event) : bool :=
  match e with Request _ | Signal | Force | Expire => false | _ => true end.
Lemma step_calm e s s' :
  step e s = Some s' -> calm e = true -> ph s <> Running -> ph s' <> Running /\ ph s' <> Exited.
Proof.
  intros Hst Hc Hp. unfold step in Hst. destruct (ended (ph s)) eqn:En; [done|].
  assert (ph s' = ph s -> ph s' <> Running /\ ph s' <> Exited) as Hsame.
  { intros ->. split; [done|]. intros Hx. by rewrite Hx in En. }
  destruct e; try discriminate Hc; cbn [shutdown_step] in Hst; unfold mbind, option_bind in Hst;
    step_cases Hst; try (by apply Hsame); by split.
Qed.
Lemma run_calm evs s s' :
  run evs s = Some s' -> Forall (fun e => calm e = true) evs -> ph s <> Running -> ph s <> Exited ->
  ph s' <> Running /\ ph s' <> Exited.
Proof.
  revert s. induction evs as [|e evs IH]; intros s; cbn; [by intros [= ->]|].
  destruct (step e s) as [s1|] eqn:E; cbn; [|done]. intros Hr [Hc Hcs]%Forall_cons Hp _.
  destruct (step_calm _ _ _ E Hc Hp). eauto.
Qed.

(** The requests of a server come to an end one after the other. *)
Definition request_work (sv : Server) : nat := 3 * reading sv + 2 * passed sv + active sv.
Lemma run_drain n : forall i s sv,
  request_work sv <= n -> ended (ph s) = false -> svs s !! i = Some sv ->
  exists evs s' sv', run evs s = Some s' /\ Forall (fun e => calm e = true) evs /\
    ph s' = ph s /\ stops s' = stops s /\ svs s' !! i = Some sv' /\ load sv' = 0.
Proof.
  induction n as [n IH] using lt_wf_ind. intros i s sv Hn He Hi.
  destruct (decide (load sv = 0)) as [H0|H0].
  { exists [], s, sv. by split_and!. }
  assert (exists e f sv', calm e = true /\ f sv = Some sv' /\ request_work sv' < request_work sv /\
    step e s = svs' ← update i f (svs s); Some (with_svs svs' s)) as (e & f & sv' & Hc & Hf & Hw & Hst).
  { unfold step. rewrite He. unfold load, inside in H0. destruct (reading sv) as [|k] eqn:E1; [destruct (passed sv) as [|k] eqn:E2;
      [destruct (active sv) as [|k] eqn:E3; [lia|]|]|].
    - exists (FinishRequest i), finish_request. eexists. split_and!; [done|unfold finish_request; by rewrite E3| |done].
      unfold request_work. cbn. lia.
    - exists (EnterRequest i), enter_request. eexists. split_and!; [done|unfold enter_request; by rewrite E2| |done].
      unfold request_work. cbn. lia.
    - exists (CheckRequest i false), (check false). eexists. split_and!; [done|unfold check; by rewrite E1| |done].
      unfold request_work. cbn. lia. }
  assert (step e s = Some (with_svs (<[i := sv']> (svs s)) s)) as Hs1.
  { rewrite Hst. unfold update. rewrite Hi. cbn. by rewrite Hf. }
  destruct (IH (request_work sv')) with (i := i) (s := with_svs (<[i := sv']> (svs s)) s) (sv := sv')
    as (evs & s' & sv2 & Hr & HF & Hp & Hs & Hv & Hl); [lia|done|done| |].
  { apply list_lookup_insert_eq. by eapply lookup_lt_Some. }
  exists (e :: evs), s', sv2. split_and!; try done; [|by constructor]. cbn. by rewrite Hs1.
Qed.
(** Time passes until a deadline is over. *)
Lemma run_wait u s :
  ended (ph s) = false -> exists evs, run evs s = Some (with_now (Z.max u (now s)) s) /\ Forall (fun e => calm e = true) evs.
Proof.
  intros He. destruct (decide (now s < u)%Z) as [Hlt|Hge].
  - exists [Tick (u - now s)]. rewrite run_one. unfold step. rewrite He, decide_True by lia.
    split; [|by repeat constructor]. do 2 f_equal. lia.
  - exists []. split; [|done]. rewrite Z.max_r by lia. by destruct s.
Qed.

(** A shutdown that has started and not ended: its next step can be reached. *)
Definition can_step (s : state) : Prop :=
  exists evs e s', run (evs ++ [e]) s = Some s' /\ Forall (fun e => calm e = true) (evs ++ [e]) /\ is_main e = true.
Lemma can_step_now e s s' : step e s = Some s' -> calm e = true -> is_main e = true -> can_step s.
Proof. intros. exists [], e, s'. cbn [app]; rewrite run_one. split; [done|]. by repeat constructor. Qed.
Lemma can_step_after evs e s s1 s' :
  run evs s = Some s1 -> step e s1 = Some s' -> Forall (fun e => calm e = true) evs ->
  calm e = true -> is_main e = true -> can_step s.
Proof.
  intros H1 H2 HF Hc Hm. exists evs, e, s'. rewrite run_app, H1. cbn [mbind option_bind]. rewrite run_one.
  split; [done|]. split; [|done]. apply Forall_app. split; [done|]. by repeat constructor.
Qed.

Lemma stopping_can_step s dl : ph s = Stopping dl -> wf s -> can_step s.
Proof.
  intros Ep [Hlen Hok]. assert (ended (ph s) = false) as He by (by rewrite Ep).
  unfold phase_ok in Hok. rewrite Ep in Hok. destruct Hok as (_ & _ & Hso).
  destruct (forallb is_returned (stops s)) eqn:Ef.
  { eapply (can_step_now Callbacks); [|done|done]. unfold step. rewrite He. cbn. by rewrite Ep, Ef. }
  apply not_forallb in Ef as (i & st & Hi & Hst).
  destruct (Forall2_lookup_l _ _ _ _ _ Hso Hi) as (m & Hm & _).
  unfold marks in Hm. rewrite list_lookup_fmap in Hm. destruct (svs s !! i) as [sv|] eqn:Hsv; [|done].
  destruct st; [| |done].
  - eapply (can_step_now (StopCall i)); [|done|done]. unfold step. rewrite He. cbn. rewrite Ep.
    unfold update. rewrite Hi, Hsv. done.
  - destruct (run_drain _ i s sv (le_n _) He Hsv) as (evs & s1 & sv1 & Hr & HF & Hp1 & Hs1 & Hv1 & H0).
    eapply (can_step_after _ (StopReturn i)); [exact Hr| |exact HF|done|done].
    unfold step. rewrite Hp1, He. cbn. rewrite Hp1, Ep, Hv1. cbn. rewrite decide_True by done.
    unfold update. rewrite Hs1, Hi. done.
Qed.
Lemma calling_can_step s dl : ph s = Calling dl -> can_step s.
Proof.
  intros Ep. assert (ended (ph s) = false) as He by (by rewrite Ep).
  destruct (forallb is_over (cbs s)) eqn:Ef.
  { eapply (can_step_now Close); [|done|done]. unfold step. rewrite He. cbn. by rewrite Ep, Ef. }
  apply not_forallb in Ef as (j & c & Hj & Hc). destruct c; try done.
  - eapply (can_step_now (CbStart j)); [|done|done]. unfold step. rewrite He. cbn. rewrite Ep.
    unfold update. rewrite Hj. done.
  - eapply (can_step_now (CbReturn j)); [|done|done]. unfold step. rewrite He. cbn. rewrite Ep.
    unfold update. rewrite Hj. done.
Qed.
Lemma wf_can_step s : wf s -> ended (ph s) = false -> ph s <> Running -> can_step s.
Proof.
  intros Hw He Hr. destruct (ph s) as [|i|u|dl|dl|u| |] eqn:Ep; try done; try (by eapply stopping_can_step);
    try (by eapply calling_can_step); clear He.
  - destruct (svs s !! i) as [sv|] eqn:Hi; (eapply (can_step_now Reject); [|done|done]);
      unfold step; rewrite Ep; cbn; rewrite Ep, Hi; done.
  - destruct (run_wait u s) as (evs & Hr' & HF); [by rewrite Ep|].
    eapply (can_step_after _ Slept); [exact Hr'| |done|done|done].
    unfold step. cbn. rewrite Ep. cbn. by rewrite decide_True by lia.
  - destruct (run_wait u s) as (evs & Hr' & HF); [by rewrite Ep|].
    eapply (can_step_after _ Closed); [exact Hr'| |done|done|done].
    unfold step. cbn. rewrite Ep. cbn. by rewrite decide_True by lia.
Qed.
Lemma can_finish n s :
  work s <= n -> wf s -> ph s <> Running -> ph s <> Exited ->
  exists evs s', run evs s = Some s' /\ Forall (fun e => calm e = true) evs /\ ph s' = Finished.
Proof.
  revert s. induction n as [n IH] using lt_wf_ind. intros s Hn Hw Hr Hx.
  destruct (ended (ph s)) eqn:He.
  { exists [], s. split_and!; [done|done|]. by destruct (ph s). }
  destruct (wf_can_step s Hw He Hr) as (evs & e & s1 & Hr1 & HF & Hm).
  pose proof (run_work _ _ _ Hr1 Hw) as Hwk. rewrite filter_app, length_app, filter_cons, Hm in Hwk.
  rewrite decide_True in Hwk by done. cbn [length] in Hwk.
  destruct (run_calm _ _ _ Hr1 HF Hr Hx) as [Hr1' Hx1].
  destruct (IH (work s1)) with (s := s1) as (evs2 & s2 & Hr2 & HF2 & Hf); [lia|lia|by eapply run_wf|done|done|].
  exists ((evs ++ [e]) ++ evs2), s2. split_and!; [|by apply Forall_app|done]. rewrite run_app, Hr1. done.
Qed.

(** The watchdog is there from the first signal on. *)
Lemma step_wd e s s' :
  step e s = Some s' -> (ph s <> Running -> wd s <> WNone) -> ph s' <> Running -> wd s' <> WNone.
Proof.
  intros Hst Hw Hp. unfold step in Hst. destruct (ended (ph s)); [done|].
  destruct e; cbn [shutdown_step] in Hst; unfold mbind, option_bind in Hst; step_cases Hst; simplify_eq/=;
    first [done | congruence | apply Hw; cbn in Hp; congruence].
Qed.
Lemma run_wd evs s s' :
  run evs s = Some s' -> (ph s <> Running -> wd s <> WNone) -> ph s' <> Running -> wd s' <> WNone.
Proof.
  revert s. induction evs as [|e evs IH]; intros s; cbn; [by intros [= ->]|].
  destruct (step e s) as [s1|] eqn:E; cbn; [|done]. intros Hr Hw. eapply IH; [done|]. by eapply step_wd.
Qed.
Lemma can_expire s dl :
  ended (ph s) = false -> wd s = WArmed dl ->
  exists evs s', run evs s = Some s' /\ Forall (fun e => match e with Tick _ | Watch | Expire => True | _ => False end) evs /\
    ph s' = Exited /\ (now s' <= Z.max dl (now s))%Z.
Proof.
  intros He Ew. destruct (decide (now s < dl)%Z) as [Hlt|Hge].
  - exists [Tick (dl - now s); Expire], (with_ph Exited (with_now (now s + (dl - now s))%Z s)).
    split_and!; [|by repeat constructor|done|cbn; lia].
    erewrite run_cons by (unfold step; rewrite He, decide_True by lia; reflexivity).
    rewrite run_one. unfold step. cbn [ph wd with_now now]. rewrite He, Ew, decide_True by lia. done.
  - exists [Expire], (with_ph Exited s). split_and!; [|by repeat constructor|done|cbn; lia].
    rewrite run_one. unfold step. rewrite He, Ew, decide_True by lia. done.
Qed.
Lemma can_force s :
  ended (ph s) = false -> wd s <> WNone ->
  exists evs s', run evs s = Some s' /\ Forall (fun e => match e with Tick _ | Watch | Expire => True | _ => False end) evs /\
    ph s' = Exited /\ (now s' <= match wd s with WArmed dl => Z.max dl (now s) | _ => now s + Z.max 0 (shutdownTimeout a) end)%Z.
Proof.
  intros He Hw. destruct (wd s) as [| |dl] eqn:Ew; [done| |].
  - destruct (can_expire (with_wd (WArmed (now s + shutdownTimeout a)) s) (now s + shutdownTimeout a) He eq_refl)
      as (evs & s' & Hr & HF & Hx & Hn).
    exists (Watch :: evs), s'. split_and!; [|by constructor|done|cbn in Hn; lia].
    erewrite run_cons by (unfold step; rewrite He, Ew; reflexivity). exact Hr.
  - exact (can_expire s dl He Ew).
Qed.

(** Once armed, the watchdog stays so, with its deadline. *)
Definition armed (dl : Z) (s : state) : Prop := ph s <> Running /\ wd s = WArmed dl.
Lemma step_armed dl e s s' : step e s = Some s' -> armed dl s -> armed dl s'.
Proof.
  intros Hst [Hp Hw]. unfold step in Hst. destruct (ended (ph s)); [done|]. unfold armed.
  destruct e; cbn [shutdown_step] in Hst; unfold mbind, option_bind in Hst; step_cases Hst; simplify_eq/=;
    first [done | split; congruence].
Qed.
Lemma run_armed dl evs s s' : run evs s = Some s' -> armed dl s -> armed dl s'.
Proof.
  revert s. induction evs as [|e evs IH]; intros s; cbn; [by intros [= ->]|].
  destruct (step e s) as [s1|] eqn:E; cbn; [|done]. eauto using step_armed.
Qed.

(** C28. A shutdown can always end, in both builds.  The main goroutine and those
    it starts take at most [3n + 2k + 6] steps ([n] servers, [k] callbacks),
    whatever the outside does in between.  Once the first signal has come there
    is no deadlock: an application that is left alone, where handlers return and
    time passes, reaches the end of [StartAndServe], from wherever it is.  And if
    handlers or callbacks never return, there is the watchdog.  It is ready to
    arm its timer, or armed for good; from its deadline on, in every state of
    every run in which the application has not ended, its exit is possible, so
    that only a scheduler that never runs it could keep the application alive;
    and the clock and the watchdog alone bring about the exit at the deadline,
    without any step of the main goroutine. *)
Theorem shutdown_terminates evs t s :
  run evs (initial t) = Some s ->
  length (filter is_main evs) <= 3 * app_servers a + 2 * app_cbs a + 6 /\
  (ph s <> Running -> ended (ph s) = false ->
     (exists evs' s', run evs' s = Some s' /\ Forall (fun e => calm e = true) evs' /\ ph s' = Finished) /\
     ((wd s = WSpawned /\ step Watch s = Some (with_wd (WArmed (now s + shutdownTimeout a)) s)) \/
      exists dl, wd s = WArmed dl /\
        forall evs' s', run evs' s = Some s' -> ended (ph s') = false ->
          wd s' = WArmed dl /\ ((dl <= now s')%Z -> step Expire s' = Some (with_ph Exited s'))) /\
     (exists evs' s', run evs' s = Some s' /\
        Forall (fun e => match e with Tick _ | Watch | Expire => True | _ => False end) evs' /\ ph s' = Exited /\
        (now s' <= match wd s with WArmed dl => Z.max dl (now s)
                   | _ => now s + Z.max 0 (shutdownTimeout a) end)%Z)).
Proof.
  intros Hrun. split.
  - pose proof (run_work _ _ _ Hrun (initial_wf t)) as Hwk. cbn in Hwk. lia.
  - intros Hr He. pose proof (run_wd _ _ _ Hrun ltac:(done) Hr) as Hw. split_and!.
    + eapply (can_finish (work s)); [done|by eapply run_wf, initial_wf|done|]. intros Hx. by rewrite Hx in He.
    + destruct (wd s) as [| |dl] eqn:Ew; [done| |].
      * left. split; [done|]. unfold step. by rewrite He, Ew.
      * right. exists dl. split; [done|]. intros evs' s' Hr' He'. destruct (run_armed dl _ _ _ Hr' (conj Hr Ew)) as [_ Ew'].
        split; [done|]. intros Hdl. unfold step. by rewrite He', Ew', decide_True.
    + by apply can_force.
Qed.
End app.

(** The application of [main.go]: two servers, one callback. *)
Definition main_app : App := NewApp 2 [WithShutdownCallbacks 1].
Definition demo_events : list event :=
  [Request 0; CheckRequest 0 false; Request 0; Signal; Start; Watch; Reject; CheckRequest 0 false;
   EnterRequest 0; EnterRequest 0; Request 0; CheckRequest 0 true; Reject; Reject; Tick (10 * second); Slept;
   StopCall 0; FinishRequest 0; StopCall 1; StopReturn 1; FinishRequest 0; StopReturn 0; Callbacks; CbStart 0].
Lemma shutdown_order_witness :
  match run Answer main_app demo_events (initial main_app 0) with
  | Some s => cbs s = [CRunning] /\ forall i sv, svs s !! i = Some sv -> reject sv = true /\ load sv = 0
  | None => False
  end.
Proof.
  destruct (run Answer main_app demo_events (initial main_app 0)) as [s|] eqn:E; [|vm_compute in E; discriminate E].
  destruct (shutdown_order Answer main_app demo_events 0 s E) as [H1 _].
  assert (cbs s = [CRunning]) as Hc by (vm_compute in E; injection E as <-; reflexivity).
  split; [exact Hc|]. intros i sv Hi.
  assert (cbs s <> []) as Hne by (rewrite Hc; discriminate).
  destruct (H1 Hne i sv Hi) as (Hr & _ & _ & Ha). split; [exact Hr|exact (Ha eq_refl)].
Defined.
Lemma shutdown_terminates_witness :
  match run Answer main_app demo_events (initial main_app 0) with
  | Some s => length (filter is_main demo_events) <= 14 /\
      (exists evs s', run Answer main_app evs s = Some s' /\ ph s' = Finished) /\
      exists s', run Answer main_app [Tick (100 * second)] s = Some s' /\
        step Answer main_app Expire s' = Some (with_ph Exited s')
  | None => False
  end.
Proof.
  destruct (run Answer main_app demo_events (initial main_app 0)) as [s|] eqn:E; [|vm_compute in E; discriminate E].
  destruct (shutdown_terminates Answer main_app demo_events 0 s E) as [H1 H2]. split; [exact H1|].
  destruct H2 as [(evs & s' & Hr & _ & Hf) [Hw _]].
  - vm_compute in E. injection E as <-. discriminate.
  - vm_compute in E. injection E as <-. reflexivity.
  - split; [exists evs, s'; split; [exact Hr|exact Hf]|].
    destruct Hw as [[Hw _]|(dl & Hw & H3)]; [vm_compute in E; injection E as <-; discriminate Hw|].
    destruct (run Answer main_app [Tick (100 * second)] s) as [s2|] eqn:E2.
    2: { vm_compute in E. injection E as <-. vm_compute in E2. discriminate E2. }
    exists s2. split; [reflexivity|]. apply (H3 _ _ E2).
    + vm_compute in E. injection E as <-. vm_compute in E2. injection E2 as <-. reflexivity.
    + vm_compute in E. injection E as <-. vm_compute in E2. injection E2 as <-.
      vm_compute in Hw. injection Hw as <-. vm_compute. discriminate.
Defined.
