(* ===== verification/ShutdownMain.v ===== *)
(** The program of [cache/homework_graceful_shutdown/main.go]: the application of
    [Shutdown] with its callback, which flushes a cache.

    The callback waits for its context or for a channel on which nobody sends:
    [flush_late] shows that it never reports a flush, and that the program never
    ends before the deadline of its callbacks. *)
From S2P Require Import Prelude Shutdown.

(** A call of [StoreCacheToDBCallback]: what is in the channel [done], and until
    when its goroutine sleeps, [None] when it has ended. *)
Record flush := mkFlush { fl_done : nat; fl_job : option Z }.
(** The lines it logs. *)
Inductive flush_log := FlushTimedOut | Flushed.
#[export] Instance flush_log_eq_dec : EqDecision flush_log.
Proof. solve_decision. Defined.

Definition StoreCacheToDBCallback (now : Z) : flush := mkFlush 0 (Some (now + second)%Z).
(** The goroutine: it sleeps, and returns without a message. *)
Definition flush_job (now : Z) (f : flush) : option flush :=
  until ← fl_job f; if decide (until <= now)%Z then Some (mkFlush (fl_done f) None) else None.
(** The arms of the [select] that are ready. *)
Definition flush_select (deadline now : Z) (f : flush) : list flush_log :=
  (if decide (deadline <= now)%Z then [FlushTimedOut] else []) ++
  (if decide (0 < fl_done f) then [Flushed] else []).

(** The program: an event of the application, one of the goroutine of the
    callback, or the end of its [select]. *)
Inductive main_event := MApp (e : event) | MJob | MSelect (l : flush_log).
Definition main_state : Type := state * option flush.
Definition main_initial (t : Z) : main_state := (initial main_app t, None).

Section main.
Context (b : build).

Definition main_step (e : main_event) (x : main_state) : option main_state :=
  let '(s, f) := x in
  match e with
  | MApp (CbReturn _) => None
  | MApp (CbStart j) =>
      s' ← step b main_app (CbStart j) s;
      Some (s', match cbs s' !! j with Some CRunning => Some (StoreCacheToDBCallback (now s)) | _ => f end)
  | MApp e => s' ← step b main_app e s; Some (s', f)
  | MJob => f ← f; f' ← flush_job (now s) f; Some (s, Some f')
  | MSelect l =>
      f' ← f;
      match ph s with
      | Calling dl =>
          if decide (l ∈ flush_select dl (now s) f') then s' ← step b main_app (CbReturn 0) s; Some (s', f) else None
      | _ => None
      end
  end.
Fixpoint main_run (evs : list main_event) (x : main_state) : option main_state :=
  match evs with [] => Some x | e :: evs' => x' ← main_step e x; main_run evs' x' end.

(** A run of the program is one of the application. *)
Definition app_event (e : main_event) : list event :=
  match e with MApp e => [e] | MJob => [] | MSelect _ => [CbReturn 0] end.
Lemma main_step_app e x x' : main_step e x = Some x' -> run b main_app (app_event e) x.1 = Some x'.1.
Proof.
  destruct x as [s f]. unfold app_event, main_step, mbind, option_bind. intros H.
  destruct e as [e| |l]; [destruct e; try done|..]; rewrite ?run_one; step_cases H; simplify_eq/=; done.
Qed.
Lemma main_run_app evs x x' :
  main_run evs x = Some x' -> run b main_app (concat (app_event <$> evs)) x.1 = Some x'.1.
Proof.
  revert x. induction evs as [|e evs IH]; intros x; [by intros [= ->]|].
  rewrite fmap_cons. cbn [main_run concat].
  destruct (main_step e x) as [x1|] eqn:E; [|done]. intros H. rewrite run_app.
  rewrite (main_step_app _ _ _ E). by apply IH.
Qed.

(** Nobody sends on [done]; a callback is over only after the deadline [P]. *)
Definition flush_ok (P : Z -> Prop) (x : main_state) : Prop :=
  (forall f, x.2 = Some f -> fl_done f = 0) /\
  match ph x.1 with
  | Calling dl => P dl /\ length (cbs x.1) = 1 /\ (forall c, cbs x.1 = [c] -> is_over c = true -> (dl <= now x.1)%Z)
  | Closing _ | Finished => exists dl, P dl /\ (dl <= now x.1)%Z
  | Exited => True
  | _ => forall dl, P dl
  end.
Lemma update_one {A} j f (l l' : list A) :
  length l = 1 -> update j f l = Some l' -> exists x y, j = 0 /\ l = [x] /\ f x = Some y /\ l' = [y].
Proof.
  intros Hl (x & y & Hj & Hf & ->)%update_Some. destruct l as [|z [|? ?]]; [done| |done].
  destruct j as [|j]; [|done]. injection Hj as ->. by exists x, y.
Qed.
Lemma select_done f dl t l : fl_done f = 0 -> l ∈ flush_select dl t f -> l = FlushTimedOut /\ (dl <= t)%Z.
Proof.
  intros Hf. unfold flush_select. rewrite Hf. destruct (decide (0 < 0)) as [H|_]; [lia|].
  case_decide; cbn; [|by intros ?%not_elem_of_nil]. by intros ->%list_elem_of_singleton.
Qed.
Lemma app_ok P e s s' f :
  step b main_app e s = Some s' -> (forall j, e <> CbReturn j) -> flush_ok P (s, f) -> flush_ok P (s', f).
Proof.
  intros Hst Hne [Hf Hp]. split; [done|]. cbn [fst] in *. unfold step in Hst.
  destruct (ended (ph s)) eqn:En; [done|].
  destruct e; try by destruct (Hne j).
  all: cbn [shutdown_step] in Hst; unfold mbind, option_bind in Hst; step_cases Hst; simplify_eq/=; try done.
  all: try (destruct (is_answer b); cbn; done).
  all: repeat match goal with H : ph ?s = _ |- _ => rewrite H in * end; try done.
  - destruct (ph s); try done.
    + destruct Hp as (HP & Hl & Hc). split_and!; [done..|]. intros c Hc1 Ho. specialize (Hc c Hc1 Ho). lia.
    + destruct Hp as (dl & HP & Ht). exists dl. split; [done|lia].
  - split_and!; [done..|]. by intros c [= <-].
  - destruct Hp as (HP & Hl & _).
    match goal with E : update _ _ _ = Some _ |- _ =>
      destruct (update_one _ _ _ _ Hl E) as (x & y & _ & _ & Hy & ->) end.
    split_and!; [done..|]. intros c [= <-] Ho. destruct x; try done. cbn in Hy.
    destruct (negb (is_answer b)), (decide (deadline <= now s)%Z); try done;
      try rewrite bool_decide_eq_false_2 in Hy by done; cbn in Hy; injection Hy as <-; done.
  - destruct Hp as (HP & Hl & Hc). eexists. split; [exact HP|]. destruct (cbs s) as [|c [|? ?]]; try done.
    apply (Hc c); [done|]. match goal with E : forallb _ _ = true |- _ => cbn in E; by rewrite andb_true_r in E end.
Qed.
Lemma main_app_step e s f x' : main_step (MApp e) (s, f) = Some x' ->
  step b main_app e s = Some x'.1 /\ (forall j, e <> CbReturn j) /\
  (x'.2 = f \/ exists t, x'.2 = Some (StoreCacheToDBCallback t)).
Proof.
  unfold main_step, mbind, option_bind. intros H. destruct e; try done; step_cases H; simplify_eq/=; eauto.
Qed.
Lemma main_step_ok P e x x' : main_step e x = Some x' -> flush_ok P x ->
  flush_ok P x' /\ (forall l, e = MSelect l -> l = FlushTimedOut).
Proof.
  destruct x as [s f]. intros Hst Hok. pose proof Hok as [Hf Hp]. cbn [fst snd] in *.
  destruct e as [e| |l].
  - destruct (main_app_step _ _ _ _ Hst) as (Hs & Hne & Hx). split; [|done]. destruct x' as [s' f']. cbn [fst snd] in *.
    pose proof (app_ok P e s s' f Hs Hne Hok) as [_ Hp']. split; [|done]. cbn [snd].
    destruct Hx as [->|[t ->]]; [done|]. by intros g [= <-].
  - unfold main_step, mbind, option_bind in Hst. destruct f as [f|]; [|done].
    destruct (flush_job (now s) f) as [g|] eqn:Hj; [|done]. injection Hst as <-. split; [|done]. split; [|done].
    intros h [= <-]. unfold flush_job, mbind, option_bind in Hj. step_cases Hj. exact (Hf f eq_refl).
  - unfold main_step, mbind, option_bind in Hst. destruct f as [f|]; [|done]. destruct (ph s) as [| | | |dl| | |] eqn:Ep; try done.
    case_decide as Hl; [|done]. destruct (select_done f dl (now s) l) as [-> Hdl]; [by apply Hf|done|].
    split; [|by intros ? [= <-]]. destruct Hp as (HP & Hlen & _). unfold step in Hst. rewrite Ep in Hst. cbn in Hst.
    rewrite Ep in Hst. cbn in Hst. destruct (update 0 cb_returned (cbs s)) as [l|] eqn:Hu; [|done]. injection Hst as <-.
    split; [done|]. cbn. rewrite Ep. destruct (update_one _ _ _ _ Hlen Hu) as (c & c' & _ & _ & _ & ->). by split_and!.
Qed.
Lemma main_run_ok P evs x x' : main_run evs x = Some x' -> flush_ok P x ->
  flush_ok P x' /\ Forall (fun e => forall l, e = MSelect l -> l = FlushTimedOut) evs.
Proof.
  revert x. induction evs as [|e evs IH]; intros x; [by intros [= ->]|]. cbn [main_run].
  destruct (main_step e x) as [x1|] eqn:E; [|done]. intros H Hok.
  destruct (main_step_ok _ _ _ _ E Hok) as [Hok1 He]. destruct (IH _ H Hok1). split; [done|]. by constructor.
Qed.

(** The program of [main.go], in both builds and under any interleaving: its
    callback only ever logs that it timed out, and once the callbacks are called
    the program does not go on before their deadline, whether or not the
    goroutine that flushes the cache has ended long before. *)
Lemma flush_late evs1 evs2 t x1 x2 dl :
  main_run evs1 (main_initial t) = Some x1 -> ph x1.1 = Calling dl -> main_run evs2 x1 = Some x2 ->
  Forall (fun e => forall l, e = MSelect l -> l = FlushTimedOut) (evs1 ++ evs2) /\
  (ph x2.1 = Finished \/ (exists u, ph x2.1 = Closing u) -> (dl <= now x2.1)%Z).
Proof.
  intros H1 Hp H2. assert (flush_ok (fun _ => True) (main_initial t)) as H0 by (split; [done|]; by cbn).
  destruct (main_run_ok _ _ _ _ H1 H0) as [Hok1 HF1].
  assert (flush_ok (fun d => d = dl) x1) as Hok by (destruct Hok1 as [Hf Hq]; split; [done|]; rewrite Hp in Hq |- *; tauto).
  destruct (main_run_ok _ _ _ _ H2 Hok) as [[_ Hq] HF2]. split; [by apply Forall_app|].
  by intros [Hf|[u Hf]]; rewrite Hf in Hq; destruct Hq as (? & -> & Ht).
Qed.
End main.

(** The flush takes a second, and the callback three. *)
Definition main_calls : list main_event := MApp <$> demo_events.
Example flush_waits :
  (x ← main_run Answer (main_calls ++ [MApp (Tick second); MJob]) (main_initial 0); Some (ph x.1, x.2)) =
    Some (Calling (13 * second), Some (mkFlush 0 None)) /\
  main_run Answer (main_calls ++ [MApp (Tick second); MJob; MSelect Flushed]) (main_initial 0) = None /\
  (x ← main_run Answer (main_calls ++ [MApp (Tick (3 * second)); MSelect FlushTimedOut; MApp Close]) (main_initial 0); Some (ph x.1)) =
    Some (Closing (14 * second)).
Proof. vm_compute. done. Qed.
