(* ===== verification/Series.v ===== *)
(** [package/series/series.go]: the Fibonacci numbers in 64-bit integers. *)
From S2P Require Import Prelude.

(** [int] of a 64-bit platform. *)
Definition int64 (z : Z) : Z := ((z + 9223372036854775808) `mod` 18446744073709551616 - 9223372036854775808)%Z.

(** The rounds of the loop from index [i]. *)
Fixpoint fib_loop (rounds i : nat) (fibList : list Z) : go (list Z) :=
  match rounds with
  | O => Ok fibList
  | S rounds' =>
      a ← go_of_option PIndex (fibList !! (i - 2));
      b ← go_of_option PIndex (fibList !! (i - 1));
      fib_loop rounds' (S i) (fibList ++ [int64 (a + b)])
  end.
Definition GetFibonacci (n : Z) : go (list Z) := fib_loop (Z.to_nat (n - 2)) 2 [1; 1]%Z.

(** The numbers themselves: [fib_pair i] is those at [i] and [i + 1]. *)
Fixpoint fib_pair (i : nat) : Z * Z :=
  match i with O => (1, 1)%Z | S i' => let '(a, b) := fib_pair i' in (b, a + b)%Z end.
Definition fib (i : nat) : Z := (fib_pair i).1.

Lemma fib_step i : fib (S (S i)) = (fib i + fib (S i))%Z.
Proof. unfold fib. cbn. by destruct (fib_pair i). Qed.
Lemma fib_mono i j : i <= j -> (0 < fib i <= fib j)%Z.
Proof.
  assert (forall k, 0 < fib k /\ fib k <= fib (S k))%Z as K.
  { induction k as [|k [H1 H2]]; [cbn; lia|]. rewrite fib_step. lia. }
  induction 1 as [|j Hj IH]; [specialize (K i); lia|]. specialize (K j). lia.
Qed.
Lemma int64_add a b : int64 (int64 a + int64 b) = int64 (a + b).
Proof.
  unfold int64. f_equal.
  rewrite <-(Zplus_mod_idemp_l (a + b)), <-(Zplus_mod_idemp_l (_ + _)).
  set (M := 18446744073709551616%Z). set (H := 9223372036854775808%Z).
  rewrite !Zplus_mod_idemp_l.
  replace ((a + H) `mod` M - H + ((b + H) `mod` M - H) + H)%Z
    with ((a + H) `mod` M + ((b + H) `mod` M - H))%Z by lia.
  rewrite Zplus_mod_idemp_l.
  replace (a + H + ((b + H) `mod` M - H))%Z with ((b + H) `mod` M + a)%Z by lia.
  rewrite Zplus_mod_idemp_l. f_equal. lia.
Qed.
Lemma int64_small z : (- 9223372036854775808 <= z < 9223372036854775808)%Z -> int64 z = z.
Proof. intros H. unfold int64. rewrite Z.mod_small by lia. lia. Qed.

Lemma fib_loop_spec rounds : forall i,
  2 <= i -> fib_loop rounds i (int64 ∘ fib <$> seq 0 i) = Ok (int64 ∘ fib <$> seq 0 (i + rounds)).
Proof.
  induction rounds as [|rounds IH]; intros i Hi; cbn [fib_loop].
  - by rewrite Nat.add_0_r.
  - rewrite !list_lookup_fmap, !lookup_seq_lt by lia. cbn.
    rewrite int64_add. replace (fib (i - 2) + fib (i - 1))%Z with (fib i).
    2: { replace i with (S (S (i - 2))) at 1 by lia. rewrite fib_step. by replace (S (i - 2)) with (i - 1) by lia. }
    replace ((int64 ∘ fib <$> seq 0 i) ++ [int64 (fib i)]) with (int64 ∘ fib <$> seq 0 (S i))
      by (by rewrite seq_S, fmap_app).
    rewrite IH by lia. by rewrite Nat.add_succ_comm.
Qed.

(** [GetFibonacci] never panics.  It gives two numbers at least, even when fewer
    were asked for; every number is the Fibonacci number of its index, wrapped
    to 64 bits, and exact for the first 92. *)
Lemma GetFibonacci_spec n :
  exists l, GetFibonacci n = Ok l /\ length l = Nat.max 2 (Z.to_nat n) /\
    forall i, i < length l -> l !! i = Some (int64 (fib i)) /\ (i < 92 -> int64 (fib i) = fib i).
Proof.
  exists (int64 ∘ fib <$> seq 0 (2 + Z.to_nat (n - 2))).
  rewrite length_fmap, length_seq. split_and!.
  - exact (fib_loop_spec (Z.to_nat (n - 2)) 2 (le_n 2)).
  - lia.
  - intros i Hi. rewrite list_lookup_fmap, lookup_seq_lt by lia. split; [done|]. intros Hb.
    apply int64_small. pose proof (fib_mono i 91 ltac:(lia)).
    change (fib 91) with 7540113804746346429%Z in *. lia.
Qed.
(** The 93rd is negative. *)
Example GetFibonacci_overflow : (fun l => l !! 92) <$> GetFibonacci 93 = Ok (Some (-6246583658587674878)%Z).
Proof. vm_compute. reflexivity. Qed.
