(* ===== verification/Calc.v ===== *)
(** Body mass: [tTest/calc/cal_bmi/cal_bmi.go], [tTest/calc/calc_faterate/calc_faterate.go].

    A [float64] is a [spec_float] of the Standard Library with the operations at
    53 bits of precision and exponents up to 1024, which round to nearest even as
    the code does where products and sums are not fused. *)
From Stdlib Require Import SpecFloat.
From S2P Require Import Prelude.

Definition float64 : Type := spec_float.
Definition mul64 : float64 -> float64 -> float64 := SFmul 53 1024.
Definition add64 : float64 -> float64 -> float64 := SFadd 53 1024.
Definition sub64 : float64 -> float64 -> float64 := SFsub 53 1024.
Definition div64 : float64 -> float64 -> float64 := SFdiv 53 1024.
(** [float64(n)], and a decimal constant as the quotient of two small integers,
    which is the [float64] nearest to it. *)
Definition float_of_int (n : Z) : float64 := binary_normalize 53 1024 n 0 false.
Definition decimal (n d : Z) : float64 := div64 (float_of_int n) (float_of_int d).

(** [CalcBmi]: the check of [tall] has an empty body. *)
Definition CalcBmi (tall weight : float64) : float64 := div64 weight (mul64 tall tall).
Definition CalcFatRate (bmi : float64) (age : Z) (sex : string) : float64 :=
  let sexWeight := (if decide (sex = "男") then 1 else 0)%Z in
  div64
    (sub64
      (sub64 (add64 (mul64 (decimal 12 10) bmi) (mul64 (decimal 23 100) (float_of_int age))) (decimal 54 10))
      (mul64 (decimal 108 10) (float_of_int sexWeight)))
    (float_of_int 100).

(** A height of nothing is not refused: the quotient is infinite, or no number. *)
Lemma CalcBmi_zero s weight :
  CalcBmi (S754_zero s) weight =
  match weight with
  | S754_nan | S754_zero _ => S754_nan
  | S754_infinity sw | S754_finite sw _ _ => S754_infinity sw
  end.
Proof. by destruct s, weight as [sw|sw| |sw m e]; try destruct sw. Qed.
(** Neither is a negative one, which counts as its opposite. *)
Lemma CalcBmi_negative tall weight : CalcBmi (SFopp tall) weight = CalcBmi tall weight.
Proof. unfold CalcBmi, mul64. f_equal. destruct tall as [[]|[]| |[] m e]; done. Qed.
(** A positive one may still be squared to zero. *)
Example CalcBmi_underflow : CalcBmi (S754_finite false 4503599627370496 (-660)) (float_of_int 70) = S754_infinity false.
Proof. vm_compute. reflexivity. Qed.
Example CalcBmi_exact : CalcBmi (float_of_int 2) (float_of_int 80) = float_of_int 20.
Proof. vm_compute. reflexivity. Qed.
(** Any text that is not the one for men counts as a woman's. *)
Lemma CalcFatRate_sex bmi age s1 s2 : s1 <> "男" -> s2 <> "男" -> CalcFatRate bmi age s1 = CalcFatRate bmi age s2.
Proof. intros H1 H2. unfold CalcFatRate. by rewrite !decide_False. Qed.
(** The rate of a newborn is negative: -5.4 / 100. *)
Example CalcFatRate_negative : CalcFatRate (float_of_int 0) 0 "女" = SFopp (div64 (decimal 54 10) (float_of_int 100)).
Proof. vm_compute. reflexivity. Qed.
(** [CalcFatRate(23.7, 30, "男")], which prints as 0.19139999999999996. *)
Example CalcFatRate_man : CalcFatRate (decimal 237 10) 30 "男" = S754_finite false 6895911749429702 (-55).
Proof. vm_compute. reflexivity. Qed.
